(* ===== verification/_CoqProject ===== *)
-Q . S2P
Prelude.v
TriggerRule.v
Tables.v
Store.v
TxLogic.v
RunState.v
TaskOps.v
Leases.v
RunOps.v
Dequeuer.v
RunTheorems.v
QueueTheorems.v
RetryTheorems.v
RunStateInv.v
Advance.v
OwnerSteps.v
Topology.v
JobGraph.v
Register.v
SqlAdvance.v
TaskTheorems.v
OwnerRun.v
OwnerTheorems.v
Recovery.v
Replay.v
Checkpoints.v
OwnerManager.v
Durable.v
RateLimit.v
JobDef.v
StepGraph.v
StepTheorems.v
Validate.v
ValidateTheorems.v
RuntimeSpec.v
Dag.v
Importer.v
ImportTheorems.v
Claimer.v
ClaimTheorems.v
RunWait.v
TriggerChain.v
ChainTheorems.v
EventTrigger.v
EventTheorems.v
RouteTheorems.v
TriggerImport.v
LocalExec.v
LocalPolicy.v
LocalRows.v
LocalTask.v
LocalInv.v
LocalLoop.v
LocalSystem.v
LocalRun.v
LocalModes.v
LocalFindings.v
Dispatch.v
DispatchLoop.v
Cluster.v
DispatchTheorems.v
Findings.v
SchemaCompat.v
SchemaTheorems.v
ContractGraph.v
ContractGate.v
ContractTheorems.v
