(* ===== verification/Prelude.v ===== *)
(** * Caesium: scheduling of job runs

    Caesium runs jobs that are DAGs of containerized steps. A job definition (a YAML
    document) is validated and imported into a catalog of jobs, tasks and edges; a
    trigger starts a run under the job's concurrency policy or queues it; the tasks of
    the run are registered as rows and advanced as their predecessors finish, either by
    SQL on the rows or, in owner mode, by a node that holds a lease on the run, keeps
    the DAG state in memory, pushes ready tasks to worker nodes over HTTP and receives
    their completion reports. Owners checkpoint the state and recover runs whose lease
    expired. All shared state is in one replicated SQL database.

    ** Parts and files

    Definitions (pkg/jobdef, internal/dag, internal/jobdef):
    - [JobDef]: the document types of definition.go and container/spec.go, the error
      monad [checked]; [StepGraph]: [computeStepAdjacency], [DeriveStepSuccessors],
      [detectCycles]; [Validate]: the whole of [Definition.Validate] with schema.go;
      [RuntimeSpec]: [RuntimeSpecForStep]; [Dag]: [Analyze] of internal/dag.
    - [Importer]: [ApplyWithOptions] and [PruneMissing] of internal/jobdef/importer.go
      over a catalog of job, trigger, task and edge rows with soft deletion; [publish] gives the live rows to the
      tables the run packages read.
    - Theorems: [StepTheorems] (the accepted step lists are exactly the well formed
      acyclic ones, for every map iteration order), [ValidateTheorems] (idempotence),
      [RuntimeSpec] (what a validated definition guarantees), [Dag] (layers are longest
      chains), [ImportTheorems] (an imported job's runs load its step graph and
      complete; its settings are read back unchanged).

    Runs in the database (internal/run/store.go and the files beside it):
    - [Tables]: a record per row type of internal/models and the statement shapes;
      [Store], [TxLogic]: transactions, the bounded contention retry and the closure of
      relations under them; [TaskOps]: operations on task rows; [RunOps]: start,
      admission, queue, cancellation, completion, retry; [Dequeuer]: one pass of
      internal/runqueue; [Leases]: lease.go; [JobGraph], [Register]: the executor's
      graph (internal/job/job.go) and the registration of task rows; [SqlAdvance]:
      completion, cache hits and the skip cascade in SQL.
    - Theorems: [RunTheorems], [QueueTheorems], [RetryTheorems] (concurrency limit,
      queue order and draining, cancellation, retry), [TaskTheorems] (terminal rows are
      final, claims exclusive, the skip cascade, atomic retry), [Leases] (generations
      name owners), [JobGraph], [Register] (both advancement paths see the same DAG).

    Owner mode (internal/run/owner_*.go, recovery.go, checkpoint_*.go):
    - [TriggerRule]: statuses and both copies of the rule evaluator; [RunState]: the
      in-memory state machine [RunState]; [Topology]: [LoadRunTopology];
      [Recovery]: snapshots and [RecoverRunState]; [Checkpoints]: the checkpoint store
      and the writer behind its interface [checkpointPersister]; [OwnerManager]: the
      manager over memory and database.
    - Theorems: [RunStateInv], [Advance], [OwnerSteps] (the invariant and the effect of
      every operation), [OwnerRun], [OwnerTheorems] (the step relation of a run:
      reachable states, progress, completion under any schedule, and, without branch
      decisions, a unique outcome), [Replay] (recovery is
      the crashed state with its in-flight tasks requeued), [Durable] (memory and rows
      agree through crashes and through failed checkpoint writes).

    The cluster (internal/dispatch, internal/worker, internal/ratelimit):
    - [Dispatch]: both HTTP handlers and the worker's buffer behind the class
      [WorkerSubmitter]; [DispatchLoop]: the owner's sweep; [RateLimit]: the limiter;
      [Claimer]: claimer.go, the nodes that pull tasks of runs without an owner.
    - Theorems: [RateLimit] (a window grants at most its limit when all requests
      for a resource declare one window), [DispatchTheorems] (fencing, all-or-nothing
      dispatch, peer rotation), [Cluster] (the protocol under lost messages and database errors refines the system of [Durable]),
      [ClaimTheorems] (claims take the best eligible task, respect owners and other
      claims, and pick up the tasks of dead workers).

    The in-process executor (internal/job/job.go, internal/job/failure_policy.go):
    - [LocalExec]: the scheduling loop of [Run] with its local variables as a record
      ([ExecState]), the goroutine of a task as a program of store calls ([Proc]), and the
      system of both on one database as a step relation ([sys_step]): the loop tests its
      condition, dispatches one task or handles one result per step, a goroutine makes one
      store call per step. [RunWait]: the wait of the triggering node of a distributed run.
    - Theorems: [LocalRows] (total correctness of the SQL operations on the rows of a run
      that agree with an outcome), [LocalTask] (what a goroutine answers and how many calls
      it makes), [LocalInv], [LocalLoop], [LocalSystem] (the invariant of the loop, through
      the in-memory cascade, results, dispatch and store calls), [LocalRun] (the outcome
      of a run is the solution of its equations; a run without failures ends), [LocalModes]
      (the executor and the run owner give the same outcomes), [LocalPolicy]
      (the walks of the failure policy, retry delays), [RunWait] (the verdict of a tick),
      [LocalFindings] (schedules in which a task is skipped or run twice). The equations are
      those of [OwnerTheorems] for owner mode. The theorems on the loop assume prompt
      delivery: no store call is made while a result waits to be received; the schedule of
      [late_result_runs_task_twice] shows that they fail without it.

    Event triggers (internal/jobdef/trigger_cycle.go, internal/trigger/event):
    - [TriggerChain]: the check that a batch of definitions closes no chain of event
      triggers, and the patterns and life-cycle events the router matches, with
      [path.Match] of Go's library; [EventTrigger]: event.go and router.go, that is the
      configuration and patterns of a trigger, the parameters it extracts from an event,
      the depth of a trigger chain, and the transaction that routes one event to every
      matching trigger and records the matches.
    - Theorems: [ChainTheorems] (the search is exact; in an accepted catalog no job can
      start itself again through life-cycle events), [EventTheorems] (a chain of runs
      started by each other's events has bounded length), [RouteTheorems] (routing an
      event starts exactly one run per live job behind a matching trigger, or nothing at
      all), [TriggerImport] (the trigger a definition declares is the one that fires).

    Contracts between jobs (pkg/jobdef/schemacompat, internal/contract):
    - [SchemaCompat]: [Compare] and [Satisfies] over JSON Schemas as Go values, with every
      finding; [ContractGraph]: [DeriveGraph] of derive.go, that is the edges declared by
      produced and consumed datasets, inferred from parameter mappings and observed by
      lineage, merged by identifier; [ContractGate]: [EvaluateGraphWithOptions] of
      enforce.go over the table of acknowledgements.
    - Theorems: [SchemaTheorems] (a validity semantics of documents; what [Satisfies]
      accepts holds of every document of the producer; a revision without breaking
      findings keeps its consumers), [ContractTheorems] (an apply that the gate lets
      through leaves no declared consumer broken unless acknowledged; the gate accepts
      exactly the acknowledged breaks).

    [Findings] and the last parts of [LocalFindings], [RunWait], [RateLimit] and
    [ContractTheorems] show behaviours that contradict the code's comments or its other
    execution mode, and that conditions of the theorems are needed; most of these are
    evaluations of the definitions on one input. This file holds the shared vocabulary: identifiers, Go map and slice
    idioms, the sort of the standard library, automation.

    ** Conventions

    - A method that mutates its receiver returns the new value; a transaction is a
      function from the database to an error or a result with a new database, and a
      failed one leaves the database as it was. Time, fresh identifiers and the database
      errors of the successive attempts ([faults]) are arguments. Operations of several
      statements take a record with an entry per statement ([recover_faults],
      [complete_faults], [checkpoint_faults], [drain_faults]).
    - One sweep of the dispatch loop posts the tasks of a run one after the other with one
      reading of the clock, where the code posts them from goroutines; each post touches
      the row of its own task.
    - Go leaves the iteration order of maps unspecified: such loops take the order as an
      argument ([iter1], [range_order], [map_order]) and the theorems hold for all of
      them.
    - Code outside the repository is a parameter: the text of UUIDs with the law that
      parsing inverts printing, SHA-256, [time.ParseDuration], the JSON Schema compiler.
      Of encoding/json the model has the structure of values; the text of strings and
      floats is a parameter ([SchemaLib]).
    - Integers are Z: the code's counters are int and int64 that count tasks, runs,
      units and nanoseconds; the one product of them, the delay of a retry, is wrapped to
      64 bits ([computeRetryDelay]). Bounds in schemas are compared as float64, which are
      the binary floats of the Standard Library ([float64_of_int]).

    ** Fuel

    [advanceLoop] processes each seed and each live task at most once, and has that much
    fuel ([completion_effect] covers every completion); [skipLoop] ends because each round takes a task that was not
    seen ([skip_cascade_effect]); [drainLoop] needs one pass more than there are queued
    rows ([drain_terminates_within_limit]); [visit] descends through distinct steps and
    has one unit more than there are names ([step_graph_accepted_iff] shows it never
    runs out); [layerLoop] needs one round per layer ([analysis_layers]); [chainVisit] descends through distinct
    aliases ([trigger_cycle_exact]); the loops of [pathMatch] consume the pattern and have
    its length as fuel; [itoa_go] prints at most the twenty digits of an int64;
    [parseJSONPathSegment] consumes its segment; [propagateLoop] takes its start and then
    each task at most once ([propagate_inv] in [LocalInv]); [skipDescendantsLoop] and
    [collectLoop] walk every edge at most once ([LocalPolicy]); [scanUnsupported],
    [compareSchema] and [satisfySchema] descend through nested properties and have the
    depth of the schema as fuel ([schemaFuel_prop] in [SchemaTheorems]).

    ** Not modelled

    The YAML and JSON decoding of definitions; the snapshot and dataset registries of
    the importer and the queries that load jobs, schemas and lineage for the contract graph; cron and HTTP triggers apart from their rows and the
    lookup by path; what the goroutines of the in-process executor do with containers, log
    streams, input hashes and the result cache; log and hash columns of task rows; metrics, logs,
    events' payloads and the event bus; the connection pool of pkg/db; caching, lineage,
    freshness, incidents and authentication; the REST API, the CLI, the UI
    and the container engines. They either only read what is modelled here or perform
    I/O. *)

From stdpp Require Export base gmap strings list fin_maps sorting.
From Stdlib Require Export ZArith Lia Ascii.

#[global] Open Scope Z_scope.

(** * Identifiers and strings *)

(** [uuid.UUID] is a 128-bit value compared by equality only; [uuid.Nil] is the
    all-zero value. *)
Abbreviation uuid := N.
Definition uuid_Nil : uuid := 0%N.

(** Go's [==] on strings. *)
Definition str_eqb (a b : string) : bool := bool_decide (a = b).

(** The double-quote character and [%q] on a string without special characters. *)
Definition dquote : string := String "034"%char EmptyString.
Definition quoted (s : string) : string := dquote +:+ s +:+ dquote.

Declare Scope go_scope.
Delimit Scope go_scope with go.
Infix "=s" := str_eqb (at level 70) : go_scope.
#[global] Open Scope go_scope.

(** * Machine integers: Go's [int] and [int64] are 64-bit two's complement. *)

Definition int64_min : Z := - 2 ^ 63.
Definition int64_max : Z := 2 ^ 63 - 1.

(** Reduction of a mathematical result to the int64 that Go stores. *)
Definition wrap64 (z : Z) : Z := (z + 2 ^ 63) mod 2 ^ 64 - 2 ^ 63.

(** * Maps: reading a missing key of a Go map gives the zero value. *)

Definition map_get {V} (d : V) (m : gmap uuid V) (k : uuid) : V := default d (m !! k).

(** ** Strings: the ASCII part of [strings.TrimSpace] and [strings.ToLower] *)

Definition is_space (c : ascii) : bool :=
  let n := Ascii.N_of_ascii c in ((9 <=? n) && (n <=? 13))%N || (n =? 32)%N.

Fixpoint trim_left (s : string) : string :=
  match s with
  | String c s' => if is_space c then trim_left s' else s
  | EmptyString => EmptyString
  end.

Fixpoint trim_right (s : string) : string :=
  match s with
  | EmptyString => EmptyString
  | String c s' =>
      match trim_right s' with
      | EmptyString => if is_space c then EmptyString else String c EmptyString
      | t => String c t
      end
  end.

Definition TrimSpace (s : string) : string := trim_right (trim_left s).

(** [strings.Split] by a one-character separator, and [strings.SplitN] into two. *)
Fixpoint Split (sep : ascii) (s : string) : list string :=
  match s with
  | EmptyString => [""]
  | String c s' =>
      if bool_decide (c = sep) then "" :: Split sep s'
      else match Split sep s' with
           | [] => [String c ""]
           | part :: parts => String c part :: parts
           end
  end.

Fixpoint SplitN2 (sep : ascii) (s : string) : string * option string :=
  match s with
  | EmptyString => ("", None)
  | String c s' =>
      if bool_decide (c = sep) then ("", Some s')
      else let '(key, value) := SplitN2 sep s' in (String c key, value)
  end.

Definition lower_ascii (c : ascii) : ascii :=
  let n := Ascii.N_of_ascii c in
  if ((65 <=? n) && (n <=? 90))%N then Ascii.ascii_of_N (n + 32) else c.

Fixpoint ToLower (s : string) : string :=
  match s with String c s' => String (lower_ascii c) (ToLower s') | EmptyString => EmptyString end.

(** * Slices *)

(** [sort.SliceStable] with comparison [less]: insertion from the left, each
    element placed after every element it is not less than. *)
Fixpoint insert_stable {A} (less : A → A → bool) (x : A) (l : list A) : list A :=
  match l with
  | [] => [x]
  | y :: l' => if less x y then x :: y :: l' else y :: insert_stable less x l'
  end.

Definition sort_stable {A} (less : A → A → bool) (l : list A) : list A :=
  fold_left (λ acc x, insert_stable less x acc) l [].

(** Removing the first occurrence of [x], the [append(l[:i], l[i+1:]...)] idiom. *)
Fixpoint remove_first (x : uuid) (l : list uuid) : list uuid :=
  match l with
  | [] => []
  | y :: l' => if (y =? x)%N then l' else y :: remove_first x l'
  end.

(** Number of occurrences of [x] in [l]. *)
Fixpoint occ (x : uuid) (l : list uuid) : nat :=
  match l with
  | [] => 0%nat
  | y :: l' => ((if (y =? x)%N then 1 else 0) + occ x l')%nat
  end.

(** Number of elements satisfying a test. *)
Definition countb {A} (f : A → bool) (l : list A) : nat := length (List.filter f l).

(** * Tactics and hints *)

Create HintDb caesium.

(** Case analysis on the head test of a conditional or match in the goal. *)
Ltac cases_goal :=
  match goal with
  | |- context [match ?x with _ => _ end] => destruct x eqn:?
  end.

(** The same in hypothesis [H]. *)
Ltac cases_in H :=
  match type of H with
  | context [match ?x with _ => _ end] => destruct x eqn:?
  end.

(** Boolean tests to propositions. *)
Ltac bool_prop :=
  repeat match goal with
  | H : andb _ _ = true |- _ => apply andb_true_iff in H; destruct H
  | H : orb _ _ = false |- _ => apply orb_false_iff in H; destruct H
  | H : negb _ = true |- _ => apply negb_true_iff in H
  | H : negb _ = false |- _ => apply negb_false_iff in H
  | H : (_ =? _)%N = true |- _ => apply N.eqb_eq in H
  | H : (_ =? _)%N = false |- _ => apply N.eqb_neq in H
  | H : (_ =? _) = true |- _ => apply Z.eqb_eq in H
  | H : (_ =? _) = false |- _ => apply Z.eqb_neq in H
  | H : (_ <? _) = true |- _ => apply Z.ltb_lt in H
  | H : (_ <? _) = false |- _ => apply Z.ltb_ge in H
  | H : (_ <=? _) = true |- _ => apply Z.leb_le in H
  | H : (_ <=? _) = false |- _ => apply Z.leb_gt in H
  | H : str_eqb _ _ = true |- _ => apply bool_decide_eq_true in H
  | H : str_eqb _ _ = false |- _ => apply bool_decide_eq_false in H
  end.

(** Decides a closed proposition by evaluation. *)
Ltac decide_vm :=
  match goal with |- ?P => apply (bool_decide_eq_true_1 P); vm_compute; reflexivity end.

(** * Lists given by their lookups *)

Lemma lookup_fmap_eq {A B} (f : A → B) (l : list A) (l' : list B) :
  (∀ i : nat, l' !! i = f <$> l !! i) → l' = f <$> l.
Proof. intros H. apply list_eq. intros i. by rewrite H, list_lookup_fmap. Qed.

(** ** Filters *)

Lemma filter_filter {A} (p q : A → bool) (l : list A) :
  List.filter p (List.filter q l) = List.filter (λ x, q x && p x) l.
Proof. induction l as [|x l IH]; [done|]. simpl. destruct (q x); simpl; rewrite IH; done. Qed.

Lemma filter_perm {A} (p : A → bool) (l k : list A) : l ≡ₚ k → List.filter p l ≡ₚ List.filter p k.
Proof.
  induction 1 as [|x l k _ IH|x y l|l k m _ IH1 _ IH2]; [done| | |by transitivity (List.filter p k)]; simpl.
  - destruct (p x); [by constructor|done].
  - destruct (p x), (p y); done || constructor.
Qed.

(** A key column without duplicates identifies the element. *)
Lemma NoDup_map_eq {A B} (f : A → B) (l : list A) x y :
  NoDup (map f l) → x ∈ l → y ∈ l → f x = f y → x = y.
Proof.
  intros Hnd Hx Hy E. apply list_elem_of_lookup in Hx as [i Hi], Hy as [j Hj].
  assert (i = j) as ->; [|congruence].
  apply (NoDup_lookup (map f l) i j (f x)); [done| |]; rewrite list_lookup_fmap.
  - by rewrite Hi.
  - rewrite Hj. simpl. by rewrite E.
Qed.

(** * Lemmas on strings and machine integers *)

Lemma str_eqb_refl s : (s =s s) = true.
Proof. by apply bool_decide_eq_true. Qed.

Lemma str_eqb_eq a b : (a =s b) = true ↔ a = b.
Proof. apply bool_decide_eq_true. Qed.

Lemma str_eqb_neq a b : a ≠ b → (a =s b) = false.
Proof. apply bool_decide_eq_false. Qed.

Lemma wrap64_small z : int64_min ≤ z ≤ int64_max → wrap64 z = z.
Proof.
  unfold int64_min, int64_max, wrap64; intros H.
  rewrite Z.mod_small by lia. lia.
Qed.

Lemma wrap64_range z : int64_min ≤ wrap64 z ≤ int64_max.
Proof.
  unfold int64_min, int64_max, wrap64.
  pose proof (Z.mod_pos_bound (z + 2 ^ 63) (2 ^ 64)). lia.
Qed.

(** * Lemmas on the stable sort *)

Section sorting.
Context {A : Type} (less : A → A → bool).

Lemma insert_stable_perm x l : insert_stable less x l ≡ₚ x :: l.
Proof.
  induction l as [|y l IH]; simpl; [done|].
  destruct (less x y); [done|]. rewrite IH. apply Permutation_swap.
Qed.

Lemma sort_stable_app l x :
  sort_stable less (l ++ [x]) = insert_stable less x (sort_stable less l).
Proof. unfold sort_stable. by rewrite fold_left_app. Qed.

Lemma sort_stable_perm l : sort_stable less l ≡ₚ l.
Proof.
  induction l as [|x l IH] using rev_ind; [done|].
  rewrite sort_stable_app, insert_stable_perm, IH. apply Permutation_cons_append.
Qed.

(** [y] may stand before [x]: [x] is not strictly less. *)
Definition not_after (y x : A) : Prop := less x y = false.

Hypothesis less_asym : ∀ x y, less x y = true → less y x = false.
Hypothesis less_negtrans : ∀ x y z, less y x = false → less z y = false → less z x = false.

Lemma insert_stable_sorted x l :
  StronglySorted not_after l → StronglySorted not_after (insert_stable less x l).
Proof using less_asym less_negtrans.
  induction 1 as [|y l Hs IH Hall]; simpl; [repeat constructor|].
  destruct (less x y) eqn:E.
  - constructor; [by constructor|]. constructor; [by apply less_asym|].
    eapply Forall_impl; [exact Hall|]. intros z Hz.
    apply (less_negtrans x y z); [by apply less_asym | done].
  - constructor; [done|]. rewrite insert_stable_perm. by constructor.
Qed.

Lemma sort_stable_sorted l : StronglySorted not_after (sort_stable less l).
Proof using less_asym less_negtrans.
  induction l as [|x l IH] using rev_ind; [constructor|].
  rewrite sort_stable_app. by apply insert_stable_sorted.
Qed.

(** The first element of the sorted list is minimal. *)
Lemma sort_stable_head l x : head (sort_stable less l) = Some x →
  x ∈ l ∧ ∀ y, y ∈ l → less x x = false → less y x = false.
Proof using less_asym less_negtrans.
  intros H. pose proof (sort_stable_sorted l) as Hs. pose proof (sort_stable_perm l) as Hp.
  destruct (sort_stable less l) as [|z k]; [done|]. simpl in H. simplify_eq.
  apply StronglySorted_inv in Hs as [_ Hall]. rewrite Forall_forall in Hall.
  split; [rewrite <- Hp; set_solver|]. intros y Hy Hxx. rewrite <- Hp in Hy.
  apply elem_of_cons in Hy as [->|Hy]; [done|]. by apply Hall.
Qed.

(** Elements cut off by a limit are not less than those kept. *)
Lemma sort_stable_split l n x y : x ∈ take n (sort_stable less l) → y ∈ drop n (sort_stable less l) →
  less y x = false.
Proof using less_asym less_negtrans.
  intros Hx Hy. pose proof (sort_stable_sorted l) as Hs. rewrite <- (take_drop n (sort_stable less l)) in Hs.
  apply StronglySorted_app in Hs as (H & _ & _). by apply H.
Qed.

(** Sorting commutes with filtering. *)
Lemma insert_stable_filter_in (p : A → bool) x l : p x = true → StronglySorted not_after l →
  List.filter p (insert_stable less x l) = insert_stable less x (List.filter p l).
Proof using less_asym less_negtrans.
  intros Hp. induction 1 as [|y l Hs IH Hall]; simpl; [by rewrite Hp|].
  destruct (less x y) eqn:E; simpl.
  - rewrite Hp. destruct (p y) eqn:Ey; simpl; [by rewrite E|].
    destruct (List.filter p l) as [|z k] eqn:Ef; [done|]. simpl.
    assert (z ∈ l) as Hz.
    { apply list_elem_of_In. apply (List.filter_In p). rewrite Ef. by left. }
    rewrite Forall_forall in Hall. specialize (Hall z Hz). unfold not_after in Hall.
    destruct (less x z) eqn:Ez; [done|]. rewrite (less_negtrans y z x Hall Ez) in E. done.
  - destruct (p y) eqn:Ey; simpl; [by rewrite E, IH|done].
Qed.

Lemma insert_stable_filter_out (p : A → bool) x l : p x = false →
  List.filter p (insert_stable less x l) = List.filter p l.
Proof.
  intros Hp. induction l as [|y l IH]; simpl; [by rewrite Hp|].
  destruct (less x y); simpl; [by rewrite Hp|]. by rewrite IH.
Qed.

Lemma sort_stable_filter_comm (p : A → bool) l :
  sort_stable less (List.filter p l) = List.filter p (sort_stable less l).
Proof using less_asym less_negtrans.
  induction l as [|x l IH] using rev_ind; [done|].
  rewrite List.filter_app, sort_stable_app. simpl. destruct (p x) eqn:E.
  - rewrite sort_stable_app, IH, insert_stable_filter_in; [done|done|apply sort_stable_sorted].
  - by rewrite app_nil_r, IH, insert_stable_filter_out.
Qed.

Lemma insert_stable_last x l :
  Forall (λ y, less x y = false) l → insert_stable less x l = l ++ [x].
Proof. induction 1 as [|y l E _ IH]; simpl; [done|]. by rewrite E, IH. Qed.

(** Sorting a sorted list changes nothing. *)
Lemma sort_stable_id l : StronglySorted not_after l → sort_stable less l = l.
Proof.
  induction l as [|x l IH] using rev_ind; [done|]; intros Hs.
  apply StronglySorted_app in Hs as (Hlast & Hs & _).
  rewrite sort_stable_app, IH by done. apply insert_stable_last.
  apply Forall_forall; intros y Hy. apply (Hlast y x Hy). set_solver.
Qed.

(** Two sorted arrangements of the same elements are equal when the
    comparison separates distinct elements. *)
Lemma sorted_unique l1 l2 :
  (∀ x y, x ∈ l1 → y ∈ l1 → less x y = false → less y x = false → x = y) →
  StronglySorted not_after l1 → StronglySorted not_after l2 → l1 ≡ₚ l2 → l1 = l2.
Proof.
  intros Hsep H1 H2 HP.
  eapply (StronglySorted_unique_strong not_after); eauto.
  intros x1 x2 Hx1 Hx2 H12 H21. apply Hsep; [done| |done|done].
  by rewrite HP.
Qed.
End sorting.

Lemma sort_stable_length {A} (less : A → A → bool) l :
  length (sort_stable less l) = length l.
Proof. apply Permutation_length, sort_stable_perm. Qed.

(** * Lemmas on occurrences and removal *)

Lemma occ_app x l1 l2 : occ x (l1 ++ l2) = (occ x l1 + occ x l2)%nat.
Proof. induction l1; simpl; lia. Qed.

Lemma occ_elem x l : (0 < occ x l)%nat ↔ x ∈ l.
Proof.
  induction l as [|y l IH]; simpl; [set_solver by lia|].
  rewrite elem_of_cons, <- IH. destruct (N.eqb_spec y x); [|split; intros; naive_solver lia].
  split; intros; [by left|lia].
Qed.

Lemma occ_nodup x l : NoDup l → (occ x l ≤ 1)%nat.
Proof.
  induction 1 as [|y l Hy Hnd IH]; simpl; [lia|].
  destruct (N.eqb_spec y x) as [->|]; [|lia].
  destruct (occ x l) eqn:E; [lia|].
  exfalso; apply Hy, occ_elem. lia.
Qed.

Lemma remove_first_notin x l : x ∉ l → remove_first x l = l.
Proof.
  induction l as [|y l IH]; simpl; [done|]; intros Hx.
  destruct (N.eqb_spec y x); [set_solver|]. rewrite IH; set_solver.
Qed.

Lemma remove_first_elem x y l : NoDup l → y ∈ remove_first x l ↔ y ∈ l ∧ y ≠ x.
Proof.
  induction 1 as [|z l Hz Hnd IH]; simpl; [set_solver|].
  destruct (N.eqb_spec z x) as [->|Hne].
  - rewrite elem_of_cons. naive_solver.
  - rewrite !elem_of_cons, IH. naive_solver.
Qed.

Lemma remove_first_sublist x l : remove_first x l `sublist_of` l.
Proof.
  induction l as [|y l IH]; simpl; [done|].
  destruct (y =? x)%N; [by apply sublist_cons|]. by apply sublist_skip.
Qed.

Lemma remove_first_nodup x l : NoDup l → NoDup (remove_first x l).
Proof. intros H. eapply sublist_NoDup; [done|apply remove_first_sublist]. Qed.

Lemma remove_first_sorted {R : uuid → uuid → Prop} x l :
  StronglySorted R l → StronglySorted R (remove_first x l).
Proof.
  induction 1 as [|y l Hs IH Hall]; simpl; [constructor|].
  destruct (y =? x)%N; [done|]. constructor; [done|].
  apply Forall_forall; intros z Hz. rewrite Forall_forall in Hall. apply Hall.
  eapply elem_of_sublist; [done|apply remove_first_sublist].
Qed.

(** * Counting *)

Section counting.
Context {A : Type}.
Implicit Types (f g : A → bool) (l : list A).

Lemma countb_cons f x l :
  countb f (x :: l) = ((if f x then 1 else 0) + countb f l)%nat.
Proof. unfold countb; simpl. by destruct (f x). Qed.

Lemma countb_ext f g l : (∀ x, x ∈ l → f x = g x) → countb f l = countb g l.
Proof.
  induction l as [|x l IH]; intros H; [done|].
  rewrite !countb_cons, IH by set_solver. rewrite (H x) by set_solver. done.
Qed.

Lemma countb_0 f l : countb f l = 0%nat ↔ ∀ x, x ∈ l → f x = false.
Proof.
  induction l as [|x l IH]; [set_solver|].
  rewrite countb_cons. split.
  - intros H y. destruct (f x) eqn:E; [lia|].
    rewrite elem_of_cons. intros [->|Hy]; [done|]. apply IH; [lia|done].
  - intros H. rewrite (H x) by set_solver. apply IH. set_solver.
Qed.

Lemma countb_le f l : (countb f l ≤ length l)%nat.
Proof. induction l; [done|]. rewrite countb_cons. simpl. destruct (f a); lia. Qed.
Lemma countb_mono (f g : A → bool) l : (∀ x, x ∈ l → f x = true → g x = true) → (countb f l ≤ countb g l)%nat.
Proof.
  induction l as [|x l IH]; intros H; [done|]. rewrite !countb_cons. assert (countb f l ≤ countb g l)%nat by (apply IH; intros; apply H; set_solver).
  destruct (f x) eqn:E; [rewrite (H x) by (set_solver || done)|destruct (g x)]; lia.
Qed.

Lemma countb_pos (p : A → bool) tbl : (0 < countb p tbl)%nat ↔ ∃ r, r ∈ tbl ∧ p r = true.
Proof.
  induction tbl as [|r tbl IH]; [split; [simpl; unfold countb; simpl; lia|set_solver]|].
  rewrite countb_cons. split.
  - destruct (p r) eqn:E; [exists r; set_solver|]. intros H.
    destruct (proj1 IH) as (r' & ? & ?); [lia|]. exists r'; set_solver.
  - intros (r' & Hin & Hp). rewrite elem_of_cons in Hin.
    destruct Hin as [->|Hin]; [rewrite Hp; lia|].
    destruct (p r); [lia|]. apply IH. eauto.
Qed.
End counting.

(** Turning a test off at [x] lowers the count by the occurrences of [x]. *)
Lemma countb_clear (f g : uuid → bool) x l :
  f x = true → g x = false → (∀ y, y ≠ x → f y = g y) →
  countb f l = (countb g l + occ x l)%nat.
Proof.
  intros Hf Hg Hne. induction l as [|y l IH]; [done|].
  rewrite !countb_cons, IH. simpl. destruct (N.eqb_spec y x) as [->|H].
  - rewrite Hf, Hg. lia.
  - rewrite (Hne y H). lia.
Qed.

#[export] Hint Resolve str_eqb_refl remove_first_nodup remove_first_sorted : caesium.
