(* ===== verification/TriggerRule.v ===== *)
(** Task statuses (internal/run/store.go) and trigger rules
    (internal/run/trigger_rule.go), with the SQL path's own copy of the rule
    evaluation (store.go, [satisfiesTriggerRule]). *)

From S2P Require Import Prelude.

(** * Statuses: [type TaskStatus string] *)

Definition TaskStatus : Type := string.
Definition TaskStatusPending : TaskStatus := "pending".
Definition TaskStatusRunning : TaskStatus := "running".
Definition TaskStatusSucceeded : TaskStatus := "succeeded".
Definition TaskStatusFailed : TaskStatus := "failed".
Definition TaskStatusSkipped : TaskStatus := "skipped".
Definition TaskStatusCached : TaskStatus := "cached".
Definition TaskStatusCancelled : TaskStatus := "cancelled".

Definition IsTerminalSuccess (status : TaskStatus) : bool :=
  (status =s TaskStatusSucceeded) || (status =s TaskStatusCached).

Definition IsTerminal (status : TaskStatus) : bool :=
  (status =s TaskStatusSucceeded) || (status =s TaskStatusFailed) ||
  (status =s TaskStatusSkipped) || (status =s TaskStatusCached) ||
  (status =s TaskStatusCancelled).

(** The list form used in SQL [IN] clauses. *)
Definition terminalStatusStrings : list TaskStatus :=
  [TaskStatusSucceeded; TaskStatusFailed; TaskStatusSkipped; TaskStatusCached;
   TaskStatusCancelled].

Definition taskStatusFromResult (result : string) : TaskStatus :=
  if (result =s "") || (result =s "success") || (result =s "ok")
  then TaskStatusSucceeded else TaskStatusFailed.

Definition IsSuccessfulTaskResult (result : string) : bool :=
  taskStatusFromResult result =s TaskStatusSucceeded.

Definition failureMessage (result : string) : string :=
  if result =s "failure" then "command exited with non-zero status"
  else if result =s "startup_failure" then "atom failed to start (check image/command)"
  else if result =s "resource_failure" then "atom exhausted resources (e.g. OOM)"
  else if result =s "killed" then "atom was forcefully killed"
  else if result =s "terminated" then "atom was gracefully terminated"
  else result.

(** * Rules (pkg/jobdef/definition.go) *)

Definition TriggerRuleAllSuccess : string := "all_success".
Definition TriggerRuleAllDone : string := "all_done".
Definition TriggerRuleAllFailed : string := "all_failed".
Definition TriggerRuleOneSuccess : string := "one_success".
Definition TriggerRuleAlways : string := "always".

(** [for _, s := range l { if !p(s) { return false } }; return true] *)
Definition every (p : TaskStatus → bool) (l : list TaskStatus) : bool := List.forallb p l.

(** [for _, s := range l { if p(s) { return true } }; return false] *)
Definition some (p : TaskStatus → bool) (l : list TaskStatus) : bool := List.existsb p l.

Fixpoint CollectPredecessorStatuses (predIDs : list uuid)
    (taskOutcomes : gmap uuid TaskStatus) : list TaskStatus :=
  match predIDs with
  | [] => []
  | id :: rest =>
      match taskOutcomes !! id with
      | Some status => status :: CollectPredecessorStatuses rest taskOutcomes
      | None => CollectPredecessorStatuses rest taskOutcomes
      end
  end.

Definition SatisfiesTriggerRule (rule : string) (predStatuses : list TaskStatus) : bool :=
  let rule := if rule =s "" then TriggerRuleAllSuccess else rule in
  match predStatuses with
  | [] => true
  | _ =>
      if rule =s TriggerRuleAllSuccess then every IsTerminalSuccess predStatuses
      else if (rule =s TriggerRuleAllDone) || (rule =s TriggerRuleAlways)
      then every IsTerminal predStatuses
      else if rule =s TriggerRuleAllFailed
      then every (λ s, s =s TaskStatusFailed) predStatuses
      else if rule =s TriggerRuleOneSuccess then some IsTerminalSuccess predStatuses
      else every IsTerminalSuccess predStatuses
  end.

(** store.go's copy, written with inline status comparisons. *)
Definition satisfiesTriggerRule (rule : string) (predStatuses : list TaskStatus) : bool :=
  let rule := if rule =s "" then TriggerRuleAllSuccess else rule in
  match predStatuses with
  | [] => true
  | _ =>
      let failing s := negb (s =s TaskStatusSucceeded) && negb (s =s TaskStatusCached) in
      if rule =s TriggerRuleAllSuccess
      then every (λ s, negb (failing s)) predStatuses
      else if (rule =s TriggerRuleAllDone) || (rule =s TriggerRuleAlways)
      then every IsTerminal predStatuses
      else if rule =s TriggerRuleAllFailed
      then every (λ s, negb (negb (s =s TaskStatusFailed))) predStatuses
      else if rule =s TriggerRuleOneSuccess
      then some (λ s, (s =s TaskStatusSucceeded) || (s =s TaskStatusCached)) predStatuses
      else every (λ s, negb (failing s)) predStatuses
  end.

Definition normalizedTriggerRule (rule : string) : string :=
  if rule =s "" then TriggerRuleAllSuccess else rule.

(** * Lemmas *)

Lemma IsTerminal_in s : IsTerminal s = true ↔ s ∈ terminalStatusStrings.
Proof.
  unfold IsTerminal, terminalStatusStrings.
  rewrite !orb_true_iff, !str_eqb_eq. set_solver.
Qed.

Lemma success_terminal s : IsTerminalSuccess s = true → IsTerminal s = true.
Proof.
  unfold IsTerminalSuccess, IsTerminal. rewrite !orb_true_iff, !str_eqb_eq. naive_solver.
Qed.

Lemma pending_not_terminal : IsTerminal TaskStatusPending = false.
Proof. reflexivity. Qed.

Lemma running_not_terminal : IsTerminal TaskStatusRunning = false.
Proof. reflexivity. Qed.

Lemma skipped_terminal : IsTerminal TaskStatusSkipped = true.
Proof. reflexivity. Qed.

Lemma every_ext p q l : (∀ s, p s = q s) → every p l = every q l.
Proof. intros H. unfold every. induction l; simpl; congruence. Qed.

Lemma some_ext p q l : (∀ s, p s = q s) → some p l = some q l.
Proof. intros H. unfold some. induction l; simpl; congruence. Qed.

Lemma every_spec p l : every p l = true ↔ ∀ s, s ∈ l → p s = true.
Proof.
  unfold every. rewrite List.forallb_forall.
  split; intros H s Hs; apply H; by apply list_elem_of_In.
Qed.

Lemma some_spec p l : some p l = true ↔ ∃ s, s ∈ l ∧ p s = true.
Proof.
  unfold some. rewrite List.existsb_exists.
  split; intros (s & Hs & Hp); exists s; (split; [by apply list_elem_of_In|done]).
Qed.

Lemma Collect_elem s preds out :
  s ∈ CollectPredecessorStatuses preds out ↔ ∃ p, p ∈ preds ∧ out !! p = Some s.
Proof.
  induction preds as [|p preds IH]; simpl; [set_solver|].
  destruct (out !! p) as [s'|] eqn:E.
  - rewrite elem_of_cons, IH. setoid_rewrite elem_of_cons. naive_solver.
  - rewrite IH. setoid_rewrite elem_of_cons. naive_solver.
Qed.

Lemma Collect_ext preds out out' :
  (∀ p, p ∈ preds → out !! p = out' !! p) →
  CollectPredecessorStatuses preds out = CollectPredecessorStatuses preds out'.
Proof.
  induction preds as [|p preds IH]; intros H; [done|]. simpl.
  rewrite (H p) by set_solver. rewrite IH by set_solver. done.
Qed.

Lemma Collect_length preds out :
  (∀ p, p ∈ preds → is_Some (out !! p)) →
  length (CollectPredecessorStatuses preds out) = length preds.
Proof.
  induction preds as [|p preds IH]; intros H; [done|]. simpl.
  destruct (H p) as [s ->]; [set_solver|]. simpl. rewrite IH; [done|set_solver].
Qed.

#[export] Hint Resolve success_terminal pending_not_terminal running_not_terminal
  skipped_terminal : caesium.

(** * Properties *)

(** What each rule asks of the predecessors that have finished. *)
Definition rule_meaning (rule : string) (l : list TaskStatus) : Prop :=
  if (rule =s TriggerRuleAllDone) || (rule =s TriggerRuleAlways)
  then ∀ s, s ∈ l → s ∈ terminalStatusStrings
  else if rule =s TriggerRuleAllFailed then ∀ s, s ∈ l → s = TaskStatusFailed
  else if rule =s TriggerRuleOneSuccess
  then l = [] ∨ ∃ s, s ∈ l ∧ (s = TaskStatusSucceeded ∨ s = TaskStatusCached)
  else ∀ s, s ∈ l → s = TaskStatusSucceeded ∨ s = TaskStatusCached.

Lemma IsTerminalSuccess_spec s :
  IsTerminalSuccess s = true ↔ s = TaskStatusSucceeded ∨ s = TaskStatusCached.
Proof. unfold IsTerminalSuccess. by rewrite orb_true_iff, !str_eqb_eq. Qed.

(** The trigger rule evaluator decides the meaning of the rule on the statuses
    of the finished predecessors: all done, all failed, one success (or no
    predecessor), and all successful for every other rule name. *)
Lemma trigger_rule_spec rule l : SatisfiesTriggerRule rule l = true ↔ rule_meaning rule l.
Proof.
  unfold SatisfiesTriggerRule, rule_meaning.
  destruct l as [|s0 l]; [by repeat case_match; set_solver|].
  remember (s0 :: l) as l' eqn:Hl.
  destruct (rule =s "") eqn:E0.
  { bool_prop; subst rule. simpl. rewrite every_spec. by setoid_rewrite IsTerminalSuccess_spec. }
  destruct (rule =s TriggerRuleAllSuccess) eqn:E1.
  { bool_prop; subst rule. simpl. rewrite every_spec. by setoid_rewrite IsTerminalSuccess_spec. }
  destruct (_ || _) eqn:E2.
  { rewrite every_spec. by setoid_rewrite IsTerminal_in. }
  destruct (rule =s TriggerRuleAllFailed) eqn:E3.
  { rewrite every_spec. by setoid_rewrite str_eqb_eq. }
  destruct (rule =s TriggerRuleOneSuccess) eqn:E4.
  { rewrite some_spec. setoid_rewrite IsTerminalSuccess_spec. naive_solver. }
  rewrite every_spec. by setoid_rewrite IsTerminalSuccess_spec.
Qed.

Lemma inline_success s :
  negb (negb (s =s TaskStatusSucceeded) && negb (s =s TaskStatusCached)) =
  IsTerminalSuccess s.
Proof. unfold IsTerminalSuccess. by rewrite negb_andb, !negb_involutive. Qed.

(** The evaluator of the SQL path agrees with the one of the in-memory path on
    every rule and every list of statuses. *)
Lemma sql_rule_agrees rule l : satisfiesTriggerRule rule l = SatisfiesTriggerRule rule l.
Proof.
  unfold satisfiesTriggerRule, SatisfiesTriggerRule. destruct l; [done|].
  repeat case_match; try done; try (apply every_ext; intros; apply inline_success).
  apply every_ext; intros. by rewrite negb_involutive.
Qed.
