(* ===== verification/Tables.v ===== *)
(** The database as the run packages see it: one record per row type of
    internal/models (the columns the modelled code reads or writes), tables as
    lists of rows in insertion order, and the SQL statement shapes the gorm calls
    issue: conditional update, delete, select, order by, limit. Soft-deleted rows
    are not part of the tables: every gorm query excludes them. Times are
    integers (nanoseconds), nullable columns are options. *)

From S2P Require Import Prelude TriggerRule.

(** * JSON documents (encoding/json at the level of values) *)

Inductive json : Type :=
| JNull
| JBool (b : bool)
| JNum (n : Z)
| JStr (s : string)
| JArr (l : list json)
| JObj (l : list (string * json)).

(** A JSON column: the bytes may be empty or fail to parse. *)
Inductive blob : Type :=
| BlobEmpty
| BlobCorrupt
| BlobJson (j : json).

(** Decoding primitives of encoding/json: null leaves the zero value. *)
Definition decodeZ (j : json) : option Z :=
  match j with JNum n => Some n | JNull => Some 0 | _ => None end.

Definition decodeStr (j : json) : option string :=
  match j with JStr s => Some s | JNull => Some "" | _ => None end.

(** A struct field that is absent decodes like null. *)
Fixpoint field (k : string) (l : list (string * json)) : json :=
  match l with
  | [] => JNull
  | (k', v) :: l' => if k =s k' then v else field k l'
  end.

(** * Catalog rows (internal/models/job.go, task.go, task_edge.go) *)

Record Job := mkJob {
  j_ID : uuid;
  j_Alias : string;
  j_TriggerID : uuid;
  j_Priority : string;
  j_Concurrency : blob;
  j_Paused : bool;
}.


Record Task := mkTask {
  t_ID : uuid;
  t_JobID : uuid;
  t_Name : string;
  t_Position : Z;
  t_Type : string;
  t_TriggerRule : string;
  t_CreatedAt : Z;
  t_NodeSelector : gmap string string;
}.

Record TaskEdge := mkTaskEdge {
  e_JobID : uuid;
  e_FromTaskID : uuid;
  e_ToTaskID : uuid;
}.

(** * Execution descriptor of a quarantined replay (internal/models/run.go) *)

Record TaskExecutionEdgeRef := mkEdgeRef { er_TaskID : uuid; er_TaskName : string }.

Record TaskExecutionDescriptor := mkDescriptor {
  d_SchemaVersion : Z;
  d_Predecessors : list TaskExecutionEdgeRef;
  d_Successors : list TaskExecutionEdgeRef;
  d_TriggerRule : string;
  d_BranchBehavior : string;
  d_TaskPosition : Z;
  d_TaskType : string;
}.

Definition TaskExecutionDescriptorSchemaVersion : Z := 1.

(** The execution_descriptor column: empty, not decodable, or a descriptor. *)
Inductive descriptor_blob : Type :=
| NoDescriptor
| CorruptDescriptor
| Descriptor (d : TaskExecutionDescriptor).

(** * Run rows (internal/models/run.go, run_lease.go, run_checkpoint.go, run_queue.go) *)

Record JobRun := mkJobRun {
  jr_ID : uuid;
  jr_JobID : uuid;
  jr_BackfillID : option uuid;
  jr_TriggerID : uuid;
  jr_Status : string;
  jr_Priority : Z;
  jr_Params : blob;
  jr_Error : string;
  jr_Quarantine : bool;
  jr_StartedAt : Z;
  jr_CompletedAt : option Z;
}.

Record TaskRun := mkTaskRun {
  tr_ID : uuid;
  tr_JobRunID : uuid;
  tr_TaskID : uuid;
  tr_Status : TaskStatus;
  tr_ClaimedBy : string;
  tr_ClaimExpiresAt : option Z;
  tr_ClaimAttempt : Z;
  tr_RateLimitRetryAfter : option Z;
  tr_Attempt : Z;
  tr_Priority : Z;
  tr_Result : string;
  tr_Output : option (gmap string string);
  tr_BranchSelections : option (list string);
  tr_CacheHit : bool;
  tr_CacheOriginRunID : option uuid;
  tr_CacheCreatedAt : option Z;
  tr_CacheExpiresAt : option Z;
  tr_LogText : string;
  tr_LogTruncated : bool;
  tr_Error : string;
  tr_RuntimeID : string;
  tr_OutstandingPredecessors : Z;
  tr_OwnerGeneration : Z;
  tr_TerminalSequence : Z;
  tr_StartedAt : option Z;
  tr_CompletedAt : option Z;
  tr_CreatedAt : Z;
  tr_Quarantine : bool;
  tr_Descriptor : descriptor_blob;
  tr_NodeSelector : gmap string string;
}.

(** Column assignments of task_runs, as an [Updates] map lists them. *)
Definition with_Status v r :=
  mkTaskRun (tr_ID r) (tr_JobRunID r) (tr_TaskID r) v (tr_ClaimedBy r) (tr_ClaimExpiresAt r)
    (tr_ClaimAttempt r) (tr_RateLimitRetryAfter r) (tr_Attempt r) (tr_Priority r) (tr_Result r)
    (tr_Output r) (tr_BranchSelections r) (tr_CacheHit r) (tr_CacheOriginRunID r)
    (tr_CacheCreatedAt r) (tr_CacheExpiresAt r) (tr_LogText r) (tr_LogTruncated r) (tr_Error r)
    (tr_RuntimeID r) (tr_OutstandingPredecessors r) (tr_OwnerGeneration r) (tr_TerminalSequence r)
    (tr_StartedAt r) (tr_CompletedAt r) (tr_CreatedAt r) (tr_Quarantine r) (tr_Descriptor r) (tr_NodeSelector r).
Definition with_ClaimedBy v r :=
  mkTaskRun (tr_ID r) (tr_JobRunID r) (tr_TaskID r) (tr_Status r) v (tr_ClaimExpiresAt r)
    (tr_ClaimAttempt r) (tr_RateLimitRetryAfter r) (tr_Attempt r) (tr_Priority r) (tr_Result r)
    (tr_Output r) (tr_BranchSelections r) (tr_CacheHit r) (tr_CacheOriginRunID r)
    (tr_CacheCreatedAt r) (tr_CacheExpiresAt r) (tr_LogText r) (tr_LogTruncated r) (tr_Error r)
    (tr_RuntimeID r) (tr_OutstandingPredecessors r) (tr_OwnerGeneration r) (tr_TerminalSequence r)
    (tr_StartedAt r) (tr_CompletedAt r) (tr_CreatedAt r) (tr_Quarantine r) (tr_Descriptor r) (tr_NodeSelector r).
Definition with_ClaimExpiresAt v r :=
  mkTaskRun (tr_ID r) (tr_JobRunID r) (tr_TaskID r) (tr_Status r) (tr_ClaimedBy r) v
    (tr_ClaimAttempt r) (tr_RateLimitRetryAfter r) (tr_Attempt r) (tr_Priority r) (tr_Result r)
    (tr_Output r) (tr_BranchSelections r) (tr_CacheHit r) (tr_CacheOriginRunID r)
    (tr_CacheCreatedAt r) (tr_CacheExpiresAt r) (tr_LogText r) (tr_LogTruncated r) (tr_Error r)
    (tr_RuntimeID r) (tr_OutstandingPredecessors r) (tr_OwnerGeneration r) (tr_TerminalSequence r)
    (tr_StartedAt r) (tr_CompletedAt r) (tr_CreatedAt r) (tr_Quarantine r) (tr_Descriptor r) (tr_NodeSelector r).
Definition with_ClaimAttempt v r :=
  mkTaskRun (tr_ID r) (tr_JobRunID r) (tr_TaskID r) (tr_Status r) (tr_ClaimedBy r)
    (tr_ClaimExpiresAt r) v (tr_RateLimitRetryAfter r) (tr_Attempt r) (tr_Priority r) (tr_Result
    r) (tr_Output r) (tr_BranchSelections r) (tr_CacheHit r) (tr_CacheOriginRunID r)
    (tr_CacheCreatedAt r) (tr_CacheExpiresAt r) (tr_LogText r) (tr_LogTruncated r) (tr_Error r)
    (tr_RuntimeID r) (tr_OutstandingPredecessors r) (tr_OwnerGeneration r) (tr_TerminalSequence r)
    (tr_StartedAt r) (tr_CompletedAt r) (tr_CreatedAt r) (tr_Quarantine r) (tr_Descriptor r) (tr_NodeSelector r).
Definition with_RateLimitRetryAfter v r :=
  mkTaskRun (tr_ID r) (tr_JobRunID r) (tr_TaskID r) (tr_Status r) (tr_ClaimedBy r)
    (tr_ClaimExpiresAt r) (tr_ClaimAttempt r) v (tr_Attempt r) (tr_Priority r) (tr_Result r)
    (tr_Output r) (tr_BranchSelections r) (tr_CacheHit r) (tr_CacheOriginRunID r)
    (tr_CacheCreatedAt r) (tr_CacheExpiresAt r) (tr_LogText r) (tr_LogTruncated r) (tr_Error r)
    (tr_RuntimeID r) (tr_OutstandingPredecessors r) (tr_OwnerGeneration r) (tr_TerminalSequence r)
    (tr_StartedAt r) (tr_CompletedAt r) (tr_CreatedAt r) (tr_Quarantine r) (tr_Descriptor r) (tr_NodeSelector r).
Definition with_Attempt v r :=
  mkTaskRun (tr_ID r) (tr_JobRunID r) (tr_TaskID r) (tr_Status r) (tr_ClaimedBy r)
    (tr_ClaimExpiresAt r) (tr_ClaimAttempt r) (tr_RateLimitRetryAfter r) v (tr_Priority r)
    (tr_Result r) (tr_Output r) (tr_BranchSelections r) (tr_CacheHit r) (tr_CacheOriginRunID r)
    (tr_CacheCreatedAt r) (tr_CacheExpiresAt r) (tr_LogText r) (tr_LogTruncated r) (tr_Error r)
    (tr_RuntimeID r) (tr_OutstandingPredecessors r) (tr_OwnerGeneration r) (tr_TerminalSequence r)
    (tr_StartedAt r) (tr_CompletedAt r) (tr_CreatedAt r) (tr_Quarantine r) (tr_Descriptor r) (tr_NodeSelector r).
Definition with_Result v r :=
  mkTaskRun (tr_ID r) (tr_JobRunID r) (tr_TaskID r) (tr_Status r) (tr_ClaimedBy r)
    (tr_ClaimExpiresAt r) (tr_ClaimAttempt r) (tr_RateLimitRetryAfter r) (tr_Attempt r)
    (tr_Priority r) v (tr_Output r) (tr_BranchSelections r) (tr_CacheHit r) (tr_CacheOriginRunID
    r) (tr_CacheCreatedAt r) (tr_CacheExpiresAt r) (tr_LogText r) (tr_LogTruncated r) (tr_Error r)
    (tr_RuntimeID r) (tr_OutstandingPredecessors r) (tr_OwnerGeneration r) (tr_TerminalSequence r)
    (tr_StartedAt r) (tr_CompletedAt r) (tr_CreatedAt r) (tr_Quarantine r) (tr_Descriptor r) (tr_NodeSelector r).
Definition with_Output v r :=
  mkTaskRun (tr_ID r) (tr_JobRunID r) (tr_TaskID r) (tr_Status r) (tr_ClaimedBy r)
    (tr_ClaimExpiresAt r) (tr_ClaimAttempt r) (tr_RateLimitRetryAfter r) (tr_Attempt r)
    (tr_Priority r) (tr_Result r) v (tr_BranchSelections r) (tr_CacheHit r) (tr_CacheOriginRunID
    r) (tr_CacheCreatedAt r) (tr_CacheExpiresAt r) (tr_LogText r) (tr_LogTruncated r) (tr_Error r)
    (tr_RuntimeID r) (tr_OutstandingPredecessors r) (tr_OwnerGeneration r) (tr_TerminalSequence r)
    (tr_StartedAt r) (tr_CompletedAt r) (tr_CreatedAt r) (tr_Quarantine r) (tr_Descriptor r) (tr_NodeSelector r).
Definition with_BranchSelections v r :=
  mkTaskRun (tr_ID r) (tr_JobRunID r) (tr_TaskID r) (tr_Status r) (tr_ClaimedBy r)
    (tr_ClaimExpiresAt r) (tr_ClaimAttempt r) (tr_RateLimitRetryAfter r) (tr_Attempt r)
    (tr_Priority r) (tr_Result r) (tr_Output r) v (tr_CacheHit r) (tr_CacheOriginRunID r)
    (tr_CacheCreatedAt r) (tr_CacheExpiresAt r) (tr_LogText r) (tr_LogTruncated r) (tr_Error r)
    (tr_RuntimeID r) (tr_OutstandingPredecessors r) (tr_OwnerGeneration r) (tr_TerminalSequence r)
    (tr_StartedAt r) (tr_CompletedAt r) (tr_CreatedAt r) (tr_Quarantine r) (tr_Descriptor r) (tr_NodeSelector r).
Definition with_CacheHit v r :=
  mkTaskRun (tr_ID r) (tr_JobRunID r) (tr_TaskID r) (tr_Status r) (tr_ClaimedBy r)
    (tr_ClaimExpiresAt r) (tr_ClaimAttempt r) (tr_RateLimitRetryAfter r) (tr_Attempt r)
    (tr_Priority r) (tr_Result r) (tr_Output r) (tr_BranchSelections r) v (tr_CacheOriginRunID r)
    (tr_CacheCreatedAt r) (tr_CacheExpiresAt r) (tr_LogText r) (tr_LogTruncated r) (tr_Error r)
    (tr_RuntimeID r) (tr_OutstandingPredecessors r) (tr_OwnerGeneration r) (tr_TerminalSequence r)
    (tr_StartedAt r) (tr_CompletedAt r) (tr_CreatedAt r) (tr_Quarantine r) (tr_Descriptor r) (tr_NodeSelector r).
Definition with_CacheOriginRunID v r :=
  mkTaskRun (tr_ID r) (tr_JobRunID r) (tr_TaskID r) (tr_Status r) (tr_ClaimedBy r)
    (tr_ClaimExpiresAt r) (tr_ClaimAttempt r) (tr_RateLimitRetryAfter r) (tr_Attempt r)
    (tr_Priority r) (tr_Result r) (tr_Output r) (tr_BranchSelections r) (tr_CacheHit r) v
    (tr_CacheCreatedAt r) (tr_CacheExpiresAt r) (tr_LogText r) (tr_LogTruncated r) (tr_Error r)
    (tr_RuntimeID r) (tr_OutstandingPredecessors r) (tr_OwnerGeneration r) (tr_TerminalSequence r)
    (tr_StartedAt r) (tr_CompletedAt r) (tr_CreatedAt r) (tr_Quarantine r) (tr_Descriptor r) (tr_NodeSelector r).
Definition with_CacheCreatedAt v r :=
  mkTaskRun (tr_ID r) (tr_JobRunID r) (tr_TaskID r) (tr_Status r) (tr_ClaimedBy r)
    (tr_ClaimExpiresAt r) (tr_ClaimAttempt r) (tr_RateLimitRetryAfter r) (tr_Attempt r)
    (tr_Priority r) (tr_Result r) (tr_Output r) (tr_BranchSelections r) (tr_CacheHit r)
    (tr_CacheOriginRunID r) v (tr_CacheExpiresAt r) (tr_LogText r) (tr_LogTruncated r) (tr_Error
    r) (tr_RuntimeID r) (tr_OutstandingPredecessors r) (tr_OwnerGeneration r) (tr_TerminalSequence
    r) (tr_StartedAt r) (tr_CompletedAt r) (tr_CreatedAt r) (tr_Quarantine r) (tr_Descriptor r) (tr_NodeSelector r).
Definition with_CacheExpiresAt v r :=
  mkTaskRun (tr_ID r) (tr_JobRunID r) (tr_TaskID r) (tr_Status r) (tr_ClaimedBy r)
    (tr_ClaimExpiresAt r) (tr_ClaimAttempt r) (tr_RateLimitRetryAfter r) (tr_Attempt r)
    (tr_Priority r) (tr_Result r) (tr_Output r) (tr_BranchSelections r) (tr_CacheHit r)
    (tr_CacheOriginRunID r) (tr_CacheCreatedAt r) v (tr_LogText r) (tr_LogTruncated r) (tr_Error
    r) (tr_RuntimeID r) (tr_OutstandingPredecessors r) (tr_OwnerGeneration r) (tr_TerminalSequence
    r) (tr_StartedAt r) (tr_CompletedAt r) (tr_CreatedAt r) (tr_Quarantine r) (tr_Descriptor r) (tr_NodeSelector r).
Definition with_LogText v r :=
  mkTaskRun (tr_ID r) (tr_JobRunID r) (tr_TaskID r) (tr_Status r) (tr_ClaimedBy r)
    (tr_ClaimExpiresAt r) (tr_ClaimAttempt r) (tr_RateLimitRetryAfter r) (tr_Attempt r)
    (tr_Priority r) (tr_Result r) (tr_Output r) (tr_BranchSelections r) (tr_CacheHit r)
    (tr_CacheOriginRunID r) (tr_CacheCreatedAt r) (tr_CacheExpiresAt r) v (tr_LogTruncated r)
    (tr_Error r) (tr_RuntimeID r) (tr_OutstandingPredecessors r) (tr_OwnerGeneration r)
    (tr_TerminalSequence r) (tr_StartedAt r) (tr_CompletedAt r) (tr_CreatedAt r) (tr_Quarantine r)
    (tr_Descriptor r) (tr_NodeSelector r).
Definition with_LogTruncated v r :=
  mkTaskRun (tr_ID r) (tr_JobRunID r) (tr_TaskID r) (tr_Status r) (tr_ClaimedBy r)
    (tr_ClaimExpiresAt r) (tr_ClaimAttempt r) (tr_RateLimitRetryAfter r) (tr_Attempt r)
    (tr_Priority r) (tr_Result r) (tr_Output r) (tr_BranchSelections r) (tr_CacheHit r)
    (tr_CacheOriginRunID r) (tr_CacheCreatedAt r) (tr_CacheExpiresAt r) (tr_LogText r) v (tr_Error
    r) (tr_RuntimeID r) (tr_OutstandingPredecessors r) (tr_OwnerGeneration r) (tr_TerminalSequence
    r) (tr_StartedAt r) (tr_CompletedAt r) (tr_CreatedAt r) (tr_Quarantine r) (tr_Descriptor r) (tr_NodeSelector r).
Definition with_Error v r :=
  mkTaskRun (tr_ID r) (tr_JobRunID r) (tr_TaskID r) (tr_Status r) (tr_ClaimedBy r)
    (tr_ClaimExpiresAt r) (tr_ClaimAttempt r) (tr_RateLimitRetryAfter r) (tr_Attempt r)
    (tr_Priority r) (tr_Result r) (tr_Output r) (tr_BranchSelections r) (tr_CacheHit r)
    (tr_CacheOriginRunID r) (tr_CacheCreatedAt r) (tr_CacheExpiresAt r) (tr_LogText r)
    (tr_LogTruncated r) v (tr_RuntimeID r) (tr_OutstandingPredecessors r) (tr_OwnerGeneration r)
    (tr_TerminalSequence r) (tr_StartedAt r) (tr_CompletedAt r) (tr_CreatedAt r) (tr_Quarantine r)
    (tr_Descriptor r) (tr_NodeSelector r).
Definition with_RuntimeID v r :=
  mkTaskRun (tr_ID r) (tr_JobRunID r) (tr_TaskID r) (tr_Status r) (tr_ClaimedBy r)
    (tr_ClaimExpiresAt r) (tr_ClaimAttempt r) (tr_RateLimitRetryAfter r) (tr_Attempt r)
    (tr_Priority r) (tr_Result r) (tr_Output r) (tr_BranchSelections r) (tr_CacheHit r)
    (tr_CacheOriginRunID r) (tr_CacheCreatedAt r) (tr_CacheExpiresAt r) (tr_LogText r)
    (tr_LogTruncated r) (tr_Error r) v (tr_OutstandingPredecessors r) (tr_OwnerGeneration r)
    (tr_TerminalSequence r) (tr_StartedAt r) (tr_CompletedAt r) (tr_CreatedAt r) (tr_Quarantine r)
    (tr_Descriptor r) (tr_NodeSelector r).
Definition with_OutstandingPredecessors v r :=
  mkTaskRun (tr_ID r) (tr_JobRunID r) (tr_TaskID r) (tr_Status r) (tr_ClaimedBy r)
    (tr_ClaimExpiresAt r) (tr_ClaimAttempt r) (tr_RateLimitRetryAfter r) (tr_Attempt r)
    (tr_Priority r) (tr_Result r) (tr_Output r) (tr_BranchSelections r) (tr_CacheHit r)
    (tr_CacheOriginRunID r) (tr_CacheCreatedAt r) (tr_CacheExpiresAt r) (tr_LogText r)
    (tr_LogTruncated r) (tr_Error r) (tr_RuntimeID r) v (tr_OwnerGeneration r)
    (tr_TerminalSequence r) (tr_StartedAt r) (tr_CompletedAt r) (tr_CreatedAt r) (tr_Quarantine r)
    (tr_Descriptor r) (tr_NodeSelector r).
Definition with_OwnerGeneration v r :=
  mkTaskRun (tr_ID r) (tr_JobRunID r) (tr_TaskID r) (tr_Status r) (tr_ClaimedBy r)
    (tr_ClaimExpiresAt r) (tr_ClaimAttempt r) (tr_RateLimitRetryAfter r) (tr_Attempt r)
    (tr_Priority r) (tr_Result r) (tr_Output r) (tr_BranchSelections r) (tr_CacheHit r)
    (tr_CacheOriginRunID r) (tr_CacheCreatedAt r) (tr_CacheExpiresAt r) (tr_LogText r)
    (tr_LogTruncated r) (tr_Error r) (tr_RuntimeID r) (tr_OutstandingPredecessors r) v
    (tr_TerminalSequence r) (tr_StartedAt r) (tr_CompletedAt r) (tr_CreatedAt r) (tr_Quarantine r)
    (tr_Descriptor r) (tr_NodeSelector r).
Definition with_TerminalSequence v r :=
  mkTaskRun (tr_ID r) (tr_JobRunID r) (tr_TaskID r) (tr_Status r) (tr_ClaimedBy r)
    (tr_ClaimExpiresAt r) (tr_ClaimAttempt r) (tr_RateLimitRetryAfter r) (tr_Attempt r)
    (tr_Priority r) (tr_Result r) (tr_Output r) (tr_BranchSelections r) (tr_CacheHit r)
    (tr_CacheOriginRunID r) (tr_CacheCreatedAt r) (tr_CacheExpiresAt r) (tr_LogText r)
    (tr_LogTruncated r) (tr_Error r) (tr_RuntimeID r) (tr_OutstandingPredecessors r)
    (tr_OwnerGeneration r) v (tr_StartedAt r) (tr_CompletedAt r) (tr_CreatedAt r) (tr_Quarantine
    r) (tr_Descriptor r) (tr_NodeSelector r).
Definition with_StartedAt v r :=
  mkTaskRun (tr_ID r) (tr_JobRunID r) (tr_TaskID r) (tr_Status r) (tr_ClaimedBy r)
    (tr_ClaimExpiresAt r) (tr_ClaimAttempt r) (tr_RateLimitRetryAfter r) (tr_Attempt r)
    (tr_Priority r) (tr_Result r) (tr_Output r) (tr_BranchSelections r) (tr_CacheHit r)
    (tr_CacheOriginRunID r) (tr_CacheCreatedAt r) (tr_CacheExpiresAt r) (tr_LogText r)
    (tr_LogTruncated r) (tr_Error r) (tr_RuntimeID r) (tr_OutstandingPredecessors r)
    (tr_OwnerGeneration r) (tr_TerminalSequence r) v (tr_CompletedAt r) (tr_CreatedAt r)
    (tr_Quarantine r) (tr_Descriptor r) (tr_NodeSelector r).
Definition with_CompletedAt v r :=
  mkTaskRun (tr_ID r) (tr_JobRunID r) (tr_TaskID r) (tr_Status r) (tr_ClaimedBy r)
    (tr_ClaimExpiresAt r) (tr_ClaimAttempt r) (tr_RateLimitRetryAfter r) (tr_Attempt r)
    (tr_Priority r) (tr_Result r) (tr_Output r) (tr_BranchSelections r) (tr_CacheHit r)
    (tr_CacheOriginRunID r) (tr_CacheCreatedAt r) (tr_CacheExpiresAt r) (tr_LogText r)
    (tr_LogTruncated r) (tr_Error r) (tr_RuntimeID r) (tr_OutstandingPredecessors r)
    (tr_OwnerGeneration r) (tr_TerminalSequence r) (tr_StartedAt r) v (tr_CreatedAt r)
    (tr_Quarantine r) (tr_Descriptor r) (tr_NodeSelector r).

(** gorm's [Updates]: assign the listed columns of one row. *)
Definition Updates (l : list (TaskRun → TaskRun)) (r : TaskRun) : TaskRun :=
  fold_left (λ r f, f r) l r.

Record RunLease := mkRunLease {
  rl_RunID : uuid;
  rl_OwnerNode : string;
  rl_AcquiredAt : Z;
  rl_LeaseExpiresAt : Z;
  rl_Generation : Z;
}.

Record RunCheckpoint := mkRunCheckpoint {
  cp_RunID : uuid;
  cp_SequenceHigh : Z;
  cp_OwnerGeneration : Z;
  cp_StateBlob : blob;
  cp_IsIncremental : bool;
  cp_CreatedAt : Z;
}.

Record RunQueue := mkRunQueue {
  rq_ID : uuid;
  rq_JobID : uuid;
  rq_Params : blob;
  rq_Priority : Z;
  rq_ClaimedBy : string;
  rq_ClaimedAt : option Z;
  rq_CreatedAt : Z;
}.

(** internal/models/execution_event.go; the payload is not modelled. The sequence
    is the position in the table. *)
Record ExecutionEvent := mkExecutionEvent {
  ev_Type : string;
  ev_JobID : uuid;
  ev_RunID : uuid;
  ev_TaskID : uuid;
  ev_Quarantine : bool;
}.

Record DB := mkDB {
  jobs : list Job;
  tasks_tbl : list Task;
  task_edges : list TaskEdge;
  job_runs : list JobRun;
  task_runs : list TaskRun;
  run_leases : list RunLease;
  run_checkpoints : list RunCheckpoint;
  run_queue : list RunQueue;
  execution_events : list ExecutionEvent;
}.

Definition set_job_runs r db :=
  mkDB (jobs db) (tasks_tbl db) (task_edges db) r (task_runs db) (run_leases db) (run_checkpoints db) (run_queue db) (execution_events db).
Definition set_task_runs r db :=
  mkDB (jobs db) (tasks_tbl db) (task_edges db) (job_runs db) r (run_leases db) (run_checkpoints db) (run_queue db) (execution_events db).
Definition set_run_leases r db :=
  mkDB (jobs db) (tasks_tbl db) (task_edges db) (job_runs db) (task_runs db) r (run_checkpoints db) (run_queue db) (execution_events db).
Definition set_run_checkpoints r db :=
  mkDB (jobs db) (tasks_tbl db) (task_edges db) (job_runs db) (task_runs db) (run_leases db) r (run_queue db) (execution_events db).
Definition set_run_queue r db :=
  mkDB (jobs db) (tasks_tbl db) (task_edges db) (job_runs db) (task_runs db) (run_leases db) (run_checkpoints db) r (execution_events db).
Definition set_execution_events r db :=
  mkDB (jobs db) (tasks_tbl db) (task_edges db) (job_runs db) (task_runs db) (run_leases db) (run_checkpoints db) (run_queue db) r.

(** * Statements *)

(** [SELECT ... WHERE p], in row order. *)
Definition select {R} (p : R → bool) (tbl : list R) : list R := List.filter p tbl.

(** [UPDATE ... SET f WHERE p]: the table and [RowsAffected]. *)
Definition update_where {R} (p : R → bool) (f : R → R) (tbl : list R) : list R * nat :=
  (map (λ r, if p r then f r else r) tbl, countb p tbl).

(** [DELETE ... WHERE p]: the table and [RowsAffected]. *)
Definition delete_where {R} (p : R → bool) (tbl : list R) : list R * nat :=
  (List.filter (λ r, negb (p r)) tbl, countb p tbl).

(** gorm's [First]: the first row of the ordered selection. *)
Definition first {R} (l : list R) : option R := head l.

(** * Lemmas on statements *)

Section statements.
Context {R : Type} (p : R → bool) (f : R → R).

Lemma update_lookup tbl i : (update_where p f tbl).1 !! i =
  (λ r, if p r then f r else r) <$> tbl !! i.
Proof. simpl. apply list_lookup_fmap. Qed.

Lemma update_length tbl : length (update_where p f tbl).1 = length tbl.
Proof. simpl. apply length_map. Qed.

Lemma update_rows_zero tbl : (update_where p f tbl).2 = 0%nat → (update_where p f tbl).1 = tbl.
Proof.
  simpl. rewrite countb_0. intros H. induction tbl as [|r tbl IH]; [done|]. simpl.
  rewrite (H r) by set_solver. f_equal. apply IH. set_solver.
Qed.

Lemma update_elem tbl r' : r' ∈ (update_where p f tbl).1 ↔
  ∃ r, r ∈ tbl ∧ r' = if p r then f r else r.
Proof. simpl. rewrite list_elem_of_In, in_map_iff. setoid_rewrite list_elem_of_In. naive_solver. Qed.

(** An update that keeps a column keeps it in every row. *)
Lemma update_column {C} (col : R → C) tbl : (∀ r, p r = true → col (f r) = col r) →
  map col (update_where p f tbl).1 = map col tbl.
Proof.
  intros H. simpl. rewrite map_map. apply map_ext. intros r. destruct (p r) eqn:E; auto.
Qed.

End statements.

Section selections.
Context {R : Type} (p : R → bool).

Lemma select_elem tbl r : r ∈ select p tbl ↔ r ∈ tbl ∧ p r = true.
Proof. unfold select. rewrite !list_elem_of_In, List.filter_In. done. Qed.

Lemma delete_elem tbl r : r ∈ (delete_where p tbl).1 ↔ r ∈ tbl ∧ p r = false.
Proof. simpl. rewrite !list_elem_of_In, List.filter_In, negb_true_iff. done. Qed.
End selections.

(** A key that is unique in a table finds its row. *)
Lemma first_unique {A} (key : A → N) (l : list A) x : NoDup (map key l) → x ∈ l →
  first (select (λ y, (key y =? key x)%N) l) = Some x.
Proof.
  unfold first, select. induction l as [|y k IH]; intros Hnd Hin; [by apply elem_of_nil in Hin|]. simpl in *.
  apply NoDup_cons in Hnd as [Hy Hnd]. apply elem_of_cons in Hin as [->|Hin]; [by rewrite N.eqb_refl|].
  destruct (N.eqb_spec (key y) (key x)) as [E|]; [|auto].
  exfalso. apply Hy. rewrite E. by apply list_elem_of_In, in_map, list_elem_of_In.
Qed.
