(* ===== verification/Store.v ===== *)
(** The run store's access layer (internal/run/store.go): transactions as an
    error-state monad over the database, the bounded retry on contention, event
    records, and the execution descriptor of quarantined runs.

    A transaction body that fails leaves the database as it was. The errors a
    connection may raise at each attempt are an argument ([faults]);
    [ErrContention] stands for the errors that pkg/dqlite classifies as
    contention. [time.Now()] is an argument of each operation. *)

From S2P Require Import Prelude TriggerRule Tables.

(** * Errors *)

Inductive store_error : Type :=
| ErrTaskClaimMismatch
| ErrRunSkipped
| ErrRunQueued
| ErrQueuedRunUnavailable
| ErrQueuedRunNotFound
| ErrMaxConcurrentRunsReached
| ErrJobPaused
| ErrInvalidPriority
| errRunAlreadyTerminal
| ErrRecordNotFound
| ErrContention
| ErrMessage (msg : string).

#[export] Instance store_error_eq_dec : EqDecision store_error.
Proof. solve_decision. Defined.

Definition isStoreContentionErr (e : store_error) : bool := bool_decide (e = ErrContention).

(** * Transactions *)

Definition Tx (A : Type) : Type := DB → store_error + A * DB.

#[export] Instance Tx_ret : MRet Tx := λ A a db, inr (a, db).
#[export] Instance Tx_bind : MBind Tx := λ A B k m db,
  match m db with
  | inl e => inl e
  | inr (a, db') => k a db'
  end.

Definition throw {A} (e : store_error) : Tx A := λ _, inl e.

(** A read, and a statement with its [RowsAffected]. *)
Definition Query {A} (f : DB → A) : Tx A := λ db, inr (f db, db).
Definition Exec (f : DB → DB * nat) : Tx nat := λ db, let '(db', n) := f db in inr (n, db').

Definition UpdateTaskRuns (p : TaskRun → bool) (cols : list (TaskRun → TaskRun)) : Tx nat :=
  Exec (λ db, let '(t, n) := update_where p (Updates cols) (task_runs db) in (set_task_runs t db, n)).

Definition UpdateJobRuns (p : JobRun → bool) (f : JobRun → JobRun) : Tx nat :=
  Exec (λ db, let '(t, n) := update_where p f (job_runs db) in (set_job_runs t db, n)).

(** gorm's [First] with its not-found error. *)
Definition First {R} (f : DB → list R) : Tx R := λ db,
  match first (f db) with
  | None => inl ErrRecordNotFound
  | Some r => inr (r, db)
  end.

(** [for _, x := range l { ... }] over a transaction body. *)
Fixpoint forTx {A} (l : list A) (body : A → Tx ()) : Tx () :=
  match l with
  | [] => mret ()
  | x :: l' => _ ← body x; forTx l' body
  end.

(** One attempt: the transaction commits or leaves the database alone. *)
Definition Transaction {A} (fault : option store_error) (body : Tx A) (db : DB)
    : (store_error + A) * DB :=
  match fault with
  | Some e => (inl e, db)
  | None =>
      match body db with
      | inl e => (inl e, db)
      | inr (a, db') => (inr a, db')
      end
  end.

(** Milliseconds; pkg/db BusyRetryBackoffs. *)
Definition storeBusyRetryBackoffs : list Z := [10; 20; 40; 80; 160; 320; 640; 1000].

Fixpoint busyRetryLoop {A} (left : nat) (faults : nat → option store_error) (attempt : nat)
    (body : Tx A) (db : DB) : (store_error + A) * DB :=
  match Transaction (faults attempt) body db with
  | (inr a, db') => (inr a, db')
  | (inl e, db') =>
      if negb (isStoreContentionErr e) then (inl e, db')
      else match left with
           | O => (inl e, db')
           | S left' => busyRetryLoop left' faults (S attempt) body db'
           end
  end.

(** [withStoreBusyRetry] around [s.db.Transaction], the context never cancelled. *)
Definition withStoreBusyRetry {A} (faults : nat → option store_error) (body : Tx A) (db : DB)
    : (store_error + A) * DB :=
  busyRetryLoop (length storeBusyRetryBackoffs) faults 0 body db.

(** * Rows by key *)

Definition is_run (runID : uuid) (r : JobRun) : bool := (jr_ID r =? runID)%N.
Definition is_task_run (runID taskID : uuid) (r : TaskRun) : bool :=
  (tr_JobRunID r =? runID)%N && (tr_TaskID r =? taskID)%N.
Definition is_claimed (claimedBy : string) (r : TaskRun) : bool := tr_ClaimedBy r =s claimedBy.

Definition firstRun (runID : uuid) : Tx JobRun := First (λ db, select (is_run runID) (job_runs db)).
Definition firstTaskRun (runID taskID : uuid) : Tx TaskRun :=
  First (λ db, select (is_task_run runID taskID) (task_runs db)).
Definition firstTask (taskID : uuid) : Tx Task :=
  First (λ db, select (λ t, (t_ID t =? taskID)%N) (tasks_tbl db)).

(** * Events (internal/event/bus.go, internal/event/store.go) *)

Definition TypeRunStarted : string := "run_started".
Definition TypeRunCompleted : string := "run_completed".
Definition TypeRunFailed : string := "run_failed".
Definition TypeRunCancelled : string := "run_cancelled".
Definition TypeRunTerminal : string := "run_terminal".
Definition TypeRunRetried : string := "run_retried".
Definition TypeTaskStarted : string := "task_started".
Definition TypeTaskSucceeded : string := "task_succeeded".
Definition TypeTaskFailed : string := "task_failed".
Definition TypeTaskSkipped : string := "task_skipped".
Definition TypeTaskRetrying : string := "task_retrying".
Definition TypeTaskReady : string := "task_ready".
Definition TypeTaskCached : string := "task_cached".

Definition AppendTx (evt : ExecutionEvent) : Tx () := λ db,
  inr ((), set_execution_events (execution_events db ++ [evt]) db).

Definition recordTaskEventTx (eventType : string) (runID taskID : uuid) : Tx () :=
  taskRun ← firstTaskRun runID taskID;
  jobRun ← firstRun runID;
  AppendTx (mkExecutionEvent eventType (jr_JobID jobRun) runID taskID
              (tr_Quarantine taskRun || jr_Quarantine jobRun)).

(** Fail-closed quarantine stamp of a single event. *)
Definition runEventQuarantineTx (runID : uuid) : Tx bool :=
  jobRun ← firstRun runID; mret (jr_Quarantine jobRun).
Definition taskEventQuarantineTx (runID taskID : uuid) : Tx bool :=
  taskRun ← firstTaskRun runID taskID; mret (tr_Quarantine taskRun).

Definition stampEventQuarantineTx (evt : ExecutionEvent) : Tx ExecutionEvent :=
  if (ev_RunID evt =? uuid_Nil)%N then mret evt
  else
    q ← (if negb (ev_TaskID evt =? uuid_Nil)%N
         then taskEventQuarantineTx (ev_RunID evt) (ev_TaskID evt)
         else runEventQuarantineTx (ev_RunID evt));
    mret (mkExecutionEvent (ev_Type evt) (ev_JobID evt) (ev_RunID evt) (ev_TaskID evt) q).

Definition appendTaskReadyEventTx (runID taskID : uuid) : Tx () :=
  jobRun ← firstRun runID;
  evt ← stampEventQuarantineTx
          (mkExecutionEvent TypeTaskReady (jr_JobID jobRun) runID taskID false);
  AppendTx evt.

(** Batch append: the stamp of one event is the run's or the task's marker, and a
    missing row is an error. *)
Definition stampBatchEvent (evt : ExecutionEvent) : Tx ExecutionEvent :=
  if (ev_RunID evt =? uuid_Nil)%N then mret evt else
  run ← runEventQuarantineTx (ev_RunID evt);
  task ← (if (ev_TaskID evt =? uuid_Nil)%N then mret false
          else taskEventQuarantineTx (ev_RunID evt) (ev_TaskID evt));
  mret (mkExecutionEvent (ev_Type evt) (ev_JobID evt) (ev_RunID evt) (ev_TaskID evt) (run || task)).

Fixpoint stampBatchEventQuarantineTx (evts : list ExecutionEvent) : Tx (list ExecutionEvent) :=
  match evts with
  | [] => mret []
  | e :: l => e' ← stampBatchEvent e; l' ← stampBatchEventQuarantineTx l; mret (e' :: l')
  end.

Definition appendBatchEventsTx (evts : list ExecutionEvent) : Tx () :=
  evts' ← stampBatchEventQuarantineTx evts; forTx evts' AppendTx.

(** * Execution descriptors of quarantined runs *)

Definition replayTaskExecutionDescriptorTx (runID taskID : uuid)
    : Tx (option TaskExecutionDescriptor) := λ db,
  match first (select (is_task_run runID taskID) (task_runs db)),
        first (select (is_run runID) (job_runs db)) with
  | Some row, Some jobRun =>
      if negb (tr_Quarantine row) && negb (jr_Quarantine jobRun) then inr (None, db)
      else match tr_Descriptor row with
           | NoDescriptor => inl (ErrMessage "run: replay task execution descriptor missing")
           | CorruptDescriptor => inl (ErrMessage "run: decode replay task execution descriptor")
           | Descriptor d =>
               if negb (d_SchemaVersion d =? TaskExecutionDescriptorSchemaVersion)
               then inl (ErrMessage "run: unsupported replay task execution descriptor version")
               else inr (Some d, db)
           end
  | _, _ => inr (None, db)
  end.

Definition replayPredecessorRefsTx (runID taskID : uuid)
    : Tx (option (list TaskExecutionEdgeRef)) :=
  d ← replayTaskExecutionDescriptorTx runID taskID;
  mret (d_Predecessors <$> d).

Fixpoint firstNonEmpty (values : list string) : string :=
  match values with
  | [] => ""
  | v :: l => if negb (TrimSpace v =s "") then v else firstNonEmpty l
  end.
