(* ===== verification/TxLogic.v ===== *)
(** Reasoning about transactions: closure of relations on the database under the
    monad, atomicity of the bounded retry, and what the primitive statements
    change. *)

From S2P Require Import Prelude TriggerRule Tables Store.

(** * Relations preserved by transaction bodies *)

(** [tx_rel R m]: every successful run of [m] is related by [R]. *)
Definition tx_rel {A} (R : DB → DB → Prop) (m : Tx A) : Prop :=
  ∀ db a db', m db = inr (a, db') → R db db'.

Create HintDb tx.

Section closure.
Context (R : DB → DB → Prop) `{!PreOrder R}.

Lemma tx_rel_ret {A} (a : A) : tx_rel R (mret a : Tx A).
Proof. intros db b db' E. inversion E; subst. reflexivity. Qed.

Lemma tx_rel_throw {A} e : tx_rel R (throw e : Tx A).
Proof. by intros db a db' E. Qed.

Lemma tx_rel_query {A} (f : DB → A) : tx_rel R (Query f).
Proof. intros db b db' E. inversion E; subst. reflexivity. Qed.

Lemma tx_rel_first {A} (f : DB → list A) : tx_rel R (First f).
Proof. intros db b db'. unfold First. destruct (first (f db)); intros E; inversion E; subst. reflexivity. Qed.

Lemma tx_rel_bind {A B} (m : Tx A) (k : A → Tx B) :
  tx_rel R m → (∀ a, tx_rel R (k a)) → tx_rel R (m ≫= k).
Proof.
  intros Hm Hk db b db'. unfold mbind, Tx_bind. destruct (m db) as [e|[a db1]] eqn:E; [done|].
  intros E2. transitivity db1; [by eapply Hm|by eapply Hk].
Qed.

Lemma tx_rel_for {A} (l : list A) (body : A → Tx ()) :
  (∀ a, tx_rel R (body a)) → tx_rel R (forTx l body).
Proof.
  intros Hb. induction l as [|x l IH]; [apply tx_rel_ret|]. simpl.
  apply tx_rel_bind; [apply Hb|done].
Qed.

Lemma tx_rel_if {A} (b : bool) (m1 m2 : Tx A) : tx_rel R m1 → tx_rel R m2 →
  tx_rel R (if b then m1 else m2).
Proof. by destruct b. Qed.
End closure.

(** Inversion of a successful sequence. *)
Lemma bind_inr {A B} (m : Tx A) (k : A → Tx B) db b db' : (m ≫= k) db = inr (b, db') →
  ∃ a db1, m db = inr (a, db1) ∧ k a db1 = inr (b, db').
Proof.
  unfold mbind, Tx_bind. destruct (m db) as [e|[a db1]]; [done|]. intros E. by exists a, db1.
Qed.

Lemma ret_inr {A} (a b : A) db db' : (mret a : Tx A) db = inr (b, db') → b = a ∧ db' = db.
Proof. intros E. by inversion E. Qed.

Lemma query_inr {A} (f : DB → A) db b db' : Query f db = inr (b, db') → b = f db ∧ db' = db.
Proof. intros E. by inversion E. Qed.

(** The events table is the only one an event append changes. *)
Definition ignores_events (R : DB → DB → Prop) : Prop := ∀ db evts, R db (set_execution_events evts db).

(** Closes [tx_rel R m] goals for bodies built from the combinators; leaves the
    statements to lemmas on [R]. *)
Ltac tx_step :=
  match goal with
  | |- tx_rel _ (mret _) => apply tx_rel_ret; typeclasses eauto
  | |- tx_rel _ (throw _) => apply tx_rel_throw
  | |- tx_rel _ (Query _) => apply tx_rel_query; typeclasses eauto
  | |- tx_rel _ (First _) => apply tx_rel_first; typeclasses eauto
  | |- tx_rel _ (_ ≫= _) => apply tx_rel_bind; [typeclasses eauto| |intros ?]
  | |- tx_rel _ (forTx _ _) => apply tx_rel_for; [typeclasses eauto|intros ?]
  | |- tx_rel _ (if ?b then _ else _) => destruct b
  | |- tx_rel _ (match ?x with _ => _ end) => destruct x
  | |- tx_rel _ (let _ := _ in _) => cbv zeta
  | |- _ => solve [eauto with tx]
  end.
Ltac tx_solve := repeat tx_step.

Section events.
Context (R : DB → DB → Prop) `{!PreOrder R} (HE : ignores_events R).

Lemma tx_rel_append evt : tx_rel R (AppendTx evt).
Proof using HE. intros db a db' E. inversion E; subst. apply HE. Qed.
#[local] Hint Resolve tx_rel_append : tx.

Lemma tx_rel_record ty run task : tx_rel R (recordTaskEventTx ty run task).
Proof using All. unfold recordTaskEventTx, firstTaskRun, firstRun. tx_solve. Qed.

Lemma tx_rel_ready run task : tx_rel R (appendTaskReadyEventTx run task).
Proof using All.
  unfold appendTaskReadyEventTx, stampEventQuarantineTx, runEventQuarantineTx,
    taskEventQuarantineTx, firstTaskRun, firstRun. tx_solve.
Qed.

Lemma tx_rel_batch evts : tx_rel R (appendBatchEventsTx evts).
Proof using All.
  unfold appendBatchEventsTx. tx_step; [|tx_solve].
  induction evts as [|e l IH]; [apply tx_rel_ret; typeclasses eauto|].
  simpl. unfold stampBatchEvent, runEventQuarantineTx, taskEventQuarantineTx, firstTaskRun, firstRun.
  tx_solve.
Qed.

Lemma tx_rel_descriptor run task : tx_rel R (replayTaskExecutionDescriptorTx run task).
Proof using All.
  intros db a db'. unfold replayTaskExecutionDescriptorTx. repeat case_match; intros E;
    inversion E; subst; reflexivity.
Qed.
End events.

(** * Atomicity of the retry *)

Lemma busyRetryLoop_atomic {A} left faults n (body : Tx A) db r db' :
  busyRetryLoop left faults n body db = (r, db') →
  match r with
  | inr a => body db = inr (a, db')
  | inl e => db' = db
  end.
Proof.
  revert n. induction left as [|left IH]; intros n; simpl; unfold Transaction.
  - destruct (faults n) as [e|]; [repeat case_match; congruence|].
    destruct (body db) as [e|[a db1]]; repeat case_match; congruence.
  - destruct (faults n) as [e|].
    + destruct (negb (isStoreContentionErr e)); [intros ?; by simplify_eq|]. apply IH.
    + destruct (body db) as [e|[a db1]]; [|intros ?; by simplify_eq].
      destruct (negb (isStoreContentionErr e)); [intros ?; by simplify_eq|]. apply IH.
Qed.

(** If the connection recovers within the schedule the body takes effect. *)
Lemma busyRetryLoop_recovers {A} left faults n (body : Tx A) db k :
  (k ≤ left)%nat → (∀ i, (n ≤ i < n + k)%nat → faults i = Some ErrContention) →
  faults (n + k)%nat = None → body db ≠ inl ErrContention →
  busyRetryLoop left faults n body db =
    match body db with inl e => (inl e, db) | inr (a, db') => (inr a, db') end.
Proof.
  revert n k. induction left as [|left IH]; intros n k Hk Hf Hn Hb.
  - assert (k = 0)%nat as -> by lia. rewrite Nat.add_0_r in Hn. simpl. unfold Transaction. rewrite Hn.
    destruct (body db) as [e|[a db1]]; [|done]. destruct (isStoreContentionErr e) eqn:E; [|done]. by simpl.
  - simpl. unfold Transaction. destruct k as [|k].
    + rewrite Nat.add_0_r in Hn. rewrite Hn. destruct (body db) as [e|[a db1]]; [|done].
      destruct (isStoreContentionErr e) eqn:E; [|done].
      apply bool_decide_eq_true in E. by subst.
    + rewrite (Hf n) by lia. simpl. apply (IH (S n) k); [lia| | |done].
      * intros i Hi. apply Hf. lia.
      * by replace (S n + k)%nat with (n + S k)%nat by lia.
Qed.

(** Without faults the wrapper is the body. *)
Lemma busyRetry_nofault {A} (body : Tx A) db :
  withStoreBusyRetry (λ _, None) body db =
    match body db with inl e => (inl e, db) | inr (a, db') => (inr a, db') end.
Proof.
  unfold withStoreBusyRetry. generalize 0%nat. induction (length storeBusyRetryBackoffs) as [|n IH]; intros k; simpl;
    destruct (body db) as [e|[a db']] eqn:E; try done; destruct (negb (isStoreContentionErr e)); done || apply IH.
Qed.

(** * Rows keep their keys *)

Definition task_key (r : TaskRun) : uuid * uuid := (tr_JobRunID r, tr_TaskID r).

(** (run, task) identifies a row. *)
Definition rows_unique (db : DB) : Prop := NoDup (map task_key (task_runs db)).

Definition same_keys (db db' : DB) : Prop :=
  map task_key (task_runs db') = map task_key (task_runs db).

#[export] Instance same_keys_preorder : PreOrder same_keys.
Proof. split; [done|]. intros a b c H1 H2. unfold same_keys in *. congruence. Qed.

Lemma same_keys_unique db db' : same_keys db db' → rows_unique db → rows_unique db'.
Proof. unfold same_keys, rows_unique. by intros ->. Qed.

Lemma rows_unique_eq db i j r r' : rows_unique db →
  task_runs db !! i = Some r → task_runs db !! j = Some r' → task_key r = task_key r' → i = j.
Proof.
  intros Hu Hi Hj Hk. eapply NoDup_lookup; [exact Hu| |]; rewrite list_lookup_fmap.
  - by rewrite Hi.
  - rewrite Hj. simpl. by rewrite Hk.
Qed.

Lemma is_task_run_key run task r : is_task_run run task r = true ↔ task_key r = (run, task).
Proof.
  unfold is_task_run, task_key. rewrite andb_true_iff, !N.eqb_eq.
  split; [by intros [-> ->]|by intros [= -> ->]].
Qed.

(** * Statements on task rows *)

(** A statement's effect, row by row. *)
Lemma UpdateTaskRuns_spec (p : TaskRun → bool) (cols : list (TaskRun → TaskRun)) db n db' : UpdateTaskRuns p cols db = inr (n, db') →
  n = countb p (task_runs db) ∧ db' = set_task_runs (update_where p (Updates cols) (task_runs db)).1 db ∧
  ∀ i : nat, task_runs db' !! i = (λ r, if p r then Updates cols r else r) <$> task_runs db !! i.
Proof.
  unfold UpdateTaskRuns, Exec, update_where. intros E. inversion E; subst. split; [done|]. split; [done|].
  intros i. simpl. apply list_lookup_fmap.
Qed.

(** [R] follows from a relation between the rows before and after. *)
Lemma tx_rel_update (R : DB → DB → Prop) (p : TaskRun → bool) (cols : list (TaskRun → TaskRun)) :
  (∀ db db', (∀ i : nat, task_runs db' !! i = (λ r, if p r then Updates cols r else r) <$> task_runs db !! i) →
     R db db') → tx_rel R (UpdateTaskRuns p cols).
Proof. intros H db n db' E. apply UpdateTaskRuns_spec in E as (_ & _ & E). by apply H. Qed.

Lemma rows_same_keys (db db' : DB) (f : TaskRun → TaskRun) :
  (∀ i : nat, task_runs db' !! i = f <$> task_runs db !! i) → (∀ r, task_key (f r) = task_key r) →
  same_keys db db'.
Proof.
  intros H Hk. unfold same_keys. apply list_eq. intros i. rewrite !list_lookup_fmap, H.
  destruct (task_runs db !! i); [|done]. simpl. by rewrite Hk.
Qed.
