(* ===== verification/RunState.v ===== *)
(** The run owner's in-memory DAG state (internal/run/owner_state.go): the
    topology, the mutable state, and one definition per method. Methods that
    mutate the receiver return the new state; the [for id := range m] loops
    over Go maps take the iteration order, which Go leaves unspecified, as an
    argument. *)

From S2P Require Import Prelude TriggerRule.

(** * Data *)

Record OwnerTaskState := mkOwnerTaskState {
  Status : TaskStatus;
  Attempt : Z;
  ClaimedBy : string;
  LeaseExpiresAtMs : Z;
}.

Record RunTopology := mkRunTopology {
  Adjacency : gmap uuid (list uuid);
  Predecessors : gmap uuid (list uuid);
  TriggerRule : gmap uuid string;
  Order : gmap uuid Z;
}.

Record SkippedTask := mkSkippedTask {
  sk_TaskID : uuid;
  sk_TerminalSequence : Z;
  sk_Reason : string;
}.

Record CompletionResult := mkCompletionResult {
  cr_TerminalSequence : Z;
  cr_Ready : list uuid;
  cr_Skipped : list SkippedTask;
  cr_Complete : bool;
}.

Record RunState := mkRunState {
  topo : RunTopology;
  tasks : gmap uuid OwnerTaskState;
  indegree : gmap uuid Z;
  outcomes : gmap uuid TaskStatus;
  ready : list uuid;
  inReady : gset uuid;
  seq : Z;
  terminalCount : Z;
  total : Z;
}.

(** Field updates. *)
Definition set_tasks t rs := mkRunState (topo rs) t (indegree rs) (outcomes rs)
  (ready rs) (inReady rs) (seq rs) (terminalCount rs) (total rs).
Definition set_indegree d rs := mkRunState (topo rs) (tasks rs) d (outcomes rs)
  (ready rs) (inReady rs) (seq rs) (terminalCount rs) (total rs).
Definition set_outcomes o rs := mkRunState (topo rs) (tasks rs) (indegree rs) o
  (ready rs) (inReady rs) (seq rs) (terminalCount rs) (total rs).
Definition set_ready r i rs := mkRunState (topo rs) (tasks rs) (indegree rs) (outcomes rs)
  r i (seq rs) (terminalCount rs) (total rs).
Definition set_seq s rs := mkRunState (topo rs) (tasks rs) (indegree rs) (outcomes rs)
  (ready rs) (inReady rs) s (terminalCount rs) (total rs).
Definition set_terminalCount c rs := mkRunState (topo rs) (tasks rs) (indegree rs)
  (outcomes rs) (ready rs) (inReady rs) (seq rs) c (total rs).
Definition set_total c rs := mkRunState (topo rs) (tasks rs) (indegree rs)
  (outcomes rs) (ready rs) (inReady rs) (seq rs) (terminalCount rs) c.

(** Reads of the topology maps: a missing key is nil, the empty string or 0. *)
Definition adjacency_of (t : RunTopology) (id : uuid) : list uuid := map_get [] (Adjacency t) id.
Definition predecessors_of (t : RunTopology) (id : uuid) : list uuid :=
  map_get [] (Predecessors t) id.
Definition rule_of (t : RunTopology) (id : uuid) : string := map_get "" (TriggerRule t) id.
Definition order_of (t : RunTopology) (id : uuid) : Z := map_get 0 (Order t) id.
Definition indegree_of (rs : RunState) (id : uuid) : Z := map_get 0 (indegree rs) id.

(** * Ready queue *)

Definition order_less (t : RunTopology) (a b : uuid) : bool := order_of t a <? order_of t b.

Definition pushReady (id : uuid) (rs : RunState) : RunState :=
  if bool_decide (id ∈ inReady rs) then rs
  else match tasks rs !! id with
       | None => rs
       | Some ts =>
           if IsTerminal (Status ts) then rs
           else set_ready (sort_stable (order_less (topo rs)) (ready rs ++ [id]))
                          ({[id]} ∪ inReady rs) rs
       end.

Definition removeReady (id : uuid) (rs : RunState) : RunState :=
  if bool_decide (id ∈ inReady rs)
  then set_ready (remove_first id (ready rs)) (inReady rs ∖ {[id]}) rs
  else rs.

(** * Construction *)

Definition initTask (rs : RunState) (id : uuid) : RunState :=
  set_total (total rs + 1)
    (set_indegree (<[id := Z.of_nat (length (predecessors_of (topo rs) id))]> (indegree rs))
      (set_tasks (<[id := mkOwnerTaskState TaskStatusPending 1 "" 0]> (tasks rs)) rs)).

Definition seedReady (rs : RunState) (id : uuid) : RunState :=
  if indegree_of rs id =? 0 then pushReady id rs else rs.

(** [iter1] and [iter2] are the orders in which the two [range] loops visit the
    keys of [topo.Order] and of [rs.tasks]. *)
Definition NewRunState (iter1 iter2 : list uuid) (t : RunTopology) (startSeq : Z) : RunState :=
  let rs := mkRunState t ∅ ∅ ∅ [] ∅ startSeq 0 0 in
  fold_left seedReady iter2 (fold_left initTask iter1 rs).

(** * Terminal transitions *)

Definition settle (status : TaskStatus) (ts : OwnerTaskState) : OwnerTaskState :=
  mkOwnerTaskState status (Attempt ts) "" 0.

Definition markTerminal (id : uuid) (status : TaskStatus) (rs : RunState) : RunState * Z :=
  match tasks rs !! id with
  | None => (rs, 0)
  | Some ts =>
      if IsTerminal (Status ts) then (rs, 0)
      else
        let rs := set_seq (seq rs + 1) rs in
        let rs := set_tasks (<[id := settle status ts]> (tasks rs)) rs in
        let rs := set_outcomes (<[id := status]> (outcomes rs)) rs in
        let rs := removeReady id rs in
        let rs := set_terminalCount (terminalCount rs + 1) rs in
        (rs, seq rs)
  end.

(** [if rs.indegree[succ] > 0 { rs.indegree[succ]-- }] *)
Definition decIndegree (succ : uuid) (rs : RunState) : RunState :=
  if 0 <? indegree_of rs succ
  then set_indegree (<[succ := indegree_of rs succ - 1]> (indegree rs)) rs
  else rs.

Definition triggerSatisfied (succ : uuid) (rs : RunState) : bool :=
  SatisfiesTriggerRule (rule_of (topo rs) succ)
    (CollectPredecessorStatuses (predecessors_of (topo rs) succ) (outcomes rs)).

(** [fmt.Sprintf] with the rule quoted by [%q]; the rules are the plain names of
    pkg/jobdef, which quoting leaves as they are. *)
Definition ruleReason (rule : string) : string :=
  "trigger rule " +:+ quoted rule +:+ " not satisfied".

(** The loop variables of [advanceSuccessors]. *)
Record advance := mkAdvance {
  adv_rs : RunState;
  adv_queue : list uuid;
  adv_ready : list uuid;
  adv_skipped : list SkippedTask;
}.

(** One iteration of the inner [for _, succ := range] loop. *)
Definition visitSuccessor (a : advance) (succ : uuid) : advance :=
  match tasks (adv_rs a) !! succ with
  | None => a
  | Some st =>
      if IsTerminal (Status st) then a
      else
        let rs := decIndegree succ (adv_rs a) in
        if negb (indegree_of rs succ =? 0)
        then mkAdvance rs (adv_queue a) (adv_ready a) (adv_skipped a)
        else if triggerSatisfied succ rs
        then mkAdvance (pushReady succ rs) (adv_queue a) (adv_ready a ++ [succ]) (adv_skipped a)
        else
          let '(rs, sq) := markTerminal succ TaskStatusSkipped rs in
          mkAdvance rs (adv_queue a ++ [succ]) (adv_ready a)
            (adv_skipped a ++ [mkSkippedTask succ sq (ruleReason (rule_of (topo rs) succ))])
  end.

(** The outer [for len(queue) > 0] loop; [None] is only returned when the fuel
    runs out before the queue is empty. *)
Fixpoint advanceLoop (fuel : nat) (a : advance) : option advance :=
  match adv_queue a with
  | [] => Some a
  | current :: rest =>
      match fuel with
      | O => None
      | S fuel' =>
          advanceLoop fuel'
            (fold_left visitSuccessor (adjacency_of (topo (adv_rs a)) current)
               (mkAdvance (adv_rs a) rest (adv_ready a) (adv_skipped a)))
      end
  end.

(** Tasks still to finish: each is enqueued at most once. *)
Definition live_tasks (rs : RunState) : nat :=
  size (filter (λ kv : uuid * OwnerTaskState, IsTerminal (Status kv.2) = false) (tasks rs)).

Definition advanceSuccessors (seeds : list uuid) (rs : RunState) : option advance :=
  advanceLoop (length seeds + live_tasks rs) (mkAdvance rs seeds [] []).

(** * The owner's operations *)

Definition IsComplete (rs : RunState) : bool := total rs <=? terminalCount rs.

(** The [for _, b := range branchSkipped] loop: state, seeds, skips. *)
Definition skipBranch (acc : RunState * list uuid * list SkippedTask) (b : uuid)
    : RunState * list uuid * list SkippedTask :=
  let '(rs, seeds, skipped) := acc in
  match tasks rs !! b with
  | None => acc
  | Some st =>
      if IsTerminal (Status st) then acc
      else
        let '(rs, sq) := markTerminal b TaskStatusSkipped rs in
        (rs, seeds ++ [b], skipped ++ [mkSkippedTask b sq "branch not selected"])
  end.

Definition ApplyCompletion (taskID : uuid) (status : TaskStatus) (branchSkipped : list uuid)
    (rs : RunState) : option (RunState * CompletionResult) :=
  let noop := Some (rs, mkCompletionResult 0 [] [] (IsComplete rs)) in
  match tasks rs !! taskID with
  | None => noop
  | Some ts =>
      if IsTerminal (Status ts) then noop
      else
        let '(rs, sq) := markTerminal taskID status rs in
        let '(rs, seeds, bskips) := fold_left skipBranch branchSkipped (rs, [taskID], []) in
        match advanceSuccessors seeds rs with
        | None => None
        | Some a =>
            Some (adv_rs a,
                  mkCompletionResult sq (adv_ready a) (bskips ++ adv_skipped a)
                    (IsComplete (adv_rs a)))
        end
  end.

(** One iteration of the successor loop of [ApplyTerminalRow]. *)
Definition replaySuccessor (acc : RunState * list uuid) (succ : uuid) : RunState * list uuid :=
  let '(rs, rdy) := acc in
  match tasks rs !! succ with
  | None => acc
  | Some st =>
      if IsTerminal (Status st) then acc
      else
        let rs := decIndegree succ rs in
        if negb (indegree_of rs succ =? 0) then (rs, rdy)
        else if triggerSatisfied succ rs then (pushReady succ rs, rdy ++ [succ])
        else (rs, rdy)
  end.

Definition ApplyTerminalRow (taskID : uuid) (status : TaskStatus) (storedSeq : Z)
    (rs : RunState) : RunState * list uuid :=
  let rs := if seq rs <? storedSeq then set_seq storedSeq rs else rs in
  match tasks rs !! taskID with
  | None => (rs, [])
  | Some ts =>
      let wasTerminal := IsTerminal (Status ts) in
      let rs := set_tasks (<[taskID := settle status ts]> (tasks rs)) rs in
      let rs := set_outcomes (<[taskID := status]> (outcomes rs)) rs in
      let rs := removeReady taskID rs in
      if wasTerminal then (rs, [])
      else
        let rs := set_terminalCount (terminalCount rs + 1) rs in
        fold_left replaySuccessor (adjacency_of (topo rs) taskID) (rs, [])
  end.

(** [iter] is the order in which [range rs.tasks] visits the keys. *)
Definition RunningTasks (iter : list uuid) (rs : RunState) : list uuid :=
  let running id := match tasks rs !! id with
                    | Some ts => Status ts =s TaskStatusRunning
                    | None => false
                    end in
  sort_stable (order_less (topo rs)) (List.filter running iter).

Definition requeueTask (rs : RunState) (id : uuid) : RunState :=
  match tasks rs !! id with
  | None => rs
  | Some ts =>
      pushReady id
        (set_tasks (<[id := mkOwnerTaskState TaskStatusPending (Attempt ts + 1) "" 0]> (tasks rs)) rs)
  end.

Definition requeueRunning (iter : list uuid) (rs : RunState) : RunState * list uuid :=
  let out := RunningTasks iter rs in (fold_left requeueTask out rs, out).

Definition MarkDispatched (taskID : uuid) (claimedBy : string) (attempt : Z)
    (leaseExpiresAtMs : Z) (rs : RunState) : RunState :=
  match tasks rs !! taskID with
  | None => rs
  | Some ts =>
      if IsTerminal (Status ts) then rs
      else removeReady taskID
             (set_tasks (<[taskID := mkOwnerTaskState TaskStatusRunning attempt claimedBy
                                       leaseExpiresAtMs]> (tasks rs)) rs)
  end.

Definition ReadyTasks (rs : RunState) : list uuid := ready rs.

Definition TaskState (id : uuid) (rs : RunState) : option OwnerTaskState := tasks rs !! id.

Definition HasFailures (rs : RunState) : bool :=
  bool_decide (map_Exists (λ _ status, status = TaskStatusFailed) (outcomes rs)).

Definition Sequence (rs : RunState) : Z := seq rs.
