(* ===== verification/TaskOps.v ===== *)
(** Operations of the run store on single task rows (internal/run/store.go):
    claiming for dispatch, starting, releasing, rate limiting, failing, retrying,
    skipping, and the owner's terminal write. Each definition is the body of the
    operation's transaction; [withStoreBusyRetry] wraps it where the code does. *)

From S2P Require Import Prelude TriggerRule Tables Store RunState.

Definition notTerminal (r : TaskRun) : bool := negb (bool_decide (tr_Status r ∈ terminalStatusStrings)).

Definition StartTask (now : Z) (runID taskID : uuid) (runtimeID : string) : Tx () :=
  rows ← UpdateTaskRuns (λ r, is_task_run runID taskID r && notTerminal r)
           [with_Status TaskStatusRunning; with_RuntimeID runtimeID;
            with_StartedAt (Some now); with_RateLimitRetryAfter None];
  if (rows =? 0)%nat then mret () else recordTaskEventTx TypeTaskStarted runID taskID.

(** [rate_limit_retry_after IS NULL OR rate_limit_retry_after <= now] *)
Definition retry_due (now : Z) (r : TaskRun) : bool :=
  match tr_RateLimitRetryAfter r with None => true | Some t => t <=? now end.

Definition claimable (now : Z) (ownerGeneration : Z) (trustOwnerReadiness : bool) (r : TaskRun) : bool :=
  (tr_Status r =s TaskStatusPending) && (tr_ClaimedBy r =s "") &&
  (trustOwnerReadiness || (tr_OutstandingPredecessors r =? 0)) &&
  (tr_OwnerGeneration r <=? ownerGeneration) && retry_due now r.

Definition ClaimTaskForDispatch (now : Z) (runID taskID : uuid) (workerNode : string)
    (ownerGeneration leaseTTL : Z) (trustOwnerReadiness : bool) : Tx () :=
  rows ← UpdateTaskRuns
           (λ r, is_task_run runID taskID r && claimable now ownerGeneration trustOwnerReadiness r)
           [with_Status TaskStatusRunning; with_ClaimedBy workerNode;
            with_ClaimExpiresAt (Some (now + leaseTTL));
            λ r, with_ClaimAttempt (tr_ClaimAttempt r + 1) r;
            with_StartedAt (Some now); with_OwnerGeneration ownerGeneration;
            with_RateLimitRetryAfter None];
  if (rows =? 0)%nat then throw ErrTaskClaimMismatch
  else recordTaskEventTx TypeTaskStarted runID taskID.

Definition createdBefore (a b : TaskRun) : bool := tr_CreatedAt a <? tr_CreatedAt b.

Definition PendingTasksForDispatch (now : Z) (runID : uuid) (limit : Z) (db : DB) : list TaskRun :=
  let limit := if limit <=? 0 then 64 else limit in
  take (Z.to_nat limit)
    (sort_stable createdBefore
       (select (λ r, (tr_JobRunID r =? runID)%N && (tr_Status r =s TaskStatusPending) &&
                     (tr_ClaimedBy r =s "") && (tr_OutstandingPredecessors r =? 0) &&
                     retry_due now r) (task_runs db))).

Definition LoadDispatchedTaskRun (runID taskID : uuid) (claimedBy : string) (db : DB)
    : store_error + TaskRun :=
  match first (select (λ r, is_task_run runID taskID r && is_claimed claimedBy r &&
                            (tr_Status r =s TaskStatusRunning)) (task_runs db)) with
  | None => inl ErrTaskClaimMismatch
  | Some r => inr r
  end.

Definition ReleaseTaskClaim (runID taskID : uuid) (claimedBy : string) (ownerGeneration : Z) : Tx () :=
  _ ← UpdateTaskRuns
        (λ r, is_task_run runID taskID r && is_claimed claimedBy r &&
              (tr_Status r =s TaskStatusRunning) &&
              ((tr_OwnerGeneration r =? ownerGeneration) || (tr_OwnerGeneration r =? 0)))
        [with_Status TaskStatusPending; with_ClaimedBy ""; with_ClaimExpiresAt None;
         with_RuntimeID ""; with_StartedAt None];
  mret ().

(** [retryAfter = None] is the zero time. *)
Definition RateLimitTask (now : Z) (runID taskID : uuid) (retryAfter : option Z) : Tx () :=
  let retryAfter := default now retryAfter in
  _ ← UpdateTaskRuns
        (λ r, is_task_run runID taskID r &&
              ((tr_Status r =s TaskStatusPending) || (tr_Status r =s TaskStatusRunning)))
        [with_Status TaskStatusPending; with_ClaimedBy ""; with_ClaimExpiresAt None;
         with_RuntimeID ""; with_StartedAt None; with_RateLimitRetryAfter (Some retryAfter)];
  mret ().

Definition StartTaskClaimed (now : Z) (runID taskID : uuid) (runtimeID claimedBy : string) : Tx () :=
  rows ← UpdateTaskRuns
           (λ r, is_task_run runID taskID r && is_claimed claimedBy r &&
                 (tr_Status r =s TaskStatusRunning))
           [with_RuntimeID runtimeID; with_StartedAt (Some now); with_RateLimitRetryAfter None];
  if (rows =? 0)%nat then throw ErrTaskClaimMismatch
  else recordTaskEventTx TypeTaskStarted runID taskID.

Definition clear_cache : list (TaskRun → TaskRun) :=
  [with_CacheHit false; with_CacheOriginRunID None; with_CacheCreatedAt None; with_CacheExpiresAt None].

(** [enforceClaim] adds [AND claimed_by = claimedBy] to the row's key. *)
Definition claim_key (runID taskID : uuid) (claimedBy : string) (enforceClaim : bool) (r : TaskRun) : bool :=
  is_task_run runID taskID r && (negb enforceClaim || is_claimed claimedBy r).

(** The metrics query of the code only matters for the claim check. *)
Definition failTask (now : Z) (runID taskID : uuid) (errMsg claimedBy : string) (enforceClaim : bool) : Tx () :=
  seen ← Query (λ db, first (select (claim_key runID taskID claimedBy enforceClaim) (task_runs db)));
  if enforceClaim && negb (bool_decide (is_Some seen)) then throw ErrTaskClaimMismatch else
  rows ← UpdateTaskRuns (claim_key runID taskID claimedBy enforceClaim)
           ([with_Status TaskStatusFailed; with_CompletedAt (Some now); with_Error errMsg] ++ clear_cache);
  if enforceClaim && (rows =? 0)%nat then throw ErrTaskClaimMismatch
  else recordTaskEventTx TypeTaskFailed runID taskID.

Definition FailTask (now : Z) (runID taskID : uuid) (failure : string) : Tx () :=
  failTask now runID taskID failure "" false.

Definition FailTaskClaimed (now : Z) (runID taskID : uuid) (failure claimedBy : string) : Tx () :=
  failTask now runID taskID failure claimedBy true.

Definition retryTask (runID taskID : uuid) (attempt : Z) (claimedBy : string) (enforceClaim : bool) : Tx () :=
  rows ← UpdateTaskRuns (claim_key runID taskID claimedBy enforceClaim)
           ([with_Status TaskStatusPending; with_Attempt attempt; with_RuntimeID "";
             with_StartedAt None; with_CompletedAt None; with_Result ""; with_Output None;
             with_BranchSelections None; with_LogText ""; with_LogTruncated false; with_Error "";
             with_RateLimitRetryAfter None] ++ clear_cache);
  if enforceClaim && (rows =? 0)%nat then throw ErrTaskClaimMismatch else
  taskRun ← firstTaskRun runID taskID;
  jobRun ← firstRun runID;
  appendBatchEventsTx
    (mkExecutionEvent TypeTaskRetrying (jr_JobID jobRun) runID taskID false ::
     (if tr_OutstandingPredecessors taskRun =? 0
      then [mkExecutionEvent TypeTaskReady (jr_JobID jobRun) runID taskID false] else [])).

Definition RetryTask (runID taskID : uuid) (attempt : Z) : Tx () := retryTask runID taskID attempt "" false.

Definition RetryTaskClaimed (runID taskID : uuid) (attempt : Z) (claimedBy : string) : Tx () :=
  retryTask runID taskID attempt claimedBy true.

Definition pending_key (runID taskID : uuid) (r : TaskRun) : bool :=
  is_task_run runID taskID r && (tr_Status r =s TaskStatusPending).

Definition skip_columns (now : Z) (reason : string) : list (TaskRun → TaskRun) :=
  [with_Status TaskStatusSkipped; with_CompletedAt (Some now); with_Error reason] ++ clear_cache.

Definition SkipTask (now : Z) (runID taskID : uuid) (reason : string) : Tx () :=
  _ ← UpdateTaskRuns (pending_key runID taskID) (skip_columns now reason);
  recordTaskEventTx TypeTaskSkipped runID taskID.

Definition markTaskSkippedTx (now : Z) (runID taskID : uuid) (reason : string) : Tx bool :=
  rows ← UpdateTaskRuns (pending_key runID taskID) (skip_columns now reason);
  if (rows =? 0)%nat then mret false
  else _ ← recordTaskEventTx TypeTaskSkipped runID taskID; mret true.

Definition ResetInFlightTasks (runID : uuid) : Tx () :=
  _ ← UpdateTaskRuns (λ r, (tr_JobRunID r =? runID)%N && (tr_Status r =s TaskStatusRunning))
        ([with_Status TaskStatusPending; with_ClaimedBy ""; with_ClaimExpiresAt None;
          with_RuntimeID ""; with_StartedAt None; with_RateLimitRetryAfter None] ++ clear_cache);
  mret ().

(** * The owner's terminal write *)

(** Columns of the completed task's row. *)
Definition completion_columns (now : Z) (status : TaskStatus) (result errMsg : string)
    (output : gmap string string) (branchSelections : list string) (completedSeq ownerGen : Z)
    : list (TaskRun → TaskRun) :=
  [with_Status status; with_CompletedAt (Some now); with_Result result;
   with_TerminalSequence completedSeq; with_OwnerGeneration ownerGen;
   with_CacheHit (status =s TaskStatusCached)]
  ++ (if bool_decide (output = ∅) then [] else [with_Output (Some output)])
  ++ (match branchSelections with [] => [] | _ => [with_BranchSelections (Some branchSelections)] end)
  ++ (if status =s TaskStatusFailed
      then [with_Error (if negb (errMsg =s "") then errMsg else failureMessage result)] else []).

Definition persistSkip (now : Z) (runID : uuid) (ownerGen : Z) (sk : SkippedTask) : Tx () :=
  rows ← UpdateTaskRuns (λ r, is_task_run runID (sk_TaskID sk) r && notTerminal r)
           [with_Status TaskStatusSkipped; with_CompletedAt (Some now); with_Error (sk_Reason sk);
            with_TerminalSequence (sk_TerminalSequence sk); with_OwnerGeneration ownerGen];
  if (rows =? 0)%nat then mret () else recordTaskEventTx TypeTaskSkipped runID (sk_TaskID sk).

Definition CompleteTaskOwner (now : Z) (runID taskID : uuid) (status : TaskStatus)
    (result errMsg claimedBy : string) (output : gmap string string)
    (branchSelections : list string) (completedSeq ownerGen : Z) (skips : list SkippedTask) : Tx () :=
  seen ← Query (λ db, first (select (claim_key runID taskID claimedBy true) (task_runs db)));
  if negb (bool_decide (is_Some seen)) then throw ErrTaskClaimMismatch else
  rows ← UpdateTaskRuns (claim_key runID taskID claimedBy true)
           (completion_columns now status result errMsg output branchSelections completedSeq ownerGen);
  if (rows =? 0)%nat then throw ErrTaskClaimMismatch else
  _ ← recordTaskEventTx
        (if status =s TaskStatusFailed then TypeTaskFailed else TypeTaskSucceeded) runID taskID;
  forTx skips (persistSkip now runID ownerGen).
