(* ===== verification/Leases.v ===== *)
(** Run leases (internal/run/lease.go): acquisition, takeover of expired leases,
    renewal and ownership queries, and the theorems that fence a stale owner.

    The nil lease store (owner mode disabled) is not modelled: every operation is
    then a no-op. Identifiers in the table are parsed UUIDs. *)

From S2P Require Import Prelude TriggerRule Tables Store.

(** * Operations *)

Definition is_lease (runID : uuid) (l : RunLease) : bool := (rl_RunID l =? runID)%N.

(** INSERT OR IGNORE; on conflict the existing generation is reported. *)
Definition AcquireLease (now : Z) (runID : uuid) (ownerNode : string) (ttl : Z) : Tx Z := λ db,
  match first (select (is_lease runID) (run_leases db)) with
  | None =>
      inr (1, set_run_leases (run_leases db ++ [mkRunLease runID ownerNode now (now + ttl) 1]) db)
  | Some existing => inr (rl_Generation existing, db)
  end.

Definition expired (now : Z) (newOwner : string) (l : RunLease) : bool :=
  (rl_LeaseExpiresAt l <=? now) && negb (rl_OwnerNode l =s newOwner).

Definition take_over (now : Z) (newOwner : string) (ttl : Z) (l : RunLease) : RunLease :=
  mkRunLease (rl_RunID l) newOwner now (now + ttl) (rl_Generation l + 1).

Definition UpdateLeases (p : RunLease → bool) (f : RunLease → RunLease) : Tx nat :=
  Exec (λ db, let '(t, n) := update_where p f (run_leases db) in (set_run_leases t db, n)).

Definition AcquireExpiredLeases (now : Z) (newOwner : string) (ttl : Z) : Tx nat :=
  UpdateLeases (expired now newOwner) (take_over now newOwner ttl).

Definition extend (newExpiresAt : Z) (l : RunLease) : RunLease :=
  mkRunLease (rl_RunID l) (rl_OwnerNode l) (rl_AcquiredAt l) newExpiresAt (rl_Generation l).

Definition RenewRunLeases (ownerNode : string) (runIDs : list uuid) (newExpiresAt : Z) : Tx nat :=
  match runIDs with
  | [] => mret 0%nat
  | _ => UpdateLeases (λ l, (rl_OwnerNode l =s ownerNode) && bool_decide (rl_RunID l ∈ runIDs))
           (extend newExpiresAt)
  end.

(** A valid lease of the node: [owner_node = ? AND lease_expires_at > now]. *)
Definition held (now : Z) (ownerNode : string) (l : RunLease) : bool :=
  (rl_OwnerNode l =s ownerNode) && (now <? rl_LeaseExpiresAt l).

Definition RenewOwnedLeases (now : Z) (ownerNode : string) (newExpiresAt : Z) : Tx nat :=
  UpdateLeases (held now ownerNode) (extend newExpiresAt).

Definition OwnedRuns (now : Z) (ownerNode : string) (db : DB) : list uuid :=
  map rl_RunID (select (held now ownerNode) (run_leases db)).

Definition OwnedRunsWithGenerations (now : Z) (ownerNode : string) (db : DB) : gmap uuid Z :=
  fold_left (λ m l, <[rl_RunID l := rl_Generation l]> m) (select (held now ownerNode) (run_leases db)) ∅.

Definition IsOwner (now : Z) (ownerNode : string) (runID : uuid) (db : DB) : bool :=
  (0 <? countb (λ l, is_lease runID l && held now ownerNode l) (run_leases db))%nat.

Definition GetLease (runID : uuid) (db : DB) : store_error + RunLease :=
  match first (select (is_lease runID) (run_leases db)) with
  | None => inl ErrRecordNotFound
  | Some l => inr l
  end.

(** * Sequences of operations *)

Inductive lease_op : Type :=
| LAcquire (now : Z) (run : uuid) (node : string) (ttl : Z)
| LTakeOver (now : Z) (node : string) (ttl : Z)
| LRenewRuns (node : string) (runs : list uuid) (expires : Z)
| LRenewOwned (now : Z) (node : string) (expires : Z).

Definition apply_lease_op (db : DB) (op : lease_op) : DB :=
  (match op with
   | LAcquire now run node ttl => Transaction None (_ ← AcquireLease now run node ttl; mret ()) db
   | LTakeOver now node ttl => Transaction None (_ ← AcquireExpiredLeases now node ttl; mret ()) db
   | LRenewRuns node runs e => Transaction None (_ ← RenewRunLeases node runs e; mret ()) db
   | LRenewOwned now node e => Transaction None (_ ← RenewOwnedLeases now node e; mret ()) db
   end).2.

(** [run_id] is the primary key. *)
Definition lease_unique (db : DB) : Prop := NoDup (map rl_RunID (run_leases db)).

(** Same row, or a takeover: a larger generation whenever the owner differs. *)
Definition succeeds (l l' : RunLease) : Prop :=
  rl_RunID l' = rl_RunID l ∧ rl_Generation l ≤ rl_Generation l' ∧
  (rl_OwnerNode l' ≠ rl_OwnerNode l → rl_Generation l < rl_Generation l').

Definition lease_step (db db' : DB) : Prop :=
  (∀ (i : nat) l, run_leases db !! i = Some l → ∃ l', run_leases db' !! i = Some l' ∧ succeeds l l') ∧
  (lease_unique db → lease_unique db').

#[export] Instance succeeds_preorder : PreOrder succeeds.
Proof.
  split; [by intros l; split; [done|]; split; [lia|]|].
  intros a b c (H1 & H2 & H3) (H4 & H5 & H6). split; [congruence|]. split; [lia|].
  intros Hne. destruct (decide (rl_OwnerNode b = rl_OwnerNode a)) as [E|E].
  - assert (rl_OwnerNode c ≠ rl_OwnerNode b) as Hcb by congruence. specialize (H6 Hcb). lia.
  - specialize (H3 E). lia.
Qed.

#[export] Instance lease_step_preorder : PreOrder lease_step.
Proof.
  split; [split; [|done]; intros i l Hl; by exists l|].
  intros a b c [H1 U1] [H2 U2]. split; [|auto]. intros i l Hl.
  destruct (H1 i l Hl) as (l1 & Hl1 & S1). destruct (H2 i l1 Hl1) as (l2 & Hl2 & S2).
  exists l2. split; [done|]. by transitivity l1.
Qed.

Lemma update_lease_step (p : RunLease → bool) (f : RunLease → RunLease) db :
  (∀ l, p l = true → succeeds l (f l)) →
  lease_step db (set_run_leases (update_where p f (run_leases db)).1 db).
Proof.
  intros H. split.
  - intros i l Hl. simpl. rewrite list_lookup_fmap, Hl. simpl. eexists. split; [done|].
    destruct (p l) eqn:E; [by apply H|reflexivity].
  - unfold lease_unique. simpl. rewrite map_map. intros Hn.
    rewrite (map_ext _ rl_RunID); [done|]. intros l. destruct (p l) eqn:E; [|done]. by apply H in E as [? _].
Qed.

Lemma extend_succeeds e l : succeeds l (extend e l).
Proof. split; [done|]. simpl. split; [lia|done]. Qed.

Lemma lease_op_step db op : lease_step db (apply_lease_op db op).
Proof.
  destruct op as [now run node ttl|now node ttl|node runs e|now node e];
    unfold apply_lease_op, Transaction, mbind, Tx_bind.
  - unfold AcquireLease. destruct (first (select (is_lease run) (run_leases db))) as [l|] eqn:Ef; [reflexivity|]. simpl. split.
    + intros i l Hl. simpl. exists l. split; [by apply lookup_app_l_Some|reflexivity].
    + unfold lease_unique. simpl. rewrite map_app. intros Hn. apply NoDup_app. split; [done|].
      split; [|apply NoDup_singleton]. intros x Hx. simpl. rewrite list_elem_of_singleton. intros ->.
      apply list_elem_of_In, in_map_iff in Hx as (l & El & Hl). apply list_elem_of_In in Hl.
      assert (l ∈ select (is_lease run) (run_leases db)) as Hs.
      { apply select_elem. split; [done|]. unfold is_lease. rewrite El. apply N.eqb_refl. }
      unfold first in Ef. destruct (select _ _); [set_solver|done].
  - apply update_lease_step. intros l _. split; [done|]. simpl. lia.
  - destruct runs as [|r runs]; [reflexivity|]. apply update_lease_step. intros l _. apply extend_succeeds.
  - apply update_lease_step. intros l _. apply extend_succeeds.
Qed.

Lemma lease_ops_step db ops : lease_step db (fold_left apply_lease_op ops db).
Proof.
  revert db. induction ops as [|op ops IH]; intros db; [reflexivity|].
  transitivity (apply_lease_op db op); [apply lease_op_step|apply IH].
Qed.

(** * Theorems *)

(** C11: a generation names one owner: along any interleaving of acquisitions,
    takeovers and renewals by any nodes, the lease of a run never loses
    generations, and two owners of the run always hold different generations, so
    that a message stamped with a generation identifies the owner that sent it. *)
Theorem generation_names_owner ops db (i : nat) l :
  run_leases db !! i = Some l →
  ∃ l', run_leases (fold_left apply_lease_op ops db) !! i = Some l' ∧ rl_RunID l' = rl_RunID l ∧
    rl_Generation l ≤ rl_Generation l' ∧
    (rl_Generation l' = rl_Generation l → rl_OwnerNode l' = rl_OwnerNode l).
Proof.
  intros Hl. destruct (lease_ops_step db ops) as [H _]. destruct (H i l Hl) as (l' & Hl' & S1 & S2 & S3).
  exists l'. split; [done|]. split; [done|]. split; [done|]. intros E.
  destruct (decide (rl_OwnerNode l' = rl_OwnerNode l)); [done|]. specialize (S3 n). lia.
Qed.

Definition lease_db : DB := mkDB [] [] [] [] [] [mkRunLease 100 "a" 0 10 1] [] [] [].

Lemma generation_names_owner_witness :
  ∃ l', run_leases (fold_left apply_lease_op [LTakeOver 12 "b" 10; LRenewOwned 13 "b" 30] lease_db) !! 0%nat
          = Some l' ∧ rl_OwnerNode l' = "b" ∧ rl_Generation l' = 2 ∧ 1 ≤ rl_Generation l'.
Proof.
  destruct (generation_names_owner [LTakeOver 12 "b" 10; LRenewOwned 13 "b" 30] lease_db 0 (mkRunLease 100 "a" 0 10 1))
    as (l' & Hl' & _ & Hg & _); [reflexivity|].
  exists l'. split; [done|]. vm_compute in Hl'. injection Hl' as <-. done.
Defined.

(** At most one node owns a run at any time, in every state the leases can
    reach. *)
Lemma single_owner ops db now a b run :
  lease_unique db → IsOwner now a run (fold_left apply_lease_op ops db) = true →
  IsOwner now b run (fold_left apply_lease_op ops db) = true → a = b.
Proof.
  intros Hu. destruct (lease_ops_step db ops) as [_ H]. specialize (H Hu). clear Hu.
  generalize dependent (fold_left apply_lease_op ops db). intros db' H.
  unfold IsOwner. rewrite !Nat.ltb_lt, !countb_pos. intros (l1 & Hi1 & H1) (l2 & Hi2 & H2).
  unfold is_lease, held in *. bool_prop.
  assert (l1 = l2) as -> by (eapply NoDup_map_eq; [exact H|done|done|congruence]). congruence.
Qed.

Lemma single_owner_witness :
  IsOwner 5 "a" 100 lease_db = true ∧ "a" = "a".
Proof.
  split; [reflexivity|].
  apply (single_owner [] lease_db 5 "a" "a" 100); [|reflexivity|reflexivity].
  unfold lease_unique. decide_vm.
Defined.

(** Two sweeps cannot both take a lease: after one node has taken over the
    expired leases with a positive time to live, a concurrent sweep by any other
    node at the same moment changes nothing, and every lease is then held. *)
Lemma takeover_exclusive now a b ttl ttl' db n db1 :
  0 < ttl → AcquireExpiredLeases now a ttl db = inr (n, db1) →
  (∀ l, l ∈ run_leases db1 → rl_OwnerNode l ≠ a → now < rl_LeaseExpiresAt l) ∧
  ((∀ l, l ∈ run_leases db1 → rl_OwnerNode l = a → now < rl_LeaseExpiresAt l) →
   AcquireExpiredLeases now b ttl' db1 = inr (0%nat, db1)).
Proof.
  intros Httl E. unfold AcquireExpiredLeases, UpdateLeases, Exec, update_where in *. inversion E; subst. clear E. simpl.
  assert (∀ l, l ∈ map (λ r, if expired now a r then take_over now a ttl r else r) (run_leases db) →
    rl_OwnerNode l ≠ a → now < rl_LeaseExpiresAt l) as H.
  { intros l (r & Hr & Hin)%list_elem_of_In%in_map_iff Hne. destruct (expired now a r) eqn:Ex; subst.
    - simpl. lia.
    - unfold expired in Ex. apply andb_false_iff in Ex as [Ex|Ex]; bool_prop; [lia|done]. }
  split; [exact H|]. intros Ha.
  assert (countb (expired now b) (map (λ r, if expired now a r then take_over now a ttl r else r) (run_leases db)) = 0%nat) as H0.
  { apply countb_0. intros l Hl. unfold expired. apply andb_false_iff. left. apply Z.leb_gt.
    destruct (decide (rl_OwnerNode l = a)); [by apply Ha|by apply H]. }
  set (t := map _ (run_leases db)) in *. rewrite H0. rewrite countb_0 in H0.
  assert (map (λ r, if expired now b r then take_over now b ttl' r else r) t = t) as ->; [|done].
  transitivity (map id t); [|apply map_id]. apply map_ext_in. intros r Hr%list_elem_of_In. by rewrite H0.
Qed.

Lemma takeover_exclusive_witness : ∃ n db1,
  AcquireExpiredLeases 12 "b" 10 lease_db = inr (n, db1) ∧ n = 1%nat ∧
  AcquireExpiredLeases 12 "c" 10 db1 = inr (0%nat, db1).
Proof.
  eexists _, _. split; [vm_compute; reflexivity|]. split; [reflexivity|].
  refine (proj2 (takeover_exclusive 12 "b" "c" 10 10 lease_db _ _ _ _) _); [lia|vm_compute; reflexivity|].
  intros l. simpl. rewrite list_elem_of_singleton. intros -> _. simpl. lia.
Defined.
