(* ===== verification/RunOps.v ===== *)
(** Operations of the run store on whole runs (internal/run/store.go,
    internal/run/priority.go): admission under a job's concurrency policy, start,
    completion, cancellation, retry, and the queue of admitted-later runs with its
    dequeuer (internal/runqueue/dequeuer.go).

    Fresh identifiers ([uuid.New]) and the time are arguments; metrics and the
    publication of events are not modelled. *)

From S2P Require Import Prelude TriggerRule Tables Store TaskOps Leases.

(** * Statuses and priorities *)

Definition StatusRunning : string := "running".
Definition StatusSucceeded : string := "succeeded".
Definition StatusFailed : string := "failed".
Definition StatusCancelled : string := "cancelled".

Definition PriorityLowValue : Z := 1.
Definition PriorityNormalValue : Z := 2.
Definition PriorityHighValue : Z := 3.

Definition PriorityValue (priority : string) : store_error + Z :=
  let p := ToLower (TrimSpace priority) in
  if (p =s "") || (p =s "normal") then inr PriorityNormalValue
  else if p =s "low" then inr PriorityLowValue
  else if p =s "high" then inr PriorityHighValue
  else inl ErrInvalidPriority.

Definition PriorityLabel (priority : Z) : string :=
  if priority =? PriorityLowValue then "low"
  else if priority =? PriorityHighValue then "high" else "normal".

Definition liftE {A} (r : store_error + A) : Tx A :=
  match r with inl e => throw e | inr a => mret a end.

Definition startPriorityTx (jobID : uuid) (override : string) : Tx Z :=
  if negb (TrimSpace override =s "") then liftE (PriorityValue override)
  else
    job ← Query (λ db, first (select (λ j, (j_ID j =? jobID)%N) (jobs db)));
    match job with
    | None => mret PriorityNormalValue
    | Some j => liftE (PriorityValue (j_Priority j))
    end.

(** * Concurrency policy *)

Record concurrencyConfig := mkConcurrencyConfig { cc_maxRuns : Z; cc_strategy : string }.

(** [json.Unmarshal] into [*Concurrency]; [Some None] is a null document. *)
Definition concurrencyFromJSON (raw : blob) : option (option concurrencyConfig) :=
  match raw with
  | BlobEmpty | BlobJson JNull => Some None
  | BlobJson (JObj l) =>
      m ← decodeZ (field "maxRuns" l);
      s ← decodeStr (field "strategy" l);
      Some (Some (mkConcurrencyConfig m s))
  | _ => None
  end.

Definition concurrencyConfigTx (jobID : uuid) : Tx (option concurrencyConfig) :=
  job ← Query (λ db, first (select (λ j, (j_ID j =? jobID)%N) (jobs db)));
  match job with
  | None => mret None
  | Some j =>
      match concurrencyFromJSON (j_Concurrency j) with
      | None => throw (ErrMessage "run: decode job concurrency metadata")
      | Some None => mret None
      | Some (Some cfg) =>
          if cc_maxRuns cfg <=? 0 then mret None
          else
            let strategy := ToLower (TrimSpace (cc_strategy cfg)) in
            mret (Some (mkConcurrencyConfig (cc_maxRuns cfg)
                          (if strategy =s "" then "queue" else strategy)))
      end
  end.

(** Runs that occupy a slot. *)
Definition active_run (jobID : uuid) (r : JobRun) : bool :=
  (jr_JobID r =? jobID)%N && (jr_Status r =s StatusRunning) && negb (jr_Quarantine r) &&
  negb (bool_decide (is_Some (jr_BackfillID r))).

Definition CountActive (jobID : uuid) (db : DB) : nat := countb (active_run jobID) (job_runs db).

Definition insert_run (model : JobRun) : Tx () := λ db,
  inr ((), set_job_runs (job_runs db ++ [model]) db).

(** One conditional INSERT: it takes effect when a slot is free. *)
Definition insertRunIfSlotTx (model : JobRun) (maxRuns : Z) : Tx bool :=
  if maxRuns <=? 0 then _ ← insert_run model; mret true
  else
    active ← Query (CountActive (jr_JobID model));
    if Z.of_nat active <? maxRuns then _ ← insert_run model; mret true else mret false.

(** * Cancellation *)

Definition deleteRunLeaseTx (runID : uuid) : Tx () := λ db,
  if (runID =? uuid_Nil)%N then inr ((), db)
  else inr ((), set_run_leases (delete_where (λ l, (rl_RunID l =? runID)%N) (run_leases db)).1 db).

Definition finish_run (status : string) (now : Z) (err : string) (r : JobRun) : JobRun :=
  mkJobRun (jr_ID r) (jr_JobID r) (jr_BackfillID r) (jr_TriggerID r) status (jr_Priority r) (jr_Params r)
    err (jr_Quarantine r) (jr_StartedAt r) (Some now).

Definition run_event (eventType : string) (runID : uuid) : Tx () :=
  jr ← firstRun runID;
  AppendTx (mkExecutionEvent eventType (jr_JobID jr) runID uuid_Nil (jr_Quarantine jr)).

(** Reports whether a run was cancelled. *)
Definition cancelRunTx (now : Z) (runID : uuid) (reason : string) : Tx bool :=
  let reason := if TrimSpace reason =s "" then "cancelled" else reason in
  rows ← UpdateJobRuns (λ r, is_run runID r && (jr_Status r =s StatusRunning))
           (finish_run StatusCancelled now reason);
  if (rows =? 0)%nat then mret false else
  _ ← UpdateTaskRuns (λ r, (tr_JobRunID r =? runID)%N && notTerminal r)
        [with_Status TaskStatusCancelled; with_CompletedAt (Some now); with_Error reason;
         with_ClaimedBy ""; with_ClaimExpiresAt None; with_RuntimeID ""; with_RateLimitRetryAfter None];
  _ ← deleteRunLeaseTx runID;
  _ ← run_event TypeRunCancelled runID;
  _ ← run_event TypeRunTerminal runID;
  mret true.

Definition replacement : string := "cancelled by concurrency replacement".

Definition CancelRun (now : Z) (runID : uuid) : Tx () :=
  _ ← cancelRunTx now runID replacement; mret ().

Definition started_before (a b : JobRun) : bool := jr_StartedAt a <? jr_StartedAt b.

Definition cancelOldestActiveRunTx (now : Z) (jobID : uuid) : Tx bool :=
  oldest ← Query (λ db, first (sort_stable started_before (select (active_run jobID) (job_runs db))));
  match oldest with
  | None => mret false
  | Some model => cancelRunTx now (jr_ID model) replacement
  end.

(** * The queue of runs *)

Definition queued_of (jobID : uuid) (q : RunQueue) : bool := (rq_JobID q =? jobID)%N && (rq_ClaimedBy q =s "").
Definition queue_age (a b : RunQueue) : bool := rq_CreatedAt a <? rq_CreatedAt b.

Definition enqueueRunTx (newID : uuid) (now : Z) (jobID : uuid) (params : blob) (priority maxDepth : Z) : Tx () :=
  let priority := if priority <=? 0 then PriorityNormalValue else priority in
  let maxDepth := if maxDepth <=? 0 then 100 else maxDepth in
  λ db,
    let q := run_queue db ++ [mkRunQueue newID jobID params priority "" None now] in
    let overflow := Z.of_nat (countb (queued_of jobID) q) - maxDepth in
    if 0 <? overflow then
      let victims := map rq_ID (take (Z.to_nat overflow) (sort_stable queue_age (select (queued_of jobID) q))) in
      inr ((), set_run_queue (delete_where (λ r, bool_decide (rq_ID r ∈ victims)) q).1 db)
    else inr ((), set_run_queue q db).

(** [ORDER BY priority DESC, created_at ASC] *)
Definition queue_order (a b : RunQueue) : bool :=
  (rq_Priority b <? rq_Priority a) || ((rq_Priority a =? rq_Priority b) && (rq_CreatedAt a <? rq_CreatedAt b)).

Definition claim_queued (claimedBy : string) (claimedAt : option Z) (q : RunQueue) : RunQueue :=
  mkRunQueue (rq_ID q) (rq_JobID q) (rq_Params q) (rq_Priority q) claimedBy claimedAt (rq_CreatedAt q).

(** [fresh] stands for [uuid.NewString()], used when no name is given. *)
Definition DequeueNextRun (fresh : string) (now : Z) (jobID : uuid) (claimedBy : string) : Tx (option RunQueue) :=
  let claimedBy := if TrimSpace claimedBy =s "" then fresh else TrimSpace claimedBy in
  λ db,
    match first (sort_stable queue_order (select (queued_of jobID) (run_queue db))) with
    | None => inr (None, db)
    | Some next =>
        let '(q, rows) := update_where (λ r, (rq_ID r =? rq_ID next)%N && (rq_ClaimedBy r =s ""))
                            (claim_queued claimedBy (Some now)) (run_queue db) in
        if (rows =? 0)%nat then inr (None, set_run_queue q db)
        else match first (select (λ r, (rq_JobID r =? jobID)%N && (rq_ClaimedBy r =s claimedBy)) q) with
             | None => inl ErrRecordNotFound
             | Some queued => inr (Some queued, set_run_queue q db)
             end
    end.

Definition ReleaseQueuedRun (queueID : uuid) (claimedBy : string) : Tx () := λ db,
  inr ((), set_run_queue (update_where (λ r, (rq_ID r =? queueID)%N && (rq_ClaimedBy r =s claimedBy))
                            (claim_queued "" None) (run_queue db)).1 db).

Definition CancelQueuedRun (jobID queueID : uuid) : Tx () := λ db,
  let '(q, rows) := delete_where (λ r, (rq_ID r =? queueID)%N && (rq_JobID r =? jobID)%N && (rq_ClaimedBy r =s ""))
                      (run_queue db) in
  if (rows =? 0)%nat then
    if (countb (λ r, (rq_ID r =? queueID)%N && (rq_JobID r =? jobID)%N) (run_queue db) =? 0)%nat
    then inl ErrQueuedRunNotFound else inl ErrQueuedRunUnavailable
  else inr ((), set_run_queue q db).

Definition DeleteQueuedRun (queued : RunQueue) : Tx () := λ db,
  inr ((), set_run_queue (delete_where (λ r, (rq_ID r =? rq_ID queued)%N) (run_queue db)).1 db).

(** * Admission and start *)

Inductive admissionDecision : Type :=
| admissionNoPolicy | admissionCreated | admissionSkipped | admissionFailed | admissionQueued.

Record startRunRequest := mkStartRunRequest {
  sr_jobID : uuid;
  sr_triggerID : option uuid;
  sr_backfillID : option uuid;
  sr_params : blob;
  sr_priorityOverride : string;
  sr_fromQueue : bool;
  sr_policyOnly : bool;
}.

(** Settings of the process: the depth limit of the run queue and, in owner mode,
    the node address and time to live of the leases the store writes. *)
Record RunEnv := mkRunEnv {
  re_queueMaxDepth : Z;
  re_leaseStore : option (string * Z);
}.

Definition newStartRunModel (newID : uuid) (now : Z) (req : startRunRequest) (priority : Z) : JobRun :=
  mkJobRun newID (sr_jobID req) (sr_backfillID req) (default uuid_Nil (sr_triggerID req)) StatusRunning
    priority (sr_params req) "" false now None.

Definition admitTx (queueID : uuid) (now maxDepth : Z) (model : JobRun) (req : startRunRequest) : Tx admissionDecision :=
  cfg ← concurrencyConfigTx (jr_JobID model);
  match cfg with
  | None => mret admissionNoPolicy
  | Some cfg =>
      if bool_decide (is_Some (jr_BackfillID model)) then mret admissionNoPolicy else
      inserted ← insertRunIfSlotTx model (cc_maxRuns cfg);
      if (inserted : bool) then mret admissionCreated
      else if cc_strategy cfg =s "skip" then mret admissionSkipped
      else if cc_strategy cfg =s "fail" then mret admissionFailed
      else if cc_strategy cfg =s "queue" then
        if sr_fromQueue req then mret admissionFailed
        else _ ← enqueueRunTx queueID now (jr_JobID model) (jr_Params model) (jr_Priority model) maxDepth;
             mret admissionQueued
      else if cc_strategy cfg =s "replace" then
        _ ← cancelOldestActiveRunTx now (jr_JobID model);
        inserted ← insertRunIfSlotTx model (cc_maxRuns cfg);
        mret (if (inserted : bool) then admissionCreated else admissionFailed)
      else throw (ErrMessage "run: unsupported concurrency strategy")
  end.

(** The transaction of [startRun]. *)
Definition startRunTx (newID queueID : uuid) (now maxDepth : Z) (req : startRunRequest) : Tx admissionDecision :=
  priority ← startPriorityTx (sr_jobID req) (sr_priorityOverride req);
  let model := newStartRunModel newID now req priority in
  decision ← admitTx queueID now maxDepth model req;
  match decision with
  | admissionNoPolicy =>
      if sr_policyOnly req then mret admissionNoPolicy
      else
        _ ← insert_run model;
        _ ← AppendTx (mkExecutionEvent TypeRunStarted (jr_JobID model) newID uuid_Nil (jr_Quarantine model));
        mret admissionCreated
  | admissionCreated =>
      _ ← AppendTx (mkExecutionEvent TypeRunStarted (jr_JobID model) newID uuid_Nil (jr_Quarantine model));
      mret admissionCreated
  | d => mret d
  end.

(** The lease of a new run, in owner mode; it is written outside the transaction
    and its failure is only logged. *)
Definition leaseRun (env : RunEnv) (now : Z) (runID : uuid) (db : DB) : DB :=
  match re_leaseStore env with
  | None => db
  | Some (nodeAddress, ttl) =>
      match AcquireLease now runID nodeAddress ttl db with
      | inl _ => db
      | inr (_, db') => db'
      end
  end.

(** [startRun]: the identifier of the new run, none when only the policy was asked
    for. *)
Definition startRun (faults : nat → option store_error) (newID queueID : uuid) (now : Z) (env : RunEnv)
    (req : startRunRequest) (db : DB) : (store_error + option uuid) * DB :=
  match withStoreBusyRetry faults (startRunTx newID queueID now (re_queueMaxDepth env) req) db with
  | (inl e, db') => (inl e, db')
  | (inr admissionNoPolicy, db') => (inr None, db')
  | (inr admissionSkipped, db') => (inl ErrRunSkipped, db')
  | (inr admissionFailed, db') => (inl ErrMaxConcurrentRunsReached, db')
  | (inr admissionQueued, db') => (inl ErrRunQueued, db')
  | (inr admissionCreated, db') => (inr (Some newID), leaseRun env now newID db')
  end.

(** [decodeRunParams]: anything but an object of strings decodes to no parameters. *)
Definition decodeRunParams (raw : blob) : blob :=
  match raw with
  | BlobJson (JObj l) =>
      if forallb (λ p, match decodeStr p.2 with Some _ => true | None => false end) l then raw else BlobEmpty
  | _ => BlobEmpty
  end.

Definition queuedRequest (queued : RunQueue) : startRunRequest :=
  mkStartRunRequest (rq_JobID queued) None None (decodeRunParams (rq_Params queued))
    (PriorityLabel (rq_Priority queued)) true false.

Definition StartQueuedRun faults newID queueID now env (queued : RunQueue) db :=
  startRun faults newID queueID now env (queuedRequest queued) db.

(** * Completion and retry *)

Definition terminalRunStatuses : list string := [StatusSucceeded; StatusFailed; StatusCancelled].

Definition completeRunTx (now : Z) (runID : uuid) (result : option string) : Tx () :=
  let status := match result with None => StatusSucceeded | Some _ => StatusFailed end in
  rows ← UpdateJobRuns (λ r, is_run runID r && negb (bool_decide (jr_Status r ∈ terminalRunStatuses)))
           (finish_run status now (default "" result));
  if (rows =? 0)%nat then throw errRunAlreadyTerminal else
  _ ← run_event (if status =s StatusFailed then TypeRunFailed else TypeRunCompleted) runID;
  run_event TypeRunTerminal runID.

(** [Store.Complete]: an already terminal run is a successful no-op. *)
Definition Complete (faults : nat → option store_error) (now : Z) (runID : uuid) (result : option string)
    (db : DB) : (store_error + ()) * DB :=
  match withStoreBusyRetry faults (completeRunTx now runID result) db with
  | (inl errRunAlreadyTerminal, db') => (inr (), db')
  | r => r
  end.

Definition reopen_run (r : JobRun) : JobRun :=
  mkJobRun (jr_ID r) (jr_JobID r) (jr_BackfillID r) (jr_TriggerID r) StatusRunning (jr_Priority r) (jr_Params r)
    "" (jr_Quarantine r) (jr_StartedAt r) None.

Definition readmitRetryTx (jobRun : JobRun) (admitted : bool) : Tx () :=
  let unconditional := _ ← UpdateJobRuns (is_run (jr_ID jobRun)) reopen_run; mret () in
  if negb admitted || jr_Quarantine jobRun then unconditional else
  cfg ← concurrencyConfigTx (jr_JobID jobRun);
  match cfg with
  | None => unconditional
  | Some cfg =>
      active ← Query (λ db, countb (λ r, active_run (jr_JobID jobRun) r && negb (is_run (jr_ID jobRun) r)) (job_runs db));
      rows ← UpdateJobRuns (λ r, is_run (jr_ID jobRun) r &&
                                 ((jr_Status r =s StatusFailed) || (jr_Status r =s StatusSucceeded)) &&
                                 (Z.of_nat active <? cc_maxRuns cfg)) reopen_run;
      if negb (rows =? 1)%nat then throw ErrMaxConcurrentRunsReached else mret ()
  end.

Definition needs_reset (r : TaskRun) : bool :=
  (tr_Status r =s TaskStatusFailed) || (tr_Status r =s TaskStatusSkipped).

Definition reset_columns : list (TaskRun → TaskRun) :=
  [with_Status TaskStatusPending; with_CompletedAt None; with_Result ""; with_Error ""; with_StartedAt None;
   with_ClaimedBy ""; with_ClaimExpiresAt None; with_RuntimeID ""; with_Attempt 1] ++ clear_cache.

(** Predecessors of a reset task that did not end in success before the retry. *)
Definition retryOutstanding (done : list uuid) (taskID : uuid) (db : DB) : Z :=
  Z.of_nat (countb (λ e, negb (bool_decide (e_FromTaskID e ∈ done)))
              (select (λ e, (e_ToTaskID e =? taskID)%N) (task_edges db))).

Definition recountTask (runID : uuid) (done : list uuid) (taskID : uuid) : Tx () :=
  outstanding ← Query (retryOutstanding done taskID);
  _ ← UpdateTaskRuns (is_task_run runID taskID) [with_OutstandingPredecessors outstanding];
  if outstanding =? 0 then appendTaskReadyEventTx runID taskID else mret ().

Definition retryFromFailure (runID : uuid) (admitted : bool) : Tx () :=
  jobRun ← firstRun runID;
  if negb (jr_Status jobRun =s StatusFailed) && negb (jr_Status jobRun =s StatusSucceeded)
  then throw (ErrMessage "can only retry runs in terminal state") else
  _ ← (if admitted then
         job ← First (λ db, select (λ j, (j_ID j =? jr_JobID jobRun)%N) (jobs db));
         (if j_Paused job then throw ErrJobPaused else mret ())
       else mret ());
  _ ← readmitRetryTx jobRun admitted;
  taskRuns ← Query (λ db, select (λ r, (tr_JobRunID r =? runID)%N) (task_runs db));
  let done := map tr_TaskID (List.filter (λ r, IsTerminalSuccess (tr_Status r)) taskRuns) in
  let reset := List.filter needs_reset taskRuns in
  _ ← forTx reset (λ tr, _ ← UpdateTaskRuns (λ r, (tr_ID r =? tr_ID tr)%N) reset_columns; mret ());
  _ ← forTx (map tr_TaskID reset) (recountTask runID done);
  run_event TypeRunRetried runID.

Definition RetryFromFailure (runID : uuid) : Tx () := retryFromFailure runID false.
Definition RetryFromFailureAdmitted (runID : uuid) : Tx () := retryFromFailure runID true.
