(* ===== verification/Dequeuer.v ===== *)
(** The run-queue dequeuer (internal/runqueue/dequeuer.go): stale claims are
    returned to the queue, then each job's queue is drained into its free slots.

    [fresh n] gives the identifiers of the n-th iteration: the claim token, the
    run and the (unused) queue identifier; [faults n] the errors the database raises
    in it. The execution of a launched run is
    outside the model. *)

From S2P Require Import Prelude TriggerRule Tables Store TaskOps RunOps.

(** [loadConcurrencyConfig]: only the queue strategy is drained. *)
Definition loadConcurrencyConfig (jobID : uuid) (db : DB) : store_error + option concurrencyConfig :=
  match first (select (λ j, (j_ID j =? jobID)%N) (jobs db)) with
  | None => inr None
  | Some j =>
      match concurrencyFromJSON (j_Concurrency j) with
      | None => inl (ErrMessage "decode concurrency")
      | Some None => inr None
      | Some (Some cfg) =>
          let strategy := ToLower (TrimSpace (cc_strategy cfg)) in
          let strategy := if strategy =s "" then "queue" else strategy in
          if negb (strategy =s "queue") then inr None
          else inr (Some (mkConcurrencyConfig (cc_maxRuns cfg) strategy))
      end
  end.

Definition reclaimStaleClaims (now staleClaimThreshold : Z) (db : DB) : DB :=
  let cutoff := now - staleClaimThreshold in
  set_run_queue
    (update_where (λ r, negb (rq_ClaimedBy r =s "") &&
                        match rq_ClaimedAt r with None => true | Some t => t <? cutoff end)
       (claim_queued "" None) (run_queue db)).1 db.

(** The errors of the database in one pass of the loop: at the claim of the next
    row and at its reload, at the attempts to start the run, at the deletion and at the
    release of the queued row, at the load of the job. *)
Record drain_faults := mkDrainFaults {
  df_dequeue : option store_error;
  df_reload : option store_error;
  df_start : nat → option store_error;
  df_delete : option store_error;
  df_release : option store_error;
  df_launch : option store_error;
}.

Definition no_drain_faults : drain_faults := mkDrainFaults None None (λ _, None) None None None.

(** [launch] reads the job of the started run and hands both to the executor. *)
Definition launch (fault : option store_error) (jobID : uuid) (db : DB) : store_error + Job :=
  match fault, first (select (λ j, (j_ID j =? jobID)%N) (jobs db)) with
  | Some e, _ => inl e
  | None, None => inl ErrRecordNotFound
  | None, Some job => inr job
  end.

(** One pass of the loop: the new database, and whether to go on (with the
    change of the active count), stop, or stop with an error. *)
Inductive drain_next : Type :=
| DrainMore (active : Z)
| DrainStop
| DrainError (e : store_error).

Definition drainStep (df : drain_faults) (claim : string) (newID queueID : uuid) (now : Z) (env : RunEnv)
    (jobID : uuid) (active : Z) (db : DB) : drain_next * DB :=
  match Transaction (df_dequeue df) (DequeueNextRun claim now jobID claim) db with
  | (inl e, db) => (DrainError e, db)
  | (inr None, db) => (DrainStop, db)
  | (inr (Some queued), db) =>
      match df_reload df with
      | Some e => (DrainError e, db)
      | None =>
          let release db := Transaction (df_release df) (ReleaseQueuedRun (rq_ID queued) claim) db in
          match StartQueuedRun (df_start df) newID queueID now env queued db with
          | (inl ErrRunSkipped, db) =>
              match Transaction (df_delete df) (DeleteQueuedRun queued) db with
              | (inl e, db) => (DrainError e, (release db).2)
              | (inr _, db) => (DrainMore active, db)
              end
          | (inl e, db) =>
              let db := (release db).2 in
              match e with
              | ErrMaxConcurrentRunsReached | ErrRunQueued => (DrainStop, db)
              | _ => (DrainError e, db)
              end
          | (inr None, db) =>
              match release db with
              | (inl e, db) => (DrainError e, db)
              | (inr _, db) => (DrainStop, db)
              end
          | (inr (Some _), db) =>
              match Transaction (df_delete df) (DeleteQueuedRun queued) db with
              | (inl e, db) => (DrainError e, db)
              | (inr _, db) =>
                  match launch (df_launch df) jobID db with
                  | inl e => (DrainError e, db)
                  | inr _ => (DrainMore (active + 1), db)
                  end
              end
          end
      end
  end.

(** [for active < maxRuns]; [fuel] bounds the passes, [None] when it runs out. *)
Fixpoint drainLoop (fuel : nat) (faults : nat → drain_faults) (fresh : nat → string * uuid * uuid) (now : Z) (env : RunEnv) (jobID : uuid)
    (maxRuns active : Z) (db : DB) : option ((store_error + ()) * DB) :=
  if negb (active <? maxRuns) then Some (inr (), db)
  else match fuel with
       | O => None
       | S fuel' =>
           let '(claim, newID, queueID) := fresh fuel' in
           match drainStep (faults fuel') claim newID queueID now env jobID active db with
           | (DrainMore active', db') => drainLoop fuel' faults fresh now env jobID maxRuns active' db'
           | (DrainStop, db') => Some (inr (), db')
           | (DrainError e, db') => Some (inl e, db')
           end
       end.

Definition drainJob (fuel : nat) (faults : nat → drain_faults) (fresh : nat → string * uuid * uuid) (now : Z) (env : RunEnv) (jobID : uuid)
    (db : DB) : option ((store_error + ()) * DB) :=
  match loadConcurrencyConfig jobID db with
  | inl e => Some (inl e, db)
  | inr None => Some (inr (), db)
  | inr (Some cfg) =>
      if cc_maxRuns cfg <=? 0 then Some (inr (), db)
      else drainLoop fuel faults fresh now env jobID (cc_maxRuns cfg) (Z.of_nat (CountActive jobID db)) db
  end.

(** [Distinct("job_id")] over the unclaimed rows. *)
Definition queuedJobs (db : DB) : list uuid :=
  remove_dups (map rq_JobID (select (λ r, rq_ClaimedBy r =s "") (run_queue db))).

Fixpoint drainJobs (fuel : nat) (faults : nat → drain_faults) (fresh : nat → string * uuid * uuid) (now : Z) (env : RunEnv) (jobIDs : list uuid)
    (db : DB) : option ((store_error + ()) * DB) :=
  match jobIDs with
  | [] => Some (inr (), db)
  | jobID :: l =>
      match drainJob fuel faults fresh now env jobID db with
      | Some (inr _, db') => drainJobs fuel faults fresh now env l db'
      | r => r
      end
  end.

(** [DrainOnce], given the answer of the leader check. Errors of its own queries, of the
    configuration and of the count of active runs end the drain before it changes
    anything more; they are left out. *)
Definition DrainOnce (fuel : nat) (faults : nat → drain_faults) (fresh : nat → string * uuid * uuid) (now staleClaimThreshold : Z)
    (env : RunEnv) (leader : store_error + bool) (db : DB) : option ((store_error + ()) * DB) :=
  match leader with
  | inl e => Some (inl e, db)
  | inr false => Some (inr (), db)
  | inr true =>
      let db := reclaimStaleClaims now staleClaimThreshold db in
      drainJobs fuel faults fresh now env (queuedJobs db) db
  end.
