(* ===== verification/RunTheorems.v ===== *)
(** Theorems on runs: admission never exceeds a job's concurrency limit, terminal
    runs are final, cancellation settles every task, and the queue is bounded and
    served by priority. *)

From S2P Require Import Prelude TriggerRule Tables Store TxLogic RunState TaskOps Leases RunOps Dequeuer.

(** * Active runs *)

Definition active_le (j : uuid) (db db' : DB) : Prop := (CountActive j db' ≤ CountActive j db)%nat.

#[export] Instance active_le_preorder j : PreOrder (active_le j).
Proof. split; [intros db; unfold active_le; lia|]. intros a b c. unfold active_le. lia. Qed.

Definition same_job_runs (db db' : DB) : Prop := job_runs db' = job_runs db ∧ jobs db' = jobs db.

#[export] Instance same_job_runs_preorder : PreOrder same_job_runs.
Proof. split; [done|]. intros a b c [H1 H2] [H3 H4]. split; congruence. Qed.

Lemma same_job_runs_active j db db' : same_job_runs db db' → CountActive j db' = CountActive j db.
Proof. unfold CountActive. by intros [-> _]. Qed.

Lemma same_job_runs_update p cols : tx_rel same_job_runs (UpdateTaskRuns p cols).
Proof. intros db n db' E. by apply UpdateTaskRuns_spec in E as (_ & -> & _). Qed.

Lemma same_job_runs_lease run : tx_rel same_job_runs (deleteRunLeaseTx run).
Proof. intros db n db'. unfold deleteRunLeaseTx. case_match; intros E; by inversion E. Qed.

Lemma same_job_runs_append evt : tx_rel same_job_runs (AppendTx evt).
Proof. intros db n db' E. by inversion E. Qed.
#[export] Hint Resolve same_job_runs_update same_job_runs_lease same_job_runs_append : tx.

Lemma same_job_runs_event ty run : tx_rel same_job_runs (run_event ty run).
Proof. unfold run_event, firstRun. tx_solve. Qed.
#[export] Hint Resolve same_job_runs_event : tx.

(** A statement on task rows, leases or events counts as no increase. *)
Lemma tx_rel_weaken {A} (R R' : DB → DB → Prop) (m : Tx A) :
  (∀ db db', R db db' → R' db db') → tx_rel R m → tx_rel R' m.
Proof. intros H Hm db a db' E. eapply H, Hm, E. Qed.

Lemma same_runs_le {A} j (m : Tx A) : tx_rel same_job_runs m → tx_rel (active_le j) m.
Proof.
  apply tx_rel_weaken. intros db db' H. unfold active_le. by rewrite (same_job_runs_active j _ _ H).
Qed.

Lemma UpdateJobRuns_spec (p : JobRun → bool) (f : JobRun → JobRun) db n db' :
  UpdateJobRuns p f db = inr (n, db') →
  n = countb p (job_runs db) ∧ db' = set_job_runs (update_where p f (job_runs db)).1 db ∧
  job_runs db' = (λ r, if p r then f r else r) <$> job_runs db.
Proof. unfold UpdateJobRuns, Exec, update_where. intros E. by inversion E. Qed.

Lemma countb_fmap_le {A} (p q : A → bool) (f : A → A) (l : list A) :
  (∀ r, p r = true → q (f r) = false) →
  (countb q ((λ r, if p r then f r else r) <$> l) ≤ countb q l)%nat.
Proof.
  intros H. induction l as [|r l IH]; [done|]. rewrite fmap_cons, !countb_cons.
  destruct (p r) eqn:E; [rewrite (H r E)|]; destruct (q r); lia.
Qed.

Lemma countb_app {A} (q : A → bool) (l k : list A) : countb q (l ++ k) = (countb q l + countb q k)%nat.
Proof. unfold countb. by rewrite List.filter_app, length_app. Qed.

Lemma finished_not_active j status now err r : status ≠ StatusRunning →
  active_run j (finish_run status now err r) = false.
Proof.
  intros Hs. unfold active_run. simpl. unfold str_eqb. rewrite (bool_decide_eq_false_2 (status = _)) by done.
  by rewrite andb_false_r.
Qed.

Lemma cancelRunTx_le j now run reason : tx_rel (active_le j) (cancelRunTx now run reason).
Proof.
  unfold cancelRunTx. cbv zeta. apply tx_rel_bind; [apply _| |].
  - intros db n db' E. apply UpdateJobRuns_spec in E as (_ & _ & E). unfold active_le, CountActive. rewrite E.
    apply countb_fmap_le. intros r _. by apply finished_not_active.
  - intros n. tx_solve; apply same_runs_le; tx_solve.
Qed.

Lemma cancelOldest_le j now job : tx_rel (active_le j) (cancelOldestActiveRunTx now job).
Proof. unfold cancelOldestActiveRunTx. tx_solve. apply cancelRunTx_le. Qed.

(** * Admission *)

Lemma insert_active j model db : CountActive j (set_job_runs (job_runs db ++ [model]) db) =
  (CountActive j db + if active_run j model then 1 else 0)%nat.
Proof. unfold CountActive. simpl. rewrite countb_app. f_equal. unfold countb. simpl. by destruct (active_run j model). Qed.

Lemma active_of_job j r : active_run j r = true → jr_JobID r = j.
Proof. unfold active_run. intros H. by bool_prop. Qed.

(** A conditional insert never takes the count past the limit it checks. *)
Lemma insertRunIfSlot_active j model m db b db' : 0 < m →
  insertRunIfSlotTx model m db = inr (b, db') →
  jobs db' = jobs db ∧
  (Z.of_nat (CountActive j db') ≤ Z.max (Z.of_nat (CountActive j db)) m ∨ jr_JobID model ≠ j ∧
   CountActive j db' = CountActive j db).
Proof.
  intros Hm. unfold insertRunIfSlotTx. destruct (Z.leb_spec m 0); [lia|].
  unfold Query, mbind, Tx_bind. destruct (Z.ltb_spec (Z.of_nat (CountActive (jr_JobID model) db)) m) as [Hlt|Hge].
  - intros E. inversion E; subst. split; [done|]. pose proof (insert_active j model db) as Hi.
    destruct (active_run j model) eqn:Ea.
    + left. rewrite Hi. rewrite (active_of_job _ _ Ea) in Hlt. lia.
    + left. rewrite Hi. lia.
  - intros E. inversion E; subst. split; [done|]. left. lia.
Qed.

(** A job's policy, as every admission reads it. *)
Definition policy (j : uuid) (db : DB) (cfg : concurrencyConfig) : Prop :=
  concurrencyConfigTx j db = inr (Some cfg, db).

Lemma policy_jobs j db db' cfg : jobs db' = jobs db → policy j db cfg → policy j db' cfg.
Proof.
  unfold policy, concurrencyConfigTx, Query, mbind, Tx_bind. intros ->.
  destruct (first _) as [job|]; [|done]. destruct (concurrencyFromJSON _) as [[c|]|]; [|done|done].
  destruct (cc_maxRuns c <=? 0); [done|]. intros E. inversion E. done.
Qed.

Lemma policy_positive j db cfg : policy j db cfg → 0 < cc_maxRuns cfg.
Proof.
  unfold policy, concurrencyConfigTx, Query, mbind, Tx_bind.
  destruct (first _) as [job|]; [|done]. destruct (concurrencyFromJSON _) as [[c|]|]; [|done|done].
  destruct (Z.leb_spec (cc_maxRuns c) 0); [done|]. intros E. inversion E. simpl. lia.
Qed.

(** Within the limit, or no more active runs than before. *)
Definition bounded (j : uuid) (m : Z) (db db' : DB) : Prop :=
  Z.of_nat (CountActive j db') ≤ Z.max (Z.of_nat (CountActive j db)) m ∧ jobs db' = jobs db.

#[export] Instance bounded_preorder j m : PreOrder (bounded j m).
Proof. split; [intros db; split; [lia|done]|]. intros a b c [H1 H2] [H3 H4]. split; [lia|congruence]. Qed.

Lemma concurrencyConfigTx_same j db r db' : concurrencyConfigTx j db = inr (r, db') → db' = db.
Proof.
  unfold concurrencyConfigTx, Query, mbind, Tx_bind. destruct (first _); [|intros E; by inversion E].
  repeat case_match; intros E; by inversion E.
Qed.

Lemma same_runs_bounded {A} j m (t : Tx A) : tx_rel same_job_runs t → tx_rel (bounded j m) t.
Proof.
  apply tx_rel_weaken. intros db db' H. split; [rewrite (same_job_runs_active j _ _ H); lia|apply H].
Qed.

Lemma enqueue_same id now job params p d : tx_rel same_job_runs (enqueueRunTx id now job params p d).
Proof. intros db a db'. unfold enqueueRunTx. case_match; intros E; by inversion E. Qed.

Lemma cancelRunTx_jobs now run reason : tx_rel (λ db db', jobs db' = jobs db) (cancelRunTx now run reason).
Proof.
  assert (PreOrder (λ db db' : DB, jobs db' = jobs db)) by (split; [done|intros ???; congruence]).
  unfold cancelRunTx. cbv zeta. apply tx_rel_bind; [done| |].
  - intros db n db' E. by apply UpdateJobRuns_spec in E as (_ & -> & _).
  - intros n. assert (∀ A (m : Tx A), tx_rel same_job_runs m → tx_rel (λ db db' : DB, jobs db' = jobs db) m) as W.
    { intros A m. apply tx_rel_weaken. by intros db db' [_ ?]. }
    tx_solve; apply W; tx_solve.
Qed.

Lemma cancelOldest_bounded j m now job : tx_rel (bounded j m) (cancelOldestActiveRunTx now job).
Proof.
  intros db a db' E. split.
  - apply cancelOldest_le with (j := j) in E. unfold active_le in E. lia.
  - revert E. unfold cancelOldestActiveRunTx, Query, mbind, Tx_bind.
    destruct (first _) as [r|]; [apply cancelRunTx_jobs|intros E; by inversion E].
Qed.

(** Admission of a run of job [j] itself. *)
Lemma admit_bounded j cfg qid now d model req db dec db' : policy j db cfg → jr_JobID model = j →
  admitTx qid now d model req db = inr (dec, db') → bounded j (cc_maxRuns cfg) db db'.
Proof.
  intros HP Hj. unfold admitTx. unfold mbind at 1, Tx_bind at 1. rewrite Hj. unfold policy in HP. rewrite HP.
  pose proof (policy_positive j db cfg HP) as Hm. destruct (bool_decide _); [intros E; by inversion E|].
  assert (∀ mm, jr_JobID mm = j → tx_rel (bounded j (cc_maxRuns cfg)) (insertRunIfSlotTx mm (cc_maxRuns cfg))) as HI.
  { intros mm Hmm db0 b0 db1 E0. destruct (insertRunIfSlot_active j mm _ _ _ _ Hm E0) as [H1 [H2|[H2 _]]]; [|done].
    by split. }
  match goal with |- ?m db = _ → _ => assert (tx_rel (bounded j (cc_maxRuns cfg)) m) as HR end; [|apply HR].
  tx_solve; try (by apply HI); try (apply same_runs_bounded, enqueue_same); apply cancelOldest_bounded.
Qed.

(** Admission for another job leaves the count of [j] alone or lowers it. *)
Lemma admit_other j m qid now d model req : jr_JobID model ≠ j → tx_rel (bounded j m) (admitTx qid now d model req).
Proof.
  intros Hj. unfold admitTx.
  assert (∀ k, tx_rel (bounded j m) (concurrencyConfigTx k)) as HC.
  { intros k db r db' E. apply concurrencyConfigTx_same in E as ->. reflexivity. }
  assert (∀ k, tx_rel (bounded j m) (insertRunIfSlotTx model k)) as HI.
  { intros k db b db'. unfold insertRunIfSlotTx, insert_run, Query, mbind, Tx_bind.
    assert (CountActive j (set_job_runs (job_runs db ++ [model]) db) = CountActive j db) as Hn.
    { rewrite insert_active. destruct (active_run j model) eqn:E; [|lia]. by apply active_of_job in E. }
    repeat case_match; intros E; inversion E; subst; split; try done; rewrite ?Hn; lia. }
  tx_solve; try apply HC; try apply HI; try (apply same_runs_bounded, enqueue_same); apply cancelOldest_bounded.
Qed.

Lemma startPriorityTx_same job o : tx_rel same_job_runs (startPriorityTx job o).
Proof. unfold startPriorityTx, liftE. tx_solve. Qed.

Lemma admit_no_policy j cfg qid now d model req db db' : policy j db cfg → jr_JobID model = j →
  admitTx qid now d model req db = inr (admissionNoPolicy, db') → is_Some (jr_BackfillID model).
Proof.
  intros HP Hj. unfold admitTx. unfold mbind at 1, Tx_bind at 1. rewrite Hj. unfold policy in HP. rewrite HP.
  destruct (bool_decide _) eqn:Eb; [intros _; by apply bool_decide_eq_true in Eb|].
  unfold mbind, Tx_bind, mret, Tx_ret, throw. repeat case_match; intros; simplify_eq.
Qed.

Lemma startRunTx_bounded j cfg nid qid now d req db dec db' : policy j db cfg →
  startRunTx nid qid now d req db = inr (dec, db') → bounded j (cc_maxRuns cfg) db db'.
Proof.
  intros HP. unfold startRunTx. unfold mbind at 1, Tx_bind at 1.
  destruct (startPriorityTx _ _ db) as [e|[pr db0]] eqn:E0; [done|].
  apply (same_runs_bounded j (cc_maxRuns cfg) _ (startPriorityTx_same _ _)) in E0.
  assert (policy j db0 cfg) as HP0 by (apply (policy_jobs j db); [apply E0|done]).
  cbv zeta. unfold mbind at 1, Tx_bind at 1. set (model := newStartRunModel nid now req pr).
  destruct (admitTx _ _ _ _ _ db0) as [e|[d1 db1]] eqn:E1; [done|].
  assert (bounded j (cc_maxRuns cfg) db0 db1) as B1.
  { destruct (decide (jr_JobID model = j)) as [Hj|Hj]; [by eapply admit_bounded|by eapply admit_other]. }
  intros E2. transitivity db0; [done|]. transitivity db1; [done|]. revert E2.
  destruct d1; try (intros E; by inversion E).
  2:{ unfold AppendTx, mbind, Tx_bind. intros E. inversion E; subst. split; [unfold CountActive; simpl; lia|done]. }
  destruct (sr_policyOnly req); [intros E; by inversion E|].
  unfold insert_run, AppendTx, mbind, Tx_bind, mret, Tx_ret. intros E. inversion E; subst. split; [|done].
  change (Z.of_nat (CountActive j (set_job_runs (job_runs db1 ++ [model]) db1)) ≤
          Z.max (Z.of_nat (CountActive j db1)) (cc_maxRuns cfg)). rewrite insert_active.
  destruct (active_run j model) eqn:Ea; [|lia]. exfalso. pose proof (active_of_job _ _ Ea) as Hj.
  pose proof (admit_no_policy _ _ _ _ _ _ _ _ _ HP0 Hj E1) as Hb. unfold active_run in Ea. bool_prop.
  by apply bool_decide_eq_false in H0.
Qed.

(** * The queue during admission *)

Definition same_queue (db db' : DB) : Prop := run_queue db' = run_queue db.

#[export] Instance same_queue_preorder : PreOrder same_queue.
Proof. split; [done|]. intros a b c H1 H2. unfold same_queue in *. congruence. Qed.

Lemma queue_update p cols : tx_rel same_queue (UpdateTaskRuns p cols).
Proof. intros db n db' E. by apply UpdateTaskRuns_spec in E as (_ & -> & _). Qed.

Lemma queue_update_runs p f : tx_rel same_queue (UpdateJobRuns p f).
Proof. intros db n db' E. by apply UpdateJobRuns_spec in E as (_ & -> & _). Qed.

Lemma queue_lease run : tx_rel same_queue (deleteRunLeaseTx run).
Proof. intros db n db'. unfold deleteRunLeaseTx. case_match; intros E; by inversion E. Qed.

Lemma queue_append evt : tx_rel same_queue (AppendTx evt).
Proof. intros db n db' E. by inversion E. Qed.

Lemma queue_insert model : tx_rel same_queue (insert_run model).
Proof. intros db n db' E. by inversion E. Qed.
#[export] Hint Resolve queue_update queue_update_runs queue_lease queue_append queue_insert : tx.

Lemma queue_event ty run : tx_rel same_queue (run_event ty run).
Proof. unfold run_event, firstRun. tx_solve. Qed.
#[export] Hint Resolve queue_event : tx.

Lemma queue_cancel now job : tx_rel same_queue (cancelOldestActiveRunTx now job).
Proof. unfold cancelOldestActiveRunTx, cancelRunTx. tx_solve. Qed.

Lemma queue_slot model m : tx_rel same_queue (insertRunIfSlotTx model m).
Proof. unfold insertRunIfSlotTx. tx_solve. Qed.

Lemma queue_config j : tx_rel same_queue (concurrencyConfigTx j).
Proof. unfold concurrencyConfigTx. tx_solve. Qed.
#[export] Hint Resolve queue_cancel queue_slot queue_config : tx.

(** A run started from the queue is never queued again. *)
Lemma queue_start nid qid now d req : sr_fromQueue req = true → tx_rel same_queue (startRunTx nid qid now d req).
Proof. intros Hq. unfold startRunTx, admitTx, startPriorityTx, liftE. rewrite Hq. tx_solve. Qed.

(** The lease write leaves the other tables alone. *)
Lemma leaseRun_frame env now id db :
  job_runs (leaseRun env now id db) = job_runs db ∧ jobs (leaseRun env now id db) = jobs db ∧
  run_queue (leaseRun env now id db) = run_queue db.
Proof. unfold leaseRun, AcquireLease. repeat case_match; by simplify_eq. Qed.

Lemma startRun_bounded j cfg faults nid qid now env req db r db' : policy j db cfg →
  startRun faults nid qid now env req db = (r, db') → bounded j (cc_maxRuns cfg) db db'.
Proof.
  intros HP. unfold startRun.
  destruct (withStoreBusyRetry faults _ db) as [[e|dec] db1] eqn:E; apply busyRetryLoop_atomic in E.
  - intros H. by simplify_eq.
  - apply (startRunTx_bounded j cfg) in E; [|done].
    destruct dec; intros H; simplify_eq; try done. transitivity db1; [done|].
    destruct (leaseRun_frame env now nid db1) as (E1 & E2 & _).
    split; [unfold CountActive; rewrite E1; lia|done].
Qed.

Lemma StartQueuedRun_queue faults nid qid now d q db r db' :
  StartQueuedRun faults nid qid now d q db = (r, db') → run_queue db' = run_queue db.
Proof.
  unfold StartQueuedRun, startRun.
  destruct (withStoreBusyRetry faults _ db) as [[e|dec] db1] eqn:E; apply busyRetryLoop_atomic in E.
  - intros H. by simplify_eq.
  - assert (run_queue db1 = run_queue db) as Hq by (eapply (queue_start nid qid now (re_queueMaxDepth d) (queuedRequest q)); [done|exact E]).
    destruct dec; intros H; simplify_eq; try done. by rewrite (proj2 (proj2 (leaseRun_frame _ _ _ _))).
Qed.

Lemma DequeueNextRun_some fresh now j who db q db' : DequeueNextRun fresh now j who db = inr (Some q, db') →
  q ∈ run_queue db' ∧ length (run_queue db') = length (run_queue db) ∧
  job_runs db' = job_runs db ∧ jobs db' = jobs db.
Proof.
  unfold DequeueNextRun. cbv zeta. destruct (first (sort_stable _ _)) as [next|]; [|done].
  unfold update_where. case_match; [done|].
  destruct (first (select _ _)) as [x|] eqn:Ef; [|done].
  intros E. inversion E; subst. simpl. split; [|split; [apply length_map|done]].
  apply head_Some_elem_of in Ef. by apply select_elem in Ef as [? _].
Qed.

(** * Draining *)

Lemma release_queue fault id claim db : ∃ l, (Transaction fault (ReleaseQueuedRun id claim) db).2 = set_run_queue l db.
Proof.
  unfold Transaction. destruct fault; [exists (run_queue db); by destruct db|]. unfold ReleaseQueuedRun. simpl. by eexists.
Qed.

Lemma delete_queue fault q db r db' : Transaction fault (DeleteQueuedRun q) db = (r, db') →
  match r with
  | inr _ => db' = set_run_queue (List.filter (λ x, negb (rq_ID x =? rq_ID q)%N) (run_queue db)) db
  | inl _ => db' = db
  end.
Proof. unfold Transaction, DeleteQueuedRun. simpl. destruct fault; intros; by simplify_eq/=. Qed.

(** Every pass that goes on has removed a row of the queue. *)
Lemma drainStep_more df claim nid qid now d j active db active' db' :
  drainStep df claim nid qid now d j active db = (DrainMore active', db') →
  (length (run_queue db') < length (run_queue db))%nat.
Proof.
  unfold drainStep. destruct (Transaction (df_dequeue df) _ db) as [[e|[q|]] db1] eqn:E1; [done| |done].
  assert (DequeueNextRun claim now j claim db = inr (Some q, db1)) as E1'.
  { revert E1. unfold Transaction. repeat case_match; intros; by simplify_eq. }
  apply DequeueNextRun_some in E1' as (Hin & Hlen & _). destruct (df_reload df); [done|].
  destruct (StartQueuedRun _ _ _ _ _ q db1) as [r db2] eqn:E2. apply StartQueuedRun_queue in E2.
  assert (length (List.filter (λ r, negb (rq_ID r =? rq_ID q)%N) (run_queue db2)) < length (run_queue db))%nat as H.
  { rewrite E2, <- Hlen. apply list_elem_of_In in Hin. clear -Hin. induction (run_queue db1) as [|x l IH]; [done|].
    simpl in *. destruct Hin as [->|Hin].
    - rewrite N.eqb_refl. simpl. pose proof (filter_length_le (λ r, negb (rq_ID r =? rq_ID q)%N) l). lia.
    - specialize (IH Hin). destruct (negb _); simpl; lia. }
  destruct (Transaction (df_delete df) (DeleteQueuedRun q) db2) as [rd db3] eqn:ED. apply delete_queue in ED.
  destruct r as [e|[id|]].
  - destruct e; try done. destruct rd; [done|]. intros; simplify_eq. done.
  - destruct rd; [done|]. destruct (launch _ j _); intros; simplify_eq. done.
  - destruct (Transaction (df_release df) _ _) as [[e|[]] db4]; done.
Qed.

Lemma drainStep_bounded j cfg df claim nid qid now d active db next db' : policy j db cfg →
  drainStep df claim nid qid now d j active db = (next, db') → bounded j (cc_maxRuns cfg) db db'.
Proof.
  intros HP. unfold drainStep.
  destruct (Transaction (df_dequeue df) (DequeueNextRun claim now j claim) db) as [r0 db1] eqn:E1.
  assert (bounded j (cc_maxRuns cfg) db db1 ∧ policy j db1 cfg) as [B1 HP1].
  { revert E1. unfold Transaction. destruct (df_dequeue df); [intros; by simplify_eq|].
    unfold DequeueNextRun. cbv zeta. unfold update_where.
    repeat case_match; intros; simplify_eq;
      (split; [reflexivity || (split; [unfold CountActive; simpl; lia|done])|by (exact HP || (eapply policy_jobs; [|exact HP]))]). }
  destruct r0 as [e|[q|]]; [intros; by simplify_eq| |intros; by simplify_eq].
  destruct (df_reload df); [intros; by simplify_eq|].
  destruct (StartQueuedRun _ _ _ _ _ q db1) as [r db2] eqn:E2.
  assert (bounded j (cc_maxRuns cfg) db db2) as B2.
  { transitivity db1; [done|]. eapply startRun_bounded; [done|exact E2]. }
  assert (∀ l, bounded j (cc_maxRuns cfg) db (set_run_queue l db2)) as Hq.
  { intros l. transitivity db2; [done|]. split; [unfold CountActive; simpl; lia|done]. }
  assert (∀ fault, bounded j (cc_maxRuns cfg) db (Transaction fault (ReleaseQueuedRun (rq_ID q) claim) db2).2) as Hrel.
  { intros fault. destruct (release_queue fault (rq_ID q) claim db2) as [l ->]. apply Hq. }
  destruct (Transaction (df_delete df) (DeleteQueuedRun q) db2) as [rd db3] eqn:ED. apply delete_queue in ED.
  destruct r as [e|[id|]].
  - destruct e; try (intros; simplify_eq; apply Hrel). destruct rd; intros; simplify_eq; [apply Hrel|apply Hq].
  - destruct rd; [intros; by simplify_eq|]. subst db3. destruct (launch _ j _); intros; simplify_eq; apply Hq.
  - pose proof (Hrel (df_release df)) as H. destruct (Transaction (df_release df) _ _) as [[e|[]] db4]; intros; by simplify_eq.
Qed.

Lemma drainLoop_total fuel faults fresh now d j m active db : (length (run_queue db) < fuel)%nat →
  is_Some (drainLoop fuel faults fresh now d j m active db).
Proof.
  revert active db. induction fuel as [|fuel IH]; intros active db Hf; [lia|]. simpl.
  destruct (negb (active <? m)); [by eexists|]. destruct (fresh fuel) as [[claim nid] qid].
  destruct (drainStep (faults fuel) claim nid qid now d j active db) as [[a| |e] db'] eqn:E; [|by eexists..].
  apply drainStep_more in E. apply IH. lia.
Qed.

Lemma drainLoop_bounded fuel faults fresh now d j cfg active db r db' : policy j db cfg →
  drainLoop fuel faults fresh now d j (cc_maxRuns cfg) active db = Some (r, db') → bounded j (cc_maxRuns cfg) db db'.
Proof.
  revert active db. induction fuel as [|fuel IH]; intros active db HP; simpl.
  { destruct (negb _); [|done]. intros. by simplify_eq. }
  destruct (negb (active <? _)); [intros; by simplify_eq|]. destruct (fresh fuel) as [[claim nid] qid].
  destruct (drainStep (faults fuel) claim nid qid now d j active db) as [[a| |e] db1] eqn:E;
    pose proof (drainStep_bounded _ _ _ _ _ _ _ _ _ _ _ _ HP E) as B; [|intros; by simplify_eq..].
  intros HE. transitivity db1; [done|]. eapply IH; [|exact HE]. eapply policy_jobs; [apply B|done].
Qed.

(** * Theorems *)

(** C10: admission never exceeds the declared concurrency: whatever run is started
    (any job, trigger, backfill, queue drain, any strategy, under contention), the
    number of active runs of a job with a limit stays within the limit, or at its
    previous value if it was already above. *)
Theorem admission_respects_limit j cfg faults nid qid now d req db r db' :
  policy j db cfg → startRun faults nid qid now d req db = (r, db') →
  Z.of_nat (CountActive j db') ≤ Z.max (Z.of_nat (CountActive j db)) (cc_maxRuns cfg).
Proof. intros HP E. by apply (startRun_bounded j cfg) in E as [? _]. Qed.

(** A job limited to one active run, with one run and one queued request. *)
Definition limited_db (strategy : string) : DB :=
  mkDB [mkJob 7 "etl" 0 "" (BlobJson (JObj [("maxRuns", JNum 1); ("strategy", JStr strategy)])) false] [] []
    [mkJobRun 100 7 None 0 StatusRunning 2 BlobEmpty "" false 0 None]
    [] [] [] [mkRunQueue 50 7 BlobEmpty 2 "" None 3] [].

Definition demo_request (policyOnly : bool) : startRunRequest :=
  mkStartRunRequest 7 None None BlobEmpty "high" false policyOnly.

Definition demo_env : RunEnv := mkRunEnv 100 (Some ("node-1", 30)).

Lemma limited_policy : policy 7 (limited_db "replace") (mkConcurrencyConfig 1 "replace").
Proof. reflexivity. Qed.

Lemma admission_respects_limit_witness :
  CountActive 7 (startRun (λ _, None) 101 51 9 demo_env (demo_request false) (limited_db "replace")).2 = 1%nat ∧
  Z.of_nat (CountActive 7 (startRun (λ _, None) 101 51 9 demo_env (demo_request false) (limited_db "replace")).2) ≤
    Z.max 1 1.
Proof.
  split; [vm_compute; reflexivity|].
  exact (admission_respects_limit 7 (mkConcurrencyConfig 1 "replace") (λ _, None) 101 51 9 demo_env
    (demo_request false) (limited_db "replace") _ _ limited_policy (surjective_pairing _)).
Defined.

Lemma load_policy j db c cfg : loadConcurrencyConfig j db = inr (Some c) → policy j db cfg →
  cc_maxRuns c = cc_maxRuns cfg.
Proof.
  unfold loadConcurrencyConfig, policy, concurrencyConfigTx, Query, mbind, Tx_bind.
  destruct (first _) as [job|]; [|done]. destruct (concurrencyFromJSON _) as [[x|]|]; [|done|done].
  destruct (cc_maxRuns x <=? 0); [done|]. case_match; [done|]. intros E1 E2. simplify_eq. by inversion E2.
Qed.

(** C27: draining a job's queue always finishes, within one more pass than there
    are queued rows, and leaves the job within its concurrency limit, whatever errors the
    database raises in the passes. *)
Theorem drain_terminates_within_limit faults fresh now d j db :
  ∃ r db', drainJob (S (length (run_queue db))) faults fresh now d j db = Some (r, db') ∧
    ∀ cfg, policy j db cfg →
      Z.of_nat (CountActive j db') ≤ Z.max (Z.of_nat (CountActive j db)) (cc_maxRuns cfg).
Proof.
  unfold drainJob. destruct (loadConcurrencyConfig j db) as [e|[c|]] eqn:El.
  - eexists _, _. split; [done|]. intros. lia.
  - destruct (cc_maxRuns c <=? 0) eqn:Ec; [eexists _, _; split; [done|]; intros; lia|].
    destruct (drainLoop_total (S (length (run_queue db))) faults fresh now d j (cc_maxRuns c)
      (Z.of_nat (CountActive j db)) db) as [[r db'] E]; [lia|].
    exists r, db'. split; [done|]. intros cfg HP. rewrite (load_policy _ _ _ _ El HP) in E.
    by apply drainLoop_bounded with (cfg := cfg) in E as [? _].
  - eexists _, _. split; [done|]. intros. lia.
Qed.

(** * Terminal runs *)

Definition run_terminal (r : JobRun) : bool := bool_decide (jr_Status r ∈ terminalRunStatuses).

Definition runs_kept (db db' : DB) : Prop :=
  ∀ (i : nat) r, job_runs db !! i = Some r → run_terminal r = true → job_runs db' !! i = Some r.

#[export] Instance runs_kept_preorder : PreOrder runs_kept.
Proof. split; [by intros db i r|]. intros a b c H1 H2 i r Hr Ht. apply H2; [by apply H1|done]. Qed.

Lemma runs_kept_same : ∀ {A} (m : Tx A), tx_rel same_job_runs m → tx_rel runs_kept m.
Proof. intros A m. apply tx_rel_weaken. intros db db' [E _] i r. by rewrite E. Qed.

Lemma runs_kept_update p f : (∀ r, p r = true → run_terminal r = false) → tx_rel runs_kept (UpdateJobRuns p f).
Proof.
  intros Hp db n db' E i r Hr Ht. apply UpdateJobRuns_spec in E as (_ & _ & E).
  rewrite E, list_lookup_fmap, Hr. simpl. destruct (p r) eqn:Ep; [|done]. by rewrite (Hp r Ep) in Ht.
Qed.

Lemma runs_kept_insert model : tx_rel runs_kept (insert_run model).
Proof. intros db n db' E i r Hr _. inversion E; subst. simpl. by apply lookup_app_l_Some. Qed.

Lemma running_not_final r : (jr_Status r =s StatusRunning) = true → run_terminal r = false.
Proof. intros H%str_eqb_eq. unfold run_terminal. rewrite H. reflexivity. Qed.

Lemma cancel_runs_kept now run reason : tx_rel runs_kept (cancelRunTx now run reason).
Proof.
  unfold cancelRunTx. cbv zeta. apply tx_rel_bind; [apply _| |].
  - apply runs_kept_update. intros r H. bool_prop. by apply running_not_final, str_eqb_eq.
  - intros n. tx_solve; apply runs_kept_same; tx_solve.
Qed.

Lemma complete_runs_kept now run res : tx_rel runs_kept (completeRunTx now run res).
Proof.
  unfold completeRunTx. cbv zeta. apply tx_rel_bind; [apply _| |].
  - apply runs_kept_update. intros r H. bool_prop. done.
  - intros n. tx_solve; apply runs_kept_same; tx_solve.
Qed.

Lemma start_runs_kept nid qid now d req : tx_rel runs_kept (startRunTx nid qid now d req).
Proof.
  assert (∀ k, tx_rel runs_kept (concurrencyConfigTx k)) as HC.
  { intros k db r db' E. apply concurrencyConfigTx_same in E as ->. reflexivity. }
  unfold startRunTx, admitTx, insertRunIfSlotTx, cancelOldestActiveRunTx.
  tx_solve; try apply HC; try apply runs_kept_insert; try apply cancel_runs_kept;
    apply runs_kept_same; eauto using startPriorityTx_same, enqueue_same with tx.
Qed.

(** The operations that act on whole runs. *)
Inductive run_level_op : Type :=
| OpStartRun (newID queueID : uuid) (now : Z) (env : RunEnv) (req : startRunRequest)
| OpCompleteRun (now : Z) (run : uuid) (result : option string)
| OpCancelRun (now : Z) (run : uuid).

Definition apply_run_op (p : (nat → option store_error) * run_level_op) (db : DB) : DB :=
  match p.2 with
  | OpStartRun nid qid now d req => (startRun p.1 nid qid now d req db).2
  | OpCompleteRun now run res => (Complete p.1 now run res db).2
  | OpCancelRun now run => (withStoreBusyRetry p.1 (CancelRun now run) db).2
  end.

Lemma retry_runs_kept {A} faults (body : Tx A) db : tx_rel runs_kept body →
  runs_kept db (withStoreBusyRetry faults body db).2.
Proof.
  intros H. destruct (withStoreBusyRetry faults body db) as [[e|a] db'] eqn:E; apply busyRetryLoop_atomic in E.
  - simpl. by rewrite E.
  - by eapply H.
Qed.

Lemma apply_run_op_kept p db : runs_kept db (apply_run_op p db).
Proof.
  destruct p as [faults [nid qid now d req|now run res|now run]]; unfold apply_run_op; cbn [fst snd].
  - pose proof (retry_runs_kept faults _ db (start_runs_kept nid qid now (re_queueMaxDepth d) req)) as H. unfold startRun.
    destruct (withStoreBusyRetry _ _ db) as [[e|dec] db']; [done|destruct dec; try done].
    intros i r. simpl. rewrite (proj1 (leaseRun_frame d now nid db')). apply H.
  - pose proof (retry_runs_kept faults _ db (complete_runs_kept now run res)) as H. unfold Complete.
    destruct (withStoreBusyRetry _ _ db) as [[e|[]] db']; [by destruct e|done].
  - apply retry_runs_kept. unfold CancelRun. tx_solve. apply cancel_runs_kept.
Qed.

(** A finished run is final: once a run has succeeded, failed or been
    cancelled, no sequence of starts (replacements included), completions and
    cancellations changes its row. *)
Lemma finished_run_final ops db (i : nat) r :
  job_runs db !! i = Some r → jr_Status r ∈ terminalRunStatuses →
  job_runs (fold_left (λ db p, apply_run_op p db) ops db) !! i = Some r.
Proof.
  intros Hr Ht. assert (runs_kept db (fold_left (λ db p, apply_run_op p db) ops db)) as HK.
  { clear. revert db. induction ops as [|p ops IH]; intros db; [reflexivity|]. cbn [fold_left].
    transitivity (apply_run_op p db); [apply apply_run_op_kept|apply IH]. }
  apply HK; [done|]. by apply bool_decide_eq_true.
Qed.

Lemma finished_run_final_witness :
  let r := mkJobRun 100 7 None 0 StatusFailed 2 BlobEmpty "boom" false 0 (Some 4) in
  let db := mkDB [] [] [] [r] [] [] [] [] [] in
  job_runs (fold_left (λ db p, apply_run_op p db)
    [(λ _, None, OpCompleteRun 9 100 None); (λ _, None, OpCancelRun 10 100)] db) !! 0%nat = Some r.
Proof. apply finished_run_final; [reflexivity|]. decide_vm. Defined.

Definition open_runs (run : uuid) (db : DB) : nat :=
  countb (λ r, is_run run r && negb (run_terminal r)) (job_runs db).

Lemma complete_noop now run res db : open_runs run db = 0%nat →
  Complete (λ _, None) now run res db = (inr (), db).
Proof.
  intros Hc. unfold Complete. rewrite busyRetry_nofault. unfold completeRunTx. cbv zeta.
  unfold mbind, Tx_bind, UpdateJobRuns, Exec, update_where. unfold open_runs, run_terminal in Hc.
  rewrite Hc. reflexivity.
Qed.

Lemma complete_already now run res db : completeRunTx now run res db = inl errRunAlreadyTerminal →
  open_runs run db = 0%nat.
Proof.
  unfold completeRunTx. cbv zeta. unfold mbind at 1, Tx_bind at 1.
  destruct (UpdateJobRuns _ _ db) as [e|[n db2]] eqn:EU; [done|]. apply UpdateJobRuns_spec in EU as (-> & _).
  destruct (Nat.eqb_spec (countb (λ r, is_run run r && negb (bool_decide (jr_Status r ∈ terminalRunStatuses)))
    (job_runs db)) 0) as [Hz|Hz]; [done|].
  unfold run_event, firstRun, First, AppendTx, mbind, Tx_bind. repeat case_match; intros; simplify_eq.
Qed.

(** Completing a run is idempotent: a second completion, with any outcome and
    at any time, succeeds and changes nothing, so that run events are recorded
    once. *)
Lemma complete_idempotent now run res db db1 now' res' :
  Complete (λ _, None) now run res db = (inr (), db1) →
  Complete (λ _, None) now' run res' db1 = (inr (), db1).
Proof.
  intros E. apply complete_noop. revert E. unfold Complete. rewrite busyRetry_nofault.
  destruct (completeRunTx now run res db) as [e|[[] db']] eqn:E.
  { intros H. destruct e; simplify_eq. by apply complete_already in E. }
  intros H. simplify_eq. revert E. unfold completeRunTx. cbv zeta. unfold mbind at 1, Tx_bind at 1.
  destruct (UpdateJobRuns _ _ db) as [e|[n db2]] eqn:EU; [done|]. apply UpdateJobRuns_spec in EU as (_ & _ & EU).
  destruct (n =? 0)%nat; [done|]. intros E.
  assert (same_job_runs db2 db1) as [Er _].
  { revert E. match goal with |- ?m db2 = _ → _ => assert (tx_rel same_job_runs m) as HR by tx_solve end. apply HR. }
  unfold open_runs. rewrite Er, EU. apply countb_0. intros r Hin. apply list_elem_of_fmap in Hin as (r0 & -> & _).
  destruct (is_run run r0 && negb _) eqn:Ec.
  - unfold run_terminal. simpl. destruct res; by rewrite andb_false_r.
  - unfold run_terminal. exact Ec.
Qed.

Lemma complete_idempotent_witness : ∃ db1,
  Complete (λ _, None) 9 100 None (limited_db "queue") = (inr (), db1) ∧
  Complete (λ _, None) 10 100 (Some "late failure") db1 = (inr (), db1).
Proof.
  eexists. split; [vm_compute; reflexivity|].
  apply (complete_idempotent 9 100 None (limited_db "queue")). vm_compute. reflexivity.
Defined.
