(* ===== verification/QueueTheorems.v ===== *)
(** Theorems on the run queue (bounded depth, priority order, exclusive claims)
    and on cancellation and retry of runs. *)

From S2P Require Import Prelude TriggerRule Tables Store TxLogic RunState TaskOps RunOps Dequeuer RunTheorems.

(** * Orders *)

Lemma queue_age_asym x y : queue_age x y = true → queue_age y x = false.
Proof. unfold queue_age. rewrite Z.ltb_lt, Z.ltb_ge. lia. Qed.

Lemma queue_age_negtrans x y z : queue_age y x = false → queue_age z y = false → queue_age z x = false.
Proof. unfold queue_age. rewrite !Z.ltb_ge. lia. Qed.

Lemma queue_order_spec x y : queue_order x y = true ↔
  rq_Priority y < rq_Priority x ∨ (rq_Priority x = rq_Priority y ∧ rq_CreatedAt x < rq_CreatedAt y).
Proof. unfold queue_order. by rewrite orb_true_iff, andb_true_iff, !Z.ltb_lt, Z.eqb_eq. Qed.

Lemma queue_order_false x y : queue_order x y = false ↔
  rq_Priority x < rq_Priority y ∨ (rq_Priority x = rq_Priority y ∧ rq_CreatedAt y ≤ rq_CreatedAt x).
Proof.
  unfold queue_order. rewrite orb_false_iff, andb_false_iff, !Z.ltb_ge, Z.eqb_neq. lia.
Qed.

Lemma queue_order_asym x y : queue_order x y = true → queue_order y x = false.
Proof. rewrite queue_order_spec, queue_order_false. lia. Qed.

Lemma queue_order_negtrans x y z : queue_order y x = false → queue_order z y = false → queue_order z x = false.
Proof. rewrite !queue_order_false. lia. Qed.

(** * Depth *)

Lemma filter_length_drop {A} (p : A → bool) (l : list A) n :
  (∀ x, x ∈ take n l → p x = false) → (length (List.filter p l) ≤ length (drop n l))%nat.
Proof.
  intros H. rewrite <- (take_drop n l) at 1. rewrite List.filter_app, length_app.
  assert (List.filter p (take n l) = []) as ->.
  { induction (take n l) as [|x k IH]; [done|]. simpl. rewrite (H x) by set_solver. apply IH. set_solver. }
  simpl. apply List.filter_length_le.
Qed.

(** Removing the overflow leaves at most the rest. *)
Lemma overflow_removed (p : RunQueue → bool) (q : list RunQueue) n :
  let victims := map rq_ID (take n (sort_stable queue_age (select p q))) in
  (countb p (List.filter (λ r, negb (bool_decide (rq_ID r ∈ victims))) q) ≤ countb p q - n)%nat.
Proof.
  intros victims. unfold countb. rewrite filter_filter.
  rewrite (List.filter_ext _ (λ x, p x && negb (bool_decide (rq_ID x ∈ victims)))) by (intros; apply andb_comm).
  rewrite <- filter_filter. fold (select p q).
  rewrite <- (Permutation_length (filter_perm _ _ _ (sort_stable_perm queue_age (select p q)))).
  etransitivity; [apply (filter_length_drop _ _ n)|].
  - intros x Hx. apply negb_false_iff, bool_decide_eq_true. subst victims.
    apply list_elem_of_In, in_map, list_elem_of_In. done.
  - rewrite length_drop, sort_stable_length. done.
Qed.

(** The queue of a job is bounded: after a request is queued, the number of
    waiting requests of the job is at most the configured depth (100 when none is
    configured). *)
Lemma queue_depth_bounded id now j params p maxDepth db db' :
  enqueueRunTx id now j params p maxDepth db = inr ((), db') →
  Z.of_nat (countb (queued_of j) (run_queue db')) ≤ (if maxDepth <=? 0 then 100 else maxDepth).
Proof.
  unfold enqueueRunTx. cbv zeta. set (q := run_queue db ++ _). set (m := if maxDepth <=? 0 then 100 else maxDepth).
  assert (0 < m) as Hm by (subst m; destruct (Z.leb_spec maxDepth 0); lia).
  destruct (Z.ltb_spec 0 (Z.of_nat (countb (queued_of j) q) - m)) as [Ho|Ho]; intros E; inversion E; subst db'; simpl.
  - pose proof (overflow_removed (queued_of j) q (Z.to_nat (Z.of_nat (countb (queued_of j) q) - m))) as H. simpl in H. lia.
  - lia.
Qed.

Lemma queue_depth_bounded_witness : ∃ db',
  enqueueRunTx 51 9 7 BlobEmpty 2 1 (limited_db "queue") = inr ((), db') ∧
  map rq_ID (run_queue db') = [51%N] ∧ Z.of_nat (countb (queued_of 7) (run_queue db')) ≤ 1.
Proof.
  eexists. split; [vm_compute; reflexivity|]. split; [reflexivity|].
  apply (queue_depth_bounded 51 9 7 BlobEmpty 2 1 (limited_db "queue")). vm_compute. reflexivity.
Defined.

(** * Dequeuing *)

Definition token (fresh who : string) : string := if TrimSpace who =s "" then fresh else TrimSpace who.

(** Dequeuing claims the best waiting request of the job: the returned row is
    a waiting row stamped with the caller's token, no waiting row of the job has a
    higher priority, none of equal priority is older, and every other row of the
    queue is unchanged. *)
Lemma dequeue_takes_best fresh now j who db q db' :
  NoDup (map rq_ID (run_queue db)) → (∀ r, r ∈ run_queue db → rq_ClaimedBy r ≠ token fresh who) →
  DequeueNextRun fresh now j who db = inr (Some q, db') →
  ∃ q0, q0 ∈ run_queue db ∧ queued_of j q0 = true ∧ q = claim_queued (token fresh who) (Some now) q0 ∧
    (∀ r, r ∈ run_queue db → queued_of j r = true →
       rq_Priority r < rq_Priority q ∨ (rq_Priority r = rq_Priority q ∧ rq_CreatedAt q ≤ rq_CreatedAt r)) ∧
    run_queue db' = map (λ r, if (rq_ID r =? rq_ID q0)%N then q else r) (run_queue db).
Proof.
  intros Hnd Htok. unfold DequeueNextRun. cbv zeta. fold (token fresh who).
  destruct (first _) as [next|] eqn:En; [|done].
  destruct (sort_stable_head queue_order queue_order_asym queue_order_negtrans _ _ En) as [Hin Hmin].
  apply select_elem in Hin as [Hin Hq].
  assert (∀ r, r ∈ run_queue db → rq_ID r = rq_ID next → r = next) as Hid.
  { intros r Hr E. by eapply NoDup_map_eq. }
  assert (rq_ClaimedBy next =s "" = true) as Hn by (unfold queued_of in Hq; by apply andb_true_iff in Hq as [_ ->]).
  unfold update_where. case_match eqn:Ec; [done|].
  assert (map (λ r, if (rq_ID r =? rq_ID next)%N && (rq_ClaimedBy r =s "")
                    then claim_queued (token fresh who) (Some now) r else r) (run_queue db) =
          map (λ r, if (rq_ID r =? rq_ID next)%N then claim_queued (token fresh who) (Some now) next else r) (run_queue db)) as Em.
  { apply map_ext_in. intros r Hr%list_elem_of_In. destruct (N.eqb_spec (rq_ID r) (rq_ID next)) as [E|E]; [|done].
    apply Hid in E; [|done]. subst r. by rewrite Hn. }
  rewrite Em. destruct (first (select _ _)) as [x|] eqn:Ef; [|done]. intros E. inversion E; subst x db'.
  apply head_Some_elem_of in Ef. apply select_elem in Ef as [Hx Hcl]. apply list_elem_of_In, in_map_iff in Hx as (r & Hx & Hr).
  apply list_elem_of_In in Hr. destruct (rq_ID r =? rq_ID next)%N; subst.
  - exists next. split; [done|]. split; [done|]. split; [done|]. split; [|done].
    intros r' Hr' Hq'. simpl. apply queue_order_false. apply Hmin.
    + by apply select_elem.
    + apply queue_order_false. lia.
  - apply andb_true_iff in Hcl as [_ Hcl]. apply str_eqb_eq in Hcl. by apply Htok in Hr.
Qed.

Lemma dequeue_takes_best_witness : ∃ q db',
  DequeueNextRun "t" 9 7 "node" (limited_db "queue") = inr (Some q, db') ∧ rq_ID q = 50%N ∧
  ∃ q0, q0 ∈ run_queue (limited_db "queue") ∧ queued_of 7 q0 = true.
Proof.
  eexists _, _. split; [vm_compute; reflexivity|]. split; [reflexivity|].
  destruct (dequeue_takes_best "t" 9 7 "node" (limited_db "queue")
    (mkRunQueue 50 7 BlobEmpty 2 "node" (Some 9) 3)
    (set_run_queue [mkRunQueue 50 7 BlobEmpty 2 "node" (Some 9) 3] (limited_db "queue")))
    as (q0 & H1 & H2 & _).
  - decide_vm.
  - intros r. simpl. rewrite list_elem_of_singleton. intros ->. discriminate.
  - vm_compute. reflexivity.
  - by exists q0.
Defined.

(** * Cancellation *)

(** Everything but the events table. *)
Definition only_events (db db' : DB) : Prop := db' = set_execution_events (execution_events db') db.

#[export] Instance only_events_preorder : PreOrder only_events.
Proof.
  split; [by intros []|]. intros a b c H1 H2. unfold only_events in *. rewrite H2, H1. done.
Qed.

Lemma only_events_append evt : tx_rel only_events (AppendTx evt).
Proof. intros db a db' E. by inversion E. Qed.
#[export] Hint Resolve only_events_append : tx.

Lemma only_events_run ty run : tx_rel only_events (run_event ty run).
Proof. unfold run_event, firstRun. tx_solve. Qed.

Lemma only_events_ready run t : tx_rel only_events (appendTaskReadyEventTx run t).
Proof.
  unfold appendTaskReadyEventTx, stampEventQuarantineTx, runEventQuarantineTx, taskEventQuarantineTx,
    firstTaskRun, firstRun. tx_solve.
Qed.
#[export] Hint Resolve only_events_run only_events_ready : tx.

(** Cancelling an active run settles it completely: afterwards the run is not
    running, none of its tasks is pending or running, and its lease is gone, so
    that no owner can dispatch for it. *)
Lemma cancel_settles_run now run db db' r :
  run ≠ uuid_Nil → r ∈ job_runs db → jr_ID r = run → jr_Status r = StatusRunning →
  CancelRun now run db = inr ((), db') →
  (∀ r', r' ∈ job_runs db' → jr_ID r' = run → jr_Status r' ≠ StatusRunning) ∧
  (∀ t, t ∈ task_runs db' → tr_JobRunID t = run → IsTerminal (tr_Status t) = true) ∧
  (∀ l, l ∈ run_leases db' → rl_RunID l ≠ run).
Proof.
  intros Hnil Hin Hid Hrun E. apply bind_inr in E as (b & d0 & E & [_ ->]%ret_inr).
  apply bind_inr in E as (n & d1 & E1 & E). apply UpdateJobRuns_spec in E1 as (Hn & Ed1 & E1).
  destruct (Nat.eqb_spec n 0) as [Hz|_].
  { exfalso. rewrite Hz in Hn. symmetry in Hn. rewrite countb_0 in Hn. specialize (Hn r Hin). unfold is_run in Hn.
    by rewrite Hid, N.eqb_refl, Hrun in Hn. }
  apply bind_inr in E as (n2 & d2 & E2 & E). apply UpdateTaskRuns_spec in E2 as (_ & Ed2 & E2).
  apply bind_inr in E as ([] & d3 & E3 & E). unfold deleteRunLeaseTx in E3.
  destruct (N.eqb_spec run uuid_Nil); [done|]. inversion E3 as [Ed3]. clear E3.
  match type of E with ?m d3 = _ => assert (tx_rel only_events m) as HR by tx_solve end.
  apply HR in E. rewrite E. split; [|split].
  - intros r'. rewrite <- Ed3, Ed2. simpl. rewrite E1. intros (r0 & -> & _)%list_elem_of_fmap Hid' Hst.
    revert Hid' Hst. destruct (is_run run r0 && (jr_Status r0 =s StatusRunning)) eqn:Ec; [done|].
    intros Hid' Hst. unfold is_run in Ec. by rewrite Hid', N.eqb_refl, Hst in Ec.
  - intros t. rewrite <- Ed3. simpl. intros [i Hi]%list_elem_of_lookup. rewrite E2, Ed1 in Hi. simpl in Hi.
    destruct (task_runs db !! i) as [t0|]; [|done]. injection Hi as <-.
    destruct ((tr_JobRunID t0 =? run)%N && notTerminal t0) eqn:Ec; [done|]. intros Hj. rewrite Hj, N.eqb_refl in Ec.
    simpl in Ec. unfold notTerminal in Ec. apply negb_false_iff, bool_decide_eq_true in Ec. by apply IsTerminal_in.
  - intros l. rewrite <- Ed3. simpl. intros Hl. apply list_elem_of_In, List.filter_In in Hl as [_ Hl].
    by apply negb_true_iff, N.eqb_neq in Hl.
Qed.

Lemma cancel_settles_run_witness : ∃ db',
  CancelRun 9 100 (limited_db "queue") = inr ((), db') ∧
  ∀ t, t ∈ task_runs db' → tr_JobRunID t = 100%N → IsTerminal (tr_Status t) = true.
Proof.
  eexists. split; [vm_compute; reflexivity|].
  eapply (cancel_settles_run 9 100 (limited_db "queue") _
    (mkJobRun 100 7 None 0 StatusRunning 2 BlobEmpty "" false 0 None)).
  - done.
  - by apply list_elem_of_singleton.
  - reflexivity.
  - reflexivity.
  - vm_compute. reflexivity.
Defined.
