(* ===== verification/RetryTheorems.v ===== *)
(** Retrying a finished run (store.go, [retryFromFailure]): which rows are reset,
    what their counters become, and the limits on retries by agents. *)

From S2P Require Import Prelude TriggerRule Tables Store TxLogic RunState TaskOps RunOps Dequeuer RunTheorems.
From S2P Require Import QueueTheorems.

Lemma forTx_cons {A} x (l : list A) (body : A → Tx ()) db db' : forTx (x :: l) body db = inr ((), db') →
  ∃ db1, body x db = inr ((), db1) ∧ forTx l body db1 = inr ((), db').
Proof. intros E. apply bind_inr in E as ([] & db1 & E1 & E2). by exists db1. Qed.

#[local] Arguments Updates : simpl never.

Lemma reset_twice r : Updates reset_columns (Updates reset_columns r) = Updates reset_columns r.
Proof. destruct r. vm_compute. reflexivity. Qed.

(** A run of statements that rewrites each row by [f], leaving the edges. *)
Definition rewrites (f : TaskRun → TaskRun) (db db' : DB) : Prop :=
  task_edges db' = task_edges db ∧ task_runs db' = f <$> task_runs db.

Lemma rewrites_compose f g h db db1 db2 : rewrites f db db1 → rewrites g db1 db2 →
  (∀ r, r ∈ task_runs db → h r = g (f r)) → rewrites h db db2.
Proof.
  intros [E1 F1] [E2 F2] H. split; [congruence|]. rewrite F2, F1, <- list_fmap_compose.
  apply list_fmap_ext. intros i r Hr. symmetry. apply H. by eapply list_elem_of_lookup_2.
Qed.

Lemma update_rewrites p cols db n db' : UpdateTaskRuns p cols db = inr (n, db') →
  rewrites (λ r, if p r then Updates cols r else r) db db'.
Proof. intros E. apply UpdateTaskRuns_spec in E as (_ & -> & E). split; [done|]. by apply lookup_fmap_eq. Qed.

Lemma only_events_rewrites db db' : only_events db db' → rewrites id db db'.
Proof. unfold only_events, rewrites. intros ->. simpl. by rewrite list_fmap_id. Qed.

Definition in_ids (l : list TaskRun) (r : TaskRun) : bool := bool_decide (tr_ID r ∈ map tr_ID l).

Lemma reset_loop l db db' :
  forTx l (λ tr, _ ← UpdateTaskRuns (λ r, (tr_ID r =? tr_ID tr)%N) reset_columns; mret ()) db = inr ((), db') →
  rewrites (λ r, if in_ids l r then Updates reset_columns r else r) db db'.
Proof.
  revert db. induction l as [|x l IH]; intros db.
  { intros [_ ->]%ret_inr. split; [done|]. unfold in_ids. symmetry. etransitivity; [|apply list_fmap_id].
    apply list_fmap_ext. intros i r _. by rewrite bool_decide_eq_false_2 by set_solver. }
  intros (db1 & E1 & E2)%forTx_cons. apply bind_inr in E1 as (n & db2 & E1 & [_ ->]%ret_inr).
  apply update_rewrites in E1. apply IH in E2. eapply rewrites_compose; [exact E1|exact E2|].
  intros r _. unfold in_ids. simpl. destruct (N.eqb_spec (tr_ID r) (tr_ID x)) as [E|E].
  - rewrite bool_decide_eq_true_2 by (rewrite E; set_solver). case_bool_decide; [by rewrite reset_twice|done].
  - rewrite (bool_decide_ext (tr_ID r ∈ tr_ID x :: map tr_ID l) (tr_ID r ∈ map tr_ID l)); [done|].
    rewrite elem_of_cons. tauto.
Qed.

Lemma recount_loop run done_ ids db db' :
  forTx ids (recountTask run done_) db = inr ((), db') →
  rewrites (λ r, if (tr_JobRunID r =? run)%N && bool_decide (tr_TaskID r ∈ ids)
                 then with_OutstandingPredecessors (retryOutstanding done_ (tr_TaskID r) db) r else r) db db'.
Proof.
  revert db. induction ids as [|t ids IH]; intros db.
  { intros [_ ->]%ret_inr. split; [done|]. symmetry. etransitivity; [|apply list_fmap_id].
    apply list_fmap_ext. intros i r _. by rewrite bool_decide_eq_false_2, andb_false_r by set_solver. }
  intros (db1 & E1 & E2)%forTx_cons. apply bind_inr in E1 as (o & d0 & [-> ->]%query_inr & E1).
  apply bind_inr in E1 as (n & d1 & E1 & E3). apply update_rewrites in E1.
  assert (rewrites id d1 db1) as E4.
  { apply only_events_rewrites. revert E3. destruct (_ =? 0); [apply only_events_ready|by intros [_ ->]%ret_inr]. }
  apply IH in E2.
  assert (∀ x, retryOutstanding done_ x db1 = retryOutstanding done_ x db) as Hro.
  { intros x. unfold retryOutstanding. destruct E1 as [E1 _], E4 as [E4 _]. by rewrite E4, E1. }
  eapply rewrites_compose; [eapply (rewrites_compose _ _ _ _ _ _ E1 E4); intros; reflexivity|exact E2|].
  intros r _. unfold Updates. cbn [fold_left id]. rewrite Hro. unfold is_task_run.
  destruct (N.eqb_spec (tr_JobRunID r) run) as [Er|Er]; simpl.
  - destruct (N.eqb_spec (tr_TaskID r) t) as [Et|Et]; simpl.
    + rewrite bool_decide_eq_true_2 by set_solver. rewrite Er, N.eqb_refl, !Et. simpl. by case_bool_decide.
    + rewrite Er, N.eqb_refl. simpl.
      rewrite (bool_decide_ext (tr_TaskID r ∈ t :: ids) (tr_TaskID r ∈ ids)); [done|]. rewrite elem_of_cons. tauto.
  - by destruct (N.eqb_spec (tr_JobRunID r) run).
Qed.

Lemma readmit_rewrites jr admitted db db' : readmitRetryTx jr admitted db = inr ((), db') → rewrites id db db'.
Proof.
  assert (PreOrder (rewrites id)) as HP.
  { split; [split; [done|by rewrite list_fmap_id]|]. intros a b c. unfold rewrites. rewrite !list_fmap_id.
    intros [] []. split; congruence. }
  assert (∀ p f, tx_rel (rewrites id) (UpdateJobRuns p f)) as HU.
  { intros p f d n d' E. apply UpdateJobRuns_spec in E as (_ & -> & _). split; [done|]. simpl. by rewrite list_fmap_id. }
  assert (tx_rel (rewrites id) (readmitRetryTx jr admitted)) as HR; [|by intros E; eapply HR].
  unfold readmitRetryTx. cbv zeta.
  assert (∀ k, tx_rel (rewrites id) (concurrencyConfigTx k)) as HC.
  { intros k d r d' E. apply concurrencyConfigTx_same in E as ->. reflexivity. }
  tx_solve; try apply HU; apply HC.
Qed.

(** Tasks of the run that had ended in success. *)
Definition succeeded_tasks (run : uuid) (db : DB) : list uuid :=
  map tr_TaskID (List.filter (λ r, IsTerminalSuccess (tr_Status r))
    (select (λ r, (tr_JobRunID r =? run)%N) (task_runs db))).

(** C28: retrying a finished run resets exactly its failed and skipped tasks, each
    to a first attempt with no claim, result or error and with a counter equal to
    the number of its predecessor edges whose source had not succeeded; every
    other row of the database, the successful and cached tasks of the run
    included, is untouched. *)
Theorem retry_resets_failed run admitted db db' (i : nat) r :
  NoDup (map tr_ID (task_runs db)) → NoDup (map task_key (task_runs db)) →
  retryFromFailure run admitted db = inr ((), db') → task_runs db !! i = Some r →
  task_runs db' !! i = Some
    (if (tr_JobRunID r =? run)%N && needs_reset r
     then with_OutstandingPredecessors (retryOutstanding (succeeded_tasks run db) (tr_TaskID r) db)
            (Updates reset_columns r)
     else r).
Proof.
  intros Hid Hkey E Hi. apply bind_inr in E as (jr & d0 & E0 & E).
  assert (d0 = db) as -> by (revert E0; unfold firstRun, First; destruct (first _); intros E0; by inversion E0).
  destruct (negb _ && negb _); [done|]. apply bind_inr in E as ([] & d1 & E1 & E).
  assert (d1 = db) as ->.
  { destruct admitted; [|by apply ret_inr in E1 as [_ ->]]. apply bind_inr in E1 as (job & d2 & E2 & E3).
    unfold First in E2. destruct (first _); [|done]. inversion E2; subst. destruct (j_Paused job); [done|].
    by apply ret_inr in E3 as [_ ->]. }
  apply bind_inr in E as ([] & d2 & E2 & E). apply readmit_rewrites in E2 as [Ee2 Er2]. rewrite list_fmap_id in Er2.
  apply bind_inr in E as (trs & d3 & [-> ->]%query_inr & E). rewrite Er2 in E.
  apply bind_inr in E as ([] & d4 & E4 & E). apply reset_loop in E4.
  apply bind_inr in E as ([] & d5 & E5 & E). apply recount_loop in E5.
  apply only_events_run, only_events_rewrites in E.
  set (reset := List.filter needs_reset (select (λ r, (tr_JobRunID r =? run)%N) (task_runs db))) in *.
  destruct E as [_ E], E5 as [_ E5], E4 as [Ee4 E4]. rewrite list_fmap_id in E.
  rewrite E, E5, E4, Er2, !list_lookup_fmap, Hi. simpl. f_equal.
  assert (∀ x, x ∈ reset ↔ x ∈ task_runs db ∧ (tr_JobRunID x =? run)%N = true ∧ needs_reset x = true) as Hreset.
  { intros x. unfold reset. rewrite list_elem_of_In, List.filter_In, <- list_elem_of_In, select_elem. tauto. }
  assert (r ∈ task_runs db) as Hr by (by eapply list_elem_of_lookup_2).
  assert (in_ids reset r = (tr_JobRunID r =? run)%N && needs_reset r) as Hin.
  { unfold in_ids. apply eq_true_iff_eq. rewrite bool_decide_eq_true, andb_true_iff. split.
    - intros (x & Hx & Hxr)%list_elem_of_In%in_map_iff. apply list_elem_of_In, Hreset in Hxr as (Hx1 & Hx2).
      by rewrite (NoDup_map_eq tr_ID (task_runs db) r x).
    - intros H. apply list_elem_of_In, in_map, list_elem_of_In, Hreset. done. }
  assert ((tr_JobRunID r =? run)%N && bool_decide (tr_TaskID r ∈ map tr_TaskID reset) =
          (tr_JobRunID r =? run)%N && needs_reset r) as Hts.
  { destruct (N.eqb_spec (tr_JobRunID r) run) as [Ej|]; [|done]. simpl. apply eq_true_iff_eq. rewrite bool_decide_eq_true. split.
    - intros (x & Hx & Hxr)%list_elem_of_In%in_map_iff. apply list_elem_of_In, Hreset in Hxr as (Hx1 & Hx2 & Hx3).
      rewrite (NoDup_map_eq task_key (task_runs db) r x); [done|done|done|done|]. unfold task_key. bool_prop. congruence.
    - intros H. apply list_elem_of_In, in_map, list_elem_of_In, Hreset. by rewrite Ej, N.eqb_refl. }
  assert (∀ x, retryOutstanding (map tr_TaskID (List.filter (λ r, IsTerminalSuccess (tr_Status r))
    (select (λ r, (tr_JobRunID r =? run)%N) (task_runs db)))) x d4 =
    retryOutstanding (succeeded_tasks run db) x db) as Hro.
  { intros x. unfold retryOutstanding. by rewrite Ee4, Ee2. }
  rewrite Hin. destruct ((tr_JobRunID r =? run)%N && needs_reset r) eqn:Ec.
  - simpl. rewrite Hts, Hro. reflexivity.
  - by rewrite Hts.
Qed.

(** A failed run: task 1 succeeded, task 2 failed, task 3 was skipped. *)
Definition failed_row (task : uuid) (status : TaskStatus) : TaskRun :=
  mkTaskRun (200 + task) 100 task status "w" None 1 None 2 2 "" None None false None None None
    "" false "boom" "" 0 1 0 None (Some 8) 0 false NoDescriptor ∅.

Definition failed_db (paused : bool) : DB :=
  mkDB [mkJob 7 "etl" 0 "" (BlobJson (JObj [("maxRuns", JNum 1)])) paused] []
    [mkTaskEdge 7 1 2; mkTaskEdge 7 2 3]
    [mkJobRun 100 7 None 0 StatusFailed 2 BlobEmpty "boom" false 0 (Some 9)]
    [failed_row 1 TaskStatusSucceeded; failed_row 2 TaskStatusFailed; failed_row 3 TaskStatusSkipped]
    [] [] [] [].

Lemma retry_resets_failed_witness : ∃ db',
  retryFromFailure 100 false (failed_db false) = inr ((), db') ∧
  map tr_Status (task_runs db') = [TaskStatusSucceeded; TaskStatusPending; TaskStatusPending] ∧
  map tr_OutstandingPredecessors (task_runs db') = [0; 0; 1] ∧
  task_runs db' !! 0%nat = Some (failed_row 1 TaskStatusSucceeded).
Proof.
  eexists. split; [vm_compute; reflexivity|]. split; [reflexivity|]. split; [reflexivity|].
  apply (retry_resets_failed 100 false (failed_db false) _ 0 (failed_row 1 TaskStatusSucceeded)).
  - decide_vm.
  - decide_vm.
  - vm_compute. reflexivity.
  - reflexivity.
Defined.

(** The conditional flip of a retried run stays within the limit. *)
Lemma readmit_bounded j cfg jr db db' : policy j db cfg → jr_JobID jr = j → jr_Quarantine jr = false →
  readmitRetryTx jr true db = inr ((), db') →
  NoDup (map jr_ID (job_runs db)) → jr ∈ job_runs db →
  Z.of_nat (CountActive j db') ≤ Z.max (Z.of_nat (CountActive j db)) (cc_maxRuns cfg).
Proof.
  intros HP Hj Hq. unfold readmitRetryTx. cbv zeta. rewrite Hq. simpl. intros E Hnd Hin.
  apply bind_inr in E as (c & d0 & E0 & E). rewrite Hj in E0. unfold policy in HP. rewrite HP in E0. inversion E0; subst c d0.
  apply bind_inr in E as (a & d1 & [-> ->]%query_inr & E). apply bind_inr in E as (n & d2 & E2 & E).
  apply UpdateJobRuns_spec in E2 as (_ & _ & E2). destruct (negb _); [done|]. apply ret_inr in E as [_ ->].
  set (others := countb _ (job_runs db)) in *.
  assert (∀ l, NoDup (map jr_ID l) →
    (countb (active_run j) ((λ r, if is_run (jr_ID jr) r &&
       ((jr_Status r =s StatusFailed) || (jr_Status r =s StatusSucceeded)) && (Z.of_nat others <? cc_maxRuns cfg)%Z
       then reopen_run r else r) <$> l) ≤
     if (Z.of_nat others <? cc_maxRuns cfg)%Z && bool_decide (jr_ID jr ∈ map jr_ID l)
     then S (countb (λ r, active_run j r && negb (is_run (jr_ID jr) r)) l)
     else countb (active_run j) l)%nat) as Hcount.
  { clear. intros l. induction l as [|r l IH]; [intros _; case_match; unfold countb; simpl; lia|].
    rewrite map_cons, NoDup_cons. intros [Hn Hnd]. specialize (IH Hnd). rewrite fmap_cons, !countb_cons.
    unfold is_run in *. destruct (N.eqb_spec (jr_ID r) (jr_ID jr)) as [E|E].
    - rewrite (bool_decide_eq_false_2 (jr_ID jr ∈ map jr_ID l)), andb_false_r in IH by (by rewrite <- E).
      assert (countb (active_run j) l = countb (λ r0, active_run j r0 && negb (jr_ID r0 =? jr_ID jr)%N) l) as Hc.
      { apply countb_ext. intros x Hx. destruct (N.eqb_spec (jr_ID x) (jr_ID jr)) as [Ex|Ex]; [|by rewrite andb_true_r].
        exfalso. apply Hn. rewrite E, <- Ex. by apply list_elem_of_In, in_map, list_elem_of_In. }
      rewrite (bool_decide_eq_true_2 (jr_ID jr ∈ jr_ID r :: map jr_ID l)) by (rewrite E; set_solver).
      rewrite !andb_true_r. destruct (Z.of_nat others <? cc_maxRuns cfg); simpl.
      + rewrite andb_false_r. destruct (active_run j _); lia.
      + rewrite andb_false_r. destruct (active_run j r); lia.
    - rewrite (bool_decide_ext (jr_ID jr ∈ jr_ID r :: map jr_ID l) (jr_ID jr ∈ map jr_ID l))
        by (rewrite elem_of_cons; naive_solver).
      simpl. destruct (_ && bool_decide _); destruct (active_run j r); simpl; lia. }
  specialize (Hcount (job_runs db) Hnd). unfold CountActive. rewrite E2.
  destruct (Z.ltb_spec (Z.of_nat others) (cc_maxRuns cfg)) as [Hlt|Hge].
  - rewrite bool_decide_eq_true_2 in Hcount by (by apply list_elem_of_In, in_map, list_elem_of_In). simpl in Hcount. subst others.
    rewrite Hj in Hlt. lia.
  - simpl in Hcount. lia.
Qed.

(** A retry by an agent can neither override a human pause nor the job's
    concurrency: it is refused while the job is paused, and otherwise leaves the
    number of active runs of the job within its limit. *)
Lemma agent_retry_limits run db jr job cfg r :
  NoDup (map jr_ID (job_runs db)) → first (select (is_run run) (job_runs db)) = Some jr →
  jr_Quarantine jr = false →
  first (select (λ j, (j_ID j =? jr_JobID jr)%N) (jobs db)) = Some job → policy (jr_JobID jr) db cfg →
  RetryFromFailureAdmitted run db = r →
  match r with
  | inl _ => True
  | inr (_, db') =>
      j_Paused job = false ∧
      Z.of_nat (CountActive (jr_JobID jr) db') ≤
        Z.max (Z.of_nat (CountActive (jr_JobID jr) db)) (cc_maxRuns cfg)
  end.
Proof.
  intros Hnd Hf Hq Hjob HP E. destruct r as [e|[[] db']]; [done|]. apply bind_inr in E as (jr' & d0 & E0 & E).
  unfold firstRun, First in E0. rewrite Hf in E0. inversion E0; subst jr' d0. clear E0.
  destruct (negb _ && negb _); [done|]. apply bind_inr in E as ([] & d1 & E1 & E).
  apply bind_inr in E1 as (job' & d2 & E2 & E3). unfold First in E2. rewrite Hjob in E2. inversion E2; subst job' d2. clear E2.
  destruct (j_Paused job); [done|]. apply ret_inr in E3 as [_ ->]. split; [done|].
  apply bind_inr in E as ([] & d2 & E2 & E).
  assert (jr ∈ job_runs db) as Hin by (apply head_Some_elem_of, select_elem in Hf; apply Hf).
  pose proof (readmit_bounded _ _ _ _ _ HP eq_refl Hq E2 Hnd Hin) as Hb.
  match type of E with ?m d2 = _ => assert (tx_rel same_job_runs m) as HR end.
  { unfold recountTask, appendTaskReadyEventTx, stampEventQuarantineTx, runEventQuarantineTx, taskEventQuarantineTx,
      firstTaskRun, firstRun. tx_solve. }
  apply HR in E. by rewrite (same_job_runs_active _ _ _ E).
Qed.

Lemma agent_retry_limits_witness :
  RetryFromFailureAdmitted 100 (failed_db true) = inl ErrJobPaused ∧
  match RetryFromFailureAdmitted 100 (failed_db false) with
  | inl _ => True
  | inr (_, db') => false = false ∧ Z.of_nat (CountActive 7 db') ≤ Z.max 0 1
  end.
Proof.
  split; [vm_compute; reflexivity|].
  apply (agent_retry_limits 100 (failed_db false)
    (mkJobRun 100 7 None 0 StatusFailed 2 BlobEmpty "boom" false 0 (Some 9))
    (mkJob 7 "etl" 0 "" (BlobJson (JObj [("maxRuns", JNum 1)])) false) (mkConcurrencyConfig 1 "queue")).
  - decide_vm.
  - reflexivity.
  - reflexivity.
  - reflexivity.
  - reflexivity.
  - reflexivity.
Defined.
