(* ===== verification/RunStateInv.v ===== *)
(** The invariant of the owner's in-memory state and its preservation by every
    primitive transition of owner_state.go. [base rs q rem] describes the state
    in the middle of an advancement: [q] holds the finished tasks whose
    successors have not been visited yet, [rem] the successors of the task being
    processed that are still to be visited; between two operations both are
    empty. *)

From S2P Require Import Prelude TriggerRule RunState.

(** * Observations *)

Definition live_at (rs : RunState) (t : uuid) : bool :=
  match tasks rs !! t with Some ts => negb (IsTerminal (Status ts)) | None => false end.

Definition terminal_at (rs : RunState) (t : uuid) : bool :=
  match tasks rs !! t with Some ts => IsTerminal (Status ts) | None => false end.

Definition has_status (rs : RunState) (t : uuid) (s : TaskStatus) : Prop :=
  ∃ ts, tasks rs !! t = Some ts ∧ Status ts = s.

(** Predecessor [p] has not been accounted for in its successors' counters. *)
Definition waiting (rs : RunState) (q : list uuid) (p : uuid) : bool :=
  live_at rs p || bool_decide (p ∈ q).

Definition outcome_of (ots : option OwnerTaskState) : option TaskStatus :=
  match ots with
  | Some ts => if IsTerminal (Status ts) then Some (Status ts) else None
  | None => None
  end.

(** * Well-formed topologies: the two edge maps agree edge by edge and name only
    tasks of the run. *)
Record topo_wf (t : RunTopology) : Prop := {
  tw_edges : ∀ p s, occ s (adjacency_of t p) = occ p (predecessors_of t s);
  tw_closed : ∀ p s, p ∈ predecessors_of t s → p ∈ dom (Order t) ∧ s ∈ dom (Order t);
}.

Definition not_later (t : RunTopology) : uuid → uuid → Prop := not_after (order_less t).

(** * The invariant *)

Record base (rs : RunState) (q rem : list uuid) : Prop := {
  b_topo : topo_wf (topo rs);
  b_dom : dom (tasks rs) = dom (Order (topo rs));
  b_status : ∀ t ts, tasks rs !! t = Some ts →
    IsTerminal (Status ts) = true ∨ Status ts = TaskStatusPending ∨ Status ts = TaskStatusRunning;
  b_out : ∀ t, outcomes rs !! t = outcome_of (tasks rs !! t);
  b_indeg : ∀ t, live_at rs t = true →
    indegree_of rs t =
      Z.of_nat (countb (waiting rs q) (predecessors_of (topo rs) t) + occ t rem);
  b_in : ∀ t, t ∈ inReady rs ↔ t ∈ ready rs;
  b_nodup : NoDup (ready rs);
  b_sorted : StronglySorted (not_later (topo rs)) (ready rs);
  b_ready : ∀ t, t ∈ ready rs →
    has_status rs t TaskStatusPending ∧ indegree_of rs t = 0 ∧ triggerSatisfied t rs = true;
  b_running : ∀ t, has_status rs t TaskStatusRunning →
    indegree_of rs t = 0 ∧ triggerSatisfied t rs = true;
  b_queue : ∀ t, t ∈ q → terminal_at rs t = true;
  b_qnodup : NoDup q;
  b_count : terminalCount rs + Z.of_nat (live_tasks rs) = total rs;
  b_total : total rs = Z.of_nat (size (tasks rs));
}.

(** Every pending task whose predecessors are all accounted for is queued. *)
Definition progress (rs : RunState) : Prop :=
  ∀ t, has_status rs t TaskStatusPending → indegree_of rs t = 0 → t ∈ ready rs.

(** The same for tasks whose trigger rule holds: what a replay guarantees. *)
Definition progress_sat (rs : RunState) : Prop :=
  ∀ t, has_status rs t TaskStatusPending → indegree_of rs t = 0 →
    triggerSatisfied t rs = true → t ∈ ready rs.

(** The owner's state between two operations. *)
Definition owner_inv (rs : RunState) : Prop := base rs [] [] ∧ progress rs.

(** * Basic facts *)

Lemma live_has rs t : live_at rs t = true →
  ∃ ts, tasks rs !! t = Some ts ∧ IsTerminal (Status ts) = false.
Proof.
  unfold live_at. destruct (tasks rs !! t) as [ts|]; [|done].
  intros H. exists ts. split; [done|]. by apply negb_true_iff.
Qed.

Lemma pending_live rs t : has_status rs t TaskStatusPending → live_at rs t = true.
Proof. intros (ts & H & E). unfold live_at. by rewrite H, E. Qed.

Lemma running_live rs t : has_status rs t TaskStatusRunning → live_at rs t = true.
Proof. intros (ts & H & E). unfold live_at. by rewrite H, E. Qed.

Lemma terminal_not_live rs t : terminal_at rs t = true → live_at rs t = false.
Proof. unfold terminal_at, live_at. destruct (tasks rs !! t); [|done]. by intros ->. Qed.

#[export] Hint Resolve pending_live running_live terminal_not_live : caesium.

Lemma order_less_asym t x y : order_less t x y = true → order_less t y x = false.
Proof. unfold order_less. rewrite Z.ltb_lt, Z.ltb_ge. lia. Qed.

Lemma order_less_negtrans t x y z :
  order_less t y x = false → order_less t z y = false → order_less t z x = false.
Proof. unfold order_less. rewrite !Z.ltb_ge. lia. Qed.

Section facts.
Context {rs : RunState} {q rem : list uuid} (B : base rs q rem).

Lemma live_pending t : live_at rs t = true → 0 < indegree_of rs t →
  has_status rs t TaskStatusPending.
Proof using B.
  intros (ts & Hts & Hl)%live_has Hpos.
  destruct (b_status _ _ _ B t ts Hts) as [?|[E|E]]; [congruence|by exists ts|].
  assert (has_status rs t TaskStatusRunning) as Hr by (by exists ts).
  apply (b_running _ _ _ B) in Hr. lia.
Qed.

(** A task with a zero counter has no predecessor left to wait for. *)
Lemma zero_no_waiting t p : live_at rs t = true → indegree_of rs t = 0 →
  p ∈ predecessors_of (topo rs) t → waiting rs q p = false.
Proof using B.
  intros Hl Hz Hp. rewrite (b_indeg _ _ _ B t Hl) in Hz.
  assert (countb (waiting rs q) (predecessors_of (topo rs) t) = 0%nat) as H0 by lia.
  rewrite countb_0 in H0. by apply H0.
Qed.

Lemma zero_not_live_pred t p : live_at rs t = true → indegree_of rs t = 0 →
  p ∈ predecessors_of (topo rs) t → live_at rs p = false.
Proof using B.
  intros Hl Hz Hp. pose proof (zero_no_waiting t p Hl Hz Hp) as H.
  unfold waiting in H. by apply orb_false_iff in H as [??].
Qed.

Lemma not_ready_pos t : 0 < indegree_of rs t → t ∉ ready rs.
Proof using B. intros H Hr. apply (b_ready _ _ _ B) in Hr. lia. Qed.
End facts.

Lemma removeReady_eq rs t : (∀ u, u ∈ inReady rs ↔ u ∈ ready rs) →
  removeReady t rs = set_ready (remove_first t (ready rs)) (inReady rs ∖ {[t]}) rs.
Proof.
  intros Hin. unfold removeReady. case_bool_decide as H; [done|].
  assert (t ∉ ready rs) as Hr by (by rewrite <- Hin).
  rewrite (remove_first_notin t) by done.
  replace (inReady rs ∖ {[t]}) with (inReady rs) by set_solver. by destruct rs.
Qed.

(** * Counting live tasks *)

Lemma live_tasks_insert rs x ts ts' :
  tasks rs !! x = Some ts →
  (live_tasks (set_tasks (<[x := ts']> (tasks rs)) rs) + (if IsTerminal (Status ts) then 0 else 1)
   = live_tasks rs + (if IsTerminal (Status ts') then 0 else 1))%nat.
Proof.
  intros Hx. unfold live_tasks; simpl.
  set (P := λ kv : uuid * OwnerTaskState, IsTerminal (Status kv.2) = false).
  rewrite <- (insert_id (tasks rs) x ts Hx) at 2.
  rewrite <- !(insert_delete_eq (tasks rs)).
  assert (∀ v, size (filter P (<[x := v]> (delete x (tasks rs)))) =
    (size (filter P (delete x (tasks rs))) + if IsTerminal (Status v) then 0 else 1)%nat) as H.
  { intros v. destruct (IsTerminal (Status v)) eqn:E.
    - rewrite map_filter_insert_False by (unfold P; simpl; congruence).
      rewrite delete_delete_eq. lia.
    - rewrite map_filter_insert_True by done. rewrite map_size_insert_None; [lia|].
      apply map_lookup_filter_None_2. left. apply lookup_delete_eq. }
  rewrite !H. lia.
Qed.

(** * Finishing a task *)

(** The common part of [markTerminal] and [ApplyTerminalRow]. *)
Definition settleTask (x : uuid) (s : TaskStatus) (ts : OwnerTaskState) (rs : RunState) : RunState :=
  let rs := set_tasks (<[x := settle s ts]> (tasks rs)) rs in
  let rs := set_outcomes (<[x := s]> (outcomes rs)) rs in
  let rs := removeReady x rs in
  set_terminalCount (terminalCount rs + 1) rs.

Lemma markTerminal_live x s ts rs :
  tasks rs !! x = Some ts → IsTerminal (Status ts) = false →
  markTerminal x s rs = (settleTask x s ts (set_seq (seq rs + 1) rs), seq rs + 1).
Proof.
  intros Hx Hl. unfold markTerminal, settleTask. rewrite Hx, Hl.
  unfold removeReady; simpl. by case_bool_decide.
Qed.

Lemma base_set_seq rs q rem n : base rs q rem → base (set_seq n rs) q rem.
Proof. intros B. by destruct B; constructor. Qed.

(** The observable effect of [settleTask] when the ready set matches the queue. *)
Definition settled (x : uuid) (s : TaskStatus) (ts : OwnerTaskState) (rs : RunState) : RunState :=
  mkRunState (topo rs) (<[x := settle s ts]> (tasks rs)) (indegree rs)
    (<[x := s]> (outcomes rs)) (remove_first x (ready rs)) (inReady rs ∖ {[x]})
    (seq rs) (terminalCount rs + 1) (total rs).

Lemma settleTask_eq x s ts rs : (∀ u, u ∈ inReady rs ↔ u ∈ ready rs) →
  settleTask x s ts rs = settled x s ts rs.
Proof. intros H. unfold settleTask. by rewrite removeReady_eq. Qed.

Lemma settled_live x s ts rs t : IsTerminal s = true →
  live_at (settled x s ts rs) t = if (t =? x)%N then false else live_at rs t.
Proof.
  intros Hs. unfold live_at; simpl. rewrite lookup_insert.
  destruct (N.eqb_spec t x) as [->|Hne].
  - rewrite decide_True by done. simpl. by rewrite Hs.
  - by rewrite decide_False.
Qed.

Lemma settled_status x s ts rs t s' : IsTerminal s' = false → IsTerminal s = true →
  has_status (settled x s ts rs) t s' ↔ t ≠ x ∧ has_status rs t s'.
Proof.
  intros Hs' Hs. unfold has_status; simpl. rewrite lookup_insert. split.
  - intros (ts' & H & E). case_decide; [|naive_solver].
    simplify_eq/=. congruence.
  - intros (Hne & ts' & H & E). rewrite decide_False by congruence. eauto.
Qed.

Lemma settled_waiting x s ts rs q p : IsTerminal s = true → live_at rs x = true →
  waiting (settled x s ts rs) (q ++ [x]) p = waiting rs q p.
Proof.
  intros Hs Hl. unfold waiting. rewrite settled_live by done.
  destruct (N.eqb_spec p x) as [->|Hne].
  - rewrite Hl. simpl. apply bool_decide_eq_true. set_solver.
  - f_equal. apply bool_decide_ext. set_solver.
Qed.

(** A task whose counter is zero keeps its trigger verdict when another live
    task finishes. *)
Lemma settled_trigger x s ts rs q rem t : base rs q rem → live_at rs x = true →
  live_at rs t = true → indegree_of rs t = 0 →
  triggerSatisfied t (settled x s ts rs) = triggerSatisfied t rs.
Proof.
  intros B Hx Ht Hz. unfold triggerSatisfied; simpl. f_equal.
  apply Collect_ext. intros p Hp. rewrite lookup_insert_ne; [done|].
  intros <-. pose proof (zero_not_live_pred B t x Ht Hz Hp). congruence.
Qed.

Lemma settled_out x s ts rs : IsTerminal s = true →
  (∀ t, outcomes rs !! t = outcome_of (tasks rs !! t)) →
  ∀ t, outcomes (settled x s ts rs) !! t = outcome_of (tasks (settled x s ts rs) !! t).
Proof.
  intros Hs H t. simpl. rewrite !lookup_insert. case_decide; [|done].
  simpl. by rewrite Hs.
Qed.

Lemma live_tasks_eq rs rs' : tasks rs = tasks rs' → live_tasks rs = live_tasks rs'.
Proof. unfold live_tasks. by intros ->. Qed.

Lemma settled_live_tasks x s ts rs : tasks rs !! x = Some ts →
  IsTerminal (Status ts) = false → IsTerminal s = true →
  live_tasks rs = S (live_tasks (settled x s ts rs)).
Proof.
  intros Hx Hl Hs. pose proof (live_tasks_insert rs x ts (settle s ts) Hx) as H.
  rewrite Hl in H. simpl in H. rewrite Hs in H.
  rewrite (live_tasks_eq (settled x s ts rs) (set_tasks (<[x:=settle s ts]> (tasks rs)) rs))
    by done. lia.
Qed.

Lemma settle_base x s ts rs q rem : base rs q rem →
  tasks rs !! x = Some ts → IsTerminal (Status ts) = false → IsTerminal s = true →
  base (settleTask x s ts rs) (q ++ [x]) rem.
Proof.
  intros B Hx Hl Hs. rewrite settleTask_eq by apply B.
  assert (live_at rs x = true) as Hlx by (unfold live_at; by rewrite Hx, Hl).
  assert (∀ t, t ≠ x → live_at rs t = true → indegree_of rs t = 0 →
    triggerSatisfied t (settled x s ts rs) = triggerSatisfied t rs) as Htr
    by (intros; eapply settled_trigger; eauto).
  constructor.
  - apply B.
  - simpl. rewrite dom_insert_lookup_L by (by eexists). apply B.
  - simpl. intros t ts'. rewrite lookup_insert. case_decide; intros ?; simplify_eq/=; [by left|].
    by eapply B.
  - apply settled_out; [done|apply B].
  - intros t. rewrite settled_live by done. destruct (t =? x)%N; [done|]. intros Ht.
    rewrite (countb_ext _ (waiting rs q)) by (intros; by apply settled_waiting).
    by apply (b_indeg _ _ _ B).
  - intros t. simpl. rewrite remove_first_elem by apply B.
    rewrite elem_of_difference, (b_in _ _ _ B). set_solver.
  - simpl. apply remove_first_nodup, B.
  - simpl. apply remove_first_sorted, B.
  - intros t. simpl. rewrite remove_first_elem by apply B. intros [Ht Hne].
    destruct (b_ready _ _ _ B t Ht) as (Hp & Hz & Hsat).
    split; [by apply settled_status|]. split; [done|]. rewrite Htr; auto with caesium.
  - intros t. rewrite settled_status by done. intros [Hne Hr].
    destruct (b_running _ _ _ B t Hr) as (Hz & Hsat).
    split; [done|]. rewrite Htr; auto with caesium.
  - intros t. unfold terminal_at; simpl. rewrite elem_of_app, list_elem_of_singleton, lookup_insert.
    case_decide as E; [by subst|]. intros [Ht|]; [by apply (b_queue _ _ _ B)|congruence].
  - apply NoDup_app. split; [apply B|]. split; [|apply NoDup_singleton].
    intros t Ht. apply (b_queue _ _ _ B), terminal_not_live in Ht.
    rewrite list_elem_of_singleton. intros ->. congruence.
  - simpl. pose proof (b_count _ _ _ B) as H.
    rewrite (settled_live_tasks x s ts rs) in H by done. lia.
  - simpl. rewrite map_size_insert_Some by (by eexists). apply B.
Qed.

(** * Visiting a successor *)

(** Nothing to count down for a successor that is unknown or finished. *)
Lemma skip_base succ rs q rem : base rs q (succ :: rem) → live_at rs succ = false →
  base rs q rem.
Proof.
  intros B Hl. destruct B; constructor; try done.
  intros t Ht. rewrite b_indeg0 by done. simpl.
  destruct (N.eqb_spec succ t); [congruence|done].
Qed.

Lemma indegree_set_other rs t succ v : t ≠ succ →
  indegree_of (set_indegree (<[succ := v]> (indegree rs)) rs) t = indegree_of rs t.
Proof. intros H. unfold indegree_of, map_get; simpl. by rewrite lookup_insert_ne. Qed.

Lemma indegree_set_same rs succ v :
  indegree_of (set_indegree (<[succ := v]> (indegree rs)) rs) succ = v.
Proof. unfold indegree_of, map_get; simpl. by rewrite lookup_insert_eq. Qed.

Lemma rem_positive rs q rem succ : base rs q (succ :: rem) → live_at rs succ = true →
  0 < indegree_of rs succ.
Proof.
  intros B Hl. rewrite (b_indeg _ _ _ B succ Hl). simpl. rewrite N.eqb_refl. lia.
Qed.

Lemma decIndegree_live rs q rem succ : base rs q (succ :: rem) → live_at rs succ = true →
  decIndegree succ rs =
    set_indegree (<[succ := indegree_of rs succ - 1]> (indegree rs)) rs.
Proof.
  intros B Hl. unfold decIndegree. pose proof (rem_positive _ _ _ _ B Hl).
  by destruct (Z.ltb_spec 0 (indegree_of rs succ)); [|lia].
Qed.

Lemma dec_base succ rs q rem : base rs q (succ :: rem) → live_at rs succ = true →
  base (decIndegree succ rs) q rem.
Proof.
  intros B Hl. pose proof (rem_positive _ _ _ _ B Hl) as Hpos.
  rewrite (decIndegree_live _ _ _ _ B Hl).
  constructor; try apply B.
  - intros t Ht. change (live_at rs t = true) in Ht.
    pose proof (b_indeg _ _ _ B t Ht) as Hd. simpl in Hd.
    destruct (N.eqb_spec succ t) as [->|Hne].
    + rewrite indegree_set_same. unfold waiting, live_at in *; simpl in *. lia.
    + rewrite indegree_set_other by congruence. exact Hd.
  - intros t Ht. destruct (b_ready _ _ _ B t Ht) as (? & ? & ?). repeat split; try done.
    rewrite indegree_set_other; [done|]. intros ->. lia.
  - intros t Ht. destruct (b_running _ _ _ B t Ht) as (? & ?). split; [|done].
    rewrite indegree_set_other; [done|]. intros ->. lia.
Qed.

Lemma pushReady_base succ rs q rem : base rs q rem →
  has_status rs succ TaskStatusPending → indegree_of rs succ = 0 →
  triggerSatisfied succ rs = true → base (pushReady succ rs) q rem.
Proof.
  intros B Hp Hz Hsat. unfold pushReady. case_bool_decide as Hin; [done|].
  destruct Hp as (ts & Hts & Hst). rewrite Hts, Hst. simpl.
  assert (sort_stable (order_less (topo rs)) (ready rs ++ [succ]) ≡ₚ succ :: ready rs) as HP.
  { rewrite sort_stable_perm. symmetry. apply Permutation_cons_append. }
  assert (succ ∉ ready rs) as Hnr by (by rewrite <- (b_in _ _ _ B)).
  constructor; try apply B; simpl.
  - intros t. rewrite HP, elem_of_union, elem_of_singleton, elem_of_cons, (b_in _ _ _ B). done.
  - rewrite HP. constructor; [done|apply B].
  - apply sort_stable_sorted; eauto using order_less_asym, order_less_negtrans.
  - intros t Ht. rewrite HP, elem_of_cons in Ht.
    destruct Ht as [->|Ht]; [|by apply (b_ready _ _ _ B)].
    repeat split; try done. by exists ts.
Qed.

Lemma pushReady_elem succ rs t : has_status rs succ TaskStatusPending →
  (∀ u, u ∈ inReady rs ↔ u ∈ ready rs) →
  t ∈ ready (pushReady succ rs) ↔ t = succ ∨ t ∈ ready rs.
Proof.
  intros (ts & Hts & Hst) Hin. unfold pushReady. case_bool_decide as H.
  - rewrite Hin in H. naive_solver.
  - rewrite Hts, Hst. simpl. rewrite sort_stable_perm, elem_of_app, list_elem_of_singleton.
    naive_solver.
Qed.

(** The three outcomes of visiting a live successor. *)
Inductive visit_result (rs : RunState) (succ : uuid) : Prop :=
| vr_skip : live_at rs succ = false → visit_result rs succ
| vr_live rs1 ts : live_at rs succ = true → rs1 = decIndegree succ rs →
    tasks rs !! succ = Some ts → has_status rs1 succ TaskStatusPending → visit_result rs succ.

Lemma visit_cases rs q rem succ : base rs q (succ :: rem) → visit_result rs succ.
Proof.
  intros B. destruct (live_at rs succ) eqn:E; [|by apply vr_skip].
  destruct (live_has _ _ E) as (ts & Hts & _).
  pose proof (rem_positive _ _ _ _ B E) as Hpos.
  pose proof (live_pending B succ E Hpos) as Hp.
  eapply vr_live; [done|done|exact Hts|].
  rewrite (decIndegree_live _ _ _ _ B E). exact Hp.
Qed.

(** [visitSuccessor] unfolded once the status of the successor is known. *)
Lemma visit_dead a succ : live_at (adv_rs a) succ = false → visitSuccessor a succ = a.
Proof.
  unfold visitSuccessor, live_at. destruct (tasks (adv_rs a) !! succ) as [st|]; [|done].
  rewrite negb_false_iff. by intros ->.
Qed.

Lemma dec_tasks succ rs : tasks (decIndegree succ rs) = tasks rs.
Proof. unfold decIndegree. by case_match. Qed.

Lemma dec_topo succ rs : topo (decIndegree succ rs) = topo rs.
Proof. unfold decIndegree. by case_match. Qed.

Lemma visit_live a succ ts : tasks (adv_rs a) !! succ = Some ts →
  IsTerminal (Status ts) = false →
  visitSuccessor a succ =
    (let rs := decIndegree succ (adv_rs a) in
     if negb (indegree_of rs succ =? 0)
     then mkAdvance rs (adv_queue a) (adv_ready a) (adv_skipped a)
     else if triggerSatisfied succ rs
     then mkAdvance (pushReady succ rs) (adv_queue a) (adv_ready a ++ [succ]) (adv_skipped a)
     else mkAdvance (settleTask succ TaskStatusSkipped ts (set_seq (seq rs + 1) rs))
            (adv_queue a ++ [succ]) (adv_ready a)
            (adv_skipped a ++ [mkSkippedTask succ (seq rs + 1)
                                 (ruleReason (rule_of (topo rs) succ))])).
Proof.
  intros Hts Hl. unfold visitSuccessor. rewrite Hts, Hl. cbn zeta.
  case_match; [done|]. case_match; [done|].
  rewrite (markTerminal_live succ TaskStatusSkipped ts) by (by rewrite ?dec_tasks).
  unfold settleTask, removeReady; simpl. by case_bool_decide.
Qed.

Lemma visit_base a rem succ : base (adv_rs a) (adv_queue a) (succ :: rem) →
  base (adv_rs (visitSuccessor a succ)) (adv_queue (visitSuccessor a succ)) rem.
Proof.
  intros B. destruct (visit_cases _ _ _ _ B) as [Hd|rs1 ts Hl -> Hts Hp].
  - rewrite visit_dead by done. by eapply skip_base.
  - pose proof (dec_base _ _ _ _ B Hl) as B1.
    destruct (live_has _ _ Hl) as (ts' & Hts' & Ht). simplify_eq.
    rewrite (visit_live a succ ts) by done. cbn zeta.
    destruct (Z.eqb_spec (indegree_of (decIndegree succ (adv_rs a)) succ) 0) as [Hz|]; simpl; [|done].
    destruct (triggerSatisfied succ _) eqn:Hsat; simpl.
    + by apply pushReady_base.
    + apply settle_base; [by apply base_set_seq| |done|done]. simpl. by rewrite dec_tasks.
Qed.

Lemma visits_base l a : base (adv_rs a) (adv_queue a) l →
  base (adv_rs (fold_left visitSuccessor l a)) (adv_queue (fold_left visitSuccessor l a)) [].
Proof.
  revert a. induction l as [|succ l IH]; intros a B; [done|]. simpl.
  apply IH. by apply visit_base.
Qed.

(** Starting on the next finished task: its successors become the ones to visit. *)
Lemma pop_base rs current rest : base rs (current :: rest) [] →
  base rs rest (adjacency_of (topo rs) current).
Proof.
  intros B. pose proof (b_qnodup _ _ _ B) as Hnd. apply NoDup_cons in Hnd as [Hc Hnd].
  constructor; try apply B; try done.
  - intros t Ht. rewrite (b_indeg _ _ _ B t Ht). simpl. f_equal.
    rewrite (countb_clear _ (waiting rs rest) current).
    + rewrite (tw_edges _ (b_topo _ _ _ B)). lia.
    + unfold waiting. rewrite bool_decide_eq_true_2 by set_solver. apply orb_true_r.
    + unfold waiting. rewrite (terminal_not_live rs current) by (apply B; set_solver).
      simpl. by apply bool_decide_eq_false.
    + intros p Hp. unfold waiting. f_equal. apply bool_decide_ext. set_solver.
  - intros t Ht. apply B. set_solver.
Qed.

Lemma advanceLoop_base fuel a a' : base (adv_rs a) (adv_queue a) [] →
  advanceLoop fuel a = Some a' → base (adv_rs a') [] [].
Proof.
  revert a. induction fuel as [|fuel IH]; intros a B; simpl;
    destruct (adv_queue a) as [|current rest] eqn:Hq; intros H; simplify_eq.
  - done.
  - done.
  - eapply IH; [|exact H]. apply (visits_base _ (mkAdvance _ _ _ _)). simpl.
    by apply pop_base.
Qed.
