(* ===== verification/Advance.v ===== *)
(** What one advancement of the DAG does: it terminates, keeps every eligible
    task queued, changes only the tasks it reports as skipped, reports exactly
    the tasks it queued, and stamps consecutive sequence numbers. *)

From S2P Require Import Prelude TriggerRule RunState RunStateInv.

(** * Eligible tasks stay queued *)

Definition progress_but (x : uuid) (rs : RunState) : Prop :=
  ∀ t, t ≠ x → has_status rs t TaskStatusPending → indegree_of rs t = 0 → t ∈ ready rs.

Lemma progress_weaken x rs : progress rs → progress_but x rs.
Proof. intros H t _. apply H. Qed.

Lemma settle_progress x s ts rs q rem : base rs q rem → IsTerminal s = true →
  progress_but x rs → progress (settleTask x s ts rs).
Proof.
  intros B Hs HP t. rewrite settleTask_eq by apply B. rewrite settled_status by done.
  intros [Hne Hp] Hz. simpl. rewrite remove_first_elem by apply B. split; [|done].
  by apply HP.
Qed.

Lemma dec_progress succ rs q rem : base rs q (succ :: rem) → live_at rs succ = true →
  progress rs → progress_but succ (decIndegree succ rs).
Proof.
  intros B Hl HP. rewrite (decIndegree_live _ _ _ _ B Hl). intros t Hne Hp.
  rewrite indegree_set_other by done. by apply HP.
Qed.

Lemma pushReady_keep succ rs t : t ∈ ready rs → t ∈ ready (pushReady succ rs).
Proof.
  intros H. unfold pushReady. repeat case_match; try done. simpl.
  rewrite sort_stable_perm. set_solver.
Qed.

Lemma pushReady_same succ rs : tasks (pushReady succ rs) = tasks rs ∧
  indegree (pushReady succ rs) = indegree rs ∧ outcomes (pushReady succ rs) = outcomes rs ∧
  topo (pushReady succ rs) = topo rs ∧ seq (pushReady succ rs) = seq rs.
Proof. unfold pushReady. by repeat case_match. Qed.

Lemma pushReady_status succ rs t s : has_status (pushReady succ rs) t s ↔ has_status rs t s.
Proof. unfold has_status. by destruct (pushReady_same succ rs) as (-> & _). Qed.

Lemma pushReady_indegree succ rs t : indegree_of (pushReady succ rs) t = indegree_of rs t.
Proof. unfold indegree_of. by destruct (pushReady_same succ rs) as (_ & -> & _). Qed.

Lemma visit_progress a rem succ : base (adv_rs a) (adv_queue a) (succ :: rem) →
  progress (adv_rs a) → progress (adv_rs (visitSuccessor a succ)).
Proof.
  intros B HP. destruct (visit_cases _ _ _ _ B) as [Hd|rs1 ts Hl -> Hts Hp].
  { by rewrite visit_dead. }
  pose proof (dec_base _ _ _ _ B Hl) as B1.
  pose proof (dec_progress _ _ _ _ B Hl HP) as HP1.
  destruct (live_has _ _ Hl) as (ts' & Hts' & Ht). simplify_eq.
  rewrite (visit_live a succ ts) by done. cbn zeta.
  destruct (Z.eqb_spec (indegree_of (decIndegree succ (adv_rs a)) succ) 0) as [Hz|Hnz]; simpl.
  - destruct (triggerSatisfied succ _); simpl.
    + intros t. rewrite pushReady_status, pushReady_indegree, pushReady_elem by (done || apply B1).
      intros Ht1 Ht2. destruct (decide (t = succ)); [by left|right]. by apply HP1.
    + eapply settle_progress; [by apply base_set_seq|done|]. exact HP1.
  - intros t Ht1 Ht2. apply HP1; [|done|done]. by intros ->.
Qed.

Lemma visits_progress l a : base (adv_rs a) (adv_queue a) l → progress (adv_rs a) →
  progress (adv_rs (fold_left visitSuccessor l a)).
Proof.
  revert a. induction l as [|succ l IH]; intros a B HP; [done|]. simpl.
  apply IH; [by apply visit_base | by eapply visit_progress].
Qed.

(** * Termination: every visit keeps the sum of the queue length and the number
    of live tasks. *)

Definition advance_measure (a : advance) : nat := length (adv_queue a) + live_tasks (adv_rs a).

Lemma settleTask_tasks x s ts rs :
  tasks (settleTask x s ts rs) = <[x := settle s ts]> (tasks rs).
Proof. unfold settleTask, removeReady; simpl. by case_bool_decide. Qed.

Lemma settleTask_same x s ts rs :
  indegree (settleTask x s ts rs) = indegree rs ∧
  outcomes (settleTask x s ts rs) = <[x := s]> (outcomes rs) ∧
  topo (settleTask x s ts rs) = topo rs ∧ seq (settleTask x s ts rs) = seq rs ∧
  total (settleTask x s ts rs) = total rs.
Proof. unfold settleTask, removeReady; simpl. by case_bool_decide. Qed.

Lemma settleTask_live_tasks x s ts rs : tasks rs !! x = Some ts →
  IsTerminal (Status ts) = false → IsTerminal s = true →
  live_tasks rs = S (live_tasks (settleTask x s ts rs)).
Proof.
  intros Hx Hl Hs. rewrite (settled_live_tasks x s ts rs Hx Hl Hs). f_equal.
  apply live_tasks_eq. by rewrite settleTask_tasks.
Qed.

Lemma visit_measure a succ : advance_measure (visitSuccessor a succ) = advance_measure a.
Proof.
  destruct (live_at (adv_rs a) succ) eqn:E; [|by rewrite visit_dead].
  destruct (live_has _ _ E) as (ts & Hts & Hl).
  rewrite (visit_live a succ ts) by done. unfold advance_measure. cbn zeta.
  assert (live_tasks (decIndegree succ (adv_rs a)) = live_tasks (adv_rs a)) as Hd.
  { apply live_tasks_eq, dec_tasks. }
  case_match; simpl; [by rewrite Hd|]. case_match; simpl.
  - rewrite (live_tasks_eq _ (decIndegree succ (adv_rs a))); [by rewrite Hd|].
    apply pushReady_same.
  - rewrite length_app. simpl.
    pose proof (settleTask_live_tasks succ TaskStatusSkipped ts
      (set_seq (seq (decIndegree succ (adv_rs a)) + 1) (decIndegree succ (adv_rs a)))) as Hs.
    simpl in Hs. rewrite dec_tasks in Hs. specialize (Hs Hts Hl eq_refl).
    unfold live_tasks at 1 in Hs; simpl in Hs. unfold live_tasks at 1 in Hd. lia.
Qed.

Lemma visits_measure l a : advance_measure (fold_left visitSuccessor l a) = advance_measure a.
Proof. revert a. induction l as [|x l IH]; intros a; simpl; [done|]. by rewrite IH, visit_measure. Qed.

Lemma advanceLoop_total fuel a : (advance_measure a ≤ fuel)%nat → is_Some (advanceLoop fuel a).
Proof.
  revert a. induction fuel as [|fuel IH]; intros a Hm; simpl;
    destruct (adv_queue a) as [|c rest] eqn:Hq; try by eexists.
  - unfold advance_measure in Hm. rewrite Hq in Hm. simpl in Hm. lia.
  - apply IH. rewrite visits_measure. unfold advance_measure in *. rewrite Hq in Hm. simpl in *. lia.
Qed.

Lemma seqZ_snoc m n :
  seqZ m (Z.of_nat (n + 1)) = seqZ m (Z.of_nat n) ++ [m - 1 + Z.of_nat n + 1].
Proof.
  rewrite Nat2Z.inj_add, seqZ_app by lia. f_equal. unfold seqZ; simpl. f_equal. lia.
Qed.

(** * The effect of an advancement, relative to the state [rs0] it starts from *)

Definition skipped_ids (l : list SkippedTask) : list uuid := map sk_TaskID l.

Record advanced (rs0 : RunState) (a : advance) : Prop := {
  ad_topo : topo (adv_rs a) = topo rs0;
  ad_tasks : ∀ t, tasks (adv_rs a) !! t =
    (if decide (t ∈ skipped_ids (adv_skipped a))
     then settle TaskStatusSkipped <$> tasks rs0 !! t else tasks rs0 !! t);
  ad_skip_live : ∀ t, t ∈ skipped_ids (adv_skipped a) →
    (has_status rs0 t TaskStatusPending) ∧ t ∉ ready rs0;
  ad_skip_nodup : NoDup (skipped_ids (adv_skipped a));
  ad_skip_sound : ∀ t, t ∈ skipped_ids (adv_skipped a) →
    triggerSatisfied t (adv_rs a) = false ∧
    (∀ p, p ∈ predecessors_of (topo rs0) t → live_at (adv_rs a) p = false);
  ad_ready : ∀ t, t ∈ ready (adv_rs a) ↔ t ∈ ready rs0 ∨ t ∈ adv_ready a;
  ad_ready_new : ∀ t, t ∈ adv_ready a → t ∉ ready rs0;
  ad_ready_nodup : NoDup (adv_ready a);
  ad_stamps : map sk_TerminalSequence (adv_skipped a) =
    seqZ (seq rs0 + 1) (Z.of_nat (length (adv_skipped a)));
  ad_seq : seq (adv_rs a) = seq rs0 + Z.of_nat (length (adv_skipped a));
}.

Lemma advanced_start rs q : advanced rs (mkAdvance rs q [] []).
Proof. constructor; simpl; try done; try set_solver; try constructor. lia. Qed.

(** The verdict of a task all of whose predecessors have finished is final. *)
Lemma trigger_final rs x s ts t :
  (∀ p, p ∈ predecessors_of (topo rs) t → live_at rs p = false) → live_at rs x = true →
  triggerSatisfied t (settleTask x s ts rs) = triggerSatisfied t rs.
Proof.
  intros Hp Hx. unfold triggerSatisfied.
  destruct (settleTask_same x s ts rs) as (_ & -> & -> & _). f_equal.
  apply Collect_ext. intros p Hin. rewrite lookup_insert_ne; [done|].
  intros <-. rewrite Hp in Hx; done.
Qed.

Lemma settleTask_live x s ts rs p : IsTerminal s = true →
  live_at (settleTask x s ts rs) p = if (p =? x)%N then false else live_at rs p.
Proof.
  intros Hs. unfold live_at. rewrite settleTask_tasks, lookup_insert.
  destruct (N.eqb_spec p x) as [->|]; [rewrite decide_True by done; simpl; by rewrite Hs|].
  by rewrite decide_False by congruence.
Qed.

Lemma settleTask_ready x s ts rs q rem t : base rs q rem →
  t ∈ ready (settleTask x s ts rs) ↔ t ∈ ready rs ∧ t ≠ x.
Proof. intros B. rewrite settleTask_eq by apply B. simpl. apply remove_first_elem, B. Qed.

Section visiting.
Context {rs0 : RunState} {a : advance} {rem : list uuid} {succ : uuid}.
Context (B : base (adv_rs a) (adv_queue a) (succ :: rem)) (A : advanced rs0 a).
Context (Hl : live_at (adv_rs a) succ = true).

Lemma visited_fresh :
  succ ∉ skipped_ids (adv_skipped a) ∧ succ ∉ ready (adv_rs a) ∧
  tasks rs0 !! succ = tasks (adv_rs a) !! succ ∧ has_status rs0 succ TaskStatusPending.
Proof using B A Hl.
  pose proof (rem_positive _ _ _ _ B Hl) as Hpos.
  assert (succ ∉ skipped_ids (adv_skipped a)) as Hns.
  { intros Hin. pose proof (ad_tasks _ _ A succ) as Ht. rewrite decide_True in Ht by done.
    unfold live_at in Hl. rewrite Ht in Hl. by destruct (tasks rs0 !! succ). }
  pose proof (ad_tasks _ _ A succ) as Ht. rewrite decide_False in Ht by done.
  repeat split; try done; [by apply (not_ready_pos B)|].
  destruct (live_pending B succ Hl Hpos) as (ts & Hts & E). exists ts. by rewrite <- Ht.
Qed.

(** Counting down leaves the rest of the record unchanged. *)
Lemma dec_advanced :
  advanced rs0 (mkAdvance (decIndegree succ (adv_rs a)) (adv_queue a) (adv_ready a) (adv_skipped a)).
Proof using B A Hl. rewrite (decIndegree_live _ _ _ _ B Hl). by destruct A; constructor. Qed.

Lemma push_advanced : has_status (decIndegree succ (adv_rs a)) succ TaskStatusPending →
  advanced rs0 (mkAdvance (pushReady succ (decIndegree succ (adv_rs a))) (adv_queue a)
    (adv_ready a ++ [succ]) (adv_skipped a)).
Proof using B A Hl.
  intros Hp. destruct visited_fresh as (Hns & Hnr & Ht & Hp0).
  pose proof (dec_base _ _ _ _ B Hl) as B1.
  pose proof dec_advanced as D.
  destruct (pushReady_same succ (decIndegree succ (adv_rs a))) as (E1 & E2 & E3 & E4 & E5).
  rewrite (ad_ready _ _ A) in Hnr.
  constructor; simpl.
  - rewrite E4. apply D.
  - intros t. rewrite E1. apply (ad_tasks _ _ D).
  - apply D.
  - apply D.
  - intros t Hin. destruct (ad_skip_sound _ _ D t Hin) as [Hs Hpr].
    unfold triggerSatisfied, live_at in *. simpl in *. rewrite E1, E3, E4. done.
  - intros t. rewrite pushReady_elem by (done || apply B1). pose proof (ad_ready _ _ D t) as Hr. simpl in Hr.
    rewrite Hr, elem_of_app, list_elem_of_singleton. tauto.
  - intros t. rewrite elem_of_app, list_elem_of_singleton. intros [Hin| ->]; [by apply (ad_ready_new _ _ D)|tauto].
  - apply NoDup_app. split; [apply D|]. split; [|apply NoDup_singleton].
    intros t Hin. rewrite list_elem_of_singleton. intros ->. tauto.
  - apply D.
  - rewrite E5. apply D.
Qed.
End visiting.

Section skipping.
Context {rs0 : RunState} {a : advance} {rem : list uuid} {succ : uuid}.
Context (B : base (adv_rs a) (adv_queue a) rem) (A : advanced rs0 a).
Context {ts : OwnerTaskState} (Hts : tasks (adv_rs a) !! succ = Some ts).
Context (Hp : has_status (adv_rs a) succ TaskStatusPending) (Hnr : succ ∉ ready (adv_rs a)).
Context (Hz : indegree_of (adv_rs a) succ = 0) (Hun : triggerSatisfied succ (adv_rs a) = false).
Context (Hns : succ ∉ skipped_ids (adv_skipped a)).
Context {rs1 : RunState}
  (Hrs1 : rs1 = settleTask succ TaskStatusSkipped ts (set_seq (seq (adv_rs a) + 1) (adv_rs a))).
Let sk := mkSkippedTask succ (seq (adv_rs a) + 1) (ruleReason (rule_of (topo (adv_rs a)) succ)).

Lemma skip_stable t : (∀ p, p ∈ predecessors_of (topo rs0) t → live_at (adv_rs a) p = false) →
  triggerSatisfied t rs1 = triggerSatisfied t (adv_rs a) ∧
  (∀ p, p ∈ predecessors_of (topo rs0) t → live_at rs1 p = false).
Proof using A Hp Hrs1.
  intros Hpr. split.
  - rewrite Hrs1. rewrite trigger_final; [done| |by apply pending_live].
    intros p. simpl. rewrite (ad_topo _ _ A). apply Hpr.
  - intros p Hin. rewrite Hrs1. rewrite settleTask_live by done.
    case_match; [done|]. by apply Hpr.
Qed.

Lemma skip_advanced :
  advanced rs0 (mkAdvance rs1 (adv_queue a ++ [succ]) (adv_ready a) (adv_skipped a ++ [sk])).
Proof using B A Hts Hp Hnr Hz Hun Hns Hrs1.
  pose proof (settleTask_same succ TaskStatusSkipped ts (set_seq (seq (adv_rs a) + 1) (adv_rs a)))
    as (_ & _ & E4 & E5 & _).
  assert (tasks rs0 !! succ = tasks (adv_rs a) !! succ) as Ht.
  { rewrite (ad_tasks _ _ A succ). by rewrite decide_False. }
  assert (skipped_ids (adv_skipped a ++ [sk]) = skipped_ids (adv_skipped a) ++ [succ]) as Hids.
  { unfold skipped_ids. by rewrite map_app. }
  constructor; simpl; rewrite ?Hids.
  - rewrite Hrs1. rewrite E4. apply A.
  - intros t. rewrite Hrs1. rewrite settleTask_tasks. simpl. rewrite lookup_insert.
    destruct (decide (succ = t)) as [<-|Hne].
    + rewrite decide_True by set_solver. by rewrite Ht, Hts.
    + rewrite (ad_tasks _ _ A t). apply decide_ext. set_solver.
  - intros t. rewrite elem_of_app, list_elem_of_singleton. intros [Hin| ->]; [by apply A|].
    split; [|rewrite (ad_ready _ _ A) in Hnr; tauto].
    destruct Hp as (ts' & H1 & H2). exists ts'. by rewrite Ht.
  - apply NoDup_app. split; [apply A|]. split; [|apply NoDup_singleton]. set_solver.
  - intros t. rewrite elem_of_app, list_elem_of_singleton. intros [Hin| ->].
    + destruct (ad_skip_sound _ _ A t Hin) as [Hs Hpr]. destruct (skip_stable t Hpr) as [-> Hq]. done.
    + destruct (skip_stable succ) as [-> Hq]; [|done]. intros p Hin.
      eapply (zero_not_live_pred B); [by apply pending_live|done|]. by rewrite (ad_topo _ _ A).
  - intros t. rewrite Hrs1. rewrite settleTask_ready by (by apply base_set_seq). simpl.
    rewrite (ad_ready _ _ A). split; [tauto|]. intros Ht'. split; [done|]. intros ->.
    apply Hnr. by rewrite (ad_ready _ _ A).
  - apply A.
  - apply A.
  - rewrite map_app, (ad_stamps _ _ A), length_app. simpl. rewrite (ad_seq _ _ A), seqZ_snoc.
    do 3 f_equal. lia.
  - rewrite Hrs1. rewrite E5, length_app. simpl. rewrite (ad_seq _ _ A). lia.
Qed.
End skipping.

Lemma visit_advanced rs0 a rem succ : base (adv_rs a) (adv_queue a) (succ :: rem) →
  advanced rs0 a → advanced rs0 (visitSuccessor a succ).
Proof.
  intros B A. destruct (visit_cases _ _ _ _ B) as [Hd|rs1 ts Hl -> Hts Hp].
  { by rewrite visit_dead. }
  pose proof (dec_base _ _ _ _ B Hl) as B1.
  destruct (visited_fresh B A Hl) as (Hns & Hnr & _ & _).
  pose proof (dec_advanced B A Hl) as D.
  destruct (live_has _ _ Hl) as (ts' & Hts' & Ht). simplify_eq.
  rewrite (visit_live a succ ts) by done. cbn zeta.
  destruct (Z.eqb_spec (indegree_of (decIndegree succ (adv_rs a)) succ) 0) as [Hz|]; simpl; [|done].
  destruct (triggerSatisfied succ _) eqn:Hsat; [exact (push_advanced B A Hl Hp)|].
  refine (skip_advanced (a := mkAdvance _ (adv_queue a) (adv_ready a) (adv_skipped a)) B1 D _ _ _ _ _ _ eq_refl);
    try done; simpl.
  - by rewrite dec_tasks.
  - by rewrite (decIndegree_live _ _ _ _ B Hl).
Qed.

Lemma visits_advanced rs0 l a : base (adv_rs a) (adv_queue a) l → advanced rs0 a →
  advanced rs0 (fold_left visitSuccessor l a).
Proof.
  revert a. induction l as [|succ l IH]; intros a B A; [done|]. simpl.
  apply IH; [by apply visit_base | by eapply visit_advanced].
Qed.

(** Everything an advancement guarantees. *)
Lemma advanceLoop_spec rs0 fuel a a' : base (adv_rs a) (adv_queue a) [] → progress (adv_rs a) →
  advanced rs0 a → advanceLoop fuel a = Some a' → owner_inv (adv_rs a') ∧ advanced rs0 a'.
Proof.
  intros B HP A H. split; [split; [by eapply advanceLoop_base|]|].
  all: revert a B HP A H; induction fuel as [|fuel IH]; intros a B HP A; simpl;
    destruct (adv_queue a) as [|c rest] eqn:Hq; intros H; simplify_eq; try done.
  all: eapply IH; [| | |exact H]; [apply (visits_base _ (mkAdvance _ _ _ _))
                   |apply (visits_progress _ (mkAdvance _ _ _ _))
                   |apply (visits_advanced _ _ (mkAdvance _ _ _ _))]; simpl; try done;
    try (by apply pop_base); by destruct A; constructor.
Qed.
