(* ===== verification/OwnerSteps.v ===== *)
(** The owner's operations as a whole: completion, dispatch, construction and
    requeueing keep the invariant; what a completion changes and reports. *)

From S2P Require Import Prelude TriggerRule RunState RunStateInv Advance.

(** * Completion *)

(** The change from [rs0] to [rs] when [x] finished with [s] and the tasks of
    [sks] were skipped. *)
Record effect (rs0 rs : RunState) (x : uuid) (s : TaskStatus) (sks : list SkippedTask) : Prop := {
  ef_topo : topo rs = topo rs0;
  ef_tasks : ∀ t, tasks rs !! t =
    (if decide (t = x) then settle s <$> tasks rs0 !! t
     else if decide (t ∈ skipped_ids sks) then settle TaskStatusSkipped <$> tasks rs0 !! t
     else tasks rs0 !! t);
  ef_live : ∀ t, t ∈ skipped_ids sks → live_at rs0 t = true ∧ t ≠ x;
  ef_nodup : NoDup (skipped_ids sks);
  ef_stamps : map sk_TerminalSequence sks = seqZ (seq rs0 + 2) (Z.of_nat (length sks));
  ef_seq : seq rs = seq rs0 + 1 + Z.of_nat (length sks);
}.

(** The state in the middle of the branch loop. *)
Record branching (rs0 rs : RunState) (x : uuid) (s : TaskStatus) (sks : list SkippedTask)
    (seeds branch : list uuid) : Prop := {
  br_base : base rs seeds [];
  br_progress : progress rs;
  br_effect : effect rs0 rs x s sks;
  br_ready : ∀ t, t ∈ ready rs ↔ t ∈ ready rs0 ∧ t ≠ x ∧ t ∉ skipped_ids sks;
  br_branch : ∀ t, t ∈ skipped_ids sks → t ∈ branch;
}.

Lemma finish_branching rs x s ts : owner_inv rs → tasks rs !! x = Some ts →
  IsTerminal (Status ts) = false → IsTerminal s = true →
  branching rs (settleTask x s ts (set_seq (seq rs + 1) rs)) x s [] [x] [].
Proof.
  intros [B HP] Hx Hl Hs.
  pose proof (base_set_seq _ _ _ (seq rs + 1) B) as B1.
  pose proof (settleTask_same x s ts (set_seq (seq rs + 1) rs)) as (_ & _ & E4 & E5 & _).
  constructor.
  - apply (settle_base x s ts _ [] [] B1); done.
  - eapply settle_progress; [exact B1|done|]. intros t _. apply HP.
  - constructor.
    + done.
    + intros t. rewrite settleTask_tasks. simpl. rewrite lookup_insert.
      destruct (decide (x = t)) as [<-|]; [rewrite decide_True by done; by rewrite Hx|].
      by rewrite decide_False by congruence.
    + set_solver.
    + constructor.
    + done.
    + rewrite E5. simpl. lia.
  - intros t. rewrite settleTask_ready by exact B1. simpl. set_solver.
  - set_solver.
Qed.

Lemma skipBranch_branching rs0 rs x s sks seeds branch b rs' seeds' sks' :
  branching rs0 rs x s sks seeds branch → IsTerminal s = true →
  skipBranch (rs, seeds, sks) b = (rs', seeds', sks') →
  branching rs0 rs' x s sks' seeds' (branch ++ [b]).
Proof.
  intros [B HP E HR HB] Hs Hsk. unfold skipBranch in Hsk.
  destruct (live_at rs b) eqn:Hl; unfold live_at in Hl; destruct (tasks rs !! b) as [st|] eqn:Hst;
    try done; [|rewrite negb_false_iff in Hl; rewrite Hl in Hsk|]; simplify_eq;
    [|by constructor; try done; set_solver|by constructor; try done; set_solver].
  apply negb_true_iff in Hl. rewrite Hl, (markTerminal_live b TaskStatusSkipped st) in Hsk by done.
  simplify_eq.
  pose proof (base_set_seq _ _ _ (seq rs + 1) B) as B1.
  pose proof (settleTask_same b TaskStatusSkipped st (set_seq (seq rs + 1) rs)) as (_ & _ & E4 & E5 & _).
  pose proof (ef_tasks _ _ _ _ _ E b) as Hb. rewrite Hst in Hb.
  assert (b ≠ x) as Hbx.
  { intros ->. rewrite decide_True in Hb by done. destruct (tasks rs0 !! x); simplify_eq/=. congruence. }
  rewrite decide_False in Hb by done.
  assert (b ∉ skipped_ids sks) as Hbs.
  { intros Hin. rewrite decide_True in Hb by done. by destruct (tasks rs0 !! b); simplify_eq/=. }
  rewrite decide_False in Hb by done.
  assert (skipped_ids (sks ++ [mkSkippedTask b (seq rs + 1) "branch not selected"]) =
          skipped_ids sks ++ [b]) as Hids by (unfold skipped_ids; by rewrite map_app).
  constructor; rewrite ?Hids.
  - by apply settle_base.
  - eapply settle_progress; [exact B1|done|]. intros t _. apply HP.
  - constructor; rewrite ?Hids.
    + rewrite E4. apply E.
    + intros t. rewrite settleTask_tasks. simpl. rewrite lookup_insert.
      destruct (decide (b = t)) as [<-|Hne].
      * rewrite decide_False by done. rewrite decide_True by set_solver. by rewrite <- Hb.
      * rewrite (ef_tasks _ _ _ _ _ E t). case_decide; [done|]. apply decide_ext. set_solver.
    + intros t. rewrite elem_of_app, list_elem_of_singleton. intros [Hin| ->]; [by apply E|].
      split; [|done]. unfold live_at. by rewrite <- Hb, Hl.
    + apply NoDup_app. split; [apply E|]. split; [set_solver|apply NoDup_singleton].
    + rewrite map_app, (ef_stamps _ _ _ _ _ E), length_app. simpl.
      rewrite (ef_seq _ _ _ _ _ E), seqZ_snoc. do 3 f_equal. lia.
    + rewrite E5, length_app. simpl. rewrite (ef_seq _ _ _ _ _ E). lia.
  - intros t. rewrite settleTask_ready by exact B1. simpl. rewrite HR, elem_of_app, list_elem_of_singleton. tauto.
  - intros t. rewrite !elem_of_app, list_elem_of_singleton. intros [Hin| ->]; [|set_solver].
    left. by apply HB.
Qed.

Lemma skipBranches_branching rs0 x s branch rs sks seeds done_ :
  branching rs0 rs x s sks seeds done_ → IsTerminal s = true →
  ∀ rs' seeds' sks', fold_left skipBranch branch (rs, seeds, sks) = (rs', seeds', sks') →
  branching rs0 rs' x s sks' seeds' (done_ ++ branch).
Proof.
  revert rs sks seeds done_. induction branch as [|b branch IH]; intros rs sks seeds done_ HB Hs rs' seeds' sks'.
  - simpl. intros ?. simplify_eq. by rewrite app_nil_r.
  - cbn [fold_left]. destruct (skipBranch (rs, seeds, sks) b) as [[rs1 seeds1] sks1] eqn:E. intros H.
    replace (done_ ++ b :: branch) with ((done_ ++ [b]) ++ branch) by (by rewrite <- app_assoc).
    eapply IH; [|done|exact H]. by eapply skipBranch_branching.
Qed.

(** * Everything a completion guarantees *)

Record completion (rs0 : RunState) (x : uuid) (s : TaskStatus) (branch : list uuid)
    (rs : RunState) (res : CompletionResult) : Prop := {
  cp_inv : owner_inv rs;
  cp_effect : effect rs0 rs x s (cr_Skipped res);
  cp_ready : ∀ t, t ∈ ready rs ↔
    t ∈ cr_Ready res ∨ (t ∈ ready rs0 ∧ t ≠ x ∧ t ∉ skipped_ids (cr_Skipped res));
  cp_ready_new : ∀ t, t ∈ cr_Ready res → has_status rs0 t TaskStatusPending ∧ t ∉ ready rs0;
  cp_ready_nodup : NoDup (cr_Ready res);
  cp_skip_sound : ∀ t, t ∈ skipped_ids (cr_Skipped res) →
    t ∈ branch ∨ (triggerSatisfied t rs = false ∧
                  ∀ p, p ∈ predecessors_of (topo rs) t → live_at rs p = false);
  cp_seq : cr_TerminalSequence res = seq rs0 + 1;
  cp_complete : cr_Complete res = IsComplete rs;
}.

(** Composing the branch loop with the advancement. *)
Lemma effect_compose rs0 rs1 x s bsk a : effect rs0 rs1 x s bsk → advanced rs1 a →
  IsTerminal s = true → effect rs0 (adv_rs a) x s (bsk ++ adv_skipped a).
Proof.
  intros E A Hs.
  assert (∀ l1 l2, skipped_ids (l1 ++ l2) = skipped_ids l1 ++ skipped_ids l2) as Hids
    by (intros; unfold skipped_ids; by rewrite map_app).
  assert (∀ t, t ∈ skipped_ids (adv_skipped a) →
    t ≠ x ∧ t ∉ skipped_ids bsk ∧ live_at rs0 t = true ∧ tasks rs1 !! t = tasks rs0 !! t) as Hnew.
  { intros t Ht. destruct (ad_skip_live _ _ A t Ht) as [(ts & H1 & H2) _].
    pose proof (ef_tasks _ _ _ _ _ E t) as Hb. rewrite H1 in Hb.
    destruct (decide (t = x)) as [->|Hne].
    { by destruct (tasks rs0 !! x); simplify_eq/=. }
    destruct (decide (t ∈ skipped_ids bsk)) as [|Hns]; [by destruct (tasks rs0 !! t); simplify_eq/=|].
    repeat split; try done; [|by rewrite H1, Hb]. unfold live_at. by rewrite <- Hb, H2. }
  constructor; rewrite ?Hids.
  - rewrite (ad_topo _ _ A). apply E.
  - intros t. rewrite (ad_tasks _ _ A t). destruct (decide (t ∈ skipped_ids (adv_skipped a))) as [Hin|Hn].
    + destruct (Hnew t Hin) as (Hne & _ & _ & ->). rewrite decide_False by done.
      by rewrite decide_True by set_solver.
    + rewrite (ef_tasks _ _ _ _ _ E t). case_decide; [done|]. apply decide_ext. set_solver.
  - intros t. rewrite elem_of_app. intros [Hin|Hin]; [by apply E|]. by destruct (Hnew t Hin) as (? & _ & ? & _).
  - apply NoDup_app. split; [apply E|]. split; [|apply A].
    intros t H1 H2. by destruct (Hnew t H2) as (_ & ? & _).
  - rewrite map_app, length_app, (ef_stamps _ _ _ _ _ E), (ad_stamps _ _ A).
    rewrite Nat2Z.inj_add, seqZ_app by lia. f_equal. rewrite (ef_seq _ _ _ _ _ E). f_equal. lia.
  - rewrite (ad_seq _ _ A), (ef_seq _ _ _ _ _ E), length_app. lia.
Qed.

Lemma ApplyCompletion_live x s branch rs ts rs' res : tasks rs !! x = Some ts →
  IsTerminal (Status ts) = false → ApplyCompletion x s branch rs = Some (rs', res) →
  ∃ rs1 seeds bsk a,
    fold_left skipBranch branch
      (settleTask x s ts (set_seq (seq rs + 1) rs), [x], []) = (rs1, seeds, bsk) ∧
    advanceSuccessors seeds rs1 = Some a ∧ rs' = adv_rs a ∧
    res = mkCompletionResult (seq rs + 1) (adv_ready a) (bsk ++ adv_skipped a) (IsComplete (adv_rs a)).
Proof.
  intros Hx Hl. unfold ApplyCompletion. rewrite Hx, Hl, (markTerminal_live x s ts) by done.
  destruct (fold_left skipBranch branch _) as [[rs1 seeds] bsk] eqn:Ef.
  destruct (advanceSuccessors seeds rs1) as [a|] eqn:Ea; intros H; simplify_eq.
  by exists rs1, seeds, bsk, a.
Qed.

Lemma ApplyCompletion_spec x s branch rs ts rs' res : owner_inv rs →
  tasks rs !! x = Some ts → IsTerminal (Status ts) = false → IsTerminal s = true →
  ApplyCompletion x s branch rs = Some (rs', res) → completion rs x s branch rs' res.
Proof.
  intros HI Hx Hl Hs HA.
  destruct (ApplyCompletion_live _ _ _ _ _ _ _ Hx Hl HA) as (rs1 & seeds & bsk & a & Ef & Ea & -> & ->).
  pose proof (finish_branching rs x s ts HI Hx Hl Hs) as F.
  pose proof (skipBranches_branching _ _ _ _ _ _ _ _ F Hs _ _ _ Ef) as [B HP E HR HB]. simpl in HB.
  destruct (advanceLoop_spec rs1 _ (mkAdvance rs1 seeds [] []) a B HP (advanced_start rs1 seeds) Ea)
    as [HI' A].
  assert (∀ l1 l2, skipped_ids (l1 ++ l2) = skipped_ids l1 ++ skipped_ids l2) as Hids
    by (intros; unfold skipped_ids; by rewrite map_app).
  constructor; simpl; try done; [by eapply effect_compose| | |apply A|].
  - intros t. rewrite (ad_ready _ _ A), HR, Hids, elem_of_app. split; [|tauto].
    intros [(H1 & H2 & H3)|?]; [|by left]. right. repeat split; try done.
    intros [?|H4]; [done|]. destruct (ad_skip_live _ _ A t H4) as [_ H5]. apply H5. by apply HR.
  - intros t Ht. pose proof (proj2 (ad_ready _ _ A t) (or_intror Ht)) as Hr.
    destruct HI' as [B' _]. destruct (b_ready _ _ _ B' t Hr) as [(ts' & H1 & H2) _].
    rewrite (ad_tasks _ _ A t) in H1.
    case_decide; [by destruct (tasks rs1 !! t); simplify_eq/=|].
    pose proof (ef_tasks _ _ _ _ _ E t) as Hb. rewrite H1 in Hb.
    destruct (decide (t = x)) as [->|Hne].
    { by destruct (tasks rs !! x); simplify_eq/=. }
    case_decide; [by destruct (tasks rs !! t); simplify_eq/=|].
    split; [by exists ts'|]. intros Hin. apply (ad_ready_new _ _ A t Ht). by apply HR.
  - intros t. rewrite Hids, elem_of_app. intros [Hin|Hin]; [left; by apply HB|right].
    rewrite (ad_topo _ _ A). by apply (ad_skip_sound _ _ A t Hin).
Qed.

(** An unknown or already finished task is left alone. *)
Lemma ApplyCompletion_noop x s branch rs : live_at rs x = false →
  ApplyCompletion x s branch rs = Some (rs, mkCompletionResult 0 [] [] (IsComplete rs)).
Proof.
  unfold ApplyCompletion, live_at. destruct (tasks rs !! x); [|done].
  rewrite negb_false_iff. by intros ->.
Qed.

Lemma advanceSuccessors_total seeds rs : is_Some (advanceSuccessors seeds rs).
Proof. unfold advanceSuccessors. by apply advanceLoop_total. Qed.

(** The loop always ends: a completion returns for every state and input. *)
Lemma ApplyCompletion_defined x s branch rs : is_Some (ApplyCompletion x s branch rs).
Proof.
  unfold ApplyCompletion. destruct (tasks rs !! x) as [ts|]; [|by eexists].
  destruct (IsTerminal (Status ts)); [by eexists|].
  destruct (markTerminal x s rs) as [rs1 sq].
  destruct (fold_left skipBranch branch _) as [[rs2 seeds] bsk].
  destruct (advanceSuccessors_total seeds rs2) as [a ->]. by eexists.
Qed.

(** * Changing a live task's label *)

Definition relabel (x : uuid) (ts : OwnerTaskState) (rs : RunState) : RunState :=
  set_tasks (<[x := ts]> (tasks rs)) rs.

Lemma relabel_live x ts ts' rs t : tasks rs !! x = Some ts → IsTerminal (Status ts) = false →
  IsTerminal (Status ts') = false → live_at (relabel x ts' rs) t = live_at rs t.
Proof.
  intros Hx Hl Hl'. unfold live_at; simpl. rewrite lookup_insert.
  case_decide as E; [|done]. subst. by rewrite Hx, Hl, Hl'.
Qed.

Lemma relabel_status x ts rs t s :
  has_status (relabel x ts rs) t s ↔ if decide (t = x) then Status ts = s else has_status rs t s.
Proof.
  unfold has_status; simpl. rewrite lookup_insert. case_decide as E; [subst|].
  - rewrite decide_True by done. naive_solver.
  - by rewrite decide_False by congruence.
Qed.

Lemma relabel_base x ts ts' rs q rem : base rs q rem → tasks rs !! x = Some ts →
  IsTerminal (Status ts) = false → x ∉ ready rs →
  Status ts' = TaskStatusPending ∨
    (Status ts' = TaskStatusRunning ∧ indegree_of rs x = 0 ∧ triggerSatisfied x rs = true) →
  base (relabel x ts' rs) q rem.
Proof.
  intros B Hx Hl Hnr Hs'.
  assert (IsTerminal (Status ts') = false) as Hl' by (by destruct Hs' as [->|[-> _]]).
  assert (∀ t, live_at (relabel x ts' rs) t = live_at rs t) as Hlv by (intros; by eapply relabel_live).
  constructor; try apply B.
  - simpl. rewrite dom_insert_lookup_L by (by eexists). apply B.
  - simpl. intros t u. rewrite lookup_insert. case_decide; intros ?; simplify_eq; [naive_solver|].
    by eapply B.
  - intros t. simpl. rewrite (b_out _ _ _ B), lookup_insert. case_decide as E; [|done].
    subst. rewrite Hx. simpl. by rewrite Hl, Hl'.
  - intros t. rewrite Hlv. intros Ht. rewrite (countb_ext _ (waiting rs q)).
    + by apply (b_indeg _ _ _ B).
    + intros p _. unfold waiting. by rewrite Hlv.
  - intros t Ht. destruct (b_ready _ _ _ B t Ht) as (H1 & H2 & H3). split; [|done].
    apply relabel_status. rewrite decide_False; [done|]. by intros ->.
  - intros t. rewrite relabel_status. case_decide as E; [subst|apply (b_running _ _ _ B)].
    intros Hr. destruct Hs' as [Hp|[_ ?]]; [|done]. rewrite Hp in Hr. done.
  - intros t Ht. apply (b_queue _ _ _ B) in Ht. unfold terminal_at in *; simpl.
    rewrite lookup_insert. case_decide as E; [|done]. subst. rewrite Hx in Ht. congruence.
  - simpl. pose proof (live_tasks_insert rs x ts ts' Hx) as H. rewrite Hl, Hl' in H.
    pose proof (b_count _ _ _ B). unfold relabel. lia.
  - simpl. rewrite map_size_insert_Some by (by eexists). apply B.
Qed.

Lemma removeReady_base x rs q rem : base rs q rem → base (removeReady x rs) q rem.
Proof.
  intros B. rewrite removeReady_eq by apply B. constructor; try apply B; simpl.
  - intros t. rewrite remove_first_elem by apply B.
    rewrite elem_of_difference, elem_of_singleton, (b_in _ _ _ B). done.
  - apply remove_first_nodup, B.
  - apply remove_first_sorted, B.
  - intros t Ht. rewrite remove_first_elem in Ht by apply B. destruct Ht as [Ht _]. by apply (b_ready _ _ _ B).
Qed.

(** * Dispatch *)

Lemma MarkDispatched_eq x cb at_ le rs ts : (∀ u, u ∈ inReady rs ↔ u ∈ ready rs) →
  tasks rs !! x = Some ts → IsTerminal (Status ts) = false →
  MarkDispatched x cb at_ le rs =
    relabel x (mkOwnerTaskState TaskStatusRunning at_ cb le) (removeReady x rs).
Proof.
  intros Hin Hx Hl. unfold MarkDispatched. rewrite Hx, Hl.
  unfold removeReady; simpl. by case_bool_decide.
Qed.

(** Handing a queued task to a worker keeps the invariant. *)
Lemma MarkDispatched_inv x cb at_ le rs : owner_inv rs → x ∈ ready rs →
  owner_inv (MarkDispatched x cb at_ le rs).
Proof.
  intros [B HP] Hr. destruct (b_ready _ _ _ B x Hr) as ((ts & Hts & Hst) & Hz & Hsat).
  assert (IsTerminal (Status ts) = false) as Hl by (by rewrite Hst).
  pose proof (removeReady_base x rs _ _ B) as B1.
  rewrite (MarkDispatched_eq x cb at_ le rs ts) by (done || apply B).
  assert (∀ t, t ∈ ready (removeReady x rs) ↔ t ∈ ready rs ∧ t ≠ x) as Hrr.
  { intros t. rewrite removeReady_eq by apply B. simpl. apply remove_first_elem, B. }
  assert (tasks (removeReady x rs) = tasks rs ∧ indegree (removeReady x rs) = indegree rs ∧
          outcomes (removeReady x rs) = outcomes rs ∧ topo (removeReady x rs) = topo rs)
    as (E1 & E2 & E3 & E4).
  { unfold removeReady. by case_bool_decide. }
  split.
  - apply (relabel_base x ts); [done|by rewrite E1|done|by rewrite Hrr; intros [_ Hne]|].
    right. unfold indegree_of, triggerSatisfied in *. rewrite E2, E3, E4. done.
  - intros t. rewrite relabel_status. simpl. rewrite Hrr. case_decide; [done|].
    unfold has_status, indegree_of; simpl. rewrite E1, E2. split; [by apply HP|done].
Qed.

(** * Requeueing in-flight work *)

Definition requeued (ts : OwnerTaskState) : OwnerTaskState :=
  mkOwnerTaskState TaskStatusPending (Attempt ts + 1) "" 0.

Lemma requeueTask_inv x rs : owner_inv rs → has_status rs x TaskStatusRunning →
  owner_inv (requeueTask rs x) ∧
  (∀ t, t ∈ ready (requeueTask rs x) ↔ t = x ∨ t ∈ ready rs) ∧
  tasks (requeueTask rs x) = alter requeued x (tasks rs) ∧
  seq (requeueTask rs x) = seq rs ∧ topo (requeueTask rs x) = topo rs ∧
  outcomes (requeueTask rs x) = outcomes rs ∧ indegree (requeueTask rs x) = indegree rs ∧
  total (requeueTask rs x) = total rs ∧ terminalCount (requeueTask rs x) = terminalCount rs.
Proof.
  intros [B HP] Hr. destruct (b_running _ _ _ B x Hr) as [Hz Hsat].
  destruct Hr as (ts & Hts & Hst).
  assert (x ∉ ready rs) as Hnr.
  { intros H. destruct (b_ready _ _ _ B x H) as ((ts' & ? & E) & _). simplify_eq. by rewrite Hst in E. }
  unfold requeueTask. rewrite Hts. change (set_tasks _ rs) with (relabel x (requeued ts) rs).
  assert (base (relabel x (requeued ts) rs) [] []) as B1.
  { apply (relabel_base x ts); try done; [by rewrite Hst|by left]. }
  assert (has_status (relabel x (requeued ts) rs) x TaskStatusPending) as Hp.
  { apply relabel_status. by rewrite decide_True. }
  pose proof (pushReady_same x (relabel x (requeued ts) rs)) as (E1 & E2 & E3 & E4 & E5).
  assert (∀ t, t ∈ ready (pushReady x (relabel x (requeued ts) rs)) ↔ t = x ∨ t ∈ ready rs) as Hrd.
  { intros t. by rewrite pushReady_elem by (done || apply B1). }
  split; [split; [by apply pushReady_base|]|].
  - intros t. rewrite pushReady_status, pushReady_indegree, relabel_status, Hrd.
    case_decide; [by left|]. intros ? ?. right. by apply HP.
  - split; [done|]. rewrite E1, E2, E3, E4, E5. simpl. split.
    + apply map_eq. intros t. rewrite lookup_insert, lookup_alter. case_decide; [subst|done].
      by rewrite Hts.
    + unfold pushReady. by repeat case_match.
Qed.

Lemma requeueTask_other x rs t s : t ≠ x → has_status (requeueTask rs x) t s ↔ has_status rs t s.
Proof.
  intros Hne. unfold requeueTask. destruct (tasks rs !! x); [|done].
  rewrite pushReady_status. change (set_tasks _ rs) with (relabel x (requeued o) rs).
  rewrite relabel_status. by rewrite decide_False.
Qed.

Lemma requeueTasks_inv l rs : NoDup l → (∀ x, x ∈ l → has_status rs x TaskStatusRunning) →
  owner_inv rs →
  let rs' := fold_left requeueTask l rs in
  owner_inv rs' ∧ (∀ t, t ∈ ready rs' ↔ t ∈ l ∨ t ∈ ready rs) ∧
  (∀ t, tasks rs' !! t = if decide (t ∈ l) then requeued <$> tasks rs !! t else tasks rs !! t) ∧
  seq rs' = seq rs ∧ topo rs' = topo rs ∧ outcomes rs' = outcomes rs ∧ indegree rs' = indegree rs ∧
  total rs' = total rs ∧ terminalCount rs' = terminalCount rs.
Proof.
  intros Hnd. revert rs. induction Hnd as [|x l Hx Hnd IH]; intros rs Hr HI.
  { simpl. split; [done|]. split; [set_solver|]. split; [|done]. done. }
  cbn [fold_left]. destruct (requeueTask_inv x rs HI (Hr x ltac:(set_solver)))
    as (HI1 & Hrd & Et & E1 & E2 & E3 & E4 & E5 & E6).
  destruct (IH (requeueTask rs x)) as (HI2 & Hrd2 & Et2 & F1 & F2 & F3 & F4 & F5 & F6); [|done|].
  { intros y Hy. apply requeueTask_other; [set_solver|]. apply Hr. set_solver. }
  split; [done|]. split; [intros t; rewrite Hrd2, Hrd; set_solver|].
  split; [|by rewrite F1, F2, F3, F4, F5, F6, E1, E2, E3, E4, E5, E6].
  intros t. rewrite Et2, Et, lookup_alter. destruct (decide (x = t)) as [<-|Hne].
  - rewrite decide_False by done. by rewrite decide_True by set_solver.
  - apply decide_ext. set_solver.
Qed.

(** An iteration order of a Go map: every key exactly once. *)
Definition key_order {V} (iter : list uuid) (m : gmap uuid V) : Prop :=
  NoDup iter ∧ ∀ t, t ∈ iter ↔ t ∈ dom m.

Lemma RunningTasks_spec iter rs : key_order iter (tasks rs) →
  NoDup (RunningTasks iter rs) ∧
  ∀ t, t ∈ RunningTasks iter rs ↔ has_status rs t TaskStatusRunning.
Proof.
  intros [Hnd Hk]. unfold RunningTasks. split.
  - rewrite sort_stable_perm. apply NoDup_ListNoDup, List.NoDup_filter. by apply NoDup_ListNoDup.
  - intros t. rewrite sort_stable_perm, list_elem_of_In, List.filter_In, <- list_elem_of_In, Hk, elem_of_dom.
    unfold has_status. split.
    + intros [_ H]. destruct (tasks rs !! t) as [ts|]; [|done]. bool_prop. eauto.
    + intros (ts & -> & ->). split; [by eexists|done].
Qed.

(** Recovery's requeueing keeps the invariant and leaves nothing running. *)
Lemma requeueRunning_spec iter rs rs' out : owner_inv rs → key_order iter (tasks rs) →
  requeueRunning iter rs = (rs', out) →
  owner_inv rs' ∧ (∀ t, ¬ has_status rs' t TaskStatusRunning) ∧
  (∀ t, t ∈ out ↔ has_status rs t TaskStatusRunning) ∧
  (∀ t, t ∈ ready rs' ↔ has_status rs t TaskStatusRunning ∨ t ∈ ready rs) ∧
  (∀ t, tasks rs' !! t = if decide (t ∈ out) then requeued <$> tasks rs !! t else tasks rs !! t) ∧
  seq rs' = seq rs ∧ topo rs' = topo rs ∧ outcomes rs' = outcomes rs ∧ indegree rs' = indegree rs ∧
  total rs' = total rs ∧ terminalCount rs' = terminalCount rs.
Proof.
  intros HI Hk. unfold requeueRunning. intros H. simplify_eq.
  destruct (RunningTasks_spec iter rs Hk) as [Hnd Hin].
  destruct (requeueTasks_inv (RunningTasks iter rs) rs Hnd) as (H1 & H2 & H3 & H4); [|done|].
  { intros x. by rewrite Hin. }
  split; [done|]. split; [|split; [done|]; split; [|by split]].
  - intros t (ts & Hts & E). rewrite H3 in Hts. case_decide as Hd.
    + by destruct (tasks rs !! t); simplify_eq/=.
    + apply Hd, Hin. by exists ts.
  - intros t. by rewrite H2, Hin.
Qed.
