(* ===== verification/Topology.v ===== *)
(** Loading a run's DAG (internal/run/owner_topology.go, and
    [successorEdgesTx] of store.go), and the branch resolution. *)

From S2P Require Import Prelude TriggerRule RunState RunStateInv Tables.

(** * Successor edges of a catalog task (store.go, [successorEdgesTx]) *)

Definition task_before (a b : Task) : bool :=
  (t_Position a <? t_Position b) ||
  ((t_Position a =? t_Position b) && (t_CreatedAt a <? t_CreatedAt b)).

(** [ORDER BY position asc, created_at asc] *)
Definition order_tasks (l : list Task) : list Task := sort_stable task_before l.

(** Without any edge row for the job the tasks run one after the other. *)
Definition successorEdgesTx (db : DB) (task : Task) : list TaskEdge :=
  let edges := select (λ e, (e_FromTaskID e =? t_ID task)%N) (task_edges db) in
  match edges with
  | _ :: _ => edges
  | [] =>
      if (0 <? countb (λ e, (e_JobID e =? t_JobID task)%N) (task_edges db))%nat then []
      else
        match first (order_tasks (select (λ t,
                (t_JobID t =? t_JobID task)%N &&
                ((t_Position task <? t_Position t) ||
                 ((t_Position t =? t_Position task) && (t_CreatedAt task <? t_CreatedAt t))))
              (tasks_tbl db))) with
        | Some next => [mkTaskEdge 0 0 (t_ID next)]
        | None => []
        end
  end.

(** * Building the maps *)

Definition emptyTopology : RunTopology := mkRunTopology ∅ ∅ ∅ ∅.

(** First loop: every task gets empty edge lists, its position and its rule. *)
Definition addTask (t : RunTopology) (idx : nat) (id : uuid) (rule : string) : RunTopology :=
  mkRunTopology (<[id := []]> (Adjacency t)) (<[id := []]> (Predecessors t))
    (<[id := rule]> (TriggerRule t)) (<[id := Z.of_nat idx]> (Order t)).

Fixpoint addTasks (t : RunTopology) (idx : nat) (l : list (uuid * string)) : RunTopology :=
  match l with
  | [] => t
  | (id, rule) :: l' => addTasks (addTask t idx id rule) (S idx) l'
  end.

(** Second loop, one edge: successors outside the run are dropped. The catalog
    loader tests the key in [Adjacency], the replay loader in [Order]; the first
    loop fills both with the same keys. *)
Definition addEdge (from : uuid) (t : RunTopology) (to : uuid) : RunTopology :=
  match Order t !! to with
  | None => t
  | Some _ =>
      mkRunTopology (<[from := adjacency_of t from ++ [to]]> (Adjacency t))
        (<[to := predecessors_of t to ++ [from]]> (Predecessors t)) (TriggerRule t) (Order t)
  end.

Definition addEdges (t : RunTopology) (e : uuid * list uuid) : RunTopology :=
  fold_left (addEdge e.1) e.2 t.

(** The two loops; [nodes] are (task, rule), [edges] (task, successors). *)
Definition buildTopology (nodes : list (uuid * string)) (edges : list (uuid * list uuid)) : RunTopology :=
  fold_left addEdges edges (addTasks emptyTopology 0 nodes).

(** * [loadReplayRunTopology] *)

Inductive topo_err : Type :=
| ErrRunNotFound
| ErrDescriptorMissing (task : uuid)
| ErrDescriptorCorrupt (task : uuid)
| ErrDescriptorVersion (task : uuid) (version : Z).

(** The decoding loop over the run's task rows. *)
Fixpoint decodeDescriptors (l : list TaskRun) : topo_err + list (uuid * TaskExecutionDescriptor) :=
  match l with
  | [] => inr []
  | row :: l' =>
      match tr_Descriptor row with
      | NoDescriptor => inl (ErrDescriptorMissing (tr_TaskID row))
      | CorruptDescriptor => inl (ErrDescriptorCorrupt (tr_TaskID row))
      | Descriptor d =>
          if d_SchemaVersion d =? TaskExecutionDescriptorSchemaVersion then
            match decodeDescriptors l' with
            | inl e => inl e
            | inr ds => inr ((tr_TaskID row, d) :: ds)
            end
          else inl (ErrDescriptorVersion (tr_TaskID row) (d_SchemaVersion d))
      end
  end.

(** Sorting by position; ties keep the created_at order the rows come in. *)
Definition descriptor_before (a b : uuid * TaskExecutionDescriptor) : bool :=
  d_TaskPosition a.2 <? d_TaskPosition b.2.

(** [successor.TaskID == uuid.Nil] entries are skipped. *)
Definition descriptorSuccessors (d : TaskExecutionDescriptor) : list uuid :=
  List.filter (λ id, negb (id =? uuid_Nil)%N) (map er_TaskID (d_Successors d)).

Definition loadReplayRunTopology (db : DB) (runID : uuid) : topo_err + RunTopology :=
  let rows := sort_stable (λ a b, tr_CreatedAt a <? tr_CreatedAt b)
                (select (λ r, (tr_JobRunID r =? runID)%N) (task_runs db)) in
  match decodeDescriptors rows with
  | inl e => inl e
  | inr ds =>
      let ds := sort_stable descriptor_before ds in
      inr (buildTopology
             (map (λ p, (p.1, normalizedTriggerRule (d_TriggerRule p.2))) ds)
             (map (λ p, (p.1, descriptorSuccessors p.2)) ds))
  end.

(** * [LoadRunTopology] *)

Definition findRun (db : DB) (runID : uuid) : option JobRun :=
  first (select (λ r, (jr_ID r =? runID)%N) (job_runs db)).

Definition LoadRunTopology (db : DB) (runID : uuid) : topo_err + RunTopology :=
  match findRun db runID with
  | None => inl ErrRunNotFound
  | Some jobRun =>
      if jr_Quarantine jobRun then loadReplayRunTopology db runID
      else
        let l := order_tasks (select (λ t, (t_JobID t =? jr_JobID jobRun)%N) (tasks_tbl db)) in
        inr (buildTopology
               (map (λ t, (t_ID t, normalizedTriggerRule (t_TriggerRule t))) l)
               (map (λ t, (t_ID t, map e_ToTaskID (successorEdgesTx db t))) l))
  end.

(** * Well-formedness of what the loader builds *)

Lemma map_get_insert (m : gmap uuid (list uuid)) p l q :
  map_get [] (<[p := l]> m) q = if decide (p = q) then l else map_get [] m q.
Proof. unfold map_get. rewrite lookup_insert. by case_decide. Qed.

Lemma addEdge_wf from t to : topo_wf t → from ∈ dom (Order t) → topo_wf (addEdge from t to).
Proof.
  intros [He Hc] Hf. unfold addEdge. destruct (Order t !! to) as [i|] eqn:Ho; [|done].
  assert (to ∈ dom (Order t)) as Ht by (apply elem_of_dom; by eexists).
  constructor.
  - intros p s. unfold adjacency_of, predecessors_of; simpl. rewrite !map_get_insert. specialize (He p s). unfold adjacency_of, predecessors_of in He.
    destruct (decide (from = p)) as [->|Hp], (decide (to = s)) as [->|Hs];
      rewrite ?occ_app; simpl; rewrite ?N.eqb_refl; try lia.
    + destruct (N.eqb_spec to s); [done|lia].
    + destruct (N.eqb_spec from p); [done|lia].
  - intros p s. unfold predecessors_of; simpl. rewrite map_get_insert.
    case_decide as Hs; [subst|apply Hc].
    rewrite elem_of_app, list_elem_of_singleton. intros [?| ->]; [by apply Hc|done].
Qed.

Lemma addEdge_order from t to : Order (addEdge from t to) = Order t.
Proof. unfold addEdge. by case_match. Qed.

Lemma addEdges_wf l t e : topo_wf t → e ∈ dom (Order t) →
  topo_wf (fold_left (addEdge e) l t) ∧ Order (fold_left (addEdge e) l t) = Order t.
Proof.
  revert t. induction l as [|to l IH]; intros t W He; [done|]. cbn [fold_left].
  destruct (IH (addEdge e t to)) as [H1 H2]; [by apply addEdge_wf|by rewrite addEdge_order|].
  split; [done|]. by rewrite H2, addEdge_order.
Qed.

Lemma addAll_wf es t : topo_wf t → Forall (λ e, e.1 ∈ dom (Order t)) es →
  topo_wf (fold_left addEdges es t) ∧ Order (fold_left addEdges es t) = Order t.
Proof.
  revert t. induction es as [|e es IH]; intros t W Hf; [done|]. apply Forall_cons in Hf as [He Hf].
  cbn [fold_left]. destruct (addEdges_wf e.2 t e.1 W He) as [W1 E1].
  destruct (IH (addEdges t e)) as [H1 H2]; [done|unfold addEdges; by rewrite E1|].
  split; [done|]. rewrite H2. apply E1.
Qed.

Definition no_edges (t : RunTopology) : Prop :=
  (∀ p, adjacency_of t p = []) ∧ (∀ p, predecessors_of t p = []).

Lemma addTasks_edges t idx l : no_edges t → no_edges (addTasks t idx l).
Proof.
  revert t idx. induction l as [|[id rule] l IH]; intros t idx [H1 H2]; [done|]. simpl. apply IH.
  split; intros p; unfold adjacency_of, predecessors_of; simpl.
  - rewrite map_get_insert. case_decide; [done|apply H1].
  - rewrite map_get_insert. case_decide; [done|apply H2].
Qed.

Lemma addTasks_dom t idx l :
  dom (Order (addTasks t idx l)) = dom (Order t) ∪ list_to_set (map fst l).
Proof.
  revert t idx. induction l as [|[id rule] l IH]; intros t idx; simpl; [set_solver|].
  rewrite IH. simpl. rewrite dom_insert_L. set_solver.
Qed.

Lemma no_edges_wf t : no_edges t → topo_wf t.
Proof. intros [H1 H2]. constructor; intros p s; rewrite ?H1, ?H2; [done|set_solver]. Qed.

Lemma buildTopology_wf nodes edges : map fst edges ⊆ map fst nodes →
  topo_wf (buildTopology nodes edges) ∧
  dom (Order (buildTopology nodes edges)) = list_to_set (map fst nodes).
Proof.
  intros Hs. unfold buildTopology.
  assert (no_edges (addTasks emptyTopology 0 nodes)) as Hn by (by apply addTasks_edges).
  assert (dom (Order (addTasks emptyTopology 0 nodes)) = list_to_set (map fst nodes)) as Hd.
  { rewrite addTasks_dom. simpl. set_solver. }
  destruct (addAll_wf edges (addTasks emptyTopology 0 nodes)) as [W E].
  - by apply no_edges_wf.
  - apply Forall_forall. intros e He. rewrite Hd. apply elem_of_list_to_set, Hs.
    by apply list_elem_of_In, in_map, list_elem_of_In.
  - split; [done|]. by rewrite E, Hd.
Qed.

(** The loaded topology always satisfies what the owner's state relies on. *)
Lemma LoadRunTopology_wf db runID t : LoadRunTopology db runID = inr t → topo_wf t.
Proof.
  unfold LoadRunTopology. destruct (findRun db runID) as [jr|]; [|done].
  destruct (jr_Quarantine jr).
  - unfold loadReplayRunTopology. destruct (decodeDescriptors _) as [|ds]; [done|].
    intros. simplify_eq. apply buildTopology_wf. intros x. by rewrite !map_map.
  - intros. simplify_eq. apply buildTopology_wf. intros x. by rewrite !map_map.
Qed.
