(* ===== verification/JobGraph.v ===== *)
(** The DAG the executor builds from the catalog (internal/job/job.go, [Run]), and
    its agreement with the topology the run owner loads.

    Errors of the catalog queries end [Run] before the graph is built and are not
    modelled; the edges are taken in table order. *)

From S2P Require Import Prelude TriggerRule Tables RunState RunStateInv Topology.

(** * The graph *)

Record jobGraph := mkJobGraph {
  g_adjacency : gmap uuid (list uuid);
  g_predecessors : gmap uuid (list uuid);
  g_indegree : gmap uuid Z;
}.

Definition graphNode (g : jobGraph) (id : uuid) : jobGraph :=
  mkJobGraph (<[id := []]> (g_adjacency g)) (<[id := []]> (g_predecessors g)) (<[id := 0]> (g_indegree g)).

(** [addEdge]: unknown ends and repeated edges are ignored; the set [edgeSet[from]]
    always holds the members of [adjacency[from]]. *)
Definition graphEdge (g : jobGraph) (e : uuid * uuid) : jobGraph :=
  let '(from, to) := e in
  match g_adjacency g !! from, g_adjacency g !! to with
  | Some targets, Some _ =>
      if bool_decide (to ∈ targets) then g
      else mkJobGraph (<[from := targets ++ [to]]> (g_adjacency g))
             (<[to := map_get [] (g_predecessors g) to ++ [from]]> (g_predecessors g))
             (<[to := map_get 0 (g_indegree g) to + 1]> (g_indegree g))
  | _, _ => g
  end.

(** Without explicit edges the tasks run in order. *)
Definition buildGraph (tasks : list Task) (edges : list TaskEdge) : jobGraph :=
  let ids := map t_ID tasks in
  let g := fold_left graphNode ids (mkJobGraph ∅ ∅ ∅) in
  match edges with
  | [] => fold_left graphEdge (zip ids (tail ids)) g
  | _ => fold_left graphEdge (map (λ e, (e_FromTaskID e, e_ToTaskID e)) edges) g
  end.

(** The tasks of a job in dispatch order, and the graph of the job. *)
Definition jobTasks (jobID : uuid) (db : DB) : list Task :=
  order_tasks (select (λ t, (t_JobID t =? jobID)%N) (tasks_tbl db)).

Definition jobGraphOf (jobID : uuid) (db : DB) : jobGraph :=
  buildGraph (jobTasks jobID db) (select (λ e, (e_JobID e =? jobID)%N) (task_edges db)).

(** * Its invariant *)

(** Counters are the numbers of distinct predecessors. *)
Record graph_ok (g : jobGraph) : Prop := {
  go_count : ∀ t, map_get 0 (g_indegree g) t = Z.of_nat (length (map_get [] (g_predecessors g) t));
  go_edges : ∀ p s, p ∈ map_get [] (g_predecessors g) s ↔ s ∈ map_get [] (g_adjacency g) p;
  go_nodup : ∀ s, NoDup (map_get [] (g_predecessors g) s);
}.

Lemma map_get_ins {V} (d : V) (m : gmap uuid V) k v q : map_get d (<[k := v]> m) q = if decide (k = q) then v else map_get d m q.
Proof. unfold map_get. rewrite lookup_insert. by case_decide. Qed.

Lemma graphEdge_ok g e : graph_ok g → graph_ok (graphEdge g e).
Proof.
  intros [Hc He Hn]. destruct e as [from to]. unfold graphEdge.
  destruct (g_adjacency g !! from) as [targets|] eqn:Ef; [|done]. destruct (g_adjacency g !! to); [|done].
  case_bool_decide as Hin; [done|].
  assert (map_get [] (g_adjacency g) from = targets) as Et by (unfold map_get; by rewrite Ef).
  split; simpl.
  - intros t. rewrite !map_get_ins. case_decide; [|done]. subst. rewrite length_app, Hc. simpl. lia.
  - intros p s. rewrite !map_get_ins. repeat case_decide; subst; rewrite ?elem_of_app, ?list_elem_of_singleton, ?He; set_solver.
  - intros s. rewrite map_get_ins. destruct (decide (to = s)) as [<-|]; [|done]. apply NoDup_app. split; [done|].
    split; [|apply NoDup_singleton]. intros x Hx ->%list_elem_of_singleton. by rewrite He, Et in Hx.
Qed.

(** The nodes before any edge. *)
Definition nodeGraph (ids : list uuid) : jobGraph := fold_left graphNode ids (mkJobGraph ∅ ∅ ∅).

Definition edgeless (g : jobGraph) : Prop :=
  ∀ t, map_get 0 (g_indegree g) t = 0 ∧ map_get [] (g_predecessors g) t = [] ∧ map_get [] (g_adjacency g) t = [].

Lemma nodes_edgeless ids g : edgeless g → edgeless (fold_left graphNode ids g) ∧
  dom (g_adjacency (fold_left graphNode ids g)) = dom (g_adjacency g) ∪ list_to_set ids.
Proof.
  revert g. induction ids as [|id ids IH]; intros g Hg; simpl; [split; [done|set_solver]|].
  destruct (IH (graphNode g id)) as [H1 H2].
  - intros t. simpl. rewrite !map_get_ins. case_decide; [done|apply Hg].
  - split; [done|]. rewrite H2. simpl. rewrite dom_insert_L. set_solver.
Qed.

Lemma nodeGraph_spec ids : edgeless (nodeGraph ids) ∧ dom (g_adjacency (nodeGraph ids)) = list_to_set ids.
Proof.
  destruct (nodes_edgeless ids (mkJobGraph ∅ ∅ ∅)) as [H1 H2]; [done|]. split; [done|].
  unfold nodeGraph. etransitivity; [exact H2|]. simpl. set_solver.
Qed.

Lemma edgeless_ok g : edgeless g → graph_ok g.
Proof.
  intros Hg. split.
  - intros t. destruct (Hg t) as (-> & -> & _). done.
  - intros p s. destruct (Hg s) as (_ & -> & _), (Hg p) as (_ & _ & ->). set_solver.
  - intros s. destruct (Hg s) as (_ & -> & _). constructor.
Qed.

Lemma edges_ok es g : graph_ok g → graph_ok (fold_left graphEdge es g).
Proof. revert g. induction es as [|e es IH]; intros g Hg; [done|]. simpl. by apply IH, graphEdge_ok. Qed.

(** Edge rows of a task's job carry the job. *)
Definition edges_consistent (db : DB) (task : Task) : Prop :=
  ∀ e, e ∈ task_edges db → e_FromTaskID e = t_ID task → e_JobID e = t_JobID task.

Lemma select_none {A} (p : A → bool) (l : list A) : (∀ x, x ∈ l → p x = false) → select p l = [].
Proof.
  intros H. destruct (select p l) as [|x k] eqn:E; [done|].
  assert (x ∈ select p l) as [Hx Hp]%select_elem by (rewrite E; by apply elem_of_cons; left).
  by rewrite (H x Hx) in Hp.
Qed.

Lemma select_all {A} (p : A → bool) (l : list A) : (∀ x, x ∈ l → p x = true) → select p l = l.
Proof.
  induction l as [|x l IH]; intros H; [done|]. unfold select in *. simpl.
  rewrite (H x) by (by apply elem_of_cons; left). f_equal. apply IH. intros y Hy. apply H. by apply elem_of_cons; right.
Qed.

Lemma select_and {A} (p q r : A → bool) (l : list A) : (∀ x, r x = p x && q x) → select r l = select q (select p l).
Proof.
  intros H. induction l as [|x l IH]; [done|]. unfold select in *. simpl. rewrite H.
  destruct (p x); simpl; [|done]. destruct (q x); by rewrite IH.
Qed.

Lemma order_tasks_elem l t : t ∈ order_tasks l ↔ t ∈ l.
Proof. unfold order_tasks. by rewrite sort_stable_perm. Qed.

(** * Agreement with the owner's topology *)

(** The predecessors the two folds collect, over the edges as (from, to) pairs. *)

Lemma graph_dom es g : dom (g_adjacency (fold_left graphEdge es g)) = dom (g_adjacency g).
Proof.
  revert g. induction es as [|[p s] es IH]; intros g; [done|]. simpl. rewrite IH. unfold graphEdge.
  destruct (g_adjacency g !! p) as [l|] eqn:Ep; [|done]. destruct (g_adjacency g !! s); [|done].
  case_bool_decide; [done|]. simpl. rewrite dom_insert_L.
  assert (p ∈ dom (g_adjacency g)) by (apply elem_of_dom; by eexists). set_solver.
Qed.

Lemma graphEdge_preds g f t p s : graph_ok g →
  p ∈ map_get [] (g_predecessors (graphEdge g (f, t))) s ↔
  p ∈ map_get [] (g_predecessors g) s ∨ (p = f ∧ s = t ∧ f ∈ dom (g_adjacency g) ∧ t ∈ dom (g_adjacency g)).
Proof.
  intros [_ He _]. unfold graphEdge. rewrite !elem_of_dom.
  destruct (g_adjacency g !! f) as [l|] eqn:Ef; [|split; [by left|by intros [?|(_ & _ & [? ?] & _)]]].
  destruct (g_adjacency g !! t) as [k|] eqn:Et; [|split; [by left|by intros [?|(_ & _ & _ & [? ?])]]].
  case_bool_decide as Hin; simpl.
  - split; [by left|]. intros [?|(-> & -> & _)]; [done|]. apply He. unfold map_get. by rewrite Ef.
  - rewrite map_get_ins. destruct (decide (t = s)) as [<-|]; [|naive_solver].
    rewrite elem_of_app, list_elem_of_singleton. naive_solver.
Qed.

Lemma graph_preds es g p s : graph_ok g →
  p ∈ map_get [] (g_predecessors (fold_left graphEdge es g)) s ↔
  p ∈ map_get [] (g_predecessors g) s ∨ ((p, s) ∈ es ∧ p ∈ dom (g_adjacency g) ∧ s ∈ dom (g_adjacency g)).
Proof.
  revert g. induction es as [|[f t] es IH]; intros g Hg; cbn [fold_left]; [rewrite elem_of_nil; naive_solver|].
  rewrite IH by (by apply graphEdge_ok). rewrite graphEdge_preds by done.
  replace (dom (g_adjacency (graphEdge g (f, t)))) with (dom (g_adjacency g)) by (by rewrite <- (graph_dom [(f, t)])).
  rewrite elem_of_cons. naive_solver.
Qed.

(** The pairs the graph is built from. *)
Definition graphPairs (tasks : list Task) (edges : list TaskEdge) : list (uuid * uuid) :=
  match edges with
  | [] => zip (map t_ID tasks) (tail (map t_ID tasks))
  | _ => map (λ e, (e_FromTaskID e, e_ToTaskID e)) edges
  end.

Lemma buildGraph_pairs tasks edges :
  buildGraph tasks edges = fold_left graphEdge (graphPairs tasks edges) (nodeGraph (map t_ID tasks)).
Proof. by destruct edges. Qed.

Lemma buildGraph_ok tasks edges : graph_ok (buildGraph tasks edges).
Proof. rewrite buildGraph_pairs. apply edges_ok, edgeless_ok, nodeGraph_spec. Qed.

Lemma buildGraph_preds tasks edges p s :
  p ∈ map_get [] (g_predecessors (buildGraph tasks edges)) s ↔
  (p, s) ∈ graphPairs tasks edges ∧ p ∈ map t_ID tasks ∧ s ∈ map t_ID tasks.
Proof.
  destruct (nodeGraph_spec (map t_ID tasks)) as [He Hd].
  rewrite buildGraph_pairs, graph_preds by (by apply edgeless_ok). rewrite Hd, !elem_of_list_to_set.
  destruct (He s) as (_ & -> & _). rewrite elem_of_nil. naive_solver.
Qed.

(** The pairs of a topology's edge lists. *)
Definition flat (es : list (uuid * list uuid)) : list (uuid * uuid) := flat_map (λ e, map (pair e.1) e.2) es.

Lemma topology_pairs es t :
  fold_left addEdges es t = fold_left (λ t e, addEdge e.1 t e.2) (flat es) t.
Proof.
  revert t. induction es as [|[f l] es IH]; intros t; [done|]. simpl. rewrite fold_left_app, IH. f_equal.
  unfold addEdges. simpl. clear. revert t. induction l as [|x l IH]; intros t; [done|]. simpl. apply IH.
Qed.

Definition is_pair (p s : uuid) (e : uuid * uuid) : bool := (e.1 =? p)%N && (e.2 =? s)%N.

Lemma topology_preds es t p s :
  occ p (predecessors_of (fold_left (λ t e, addEdge e.1 t e.2) es t) s) =
  (occ p (predecessors_of t s) + if decide (s ∈ dom (Order t)) then countb (is_pair p s) es else 0)%nat.
Proof.
  revert t. induction es as [|[f x] es IH]; intros t; cbn [fold_left fst snd].
  { unfold countb. simpl. case_decide; lia. }
  rewrite IH, addEdge_order. rewrite countb_cons. unfold is_pair at 2. cbn [fst snd]. unfold addEdge.
  destruct (Order t !! x) as [i|] eqn:Ex.
  - unfold predecessors_of at 1. simpl. rewrite map_get_insert. destruct (decide (x = s)) as [->|Hx].
    + rewrite !decide_True by (apply elem_of_dom; by eexists). fold (predecessors_of t s).
      rewrite occ_app, N.eqb_refl, andb_true_r. simpl. destruct (f =? p)%N; lia.
    + rewrite (proj2 (N.eqb_neq x s) Hx), andb_false_r. done.
  - destruct (N.eqb_spec x s) as [->|Hx]; [|by rewrite andb_false_r].
    rewrite !decide_False by (by apply not_elem_of_dom). lia.
Qed.

Lemma flat_count es p s l : NoDup (map fst es) → (p, l) ∈ es → countb (is_pair p s) (flat es) = occ s l.
Proof.
  assert (∀ f k, countb (is_pair p s) (map (pair f) k) = if (f =? p)%N then occ s k else 0%nat) as Hk.
  { intros f. induction k as [|x k IH]; [by destruct (_ =? _)%N|]. simpl. rewrite countb_cons, IH. unfold is_pair. simpl.
    destruct (f =? p)%N; simpl; [|done]. destruct (x =? s)%N; done. }
  assert (∀ es, p ∉ map fst es → countb (is_pair p s) (flat es) = 0%nat) as H0.
  { intros k Hn. apply countb_0. intros [f x] ((f' & k') & Hin & (y & [= -> ->] & _)%in_map_iff)%list_elem_of_In%in_flat_map.
    unfold is_pair. simpl. apply andb_false_iff. left. apply N.eqb_neq. intros ->. apply Hn.
    apply list_elem_of_In, in_map_iff. by exists (p, k'). }
  assert (∀ a b, countb (is_pair p s) (a ++ b) = countb (is_pair p s) a + countb (is_pair p s) b)%nat as Ha.
  { intros a b. unfold countb. by rewrite List.filter_app, length_app. }
  induction es as [|[f k] es IH]; intros Hnd Hin; [by apply elem_of_nil in Hin|]. inversion Hnd as [|? ? Hn Hnd']; subst.
  simpl. rewrite Ha, Hk. apply elem_of_cons in Hin as [[= <- <-]|Hin].
  - by rewrite N.eqb_refl, H0, Nat.add_0_r.
  - rewrite IH by done. destruct (N.eqb_spec f p) as [->|]; [|done]. destruct Hn. simpl.
    apply list_elem_of_In, in_map_iff. exists (p, l). by rewrite <- list_elem_of_In.
Qed.

Lemma occ_le1_nodup l : (∀ x, (occ x l ≤ 1)%nat) → NoDup l.
Proof.
  induction l as [|y l IH]; intros H; [constructor|]. constructor.
  - intros Hy%occ_elem. specialize (H y). simpl in H. rewrite N.eqb_refl in H. lia.
  - apply IH. intros x. specialize (H x). simpl in H. lia.
Qed.

Lemma zip_tail {A} (k : list A) a b : (a, b) ∈ zip k (tail k) ↔ ∃ i : nat, k !! i = Some a ∧ k !! S i = Some b.
Proof.
  rewrite list_elem_of_lookup. apply exist_proper. intros i.
  rewrite lookup_zip_with_Some. rewrite lookup_tail. naive_solver.
Qed.

Lemma targets_unique x (es : list TaskEdge) : NoDup (map (λ e, (e_FromTaskID e, e_ToTaskID e)) es) →
  NoDup (map e_ToTaskID (select (λ e, (e_FromTaskID e =? x)%N) es)).
Proof.
  induction es as [|e es IH]; intros H; [constructor|]. inversion H as [|? ? Hn Hnd]; subst. unfold select in *. simpl.
  destruct (N.eqb_spec (e_FromTaskID e) x) as [Ex|]; [|by apply IH]. simpl. constructor; [|by apply IH].
  intros (e' & Ht & [Hin Hf%N.eqb_eq]%List.filter_In)%list_elem_of_In%in_map_iff. apply Hn. simpl. rewrite Ex, <- Hf, <- Ht.
  apply list_elem_of_In, in_map_iff. by exists e'.
Qed.

Section agreement.
Context (db : DB) (jobID : uuid).
Hypothesis ids_unique : NoDup (map t_ID (tasks_tbl db)).
Hypothesis edges_job : ∀ t, t ∈ tasks_tbl db → edges_consistent db t.
Hypothesis edges_unique : NoDup (map (λ e, (e_FromTaskID e, e_ToTaskID e)) (task_edges db)).
Hypothesis places_unique : NoDup (map (λ t, (t_Position t, t_CreatedAt t)) (select (λ t, (t_JobID t =? jobID)%N) (tasks_tbl db))).

Let l := jobTasks jobID db.
Let J := select (λ e, (e_JobID e =? jobID)%N) (task_edges db).
Let succs (t : Task) : list uuid := map e_ToTaskID (successorEdgesTx db t).

Lemma jobTasks_elem t : t ∈ l ↔ t ∈ tasks_tbl db ∧ t_JobID t = jobID.
Proof. unfold l, jobTasks. by rewrite order_tasks_elem, select_elem, N.eqb_eq. Qed.

Lemma jobTasks_ids : NoDup (map t_ID l).
Proof using ids_unique.
  unfold l, jobTasks, order_tasks. rewrite sort_stable_perm. unfold select. clear -ids_unique.
  induction (tasks_tbl db) as [|t ts IH]; [constructor|]. inversion ids_unique as [|? ? Hn Hnd]; subst. simpl.
  destruct (_ =? _)%N; [|by apply IH]. simpl. constructor; [|by apply IH].
  intros (t' & He & [Hin _]%List.filter_In)%list_elem_of_In%in_map_iff. apply Hn.
  apply list_elem_of_In, in_map_iff. by exists t'.
Qed.

Lemma jobTasks_strict : StronglySorted (λ a b, task_before a b = true) l.
Proof using places_unique.
  assert (StronglySorted (not_after task_before) l) as H.
  { apply sort_stable_sorted; intros *; unfold task_before; lia. }
  assert (NoDup (map (λ t, (t_Position t, t_CreatedAt t)) l)) as Hn.
  { unfold l, jobTasks, order_tasks. by rewrite sort_stable_perm. }
  clear -H Hn. induction H as [|x k Hs IH Hf]; [constructor|]. inversion Hn as [|? ? Hx Hn']; subst.
  constructor; [by apply IH|]. rewrite Forall_forall in Hf. apply Forall_forall. intros y Hy. specialize (Hf y Hy).
  unfold not_after, task_before in *. assert ((t_Position x, t_CreatedAt x) ≠ (t_Position y, t_CreatedAt y)) as Hne.
  { intros E. apply Hx. simpl. rewrite E. apply list_elem_of_In, in_map_iff. exists y. by rewrite <- list_elem_of_In. }
  destruct (Z.eq_dec (t_Position x) (t_Position y)) as [Ep|Ep]; [|lia].
  destruct (Z.eq_dec (t_CreatedAt x) (t_CreatedAt y)) as [Ec|Ec]; [destruct Hne; congruence|lia].
Qed.

(** With explicit edges. *)
Lemma succs_explicit t : J ≠ [] → t ∈ l →
  succs t = map e_ToTaskID (select (λ e, (e_FromTaskID e =? t_ID t)%N) (task_edges db)).
Proof.
  intros HJ [Ht Hj]%jobTasks_elem. unfold succs, successorEdgesTx. cbv zeta.
  destruct (select (λ e, (e_FromTaskID e =? t_ID t)%N) (task_edges db)) eqn:E; [|done].
  rewrite (proj2 (Nat.ltb_lt _ _)); [done|]. rewrite Hj. unfold J in HJ. unfold countb. unfold select in HJ.
  destruct (List.filter _ _); [done|]. simpl. lia.
Qed.

(** Without: the next task of the job. *)
Lemma succs_sequential l1 t l2 : J = [] → l = l1 ++ t :: l2 → succs t = option_list (t_ID <$> head l2).
Proof using edges_job places_unique.
  intros HJ El. assert (t ∈ l) as Ht by (rewrite El; apply elem_of_app; right; by apply elem_of_cons; left).
  apply jobTasks_elem in Ht as [Ht Hj]. unfold succs, successorEdgesTx.
  assert (∀ e, e ∈ task_edges db → (e_JobID e =? jobID)%N = false) as Hno.
  { intros e He. destruct (_ =? _)%N eqn:E; [|done]. assert (e ∈ J) as H by (by apply select_elem). rewrite HJ in H. by apply elem_of_nil in H. }
  rewrite (select_none (λ e, (e_FromTaskID e =? t_ID t)%N)).
  2:{ intros e He. apply N.eqb_neq. intros Ef. specialize (Hno e He). rewrite (edges_job t Ht e He Ef), Hj in Hno. by rewrite N.eqb_refl in Hno. }
  rewrite (proj2 (countb_0 _ _)); [|intros e He; rewrite Hj; by apply Hno]. simpl.
  match goal with |- context [order_tasks (select ?p ?tbl)] => assert (order_tasks (select p tbl) = l2) as -> end; [|by destruct l2].
  rewrite (select_and (λ x, (t_JobID x =? jobID)%N) (task_before t)).
  2:{ intros x. unfold task_before. rewrite Hj. f_equal. f_equal. f_equal. apply Z.eqb_sym. }
  unfold order_tasks, select. rewrite sort_stable_filter_comm; [|intros *; unfold task_before; lia|intros *; unfold task_before; lia].
  fold (select (λ x, (t_JobID x =? jobID)%N) (tasks_tbl db)). fold (order_tasks (select (λ x, (t_JobID x =? jobID)%N) (tasks_tbl db))).
  fold (jobTasks jobID db). fold l. pose proof jobTasks_strict as Hs. rewrite El in Hs |- *.
  apply StronglySorted_app in Hs as (H1 & _ & H2). inversion H2 as [|? ? _ Hf]; subst.
  rewrite List.filter_app. simpl. fold (select (task_before t) l1) (select (task_before t) l2).
  rewrite select_none, select_all.
  - unfold task_before. by rewrite !Z.ltb_irrefl, andb_false_r.
  - by rewrite Forall_forall in Hf.
  - intros x Hx. specialize (H1 x t Hx). unfold task_before in *. assert (t ∈ t :: l2) as Hin by (by apply elem_of_cons; left). specialize (H1 Hin). lia.
Qed.

Lemma pairs_agree t s : t ∈ l → (occ s (succs t) ≤ 1)%nat ∧ (s ∈ succs t ↔ (t_ID t, s) ∈ graphPairs l J).
Proof using ids_unique edges_job edges_unique places_unique.
  intros Ht. destruct (decide (length J = 0)%nat) as [HJ%nil_length_inv|HJ].
  - apply list_elem_of_split in Ht as (l1 & l2 & El). rewrite (succs_sequential l1 t l2 HJ El), HJ.
    split; [destruct l2; simpl; [lia|]; case_match; lia|]. cbn [graphPairs]. rewrite zip_tail.
    pose proof jobTasks_ids as Hnd. rewrite El in Hnd |- *. rewrite map_app in Hnd |- *. cbn [map] in Hnd |- *.
    assert ((map t_ID l1 ++ t_ID t :: map t_ID l2) !! length (map t_ID l1) = Some (t_ID t)) as Hi by (by apply list_lookup_middle).
    assert ((map t_ID l1 ++ t_ID t :: map t_ID l2) !! S (length (map t_ID l1)) = t_ID <$> head l2) as Hn.
    { rewrite lookup_app_r by lia. replace (S _ - _)%nat with 1%nat by lia. by destruct l2. }
    split.
    + intros Hs. exists (length (map t_ID l1)). split; [done|]. rewrite Hn. destruct l2; simpl in *; set_solver.
    + intros (i & H1 & H2). assert (i = length (map t_ID l1)) as -> by (by eapply NoDup_lookup).
      rewrite Hn in H2. rewrite H2. by apply list_elem_of_singleton.
  - rewrite succs_explicit by (try done; by intros ->). split; [by apply occ_nodup, targets_unique|].
    assert (graphPairs l J = map (λ e, (e_FromTaskID e, e_ToTaskID e)) J) as -> by (by destruct J).
    apply jobTasks_elem in Ht as [Ht Hj]. rewrite !list_elem_of_In, !in_map_iff. apply exist_proper. intros e.
    unfold J. rewrite <- !list_elem_of_In, !select_elem, !N.eqb_eq. split.
    + intros (<- & He & Hf). rewrite Hf. by rewrite (edges_job t Ht e He Hf), Hj.
    + intros ([= H1 H2] & He & _). done.
Qed.

Lemma topology_count p s : p ∈ map t_ID l → s ∈ map t_ID l →
  let T := buildTopology (map (λ t, (t_ID t, normalizedTriggerRule (t_TriggerRule t))) l) (map (λ t, (t_ID t, succs t)) l) in
  ∃ t, t ∈ l ∧ t_ID t = p ∧ occ p (predecessors_of T s) = occ s (succs t).
Proof using ids_unique.
  intros (t & <- & Ht%list_elem_of_In)%list_elem_of_In%in_map_iff Hs T. exists t. split; [done|]. split; [done|].
  unfold T, buildTopology. rewrite topology_pairs, topology_preds, addTasks_dom.
  destruct (addTasks_edges emptyTopology 0 (map (λ t0, (t_ID t0, normalizedTriggerRule (t_TriggerRule t0))) l)) as [_ ->]; [done|].
  rewrite decide_True; [|simpl; rewrite map_map; simpl; apply elem_of_union_r; by apply elem_of_list_to_set].
  simpl. apply flat_count; [rewrite map_map; by apply jobTasks_ids|].
  apply list_elem_of_In, in_map_iff. exists t. by rewrite <- list_elem_of_In.
Qed.

End agreement.

(** The predecessor lists of both sides are permutations of each other. *)
Lemma graph_agrees db runID jobRun T :
  findRun db runID = Some jobRun → jr_Quarantine jobRun = false →
  NoDup (map t_ID (tasks_tbl db)) → (∀ t, t ∈ tasks_tbl db → edges_consistent db t) →
  NoDup (map (λ e, (e_FromTaskID e, e_ToTaskID e)) (task_edges db)) →
  NoDup (map (λ t, (t_Position t, t_CreatedAt t)) (select (λ t, (t_JobID t =? jr_JobID jobRun)%N) (tasks_tbl db))) →
  LoadRunTopology db runID = inr T →
  let g := jobGraphOf (jr_JobID jobRun) db in
  ∀ s, map_get [] (g_predecessors g) s ≡ₚ predecessors_of T s ∧
    map_get 0 (g_indegree g) s = Z.of_nat (length (predecessors_of T s)).
Proof.
  intros Hj Hq H1 H2 H3 H4 HT g s. pose proof (LoadRunTopology_wf _ _ _ HT) as [_ Hc].
  unfold LoadRunTopology in HT. rewrite Hj, Hq in HT. injection HT as HT. fold (jobTasks (jr_JobID jobRun) db) in HT.
  set (l := jobTasks (jr_JobID jobRun) db) in *.
  assert (∀ p s', p ∈ predecessors_of T s' → p ∈ map t_ID l ∧ s' ∈ map t_ID l) as Hdom.
  { intros p s' Hp. apply Hc in Hp. subst T. revert Hp. unfold buildTopology.
    destruct (buildTopology_wf (map (λ t, (t_ID t, normalizedTriggerRule (t_TriggerRule t))) l)
      (map (λ t, (t_ID t, map e_ToTaskID (successorEdgesTx db t))) l)) as [_ Hd]; [intros x; by rewrite !map_map|].
    unfold buildTopology in Hd. rewrite Hd, !elem_of_list_to_set, !map_map. done. }
  assert (∀ p, p ∈ predecessors_of T s → occ p (predecessors_of T s) = 1%nat ∧ p ∈ map_get [] (g_predecessors g) s) as HA.
  { intros p Hp. destruct (Hdom p s Hp) as [Hpi Hsi]. apply occ_elem in Hp.
    destruct (topology_count db (jr_JobID jobRun) H1 p s Hpi Hsi) as (t & Ht & Et & Eo). cbv zeta in Eo. fold l in Eo. rewrite HT in Eo.
    destruct (pairs_agree db (jr_JobID jobRun) H1 H2 H3 H4 t s Ht) as [L E]. split; [lia|].
    apply buildGraph_preds. split; [|done]. rewrite <- Et. apply E, occ_elem. lia. }
  assert (map_get [] (g_predecessors g) s ≡ₚ predecessors_of T s) as HP.
  { apply NoDup_Permutation.
    - apply (go_nodup _ (buildGraph_ok _ _)).
    - apply occ_le1_nodup. intros x. destruct (decide (x ∈ predecessors_of T s)) as [Hx|Hx]; [by rewrite (proj1 (HA x Hx))|].
      destruct (occ x _) eqn:E; [lia|]. destruct Hx. apply occ_elem. lia.
    - intros p. split; [|by intros Hp; apply HA]. intros (Hp & Hpi & Hsi)%buildGraph_preds.
      destruct (topology_count db (jr_JobID jobRun) H1 p s Hpi Hsi) as (t & Ht & Et & Eo). cbv zeta in Eo. fold l in Eo. rewrite HT in Eo.
      apply occ_elem. rewrite Eo. apply occ_elem. apply (pairs_agree db (jr_JobID jobRun) H1 H2 H3 H4 t s Ht). by rewrite Et. }
  split; [done|]. unfold g, jobGraphOf. rewrite (go_count _ (buildGraph_ok _ _)). f_equal. by apply Permutation_length.
Qed.

(** C31: the executor's graph and the owner's topology agree: for a run that is not
    quarantined, over tables whose task identifiers are unique, whose edges are consistent
    with the tasks and unique (the schema does not force this), and whose job's tasks
    differ in position or creation time, the predecessor list [Run] builds for a task is
    a permutation of the one [LoadRunTopology] loads, and the counter registered for the
    task is its length, so both sides start the countdown of every task at the same
    number, with explicit and with sequential edges. *)
Theorem graph_matches_topology db runID jobRun T :
  findRun db runID = Some jobRun → jr_Quarantine jobRun = false →
  NoDup (map t_ID (tasks_tbl db)) → (∀ t, t ∈ tasks_tbl db → edges_consistent db t) →
  NoDup (map (λ e, (e_FromTaskID e, e_ToTaskID e)) (task_edges db)) →
  NoDup (map (λ t, (t_Position t, t_CreatedAt t)) (select (λ t, (t_JobID t =? jr_JobID jobRun)%N) (tasks_tbl db))) →
  LoadRunTopology db runID = inr T →
  let g := jobGraphOf (jr_JobID jobRun) db in
  ∀ s, map_get [] (g_predecessors g) s ≡ₚ predecessors_of T s ∧
    map_get 0 (g_indegree g) s = Z.of_nat (length (predecessors_of T s)).
Proof. apply graph_agrees. Qed.

(** Two jobs: a diamond with explicit edges, and three tasks in sequence. *)
Definition graph_db : DB :=
  mkDB [] [mkTask 4 7 "join" 3 "" TriggerRuleAllDone 0 ∅; mkTask 1 7 "split" 0 "" "" 0 ∅;
           mkTask 2 7 "left" 1 "" "" 0 ∅; mkTask 3 7 "right" 2 "" "" 0 ∅;
           mkTask 13 8 "load" 2 "" "" 0 ∅; mkTask 11 8 "extract" 0 "" "" 0 ∅; mkTask 12 8 "transform" 1 "" "" 0 ∅]
    [mkTaskEdge 7 1 2; mkTaskEdge 7 1 3; mkTaskEdge 7 2 4; mkTaskEdge 7 3 4]
    [mkJobRun 100 7 None 0 "running" 2 BlobEmpty "" false 0 None;
     mkJobRun 200 8 None 0 "running" 2 BlobEmpty "" false 0 None] [] [] [] [] [].

Lemma graph_db_edges t : t ∈ tasks_tbl graph_db → edges_consistent graph_db t.
Proof.
  intros Ht e He. unfold graph_db in Ht, He. cbn [tasks_tbl] in Ht. cbn [task_edges] in He.
  repeat (apply elem_of_cons in Ht as [->|Ht]; [repeat (apply elem_of_cons in He as [->|He]; [done|]); by apply elem_of_nil in He|]).
  by apply elem_of_nil in Ht.
Qed.

Lemma graph_matches_topology_witness :
  ∃ T7 T8, LoadRunTopology graph_db 100 = inr T7 ∧ LoadRunTopology graph_db 200 = inr T8 ∧
  map_get 0 (g_indegree (jobGraphOf 7 graph_db)) 4 = Z.of_nat (length (predecessors_of T7 4)) ∧
  predecessors_of T7 4 = [2; 3]%N ∧
  map_get [] (g_predecessors (jobGraphOf 8 graph_db)) 13 ≡ₚ predecessors_of T8 13 ∧ predecessors_of T8 13 = [12]%N.
Proof.
  eexists _, _. split; [vm_compute; reflexivity|]. split; [vm_compute; reflexivity|]. split; [|split; [vm_compute; reflexivity|split; [|vm_compute; reflexivity]]].
  - apply (graph_matches_topology graph_db 100 (mkJobRun 100 7 None 0 "running" 2 BlobEmpty "" false 0 None));
      [reflexivity|reflexivity|decide_vm|exact graph_db_edges|decide_vm|decide_vm|vm_compute; reflexivity].
  - apply (graph_matches_topology graph_db 200 (mkJobRun 200 8 None 0 "running" 2 BlobEmpty "" false 0 None));
      [reflexivity|reflexivity|decide_vm|exact graph_db_edges|decide_vm|decide_vm|vm_compute; reflexivity].
Defined.
