(* ===== verification/Register.v ===== *)
(** Registration of a run's tasks (internal/run/store.go, [RegisterTasks] and the
    descriptor capture; internal/job/job.go, the inputs the executor registers), and
    its theorems: one pending row per task, no
    duplicates, idempotence, and a descriptor set that replays the very topology
    the catalog had.

    The columns copied from the atom, the job and the cache configuration are not
    modelled, and of the descriptor only the schema version, the DAG part (edges,
    rule, branch behaviour, position) and the task type; [now] is the time gorm stamps on the inserted batch and [fresh] gives the row
    identifiers. *)

From S2P Require Import Prelude TriggerRule Tables Store TxLogic RunState RunStateInv Topology JobGraph.

(** * Descriptor capture *)

Definition taskEdgeRefTx (taskID : uuid) : Tx TaskExecutionEdgeRef :=
  task ← firstTask taskID; mret (mkEdgeRef (t_ID task) (t_Name task)).

(** The loops that resolve one side of the edges, in order. *)
Fixpoint edgeRefsTx (ids : list uuid) : Tx (list TaskExecutionEdgeRef) :=
  match ids with
  | [] => mret []
  | id :: l => ref ← taskEdgeRefTx id; refs ← edgeRefsTx l; mret (ref :: refs)
  end.

Definition taskRef (t : Task) : TaskExecutionEdgeRef := mkEdgeRef (t_ID t) (t_Name t).

(** Later in [ORDER BY position, created_at]. *)
Definition is_later (task t : Task) : bool :=
  (t_JobID t =? t_JobID task)%N &&
  ((t_Position task <? t_Position t) || ((t_Position t =? t_Position task) && (t_CreatedAt task <? t_CreatedAt t))).

Definition is_earlier (task t : Task) : bool :=
  (t_JobID t =? t_JobID task)%N &&
  ((t_Position t <? t_Position task) || ((t_Position t =? t_Position task) && (t_CreatedAt t <? t_CreatedAt task))).

Definition taskDescriptorEdgesTx (task : Task)
    : Tx (list TaskExecutionEdgeRef * list TaskExecutionEdgeRef) :=
  edgeCount ← Query (λ db, countb (λ e, (e_JobID e =? t_JobID task)%N) (task_edges db));
  if (0 <? edgeCount)%nat then
    predEdges ← Query (λ db, select (λ e, (e_ToTaskID e =? t_ID task)%N) (task_edges db));
    predecessors ← edgeRefsTx (map e_FromTaskID predEdges);
    succEdges ← Query (λ db, select (λ e, (e_FromTaskID e =? t_ID task)%N) (task_edges db));
    successors ← edgeRefsTx (map e_ToTaskID succEdges);
    mret (predecessors, successors)
  else
    prev ← Query (λ db, first (sort_stable (λ a b, task_before b a) (select (is_earlier task) (tasks_tbl db))));
    next ← Query (λ db, first (order_tasks (select (is_later task) (tasks_tbl db))));
    mret (option_list (taskRef <$> prev), option_list (taskRef <$> next)).

Definition initialTaskExecutionDescriptorTx (task : Task) : Tx TaskExecutionDescriptor :=
  edges ← taskDescriptorEdgesTx task;
  let taskType := if t_Type task =s "" then "task" else t_Type task in
  mret (mkDescriptor TaskExecutionDescriptorSchemaVersion edges.1 edges.2
          (normalizedTriggerRule (t_TriggerRule task)) taskType (t_Position task) taskType).

(** * [RegisterTasks] *)

(** The atom's own columns are not modelled. *)
Record Atom := mkAtom { a_ID : uuid }.

Record RegisterTaskInput := mkRegisterTaskInput {
  ri_Task : option Task;
  ri_Atom : option Atom;
  ri_OutstandingPredecessors : Z;
}.

Definition newTaskRun (id : uuid) (now : Z) (jobRun : JobRun) (task : Task) (outstanding : Z)
    (d : TaskExecutionDescriptor) : TaskRun :=
  mkTaskRun id (jr_ID jobRun) (t_ID task) TaskStatusPending "" None 0 None 1 (jr_Priority jobRun)
    "" None None false None None None "" false "" "" outstanding 0 0 None None now
    (jr_Quarantine jobRun) (Descriptor d) (t_NodeSelector task).

(** The loop over the inputs: records and ready events; [existing] are the tasks
    that already have a row, [seen] those met earlier in the loop. *)
Fixpoint newRecordsTx (fresh : nat → uuid) (now : Z) (jobRun : JobRun) (existing seen : list uuid)
    (inputs : list (Task * Z)) : Tx (list TaskRun * list ExecutionEvent) :=
  match inputs with
  | [] => mret ([], [])
  | (task, outstanding) :: inputs' =>
      if bool_decide (t_ID task ∈ existing) || bool_decide (t_ID task ∈ seen)
      then newRecordsTx fresh now jobRun existing seen inputs'
      else
        d ← initialTaskExecutionDescriptorTx task;
        rest ← newRecordsTx fresh now jobRun existing (t_ID task :: seen) inputs';
        mret (newTaskRun (fresh (length inputs')) now jobRun task outstanding d :: rest.1,
              (if outstanding =? 0
               then [mkExecutionEvent TypeTaskReady (jr_JobID jobRun) (jr_ID jobRun) (t_ID task) (jr_Quarantine jobRun)]
               else []) ++ rest.2)
  end.

(** The transaction of [RegisterTasks]. *)
Definition registerTasksTx (fresh : nat → uuid) (now : Z) (jobRun : JobRun) (inputs : list (Task * Z)) : Tx () :=
  let taskIDs := map (λ p, t_ID p.1) inputs in
  existing ← Query (λ db, map tr_TaskID (select (λ r, (tr_JobRunID r =? jr_ID jobRun)%N &&
                                                       bool_decide (tr_TaskID r ∈ taskIDs)) (task_runs db)));
  new ← newRecordsTx fresh now jobRun existing [] inputs;
  match new.1 with
  | [] => mret ()
  | _ => λ db, inr ((), set_execution_events (execution_events db ++ new.2)
                          (set_task_runs (task_runs db ++ new.1) db))
  end.

(** Every input must name a task and an atom. *)
Fixpoint validInputs (inputs : list RegisterTaskInput) : option (list (Task * Z)) :=
  match inputs with
  | [] => Some []
  | i :: inputs' =>
      match ri_Task i, ri_Atom i with
      | Some task, Some _ => cons (task, ri_OutstandingPredecessors i) <$> validInputs inputs'
      | _, _ => None
      end
  end.

Definition RegisterTasks (faults : nat → option store_error) (fresh : nat → uuid) (now : Z) (runID : uuid)
    (inputs : list RegisterTaskInput) (db : DB) : (store_error + ()) * DB :=
  match inputs with
  | [] => (inr (), db)
  | _ =>
      match validInputs inputs with
      | None => (inl (ErrMessage "run: task and atom must be provided"), db)
      | Some l =>
          match first (select (is_run runID) (job_runs db)) with
          | None => (inl ErrRecordNotFound, db)
          | Some jobRun => withStoreBusyRetry faults (registerTasksTx fresh now jobRun l) db
          end
      end
  end.

(** The inputs the executor registers. *)
Definition runInputs (atoms : uuid → option Atom) (tasks : list Task) (g : jobGraph) : list RegisterTaskInput :=
  map (λ t, mkRegisterTaskInput (Some t) (atoms (t_ID t)) (map_get 0 (g_indegree g) (t_ID t))) tasks.

(** * Registration *)

(** Descriptor capture only reads. *)
Lemma edgeRefsTx_read ids db refs db' : edgeRefsTx ids db = inr (refs, db') →
  db' = db ∧ map er_TaskID refs = ids ∧ ∀ id, id ∈ ids → ∃ t, t ∈ tasks_tbl db ∧ t_ID t = id.
Proof.
  revert refs. induction ids as [|id ids IH]; intros refs.
  { intros [-> ->]%ret_inr. split; [done|]. split; [done|]. intros id Hin. by apply elem_of_nil in Hin. }
  simpl. intros (ref & db1 & E1 & E2)%bind_inr. unfold taskEdgeRefTx in E1.
  apply bind_inr in E1 as (t & db2 & E1 & [-> ->]%ret_inr). unfold firstTask, First in E1.
  destruct (first (select (λ t0, (t_ID t0 =? id)%N) (tasks_tbl db))) as [t'|] eqn:Ef; [|done]. injection E1 as -> <-.
  apply head_Some_elem_of, select_elem in Ef as [Hin Hid]. apply N.eqb_eq in Hid.
  apply bind_inr in E2 as (refs' & db3 & E2 & [-> ->]%ret_inr). apply IH in E2 as (-> & E & H).
  split; [done|]. split; [simpl; by rewrite Hid, E|]. intros x [->|Hx]%elem_of_cons; [by exists t|by apply H].
Qed.

Lemma descriptor_read task db d db' : initialTaskExecutionDescriptorTx task db = inr (d, db') → db' = db.
Proof.
  unfold initialTaskExecutionDescriptorTx. intros (edges & db1 & E1 & [_ ->]%ret_inr)%bind_inr.
  unfold taskDescriptorEdgesTx in E1. apply bind_inr in E1 as (n & db2 & [-> ->]%query_inr & E1).
  destruct (0 <? _)%nat.
  - apply bind_inr in E1 as (pe & db2 & [-> ->]%query_inr & E1).
    apply bind_inr in E1 as (ps & db2 & (-> & _)%edgeRefsTx_read & E1).
    apply bind_inr in E1 as (se & db2 & [-> ->]%query_inr & E1).
    by apply bind_inr in E1 as (ss & db2 & (-> & _)%edgeRefsTx_read & [_ ->]%ret_inr).
  - apply bind_inr in E1 as (pe & db2 & [-> ->]%query_inr & E1).
    by apply bind_inr in E1 as (se & db2 & [-> ->]%query_inr & [_ ->]%ret_inr).
Qed.

(** A record built from an input. *)
Definition record_of (now : Z) (jobRun : JobRun) (db : DB) (p : Task * Z) (r : TaskRun) : Prop :=
  ∃ id d, initialTaskExecutionDescriptorTx p.1 db = inr (d, db) ∧ r = newTaskRun id now jobRun p.1 p.2 d.

Lemma newRecords_spec fresh now jobRun existing seen inputs db new db' :
  newRecordsTx fresh now jobRun existing seen inputs db = inr (new, db') →
  db' = db ∧ NoDup (map tr_TaskID new.1) ∧
  (∀ r, r ∈ new.1 → tr_TaskID r ∉ existing ∧ tr_TaskID r ∉ seen ∧ ∃ p, p ∈ inputs ∧ record_of now jobRun db p r) ∧
  (∀ p, p ∈ inputs → t_ID p.1 ∈ existing ∨ t_ID p.1 ∈ seen ∨ t_ID p.1 ∈ map tr_TaskID new.1).
Proof.
  revert seen new. induction inputs as [|[task outstanding] inputs IH]; intros seen new.
  { intros [-> ->]%ret_inr. simpl. split; [done|]. split; [constructor|]. split; intros ? Hin; by apply elem_of_nil in Hin. }
  simpl. destruct (_ || _) eqn:Eo.
  - intros (-> & Hnd & Hr & Hp)%IH. split; [done|]. split; [done|]. split.
    + intros r (? & ? & p & Hin & ?)%Hr. split; [done|]. split; [done|]. exists p. split; [by apply elem_of_cons; right|done].
    + intros p [->|Hin]%elem_of_cons; [|by apply Hp]. apply orb_true_iff in Eo. rewrite !bool_decide_eq_true in Eo. simpl. tauto.
  - intros (d & db1 & E1 & E2)%bind_inr. pose proof (descriptor_read _ _ _ _ E1) as ->.
    apply bind_inr in E2 as (rest & db2 & E2 & [-> ->]%ret_inr). apply IH in E2 as (-> & Hnd & Hr & Hp).
    apply orb_false_iff in Eo as [Eo1%bool_decide_eq_false Eo2%bool_decide_eq_false]. cbn [fst snd].
    split; [done|]. split; [|split].
    + simpl. constructor; [|done]. intros (r & Hid & Hin%list_elem_of_In)%list_elem_of_In%in_map_iff.
      destruct (Hr r Hin) as (_ & Hs & _). rewrite Hid in Hs. apply Hs. by apply elem_of_cons; left.
    + intros r [->|Hin]%elem_of_cons.
      * split; [done|]. split; [done|]. exists (task, outstanding). split; [by apply elem_of_cons; left|].
        by exists (fresh (length inputs)), d.
      * destruct (Hr r Hin) as (H1 & H2 & p & Hpin & H3). split; [done|]. split; [set_solver|].
        exists p. split; [by apply elem_of_cons; right|done].
    + intros p [->|Hin]%elem_of_cons; [right; right; simpl; set_solver|].
      destruct (Hp p Hin) as [?|[?|?]]; [by left| |right; right; simpl; set_solver].
      simpl in *. set_solver.
Qed.

Lemma newRecords_none fresh now jobRun existing seen inputs db : (∀ p, p ∈ inputs → t_ID p.1 ∈ existing) →
  newRecordsTx fresh now jobRun existing seen inputs db = inr (([], []), db).
Proof.
  induction inputs as [|[task o] inputs IH]; intros H; [done|]. simpl.
  rewrite bool_decide_eq_true_2 by (apply (H (task, o)); by apply elem_of_cons; left). simpl. apply IH.
  intros p Hp. apply H. by apply elem_of_cons; right.
Qed.

Lemma validInputs_spec inputs l : validInputs inputs = Some l →
  (∀ i t, i ∈ inputs → ri_Task i = Some t → (t, ri_OutstandingPredecessors i) ∈ l) ∧
  (∀ p, p ∈ l → ∃ i, i ∈ inputs ∧ ri_Task i = Some p.1 ∧ ri_OutstandingPredecessors i = p.2).
Proof.
  revert l. induction inputs as [|i inputs IH]; intros l; simpl.
  { intros [= <-]. split; [intros i t Hin|intros p Hin]; by apply elem_of_nil in Hin. }
  destruct (ri_Task i) as [task|] eqn:Et; [|done]. destruct (ri_Atom i); [|done].
  destruct (validInputs inputs) as [l'|]; [|done]. intros [= <-]. destruct (IH l' eq_refl) as [H1 H2]. split.
  - intros i' t [->|Hin]%elem_of_cons E; [simplify_eq; by apply elem_of_cons; left|].
    apply elem_of_cons; right. by apply H1.
  - intros p [->|Hin]%elem_of_cons; [exists i; split; [by apply elem_of_cons; left|done]|].
    destruct (H2 p Hin) as (i' & Hi & H). exists i'. split; [by apply elem_of_cons; right|done].
Qed.

(** The rows of the run among the given tasks. *)
Definition existing_ids (run : uuid) (ids : list uuid) (db : DB) : list uuid :=
  map tr_TaskID (select (λ r, (tr_JobRunID r =? run)%N && bool_decide (tr_TaskID r ∈ ids)) (task_runs db)).

Lemma existing_elem run ids db t : t ∈ existing_ids run ids db ↔
  t ∈ ids ∧ ∃ r, r ∈ task_runs db ∧ task_key r = (run, t).
Proof.
  unfold existing_ids. rewrite list_elem_of_In, in_map_iff. setoid_rewrite <- list_elem_of_In.
  setoid_rewrite select_elem. setoid_rewrite andb_true_iff. setoid_rewrite N.eqb_eq. setoid_rewrite bool_decide_eq_true.
  unfold task_key. split.
  - intros (r & <- & Hr & Hrun & Hin). split; [done|]. exists r. by rewrite Hrun.
  - intros (Hin & r & Hr & [= <- <-]). by exists r.
Qed.

Lemma registerTasksTx_spec fresh now jobRun l db db' : registerTasksTx fresh now jobRun l db = inr ((), db') →
  ∃ new, newRecordsTx fresh now jobRun (existing_ids (jr_ID jobRun) (map (λ p, t_ID p.1) l) db) [] l db = inr (new, db) ∧
    task_runs db' = task_runs db ++ new.1 ∧ tasks_tbl db' = tasks_tbl db ∧ job_runs db' = job_runs db ∧
    run_checkpoints db' = run_checkpoints db ∧ task_edges db' = task_edges db.
Proof.
  unfold registerTasksTx. cbv zeta. intros (ex & db1 & [-> ->]%query_inr & E)%bind_inr.
  apply bind_inr in E as (new & db2 & E1 & E2). pose proof (newRecords_spec _ _ _ _ _ _ _ _ _ E1) as (-> & _).
  exists new. split; [exact E1|]. destruct (new.1) as [|r rs].
  - apply ret_inr in E2 as [_ ->]. by rewrite app_nil_r.
  - injection E2 as <-. done.
Qed.

Lemma new_key now jobRun db p r : record_of now jobRun db p r → task_key r = (jr_ID jobRun, t_ID p.1).
Proof. intros (id & d & _ & ->). done. Qed.

Lemma registration_unique now jobRun existing inputs db new :
  rows_unique db → NoDup (map tr_TaskID new) →
  (∀ r, r ∈ new → tr_TaskID r ∉ existing_ids (jr_ID jobRun) (map (λ p, t_ID p.1) inputs) db ∧
     ∃ p, p ∈ inputs ∧ record_of now jobRun existing p r) →
  NoDup (map task_key (task_runs db ++ new)).
Proof.
  intros Hu Hnd Hr. rewrite map_app. apply NoDup_app. split; [done|]. split.
  - intros k (r0 & <- & Hr0%list_elem_of_In)%list_elem_of_In%in_map_iff (r & Hk & Hin%list_elem_of_In)%list_elem_of_In%in_map_iff.
    destruct (Hr r Hin) as (Hn & p & Hp & R). pose proof (new_key _ _ _ _ _ R) as Hk'. apply Hn, existing_elem.
    unfold task_key in Hk'. injection Hk' as E1 E2. rewrite E2. split.
    + apply list_elem_of_In, in_map_iff. exists p. by rewrite <- list_elem_of_In.
    + exists r0. split; [done|]. rewrite <- Hk. unfold task_key. congruence.
  - clear -Hnd. induction new as [|r l IH]; [constructor|]. inversion Hnd as [|? ? Hn Hnd']; subst. simpl.
    constructor; [|by apply IH]. intros (r' & Hk & Hin)%list_elem_of_In%in_map_iff. apply Hn.
    apply list_elem_of_In, in_map_iff. exists r'. split; [|done]. unfold task_key in Hk. by injection Hk.
Qed.

(** Registration adds exactly one pending, unclaimed row with the given counter
    for every task that has none, leaves the existing rows as they are, keeps (run,
    task) unique although the schema has no such constraint, and is idempotent: a
    second registration of the same tasks changes nothing. *)
Lemma registration_effect faults fresh now run inputs db db' :
  rows_unique db → RegisterTasks faults fresh now run inputs db = (inr (), db') →
  rows_unique db' ∧
  (∃ new, task_runs db' = task_runs db ++ new ∧ ∀ r, r ∈ new →
     tr_JobRunID r = run ∧ tr_Status r = TaskStatusPending ∧ tr_ClaimedBy r = "" ∧
     ∃ i t, i ∈ inputs ∧ ri_Task i = Some t ∧ tr_TaskID r = t_ID t ∧
       tr_OutstandingPredecessors r = ri_OutstandingPredecessors i) ∧
  (∀ i t, i ∈ inputs → ri_Task i = Some t → ∃ r, r ∈ task_runs db' ∧ task_key r = (run, t_ID t)) ∧
  ∀ fresh' now', RegisterTasks (λ _, None) fresh' now' run inputs db' = (inr (), db').
Proof.
  intros Hu. unfold RegisterTasks. destruct inputs as [|i0 inputs0]; [|remember (i0 :: inputs0) as inputs eqn:Ei].
  { intros [= <-]. split; [done|]. split; [exists []; rewrite app_nil_r; split; [done|]|split; [|done]].
    - intros r Hr. by apply elem_of_nil in Hr.
    - intros i t Hi. by apply elem_of_nil in Hi. }
  destruct (validInputs inputs) as [l|] eqn:Ev; [|done]. destruct (validInputs_spec _ _ Ev) as [V1 V2].
  destruct (first (select (is_run run) (job_runs db))) as [jobRun|] eqn:Ej; [|done].
  assert (jr_ID jobRun = run) as Hid.
  { apply head_Some_elem_of, select_elem in Ej as [_ H]. by apply N.eqb_eq in H. }
  intros E. apply busyRetryLoop_atomic in E. apply registerTasksTx_spec in E as (new & En & Er & _ & Ejr & _ & _).
  destruct (newRecords_spec _ _ _ _ _ _ _ _ _ En) as (_ & Hnd & Hr & Hp). rewrite Hid in *.
  assert (rows_unique db') as Hu'.
  { unfold rows_unique. rewrite Er. eapply (registration_unique now jobRun db l); [done|done|].
    intros r Hin. rewrite Hid. destruct (Hr r Hin) as (? & _ & ?). done. }
  assert (∀ p, p ∈ l → ∃ r, r ∈ task_runs db' ∧ task_key r = (run, t_ID p.1)) as Hall.
  { intros p Hin. rewrite Er. destruct (Hp p Hin) as [(_ & r & H1 & H2)%existing_elem|[Hn|(r & Hi & Hr1%list_elem_of_In)%list_elem_of_In%in_map_iff]].
    - exists r. split; [apply elem_of_app; by left|done].
    - by apply elem_of_nil in Hn.
    - exists r. split; [apply elem_of_app; by right|]. destruct (Hr r Hr1) as (_ & _ & q & _ & R).
      rewrite (new_key _ _ _ _ _ R), Hid, <- Hi. f_equal. apply new_key in R. unfold task_key in R. by injection R. }
  split; [done|]. split; [|split].
  - exists new.1. split; [done|]. intros r Hin. destruct (Hr r Hin) as (_ & _ & p & Hpin & id & d & _ & ->).
    destruct (V2 p Hpin) as (i & Hi & H1 & H2). split; [done|]. split; [done|]. split; [done|]. by exists i, p.1.
  - intros i t Hi Ht. by apply (Hall (t, ri_OutstandingPredecessors i)), V1.
  - intros fresh' now'. rewrite Ejr, Ej. rewrite busyRetry_nofault.
    unfold registerTasksTx. cbv zeta. unfold Query, mbind, Tx_bind. fold (existing_ids (jr_ID jobRun) (map (λ p, t_ID p.1) l) db').
    rewrite newRecords_none; [done|]. intros p Hin. apply existing_elem. split.
    + apply list_elem_of_In, in_map_iff. exists p. by rewrite <- list_elem_of_In.
    + rewrite Hid. by apply Hall.
Qed.

(** * The captured topology *)

Lemma newRecords_all fresh now jobRun existing seen inputs db new db' :
  NoDup (map (λ p, t_ID p.1) inputs) → (∀ p, p ∈ inputs → t_ID p.1 ∉ existing ∧ t_ID p.1 ∉ seen) →
  newRecordsTx fresh now jobRun existing seen inputs db = inr (new, db') →
  Forall2 (record_of now jobRun db) inputs new.1.
Proof.
  revert seen new. induction inputs as [|[task o] inputs IH]; intros seen new Hnd Hn.
  { intros [-> ->]%ret_inr. constructor. }
  inversion Hnd as [|? ? Hn0 Hnd']; subst. simpl.
  destruct (Hn (task, o)) as [H1 H2]; [by apply elem_of_cons; left|]. simpl in H1, H2.
  rewrite !bool_decide_eq_false_2 by done. simpl.
  intros (d & db1 & E1 & E2)%bind_inr. pose proof (descriptor_read _ _ _ _ E1) as ->.
  apply bind_inr in E2 as (rest & db2 & E2 & [-> ->]%ret_inr). constructor; [by eexists _, _|].
  eapply IH; [done| |exact E2]. intros p Hp. destruct (Hn p) as [H3 H4]; [by apply elem_of_cons; right|].
  split; [done|]. intros [He|Hs]%elem_of_cons; [|done]. apply Hn0. simpl. rewrite <- He.
  apply list_elem_of_In, in_map_iff. exists p. by rewrite <- list_elem_of_In.
Qed.

(** The captured successors are the catalog's. *)
Lemma descriptor_successors task db d : (∀ t, t ∈ tasks_tbl db → t_ID t ≠ uuid_Nil) → edges_consistent db task →
  initialTaskExecutionDescriptorTx task db = inr (d, db) →
  descriptorSuccessors d = map e_ToTaskID (successorEdgesTx db task) ∧ d_TaskPosition d = t_Position task ∧
  normalizedTriggerRule (d_TriggerRule d) = normalizedTriggerRule (t_TriggerRule task) ∧
  d_SchemaVersion d = TaskExecutionDescriptorSchemaVersion.
Proof.
  intros Hnil Hc. unfold initialTaskExecutionDescriptorTx. intros (edges & db1 & E1 & [-> _]%ret_inr)%bind_inr.
  split; [|split; [done|]; split; [|done]].
  2:{ cbn [d_TriggerRule]. unfold normalizedTriggerRule. destruct (t_TriggerRule task =s "") eqn:E; [done|by rewrite E]. }
  unfold descriptorSuccessors. cbn [d_Successors]. unfold taskDescriptorEdgesTx in E1.
  apply bind_inr in E1 as (n & db2 & [-> ->]%query_inr & E1). unfold successorEdgesTx.
  set (own := select (λ e, (e_FromTaskID e =? t_ID task)%N) (task_edges db)).
  set (cnt := countb (λ e, (e_JobID e =? t_JobID task)%N) (task_edges db)) in *.
  assert (∀ l, (∀ id, id ∈ l → id ≠ uuid_Nil) → List.filter (λ id, negb (id =? uuid_Nil)%N) l = l) as Hf.
  { induction l as [|x l IH]; intros H; [done|]. simpl.
    destruct (N.eqb_spec x uuid_Nil) as [Hx|_]; [by destruct (H x); [by apply elem_of_cons; left|]|]. simpl. f_equal.
    apply IH. intros id Hid. apply H. by apply elem_of_cons; right. }
  destruct (Nat.ltb_spec 0 cnt) as [Hp|Hz].
  - apply bind_inr in E1 as (pe & db3 & [-> ->]%query_inr & E1).
    apply bind_inr in E1 as (ps & db3 & (-> & _)%edgeRefsTx_read & E1).
    apply bind_inr in E1 as (se & db3 & [-> ->]%query_inr & E1).
    apply bind_inr in E1 as (ss & db3 & (-> & Hs & Ht)%edgeRefsTx_read & [-> ->]%ret_inr). cbn [snd].
    fold own in Hs, Ht. rewrite Hs, Hf; [by destruct own|]. intros id Hid. destruct (Ht id Hid) as (t & H1 & <-). by apply Hnil.
  - assert (own = []) as ->.
    { destruct own as [|e l] eqn:Eo; [done|]. assert (e ∈ own) as He by (rewrite Eo; by apply elem_of_cons; left).
      apply select_elem in He as [He Hid]. apply N.eqb_eq in Hid.
      assert (0 < cnt)%nat as Hp; [|lia]. apply countb_pos. exists e. split; [done|]. by rewrite (Hc e He Hid), N.eqb_refl. }
    apply bind_inr in E1 as (pe & db3 & [-> ->]%query_inr & E1).
    apply bind_inr in E1 as (se & db3 & [-> ->]%query_inr & [-> ->]%ret_inr). cbn [snd].
    unfold is_later. destruct (first (order_tasks _)) as [next|] eqn:En; [|done].
    rewrite Hf; [done|]. intros id Hid. apply list_elem_of_singleton in Hid as ->. apply Hnil.
    apply head_Some_elem_of in En. unfold order_tasks in En. rewrite sort_stable_perm, select_elem in En. apply En.
Qed.

Lemma sorted_by_key {A} (f : A → Z) (l : list A) :
  StronglySorted Z.le (map f l) → StronglySorted (not_after (λ a b, f a <? f b)) l.
Proof.
  induction l as [|x l IH]; intros H; [constructor|]. inversion H as [|? ? Hs Hf]; subst. constructor; [by apply IH|].
  rewrite Forall_forall in Hf. apply Forall_forall. intros y Hy. unfold not_after. apply Z.ltb_ge. apply Hf.
  apply list_elem_of_In, in_map, list_elem_of_In, Hy.
Qed.

Lemma positions_sorted l : StronglySorted Z.le (map t_Position (order_tasks l)).
Proof.
  unfold order_tasks. assert (StronglySorted (not_after task_before) (sort_stable task_before l)) as H.
  { apply sort_stable_sorted; intros *; unfold task_before; lia. }
  induction H as [|x l' Hs IH Hf]; simpl; constructor; [done|]. rewrite Forall_forall in Hf. apply Forall_forall.
  intros p (y & <- & Hy%list_elem_of_In)%list_elem_of_In%in_map_iff. specialize (Hf y Hy).
  unfold not_after, task_before in Hf. lia.
Qed.

Lemma decode_records now jobRun db inputs rows : (∀ t, t ∈ tasks_tbl db → t_ID t ≠ uuid_Nil) →
  (∀ p, p ∈ inputs → edges_consistent db p.1) → Forall2 (record_of now jobRun db) inputs rows →
  ∃ ds, decodeDescriptors rows = inr ds ∧
    map (λ p, (p.1, normalizedTriggerRule (d_TriggerRule p.2))) ds =
      map (λ p, (t_ID p.1, normalizedTriggerRule (t_TriggerRule p.1))) inputs ∧
    map (λ p, (p.1, descriptorSuccessors p.2)) ds =
      map (λ p, (t_ID p.1, map e_ToTaskID (successorEdgesTx db p.1))) inputs ∧
    map (λ p, d_TaskPosition p.2) ds = map (λ p, t_Position p.1) inputs.
Proof.
  intros Hnil Hc F. induction F as [|p r inputs rows (id & d & Ed & ->) F IH]; [by exists []|].
  destruct IH as (ds & E & E1 & E2 & E3); [intros q Hq; apply Hc; by apply elem_of_cons; right|].
  destruct (descriptor_successors p.1 db d Hnil) as (D1 & D2 & D3 & D4);
    [apply Hc; by apply elem_of_cons; left|done|].
  exists ((t_ID p.1, d) :: ds). simpl. rewrite D4, E, E1, E2, E3, D1, D2, D3. done.
Qed.

(** What the rows of a fully registered run replay. *)
Lemma replay_of_records now jobRun db db' inputs rows : (∀ t, t ∈ tasks_tbl db → t_ID t ≠ uuid_Nil) →
  (∀ p, p ∈ inputs → edges_consistent db p.1) → (∀ r, r ∈ task_runs db → tr_JobRunID r ≠ jr_ID jobRun) →
  StronglySorted Z.le (map (λ p, t_Position p.1) inputs) →
  Forall2 (record_of now jobRun db) inputs rows → task_runs db' = task_runs db ++ rows →
  loadReplayRunTopology db' (jr_ID jobRun) =
    inr (buildTopology (map (λ p, (t_ID p.1, normalizedTriggerRule (t_TriggerRule p.1))) inputs)
           (map (λ p, (t_ID p.1, map e_ToTaskID (successorEdgesTx db p.1))) inputs)).
Proof.
  intros Hnil Hc Hno Hs F Er. unfold loadReplayRunTopology. rewrite Er.
  assert (∀ r, r ∈ rows → tr_JobRunID r = jr_ID jobRun ∧ tr_CreatedAt r = now) as Hrow.
  { clear -F. induction F as [|p r inputs rows (id & d & _ & ->) F IH]; intros r0 Hr0; [by apply elem_of_nil in Hr0|].
    apply elem_of_cons in Hr0 as [->|Hr0]; [done|by apply IH]. }
  assert (select (λ r, (tr_JobRunID r =? jr_ID jobRun)%N) (task_runs db ++ rows) = rows) as ->.
  { unfold select. rewrite List.filter_app. fold (select (λ r, (tr_JobRunID r =? jr_ID jobRun)%N) (task_runs db)).
    fold (select (λ r, (tr_JobRunID r =? jr_ID jobRun)%N) rows). rewrite select_none, select_all; [done| |].
    - intros r Hr. by apply N.eqb_eq, Hrow.
    - intros r Hr. by apply N.eqb_neq, Hno. }
  assert (sort_stable (λ a b, tr_CreatedAt a <? tr_CreatedAt b) rows = rows) as ->.
  { apply sort_stable_id; [intros *; lia|intros *; lia|]. clear -Hrow. induction rows as [|r rows IH]; constructor.
      - apply IH. intros r0 Hr0. apply Hrow. by apply elem_of_cons; right.
      - apply Forall_forall. intros r0 Hr0. unfold not_after. destruct (Hrow r) as [_ ->]; [by apply elem_of_cons; left|].
        destruct (Hrow r0) as [_ ->]; [by apply elem_of_cons; right|]. apply Z.ltb_irrefl. }
  destruct (decode_records _ _ _ _ _ Hnil Hc F) as (ds & -> & E1 & E2 & E3).
  assert (sort_stable descriptor_before ds = ds) as ->; [|by rewrite E1, E2].
  apply sort_stable_id; [intros *; unfold descriptor_before; lia|intros *; unfold descriptor_before; lia|].
  apply (sorted_by_key (λ p, d_TaskPosition p.2)). by rewrite E3.
Qed.

(** What the executor registers for a run of the job. *)
Definition jobInputs (atoms : uuid → option Atom) (jobID : uuid) (db : DB) : list RegisterTaskInput :=
  runInputs atoms (jobTasks jobID db) (jobGraphOf jobID db).

Lemma runInputs_valid atoms tasks g l : validInputs (runInputs atoms tasks g) = Some l → map fst l = tasks.
Proof.
  revert l. induction tasks as [|t tasks IH]; intros l; simpl; [by intros [= <-]|].
  destruct (atoms (t_ID t)); [|done]. destruct (validInputs _) as [l'|] eqn:E; [|done]. intros [= <-].
  simpl. by rewrite IH.
Qed.

(** C32: registration freezes the topology: when the executor registers the tasks of
    a run, the execution descriptors stored with the rows replay exactly the
    topology the catalog has at that moment (order, trigger rules, explicit or
    sequential edges), which is what a quarantined replay of the run will use. *)
Theorem registration_freezes_topology faults fresh now run atoms jobRun db db' :
  first (select (is_run run) (job_runs db)) = Some jobRun → jr_Quarantine jobRun = false →
  (∀ r, r ∈ task_runs db → tr_JobRunID r ≠ run) → NoDup (map t_ID (tasks_tbl db)) →
  (∀ t, t ∈ tasks_tbl db → t_ID t ≠ uuid_Nil ∧ edges_consistent db t) →
  RegisterTasks faults fresh now run (jobInputs atoms (jr_JobID jobRun) db) db = (inr (), db') →
  loadReplayRunTopology db' run = LoadRunTopology db run.
Proof.
  intros Ej Hq Hno Hnd Ht. assert (jr_ID jobRun = run) as <-.
  { apply head_Some_elem_of, select_elem in Ej as [_ H]. by apply N.eqb_eq in H. }
  assert (LoadRunTopology db (jr_ID jobRun) =
    inr (buildTopology (map (λ t, (t_ID t, normalizedTriggerRule (t_TriggerRule t))) (jobTasks (jr_JobID jobRun) db))
           (map (λ t, (t_ID t, map e_ToTaskID (successorEdgesTx db t))) (jobTasks (jr_JobID jobRun) db)))) as HL.
  { unfold LoadRunTopology, findRun. unfold is_run in Ej. by rewrite Ej, Hq. }
  unfold RegisterTasks. rewrite Ej. destruct (jobInputs _ _ db) as [|i0 is0] eqn:Ei.
  { intros [= <-]. rewrite HL. replace (jobTasks (jr_JobID jobRun) db) with (@nil Task).
    - eapply (replay_of_records now jobRun db db [] []); try done; [by apply Ht|intros p Hp; by apply elem_of_nil in Hp|
        apply SSorted_nil|by rewrite app_nil_r].
    - unfold jobInputs, runInputs in Ei. by apply map_eq_nil in Ei. }
  rewrite <- Ei. destruct (validInputs _) as [l|] eqn:Ev; [|done]. pose proof (runInputs_valid _ _ _ _ Ev) as El.
  intros E%busyRetryLoop_atomic. apply registerTasksTx_spec in E as (new & En & Er & _).
  assert (∀ p, p ∈ l → p.1 ∈ tasks_tbl db) as Hin.
  { intros p Hp. assert (p.1 ∈ map fst l) as H by (by apply list_elem_of_In, in_map, list_elem_of_In).
    rewrite El in H. apply order_tasks_elem, select_elem in H. apply H. }
  rewrite HL, <- El, !map_map. eapply replay_of_records; try done.
  - by apply Ht.
  - intros p Hp. by apply Ht, Hin.
  - rewrite <- (map_map fst t_Position), El. apply positions_sorted.
  - eapply newRecords_all; [| |exact En].
    + rewrite <- (map_map fst t_ID), El. unfold jobTasks, order_tasks. rewrite sort_stable_perm.
      clear -Hnd. unfold select. induction (tasks_tbl db) as [|t ts IH]; [constructor|].
      inversion Hnd as [|? ? Hn Hnd']; subst. simpl. destruct (_ =? _)%N; [|by apply IH]. simpl. constructor; [|by apply IH].
      intros (t' & He & [Hin _]%List.filter_In)%list_elem_of_In%in_map_iff. apply Hn.
      apply list_elem_of_In, in_map_iff. by exists t'.
    + intros p Hp. split; [|by apply not_elem_of_nil]. intros (_ & r & Hr & Hk)%existing_elem. apply (Hno r Hr).
      unfold task_key in Hk. by injection Hk.
Qed.

(** A diamond of four tasks with explicit edges, and a run without rows. *)
Definition reg_db : DB :=
  mkDB [] [mkTask 4 7 "join" 3 "" TriggerRuleAllDone 0 ∅; mkTask 1 7 "split" 0 "" "" 0 ∅;
           mkTask 2 7 "left" 1 "" "" 0 ∅; mkTask 3 7 "right" 2 "" "" 0 ∅]
    [mkTaskEdge 7 1 2; mkTaskEdge 7 1 3; mkTaskEdge 7 2 4; mkTaskEdge 7 3 4]
    [mkJobRun 100 7 None 0 "running" 2 BlobEmpty "" false 0 None] [] [] [] [] [].

Definition reg_fresh (n : nat) : uuid := N.of_nat n + 1000.

Definition reg_atoms (t : uuid) : option Atom := Some (mkAtom t).

Definition reg_done : DB := (RegisterTasks (λ _, None) reg_fresh 5 100 (jobInputs reg_atoms 7 reg_db) reg_db).2.

Example reg_counters : map (λ r, (tr_TaskID r, tr_OutstandingPredecessors r)) (task_runs reg_done) =
  [(1%N, 0); (2%N, 1); (3%N, 1); (4%N, 2)].
Proof. vm_compute. reflexivity. Qed.

Lemma registration_effect_witness :
  RegisterTasks (λ _, None) reg_fresh 9 100 (jobInputs reg_atoms 7 reg_db) reg_done = (inr (), reg_done).
Proof.
  refine (proj2 (proj2 (proj2 (registration_effect (λ _, None) reg_fresh 5 100 (jobInputs reg_atoms 7 reg_db)
    reg_db reg_done _ _))) reg_fresh 9).
  - apply NoDup_nil_2.
  - vm_compute. reflexivity.
Defined.

Lemma registration_freezes_topology_witness : loadReplayRunTopology reg_done 100 = LoadRunTopology reg_db 100.
Proof.
  apply (registration_freezes_topology (λ _, None) reg_fresh 5 100 reg_atoms
    (mkJobRun 100 7 None 0 "running" 2 BlobEmpty "" false 0 None)).
  - reflexivity.
  - reflexivity.
  - intros r Hr. by apply elem_of_nil in Hr.
  - decide_vm.
  - intros t Ht. unfold reg_db in Ht. cbn [tasks_tbl] in Ht.
    split; [intros E; revert E; repeat (apply elem_of_cons in Ht as [->|Ht]; [done|]); by apply elem_of_nil in Ht|].
    intros e He. unfold reg_db in He. cbn [task_edges] in He.
    repeat (apply elem_of_cons in Ht as [->|Ht]; [repeat (apply elem_of_cons in He as [->|He]; [done|]); by apply elem_of_nil in He|]).
    by apply elem_of_nil in Ht.
  - vm_compute. reflexivity.
Defined.
