(* ===== verification/SqlAdvance.v ===== *)
(** Advancing the DAG in SQL (internal/run/store.go): successor edges and names,
    the predecessor counters, trigger-rule evaluation on task rows, the skip
    cascade, and the completion of a task with or without the cache
    ([completeTask], [cacheHitTask]), plus branch resolution for the owner
    ([ResolveBranchSkips], owner_topology.go).

    The textual form of a UUID (google/uuid) is a parameter. *)

From S2P Require Import Prelude TriggerRule Tables Store RunState TaskOps Topology.

Section sql.
Context (uuid_String : uuid → string).

(** * Successors *)

Definition successorEdgesForRunTx (runID taskID : uuid) (task : Task) : Tx (list TaskEdge) :=
  d ← replayTaskExecutionDescriptorTx runID taskID;
  match d with
  | Some descriptor =>
      mret (map (λ to, mkTaskEdge uuid_Nil taskID to) (descriptorSuccessors descriptor))
  | None => Query (λ db, successorEdgesTx db task)
  end.

(** Name and identifier of the successors in a descriptor. *)
Definition descriptorNames (d : TaskExecutionDescriptor) : list (string * uuid) :=
  map (λ ref, (firstNonEmpty [er_TaskName ref; uuid_String (er_TaskID ref)], er_TaskID ref))
    (List.filter (λ ref, negb (er_TaskID ref =? uuid_Nil)%N) (d_Successors d)).

(** Names of catalog successors; unnamed tasks cannot be selected. *)
Definition catalogNames (ids : list uuid) (db : DB) : list (string * uuid) :=
  map (λ t, (t_Name t, t_ID t))
    (List.filter (λ t, negb (t_Name t =s ""))
       (select (λ t, bool_decide (t_ID t ∈ ids)) (tasks_tbl db))).

(** A Go map filled in order: the last entry of a name wins. *)
Definition nameToID (names : list (string * uuid)) : gmap string uuid :=
  fold_left (λ m p, <[p.1 := p.2]> m) names ∅.

Definition successorNameMapTx (replay : option TaskExecutionDescriptor) (edges : list TaskEdge)
    : Tx (gmap string uuid * list string) :=
  match replay with
  | Some descriptor => let n := descriptorNames descriptor in mret (nameToID n, map fst n)
  | None => Query (λ db, let n := catalogNames (map e_ToTaskID edges) db in (nameToID n, map fst n))
  end.

(** * Predecessor counters and trigger rules *)

Definition decrement (r : TaskRun) : TaskRun :=
  with_OutstandingPredecessors
    (if 0 <? tr_OutstandingPredecessors r then tr_OutstandingPredecessors r - 1 else 0) r.

Definition in_run (runID : uuid) (ids : list uuid) (r : TaskRun) : bool :=
  (tr_JobRunID r =? runID)%N && bool_decide (tr_TaskID r ∈ ids).

Definition batchDecrementPredecessorsTx (runID : uuid) (successorIDs : list uuid) : Tx (list TaskRun) :=
  match successorIDs with
  | [] => mret []
  | _ =>
      _ ← UpdateTaskRuns (in_run runID successorIDs) [decrement];
      Query (λ db, select (in_run runID successorIDs) (task_runs db))
  end.

Definition predecessorStatusesTx (runID taskID : uuid) : Tx (list TaskStatus) :=
  refs ← replayPredecessorRefsTx runID taskID;
  match refs with
  | Some refs =>
      let predIDs := List.filter (λ id, negb (id =? uuid_Nil)%N) (map er_TaskID refs) in
      Query (λ db, map tr_Status (select (in_run runID predIDs) (task_runs db)))
  | None =>
      Query (λ db,
        let predIDs := map e_FromTaskID (select (λ e, (e_ToTaskID e =? taskID)%N) (task_edges db)) in
        map tr_Status (select (in_run runID predIDs) (task_runs db)))
  end.

Definition shouldRunTaskTx (runID taskID : uuid) : Tx (bool * string) :=
  d ← replayTaskExecutionDescriptorTx runID taskID;
  match d with
  | Some descriptor =>
      let rule := normalizedTriggerRule (d_TriggerRule descriptor) in
      preds ← predecessorStatusesTx runID taskID;
      mret (satisfiesTriggerRule rule preds, rule)
  | None =>
      task ← firstTask taskID;
      preds ← predecessorStatusesTx runID taskID;
      mret (satisfiesTriggerRule (t_TriggerRule task) preds, normalizedTriggerRule (t_TriggerRule task))
  end.

Definition ruleUnsatisfied (rule : string) : string :=
  "trigger rule " +:+ quoted rule +:+ " not satisfied".

(** * The skip cascade *)

Definition outOfFuel : store_error := ErrMessage "out of fuel".

(** The task record the edge query needs: a replay task is only its identifier. *)
Definition taskForEdges (runID taskID : uuid) : Tx Task :=
  d ← replayTaskExecutionDescriptorTx runID taskID;
  match d with
  | Some _ => mret (mkTask taskID uuid_Nil "" 0 "" "" 0 ∅)
  | None => firstTask taskID
  end.

(** The inner loop over the successors of a skipped task: those whose counter
    reached zero become ready or join the queue. The rows were read right after
    the decrement; the last row of a task wins in the lookup map. *)
Fixpoint classifySuccessors (runID : uuid) (updated : list TaskRun) (edges : list TaskEdge)
    : Tx (list (uuid * string)) :=
  match edges with
  | [] => mret []
  | edge :: edges' =>
      match last (List.filter (λ r, (tr_TaskID r =? e_ToTaskID edge)%N) updated) with
      | None => classifySuccessors runID updated edges'
      | Some successor =>
          if negb (tr_Status successor =s TaskStatusPending) ||
             negb (tr_OutstandingPredecessors successor =? 0)
          then classifySuccessors runID updated edges'
          else
            verdict ← shouldRunTaskTx runID (e_ToTaskID edge);
            if (verdict.1 : bool) then
              _ ← appendTaskReadyEventTx runID (e_ToTaskID edge);
              classifySuccessors runID updated edges'
            else
              queue ← classifySuccessors runID updated edges';
              mret ((e_ToTaskID edge, ruleUnsatisfied verdict.2) :: queue)
      end
  end.

(** Successors of a task just marked skipped, as new queue entries. *)
Definition expandSkipped (runID taskID : uuid) : Tx (list (uuid * string)) :=
  task ← taskForEdges runID taskID;
  edges ← successorEdgesForRunTx runID taskID task;
  updated ← batchDecrementPredecessorsTx runID (map e_ToTaskID edges);
  classifySuccessors runID updated edges.

(** The queue loop: [marks] bounds how many tasks may still be marked. *)
Fixpoint skipLoop (now : Z) (runID : uuid) (marks : nat) : list (uuid * string) → Tx (list uuid) :=
  fix go (queue : list (uuid * string)) : Tx (list uuid) :=
    match queue with
    | [] => mret []
    | (taskID, reason) :: rest =>
        marked ← markTaskSkippedTx now runID taskID reason;
        if negb marked then go rest
        else
          match marks with
          | O => throw outOfFuel
          | S marks' =>
              new ← expandSkipped runID taskID;
              skipped ← skipLoop now runID marks' (rest ++ new);
              mret (taskID :: skipped)
          end
    end.

(** Pending rows of the run: each marking removes at least one. *)
Definition pendingCount (runID : uuid) (db : DB) : nat :=
  countb (λ r, (tr_JobRunID r =? runID)%N && (tr_Status r =s TaskStatusPending)) (task_runs db).

Definition skipTaskAndDescendantsTx (now : Z) (runID taskID : uuid) (reason : string) : Tx (list uuid) :=
  marks ← Query (pendingCount runID);
  skipLoop now runID marks [(taskID, reason)].

(** * Completion *)

Definition task_type_of (replay : option TaskExecutionDescriptor) (task : Task) : string :=
  match replay with
  | Some d => firstNonEmpty [d_TaskType d; d_BranchBehavior d; "task"]
  | None => t_Type task
  end.

(** The identifiers a branch task selected; [None] when nothing is filtered.
    [completeTask] rejects unknown names, [cacheHitTask] ignores them. *)
Definition branchSelection (validate : bool) (replay : option TaskExecutionDescriptor)
    (taskType : string) (edges : list TaskEdge) (branchSelections : list string)
    : Tx (option (gset uuid)) :=
  match edges with
  | [] => mret None
  | _ =>
      if negb (taskType =s "branch") then mret None else
      names ← successorNameMapTx replay edges;
      if validate && negb (forallb (λ n, bool_decide (n ∈ names.2)) branchSelections)
      then throw (ErrMessage "branch selected unknown step")
      else mret (Some (list_to_set (omap (λ n, names.1 !! n) branchSelections)))
  end.

(** First loop over the edges: skip what the branch excluded, collect the rest. *)
Fixpoint partitionEdges (now : Z) (runID taskID : uuid) (selected : option (gset uuid))
    (edges : list TaskEdge) : Tx (list uuid * list uuid) :=
  match edges with
  | [] => mret ([], [])
  | edge :: edges' =>
      if match selected with
         | Some sel => negb (bool_decide (e_ToTaskID edge ∈ sel))
         | None => false
         end
      then
        skipped ← skipTaskAndDescendantsTx now runID (e_ToTaskID edge)
                    ("not selected by branch task " +:+ uuid_String taskID);
        rest ← partitionEdges now runID taskID selected edges';
        mret (skipped ++ rest.1, rest.2)
      else
        rest ← partitionEdges now runID taskID selected edges';
        mret (rest.1, e_ToTaskID edge :: rest.2)
  end.

(** Second loop, over the decremented rows: ready events and further skips. *)
Fixpoint evaluateSuccessors (now : Z) (runID : uuid) (updated : list TaskRun)
    : Tx (list ExecutionEvent * list uuid) :=
  match updated with
  | [] => mret ([], [])
  | successor :: updated' =>
      if negb (tr_OutstandingPredecessors successor =? 0) ||
         negb (tr_Status successor =s TaskStatusPending)
      then evaluateSuccessors now runID updated'
      else
        verdict ← shouldRunTaskTx runID (tr_TaskID successor);
        if (verdict.1 : bool) then
          jobRun ← firstRun runID;
          rest ← evaluateSuccessors now runID updated';
          mret (mkExecutionEvent TypeTaskReady (jr_JobID jobRun) runID (tr_TaskID successor) false :: rest.1,
                rest.2)
        else
          skipped ← skipTaskAndDescendantsTx now runID (tr_TaskID successor) (ruleUnsatisfied verdict.2);
          rest ← evaluateSuccessors now runID updated';
          mret (rest.1, skipped ++ rest.2)
  end.

(** Everything after the row update: load the task and its edges, filter by
    branch, decrement, evaluate, and record the events. *)
Definition advanceTaskTx (validate : bool) (eventType : string) (now : Z) (runID taskID : uuid)
    (branchSelections : list string) : Tx (list uuid) :=
  descriptor ← replayTaskExecutionDescriptorTx runID taskID;
  task ← taskForEdges runID taskID;
  edges ← successorEdgesForRunTx runID taskID task;
  selected ← branchSelection validate descriptor (task_type_of descriptor task) edges branchSelections;
  parts ← partitionEdges now runID taskID selected edges;
  updated ← batchDecrementPredecessorsTx runID parts.2;
  evaluated ← evaluateSuccessors now runID updated;
  _ ← firstTaskRun runID taskID;
  jobRun ← firstRun runID;
  _ ← appendBatchEventsTx
        (mkExecutionEvent eventType (jr_JobID jobRun) runID taskID false :: evaluated.1);
  mret (parts.1 ++ evaluated.2).

(** Columns [completeTask] writes. *)
Definition result_columns (now : Z) (status : TaskStatus) (result : string)
    (output : gmap string string) (branchSelections : list string) : list (TaskRun → TaskRun) :=
  [with_Status status; with_CompletedAt (Some now); with_Result result] ++ clear_cache
  ++ (if bool_decide (output = ∅) then [] else [with_Output (Some output)])
  ++ (match branchSelections with [] => [] | _ => [with_BranchSelections (Some branchSelections)] end)
  ++ (if status =s TaskStatusFailed then [with_Error (failureMessage result)] else []).

Definition completeTask (now : Z) (runID taskID : uuid) (result claimedBy : string)
    (enforceClaim : bool) (output : gmap string string) (branchSelections : list string)
    : Tx (list uuid) :=
  let status := taskStatusFromResult result in
  seen ← Query (λ db, first (select (claim_key runID taskID claimedBy enforceClaim) (task_runs db)));
  match seen with
  | Some row =>
      if IsTerminal (tr_Status row) then mret [] else
      rows ← UpdateTaskRuns (claim_key runID taskID claimedBy enforceClaim)
               (result_columns now status result output branchSelections);
      if enforceClaim && (rows =? 0)%nat then throw ErrTaskClaimMismatch else
      if status =s TaskStatusFailed
      then _ ← recordTaskEventTx TypeTaskFailed runID taskID; mret []
      else advanceTaskTx true TypeTaskSucceeded now runID taskID branchSelections
  | None =>
      if enforceClaim then throw ErrTaskClaimMismatch
      else if status =s TaskStatusFailed
      then _ ← recordTaskEventTx TypeTaskFailed runID taskID; mret []
      else advanceTaskTx true TypeTaskSucceeded now runID taskID branchSelections
  end.

(** Provenance of a cache hit ([CacheHitSource]). *)
Record CacheHitSource := mkCacheHitSource {
  chs_RunID : uuid;
  chs_CreatedAt : Z;
  chs_ExpiresAt : option Z;
}.

Definition cache_columns (now : Z) (source : CacheHitSource) (result : string)
    (output : gmap string string) (branchSelections : list string) : list (TaskRun → TaskRun) :=
  [with_Status TaskStatusCached; with_CompletedAt (Some now); with_Result result; with_CacheHit true;
   with_CacheOriginRunID (Some (chs_RunID source)); with_CacheCreatedAt (Some (chs_CreatedAt source));
   with_CacheExpiresAt (chs_ExpiresAt source)]
  ++ (if bool_decide (output = ∅) then [] else [with_Output (Some output)])
  ++ (match branchSelections with [] => [] | _ => [with_BranchSelections (Some branchSelections)] end).

Definition cacheHitTask (now : Z) (runID taskID : uuid) (source : CacheHitSource)
    (result claimedBy : string) (enforceClaim : bool) (output : gmap string string)
    (branchSelections : list string) : Tx (list uuid) :=
  seen ← Query (λ db, first (select (claim_key runID taskID claimedBy enforceClaim) (task_runs db)));
  match seen with
  | None => throw (if enforceClaim then ErrTaskClaimMismatch else ErrRecordNotFound)
  | Some row =>
      if IsTerminal (tr_Status row) then mret [] else
      rows ← UpdateTaskRuns (claim_key runID taskID claimedBy enforceClaim)
               (cache_columns now source result output branchSelections);
      if enforceClaim && (rows =? 0)%nat then throw ErrTaskClaimMismatch
      else advanceTaskTx false TypeTaskCached now runID taskID branchSelections
  end.

(** * Branch resolution for the in-memory owner *)

(** Every selection must name a successor; the result is the set of selected
    identifiers. *)
Fixpoint selectBranches (names : gmap string uuid) (branchSelections : list string)
    : option (gset uuid) :=
  match branchSelections with
  | [] => Some ∅
  | n :: l =>
      id ← names !! n;
      sel ← selectBranches names l;
      Some ({[id]} ∪ sel)
  end.

Definition resolveAgainst (names : list (string * uuid)) (successorIDs : list uuid)
    (branchSelections : list string) : Tx (list uuid) :=
  match selectBranches (nameToID names) branchSelections with
  | None => throw (ErrMessage "branch selected unknown step")
  | Some selected => mret (List.filter (λ id, negb (bool_decide (id ∈ selected))) successorIDs)
  end.

Definition ResolveBranchSkips (runID taskID : uuid) (branchSelections : list string) : Tx (list uuid) :=
  d ← replayTaskExecutionDescriptorTx runID taskID;
  match d with
  | Some descriptor =>
      if negb (firstNonEmpty [d_TaskType descriptor; d_BranchBehavior descriptor; "task"] =s "branch")
      then mret []
      else resolveAgainst (descriptorNames descriptor) (descriptorSuccessors descriptor) branchSelections
  | None =>
      task ← firstTask taskID;
      if negb (t_Type task =s "branch") then mret [] else
      edges ← Query (λ db, successorEdgesTx db task);
      match edges with
      | [] => mret []
      | _ =>
          let ids := map e_ToTaskID edges in
          names ← Query (catalogNames ids);
          resolveAgainst names ids branchSelections
      end
  end.
End sql.
