(* ===== verification/TaskTheorems.v ===== *)
(** Theorems on task rows: terminal rows are final under every operation that
    guards them, claims are exclusive and fenced, the retry of a transaction is
    atomic, and the skip cascade ends and skips only pending rows. *)

From S2P Require Import Prelude TriggerRule Tables Store TxLogic RunState TaskOps Topology SqlAdvance.

(** * Terminal rows *)

(** A terminal row keeps every column but the predecessor counter. *)
Definition frozen (r r' : TaskRun) : Prop :=
  with_OutstandingPredecessors 0 r' = with_OutstandingPredecessors 0 r.

Definition kept (db db' : DB) : Prop :=
  same_keys db db' ∧
  ∀ (i : nat) r, task_runs db !! i = Some r → IsTerminal (tr_Status r) = true →
    ∃ r', task_runs db' !! i = Some r' ∧ frozen r r'.

Lemma frozen_status r r' : frozen r r' → tr_Status r' = tr_Status r.
Proof. unfold frozen. intros H. by injection H. Qed.

#[export] Instance kept_preorder : PreOrder kept.
Proof.
  split.
  - intros db. split; [done|]. intros i r Hr _. by exists r.
  - intros a b c [K1 H1] [K2 H2]. split; [by transitivity b|]. intros i r Hr Ht.
    destruct (H1 i r Hr Ht) as (r1 & Hr1 & F1).
    destruct (H2 i r1 Hr1) as (r2 & Hr2 & F2); [by rewrite (frozen_status _ _ F1)|].
    exists r2. split; [done|]. unfold frozen in *. congruence.
Qed.

Lemma kept_ignores_events : ignores_events kept.
Proof. intros db evts. split; [done|]. intros i r Hr _. by exists r. Qed.

Lemma notTerminal_spec r : notTerminal r = negb (IsTerminal (tr_Status r)).
Proof.
  unfold notTerminal. f_equal. apply eq_true_iff_eq. by rewrite bool_decide_eq_true, IsTerminal_in.
Qed.

(** Rows change only where [p] holds; there they keep the key and are live. *)
Lemma kept_rows (db db' : DB) (p : TaskRun → bool) (f : TaskRun → TaskRun) :
  (∀ i : nat, task_runs db' !! i = (λ r, if p r then f r else r) <$> task_runs db !! i) →
  (∀ r, task_key (f r) = task_key r) →
  (∀ r, p r = true → IsTerminal (tr_Status r) = true → frozen r (f r)) → kept db db'.
Proof.
  intros H Hk Hf. split.
  - eapply (rows_same_keys db db'); [exact H|]. intros r. simpl. destruct (p r); [apply Hk|done].
  - intros i r Hr Ht. rewrite H, Hr. simpl. eexists. split; [done|].
    destruct (p r) eqn:E; [by apply Hf|done].
Qed.

(** A statement restricted to live rows keeps the terminal ones. *)
Lemma tx_rel_update_live p cols : (∀ r, task_key (Updates cols r) = task_key r) →
  (∀ r, p r = true → IsTerminal (tr_Status r) = false) → tx_rel kept (UpdateTaskRuns p cols).
Proof.
  intros Hk Hl. apply tx_rel_update. intros db db' H. apply (kept_rows db db' p _ H Hk).
  intros r Hp Ht. by rewrite (Hl r Hp) in Ht.
Qed.

Lemma tx_rel_decrement runID ids : tx_rel kept (UpdateTaskRuns (in_run runID ids) [decrement]).
Proof.
  apply tx_rel_update. intros db db' H. by apply (kept_rows db db' _ _ H).
Qed.

Lemma status_eqb_live r s : IsTerminal s = false → (tr_Status r =s s) = true → IsTerminal (tr_Status r) = false.
Proof. intros Hs He. bool_prop. by rewrite He. Qed.

#[export] Hint Resolve tx_rel_decrement : tx.

(** Goals [p r = true → IsTerminal (tr_Status r) = false] for the guards of the code. *)
Ltac live_guard :=
  let r := fresh "r" in let H := fresh "H" in
  intros r H;
  repeat match goal with
         | H : (_ && _) = true |- _ => apply andb_true_iff in H as [? ?]
         | H : (_ || _) = true |- _ => apply orb_true_iff in H as [?|?]
         end;
  first [match goal with H : (tr_Status r =s _) = true |- _ => apply str_eqb_eq in H; by rewrite H end
        |match goal with H : notTerminal r = true |- _ => rewrite notTerminal_spec in H; by apply negb_true_iff end].

Ltac kept_events :=
  first [apply tx_rel_record|apply tx_rel_ready|apply tx_rel_batch|apply tx_rel_descriptor];
  [typeclasses eauto|apply kept_ignores_events..].
#[export] Hint Extern 1 (tx_rel kept _) => kept_events : tx.

Section operations.
Context (now : Z) (runID taskID : uuid).

Lemma StartTask_kept rt : tx_rel kept (StartTask now runID taskID rt).
Proof. unfold StartTask. tx_step; [|tx_solve]. apply tx_rel_update_live; [done|live_guard]. Qed.

Lemma ClaimTaskForDispatch_kept w g ttl b : tx_rel kept (ClaimTaskForDispatch now runID taskID w g ttl b).
Proof.
  unfold ClaimTaskForDispatch. tx_step; [|tx_solve]. apply tx_rel_update_live; [done|].
  unfold claimable. live_guard.
Qed.

Lemma ReleaseTaskClaim_kept w g : tx_rel kept (ReleaseTaskClaim runID taskID w g).
Proof. unfold ReleaseTaskClaim. tx_step; [|tx_solve]. apply tx_rel_update_live; [done|live_guard]. Qed.

Lemma RateLimitTask_kept after : tx_rel kept (RateLimitTask now runID taskID after).
Proof. unfold RateLimitTask. tx_step; [|tx_solve]. apply tx_rel_update_live; [done|live_guard]. Qed.

Lemma StartTaskClaimed_kept rt w : tx_rel kept (StartTaskClaimed now runID taskID rt w).
Proof. unfold StartTaskClaimed. tx_step; [|tx_solve]. apply tx_rel_update_live; [done|live_guard]. Qed.

Lemma SkipTask_kept reason : tx_rel kept (SkipTask now runID taskID reason).
Proof.
  unfold SkipTask. tx_step; [|tx_solve]. apply tx_rel_update_live; [done|]. unfold pending_key. live_guard.
Qed.

Lemma markTaskSkippedTx_kept reason : tx_rel kept (markTaskSkippedTx now runID taskID reason).
Proof.
  unfold markTaskSkippedTx. tx_step; [|tx_solve]. apply tx_rel_update_live; [done|].
  unfold pending_key. live_guard.
Qed.

Lemma ResetInFlightTasks_kept : tx_rel kept (ResetInFlightTasks runID).
Proof. unfold ResetInFlightTasks. tx_step; [|tx_solve]. apply tx_rel_update_live; [done|live_guard]. Qed.
End operations.

#[export] Hint Resolve markTaskSkippedTx_kept : tx.

(** * The cascade *)

Section cascade.
Context (uuid_String : uuid → string) (now : Z) (runID : uuid).

Lemma edges_kept taskID task : tx_rel kept (successorEdgesForRunTx runID taskID task).
Proof. unfold successorEdgesForRunTx. tx_solve. Qed.

Lemma batch_kept ids : tx_rel kept (batchDecrementPredecessorsTx runID ids).
Proof. unfold batchDecrementPredecessorsTx. tx_solve. Qed.

Lemma statuses_kept taskID : tx_rel kept (predecessorStatusesTx runID taskID).
Proof. unfold predecessorStatusesTx, replayPredecessorRefsTx. tx_solve. Qed.
#[local] Hint Resolve edges_kept batch_kept statuses_kept : tx.

Lemma shouldRun_kept taskID : tx_rel kept (shouldRunTaskTx runID taskID).
Proof. unfold shouldRunTaskTx, firstTask. tx_solve. Qed.

Lemma taskForEdges_kept taskID : tx_rel kept (taskForEdges runID taskID).
Proof. unfold taskForEdges, firstTask. tx_solve. Qed.
#[local] Hint Resolve shouldRun_kept taskForEdges_kept : tx.

Lemma classify_kept updated edges : tx_rel kept (classifySuccessors runID updated edges).
Proof. induction edges as [|e edges IH]; cbn [classifySuccessors]; tx_solve. Qed.
#[local] Hint Resolve classify_kept : tx.

Lemma expand_kept taskID : tx_rel kept (expandSkipped runID taskID).
Proof. unfold expandSkipped. tx_solve. Qed.
#[local] Hint Resolve expand_kept : tx.

Lemma skipLoop_kept marks queue : tx_rel kept (skipLoop now runID marks queue).
Proof.
  revert queue. induction marks as [|marks IHm]; intros queue;
    induction queue as [|[t reason] queue IHq]; cbn [skipLoop]; tx_solve.
Qed.
#[local] Hint Resolve skipLoop_kept : tx.

Lemma cascade_kept taskID reason : tx_rel kept (skipTaskAndDescendantsTx now runID taskID reason).
Proof. unfold skipTaskAndDescendantsTx. tx_solve. Qed.
#[local] Hint Resolve cascade_kept : tx.

Lemma partition_kept taskID sel edges : tx_rel kept (partitionEdges uuid_String now runID taskID sel edges).
Proof. induction edges as [|e edges IH]; cbn [partitionEdges]; tx_solve. Qed.

Lemma evaluate_kept updated : tx_rel kept (evaluateSuccessors now runID updated).
Proof. induction updated as [|r updated IH]; cbn [evaluateSuccessors]; unfold firstRun; tx_solve. Qed.

Lemma selection_kept v d ty edges sel : tx_rel kept (branchSelection uuid_String v d ty edges sel).
Proof. unfold branchSelection, successorNameMapTx. tx_solve. Qed.
#[local] Hint Resolve partition_kept evaluate_kept selection_kept : tx.

Lemma advanceTaskTx_kept v ty taskID sel : tx_rel kept (advanceTaskTx uuid_String v ty now runID taskID sel).
Proof. unfold advanceTaskTx, firstTaskRun, firstRun. tx_solve. Qed.
#[local] Hint Resolve advanceTaskTx_kept : tx.

(** The row a keyed update touches is the one the guard looked at. *)
Lemma keyed_update_kept taskID cb enf cols row db n db' : rows_unique db →
  first (select (claim_key runID taskID cb enf) (task_runs db)) = Some row →
  IsTerminal (tr_Status row) = false → (∀ r, task_key (Updates cols r) = task_key r) →
  UpdateTaskRuns (claim_key runID taskID cb enf) cols db = inr (n, db') → kept db db'.
Proof.
  intros Hu Hf Hl Hk E. apply UpdateTaskRuns_spec in E as (_ & _ & E).
  split; [eapply rows_same_keys; [exact E|]; intros r; simpl; destruct (claim_key _ _ _ _ r); [apply Hk|done]|].
  intros i r Hr Ht. rewrite E, Hr. simpl. eexists. split; [done|].
  destruct (claim_key runID taskID cb enf r) eqn:Ec; [|done]. exfalso.
  assert (row ∈ select (claim_key runID taskID cb enf) (task_runs db)) as Hin
    by (apply head_Some_elem_of; exact Hf).
  apply select_elem in Hin as [Hin Hck]. apply list_elem_of_lookup in Hin as [j Hj].
  unfold claim_key in Ec, Hck. bool_prop.
  repeat match goal with H : is_task_run _ _ _ = true |- _ => apply is_task_run_key in H end.
  assert (i = j) as -> by (eapply rows_unique_eq; [exact Hu|exact Hr|exact Hj|congruence]).
  congruence.
Qed.

Lemma completeTask_kept taskID result cb enf output sel db a db' : rows_unique db →
  completeTask uuid_String now runID taskID result cb enf output sel db = inr (a, db') → kept db db'.
Proof.
  intros Hu. unfold completeTask, Query. cbv zeta. unfold mbind at 1, Tx_bind at 1.
  destruct (first _) as [row|] eqn:Ef.
  - destruct (IsTerminal (tr_Status row)) eqn:Et; [intros E; by inversion E|].
    unfold mbind at 1, Tx_bind at 1. destruct (UpdateTaskRuns _ _ db) as [e|[n db1]] eqn:EU; [done|].
    assert (kept db db1) as K1.
    { eapply keyed_update_kept; [exact Hu|exact Ef|exact Et| |exact EU].
      intros r. unfold result_columns. by repeat case_match. }
    intros E. transitivity db1; [done|]. revert E.
    match goal with |- ?m db1 = _ → _ => assert (tx_rel kept m) as HR by tx_solve end.
    apply HR.
  - match goal with |- ?m db = _ → _ => assert (tx_rel kept m) as HR by tx_solve end. apply HR.
Qed.

Lemma cacheHitTask_kept taskID src result cb enf output sel db a db' : rows_unique db →
  cacheHitTask uuid_String now runID taskID src result cb enf output sel db = inr (a, db') → kept db db'.
Proof.
  intros Hu. unfold cacheHitTask, Query. unfold mbind at 1, Tx_bind at 1.
  destruct (first _) as [row|] eqn:Ef; [|done].
  destruct (IsTerminal (tr_Status row)) eqn:Et; [intros E; by inversion E|].
  unfold mbind at 1, Tx_bind at 1. destruct (UpdateTaskRuns _ _ db) as [e|[n db1]] eqn:EU; [done|].
  assert (kept db db1) as K1.
  { eapply keyed_update_kept; [exact Hu|exact Ef|exact Et| |exact EU].
    intros r. unfold cache_columns. by repeat case_match. }
  intros E. transitivity db1; [done|]. revert E.
  match goal with |- ?m db1 = _ → _ => assert (tx_rel kept m) as HR by tx_solve end.
  apply HR.
Qed.
End cascade.

(** * The cascade ends *)

(** Bodies that never report exhausted fuel. *)
Definition fuel_ok {A} (m : Tx A) : Prop := ∀ db, m db ≠ inl outOfFuel.

Lemma fuel_bind {A B} (m : Tx A) (k : A → Tx B) : fuel_ok m → (∀ a, fuel_ok (k a)) → fuel_ok (m ≫= k).
Proof.
  intros Hm Hk db. unfold mbind, Tx_bind. pose proof (Hm db) as H.
  destruct (m db) as [e|[a db1]]; [congruence|apply Hk].
Qed.

Lemma fuel_ret {A} (a : A) : fuel_ok (mret a : Tx A).
Proof. by intros db. Qed.

Lemma fuel_query {A} (f : DB → A) : fuel_ok (Query f).
Proof. by intros db. Qed.

Lemma fuel_first {A} (f : DB → list A) : fuel_ok (First f).
Proof. intros db. unfold First. by destruct (first (f db)). Qed.

Lemma fuel_update p cols : fuel_ok (UpdateTaskRuns p cols).
Proof. intros db. unfold UpdateTaskRuns, Exec. by destruct (update_where _ _ _). Qed.

Lemma fuel_append evt : fuel_ok (AppendTx evt).
Proof. by intros db. Qed.

Lemma fuel_descriptor run task : fuel_ok (replayTaskExecutionDescriptorTx run task).
Proof. intros db. unfold replayTaskExecutionDescriptorTx. repeat case_match; done. Qed.

Create HintDb fuel.
#[export] Hint Resolve fuel_ret fuel_query fuel_first fuel_update fuel_append fuel_descriptor : fuel.

Ltac fuel_solve :=
  repeat match goal with
  | |- fuel_ok (_ ≫= _) => apply fuel_bind; [|intros ?]
  | |- fuel_ok (if ?b then _ else _) => destruct b
  | |- fuel_ok (match ?x with _ => _ end) => destruct x
  | |- _ => solve [eauto with fuel]
  end.

Section cascade_ends.
Context (now : Z) (runID : uuid).

Lemma fuel_mark task reason : fuel_ok (markTaskSkippedTx now runID task reason).
Proof. unfold markTaskSkippedTx, recordTaskEventTx, firstTaskRun, firstRun. fuel_solve. Qed.

Lemma fuel_should task : fuel_ok (shouldRunTaskTx runID task).
Proof. unfold shouldRunTaskTx, predecessorStatusesTx, replayPredecessorRefsTx, firstTask. fuel_solve. Qed.

Lemma fuel_ready task : fuel_ok (appendTaskReadyEventTx runID task).
Proof.
  unfold appendTaskReadyEventTx, stampEventQuarantineTx, runEventQuarantineTx,
    taskEventQuarantineTx, firstTaskRun, firstRun. fuel_solve.
Qed.
#[local] Hint Resolve fuel_mark fuel_should fuel_ready : fuel.

Lemma fuel_classify updated edges : fuel_ok (classifySuccessors runID updated edges).
Proof. induction edges as [|e edges IH]; cbn [classifySuccessors]; fuel_solve. Qed.
#[local] Hint Resolve fuel_classify : fuel.

Lemma fuel_expand task : fuel_ok (expandSkipped runID task).
Proof.
  unfold expandSkipped, taskForEdges, successorEdgesForRunTx, batchDecrementPredecessorsTx, firstTask.
  fuel_solve.
Qed.

(** Keys and statuses of all rows. *)
Definition same_statuses (db db' : DB) : Prop :=
  map (λ r, (task_key r, tr_Status r)) (task_runs db') = map (λ r, (task_key r, tr_Status r)) (task_runs db).

#[local] Instance same_statuses_preorder : PreOrder same_statuses.
Proof. split; [done|]. intros a b c H1 H2. unfold same_statuses in *. congruence. Qed.

Lemma statuses_events : ignores_events same_statuses.
Proof. done. Qed.

Lemma statuses_decrement ids : tx_rel same_statuses (UpdateTaskRuns (in_run runID ids) [decrement]).
Proof.
  intros db n db' E. apply UpdateTaskRuns_spec in E as (_ & -> & _). unfold same_statuses. simpl.
  rewrite map_map. apply map_ext. intros r. by destruct (in_run runID ids r).
Qed.
#[local] Hint Resolve statuses_decrement : tx.
#[local] Hint Extern 1 (tx_rel same_statuses _) =>
  first [apply tx_rel_record|apply tx_rel_ready|apply tx_rel_batch|apply tx_rel_descriptor];
  [typeclasses eauto|apply statuses_events..] : tx.

Lemma should_statuses task : tx_rel same_statuses (shouldRunTaskTx runID task).
Proof. unfold shouldRunTaskTx, predecessorStatusesTx, replayPredecessorRefsTx, firstTask. tx_solve. Qed.
#[local] Hint Resolve should_statuses : tx.

Lemma classify_statuses updated edges : tx_rel same_statuses (classifySuccessors runID updated edges).
Proof. induction edges as [|e edges IH]; cbn [classifySuccessors]; tx_solve. Qed.
#[local] Hint Resolve classify_statuses : tx.

(** Expanding a skipped task changes no status. *)
Lemma expand_statuses task : tx_rel same_statuses (expandSkipped runID task).
Proof.
  unfold expandSkipped, taskForEdges, successorEdgesForRunTx, batchDecrementPredecessorsTx, firstTask.
  tx_solve.
Qed.

Definition pending_row (r : TaskRun) : bool :=
  (tr_JobRunID r =? runID)%N && (tr_Status r =s TaskStatusPending).

Lemma same_statuses_pending db db' : same_statuses db db' → pendingCount runID db' = pendingCount runID db.
Proof.
  unfold same_statuses, pendingCount. fold pending_row.
  assert (∀ l, countb pending_row l =
    countb (λ p : uuid * uuid * TaskStatus, (p.1.1 =? runID)%N && (p.2 =s TaskStatusPending))
      (map (λ r, (task_key r, tr_Status r)) l)) as Hc.
  { intros l. induction l as [|r l IH]; [done|]. rewrite map_cons, !countb_cons, IH. done. }
  intros H. by rewrite !Hc, H.
Qed.

(** What marking a task does to the rows. *)
Lemma mark_spec task reason db b db' : markTaskSkippedTx now runID task reason db = inr (b, db') →
  b = (0 <? countb (pending_key runID task) (task_runs db))%nat ∧
  ∀ i : nat, task_runs db' !! i =
    (λ r, if pending_key runID task r then Updates (skip_columns now reason) r else r) <$> task_runs db !! i.
Proof.
  unfold markTaskSkippedTx. unfold mbind at 1, Tx_bind at 1.
  destruct (UpdateTaskRuns _ _ db) as [e|[n db1]] eqn:EU; [done|].
  apply UpdateTaskRuns_spec in EU as (Hn & _ & HU). destruct (Nat.eqb_spec n 0) as [Hz|Hz].
  - intros E. inversion E; subst. split; [|done]. by rewrite Hz.
  - unfold mbind, Tx_bind. destruct (recordTaskEventTx _ _ _ db1) as [e|[a db2]] eqn:ER; [done|].
    intros E. inversion E; subst db2 b. split; [symmetry; apply Nat.ltb_lt; lia|]. intros i. rewrite <- HU.
    assert (tx_rel (λ d d', task_runs d' = task_runs d) (recordTaskEventTx TypeTaskSkipped runID task)) as HR.
    { apply tx_rel_record; [|done]. split; [done|]. intros x y z. congruence. }
    by rewrite (HR _ _ _ ER).
Qed.

Lemma skipped_not_pending reason r : pending_row (Updates (skip_columns now reason) r) = false.
Proof. unfold pending_row. simpl. by rewrite andb_false_r. Qed.

Lemma pending_key_row task r : pending_key runID task r = true → pending_row r = true.
Proof. unfold pending_key, pending_row, is_task_run. intros H. bool_prop. by rewrite andb_true_iff, N.eqb_eq, str_eqb_eq. Qed.

Lemma countb_mapped (p q : TaskRun → bool) f (l l' : list TaskRun) :
  (∀ i : nat, l' !! i = (λ r, if p r then f r else r) <$> l !! i) →
  (∀ r, p r = true → q r = true) → (∀ r, p r = true → q (f r) = false) →
  (countb q l' + countb p l = countb q l)%nat.
Proof.
  intros H Hp Hf. rewrite (lookup_fmap_eq _ _ _ H). clear H. induction l as [|r l IH]; [done|]. rewrite fmap_cons, !countb_cons. destruct (p r) eqn:E.
  - rewrite (Hp r E), (Hf r E). lia.
  - destruct (q r); lia.
Qed.

Lemma mark_pending task reason db db' : markTaskSkippedTx now runID task reason db = inr (true, db') →
  (pendingCount runID db' < pendingCount runID db)%nat.
Proof.
  intros E. apply mark_spec in E as [Hc HU]. symmetry in Hc. apply Nat.ltb_lt in Hc.
  pose proof (countb_mapped (pending_key runID task) pending_row _ (task_runs db) (task_runs db') HU
    (pending_key_row task) (λ r _, skipped_not_pending reason r)) as H.
  unfold pendingCount. fold pending_row. lia.
Qed.

Lemma mark_false task reason db db' : markTaskSkippedTx now runID task reason db = inr (false, db') →
  task_runs db' = task_runs db.
Proof.
  intros E. apply mark_spec in E as [Hc HU]. symmetry in Hc. apply Nat.ltb_ge in Hc.
  apply list_eq. intros i. rewrite HU. destruct (task_runs db !! i) as [r|] eqn:Hr; [|done]. simpl.
  assert (countb (pending_key runID task) (task_runs db) = 0)%nat as H0 by lia. rewrite countb_0 in H0.
  by rewrite (H0 r) by (by eapply list_elem_of_lookup_2).
Qed.

(** As many markings as pending rows are enough. *)
Lemma skipLoop_total marks queue db : (pendingCount runID db ≤ marks)%nat →
  skipLoop now runID marks queue db ≠ inl outOfFuel.
Proof.
  revert queue db. induction marks as [|marks IHm]; intros queue;
    induction queue as [|[t reason] queue IHq]; intros db Hm; cbn [skipLoop]; try done;
    unfold mbind, Tx_bind; pose proof (fuel_mark t reason db) as Hf;
    destruct (markTaskSkippedTx now runID t reason db) as [e|[[] db1]] eqn:EM; try congruence.
  - apply mark_pending in EM. lia.
  - apply IHq. unfold pendingCount. by rewrite (mark_false _ _ _ _ EM).
  - simpl. pose proof (fuel_expand t db1) as He.
    destruct (expandSkipped runID t db1) as [e|[new db2]] eqn:EX; [congruence|].
    apply mark_pending in EM. apply expand_statuses, same_statuses_pending in EX.
    pose proof (IHm (queue ++ new) db2 ltac:(lia)) as HI.
    destruct (skipLoop now runID marks (queue ++ new) db2) as [e|[l db3]]; [congruence|done].
  - apply IHq. unfold pendingCount. by rewrite (mark_false _ _ _ _ EM).
Qed.
End cascade_ends.

(** * What the cascade does *)

Section cascade_effect.
Context (now : Z) (runID : uuid).

(** The rows of the listed tasks that were pending are skipped; every other row
    keeps its status. *)
Definition skip_effect (l : list uuid) (db db' : DB) : Prop :=
  length (task_runs db') = length (task_runs db) ∧
  (∀ (i : nat) r, task_runs db !! i = Some r → ∃ r', task_runs db' !! i = Some r' ∧
     task_key r' = task_key r ∧
     tr_Status r' = if pending_row runID r && bool_decide (tr_TaskID r ∈ l)
                    then TaskStatusSkipped else tr_Status r) ∧
  (∀ t, t ∈ l → ∃ r, r ∈ task_runs db ∧ pending_key runID t r = true).

Lemma skip_effect_statuses l db db1 db2 : same_statuses db db1 → skip_effect l db1 db2 → skip_effect l db db2.
Proof.
  intros HS (HL & HR & HP).
  assert (∀ i : nat, (λ r, (task_key r, tr_Status r)) <$> task_runs db1 !! i =
                     (λ r, (task_key r, tr_Status r)) <$> task_runs db !! i) as Hi.
  { intros i. pose proof (f_equal (λ l : list _, l !! i) HS) as H. simpl in H. by rewrite !list_lookup_fmap in H. }
  split; [|split].
  - rewrite HL. apply (f_equal length) in HS. by rewrite !length_map in HS.
  - intros i r Hr. specialize (Hi i). rewrite Hr in Hi. destruct (task_runs db1 !! i) as [r1|] eqn:E; [|done].
    injection Hi as H1 H2 H3. destruct (HR i r1 E) as (r' & Hr' & Hk & Hst). exists r'. split; [done|].
    split; [rewrite Hk; unfold task_key; congruence|]. rewrite Hst. unfold pending_row. by rewrite H1, H2, H3.
  - intros t Ht. destruct (HP t Ht) as (r & Hin & Hpk). apply list_elem_of_lookup in Hin as [i E].
    specialize (Hi i). rewrite E in Hi. destruct (task_runs db !! i) as [r0|] eqn:E0; [|done].
    injection Hi as H1 H2 H3. exists r0. split; [by eapply list_elem_of_lookup_2|].
    unfold pending_key, is_task_run in *. by rewrite <- H1, <- H2, <- H3.
Qed.

Lemma skip_effect_cons t reason l db db1 db2 :
  markTaskSkippedTx now runID t reason db = inr (true, db1) → skip_effect l db1 db2 →
  t ∉ l ∧ skip_effect (t :: l) db db2.
Proof.
  intros EM (HL & HR & HP). apply mark_spec in EM as [Hc HU].
  assert (∀ t', t' ∈ l → t' ≠ t ∧ ∃ r, r ∈ task_runs db ∧ pending_key runID t' r = true) as Hl.
  { intros t' Ht'. destruct (HP t' Ht') as (r1 & Hin & Hpk). apply list_elem_of_lookup in Hin as [i E].
    rewrite HU in E. destruct (task_runs db !! i) as [r|] eqn:Er; [|done]. simpl in E. simplify_eq.
    destruct (pending_key runID t r) eqn:Ep.
    - apply pending_key_row in Hpk. unfold pending_row in Hpk. simpl in Hpk.
      by rewrite andb_false_r in Hpk.
    - split; [intros ->; congruence|]. exists r. split; [by eapply list_elem_of_lookup_2|done]. }
  split; [intros Ht; by destruct (Hl t Ht)|]. split; [|split].
  - rewrite HL, (lookup_fmap_eq _ _ _ HU). apply length_fmap.
  - intros i r Hr. specialize (HU i). rewrite Hr in HU. cbn [fmap option_fmap option_map] in HU.
    destruct (HR i _ HU) as (r' & Hr' & Hk & Hst). exists r'. split; [done|].
    destruct (pending_key runID t r) eqn:Ep.
    + split; [done|]. pose proof (pending_key_row _ _ _ Ep) as Hrow.
      rewrite skipped_not_pending in Hst. cbn [andb] in Hst. rewrite Hrow, Hst. unfold pending_key, is_task_run in Ep.
      bool_prop. subst t. by rewrite bool_decide_eq_true_2 by (apply elem_of_cons; by left).
    + split; [done|]. rewrite Hst. destruct (pending_row runID r) eqn:Erow; [|done]. simpl.
      assert (tr_TaskID r ≠ t) as Hne.
      { intros <-. unfold pending_key, is_task_run, pending_row in *. bool_prop.
        rewrite andb_false_iff in Ep. destruct Ep as [Ep|Ep]; [|bool_prop; congruence].
        rewrite N.eqb_refl, andb_true_r in Ep. bool_prop. congruence. }
      case_bool_decide; case_bool_decide; set_solver.
  - intros t' [->|Ht']%elem_of_cons; [|by destruct (Hl t' Ht')].
    symmetry in Hc. apply Nat.ltb_lt, countb_pos in Hc as (r & Hin & Hpk). by exists r.
Qed.

Lemma skipLoop_effect marks queue db l db' : skipLoop now runID marks queue db = inr (l, db') →
  NoDup l ∧ skip_effect l db db'.
Proof.
  revert queue db l db'. induction marks as [|marks IHm]; intros queue;
    induction queue as [|[t reason] queue IHq]; intros db l db'; cbn [skipLoop].
  1,3: intros E; inversion E; subst; split; [constructor|]; split; [done|]; split; [|set_solver];
       intros i r Hr; exists r; rewrite bool_decide_eq_false_2, andb_false_r by set_solver; done.
  all: unfold mbind, Tx_bind; destruct (markTaskSkippedTx now runID t reason db) as [e|[[] db1]] eqn:EM; try done.
  - intros E. destruct (IHq _ _ _ E) as [Hnd He]. split; [done|].
    eapply skip_effect_statuses; [|exact He]. unfold same_statuses. by rewrite (mark_false _ _ _ _ _ _ EM).
  - simpl. destruct (expandSkipped runID t db1) as [e|[new db2]] eqn:EX; [done|].
    destruct (skipLoop now runID marks (queue ++ new) db2) as [e|[l' db3]] eqn:EL; [done|].
    intros E. inversion E; subst. destruct (IHm _ _ _ _ EL) as [Hnd He].
    apply expand_statuses in EX. destruct (skip_effect_cons _ _ _ _ _ _ EM (skip_effect_statuses _ _ _ _ EX He)).
    split; [by constructor|done].
  - intros E. destruct (IHq _ _ _ E) as [Hnd He]. split; [done|].
    eapply skip_effect_statuses; [|exact He]. unfold same_statuses. by rewrite (mark_false _ _ _ _ _ _ EM).
Qed.
End cascade_effect.

(** * A concrete job in SQL: 1 feeds 2, 2 feeds 3 *)

Definition sql_row (task : uuid) (status : TaskStatus) (claimedBy : string) (outstanding : Z) : TaskRun :=
  mkTaskRun (100 + task) 100 task status claimedBy None 0 None 1 2 "" None None false None None None
    "" false "" "" outstanding 0 0 None None 0 false NoDescriptor ∅.

Definition sql_db (rows : list TaskRun) : DB :=
  mkDB [] [mkTask 1 7 "a" 0 "task" "" 0 ∅; mkTask 2 7 "b" 1 "task" TriggerRuleAllFailed 0 ∅;
           mkTask 3 7 "c" 2 "task" "" 0 ∅]
    [mkTaskEdge 7 1 2; mkTaskEdge 7 2 3]
    [mkJobRun 100 7 None 0 "running" 2 BlobEmpty "" false 0 None] rows [] [] [] [].

Definition sql_start : DB :=
  sql_db [sql_row 1 TaskStatusPending "" 0; sql_row 2 TaskStatusPending "" 1; sql_row 3 TaskStatusPending "" 1].

Lemma sql_start_unique : rows_unique sql_start.
Proof. unfold rows_unique. decide_vm. Qed.

(** * Theorems *)

(** The operations that may run on a task row, with their arguments. *)
Inductive task_op : Type :=
| OpStart (now : Z) (run task : uuid) (rt : string)
| OpClaim (now : Z) (run task : uuid) (worker : string) (gen ttl : Z) (trust : bool)
| OpRelease (run task : uuid) (worker : string) (gen : Z)
| OpRateLimit (now : Z) (run task : uuid) (after : option Z)
| OpStartClaimed (now : Z) (run task : uuid) (rt worker : string)
| OpSkip (now : Z) (run task : uuid) (reason : string)
| OpReset (run : uuid)
| OpComplete (now : Z) (run task : uuid) (result worker : string) (claimed : bool)
    (output : gmap string string) (branches : list string)
| OpCacheHit (now : Z) (run task : uuid) (source : CacheHitSource) (result worker : string)
    (claimed : bool) (output : gmap string string) (branches : list string).

Definition run_op (uuid_String : uuid → string) (op : task_op) : Tx () :=
  match op with
  | OpStart now run task rt => StartTask now run task rt
  | OpClaim now run task w g ttl b => ClaimTaskForDispatch now run task w g ttl b
  | OpRelease run task w g => ReleaseTaskClaim run task w g
  | OpRateLimit now run task after => RateLimitTask now run task after
  | OpStartClaimed now run task rt w => StartTaskClaimed now run task rt w
  | OpSkip now run task reason => SkipTask now run task reason
  | OpReset run => ResetInFlightTasks run
  | OpComplete now run task res w c out br =>
      _ ← completeTask uuid_String now run task res w c out br; mret ()
  | OpCacheHit now run task src res w c out br =>
      _ ← cacheHitTask uuid_String now run task src res w c out br; mret ()
  end.

(** A sequence of operations, each with the faults its attempts meet. *)
Definition run_ops (uuid_String : uuid → string) (l : list ((nat → option store_error) * task_op))
    (db : DB) : DB :=
  fold_left (λ db p, (withStoreBusyRetry p.1 (run_op uuid_String p.2) db).2) l db.

Lemma run_op_kept us op db a db' : rows_unique db → run_op us op db = inr (a, db') → kept db db'.
Proof.
  intros Hu. destruct op; simpl.
  - apply StartTask_kept.
  - apply ClaimTaskForDispatch_kept.
  - apply ReleaseTaskClaim_kept.
  - apply RateLimitTask_kept.
  - apply StartTaskClaimed_kept.
  - apply SkipTask_kept.
  - apply ResetInFlightTasks_kept.
  - unfold mbind, Tx_bind. destruct (completeTask _ _ _ _ _ _ _ _ _ db) as [e|[x db1]] eqn:E; [done|].
    intros E2. inversion E2; subst. by eapply completeTask_kept.
  - unfold mbind, Tx_bind. destruct (cacheHitTask _ _ _ _ _ _ _ _ _ _ db) as [e|[x db1]] eqn:E; [done|].
    intros E2. inversion E2; subst. by eapply cacheHitTask_kept.
Qed.

Lemma run_ops_kept us l db : rows_unique db → kept db (run_ops us l db).
Proof.
  revert db. induction l as [|[f op] l IH]; intros db Hu; [reflexivity|].
  unfold run_ops. cbn [fold_left fst snd].
  destruct (withStoreBusyRetry f (run_op us op) db) as [r db1] eqn:E.
  assert (kept db db1) as K.
  { apply busyRetryLoop_atomic in E. destruct r as [e|a]; [by rewrite E|by eapply run_op_kept]. }
  transitivity db1; [done|]. apply IH. eapply same_keys_unique; [apply K|done].
Qed.

(** C12: a task row that has reached a terminal status keeps its status, result,
    claim and every other column but the predecessor counter under any sequence
    of starts, claims, releases, rate limits, skips, resets, completions
    ([completeTask]) and cache hits, of any task and run, including their skip
    cascades, whatever contention the transactions meet, in a database with one row
    per run and task. The writes of a run owner ([CompleteTaskOwner]), [failTask] and
    [retryTask] are not among them. *)
Theorem terminal_rows_final us ops db (i : nat) r :
  rows_unique db → task_runs db !! i = Some r → IsTerminal (tr_Status r) = true →
  ∃ r', task_runs (run_ops us ops db) !! i = Some r' ∧
    tr_Status r' = tr_Status r ∧ tr_Result r' = tr_Result r ∧ tr_Error r' = tr_Error r ∧
    tr_CompletedAt r' = tr_CompletedAt r ∧ tr_TerminalSequence r' = tr_TerminalSequence r ∧
    with_OutstandingPredecessors 0 r' = with_OutstandingPredecessors 0 r.
Proof.
  intros Hu Hr Ht. destruct (run_ops_kept us ops db Hu) as [_ HK]. destruct (HK i r Hr Ht) as (r' & Hr' & F).
  exists r'. split; [done|]. unfold frozen in F. pose proof F as F'. injection F as. by repeat split.
Qed.

(** A late report of a cancelled task's container changes nothing. *)
Lemma terminal_rows_final_witness : ∃ r',
  task_runs (run_ops (λ _, "") [(λ _, None, OpComplete 5 100 1 "success" "" false ∅ [])]
    (sql_db [sql_row 1 TaskStatusCancelled "" 0; sql_row 2 TaskStatusPending "" 1])) !! 0%nat = Some r' ∧
  tr_Status r' = TaskStatusCancelled.
Proof.
  destruct (terminal_rows_final (λ _, "") [(λ _, None, OpComplete 5 100 1 "success" "" false ∅ [])]
    (sql_db [sql_row 1 TaskStatusCancelled "" 0; sql_row 2 TaskStatusPending "" 1]) 0
    (sql_row 1 TaskStatusCancelled "" 0)) as (r' & Hr' & Hs & _).
  - unfold rows_unique. decide_vm.
  - reflexivity.
  - reflexivity.
  - by exists r'.
Defined.

(** A transaction under the contention retry takes effect exactly once or not
    at all (on success the new database is the body's result on the old one, on
    error the database is unchanged), and up to eight consecutive contention errors
    are survived: if the connection recovers by the ninth attempt, the operation has
    its effect. *)
Lemma busy_retry_atomic {A} faults (body : Tx A) db :
  match withStoreBusyRetry faults body db with
  | (inr a, db') => body db = inr (a, db')
  | (inl _, db') => db' = db
  end ∧
  ∀ k a db', (k ≤ 8)%nat → (∀ i, (i < k)%nat → faults i = Some ErrContention) → faults k = None →
    body db = inr (a, db') → withStoreBusyRetry faults body db = (inr a, db').
Proof.
  split.
  - destruct (withStoreBusyRetry faults body db) as [r db'] eqn:E. by apply busyRetryLoop_atomic in E.
  - intros k a db' Hk Hf Hn Hb. unfold withStoreBusyRetry.
    rewrite (busyRetryLoop_recovers _ faults 0 body db k); [by rewrite Hb|exact Hk| |done|by rewrite Hb].
    intros i Hi. apply Hf. lia.
Qed.

Lemma busy_retry_atomic_witness :
  withStoreBusyRetry (λ n, if (n <? 8)%nat then Some ErrContention else None)
    (StartTask 3 100 1 "c1") (sql_db [sql_row 1 TaskStatusSucceeded "" 0]) =
  (inr (), sql_db [sql_row 1 TaskStatusSucceeded "" 0]).
Proof.
  apply (proj2 (busy_retry_atomic _ _ _) 8%nat); [lia| |reflexivity|reflexivity].
  intros i Hi. by apply Nat.ltb_lt in Hi as ->.
Defined.

(** The rows an update by key can reach. *)
Lemma keyed_countb db run task r (q : TaskRun → bool) : rows_unique db →
  r ∈ task_runs db → task_key r = (run, task) →
  countb (λ x, is_task_run run task x && q x) (task_runs db) = 0%nat ↔ q r = false.
Proof.
  intros Hu Hin Hk. rewrite countb_0. split.
  - intros H. specialize (H r Hin). by rewrite (proj2 (is_task_run_key _ _ _) Hk) in H.
  - intros Hq x Hx. destruct (is_task_run run task x) eqn:E; [|done]. simpl.
    apply is_task_run_key in E. apply list_elem_of_lookup in Hin as [i Hi], Hx as [j Hj].
    assert (i = j) as -> by (eapply rows_unique_eq; [exact Hu|exact Hi|exact Hj|congruence]). congruence.
Qed.

(** A claim of a row that does not qualify is rejected. *)
Lemma claim_rejected now run task w g ttl b db r : rows_unique db → r ∈ task_runs db →
  task_key r = (run, task) → claimable now g b r = false →
  ClaimTaskForDispatch now run task w g ttl b db = inl ErrTaskClaimMismatch.
Proof.
  intros Hu Hin Hk Hc. unfold ClaimTaskForDispatch, mbind, Tx_bind.
  destruct (UpdateTaskRuns _ _ db) as [e|[n db1]] eqn:E; [done|].
  apply UpdateTaskRuns_spec in E as (-> & _). by rewrite (proj2 (keyed_countb db run task r _ Hu Hin Hk) Hc).
Qed.

Lemma claim_spec now run task w g ttl b db a db' :
  ClaimTaskForDispatch now run task w g ttl b db = inr (a, db') →
  (∃ r, r ∈ task_runs db ∧ task_key r = (run, task) ∧ claimable now g b r = true) ∧
  same_keys db db' ∧
  (∀ i : nat, task_runs db' !! i = (λ r, if is_task_run run task r && claimable now g b r
     then Updates [with_Status TaskStatusRunning; with_ClaimedBy w; with_ClaimExpiresAt (Some (now + ttl));
            λ r, with_ClaimAttempt (tr_ClaimAttempt r + 1) r; with_StartedAt (Some now);
            with_OwnerGeneration g; with_RateLimitRetryAfter None] r else r) <$> task_runs db !! i).
Proof.
  unfold ClaimTaskForDispatch, mbind, Tx_bind.
  destruct (UpdateTaskRuns _ _ db) as [e|[n db1]] eqn:E; [done|].
  apply UpdateTaskRuns_spec in E as (Hn & _ & HU). destruct (Nat.eqb_spec n 0) as [|Hz]; [done|].
  intros ER.
  assert (tx_rel (λ d d', task_runs d' = task_runs d) (recordTaskEventTx TypeTaskStarted run task)) as HR.
  { apply tx_rel_record; [|done]. split; [done|]. intros x y z. congruence. }
  apply HR in ER. split; [|split].
  - assert (0 < countb (λ r, is_task_run run task r && claimable now g b r) (task_runs db))%nat as Hp by lia.
    apply countb_pos in Hp as (r & Hin & Hr). bool_prop. exists r. split; [done|].
    by rewrite <- is_task_run_key.
  - unfold same_keys. rewrite ER. eapply rows_same_keys; [exact HU|]. intros r. simpl.
    by destruct (is_task_run run task r && claimable now g b r).
  - intros i. by rewrite ER, HU.
Qed.

(** Dispatch claims are exclusive and fenced: a claim that succeeds took an
    unclaimed pending row no newer generation had written, made it running under the
    worker and stamped the owner's generation on it, and every further claim of that
    task, by any worker, generation and time, fails until it is released. *)
Lemma claim_exclusive now run task w g ttl b db a db' :
  rows_unique db → ClaimTaskForDispatch now run task w g ttl b db = inr (a, db') →
  (∃ (i : nat) r r', task_runs db !! i = Some r ∧ task_runs db' !! i = Some r' ∧
     task_key r = (run, task) ∧ tr_Status r = TaskStatusPending ∧ tr_ClaimedBy r = "" ∧
     tr_OwnerGeneration r ≤ g ∧ tr_Status r' = TaskStatusRunning ∧ tr_ClaimedBy r' = w ∧ tr_OwnerGeneration r' = g) ∧
  ∀ now' w' g' ttl' b', ClaimTaskForDispatch now' run task w' g' ttl' b' db' = inl ErrTaskClaimMismatch.
Proof.
  intros Hu E. destruct (claim_spec _ _ _ _ _ _ _ _ _ _ E) as ((r & Hin & Hk & Hc) & HK & HU).
  apply list_elem_of_lookup in Hin as [i Hi]. specialize (HU i). rewrite Hi in HU. cbn [fmap option_fmap option_map] in HU.
  rewrite (proj2 (is_task_run_key run task r) Hk), Hc in HU. cbn [andb] in HU. split.
  - unfold claimable in Hc. bool_prop. eexists i, r, _. by repeat split.
  - intros. eapply claim_rejected; [by eapply same_keys_unique|by eapply list_elem_of_lookup_2|done|].
    reflexivity.
Qed.

Lemma claim_exclusive_witness : ∃ db',
  ClaimTaskForDispatch 5 100 1 "w1" 2 30 false sql_start = inr ((), db') ∧
  ClaimTaskForDispatch 6 100 1 "w2" 3 30 true db' = inl ErrTaskClaimMismatch.
Proof.
  eexists. split; [vm_compute; reflexivity|].
  refine (proj2 (claim_exclusive 5 100 1 "w1" 2 30 false sql_start () _ sql_start_unique _) 6 "w2" 3 30 true).
  vm_compute. reflexivity.
Defined.

(** C30: the skip cascade always ends, whatever the edges (cycles included), and what
    it does: the tasks it reports are distinct, each had a pending row of the run,
    exactly those pending rows become skipped, and every other row of the database
    keeps its status. *)
Theorem skip_cascade_effect now run task reason db :
  match skipTaskAndDescendantsTx now run task reason db with
  | inl e => e ≠ outOfFuel
  | inr (l, db') =>
      NoDup l ∧ length (task_runs db') = length (task_runs db) ∧
      (∀ (i : nat) r, task_runs db !! i = Some r → ∃ r', task_runs db' !! i = Some r' ∧
         task_key r' = task_key r ∧
         tr_Status r' = if (tr_JobRunID r =? run)%N && (tr_Status r =s TaskStatusPending) &&
                           bool_decide (tr_TaskID r ∈ l)
                        then TaskStatusSkipped else tr_Status r) ∧
      (∀ t, t ∈ l → ∃ r, r ∈ task_runs db ∧ task_key r = (run, t) ∧ tr_Status r = TaskStatusPending)
  end.
Proof.
  unfold skipTaskAndDescendantsTx, Query, mbind, Tx_bind. destruct (skipLoop _ _ _ _ db) as [e|[l db']] eqn:E.
  - intros ->. by apply skipLoop_total in E.
  - apply skipLoop_effect in E as (Hnd & HL & HR & HP). split; [done|]. split; [done|]. split; [done|].
    intros t Ht. destruct (HP t Ht) as (r & Hin & Hp). exists r. unfold pending_key in Hp. bool_prop.
    split; [done|]. split; [by apply is_task_run_key|done].
Qed.

(** Skipping task 2 takes its successor 3 along. *)
Example skip_cascade_example : ∃ db',
  skipTaskAndDescendantsTx 9 100 2 "why" sql_start = inr ([2; 3]%N, db').
Proof. eexists. vm_compute. reflexivity. Qed.
