(* ===== verification/OwnerRun.v ===== *)
(** A run under one owner: construction, the step relation of the owner's
    operations, reachability, and the theorems on whole runs. *)

From S2P Require Import Prelude TriggerRule Tables RunState RunStateInv Advance OwnerSteps Topology.

(** * Construction *)

Definition fresh_task : OwnerTaskState := mkOwnerTaskState TaskStatusPending 1 "" 0.

Lemma initTasks_spec iter rs :
  let rs' := fold_left initTask iter rs in
  (∀ t, tasks rs' !! t = if decide (t ∈ iter) then Some fresh_task else tasks rs !! t) ∧
  (∀ t, indegree rs' !! t = if decide (t ∈ iter)
        then Some (Z.of_nat (length (predecessors_of (topo rs) t))) else indegree rs !! t) ∧
  total rs' = total rs + Z.of_nat (length iter) ∧ topo rs' = topo rs ∧ outcomes rs' = outcomes rs ∧
  ready rs' = ready rs ∧ inReady rs' = inReady rs ∧ seq rs' = seq rs ∧
  terminalCount rs' = terminalCount rs.
Proof.
  revert rs. induction iter as [|x iter IH]; intros rs.
  { simpl. repeat split; try done. lia. }
  cbn [fold_left]. destruct (IH (initTask rs x)) as (H1 & H2 & H3 & H4). clear IH.
  split; [|split; [|split; [|done]]].
  - intros t. rewrite H1. simpl. rewrite lookup_insert.
    destruct (decide (t ∈ iter)); [by rewrite decide_True by set_solver|].
    destruct (decide (x = t)); [by rewrite decide_True by set_solver|].
    by rewrite decide_False by set_solver.
  - intros t. rewrite H2. simpl. rewrite lookup_insert.
    destruct (decide (t ∈ iter)); [by rewrite decide_True by set_solver|].
    destruct (decide (x = t)) as [->|]; [by rewrite decide_True by set_solver|].
    by rewrite decide_False by set_solver.
  - rewrite H3. simpl. lia.
Qed.

Section construction.
Context (t0 : RunTopology) (W : topo_wf t0) (iter : list uuid) (Hk : key_order iter (Order t0)).
Context (start : Z).
Let rs1 := fold_left initTask iter (mkRunState t0 ∅ ∅ ∅ [] ∅ start 0 0).

Lemma init_tasks t : tasks rs1 !! t = if decide (t ∈ dom (Order t0)) then Some fresh_task else None.
Proof using Hk.
  destruct (initTasks_spec iter (mkRunState t0 ∅ ∅ ∅ [] ∅ start 0 0)) as (H1 & _).
  unfold rs1. rewrite H1. simpl. rewrite lookup_empty. apply decide_ext, Hk.
Qed.

Lemma init_live t : live_at rs1 t = bool_decide (t ∈ dom (Order t0)).
Proof using Hk.
  unfold live_at. rewrite init_tasks. case_decide; case_bool_decide; done.
Qed.

Lemma init_indegree t : t ∈ dom (Order t0) →
  indegree_of rs1 t = Z.of_nat (length (predecessors_of t0 t)).
Proof using Hk.
  intros Ht. destruct (initTasks_spec iter (mkRunState t0 ∅ ∅ ∅ [] ∅ start 0 0)) as (_ & H2 & _).
  unfold indegree_of, map_get, rs1. rewrite H2, decide_True by (by apply Hk). done.
Qed.

Lemma init_live_tasks : live_tasks rs1 = size (tasks rs1).
Proof using Hk.
  unfold live_tasks. f_equal. apply map_filter_id. intros i x Hx.
  rewrite init_tasks in Hx. case_decide; by simplify_eq.
Qed.

Lemma init_base : base rs1 [] [].
Proof using W Hk.
  destruct (initTasks_spec iter (mkRunState t0 ∅ ∅ ∅ [] ∅ start 0 0))
    as (H1 & H2 & H3 & H4 & H5 & H6 & H7 & H8 & H9).
  fold rs1 in H1, H2, H3, H4, H5, H6, H7, H8, H9. simpl in *.
  assert (dom (tasks rs1) = dom (Order t0)) as Hdom.
  { apply set_eq. intros t. rewrite elem_of_dom, init_tasks. case_decide; [by split|].
    split; [by intros [? ?]|done]. }
  assert (size (tasks rs1) = length iter) as Hsz.
  { rewrite <- size_dom, Hdom. destruct Hk as [Hnd Hin].
    rewrite <- (size_list_to_set (C:=gset uuid)) by done. f_equal. apply set_eq. intros t.
    by rewrite elem_of_list_to_set, Hin. }
  constructor; rewrite ?H4; try done.
  - intros t ts. rewrite init_tasks. case_decide; [|done]. intros ?. simplify_eq. by right; left.
  - intros t. rewrite H5, lookup_empty, init_tasks. by case_decide.
  - intros t. rewrite init_live. intros Ht%bool_decide_eq_true.
    rewrite init_indegree by done. simpl. rewrite Nat.add_0_r. f_equal. symmetry.
    unfold countb. f_equal. apply List.forallb_filter_id. apply List.forallb_forall.
    intros p Hp. apply list_elem_of_In in Hp. unfold waiting. rewrite init_live.
    apply orb_true_iff. left. apply bool_decide_eq_true. by apply (tw_closed _ W p t).
  - intros t. rewrite H6, H7. set_solver.
  - rewrite H6. constructor.
  - rewrite H6. constructor.
  - intros t. rewrite H6. set_solver.
  - intros t (ts & Ht & E). rewrite init_tasks in Ht. case_decide; by simplify_eq.
  - intros t Ht. set_solver.
  - constructor.
  - rewrite H9, H3, init_live_tasks, Hsz. lia.
  - rewrite H3, Hsz. lia.
Qed.
End construction.

(** The second loop queues every task without predecessors. *)
Lemma seedReady_spec l rs : base rs [] [] → outcomes rs = ∅ →
  (∀ t, t ∈ l → has_status rs t TaskStatusPending) →
  let rs' := fold_left seedReady l rs in
  base rs' [] [] ∧ (∀ t, t ∈ ready rs' ↔ t ∈ ready rs ∨ (t ∈ l ∧ indegree_of rs t = 0)) ∧
  tasks rs' = tasks rs ∧ indegree rs' = indegree rs ∧ outcomes rs' = outcomes rs ∧
  topo rs' = topo rs ∧ seq rs' = seq rs ∧ total rs' = total rs ∧ terminalCount rs' = terminalCount rs.
Proof.
  revert rs. induction l as [|x l IH]; intros rs B Ho Hl.
  { simpl. split; [done|]. split; [set_solver|done]. }
  assert (has_status rs x TaskStatusPending) as Hx by (apply Hl; set_solver).
  cbn [fold_left]. destruct (decide (indegree_of rs x = 0)) as [Hz|Hnz].
  - assert (seedReady rs x = pushReady x rs) as -> by (unfold seedReady; by rewrite Hz).
    pose proof (pushReady_same x rs) as (E1 & E2 & E3 & E4 & E5).
    assert (total (pushReady x rs) = total rs ∧ terminalCount (pushReady x rs) = terminalCount rs)
      as [E6 E7] by (unfold pushReady; by repeat case_match).
    assert (base (pushReady x rs) [] []) as B1.
    { apply pushReady_base; try done. unfold triggerSatisfied. rewrite Ho.
      replace (CollectPredecessorStatuses _ _) with (@nil TaskStatus); [done|].
      symmetry. generalize (predecessors_of (topo rs) x). intros m. by induction m. }
    destruct (IH (pushReady x rs)) as (H1 & H2 & H3); [done|by rewrite E3| |].
    { intros t Ht. apply pushReady_status, Hl. set_solver. }
    split; [done|]. split.
    + intros t. rewrite H2, pushReady_elem, pushReady_indegree by (done || apply B).
      rewrite elem_of_cons. naive_solver.
    + by rewrite E1, E2, E3, E4, E5, E6, E7 in H3.
  - assert (seedReady rs x = rs) as ->.
    { unfold seedReady. by rewrite (proj2 (Z.eqb_neq _ _) Hnz). }
    destruct (IH rs) as (H1 & H2 & H3); [done|done|intros; apply Hl; set_solver|].
    split; [done|]. split; [|done]. intros t. rewrite H2, elem_of_cons. naive_solver.
Qed.

Record fresh_run (t0 : RunTopology) (start : Z) (rs : RunState) : Prop := {
  fr_inv : owner_inv rs;
  fr_topo : topo rs = t0;
  fr_tasks : ∀ t, tasks rs !! t = if decide (t ∈ dom (Order t0)) then Some fresh_task else None;
  fr_ready : ∀ t, t ∈ ready rs ↔ t ∈ dom (Order t0) ∧ predecessors_of t0 t = [];
  fr_seq : seq rs = start;
  fr_count : terminalCount rs = 0;
}.

Lemma NewRunState_fresh iter1 iter2 t0 start : topo_wf t0 → key_order iter1 (Order t0) →
  key_order iter2 (Order t0) → fresh_run t0 start (NewRunState iter1 iter2 t0 start).
Proof.
  intros W Hk1 Hk2. unfold NewRunState.
  pose proof (init_base t0 W iter1 Hk1 start) as B.
  pose proof (init_tasks t0 iter1 Hk1 start) as Ht.
  pose proof (init_indegree t0 iter1 Hk1 start) as Hd.
  destruct (initTasks_spec iter1 (mkRunState t0 ∅ ∅ ∅ [] ∅ start 0 0))
    as (_ & _ & _ & H4 & H5 & H6 & _ & H8 & H9). simpl in *.
  set (rs1 := fold_left initTask iter1 _) in *.
  assert (∀ t, t ∈ iter2 → has_status rs1 t TaskStatusPending) as Hp.
  { intros t Hin. exists fresh_task. rewrite Ht, decide_True by (by apply Hk2). done. }
  destruct (seedReady_spec iter2 rs1 B H5 Hp) as (B' & Hr & E1 & E2 & E3 & E4 & E5 & E6 & E7).
  assert (∀ t, t ∈ ready (fold_left seedReady iter2 rs1) ↔
               t ∈ dom (Order t0) ∧ predecessors_of t0 t = []) as Hrd.
  { intros t. rewrite Hr, H6. destruct Hk2 as [_ Hin]. rewrite Hin. split.
    - intros [?|[H1 H2]]; [set_solver|]. rewrite Hd in H2 by done. split; [done|].
      destruct (predecessors_of t0 t); [done|]. simpl in H2. lia.
    - intros [H1 H2]. right. split; [done|]. by rewrite Hd, H2 by done. }
  constructor; try done; [split; [done|]| | | |].
  - intros t (ts & Hts & Hst) Hz. apply Hr. right. rewrite E1, Ht in Hts. case_decide; [|done].
    split; [by apply Hk2|]. unfold indegree_of in *. by rewrite <- E2.
  - by rewrite E4.
  - intros t. by rewrite E1.
  - by rewrite E5, H8.
  - by rewrite E7, H9.
Qed.

(** * Runs: the operations the owner performs between construction and the end *)

Inductive owner_step : RunState → RunState → Prop :=
| os_dispatch x worker attempt lease rs :
    x ∈ ready rs → owner_step rs (MarkDispatched x worker attempt lease rs)
| os_complete x s branch rs rs' res :
    IsTerminal s = true → ApplyCompletion x s branch rs = Some (rs', res) → owner_step rs rs'
| os_requeue iter rs rs' out :
    key_order iter (tasks rs) → requeueRunning iter rs = (rs', out) → owner_step rs rs'.

Definition reachable (t0 : RunTopology) (start : Z) (rs : RunState) : Prop :=
  ∃ iter1 iter2, key_order iter1 (Order t0) ∧ key_order iter2 (Order t0) ∧
    rtc owner_step (NewRunState iter1 iter2 t0 start) rs.

Lemma MarkDispatched_same x w at_ le rs :
  topo (MarkDispatched x w at_ le rs) = topo rs ∧ seq (MarkDispatched x w at_ le rs) = seq rs ∧
  terminalCount (MarkDispatched x w at_ le rs) = terminalCount rs ∧
  total (MarkDispatched x w at_ le rs) = total rs ∧
  outcomes (MarkDispatched x w at_ le rs) = outcomes rs.
Proof. unfold MarkDispatched, removeReady. by repeat case_match. Qed.

(** The number of finished tasks, from the counters. *)
Lemma inv_live_count rs : owner_inv rs → Z.of_nat (live_tasks rs) = total rs - terminalCount rs.
Proof. intros [B _]. pose proof (b_count _ _ _ B). lia. Qed.

Lemma effect_live rs0 rs x s sks t : effect rs0 rs x s sks → IsTerminal s = true →
  live_at rs t = true → live_at rs0 t = true ∧ tasks rs !! t = tasks rs0 !! t.
Proof.
  intros E Hs. unfold live_at. rewrite (ef_tasks _ _ _ _ _ E t).
  case_decide; [destruct (tasks rs0 !! t); simpl; by rewrite ?Hs|].
  case_decide; [by destruct (tasks rs0 !! t)|done].
Qed.

Lemma effect_terminal rs0 rs x s sks t : effect rs0 rs x s sks → live_at rs0 x = true →
  terminal_at rs0 t = true → tasks rs !! t = tasks rs0 !! t.
Proof.
  intros E Hx Ht. apply terminal_not_live in Ht. rewrite (ef_tasks _ _ _ _ _ E t).
  rewrite decide_False by (intros ->; congruence). rewrite decide_False; [done|].
  intros Hin. apply (ef_live _ _ _ _ _ E) in Hin. naive_solver congruence.
Qed.

(** [ApplyCompletion] on a live task, with the hypotheses in boolean form. *)
Lemma completion_of x s branch rs rs' res : owner_inv rs → IsTerminal s = true →
  ApplyCompletion x s branch rs = Some (rs', res) →
  (live_at rs x = false ∧ rs' = rs) ∨
  (live_at rs x = true ∧ completion rs x s branch rs' res).
Proof.
  intros HI Hs HA. destruct (live_at rs x) eqn:E.
  - right. split; [done|]. destruct (live_has _ _ E) as (ts & Hts & Hl).
    by eapply ApplyCompletion_spec.
  - left. rewrite ApplyCompletion_noop in HA by done. by simplify_eq.
Qed.

(** A finished task is never touched again. *)
Lemma step_terminal_kept rs rs' t : owner_inv rs → owner_step rs rs' → terminal_at rs t = true →
  tasks rs' !! t = tasks rs !! t.
Proof.
  intros HI Hs Ht. destruct Hs as [x w at_ le rs Hr|x s br rs rs' res Hs HA|iter rs rs' out Hk HR].
  - unfold MarkDispatched. destruct (tasks rs !! x) as [ts|] eqn:E; [|done].
    destruct (IsTerminal (Status ts)) eqn:El; [done|].
    assert (x ≠ t) as Hne.
    { intros ->. unfold terminal_at in Ht. rewrite E in Ht. congruence. }
    unfold removeReady. case_bool_decide; simpl; by rewrite lookup_insert_ne.
  - destruct (completion_of _ _ _ _ _ _ HI Hs HA) as [[_ ->]|[Hl C]]; [done|].
    by eapply effect_terminal; [apply C| |].
  - destruct (requeueRunning_spec _ _ _ _ HI Hk HR) as (_ & _ & Hout & _ & -> & _).
    case_decide as Hd; [|done]. apply Hout in Hd as Hr. apply running_live in Hr.
    apply terminal_not_live in Ht. congruence.
Qed.

Definition seq_dense (start : Z) (rs : RunState) : Prop := seq rs = start + terminalCount rs.

(** Each terminal transition takes the next sequence number. *)
Lemma visit_dense a succ start : seq_dense start (adv_rs a) →
  seq_dense start (adv_rs (visitSuccessor a succ)).
Proof.
  unfold seq_dense, visitSuccessor, markTerminal, removeReady, pushReady, decIndegree. intros H.
  repeat (case_match; simpl in *; simplify_eq/=; try done); lia.
Qed.

Lemma visits_dense l a start : seq_dense start (adv_rs a) →
  seq_dense start (adv_rs (fold_left visitSuccessor l a)).
Proof.
  revert a. induction l as [|x l IH]; intros a H; [done|]. cbn [fold_left]. apply IH.
  by apply visit_dense.
Qed.

Lemma advance_dense fuel a a' start : seq_dense start (adv_rs a) →
  advanceLoop fuel a = Some a' → seq_dense start (adv_rs a').
Proof.
  revert a. induction fuel as [|fuel IH]; intros a H; simpl; destruct (adv_queue a); intros E;
    simplify_eq; try done.
  eapply IH; [|exact E]. by apply visits_dense.
Qed.

Lemma markTerminal_dense x s rs start : seq_dense start rs →
  seq_dense start (fst (markTerminal x s rs)).
Proof.
  unfold seq_dense, markTerminal, removeReady. intros H.
  repeat (case_match; simpl in *; simplify_eq/=; try done); lia.
Qed.

Lemma skipBranches_dense branch rs seeds sks start : seq_dense start rs →
  seq_dense start (fst (fst (fold_left skipBranch branch (rs, seeds, sks)))).
Proof.
  revert rs seeds sks. induction branch as [|b br IH]; intros rs seeds sks H; [done|].
  cbn [fold_left]. unfold skipBranch at 2. destruct (tasks rs !! b) as [st|]; [|by apply IH].
  destruct (IsTerminal (Status st)); [by apply IH|].
  pose proof (markTerminal_dense b TaskStatusSkipped rs start H) as H1.
  destruct (markTerminal b TaskStatusSkipped rs) as [rs1 sq]. by apply IH.
Qed.

Lemma ApplyCompletion_dense x s branch rs rs' res start : seq_dense start rs →
  ApplyCompletion x s branch rs = Some (rs', res) → seq_dense start rs'.
Proof.
  intros H. unfold ApplyCompletion. destruct (tasks rs !! x) as [ts|]; [|intros; by simplify_eq].
  destruct (IsTerminal (Status ts)); [intros; by simplify_eq|].
  pose proof (markTerminal_dense x s rs start H) as H1.
  destruct (markTerminal x s rs) as [rs1 sq].
  pose proof (skipBranches_dense branch rs1 [x] [] start H1) as H2.
  destruct (fold_left skipBranch branch (rs1, [x], [])) as [[rs2 seeds] bsk].
  destruct (advanceSuccessors seeds rs2) as [a|] eqn:Ea; intros; simplify_eq.
  by eapply advance_dense; [|exact Ea].
Qed.

Lemma step_inv rs rs' start : owner_inv rs → seq_dense start rs → owner_step rs rs' →
  owner_inv rs' ∧ topo rs' = topo rs ∧ seq_dense start rs'.
Proof.
  intros HI HD Hs. destruct Hs as [x w at_ le rs Hr|x s br rs rs' res Hs HA|iter rs rs' out Hk HR].
  - destruct (MarkDispatched_same x w at_ le rs) as (E1 & E2 & E3 & _).
    split; [by apply MarkDispatched_inv|]. split; [done|]. unfold seq_dense. by rewrite E2, E3.
  - split; [|split; [|by eapply ApplyCompletion_dense]].
    + destruct (completion_of _ _ _ _ _ _ HI Hs HA) as [[_ ->]|[_ C]]; [done|apply C].
    + destruct (completion_of _ _ _ _ _ _ HI Hs HA) as [[_ ->]|[_ C]]; [done|].
      apply (cp_effect _ _ _ _ _ _ C).
  - destruct (requeueRunning_spec _ _ _ _ HI Hk HR)
      as (HI' & _ & _ & _ & _ & E1 & E2 & _ & _ & _ & E3).
    split; [done|]. split; [done|]. unfold seq_dense. by rewrite E1, E3.
Qed.

Lemma reachable_inv t0 start rs : topo_wf t0 → reachable t0 start rs →
  owner_inv rs ∧ topo rs = t0 ∧ seq_dense start rs.
Proof.
  intros W (iter1 & iter2 & Hk1 & Hk2 & Hs).
  destruct (NewRunState_fresh iter1 iter2 t0 start W Hk1 Hk2) as [HI HT _ _ HS HC].
  assert (seq_dense start (NewRunState iter1 iter2 t0 start)) as HD
    by (unfold seq_dense; rewrite HS, HC; lia).
  clear HS HC. induction Hs as [|rs0 rs1 rs2 H1 H2 IH]; [done|].
  destruct (step_inv _ _ _ HI HD H1) as (HI1 & HT1 & HD1). apply IH; [done|congruence|done].
Qed.

Lemma key_order_elements {V} (m : gmap uuid V) : key_order (elements (dom m)) m.
Proof. split; [apply NoDup_elements|]. intros t. apply elem_of_elements. Qed.

Lemma reachable_start t0 start :
  reachable t0 start
    (NewRunState (elements (dom (Order t0))) (elements (dom (Order t0))) t0 start).
Proof.
  eexists _, _. split; [apply key_order_elements|]. split; [apply key_order_elements|]. apply rtc_refl.
Qed.

(** * Acyclic topologies *)

Definition acyclic (t : RunTopology) : Prop :=
  ∃ rank : uuid → nat, ∀ p s, p ∈ predecessors_of t s → (rank p < rank s)%nat.

Lemma live_exists rs : (0 < live_tasks rs)%nat → ∃ t, live_at rs t = true.
Proof.
  intros H. unfold live_tasks in H.
  set (m := filter (λ kv : uuid * OwnerTaskState, IsTerminal (Status kv.2) = false) (tasks rs)) in H.
  destruct (decide (m = ∅)) as [E|E]; [rewrite E, map_size_empty in H; lia|].
  destruct (map_choose m E) as (t & ts & Hm). unfold m in Hm.
  apply map_lookup_filter_Some in Hm as [H1 H2]. exists t. unfold live_at. rewrite H1. simpl in H2.
  by rewrite H2.
Qed.

(** Below every live task there is one that can be worked on now. *)
Lemma minimal_live rs t : owner_inv rs → acyclic (topo rs) → live_at rs t = true →
  ∃ u, u ∈ ready rs ∨ has_status rs u TaskStatusRunning.
Proof.
  intros [B HP] [rank Hr]. remember (rank t) as n eqn:Hn. revert t Hn.
  induction n as [n IH] using lt_wf_ind. intros t -> Ht.
  destruct (decide (indegree_of rs t = 0)) as [Hz|Hz].
  - destruct (live_has _ _ Ht) as (ts & Hts & Hl). exists t.
    destruct (b_status _ _ _ B t ts Hts) as [?|[E|E]]; [congruence|left; apply HP; [by exists ts|done]|].
    right. by exists ts.
  - rewrite (b_indeg _ _ _ B t Ht) in Hz. simpl in Hz.
    assert (0 < countb (waiting rs []) (predecessors_of (topo rs) t))%nat as Hpos by lia.
    apply countb_pos in Hpos as (p & Hp & Hw). unfold waiting in Hw.
    rewrite bool_decide_eq_false_2, orb_false_r in Hw by set_solver.
    eapply (IH (rank p)); [by apply Hr|done|done].
Qed.

Lemma incomplete_live rs : owner_inv rs → IsComplete rs = false → (0 < live_tasks rs)%nat.
Proof.
  intros HI. unfold IsComplete. rewrite Z.leb_gt. pose proof (inv_live_count rs HI). lia.
Qed.

Lemma complete_none_live rs t : owner_inv rs → IsComplete rs = true → live_at rs t = false.
Proof.
  intros HI Hc. unfold IsComplete in Hc. bool_prop. pose proof (inv_live_count rs HI) as H.
  destruct (live_at rs t) eqn:E; [|done]. exfalso.
  destruct (live_has _ _ E) as (ts & Hts & Hl).
  assert (live_tasks rs = 0%nat) as H0 by lia. unfold live_tasks in H0.
  apply map_size_empty_inv, map_empty_filter in H0. by apply (H0 t ts Hts).
Qed.
