(* ===== verification/OwnerTheorems.v ===== *)
(** Theorems on whole runs under one owner, with concrete instances. *)

From S2P Require Import Prelude TriggerRule Tables RunState RunStateInv Advance OwnerSteps Topology OwnerRun.

(** * Runs whose workers answer according to an oracle *)

(** [f t] is the terminal status a worker reports when it executes [t]. The
    owner dispatches queued tasks, applies reports of running tasks, and may
    requeue in-flight work; no branch decision is taken. *)
Inductive worker_step (f : uuid → TaskStatus) : RunState → RunState → Prop :=
| ws_dispatch x worker attempt lease rs :
    x ∈ ready rs → worker_step f rs (MarkDispatched x worker attempt lease rs)
| ws_complete x rs rs' res :
    has_status rs x TaskStatusRunning →
    ApplyCompletion x (f x) [] rs = Some (rs', res) → worker_step f rs rs'
| ws_requeue iter rs rs' out :
    key_order iter (tasks rs) → requeueRunning iter rs = (rs', out) → worker_step f rs rs'.

Definition worker_run (f : uuid → TaskStatus) (t0 : RunTopology) (rs : RunState) : Prop :=
  ∃ iter1 iter2 start, key_order iter1 (Order t0) ∧ key_order iter2 (Order t0) ∧
    rtc (worker_step f) (NewRunState iter1 iter2 t0 start) rs.

Definition status_at (rs : RunState) (t : uuid) : option TaskStatus := Status <$> tasks rs !! t.

(** A finished task either ran because its rule held or was skipped because it
    did not, judged on predecessors that have all finished. *)
Definition explained (f : uuid → TaskStatus) (rs : RunState) : Prop :=
  ∀ t ts, tasks rs !! t = Some ts → IsTerminal (Status ts) = true →
    (∀ p, p ∈ predecessors_of (topo rs) t → live_at rs p = false) ∧
    Status ts = if triggerSatisfied t rs then f t else TaskStatusSkipped.

Lemma worker_owner f rs rs' : (∀ t, IsTerminal (f t) = true) →
  worker_step f rs rs' → owner_step rs rs'.
Proof. intros Hf [ | |]; [by apply os_dispatch|by eapply os_complete|by eapply os_requeue]. Qed.

(** Verdicts of tasks with finished predecessors survive any change that keeps
    finished tasks. *)
Lemma trigger_kept rs rs' t : owner_inv rs → owner_inv rs' → topo rs' = topo rs →
  (∀ u, terminal_at rs u = true → tasks rs' !! u = tasks rs !! u) →
  (∀ p, p ∈ predecessors_of (topo rs) t → live_at rs p = false) →
  t ∈ dom (tasks rs) →
  triggerSatisfied t rs' = triggerSatisfied t rs ∧
  (∀ p, p ∈ predecessors_of (topo rs') t → live_at rs' p = false).
Proof.
  intros [B _] [B' _] HT Hk Hp Ht.
  assert (∀ p, p ∈ predecessors_of (topo rs) t → tasks rs' !! p = tasks rs !! p ∧ live_at rs' p = false) as H.
  { intros p Hin. destruct (tw_closed _ (b_topo _ _ _ B) p t Hin) as [Hd _].
    rewrite <- (b_dom _ _ _ B), elem_of_dom in Hd. destruct Hd as [ts Hts].
    pose proof (Hp p Hin) as Hl. unfold live_at in Hl. rewrite Hts in Hl. apply negb_false_iff in Hl.
    rewrite (Hk p) by (unfold terminal_at; by rewrite Hts). split; [done|].
    unfold live_at. by rewrite (Hk p), Hts, Hl by (unfold terminal_at; by rewrite Hts). }
  split; [|intros p; rewrite HT; intros Hin; by apply H].
  unfold triggerSatisfied. rewrite HT. f_equal. apply Collect_ext. intros p Hin.
  rewrite (b_out _ _ _ B), (b_out _ _ _ B'). by destruct (H p Hin) as [-> _].
Qed.

Lemma explained_step f rs rs' : (∀ t, IsTerminal (f t) = true) → owner_inv rs →
  worker_step f rs rs' → owner_inv rs' → topo rs' = topo rs → explained f rs → explained f rs'.
Proof.
  intros Hf HI Hs HI' HT Hx t ts Hts Hterm.
  pose proof (step_terminal_kept rs rs') as Hk.
  assert (∀ u, terminal_at rs u = true → tasks rs' !! u = tasks rs !! u) as Hkeep
    by (intros; apply Hk; eauto using worker_owner).
  assert (t ∈ dom (tasks rs)) as Hd.
  { destruct HI as [B _], HI' as [B' _]. rewrite (b_dom _ _ _ B), <- HT, <- (b_dom _ _ _ B').
    apply elem_of_dom. by eexists. }
  destruct (terminal_at rs t) eqn:Ht.
  { rewrite Hkeep in Hts by done. destruct (Hx t ts Hts Hterm) as [Hp He].
    destruct (trigger_kept rs rs' t) as [-> Hp']; done. }
  destruct Hs as [x w at_ le rs Hr|x rs rs' res Hr HA|iter rs rs' out Hk1 HR].
  - exfalso. unfold MarkDispatched in Hts. destruct (tasks rs !! x) as [u|] eqn:E.
    2:{ unfold terminal_at in Ht. rewrite Hts in Ht. congruence. }
    destruct (IsTerminal (Status u)) eqn:El.
    { unfold terminal_at in Ht. rewrite Hts in Ht. congruence. }
    unfold removeReady in Hts. case_bool_decide; simpl in Hts; rewrite lookup_insert in Hts;
      (case_decide; [by simplify_eq|]); unfold terminal_at in Ht; rewrite Hts in Ht; congruence.
  - destruct (completion_of _ _ _ _ _ _ HI (Hf x) HA) as [[Hl _]|[Hl C]].
    { rewrite (running_live _ _ Hr) in Hl. done. }
    destruct C as [_ E _ _ _ Hsk _ _]. pose proof (ef_tasks _ _ _ _ _ E t) as He.
    destruct (decide (t = x)) as [->|Hne].
    + destruct (HI) as [B _]. destruct (b_running _ _ _ B x Hr) as [Hz Hsat].
      destruct (trigger_kept rs rs' x) as [-> Hp']; try done.
      { intros p Hp. by eapply (zero_not_live_pred B). }
      split; [done|]. rewrite Hsat. rewrite Hts in He. destruct (tasks rs !! x); by simplify_eq/=.
    + destruct (decide (t ∈ skipped_ids (cr_Skipped res))) as [Hin|Hn].
      * destruct (Hsk t Hin) as [?|[-> Hp']]; [set_solver|]. split; [done|].
        rewrite Hts in He. destruct (tasks rs !! t); by simplify_eq/=.
      * exfalso. unfold terminal_at in Ht. rewrite <- He, Hts in Ht. congruence.
  - exfalso. destruct (requeueRunning_spec _ _ _ _ HI Hk1 HR) as (_ & _ & _ & _ & Et & _).
    rewrite Et in Hts. case_decide.
    + destruct (tasks rs !! t); by simplify_eq/=.
    + unfold terminal_at in Ht. rewrite Hts in Ht. congruence.
Qed.

Lemma worker_run_explained f t0 rs : topo_wf t0 → (∀ t, IsTerminal (f t) = true) →
  worker_run f t0 rs → owner_inv rs ∧ topo rs = t0 ∧ explained f rs.
Proof.
  intros W Hf (iter1 & iter2 & start & Hk1 & Hk2 & Hs).
  destruct (NewRunState_fresh iter1 iter2 t0 start W Hk1 Hk2) as [HI HT Htk _ HS HC].
  assert (explained f (NewRunState iter1 iter2 t0 start)) as HX.
  { intros t ts Hts Hterm. rewrite Htk in Hts. case_decide; by simplify_eq. }
  assert (seq_dense start (NewRunState iter1 iter2 t0 start)) as HD
    by (unfold seq_dense; rewrite HS, HC; lia).
  clear HS HC Htk. induction Hs as [|rs0 rs1 rs2 H1 H2 IH]; [done|].
  destruct (step_inv rs0 rs1 start HI HD) as (HI1 & HT1 & HD1); [by eapply worker_owner|].
  apply IH; [done|congruence| |done]. by apply (explained_step f rs0 rs1).
Qed.

(** In a finished run the statuses of the predecessors are their outcomes. *)
Lemma explained_equation f rs t : owner_inv rs → explained f rs → IsComplete rs = true →
  t ∈ dom (Order (topo rs)) →
  status_at rs t = Some (if triggerSatisfied t rs then f t else TaskStatusSkipped).
Proof.
  intros HI Hx Hc Ht. destruct HI as [B HP].
  rewrite <- (b_dom _ _ _ B), elem_of_dom in Ht. destruct Ht as [ts Hts].
  pose proof (complete_none_live rs t (conj B HP) Hc) as Hl. unfold live_at in Hl.
  rewrite Hts in Hl. apply negb_false_iff in Hl.
  destruct (Hx t ts Hts Hl) as [_ He]. unfold status_at. rewrite Hts. simpl. by rewrite He.
Qed.

Lemma outcomes_status rs t : owner_inv rs → IsComplete rs = true →
  outcomes rs !! t = status_at rs t.
Proof.
  intros HI Hc. pose proof (complete_none_live rs t HI Hc) as Hl. destruct HI as [B _].
  rewrite (b_out _ _ _ B). unfold status_at, live_at in *.
  destruct (tasks rs !! t) as [ts|]; [|done]. simpl. apply negb_false_iff in Hl. by rewrite Hl.
Qed.

Lemma Collect_omap preds out : CollectPredecessorStatuses preds out = omap (λ p, out !! p) preds.
Proof. induction preds as [|p l IH]; [done|]. simpl. destruct (out !! p); by rewrite IH. Qed.

Lemma list_omap_ext (g h : uuid → option TaskStatus) (l : list uuid) : (∀ p, g p = h p) → omap g l = omap h l.
Proof. intros H. induction l as [|p l IH]; [done|]. simpl. rewrite H. destruct (h p); [f_equal|]; exact IH. Qed.

(** * A concrete job: 1 feeds 2 and 3, both feed 4, which runs when all are done *)

Definition demo_task (id : uuid) (pos : Z) (rule : string) : Task :=
  mkTask id 7 "" pos "task" rule 0 ∅.

Definition demo_db : DB :=
  mkDB [] [demo_task 1 0 ""; demo_task 2 1 ""; demo_task 3 2 TriggerRuleOneSuccess;
        demo_task 4 3 TriggerRuleAllDone]
       [mkTaskEdge 7 1 2; mkTaskEdge 7 1 3; mkTaskEdge 7 2 4; mkTaskEdge 7 3 4]
       [mkJobRun 100 7 None 0 "running" 2 BlobEmpty "" false 0 None] [] [] [] [] [].

Definition demo_topo : RunTopology :=
  match LoadRunTopology demo_db 100 with inr t => t | inl _ => emptyTopology end.

Lemma demo_load : LoadRunTopology demo_db 100 = inr demo_topo.
Proof. vm_compute. reflexivity. Qed.

Lemma demo_wf : topo_wf demo_topo.
Proof. apply (LoadRunTopology_wf demo_db 100), demo_load. Qed.

(** An executable check of acyclicity against a ranking. *)
Definition acyclicb (rank : uuid → nat) (t : RunTopology) : bool :=
  bool_decide (map_Forall (λ s l, Forall (λ p, (rank p < rank s)%nat) l) (Predecessors t)).

Lemma acyclicb_sound rank t : acyclicb rank t = true → acyclic t.
Proof.
  intros H%bool_decide_eq_true. exists rank. intros p s. unfold predecessors_of, map_get.
  destruct (Predecessors t !! s) as [l|] eqn:E; [|set_solver]. simpl.
  specialize (H s l E). simpl in H. rewrite Forall_forall in H. apply H.
Qed.

Lemma demo_acyclic : acyclic demo_topo.
Proof. by apply (acyclicb_sound N.to_nat). Qed.

Definition demo_start : RunState :=
  NewRunState (elements (dom (Order demo_topo))) (elements (dom (Order demo_topo))) demo_topo 0.

Lemma demo_reachable : reachable demo_topo 0 demo_start.
Proof. apply reachable_start. Qed.

Lemma demo_inv : owner_inv demo_start.
Proof. by destruct (reachable_inv _ _ _ demo_wf demo_reachable). Qed.

(** The state after one completion, for instances. *)
Definition after (x : uuid) (s : TaskStatus) (branch : list uuid) (rs : RunState) : RunState :=
  match ApplyCompletion x s branch rs with Some (rs', _) => rs' | None => rs end.

Lemma after_step x s branch rs : IsTerminal s = true → owner_step rs (after x s branch rs).
Proof.
  intros Hs. unfold after. destruct (ApplyCompletion_defined x s branch rs) as [[rs' res] E].
  rewrite E. by eapply os_complete.
Qed.

Lemma after_reachable t0 start x s branch rs : IsTerminal s = true → reachable t0 start rs →
  reachable t0 start (after x s branch rs).
Proof.
  intros Hs (i1 & i2 & H1 & H2 & H3). exists i1, i2. split; [done|]. split; [done|].
  eapply rtc_r; [exact H3|by apply after_step].
Qed.

(** * Theorems *)

(** The topology loaded for a run, from the live catalog or from the replay
    descriptors, always has mutually consistent successor and predecessor maps
    that name only tasks of the run. *)
Lemma loaded_topology_consistent db runID t :
  LoadRunTopology db runID = inr t →
  (∀ p s, occ s (adjacency_of t p) = occ p (predecessors_of t s)) ∧
  (∀ p s, p ∈ predecessors_of t s → p ∈ dom (Order t) ∧ s ∈ dom (Order t)).
Proof. intros H. destruct (LoadRunTopology_wf db runID t H) as [He Hc]. by split. Qed.

Lemma loaded_topology_consistent_witness :
  ∃ t, LoadRunTopology demo_db 100 = inr t ∧ predecessors_of t 4 = [2; 3]%N ∧
  occ 4 (adjacency_of t 2) = occ 2 (predecessors_of t 4).
Proof.
  exists demo_topo. split; [exact demo_load|]. split; [vm_compute; reflexivity|].
  apply (loaded_topology_consistent demo_db 100 demo_topo demo_load).
Defined.

(** C3: in every state a run can reach through dispatches, completions (with or
    without branch skips) and requeues, the owner's invariant holds: counters
    equal the number of unfinished predecessors, the ready queue is duplicate
    free, in dispatch order and holds exactly the pending tasks whose
    predecessors are all finished, each with a satisfied trigger rule, and the
    sequence cursor is the start plus the number of finished tasks. *)
Theorem run_invariant_reachable t0 start rs :
  topo_wf t0 → reachable t0 start rs → owner_inv rs ∧ topo rs = t0 ∧ seq rs = start + terminalCount rs.
Proof. apply reachable_inv. Qed.

Lemma run_invariant_reachable_witness :
  owner_inv demo_start ∧ topo demo_start = demo_topo ∧ seq demo_start = 0 + terminalCount demo_start.
Proof. exact (run_invariant_reachable demo_topo 0 demo_start demo_wf demo_reachable). Defined.

(** As long as a run over an acyclic job is not complete, some task is
    queued for dispatch or running: advancement never strands the DAG. *)
Lemma run_never_deadlocks t0 start rs :
  topo_wf t0 → acyclic t0 → reachable t0 start rs → IsComplete rs = false →
  ∃ t, t ∈ ready rs ∨ has_status rs t TaskStatusRunning.
Proof.
  intros W HA HR Hc. destruct (reachable_inv _ _ _ W HR) as (HI & HT & _).
  destruct (live_exists rs (incomplete_live rs HI Hc)) as [t Ht].
  apply (minimal_live rs t); [done|by rewrite HT|done].
Qed.

Lemma run_never_deadlocks_witness : ∃ t, t ∈ ready demo_start ∨ has_status demo_start t TaskStatusRunning.
Proof.
  apply (run_never_deadlocks demo_topo 0 demo_start demo_wf demo_acyclic demo_reachable).
  reflexivity.
Defined.

(** A task that has reached a terminal status keeps its whole state for the
    rest of the run, whatever the owner does. *)
Lemma finished_task_immutable t0 start rs rs' t ts :
  topo_wf t0 → reachable t0 start rs → rtc owner_step rs rs' →
  tasks rs !! t = Some ts → IsTerminal (Status ts) = true → tasks rs' !! t = Some ts.
Proof.
  intros W HR Hs Ht Hterm. destruct (reachable_inv _ _ _ W HR) as (HI & _ & HD).
  clear HR. induction Hs as [|rs0 rs1 rs2 H1 H2 IH]; [done|].
  destruct (step_inv _ _ _ HI HD H1) as (HI1 & _ & HD1). apply IH; [|done|done].
  rewrite (step_terminal_kept _ _ t HI H1); [done|]. unfold terminal_at. by rewrite Ht.
Qed.

Lemma finished_task_immutable_witness :
  tasks (after 3 TaskStatusSucceeded [] (after 1 TaskStatusFailed [] demo_start)) !! 1%N =
    Some (mkOwnerTaskState TaskStatusFailed 1 "" 0).
Proof.
  apply (finished_task_immutable demo_topo 0 (after 1 TaskStatusFailed [] demo_start)).
  - apply demo_wf.
  - apply after_reachable; [reflexivity|apply demo_reachable].
  - apply rtc_once, after_step. reflexivity.
  - vm_compute. reflexivity.
  - reflexivity.
Defined.

(** Applying a completion always returns: the advancement loop ends for
    every state, even on cyclic or inconsistent topologies. *)
Lemma completion_terminates x s branch rs : is_Some (ApplyCompletion x s branch rs).
Proof. apply ApplyCompletion_defined. Qed.

(** C36: what a completion does to a live task [x]: [x] takes the reported
    status, the reported skips become skipped, every other task keeps its state;
    the stamped sequence numbers are consecutive, starting after the cursor, with
    the completed task first; no task is skipped twice; the reported ready tasks
    are pending tasks that were not queued before, and the new queue is the old
    one without the finished tasks plus these. *)
Theorem completion_effect x s branch rs ts rs' res :
  owner_inv rs → tasks rs !! x = Some ts → IsTerminal (Status ts) = false → IsTerminal s = true →
  ApplyCompletion x s branch rs = Some (rs', res) →
  owner_inv rs' ∧
  (∀ t, tasks rs' !! t =
     if decide (t = x) then Some (settle s ts)
     else if decide (t ∈ skipped_ids (cr_Skipped res))
     then settle TaskStatusSkipped <$> tasks rs !! t else tasks rs !! t) ∧
  cr_TerminalSequence res :: map sk_TerminalSequence (cr_Skipped res) =
    seqZ (seq rs + 1) (1 + Z.of_nat (length (cr_Skipped res))) ∧
  seq rs' = seq rs + 1 + Z.of_nat (length (cr_Skipped res)) ∧
  NoDup (x :: skipped_ids (cr_Skipped res)) ∧
  (∀ t, t ∈ cr_Ready res → has_status rs t TaskStatusPending ∧ t ∉ ready rs) ∧
  (∀ t, t ∈ ready rs' ↔
     t ∈ cr_Ready res ∨ (t ∈ ready rs ∧ t ≠ x ∧ t ∉ skipped_ids (cr_Skipped res))).
Proof.
  intros HI Hx Hl Hs HA. destruct (ApplyCompletion_spec _ _ _ _ _ _ _ HI Hx Hl Hs HA)
    as [HI' E Hr Hrn _ _ Hsq _].
  split; [done|]. split; [|split; [|split; [|split; [|done]]]].
  - intros t. rewrite (ef_tasks _ _ _ _ _ E t). case_decide as Ht; [|done]. subst. by rewrite Hx.
  - rewrite Hsq, (ef_stamps _ _ _ _ _ E), (seqZ_cons (seq rs + 1)) by lia.
    replace (Z.succ (seq rs + 1)) with (seq rs + 2) by lia.
    by replace (Z.pred (1 + Z.of_nat (length (cr_Skipped res))))
      with (Z.of_nat (length (cr_Skipped res))) by lia.
  - apply (ef_seq _ _ _ _ _ E).
  - constructor; [|apply E]. intros Hin. by apply (ef_live _ _ _ _ _ E) in Hin as [_ ?].
Qed.

Lemma completion_effect_witness :
  ∃ rs' res, ApplyCompletion 1 TaskStatusSucceeded [2%N] demo_start = Some (rs', res) ∧
    skipped_ids (cr_Skipped res) = [2%N] ∧ cr_Ready res = [3%N] ∧ owner_inv rs'.
Proof.
  eexists _, _. split; [vm_compute; reflexivity|]. split; [reflexivity|]. split; [reflexivity|].
  eapply (completion_effect 1 TaskStatusSucceeded [2%N] demo_start); [exact demo_inv| | | |];
    vm_compute; reflexivity.
Defined.

(** A completion skips a successor for one of two reasons only: the branch
    decision excluded it, or all of its predecessors have finished and its
    trigger rule is false on their statuses. *)
Lemma skips_are_justified x s branch rs ts rs' res t :
  owner_inv rs → tasks rs !! x = Some ts → IsTerminal (Status ts) = false → IsTerminal s = true →
  ApplyCompletion x s branch rs = Some (rs', res) → t ∈ skipped_ids (cr_Skipped res) →
  t ∈ branch ∨
  ((∀ p, p ∈ predecessors_of (topo rs') t → terminal_at rs' p = true) ∧
   SatisfiesTriggerRule (rule_of (topo rs') t)
     (CollectPredecessorStatuses (predecessors_of (topo rs') t) (outcomes rs')) = false).
Proof.
  intros HI Hx Hl Hs HA Hin. destruct (ApplyCompletion_spec _ _ _ _ _ _ _ HI Hx Hl Hs HA)
    as [[B _] E _ _ _ Hsk _ _].
  destruct (Hsk t Hin) as [?|[Hf Hp]]; [by left|right]. split; [|done].
  intros p Hin'. specialize (Hp p Hin'). destruct (tw_closed _ (b_topo _ _ _ B) p t Hin') as [Hd _].
  rewrite <- (b_dom _ _ _ B), elem_of_dom in Hd. destruct Hd as [u Hu].
  unfold live_at, terminal_at in *. rewrite Hu in *. by apply negb_false_iff.
Qed.

Lemma skips_are_justified_witness :
  ∃ rs' res, ApplyCompletion 1 TaskStatusFailed [] demo_start = Some (rs', res) ∧
    (2%N ∈ [] ∨ ((∀ p, p ∈ predecessors_of (topo rs') 2 → terminal_at rs' p = true) ∧
      SatisfiesTriggerRule (rule_of (topo rs') 2)
        (CollectPredecessorStatuses (predecessors_of (topo rs') 2) (outcomes rs')) = false)).
Proof.
  eexists _, _. split; [vm_compute; reflexivity|].
  eapply (skips_are_justified 1 TaskStatusFailed [] demo_start); [exact demo_inv| | | | |];
    try (vm_compute; reflexivity).
  apply list_elem_of_In. vm_compute. left. reflexivity.
Defined.

(** The equation of a task in a finished run. *)
Lemma finished_equation f t0 rs t :
  topo_wf t0 → (∀ u, IsTerminal (f u) = true) → worker_run f t0 rs → IsComplete rs = true →
  t ∈ dom (Order t0) →
  status_at rs t = Some
    (if SatisfiesTriggerRule (rule_of t0 t) (omap (status_at rs) (predecessors_of t0 t))
     then f t else TaskStatusSkipped).
Proof.
  intros W Hf HR Hc Ht. destruct (worker_run_explained f t0 rs W Hf HR) as (HI & HT & HX).
  rewrite (explained_equation f rs t HI HX Hc) by (by rewrite HT). unfold triggerSatisfied.
  rewrite HT, Collect_omap.
  by rewrite (list_omap_ext _ (status_at rs)) by (intros; by apply outcomes_status).
Qed.

(** C25: the outcome of a finished run, when workers answer by [f] and no branch is
    taken, solves one equation per task: the task has the worker's status if its
    trigger rule holds on the statuses of its predecessors, and is skipped
    otherwise. *)
Theorem run_outcome_equation f t0 rs t :
  topo_wf t0 → (∀ u, IsTerminal (f u) = true) → worker_run f t0 rs → IsComplete rs = true →
  t ∈ dom (Order t0) →
  status_at rs t = Some
    (if SatisfiesTriggerRule (rule_of t0 t) (omap (status_at rs) (predecessors_of t0 t))
     then f t else TaskStatusSkipped).
Proof. apply finished_equation. Qed.

(** * Completion under any schedule *)

(** Serving a run, in any order: a queued task is dispatched, or the worker of a running
    task reports a terminal status, with any branch decision. *)
Inductive serve_step : RunState → RunState → Prop :=
| sv_dispatch x worker attempt lease rs :
    x ∈ ready rs → serve_step rs (MarkDispatched x worker attempt lease rs)
| sv_report x s branch rs rs' res :
    has_status rs x TaskStatusRunning → IsTerminal s = true →
    ApplyCompletion x s branch rs = Some (rs', res) → serve_step rs rs'.

Lemma serve_owner rs rs' : serve_step rs rs' → owner_step rs rs'.
Proof. intros [ |]; [by apply os_dispatch|by eapply os_complete]. Qed.

(** Every schedule is over within [n] steps, and only when the run is complete. *)
Definition completes_within (n : nat) (rs : RunState) : Prop :=
  (∀ k rs', nsteps serve_step k rs rs' → (k ≤ n)%nat) ∧
  (∀ rs', rtc serve_step rs rs' → IsComplete rs' = false → ∃ rs'', serve_step rs' rs'').

(** The number of tasks whose status satisfies a predicate. *)
Definition status_count (P : TaskStatus → Prop) `{!∀ s, Decision (P s)} (rs : RunState) : nat :=
  size (filter (λ kv : uuid * OwnerTaskState, P (Status kv.2)) (tasks rs)).

(** Unfinished tasks count twice while they wait and once while they run. *)
Definition waiting_tasks : RunState → nat := status_count (λ s, s = TaskStatusPending).

Definition work_left (rs : RunState) : nat := live_tasks rs + waiting_tasks rs.

Lemma live_count rs : live_tasks rs = status_count (λ s, IsTerminal s = false) rs.
Proof. reflexivity. Qed.

Section counting.
Context (P : TaskStatus → Prop) `{!∀ s, Decision (P s)} (rs rs' : RunState).
Context (Hk : ∀ t ts, tasks rs' !! t = Some ts → P (Status ts) → ∃ ts0, tasks rs !! t = Some ts0 ∧ P (Status ts0)).

Lemma counted (r : RunState) t : t ∈ dom (filter (λ kv : uuid * OwnerTaskState, P (Status kv.2)) (tasks r)) ↔
  ∃ ts, tasks r !! t = Some ts ∧ P (Status ts).
Proof using. rewrite elem_of_dom. unfold is_Some. by setoid_rewrite map_lookup_filter_Some. Qed.

Lemma counted_kept : dom (filter (λ kv : uuid * OwnerTaskState, P (Status kv.2)) (tasks rs')) ⊆
  dom (filter (λ kv : uuid * OwnerTaskState, P (Status kv.2)) (tasks rs)).
Proof using Hk. intros t (ts & Ht & Hp)%counted. apply counted. by eapply Hk. Qed.

Lemma status_count_le : (status_count P rs' ≤ status_count P rs)%nat.
Proof using Hk. unfold status_count. rewrite <- !size_dom. apply subseteq_size, counted_kept. Qed.

Lemma status_count_lt x ts0 : tasks rs !! x = Some ts0 → P (Status ts0) → (∀ ts, tasks rs' !! x = Some ts → ¬ P (Status ts)) →
  (status_count P rs' < status_count P rs)%nat.
Proof using Hk.
  intros Hx Px Hn. unfold status_count. rewrite <- !size_dom. apply subset_size. split; [apply counted_kept|]. intros Hs.
  assert (x ∈ dom (filter (λ kv : uuid * OwnerTaskState, P (Status kv.2)) (tasks rs))) as Hin by (apply counted; eauto).
  apply Hs, counted in Hin as (ts & Ht & Hp). by apply (Hn ts).
Qed.

Lemma status_count_total (r : RunState) : (status_count P r ≤ size (tasks r))%nat.
Proof using. apply map_subseteq_size, map_filter_subseteq. Qed.
End counting.

Lemma MarkDispatched_running x w at_ le rs : owner_inv rs → x ∈ ready rs →
  has_status (MarkDispatched x w at_ le rs) x TaskStatusRunning ∧
  live_tasks (MarkDispatched x w at_ le rs) = live_tasks rs ∧
  (∀ t, t ≠ x → tasks (MarkDispatched x w at_ le rs) !! t = tasks rs !! t) ∧
  has_status rs x TaskStatusPending.
Proof.
  intros [B _] Hr. destruct (b_ready _ _ _ B x Hr) as ((ts & Hts & Hst) & _).
  assert (IsTerminal (Status ts) = false) as Hl by (by rewrite Hst).
  rewrite (MarkDispatched_eq x w at_ le rs ts) by (done || apply B).
  assert (tasks (removeReady x rs) = tasks rs) as E by (unfold removeReady; by case_bool_decide).
  split; [apply relabel_status; by rewrite decide_True|]. split; [|split; [|by exists ts]].
  - pose proof (live_tasks_insert rs x ts (mkOwnerTaskState TaskStatusRunning at_ w le) Hts) as H.
    rewrite Hl in H. simpl in H. unfold live_tasks in *; simpl in *. rewrite E. lia.
  - intros t Hne. simpl. by rewrite lookup_insert_ne, E.
Qed.

Lemma serve_work rs rs' : owner_inv rs → serve_step rs rs' → (work_left rs' < work_left rs)%nat.
Proof.
  intros HI Hs. unfold work_left. destruct Hs as [x w at_ le rs Hx|x s branch rs rs' res Hx Hs HA].
  - destruct (MarkDispatched_running x w at_ le rs HI Hx) as ((tr & Htr & Hr) & -> & Ho & ts & Hts & Hp).
    apply Nat.add_lt_mono_l. eapply status_count_lt; [|exact Hts|done|].
    2:{ intros ts' Ht'. rewrite Htr in Ht'. simplify_eq. by rewrite Hr. }
    intros t ts' Ht' Hs'. destruct (decide (t = x)) as [->|Hne]; [rewrite Htr in Ht'; simplify_eq; by rewrite Hr in Hs'|]. rewrite Ho in Ht' by done. eauto.
  - destruct (completion_of _ _ _ _ _ _ HI Hs HA) as [[Hl _]|[Hl C]]; [by rewrite (running_live _ _ Hx) in Hl|].
    pose proof (cp_effect _ _ _ _ _ _ C) as E. rewrite (live_count rs'), (live_count rs).
    assert (∀ t ts', tasks rs' !! t = Some ts' → IsTerminal (Status ts') = false → tasks rs !! t = Some ts') as Hk.
    { intros t ts' Ht' Hn. rewrite <- Ht'. symmetry. eapply effect_live; [exact E|done|]. unfold live_at. by rewrite Ht', Hn. }
    destruct (live_has _ _ Hl) as (ts & Hts & Hn). apply Nat.add_lt_le_mono.
    + eapply (status_count_lt (λ s, IsTerminal s = false)); [|exact Hts|done|].
      * intros t ts' Ht' Hn'. exists ts'. split; [by apply Hk|done].
      * intros ts' Ht' Hn'. pose proof (ef_tasks _ _ _ _ _ E x) as He. rewrite decide_True, Ht', Hts in He by done.
        simplify_eq/=. congruence.
    + apply status_count_le. intros t ts' Ht' Hp. exists ts'. split; [|done]. apply Hk; [done|by rewrite Hp].
Qed.

Lemma serve_reachable t0 start rs rs' : reachable t0 start rs → rtc serve_step rs rs' → reachable t0 start rs'.
Proof.
  intros (i1 & i2 & H1 & H2 & H3) Hs. exists i1, i2. split; [done|]. split; [done|]. etransitivity; [exact H3|].
  eapply rtc_subrel; [apply serve_owner|exact Hs].
Qed.

Lemma serve_progress t0 start rs : topo_wf t0 → acyclic t0 → reachable t0 start rs → IsComplete rs = false →
  ∃ rs', serve_step rs rs'.
Proof.
  intros W HA HR Hc. destruct (reachable_inv _ _ _ W HR) as (HI & HT & _).
  destruct (live_exists rs (incomplete_live rs HI Hc)) as [t Ht].
  destruct (minimal_live rs t HI) as (u & [Hu|Hu]); [by rewrite HT|done|eexists; by apply (sv_dispatch u "" 1 0)|].
  destruct (ApplyCompletion_defined u TaskStatusSucceeded [] rs) as [[rs' res] E]. exists rs'. by eapply (sv_report u TaskStatusSucceeded [] rs rs' res).
Qed.

(** From any state a run has reached. *)
Lemma reached_completes t0 start rs : topo_wf t0 → acyclic t0 → reachable t0 start rs →
  completes_within (2 * size (Order t0)) rs.
Proof.
  intros W HA HR. assert (∀ k rs1 rs', reachable t0 start rs1 → nsteps serve_step k rs1 rs' → (k ≤ work_left rs1)%nat) as Hn.
  { intros k rs1 rs' HR1 Hk. induction Hk as [rs1|k rs1 rs2 rs3 H1 Hk IH]; [lia|].
    destruct (reachable_inv _ _ _ W HR1) as (HI & _). pose proof (serve_work _ _ HI H1).
    specialize (IH (serve_reachable _ _ _ _ HR1 (rtc_once _ _ H1))). lia. }
  split; [|intros rs' Hs; apply (serve_progress t0 start); [done..|by eapply serve_reachable]].
  intros k rs' Hk. specialize (Hn k rs rs' HR Hk). destruct (reachable_inv _ _ _ W HR) as ([B _] & HT & _).
  assert (size (tasks rs) = size (Order t0)) as Hsz by (rewrite <- !size_dom, (b_dom _ _ _ B), HT; done).
  unfold work_left in Hn. rewrite live_count in Hn.
  pose proof (status_count_total (λ s, IsTerminal s = false) rs). pose proof (status_count_total (λ s, s = TaskStatusPending) rs).
  unfold waiting_tasks in Hn. lia.
Qed.

Lemma fresh_completes t0 iter1 iter2 start : topo_wf t0 → acyclic t0 → key_order iter1 (Order t0) → key_order iter2 (Order t0) →
  completes_within (2 * size (Order t0)) (NewRunState iter1 iter2 t0 start).
Proof.
  intros W HA H1 H2. apply (reached_completes t0 start); [done..|]. exists iter1, iter2. split; [done|]. split; [done|]. apply rtc_refl.
Qed.

(** A schedule that is followed to its end completes the run. *)
Lemma completes_reaches n rs : completes_within n rs → ∃ rs', rtc serve_step rs rs' ∧ IsComplete rs' = true.
Proof.
  revert rs. induction n as [n IH] using lt_wf_ind. intros rs [Hn Hp].
  destruct (IsComplete rs) eqn:Ec; [by exists rs|]. destruct (Hp rs (rtc_refl _ _) Ec) as [rs1 H1].
  pose proof (Hn 1%nat rs1 (nsteps_once _ _ H1)) as H2. destruct (IH (pred n) ltac:(lia) rs1) as (rs' & Hs & Hc).
  - split; [|intros rs' Hs; apply Hp; by eapply rtc_l]. intros k rs' Hk. pose proof (Hn (S k) rs' (nsteps_l _ _ _ _ _ H1 Hk)). lia.
  - exists rs'. split; [by eapply rtc_l|done].
Qed.

(** C8: a run over an acyclic job ends, under any schedule. From any state the run can
    reach (through dispatches, reports with or without branch decisions and requeues), in
    whatever order queued tasks are dispatched and running tasks report whatever terminal
    status and branch decision, as long as nothing more is requeued: there are at most two
    steps per task, and as long as the run is not complete some queued task can be
    dispatched or some running task can report; so every schedule that is not cut short
    ends with the run complete. *)
Theorem run_completes t0 start rs : topo_wf t0 → acyclic t0 → reachable t0 start rs →
  (∀ n rs', nsteps serve_step n rs rs' → (n ≤ 2 * size (Order t0))%nat) ∧
  (∀ rs', rtc serve_step rs rs' → (∀ rs'', ¬ serve_step rs' rs'') → IsComplete rs' = true).
Proof.
  intros W HA HR. destruct (reached_completes t0 start rs W HA HR) as [H1 H2]. split; [done|]. intros rs' Hs Hn.
  destruct (IsComplete rs') eqn:Ec; [done|]. destruct (H2 rs' Hs Ec) as [rs'' H]. by destruct (Hn rs'').
Qed.

(** C6: the outcome of a run does not depend on the schedule: two finished runs of
    the same acyclic job whose workers answer alike, without branch decisions, give
    every task the same status, whatever the order of dispatches, reports and
    requeues. *)
Theorem run_outcome_unique f t0 rs1 rs2 t :
  topo_wf t0 → acyclic t0 → (∀ u, IsTerminal (f u) = true) →
  worker_run f t0 rs1 → worker_run f t0 rs2 →
  IsComplete rs1 = true → IsComplete rs2 = true → status_at rs1 t = status_at rs2 t.
Proof.
  intros W [rank Hr] Hf R1 R2 C1 C2.
  destruct (worker_run_explained f t0 rs1 W Hf R1) as (I1 & T1 & X1).
  destruct (worker_run_explained f t0 rs2 W Hf R2) as (I2 & T2 & X2).
  remember (rank t) as n eqn:Hn. revert t Hn. induction n as [n IH] using lt_wf_ind. intros t ->.
  destruct (decide (t ∈ dom (Order t0))) as [Ht|Ht].
  - rewrite (explained_equation f rs1 t), (explained_equation f rs2 t) by (done || by rewrite ?T1, ?T2).
    unfold triggerSatisfied. rewrite T1, T2. do 2 f_equal.
    rewrite (Collect_ext _ (outcomes rs1) (outcomes rs2)); [done|]. intros p Hp.
    rewrite !outcomes_status by done. eapply (IH (rank p)); [by apply Hr|done].
  - unfold status_at. destruct I1 as [B1 _], I2 as [B2 _].
    assert (∀ rs, base rs [] [] → topo rs = t0 → tasks rs !! t = None) as Hnone.
    { intros rs B E. apply not_elem_of_dom. by rewrite (b_dom _ _ _ B), E. }
    by rewrite !Hnone.
Qed.

(** The initial state does not depend on the order in which Go iterates over
    the topology maps, when tasks have distinct dispatch positions. *)
Lemma construction_deterministic t0 start iter1 iter2 iter1' iter2' :
  topo_wf t0 → (∀ a b, a ∈ dom (Order t0) → b ∈ dom (Order t0) → order_of t0 a = order_of t0 b → a = b) →
  key_order iter1 (Order t0) → key_order iter2 (Order t0) →
  key_order iter1' (Order t0) → key_order iter2' (Order t0) →
  tasks (NewRunState iter1 iter2 t0 start) = tasks (NewRunState iter1' iter2' t0 start) ∧
  ready (NewRunState iter1 iter2 t0 start) = ready (NewRunState iter1' iter2' t0 start) ∧
  outcomes (NewRunState iter1 iter2 t0 start) = outcomes (NewRunState iter1' iter2' t0 start).
Proof.
  intros W Hinj H1 H2 H1' H2'.
  pose proof (NewRunState_fresh iter1 iter2 t0 start W H1 H2) as [[B HP] HT Htk Hrd _ _].
  pose proof (NewRunState_fresh iter1' iter2' t0 start W H1' H2') as [[B' HP'] HT' Htk' Hrd' _ _].
  assert (tasks (NewRunState iter1 iter2 t0 start) = tasks (NewRunState iter1' iter2' t0 start)) as Et.
  { apply map_eq. intros t. by rewrite Htk, Htk'. }
  split; [done|]. split.
  - apply (sorted_unique (order_less t0)).
    + intros x y Hx Hy H3 H4. apply Hrd in Hx as [Hx _]. apply Hrd in Hy as [Hy _].
      apply Hinj; [done|done|]. unfold order_less in *. bool_prop. lia.
    + rewrite <- HT at 1. apply B.
    + rewrite <- HT' at 1. apply B'.
    + apply NoDup_Permutation; [apply B|apply B'|]. intros t. by rewrite Hrd, Hrd'.
  - apply map_eq. intros t. by rewrite (b_out _ _ _ B), (b_out _ _ _ B'), Et.
Qed.

(** * Instances of the whole-run theorems *)

Definition demo_f (t : uuid) : TaskStatus :=
  if (t =? 2)%N then TaskStatusFailed else TaskStatusSucceeded.

Lemma demo_f_terminal u : IsTerminal (demo_f u) = true.
Proof. unfold demo_f. by destruct (u =? 2)%N. Qed.

Lemma demo_key : key_order (elements (dom (Order demo_topo))) (Order demo_topo).
Proof. apply key_order_elements. Qed.

(** A schedule of the workers, executed: dispatch, report, or requeue what runs. *)
Inductive sched_op : Type := SDispatch (x : uuid) | SReport (x : uuid) | SRequeue.

Definition sched_step (f : uuid → TaskStatus) (op : sched_op) (rs : RunState) : option RunState :=
  match op with
  | SDispatch x => if bool_decide (x ∈ ready rs) then Some (MarkDispatched x "w" (default 1 (Attempt <$> tasks rs !! x)) 0 rs) else None
  | SReport x =>
      match Status <$> tasks rs !! x with
      | Some st => if st =s TaskStatusRunning then fst <$> ApplyCompletion x (f x) [] rs else None
      | None => None
      end
  | SRequeue => Some (requeueRunning (elements (dom (tasks rs))) rs).1
  end.

Fixpoint sched_run (f : uuid → TaskStatus) (ops : list sched_op) (rs : RunState) : option RunState :=
  match ops with
  | [] => Some rs
  | op :: ops => sched_step f op rs ≫= sched_run f ops
  end.

Lemma sched_steps f ops rs rs' : sched_run f ops rs = Some rs' → rtc (worker_step f) rs rs'.
Proof.
  revert rs. induction ops as [|op ops IH]; intros rs E; [injection E as <-; apply rtc_refl|]. cbn [sched_run] in E.
  apply bind_Some in E as (rs1 & E1 & E2). eapply rtc_l; [|by apply IH]. destruct op as [x|x|]; simpl in E1.
  - case_bool_decide; simplify_eq. by apply ws_dispatch.
  - destruct (tasks rs !! x) as [ts|] eqn:Ex; [|done]. simpl in E1. destruct (str_eqb (Status ts) TaskStatusRunning) eqn:Es; [|done].
    apply str_eqb_eq in Es. destruct (ApplyCompletion x (f x) [] rs) as [[rs2 res]|] eqn:EA; simplify_eq/=.
    eapply ws_complete; [by exists ts|exact EA].
  - injection E1 as <-. eapply ws_requeue; [apply key_order_elements|reflexivity].
Qed.

(** Task 2 before task 3, and the other way round after task 2 was lost and requeued. *)
Definition demo_plan : list sched_op :=
  [SDispatch 1; SReport 1; SDispatch 2; SReport 2; SDispatch 3; SReport 3; SDispatch 4; SReport 4]%N.

Definition demo_other_plan : list sched_op :=
  [SDispatch 1; SReport 1; SDispatch 2; SDispatch 3; SRequeue; SDispatch 3; SReport 3; SDispatch 2; SReport 2; SDispatch 4; SReport 4]%N.

Definition plan_state (ops : list sched_op) : RunState := default demo_start (sched_run demo_f ops demo_start).

Lemma planned_run ops : is_Some (sched_run demo_f ops demo_start) → worker_run demo_f demo_topo (plan_state ops).
Proof.
  intros [rs E]. exists (elements (dom (Order demo_topo))), (elements (dom (Order demo_topo))), 0.
  split; [apply demo_key|]. split; [apply demo_key|]. fold demo_start. unfold plan_state. rewrite E. by apply sched_steps in E.
Qed.

Lemma demo_finished : worker_run demo_f demo_topo (plan_state demo_plan) ∧ IsComplete (plan_state demo_plan) = true.
Proof. split; [apply planned_run; vm_compute; by eexists|vm_compute; reflexivity]. Qed.

Lemma demo_finished_otherwise :
  worker_run demo_f demo_topo (plan_state demo_other_plan) ∧ IsComplete (plan_state demo_other_plan) = true.
Proof. split; [apply planned_run; vm_compute; by eexists|vm_compute; reflexivity]. Qed.

Lemma run_outcome_equation_witness :
  ∃ rs, worker_run demo_f demo_topo rs ∧ status_at rs 4 = Some
    (if SatisfiesTriggerRule (rule_of demo_topo 4) (omap (status_at rs) (predecessors_of demo_topo 4))
     then demo_f 4 else TaskStatusSkipped).
Proof.
  destruct demo_finished as [H1 H2]. exists (plan_state demo_plan). split; [exact H1|].
  apply (run_outcome_equation demo_f demo_topo (plan_state demo_plan) 4 demo_wf demo_f_terminal H1 H2).
  apply elem_of_dom. vm_compute. eexists. reflexivity.
Defined.

Lemma run_completes_witness :
  (∀ n rs', nsteps serve_step n demo_start rs' → (n ≤ 2 * size (Order demo_topo))%nat) ∧
  (∀ rs', rtc serve_step demo_start rs' → (∀ rs'', ¬ serve_step rs' rs'') → IsComplete rs' = true).
Proof. exact (run_completes demo_topo 0 demo_start demo_wf demo_acyclic demo_reachable). Defined.

(** Two schedules whose final states differ (the attempts of tasks 2 and 3 are counted up
    in the second), with the same outcome. *)
Lemma run_outcome_unique_witness :
  tasks (plan_state demo_plan) !! 2%N ≠ tasks (plan_state demo_other_plan) !! 2%N ∧
  status_at (plan_state demo_plan) 4 = status_at (plan_state demo_other_plan) 4.
Proof.
  split; [vm_compute; discriminate|]. destruct demo_finished as [H1 H2], demo_finished_otherwise as [H3 H4].
  exact (run_outcome_unique demo_f demo_topo (plan_state demo_plan) (plan_state demo_other_plan) 4
    demo_wf demo_acyclic demo_f_terminal H1 H3 H2 H4).
Defined.

Lemma demo_key_rev : key_order (reverse (elements (dom (Order demo_topo)))) (Order demo_topo).
Proof.
  destruct demo_key as [H1 H2]. split; [by rewrite reverse_Permutation|].
  intros t. by rewrite reverse_Permutation.
Qed.

Lemma construction_deterministic_witness :
  ready demo_start =
  ready (NewRunState (reverse (elements (dom (Order demo_topo))))
                     (reverse (elements (dom (Order demo_topo)))) demo_topo 0).
Proof.
  apply (construction_deterministic demo_topo 0 _ _ _ _ demo_wf); try apply demo_key; try apply demo_key_rev.
  assert (map_Forall (λ a i, map_Forall (λ b j, i = j → a = b) (Order demo_topo)) (Order demo_topo)) as H
    by (apply (bool_decide_unpack _); vm_compute; exact I).
  intros a b [i Ha]%elem_of_dom [j Hb]%elem_of_dom. unfold order_of, map_get. rewrite Ha, Hb. simpl.
  apply (H a i Ha b j Hb).
Defined.
