(* ===== verification/Recovery.v ===== *)
(** Checkpointing and recovery: the snapshot document and its restoration
    (owner_state.go), the replay of terminal rows and [RecoverRunState]
    (recovery.go). JSON documents are modelled as values; the rendering of a
    UUID as text (google/uuid) is a parameter with the law that parsing inverts
    it. *)

From S2P Require Import Prelude TriggerRule Tables RunState RunStateInv Advance OwnerSteps.

(** * Fields of the two structs *)

Definition encodeTaskState (ts : OwnerTaskState) : json :=
  JObj ([("status", JStr (Status ts)); ("attempt", JNum (Attempt ts))]
        ++ (if ClaimedBy ts =s "" then [] else [("claimed_by", JStr (ClaimedBy ts))])
        ++ (if LeaseExpiresAtMs ts =? 0 then []
            else [("lease_expires_at_ms", JNum (LeaseExpiresAtMs ts))])).

Definition decodeTaskState (j : json) : option OwnerTaskState :=
  match j with
  | JObj l =>
      st ← decodeStr (field "status" l);
      at_ ← decodeZ (field "attempt" l);
      cb ← decodeStr (field "claimed_by" l);
      le ← decodeZ (field "lease_expires_at_ms" l);
      Some (mkOwnerTaskState st at_ cb le)
  | _ => None
  end.

(** [runStateSnapshot] *)
Record runStateSnapshot := mkSnapshot {
  sn_Tasks : gmap uuid OwnerTaskState;
  sn_Indegree : gmap uuid Z;
  sn_Outcomes : gmap uuid TaskStatus;
  sn_Ready : list uuid;
  sn_Sequence : Z;
  sn_TerminalCount : Z;
  sn_Total : Z;
}.

Section codec.
Context (uuid_String : uuid → string) (uuid_Parse : string → option uuid).

Definition encodeMap {V} (enc : V → json) (m : gmap uuid V) : json :=
  JObj (map (λ kv, (uuid_String kv.1, enc kv.2)) (map_to_list m)).

Fixpoint decodeEntries {V} (dec : json → option V) (l : list (string * json))
    : option (gmap uuid V) :=
  match l with
  | [] => Some ∅
  | (k, j) :: l' =>
      id ← uuid_Parse k;
      v ← dec j;
      m ← decodeEntries dec l';
      Some (<[id := v]> m)
  end.

Definition decodeMap {V} (dec : json → option V) (j : json) : option (gmap uuid V) :=
  match j with JObj l => decodeEntries dec l | JNull => Some ∅ | _ => None end.

Definition decodeID (j : json) : option uuid :=
  match j with JStr s => uuid_Parse s | JNull => Some uuid_Nil | _ => None end.

Definition decodeIDs (j : json) : option (list uuid) :=
  match j with JArr l => mapM decodeID l | JNull => Some [] | _ => None end.

(** [json.Marshal(snap)]; object keys are in field order. *)
Definition marshalSnapshot (s : runStateSnapshot) : json :=
  JObj [("tasks", encodeMap encodeTaskState (sn_Tasks s));
        ("indegree", encodeMap JNum (sn_Indegree s));
        ("outcomes", encodeMap JStr (sn_Outcomes s));
        ("ready", JArr (map (λ u, JStr (uuid_String u)) (sn_Ready s)));
        ("sequence", JNum (sn_Sequence s));
        ("terminal_count", JNum (sn_TerminalCount s));
        ("total", JNum (sn_Total s))].

(** [json.Unmarshal(blob, &snap)]; empty input is an error. *)
Definition unmarshalSnapshot (b : blob) : option runStateSnapshot :=
  match b with
  | BlobJson (JObj l) =>
      t ← decodeMap decodeTaskState (field "tasks" l);
      d ← decodeMap decodeZ (field "indegree" l);
      o ← decodeMap decodeStr (field "outcomes" l);
      r ← decodeIDs (field "ready" l);
      sq ← decodeZ (field "sequence" l);
      c ← decodeZ (field "terminal_count" l);
      n ← decodeZ (field "total" l);
      Some (mkSnapshot t d o r sq c n)
  | BlobJson JNull => Some (mkSnapshot ∅ ∅ ∅ [] 0 0 0)
  | _ => None
  end.

(** [RunState.Snapshot] *)
Definition Snapshot (rs : RunState) : blob :=
  BlobJson (marshalSnapshot
    (mkSnapshot (tasks rs) (indegree rs) (outcomes rs) (ready rs) (seq rs)
       (terminalCount rs) (total rs))).

(** [Restore]; [None] is the unmarshal error. *)
Definition Restore (t : RunTopology) (b : blob) : option RunState :=
  match unmarshalSnapshot b with
  | None => None
  | Some s =>
      Some (mkRunState t (sn_Tasks s) (sn_Indegree s) (sn_Outcomes s) (sn_Ready s)
              (list_to_set (sn_Ready s)) (sn_Sequence s) (sn_TerminalCount s) (sn_Total s))
  end.

(** * [RecoverRunState] *)

Record RecoveryResult := mkRecoveryResult {
  rr_Ready : list uuid;
  rr_ReDispatch : list uuid;
  rr_MaxSequence : Z;
  rr_SequenceGaps : list Z;
  rr_Complete : bool;
}.

(** The replay loop over the terminal rows: state, gaps, next expected number.
    [for expected < row.TerminalSequence] collects the missing numbers. *)
Definition replayRow (acc : RunState * list Z * Z) (row : TaskRun) : RunState * list Z * Z :=
  let '(rs, gaps, expected) := acc in
  let rs := (ApplyTerminalRow (tr_TaskID row) (tr_Status row) (tr_TerminalSequence row) rs).1 in
  let gaps := gaps ++ seqZ expected (tr_TerminalSequence row - expected) in
  let expected := Z.max expected (tr_TerminalSequence row) in
  (rs, gaps, if expected <=? tr_TerminalSequence row
             then tr_TerminalSequence row + 1 else expected).

(** The state replay starts from: a fresh one without a usable checkpoint. *)
Definition recoveryStart (iter1 iter2 : list uuid) (t : RunTopology)
    (checkpoint : option RunCheckpoint) : RunState * Z :=
  match checkpoint with
  | None => (NewRunState iter1 iter2 t 0, 0)
  | Some cp =>
      match Restore t (cp_StateBlob cp) with
      | Some rs => (rs, cp_SequenceHigh cp)
      | None => (NewRunState iter1 iter2 t 0, 0)
      end
  end.

(** [iter1], [iter2], [iter3]: map iteration orders of construction and of
    [RunningTasks]. *)
Definition RecoverRunState (iter1 iter2 : list uuid) (iter3 : RunState → list uuid)
    (t : RunTopology) (checkpoint : option RunCheckpoint) (terminalRows : list TaskRun)
    : RunState * RecoveryResult :=
  let '(rs, start) := recoveryStart iter1 iter2 t checkpoint in
  let '(rs, gaps, _) := fold_left replayRow terminalRows (rs, [], start + 1) in
  let maxSeq := Sequence rs in
  let '(rs, redispatch) := requeueRunning (iter3 rs) rs in
  (rs, mkRecoveryResult (ReadyTasks rs) redispatch maxSeq gaps (IsComplete rs)).

(** * Round trip of the snapshot *)

#[local] Arguments decodeMap : simpl never.
#[local] Arguments decodeIDs : simpl never.

Context (uuid_Parse_String : ∀ u, uuid_Parse (uuid_String u) = Some u).

Lemma decodeEntries_encode {V} (enc : V → json) dec (l : list (uuid * V)) :
  (∀ v, dec (enc v) = Some v) →
  decodeEntries dec (map (λ kv, (uuid_String kv.1, enc kv.2)) l) = Some (list_to_map l).
Proof using uuid_Parse_String.
  intros Hd. induction l as [|[k v] l IH]; [done|]. simpl.
  rewrite uuid_Parse_String. simpl. rewrite Hd. simpl. rewrite IH. done.
Qed.

Lemma decodeMap_encode {V} (enc : V → json) dec (m : gmap uuid V) :
  (∀ v, dec (enc v) = Some v) → decodeMap dec (encodeMap enc m) = Some m.
Proof using uuid_Parse_String.
  intros Hd. unfold encodeMap, decodeMap. rewrite decodeEntries_encode by done.
  by rewrite list_to_map_to_list.
Qed.

Lemma decodeTaskState_encode ts : decodeTaskState (encodeTaskState ts) = Some ts.
Proof.
  destruct ts as [st at_ cb le]. unfold encodeTaskState; simpl.
  destruct (cb =s "") eqn:E1, (Z.eqb_spec le 0) as [->|E2]; bool_prop; subst; reflexivity.
Qed.

Lemma decodeIDs_encode l : decodeIDs (JArr (map (λ u, JStr (uuid_String u)) l)) = Some l.
Proof using uuid_Parse_String.
  unfold decodeIDs. apply mapM_Some. induction l as [|u l IH]; [constructor|]. simpl.
  constructor; [apply uuid_Parse_String|done].
Qed.

Lemma unmarshal_fields a b c d e f g :
  unmarshalSnapshot (BlobJson (JObj [("tasks", a); ("indegree", b); ("outcomes", c); ("ready", d);
    ("sequence", e); ("terminal_count", f); ("total", g)])) =
  (t ← decodeMap decodeTaskState a; i ← decodeMap decodeZ b; o ← decodeMap decodeStr c;
   r ← decodeIDs d; sq ← decodeZ e; n ← decodeZ f; m ← decodeZ g; Some (mkSnapshot t i o r sq n m)).
Proof. reflexivity. Qed.

Lemma Restore_Snapshot rs : (∀ t, t ∈ inReady rs ↔ t ∈ ready rs) →
  Restore (topo rs) (Snapshot rs) = Some rs.
Proof using uuid_Parse_String.
  intros Hin. unfold Restore, Snapshot, marshalSnapshot. rewrite unmarshal_fields. simpl.
  rewrite (decodeMap_encode encodeTaskState) by apply decodeTaskState_encode. simpl.
  rewrite (decodeMap_encode JNum) by done. simpl.
  rewrite (decodeMap_encode JStr) by done. simpl.
  rewrite decodeIDs_encode. simpl.
  replace (list_to_set (ready rs)) with (inReady rs); [by destruct rs|].
  apply set_eq. intros t. rewrite elem_of_list_to_set. apply Hin.
Qed.
End codec.
