(* ===== verification/Replay.v ===== *)
(** Replaying terminal rows: the invariant that holds during recovery and the
    theorem that the recovered state is the crashed owner's state with the
    in-flight tasks requeued. *)

From S2P Require Import Prelude TriggerRule Tables RunState RunStateInv Advance OwnerSteps Topology OwnerRun.
From S2P Require Import OwnerTheorems Recovery.

(** * Visiting successors during replay *)

Lemma replay_dead rs rdy succ : live_at rs succ = false → replaySuccessor (rs, rdy) succ = (rs, rdy).
Proof.
  unfold replaySuccessor, live_at. destruct (tasks rs !! succ) as [st|]; [|done].
  rewrite negb_false_iff. by intros ->.
Qed.

Lemma replay_live rs rdy succ : live_at rs succ = true →
  replaySuccessor (rs, rdy) succ =
    (let rs := decIndegree succ rs in
     if negb (indegree_of rs succ =? 0) then (rs, rdy)
     else if triggerSatisfied succ rs then (pushReady succ rs, rdy ++ [succ]) else (rs, rdy)).
Proof. intros (ts & Hts & Hl)%live_has. unfold replaySuccessor. by rewrite Hts, Hl. Qed.

(** What a replayed row leaves unchanged. *)
Definition same_tasks (rs rs' : RunState) : Prop :=
  tasks rs' = tasks rs ∧ outcomes rs' = outcomes rs ∧ topo rs' = topo rs ∧ seq rs' = seq rs ∧
  total rs' = total rs ∧ terminalCount rs' = terminalCount rs.

Lemma same_tasks_refl rs : same_tasks rs rs.
Proof. done. Qed.

Lemma same_tasks_trans rs1 rs2 rs3 : same_tasks rs1 rs2 → same_tasks rs2 rs3 → same_tasks rs1 rs3.
Proof. unfold same_tasks. intuition congruence. Qed.

Lemma replaySuccessor_spec rs rdy succ rem rs' rdy' : base rs [] (succ :: rem) → progress_sat rs →
  replaySuccessor (rs, rdy) succ = (rs', rdy') →
  base rs' [] rem ∧ progress_sat rs' ∧ same_tasks rs rs'.
Proof.
  intros B HP HE. destruct (live_at rs succ) eqn:Hl.
  2:{ rewrite replay_dead in HE by done. simplify_eq. split; [by eapply skip_base|]. by split. }
  rewrite replay_live in HE by done. cbn zeta in HE.
  pose proof (dec_base _ _ _ _ B Hl) as B1. pose proof (decIndegree_live _ _ _ _ B Hl) as Ed.
  assert (same_tasks rs (decIndegree succ rs)) as Hs by (rewrite Ed; done).
  assert (has_status (decIndegree succ rs) succ TaskStatusPending) as Hp.
  { rewrite Ed. apply (live_pending B succ Hl (rem_positive _ _ _ _ B Hl)). }
  assert (∀ t, t ≠ succ → has_status (decIndegree succ rs) t TaskStatusPending →
    indegree_of (decIndegree succ rs) t = 0 → triggerSatisfied t (decIndegree succ rs) = true →
    t ∈ ready (decIndegree succ rs)) as HP1.
  { rewrite Ed. intros t Hne Hpt. rewrite indegree_set_other by done. by apply HP. }
  destruct (Z.eqb_spec (indegree_of (decIndegree succ rs) succ) 0) as [Hz|Hnz]; simpl in HE;
    [|simplify_eq; split; [done|]; split; [|done]; intros t ???; apply HP1; try done; by intros ->].
  destruct (triggerSatisfied succ (decIndegree succ rs)) eqn:Hsat; simplify_eq.
  - split; [by apply pushReady_base|]. split.
    + intros t. rewrite pushReady_status, pushReady_indegree, pushReady_elem by (done || apply B1).
      intros H1 H2 H3. destruct (decide (t = succ)); [by left|right]. apply HP1; try done.
      unfold triggerSatisfied in *. by destruct (pushReady_same succ (decIndegree succ rs)) as (_ & _ & <- & <- & _).
    + eapply same_tasks_trans; [exact Hs|]. unfold same_tasks, pushReady. by repeat case_match.
  - split; [done|]. split; [|done]. intros t H1 H2 H3. apply HP1; try done. intros ->. congruence.
Qed.

Lemma replaySuccessors_spec l rs rdy rs' rdy' : base rs [] l → progress_sat rs →
  fold_left replaySuccessor l (rs, rdy) = (rs', rdy') →
  base rs' [] [] ∧ progress_sat rs' ∧ same_tasks rs rs'.
Proof.
  revert rs rdy. induction l as [|x l IH]; intros rs rdy B HP.
  { simpl. intros ?. simplify_eq. by split. }
  cbn [fold_left]. destruct (replaySuccessor (rs, rdy) x) as [rs1 rdy1] eqn:E. intros HE.
  destruct (replaySuccessor_spec _ _ _ _ _ _ B HP E) as (B1 & HP1 & S1).
  destruct (IH rs1 rdy1 B1 HP1 HE) as (B2 & HP2 & S2). split; [done|]. split; [done|].
  by eapply same_tasks_trans.
Qed.

Lemma settle_progress_sat x s ts rs q rem : base rs q rem → live_at rs x = true → IsTerminal s = true →
  progress_sat rs → progress_sat (settleTask x s ts rs).
Proof.
  intros B Hx Hs HP t. rewrite settleTask_eq by apply B. rewrite settled_status by done.
  intros [Hne Hp] Hz Hsat. simpl. rewrite remove_first_elem by apply B. split; [|done].
  apply HP; [done|done|]. rewrite <- Hsat. symmetry.
  eapply settled_trigger; [exact B|done|by apply pending_live|done].
Qed.

(** One row of a live task. *)
Lemma ApplyTerminalRow_live x s sq rs ts rs' rdy : base rs [] [] → progress_sat rs →
  tasks rs !! x = Some ts → IsTerminal (Status ts) = false → IsTerminal s = true →
  ApplyTerminalRow x s sq rs = (rs', rdy) →
  base rs' [] [] ∧ progress_sat rs' ∧ tasks rs' = <[x := settle s ts]> (tasks rs) ∧
  seq rs' = Z.max (seq rs) sq ∧ topo rs' = topo rs ∧ total rs' = total rs ∧
  terminalCount rs' = terminalCount rs + 1.
Proof.
  intros B HP Hx Hl Hs HE. unfold ApplyTerminalRow in HE.
  set (rs0 := if seq rs <? sq then set_seq sq rs else rs) in HE.
  assert (rs0 = set_seq (Z.max (seq rs) sq) rs) as E0.
  { unfold rs0. destruct (Z.ltb_spec (seq rs) sq).
    - by rewrite Z.max_r by lia.
    - rewrite Z.max_l by lia. by destruct rs. }
  assert (base rs0 [] []) as B0 by (rewrite E0; by apply base_set_seq).
  assert (progress_sat rs0) as HP0 by (rewrite E0; exact HP).
  assert (tasks rs0 !! x = Some ts) as Hx0 by (by rewrite E0).
  rewrite Hx0, Hl in HE. cbn zeta in HE.
  change (fold_left replaySuccessor (adjacency_of (topo (settleTask x s ts rs0)) x)
            (settleTask x s ts rs0, []) = (rs', rdy)) in HE.
  pose proof (settle_base x s ts rs0 [] [] B0 Hx0 Hl Hs) as B1.
  assert (progress_sat (settleTask x s ts rs0)) as HP1.
  { eapply settle_progress_sat; [exact B0| |done|done]. unfold live_at. by rewrite Hx0, Hl. }
  destruct (replaySuccessors_spec _ _ _ _ _ (pop_base _ _ _ B1) HP1 HE)
    as (B2 & HP2 & E1 & E2 & E3 & E4 & E5 & E6).
  destruct (settleTask_same x s ts rs0) as (_ & _ & F1 & F2 & F3).
  split; [done|]. split; [done|]. rewrite E1, E3, E4, E5, E6, settleTask_tasks, F1, F2, F3.
  split; [by rewrite E0|]. split; [by rewrite E0|]. split; [by rewrite E0|]. split; [by rewrite E0|].
  unfold settleTask, removeReady. case_bool_decide; simpl; by rewrite E0.
Qed.

(** * Replaying a tail of rows *)

Definition row_ids (rows : list TaskRun) : list uuid := map tr_TaskID rows.

Definition replayState (rs : RunState) (rows : list TaskRun) : RunState :=
  fold_left (λ rs row, (ApplyTerminalRow (tr_TaskID row) (tr_Status row) (tr_TerminalSequence row) rs).1)
    rows rs.

Lemma replayRows_state rows rs gaps n :
  (fold_left replayRow rows (rs, gaps, n)).1.1 = replayState rs rows.
Proof.
  revert rs gaps n. induction rows as [|r rows IH]; intros rs gaps n; [done|].
  unfold replayState. cbn [fold_left replayRow]. apply IH.
Qed.

(** The rows to replay concern distinct live tasks and carry terminal statuses. *)
Record replayable (rs : RunState) (rows : list TaskRun) : Prop := {
  rp_nodup : NoDup (row_ids rows);
  rp_live : ∀ r, r ∈ rows → live_at rs (tr_TaskID r) = true;
  rp_terminal : ∀ r, r ∈ rows → IsTerminal (tr_Status r) = true;
}.

Lemma replayState_spec rows rs : base rs [] [] → progress_sat rs → replayable rs rows →
  let rs' := replayState rs rows in
  base rs' [] [] ∧ progress_sat rs' ∧ topo rs' = topo rs ∧ total rs' = total rs ∧
  terminalCount rs' = terminalCount rs + Z.of_nat (length rows) ∧
  (∀ r, r ∈ rows → tasks rs' !! tr_TaskID r = settle (tr_Status r) <$> tasks rs !! tr_TaskID r) ∧
  (∀ t, t ∉ row_ids rows → tasks rs' !! t = tasks rs !! t) ∧
  seq rs' = fold_left (λ m r, Z.max m (tr_TerminalSequence r)) rows (seq rs).
Proof.
  revert rs. induction rows as [|r rows IH]; intros rs B HP RP.
  { simpl. split; [done|]. split; [done|]. split; [done|]. split; [done|]. split; [lia|].
    split; [set_solver|done]. }
  destruct RP as [Hnd Hlv Htm]. unfold row_ids in Hnd. simpl in Hnd. apply NoDup_cons in Hnd as [Hr Hnd].
  assert (live_at rs (tr_TaskID r) = true) as Hl by (apply Hlv; set_solver).
  destruct (live_has _ _ Hl) as (ts & Hts & Hlt).
  unfold replayState. cbn [fold_left].
  destruct (ApplyTerminalRow (tr_TaskID r) (tr_Status r) (tr_TerminalSequence r) rs) as [rs1 rdy] eqn:E.
  destruct (ApplyTerminalRow_live _ _ _ _ _ _ _ B HP Hts Hlt (Htm r ltac:(set_solver)) E)
    as (B1 & HP1 & Et & Es & Eto & Etot & Ec).
  assert (∀ r', r' ∈ rows → tr_TaskID r' ≠ tr_TaskID r) as Hdiff.
  { intros r' Hin Heq. apply Hr. rewrite <- Heq. by apply list_elem_of_In, in_map, list_elem_of_In. }
  destruct (IH rs1 B1 HP1) as (B2 & HP2 & F1 & F2 & F3 & F4 & F5 & F6).
  { constructor; [done| |].
    - intros r' Hin. unfold live_at. rewrite Et, lookup_insert_ne by (symmetry; by apply Hdiff).
      apply Hlv. set_solver.
    - intros r' Hin. apply Htm. set_solver. }
  unfold replayState in *. simpl. split; [done|]. split; [done|]. split; [congruence|].
  split; [congruence|]. split; [lia|]. split; [|split; [|by rewrite F6, Es]].
  - intros r'. rewrite elem_of_cons. intros [->|Hin].
    + rewrite F5 by done. by rewrite Et, lookup_insert_eq, Hts.
    + rewrite F4 by done. rewrite Et, lookup_insert_ne by (symmetry; by apply Hdiff). done.
  - intros t Ht. unfold row_ids in Ht. simpl in Ht. rewrite F5 by (unfold row_ids; set_solver).
    rewrite Et, lookup_insert_ne; [done|]. set_solver.
Qed.

(** * The rows a crashed owner leaves behind *)

(** [rows] are the terminal rows written between the checkpointed state [rs0] and
    the owner's last state [rs]: one per task that finished in between, with its
    status, the largest number being the cursor. *)
Record tail_of (rs0 rs : RunState) (rows : list TaskRun) : Prop := {
  to_nodup : NoDup (row_ids rows);
  to_sound : ∀ r, r ∈ rows → live_at rs0 (tr_TaskID r) = true ∧
    terminal_at rs (tr_TaskID r) = true ∧ status_at rs (tr_TaskID r) = Some (tr_Status r);
  to_complete : ∀ t, live_at rs0 t = true → terminal_at rs t = true → t ∈ row_ids rows;
  to_seq : fold_left (λ m r, Z.max m (tr_TerminalSequence r)) rows (seq rs0) = seq rs;
}.

Section recovered.
Context {rs0 rs R : RunState} {rows : list TaskRun}.
Context (I0 : owner_inv rs0) (I : owner_inv rs) (HT : topo rs = topo rs0) (T : tail_of rs0 rs rows).
Context (Hkeep : ∀ t, terminal_at rs0 t = true → tasks rs !! t = tasks rs0 !! t).
Context (HR : R = replayState rs0 rows).

Lemma tail_replayable : replayable rs0 rows.
Proof using T.
  constructor; [apply T| |]; intros r Hr; destruct (to_sound _ _ _ T r Hr) as (H1 & H2 & H3); [done|].
  unfold terminal_at, status_at in *. destruct (tasks rs !! tr_TaskID r); [|done]. simplify_eq/=. congruence.
Qed.

Lemma owner_progress_sat : progress_sat rs0.
Proof using I0. intros t H1 H2 _. by apply I0. Qed.

(** Task by task, the replayed state has the statuses of the crashed one. *)
Lemma replayed_tasks t :
  if terminal_at rs t then status_at R t = status_at rs t ∧ terminal_at R t = true
  else tasks R !! t = tasks rs0 !! t.
Proof using I0 I T Hkeep HR HT.
  destruct (replayState_spec rows rs0 (proj1 I0) owner_progress_sat tail_replayable)
    as (_ & _ & _ & _ & _ & H4 & H5 & _). rewrite <- HR in *.
  destruct (terminal_at rs t) eqn:Ht.
  - destruct (live_at rs0 t) eqn:Hl.
    + pose proof (to_complete _ _ _ T t Hl Ht) as Hin. apply list_elem_of_In, in_map_iff in Hin.
      destruct Hin as (r & <- & Hr). apply list_elem_of_In in Hr.
      destruct (to_sound _ _ _ T r Hr) as (_ & H2 & H3). destruct (live_has _ _ Hl) as (ts & Hts & _).
      assert (status_at R (tr_TaskID r) = Some (tr_Status r)) as Hst.
      { unfold status_at. by rewrite (H4 r Hr), Hts. }
      split; [congruence|]. unfold terminal_at, status_at in *. rewrite (H4 r Hr), Hts. simpl.
      destruct (tasks rs !! tr_TaskID r); [|done]. simplify_eq/=. congruence.
    + assert (t ∉ row_ids rows) as Hn.
      { intros Hin. apply list_elem_of_In, in_map_iff in Hin as (r & <- & Hr).
        apply list_elem_of_In in Hr. destruct (to_sound _ _ _ T r Hr). congruence. }
      assert (terminal_at rs0 t = true) as Ht0.
      { unfold live_at, terminal_at in *. destruct (tasks rs0 !! t) as [u|] eqn:E; [by apply negb_false_iff|].
        destruct I0 as [B0 _], I as [B _]. apply not_elem_of_dom in E.
        rewrite (b_dom _ _ _ B0), <- HT, <- (b_dom _ _ _ B), not_elem_of_dom in E. by rewrite E in Ht. }
      pose proof (Hkeep t Ht0) as Hk. pose proof (H5 t Hn) as Hk2. unfold status_at, terminal_at in *.
      rewrite Hk2, Hk. by rewrite Hk in Ht.
  - apply H5. intros Hin. apply list_elem_of_In, in_map_iff in Hin as (r & <- & Hr).
    apply list_elem_of_In in Hr. destruct (to_sound _ _ _ T r Hr) as (_ & ? & _). congruence.
Qed.
End recovered.

Lemma live_tasks_ext rs rs' : (∀ t, live_at rs t = live_at rs' t) → live_tasks rs = live_tasks rs'.
Proof.
  intros H. unfold live_tasks. rewrite <- !size_dom. f_equal. apply set_eq. intros t.
  assert (∀ r, t ∈ dom (filter (λ kv : uuid * OwnerTaskState, IsTerminal (Status kv.2) = false) (tasks r))
               ↔ live_at r t = true) as Hd.
  { intros r. rewrite elem_of_dom. unfold is_Some. setoid_rewrite map_lookup_filter_Some. unfold live_at.
    destruct (tasks r !! t) as [ts|]; [|naive_solver]. rewrite negb_true_iff. naive_solver. }
  by rewrite !Hd, H.
Qed.

(** Queued or running: exactly the live tasks with no predecessor to wait for. *)
Lemma dispatchable_iff rs t : owner_inv rs →
  (t ∈ ready rs ∨ has_status rs t TaskStatusRunning) ↔ live_at rs t = true ∧ indegree_of rs t = 0.
Proof.
  intros [B HP]. split.
  - intros [H|H].
    + destruct (b_ready _ _ _ B t H) as (H1 & H2 & _). split; [by apply pending_live|done].
    + split; [by apply running_live|by apply (b_running _ _ _ B t H)].
  - intros [Hl Hz]. destruct (live_has _ _ Hl) as (ts & Hts & Hnt).
    destruct (b_status _ _ _ B t ts Hts) as [?|[E|E]]; [congruence| |right; by exists ts].
    left. apply HP; [by exists ts|done].
Qed.

Lemma trigger_of_outcomes rs R t : topo R = topo rs → outcomes R = outcomes rs →
  triggerSatisfied t R = triggerSatisfied t rs.
Proof. unfold triggerSatisfied. by intros -> ->. Qed.

Section recovered_state.
Context {rs0 rs R : RunState} {rows : list TaskRun}.
Context (I0 : owner_inv rs0) (I : owner_inv rs) (HT : topo rs = topo rs0) (T : tail_of rs0 rs rows).
Context (Hkeep : ∀ t, terminal_at rs0 t = true → tasks rs !! t = tasks rs0 !! t).
Context (HR : R = replayState rs0 rows).

Lemma replayed_base : base R [] [] ∧ progress_sat R ∧ topo R = topo rs ∧ total R = total rs0 ∧
  seq R = seq rs.
Proof using I0 T HR HT.
  destruct (replayState_spec rows rs0 (proj1 I0) (owner_progress_sat I0) (tail_replayable T))
    as (H1 & H2 & H3 & H4 & _ & _ & _ & H8). rewrite <- HR in *.
  split; [done|]. split; [done|]. split; [congruence|]. split; [done|]. rewrite H8. apply T.
Qed.

Lemma replayed_live t : live_at R t = live_at rs t.
Proof using I0 I T Hkeep HR HT.
  pose proof (replayed_tasks I0 I HT T Hkeep HR t) as Ht.
  destruct (terminal_at rs t) eqn:E.
  - destruct Ht as [_ Ht]. by rewrite !terminal_not_live.
  - unfold live_at, terminal_at in *. rewrite Ht. destruct (tasks rs !! t) as [u|] eqn:Eu.
    + rewrite E. assert (is_Some (tasks rs0 !! t)) as [v Hv].
      { destruct I0 as [B0 _], I as [B _]. apply elem_of_dom.
        rewrite (b_dom _ _ _ B0), <- HT, <- (b_dom _ _ _ B). apply elem_of_dom. by eexists. }
      rewrite Hv. destruct (IsTerminal (Status v)) eqn:Ev; [|done].
      rewrite (Hkeep t) in Eu by (unfold terminal_at; by rewrite Hv). congruence.
    + assert (tasks rs0 !! t = None) as ->; [|done].
      destruct I0 as [B0 _], I as [B _]. apply not_elem_of_dom.
      rewrite (b_dom _ _ _ B0), <- HT, <- (b_dom _ _ _ B). by apply not_elem_of_dom.
Qed.

Lemma replayed_outcomes : outcomes R = outcomes rs.
Proof using I0 I T Hkeep HR HT.
  apply map_eq. intros t. destruct replayed_base as (BR & _ & ET & _).
  rewrite (b_out _ _ _ BR), (b_out _ _ _ (proj1 I)).
  pose proof (replayed_tasks I0 I HT T Hkeep HR t) as Ht. pose proof (replayed_live t) as Hl.
  assert (is_Some (tasks R !! t) ↔ is_Some (tasks rs !! t)) as Hd.
  { by rewrite <- !elem_of_dom, (b_dom _ _ _ BR), (b_dom _ _ _ (proj1 I)), ET. }
  unfold terminal_at, status_at, live_at in *.
  destruct (tasks rs !! t) as [u|], (tasks R !! t) as [v|]; simpl in *; try done.
  - destruct (IsTerminal (Status u)) eqn:E1.
    + destruct Ht as [Ht1 Ht2]. rewrite Ht2. congruence.
    + simpl in Hl. apply negb_true_iff in Hl. by rewrite Hl.
  - destruct (proj2 Hd) as [? ?]; [by eexists|done].
  - destruct (proj1 Hd) as [? ?]; [by eexists|done].
Qed.

Lemma replayed_indegree t : live_at rs t = true → indegree_of R t = indegree_of rs t.
Proof using I0 I T Hkeep HR HT.
  intros Hl. destruct replayed_base as (BR & _ & ET & _).
  rewrite (b_indeg _ _ _ BR) by (by rewrite replayed_live).
  rewrite (b_indeg _ _ _ (proj1 I)) by done. rewrite ET. do 2 f_equal.
  apply countb_ext. intros p _. unfold waiting. by rewrite replayed_live.
Qed.

(** The replayed state satisfies the owner's invariant again. *)
Lemma replayed_inv : owner_inv R.
Proof using I0 I T Hkeep HR HT.
  destruct replayed_base as (BR & HPS & ET & _). split; [done|]. intros t Hp Hz.
  apply HPS; [done|done|]. apply pending_live in Hp. rewrite replayed_live in Hp.
  rewrite replayed_indegree in Hz by done.
  rewrite (trigger_of_outcomes rs R t ET replayed_outcomes).
  destruct (proj2 (dispatchable_iff rs t I) (conj Hp Hz)) as [H|H].
  - by apply (b_ready _ _ _ (proj1 I)) in H as (_ & _ & ?).
  - by apply (b_running _ _ _ (proj1 I)) in H as [_ ?].
Qed.

Lemma replayed_counts : total R = total rs ∧ terminalCount R = terminalCount rs.
Proof using I0 I T Hkeep HR HT.
  destruct replayed_base as (BR & _ & ET & _).
  assert (total R = total rs) as Ht.
  { rewrite (b_total _ _ _ BR), (b_total _ _ _ (proj1 I)), <- !size_dom.
    by rewrite (b_dom _ _ _ BR), (b_dom _ _ _ (proj1 I)), ET. }
  split; [done|]. pose proof (inv_live_count R replayed_inv). pose proof (inv_live_count rs I).
  rewrite (live_tasks_ext R rs replayed_live) in *. lia.
Qed.
End recovered_state.

(** * Sequence gaps *)

Definition row_seqs (rows : list TaskRun) : list Z := map tr_TerminalSequence rows.

Lemma replayRow_expected rs gaps e r rs' gaps' e' : replayRow (rs, gaps, e) r = (rs', gaps', e') →
  e' = Z.max e (tr_TerminalSequence r + 1) ∧
  gaps' = gaps ++ seqZ e (tr_TerminalSequence r - e).
Proof.
  unfold replayRow. intros H. simplify_eq. split; [|done].
  destruct (Z.leb_spec (Z.max e (tr_TerminalSequence r)) (tr_TerminalSequence r)); lia.
Qed.

Lemma replay_gaps rows rs gaps e rs' gaps' e' :
  StronglySorted Z.lt (row_seqs rows) → Forall (λ n, e ≤ n) (row_seqs rows) →
  fold_left replayRow rows (rs, gaps, e) = (rs', gaps', e') →
  (∀ n, n ∈ gaps' ↔ n ∈ gaps ∨ (e ≤ n ∧ n ∉ row_seqs rows ∧ ∃ m, m ∈ row_seqs rows ∧ n < m)).
Proof.
  revert rs gaps e. induction rows as [|r rows IH]; intros rs gaps e Hs Hf HE n.
  { simpl in HE. simplify_eq. split; [by left|]. intros [?|(_ & _ & m & ? & _)]; [done|set_solver]. }
  cbn [fold_left] in HE. destruct (replayRow (rs, gaps, e) r) as [[rs1 g1] e1] eqn:E.
  destruct (replayRow_expected _ _ _ _ _ _ _ E) as [-> ->]. unfold row_seqs in *. simpl in *.
  apply StronglySorted_inv in Hs as [Hs Hlt]. apply Forall_cons in Hf as [He Hf].
  rewrite Forall_forall in Hlt. rewrite Z.max_r in HE by lia.
  rewrite (IH rs1 (gaps ++ seqZ e (tr_TerminalSequence r - e)) (tr_TerminalSequence r + 1) Hs); [| |exact HE].
  2:{ apply Forall_forall. intros m Hm. specialize (Hlt m Hm). lia. }
  rewrite elem_of_app, elem_of_seqZ. setoid_rewrite elem_of_cons.
  split.
  - intros [[?|[H1 H2]]|(H1 & H2 & m & H3 & H4)]; [by left| |]; right.
    + split; [lia|]. split; [|exists (tr_TerminalSequence r); split; [by left|lia]].
      intros [->|Hin]; [lia|]. specialize (Hlt n Hin). lia.
    + split; [lia|]. split; [|exists m; split; [by right|lia]]. intros [->|?]; [lia|done].
  - intros [?|(H1 & H2 & m & H3 & H4)]; [by left; left|].
    destruct (decide (n < tr_TerminalSequence r)) as [Hn|Hn]; [left; right; lia|right].
    split; [naive_solver lia|]. split; [tauto|]. destruct H3 as [->|H3]; [lia|]. by exists m.
Qed.

(** * A textual form of identifiers, for instances *)

(** Little-endian binary digits stand in for the library's hexadecimal form. *)
Fixpoint pos_digits (p : positive) : string :=
  match p with
  | xH => "1"
  | xO p => String "0" (pos_digits p)
  | xI p => String "1" (pos_digits p)
  end.

Fixpoint digits_pos (s : string) : option positive :=
  match s with
  | EmptyString => None
  | String c s' =>
      match digits_pos s' with
      | Some p => Some (if Ascii.eqb c "1" then xI p else xO p)
      | None => if Ascii.eqb c "1" then Some xH else None
      end
  end.

Definition demo_String (u : uuid) : string := match u with N0 => "nil" | Npos p => pos_digits p end.
Definition demo_Parse (s : string) : option uuid := if s =s "nil" then Some 0%N else Npos <$> digits_pos s.

Lemma digits_pos_digits p : digits_pos (pos_digits p) = Some p.
Proof. induction p as [p IH|p IH|]; simpl; [by rewrite IH|by rewrite IH|done]. Qed.

Lemma demo_codec u : demo_Parse (demo_String u) = Some u.
Proof.
  destruct u as [|p]; [done|]. unfold demo_Parse, demo_String.
  replace (pos_digits p =s "nil") with false by (by destruct p). by rewrite digits_pos_digits.
Qed.

(** * Theorems *)

Section recovery.
Context (uuid_String : uuid → string) (uuid_Parse : string → option uuid).
Context (uuid_Parse_String : ∀ u, uuid_Parse (uuid_String u) = Some u).

(** The checkpoint a recovering owner may find for a run that was once in state
    [rs0]: the snapshot of [rs0], or none when [rs0] is the initial state. *)
Definition checkpoint_of (iter1 iter2 : list uuid) (t0 : RunTopology)
    (checkpoint : option RunCheckpoint) (rs0 : RunState) : Prop :=
  match checkpoint with
  | Some cp => cp_StateBlob cp = Snapshot uuid_String rs0 ∧ cp_SequenceHigh cp = seq rs0
  | None => rs0 = NewRunState iter1 iter2 t0 0
  end.

Lemma recoveryStart_of iter1 iter2 t0 checkpoint rs0 : owner_inv rs0 → topo rs0 = t0 →
  (checkpoint = None → seq rs0 = 0) →
  checkpoint_of iter1 iter2 t0 checkpoint rs0 →
  recoveryStart uuid_Parse iter1 iter2 t0 checkpoint = (rs0, seq rs0).
Proof using uuid_Parse_String.
  intros [B _] <- H0. unfold recoveryStart. destruct checkpoint as [cp|]; simpl.
  - intros [-> ->]. rewrite Restore_Snapshot; [done|done|apply B].
  - intros Hn. by rewrite (H0 eq_refl), <- Hn.
Qed.

Lemma steps_kept rs0 rs start : owner_inv rs0 → seq_dense start rs0 → rtc owner_step rs0 rs →
  owner_inv rs ∧ topo rs = topo rs0 ∧ seq_dense start rs ∧
  ∀ t, terminal_at rs0 t = true → tasks rs !! t = tasks rs0 !! t.
Proof.
  intros HI HD Hs. induction Hs as [|rs0 rs1 rs2 H1 H2 IH]; [done|].
  destruct (step_inv _ _ _ HI HD H1) as (HI1 & HT1 & HD1).
  destruct (IH HI1 HD1) as (HI2 & HT2 & HD2 & Hk). split; [done|]. split; [congruence|].
  split; [done|]. intros t Ht. pose proof (step_terminal_kept _ _ t HI H1 Ht) as E.
  rewrite Hk; [done|]. unfold terminal_at in *. by rewrite E.
Qed.

Lemma RecoverRunState_eq iter1 iter2 iter3 t0 checkpoint rows rs0 n rs' res :
  recoveryStart uuid_Parse iter1 iter2 t0 checkpoint = (rs0, n) →
  RecoverRunState uuid_Parse iter1 iter2 iter3 t0 checkpoint rows = (rs', res) →
  requeueRunning (iter3 (replayState rs0 rows)) (replayState rs0 rows) = (rs', rr_ReDispatch res) ∧
  rr_Ready res = ready rs' ∧ rr_MaxSequence res = seq (replayState rs0 rows) ∧
  rr_Complete res = IsComplete rs' ∧
  rr_SequenceGaps res = (fold_left replayRow rows (rs0, [], n + 1)).1.2.
Proof.
  unfold RecoverRunState. intros ->. rewrite <- (replayRows_state rows rs0 [] (n + 1)).
  destruct (fold_left replayRow rows (rs0, [], n + 1)) as [[R gaps] e]. cbn [fst snd].
  destruct (requeueRunning (iter3 R) R) as [R' out]. intros [= <- <-]. done.
Qed.

(** Recovery from the snapshot of [rs0] and the rows written on the way to [rs]. *)
Lemma recovery_core iter1 iter2 iter3 checkpoint rs0 rs rows rs' res :
  owner_inv rs0 → owner_inv rs → topo rs = topo rs0 →
  (∀ t, terminal_at rs0 t = true → tasks rs !! t = tasks rs0 !! t) → tail_of rs0 rs rows →
  checkpoint_of iter1 iter2 (topo rs0) checkpoint rs0 → (checkpoint = None → seq rs0 = 0) →
  (∀ r, key_order (iter3 r) (tasks r)) →
  RecoverRunState uuid_Parse iter1 iter2 iter3 (topo rs0) checkpoint rows = (rs', res) →
  owner_inv rs' ∧ topo rs' = topo rs ∧ outcomes rs' = outcomes rs ∧
  (∀ t, terminal_at rs t = true → status_at rs' t = status_at rs t) ∧
  (∀ t, ¬ has_status rs' t TaskStatusRunning) ∧
  (∀ t, t ∈ rr_Ready res ↔ t ∈ ready rs ∨ has_status rs t TaskStatusRunning) ∧
  seq rs' = seq rs ∧ terminalCount rs' = terminalCount rs ∧
  rr_MaxSequence res = seq rs ∧ rr_Complete res = IsComplete rs.
Proof using uuid_Parse_String.
  intros I0 I HT Hkeep T Hcp H0 Hk HE.
  pose proof (recoveryStart_of iter1 iter2 (topo rs0) checkpoint rs0 I0 eq_refl H0 Hcp) as Est.
  destruct (RecoverRunState_eq _ _ _ _ _ _ _ _ _ _ Est HE) as (Erq & Erd & Emax & Ec & _).
  remember (replayState rs0 rows) as R eqn:ER.
  pose proof (replayed_inv I0 I HT T Hkeep ER) as IR.
  destruct (replayed_base I0 HT T ER) as (_ & _ & ETR & _ & ES).
  destruct (replayed_counts I0 I HT T Hkeep ER) as (Etot & Ecnt).
  destruct (requeueRunning_spec _ _ _ _ IR (Hk R) Erq)
    as (IR' & Hnr & Hout & Hrdy & Htk & Es & Et & Eo & _ & Etot' & Ecnt').
  split; [done|]. split; [congruence|].
  split; [rewrite Eo; apply (replayed_outcomes I0 I HT T Hkeep ER)|].
  split; [|split; [done|]; split; [|split; [congruence|]; split; [congruence|]; split; [congruence|]]].
  - intros t Ht. pose proof (replayed_tasks I0 I HT T Hkeep ER t) as H. rewrite Ht in H.
    destruct H as [<- Hterm]. unfold status_at. rewrite Htk, decide_False; [done|].
    intros Hin%Hout%running_live. by rewrite terminal_not_live in Hin.
  - intros t. rewrite Erd, Hrdy, (or_comm (has_status R t _)), (dispatchable_iff R t IR), (dispatchable_iff rs t I).
    rewrite (replayed_live I0 I HT T Hkeep ER t). split; intros [H1 H2]; split; try done.
    + by rewrite <- (replayed_indegree I0 I HT T Hkeep ER t).
    + by rewrite (replayed_indegree I0 I HT T Hkeep ER t).
  - rewrite Ec. unfold IsComplete. congruence.
Qed.

(** Recovery leaves the entries the snapshot has as finished untouched. *)
Lemma recovery_kept iter1 iter2 iter3 checkpoint rs0 rs rows rs' res t :
  owner_inv rs0 → owner_inv rs → topo rs = topo rs0 →
  (∀ t, terminal_at rs0 t = true → tasks rs !! t = tasks rs0 !! t) → tail_of rs0 rs rows →
  checkpoint_of iter1 iter2 (topo rs0) checkpoint rs0 → (checkpoint = None → seq rs0 = 0) →
  (∀ r, key_order (iter3 r) (tasks r)) →
  RecoverRunState uuid_Parse iter1 iter2 iter3 (topo rs0) checkpoint rows = (rs', res) →
  terminal_at rs0 t = true → tasks rs' !! t = tasks rs0 !! t.
Proof using uuid_Parse_String.
  intros I0 I HT Hkeep T Hcp H0 Hk HE Ht.
  pose proof (recoveryStart_of iter1 iter2 (topo rs0) checkpoint rs0 I0 eq_refl H0 Hcp) as Est.
  destruct (RecoverRunState_eq _ _ _ _ _ _ _ _ _ _ Est HE) as (Erq & _).
  remember (replayState rs0 rows) as R eqn:ER.
  pose proof (replayed_inv I0 I HT T Hkeep ER) as IR.
  destruct (requeueRunning_spec _ _ _ _ IR (Hk R) Erq) as (_ & _ & Hout & _ & Htk & _).
  destruct (replayState_spec rows rs0 (proj1 I0) (owner_progress_sat I0) (tail_replayable T))
    as (_ & _ & _ & _ & _ & _ & H5 & _). rewrite <- ER in H5.
  assert (tasks R !! t = tasks rs0 !! t) as E.
  { apply H5. intros Hin. apply list_elem_of_In, in_map_iff in Hin as (r & <- & Hr).
    apply list_elem_of_In in Hr. destruct (to_sound _ _ _ T r Hr) as [Hl _]. by rewrite terminal_not_live in Hl. }
  rewrite Htk, decide_False; [done|]. intros Hin%Hout%running_live.
  rewrite terminal_not_live in Hin; [done|]. unfold terminal_at in *. by rewrite E.
Qed.

(** C9: recovery resumes the run where the crashed owner left it. From the
    snapshot of an earlier state (or from scratch) and the terminal rows
    written since, the new owner's state satisfies the invariant, records
    exactly the outcomes, counters and cursor of the crashed state, has no
    running task, and queues exactly the tasks that were queued or in flight. *)
Theorem recovery_resumes iter1 iter2 iter3 t0 checkpoint rs0 rs rows rs' res :
  topo_wf t0 → reachable t0 0 rs0 → rtc owner_step rs0 rs → tail_of rs0 rs rows →
  checkpoint_of iter1 iter2 t0 checkpoint rs0 → (checkpoint = None → seq rs0 = 0) →
  (∀ r, key_order (iter3 r) (tasks r)) →
  RecoverRunState uuid_Parse iter1 iter2 iter3 t0 checkpoint rows = (rs', res) →
  owner_inv rs' ∧ topo rs' = t0 ∧ outcomes rs' = outcomes rs ∧
  (∀ t, terminal_at rs t = true → status_at rs' t = status_at rs t) ∧
  (∀ t, ¬ has_status rs' t TaskStatusRunning) ∧
  (∀ t, t ∈ rr_Ready res ↔ t ∈ ready rs ∨ has_status rs t TaskStatusRunning) ∧
  seq rs' = seq rs ∧ terminalCount rs' = terminalCount rs ∧
  rr_MaxSequence res = seq rs ∧ rr_Complete res = IsComplete rs.
Proof using uuid_Parse_String.
  intros W HR0 Hs T Hcp H0 Hk HE. destruct (reachable_inv _ _ _ W HR0) as (I0 & HT0 & HD0).
  destruct (steps_kept rs0 rs 0 I0 HD0 Hs) as (I & HT & _ & Hkeep). rewrite <- HT0 in *.
  pose proof (recovery_core iter1 iter2 iter3 checkpoint rs0 rs rows rs' res I0 I HT Hkeep T Hcp H0 Hk HE)
    as (H1 & H2 & H3). split; [done|]. split; [congruence|]. exact H3.
Qed.

(** A snapshot of any consistent run state restores to that very state. *)
Lemma snapshot_roundtrip rs :
  owner_inv rs → Restore uuid_Parse (topo rs) (Snapshot uuid_String rs) = Some rs.
Proof using uuid_Parse_String. intros [B _]. apply Restore_Snapshot; [done|apply B]. Qed.

(** The sequence gaps reported by recovery are exactly the numbers after
    the checkpoint that no row carries and that some row exceeds. *)
Lemma gaps_exact iter1 iter2 iter3 t0 checkpoint rows rs0 n rs' res m :
  recoveryStart uuid_Parse iter1 iter2 t0 checkpoint = (rs0, n) →
  StronglySorted Z.lt (row_seqs rows) → (∀ k, k ∈ row_seqs rows → n < k) →
  RecoverRunState uuid_Parse iter1 iter2 iter3 t0 checkpoint rows = (rs', res) →
  m ∈ rr_SequenceGaps res ↔ n < m ∧ m ∉ row_seqs rows ∧ ∃ k, k ∈ row_seqs rows ∧ m < k.
Proof.
  intros Est Hs Hgt HE. destruct (RecoverRunState_eq _ _ _ _ _ _ _ _ _ _ Est HE) as (_ & _ & _ & _ & Eg).
  destruct (fold_left replayRow rows (rs0, [], n + 1)) as [[R g] e] eqn:EF. simpl in Eg. subst g.
  rewrite (replay_gaps rows rs0 [] (n + 1) R (rr_SequenceGaps res) e Hs); [|  |exact EF].
  - rewrite elem_of_nil. assert (n + 1 ≤ m ↔ n < m) as -> by lia. tauto.
  - apply Forall_forall. intros k Hk%Hgt. lia.
Qed.
End recovery.

(** * Instances *)

(** The demo run: task 1 finished before the checkpoint, task 2 fails and task 3
    is in flight when the owner crashes. *)
Definition crash_rs0 : RunState := after 1 TaskStatusSucceeded [] demo_start.
Definition crash_rs1 : RunState := MarkDispatched 3 "worker-b" 1 99 crash_rs0.
Definition crash_rs : RunState := after 2 TaskStatusFailed [] crash_rs1.

Definition demo_row (id : uuid) (s : TaskStatus) (n : Z) : TaskRun :=
  mkTaskRun id 100 id s "" None 1 None 1 2 "" None None false None None None "" false "" "" 0 0 n
    None None 0 false NoDescriptor ∅.

Definition crash_rows : list TaskRun := [demo_row 2 TaskStatusFailed 2].
Definition crash_checkpoint : RunCheckpoint :=
  mkRunCheckpoint 100 1 1 (Snapshot demo_String crash_rs0) false 0.

Definition map_order (rs : RunState) : list uuid := elements (dom (tasks rs)).

Lemma crash_reachable : reachable demo_topo 0 crash_rs0.
Proof. apply after_reachable; [reflexivity|apply demo_reachable]. Qed.

Lemma crash_steps : rtc owner_step crash_rs0 crash_rs.
Proof.
  eapply rtc_l; [|apply rtc_once, after_step; reflexivity].
  apply os_dispatch. vm_compute. set_solver.
Qed.

(** Executable form of the tail condition, over the tasks of the run. *)
Definition tailb (rs0 rs : RunState) (rows : list TaskRun) : bool :=
  bool_decide (NoDup (row_ids rows)) &&
  bool_decide (Forall (λ r, live_at rs0 (tr_TaskID r) = true ∧
    terminal_at rs (tr_TaskID r) = true ∧ status_at rs (tr_TaskID r) = Some (tr_Status r)) rows) &&
  bool_decide (map_Forall (λ t _, live_at rs0 t = true → terminal_at rs t = true → t ∈ row_ids rows) (tasks rs0)) &&
  (fold_left (λ m r, Z.max m (tr_TerminalSequence r)) rows (seq rs0) =? seq rs).

Lemma tailb_sound rs0 rs rows : tailb rs0 rs rows = true → tail_of rs0 rs rows.
Proof.
  unfold tailb. rewrite !andb_true_iff, !bool_decide_eq_true, Z.eqb_eq, Forall_forall.
  intros [[[H1 H2] H3] H4]. split; [done|done| |done].
  intros t Hl. destruct (live_has _ _ Hl) as (ts & Hts & _). by apply (H3 t ts Hts).
Qed.

Lemma crash_tail : tail_of crash_rs0 crash_rs crash_rows.
Proof. apply tailb_sound. vm_compute. reflexivity. Qed.

Lemma recovery_resumes_witness : ∃ rs' res,
  RecoverRunState demo_Parse [] [] map_order demo_topo (Some crash_checkpoint) crash_rows = (rs', res) ∧
  rr_Ready res = [3%N] ∧ rr_MaxSequence res = 2 ∧ owner_inv rs' ∧ outcomes rs' = outcomes crash_rs.
Proof.
  destruct (RecoverRunState demo_Parse [] [] map_order demo_topo (Some crash_checkpoint) crash_rows)
    as [rs' res] eqn:E.
  destruct (recovery_resumes demo_String demo_Parse demo_codec [] [] map_order demo_topo
    (Some crash_checkpoint) crash_rs0 crash_rs crash_rows rs' res) as (H1 & _ & H3 & _).
  - apply demo_wf.
  - apply crash_reachable.
  - apply crash_steps.
  - apply crash_tail.
  - split; vm_compute; reflexivity.
  - done.
  - intros r. apply key_order_elements.
  - exact E.
  - exists rs', res. split; [done|].
    replace res with (RecoverRunState demo_Parse [] [] map_order demo_topo (Some crash_checkpoint) crash_rows).2
      by (by rewrite E).
    split; [vm_compute; reflexivity|]. split; [vm_compute; reflexivity|]. by split.
Defined.

Lemma snapshot_roundtrip_witness :
  Restore demo_Parse (topo crash_rs0) (Snapshot demo_String crash_rs0) = Some crash_rs0 ∧
  terminalCount crash_rs0 = 1.
Proof.
  split; [|vm_compute; reflexivity].
  apply (snapshot_roundtrip demo_String demo_Parse demo_codec).
  by destruct (reachable_inv _ _ _ demo_wf crash_reachable).
Defined.

(** The row of task 2 carries number 4: the numbers 2 and 3 were lost. *)
Lemma gaps_exact_witness :
  let r := RecoverRunState demo_Parse [] [] map_order demo_topo (Some crash_checkpoint)
             [demo_row 2 TaskStatusFailed 4] in
  rr_SequenceGaps r.2 = [2; 3] ∧ 3 ∈ rr_SequenceGaps r.2.
Proof.
  split; [vm_compute; reflexivity|].
  apply (gaps_exact demo_Parse [] [] map_order demo_topo (Some crash_checkpoint)
    [demo_row 2 TaskStatusFailed 4] crash_rs0 1 (RecoverRunState demo_Parse [] [] map_order demo_topo
    (Some crash_checkpoint) [demo_row 2 TaskStatusFailed 4]).1).
  - vm_compute. reflexivity.
  - repeat constructor.
  - intros k. vm_compute. set_solver by lia.
  - apply surjective_pairing.
  - vm_compute. repeat split; [set_solver by lia|]. exists 4. split; [set_solver|done].
Defined.
