(* ===== verification/Checkpoints.v ===== *)
(** Checkpoint persistence: the store operations (checkpoint_store.go) and the
    cadence of the checkpoint writer (checkpoint_writer.go). The writer is defined
    and verified against the interface it depends on in the code
    ([checkpointPersister]); the store is an instance. *)

From S2P Require Import Prelude TriggerRule Tables Store TxLogic RunState RunStateInv Recovery.

(** * Store operations *)

Definition same_checkpoint (runID : uuid) (sequenceHigh : Z) (cp : RunCheckpoint) : bool :=
  (cp_RunID cp =? runID)%N && (cp_SequenceHigh cp =? sequenceHigh).

(** The errors the database raises during one checkpoint: at each attempt of the
    upsert, at the query for the snapshots to keep, at each attempt of the delete. *)
Record checkpoint_faults := mkCheckpointFaults {
  cf_write : nat → option store_error;
  cf_pluck : option store_error;
  cf_delete : nat → option store_error;
}.

Definition no_checkpoint_faults : checkpoint_faults := mkCheckpointFaults (λ _, None) None (λ _, None).

(** A single statement under [withStoreBusyRetry]. *)
Definition retried (faults : nat → option store_error) (f : DB → DB) (db : DB) : option store_error * DB :=
  match withStoreBusyRetry faults (λ db, inr ((), f db)) db with
  | (inl e, db) => (Some e, db)
  | (inr _, db) => (None, db)
  end.

(** Upsert on (run_id, sequence_high). *)
Definition upsertCheckpoint (cp : RunCheckpoint) (db : DB) : DB :=
  let key := same_checkpoint (cp_RunID cp) (cp_SequenceHigh cp) in
  set_run_checkpoints
    (if (0 <? countb key (run_checkpoints db))%nat
     then map (λ c, if key c then cp else c) (run_checkpoints db)
     else run_checkpoints db ++ [cp]) db.

Definition WriteCheckpoint (faults : nat → option store_error) (now : Z) (runID : uuid)
    (sequenceHigh ownerGeneration : Z) (b : blob) (incremental : bool) (db : DB) : option store_error * DB :=
  retried faults (upsertCheckpoint (mkRunCheckpoint runID sequenceHigh ownerGeneration b incremental now)) db.

Definition is_full (runID : uuid) (cp : RunCheckpoint) : bool :=
  (cp_RunID cp =? runID)%N && negb (cp_IsIncremental cp).

(** [ORDER BY sequence_high DESC] *)
Definition newer (a b : RunCheckpoint) : bool := cp_SequenceHigh b <? cp_SequenceHigh a.

Definition LatestFullCheckpoint (runID : uuid) (db : DB) : option RunCheckpoint :=
  first (sort_stable newer (select (is_full runID) (run_checkpoints db))).

Definition CheckpointDeltasSince (runID : uuid) (fromSeq : Z) (db : DB) : list RunCheckpoint :=
  sort_stable (λ a b, cp_SequenceHigh a <? cp_SequenceHigh b)
    (select (λ cp, (cp_RunID cp =? runID)%N && cp_IsIncremental cp && (fromSeq <? cp_SequenceHigh cp))
       (run_checkpoints db)).

(** The oldest full snapshot to keep, when there are enough of them. *)
Definition pruneThreshold (runID : uuid) (keepFulls : Z) (db : DB) : option Z :=
  let keepFulls := if keepFulls <? 1 then 1 else keepFulls in
  let fullSeqs := map cp_SequenceHigh
    (take (Z.to_nat keepFulls) (sort_stable newer (select (is_full runID) (run_checkpoints db)))) in
  if Z.of_nat (length fullSeqs) <? keepFulls then None else last fullSeqs.

Definition deleteBelow (runID : uuid) (threshold : Z) (db : DB) : DB :=
  set_run_checkpoints
    (delete_where (λ cp, (cp_RunID cp =? runID)%N && (cp_SequenceHigh cp <? threshold)) (run_checkpoints db)).1 db.

Definition PruneCheckpoints (pluckFault : option store_error) (faults : nat → option store_error)
    (runID : uuid) (keepFulls : Z) (db : DB) : option store_error * DB :=
  match pluckFault with
  | Some e => (Some e, db)
  | None =>
      match pruneThreshold runID keepFulls db with
      | None => (None, db)
      | Some threshold => retried faults (deleteBelow runID threshold) db
      end
  end.

(** The snapshots after a prune that met no error. *)
Definition pruned (runID : uuid) (keepFulls : Z) (db : DB) : DB :=
  match pruneThreshold runID keepFulls db with None => db | Some threshold => deleteBelow runID threshold db end.

Definition by_sequence (a b : TaskRun) : bool := tr_TerminalSequence a <? tr_TerminalSequence b.

Definition TerminalTaskRunsSince (runID : uuid) (afterSeq : Z) (db : DB) : list TaskRun :=
  sort_stable by_sequence
    (select (λ r, (tr_JobRunID r =? runID)%N && (afterSeq <? tr_TerminalSequence r) &&
                  bool_decide (tr_Status r ∈ terminalStatusStrings)) (task_runs db)).

Definition DeleteCheckpoints (faults : nat → option store_error) (runID : uuid) (db : DB) : option store_error * DB :=
  retried faults (λ db, set_run_checkpoints (delete_where (λ cp, (cp_RunID cp =? runID)%N) (run_checkpoints db)).1 db) db.

(** * The interface of the writer *)

(** [checkpointPersister]: operations on a store state [S], each may fail. *)
Class checkpointPersister (S : Type) := {
  persistWrite : Z → uuid → Z → Z → blob → bool → S → option store_error * S;
  persistPrune : uuid → Z → S → option store_error * S;
}.

(** What the writer relies on. [latest] observes the newest full snapshot. *)
Class persisterLaws (S : Type) `{!checkpointPersister S} (latest : uuid → S → option RunCheckpoint) := {
  write_latest now run sq gen b s s' :
    persistWrite now run sq gen b false s = (None, s') →
    (∀ cp, latest run s = Some cp → cp_SequenceHigh cp ≤ sq) →
    latest run s' = Some (mkRunCheckpoint run sq gen b false now);
  prune_latest run keep s e s' : persistPrune run keep s = (e, s') → latest run s' = latest run s;
}.

(** * The writer *)

Record CheckpointConfig := mkCheckpointConfig { cc_Events : Z; cc_Interval : Z; cc_KeepFulls : Z }.

Record CheckpointWriter := mkCheckpointWriter {
  cw_runID : uuid;
  cw_cfg : CheckpointConfig;
  cw_lastSeq : Z;
  cw_lastAt : Z;
}.

(** Nanoseconds. *)
Definition second : Z := 1000000000.

Definition NewCheckpointWriter (now : Z) (runID : uuid) (cfg : CheckpointConfig) : CheckpointWriter :=
  mkCheckpointWriter runID
    (mkCheckpointConfig
       (if cc_Events cfg <=? 0 then 100 else cc_Events cfg)
       (if cc_Interval cfg <=? 0 then 2 * second else cc_Interval cfg)
       (if cc_KeepFulls cfg <=? 0 then 3 else cc_KeepFulls cfg))
    0 now.

Definition due (now sq : Z) (w : CheckpointWriter) : bool :=
  if sq <=? cw_lastSeq w then false
  else if cc_Events (cw_cfg w) <=? wrap64 (sq - cw_lastSeq w) then true
  else cc_Interval (cw_cfg w) <=? now - cw_lastAt w.

Section writer.
Context {S : Type} {P : checkpointPersister S} (uuid_String : uuid → string).

Definition Force (now : Z) (rs : RunState) (ownerGeneration : Z) (w : CheckpointWriter) (s : S)
    : option store_error * CheckpointWriter * S :=
  let sq := Sequence rs in
  match persistWrite now (cw_runID w) sq ownerGeneration (Snapshot uuid_String rs) false s with
  | (Some e, s) => (Some e, w, s)
  | (None, s) =>
      let w := mkCheckpointWriter (cw_runID w) (cw_cfg w) sq now in
      let '(e, s) := persistPrune (cw_runID w) (cc_KeepFulls (cw_cfg w)) s in (e, w, s)
  end.

Definition Maybe (now : Z) (rs : RunState) (ownerGeneration : Z) (w : CheckpointWriter) (s : S)
    : option store_error * CheckpointWriter * S :=
  if negb (due now (Sequence rs) w) then (None, w, s) else Force now rs ownerGeneration w s.

(** * The writer against the interface *)

Context (latest : uuid → S → option RunCheckpoint) `{!persisterLaws S latest}.

(** The writer's cursor never runs ahead of the stored snapshot. *)
Definition writer_synced (w : CheckpointWriter) (s : S) : Prop :=
  match latest (cw_runID w) s with
  | None => cw_lastSeq w = 0
  | Some cp => cw_lastSeq w ≤ cp_SequenceHigh cp
  end.

Lemma Force_latest now rs gen w s e w' s' : Force now rs gen w s = (e, w', s') →
  (∀ cp, latest (cw_runID w) s = Some cp → cp_SequenceHigh cp ≤ seq rs) →
  cw_runID w' = cw_runID w ∧ cw_cfg w' = cw_cfg w ∧
  ((latest (cw_runID w) s' = Some (mkRunCheckpoint (cw_runID w) (seq rs) gen (Snapshot uuid_String rs) false now) ∧
    cw_lastSeq w' = seq rs) ∨
   (is_Some e ∧ w' = w ∧ ∃ e', persistWrite now (cw_runID w) (seq rs) gen (Snapshot uuid_String rs) false s = (Some e', s'))).
Proof using All.
  unfold Force, Sequence. intros E Hle.
  destruct (persistWrite now (cw_runID w) (seq rs) gen (Snapshot uuid_String rs) false s) as [[e1|] s1] eqn:EW.
  - simplify_eq. split; [done|]. split; [done|]. right. split; [by eexists|]. split; [done|]. by exists e1.
  - destruct (persistPrune _ _ s1) as [e2 s2] eqn:EP. simplify_eq/=. split; [done|]. split; [done|]. left.
    split; [|done]. rewrite (prune_latest _ _ _ _ _ EP). by eapply write_latest.
Qed.
End writer.

(** * The store implements the interface *)

(** The store under the errors [cf] of its database. *)
Definition Store_persister (cf : checkpoint_faults) : checkpointPersister DB := {|
  persistWrite := WriteCheckpoint (cf_write cf);
  persistPrune := PruneCheckpoints (cf_pluck cf) (cf_delete cf);
|}.

(** A retried statement took effect and reported no error, or did neither. *)
Lemma retried_spec faults f db e db' : retried faults f db = (e, db') →
  (e = None ∧ db' = f db) ∨ (is_Some e ∧ db' = db).
Proof.
  unfold retried. destruct (withStoreBusyRetry _ _ db) as [r db1] eqn:E. apply busyRetryLoop_atomic in E.
  destruct r as [e1|[]]; intros [= <- <-]; [right; by split; [eexists|]|left]. by simplify_eq.
Qed.

Lemma newer_asym x y : newer x y = true → newer y x = false.
Proof. unfold newer. rewrite Z.ltb_lt, Z.ltb_ge. lia. Qed.

Lemma newer_negtrans x y z : newer y x = false → newer z y = false → newer z x = false.
Proof. unfold newer. rewrite !Z.ltb_ge. lia. Qed.

Lemma newer_irrefl x : newer x x = false.
Proof. unfold newer. apply Z.ltb_irrefl. Qed.

(** The newest full snapshot. *)
Lemma latest_spec run db cp : LatestFullCheckpoint run db = Some cp →
  cp ∈ run_checkpoints db ∧ is_full run cp = true ∧
  ∀ c, c ∈ run_checkpoints db → is_full run c = true → cp_SequenceHigh c ≤ cp_SequenceHigh cp.
Proof.
  intros H. destruct (sort_stable_head newer newer_asym newer_negtrans _ _ H) as [Hin Hmin].
  apply select_elem in Hin as [Hin Hf]. split; [done|]. split; [done|]. intros c Hc Hcf.
  specialize (Hmin c). rewrite select_elem in Hmin. specialize (Hmin (conj Hc Hcf) (newer_irrefl cp)).
  unfold newer in Hmin. by apply Z.ltb_ge in Hmin.
Qed.

Lemma latest_none run db : LatestFullCheckpoint run db = None → ∀ c, c ∈ run_checkpoints db → is_full run c = false.
Proof.
  unfold LatestFullCheckpoint, first. intros H c Hc.
  assert (select (is_full run) (run_checkpoints db) = []) as Hn.
  { apply Permutation_nil_r. rewrite <- (sort_stable_perm newer). by destruct (sort_stable newer _). }
  destruct (is_full run c) eqn:E; [|done].
  assert (c ∈ select (is_full run) (run_checkpoints db)) as Hin by (by apply select_elem).
  rewrite Hn in Hin. set_solver.
Qed.

(** The newest snapshot is the one with the largest number when that is unique. *)
Lemma latest_unique run db cp : cp ∈ run_checkpoints db → is_full run cp = true →
  (∀ c, c ∈ run_checkpoints db → is_full run c = true → cp_SequenceHigh c < cp_SequenceHigh cp ∨ c = cp) →
  LatestFullCheckpoint run db = Some cp.
Proof.
  intros Hin Hf Hmax. destruct (LatestFullCheckpoint run db) as [c|] eqn:E.
  - apply latest_spec in E as (Hc & Hcf & Hle). destruct (Hmax c Hc Hcf) as [Hlt| ->]; [|done].
    specialize (Hle cp Hin Hf). lia.
  - by rewrite (latest_none _ _ E cp Hin) in Hf.
Qed.

Lemma write_elem now run sq gen b inc db c :
  c ∈ run_checkpoints (upsertCheckpoint (mkRunCheckpoint run sq gen b inc now) db) ↔
  c = mkRunCheckpoint run sq gen b inc now ∨ (c ∈ run_checkpoints db ∧ same_checkpoint run sq c = false).
Proof.
  unfold upsertCheckpoint. cbv zeta. cbn [cp_RunID cp_SequenceHigh]. destruct (Nat.ltb_spec 0 (countb (same_checkpoint run sq) (run_checkpoints db))) as [Hp|Hz]; simpl.
  - rewrite list_elem_of_In, in_map_iff. setoid_rewrite <- list_elem_of_In. split.
    + intros (x & <- & Hx). destruct (same_checkpoint run sq x) eqn:E; [by left|by right].
    + intros [->|[Hc Hk]].
      * apply countb_pos in Hp as (x & Hx & Hk). exists x. by rewrite Hk.
      * exists c. by rewrite Hk.
  - assert (countb (same_checkpoint run sq) (run_checkpoints db) = 0)%nat as H0 by lia. rewrite countb_0 in H0.
    rewrite elem_of_app, list_elem_of_singleton. split; [intros [Hc| ->]; [right; auto|by left]|]. tauto.
Qed.

Lemma Store_write_latest now run sq gen b db :
  (∀ cp, LatestFullCheckpoint run db = Some cp → cp_SequenceHigh cp ≤ sq) →
  LatestFullCheckpoint run (upsertCheckpoint (mkRunCheckpoint run sq gen b false now) db) = Some (mkRunCheckpoint run sq gen b false now).
Proof.
  intros Hle. apply latest_unique.
  - apply write_elem. by left.
  - unfold is_full. simpl. by rewrite N.eqb_refl.
  - intros c [->|[Hc Hk]]%write_elem Hf; [by right|]. left. simpl.
    assert (cp_SequenceHigh c ≤ sq) as H1.
    { destruct (LatestFullCheckpoint run db) as [cp|] eqn:E; [|by rewrite (latest_none _ _ E c Hc) in Hf].
      specialize (Hle cp eq_refl). apply latest_spec in E as (_ & _ & H). specialize (H c Hc Hf). lia. }
    assert (cp_SequenceHigh c ≠ sq) as H2; [|lia].
    intros E. unfold same_checkpoint, is_full in *. apply andb_true_iff in Hf as [Hf _].
    by rewrite Hf, E, Z.eqb_refl in Hk.
Qed.

Lemma Store_prune_latest run keep db : LatestFullCheckpoint run (pruned run keep db) = LatestFullCheckpoint run db.
Proof.
  unfold pruned, pruneThreshold, deleteBelow. cbv zeta. set (k := if keep <? 1 then 1 else keep).
  set (full := sort_stable newer (select (is_full run) (run_checkpoints db))).
  destruct (Z.of_nat _ <? k) eqn:El; [done|]. destruct (last _) as [thr|] eqn:Et; [|done].
  unfold LatestFullCheckpoint at 2. fold full.
  destruct (first full) as [top|] eqn:Ef.
  2:{ exfalso. destruct full; [|done]. by rewrite take_nil in Et. }
  assert (LatestFullCheckpoint run db = Some top) as Htop by exact Ef.
  pose proof (latest_spec _ _ _ Htop) as (Hin & Hfull & Hmax).
  assert (thr ≤ cp_SequenceHigh top) as Hthr.
  { rewrite last_lookup in Et. apply list_elem_of_lookup_2 in Et. apply list_elem_of_In, in_map_iff in Et as (c & <- & Hc).
    apply list_elem_of_In in Hc. assert (c ∈ full) as Hcf by (rewrite <- (take_drop (Z.to_nat k) full); set_solver).
    unfold full in Hcf. rewrite sort_stable_perm, select_elem in Hcf. destruct Hcf as [Hc1 Hc2]. by apply Hmax. }
  unfold LatestFullCheckpoint. simpl.
  assert (select (is_full run) (List.filter (λ c, negb ((cp_RunID c =? run)%N && (cp_SequenceHigh c <? thr))) (run_checkpoints db)) =
    List.filter (λ c, negb (cp_SequenceHigh c <? thr)) (select (is_full run) (run_checkpoints db))) as ->.
  { unfold select. rewrite !filter_filter. apply List.filter_ext. intros c. unfold is_full.
    by destruct (cp_RunID c =? run)%N, (cp_IsIncremental c), (cp_SequenceHigh c <? thr). }
  rewrite (sort_stable_filter_comm newer newer_asym newer_negtrans). fold full. unfold first in *. destruct full as [|x l]; [done|]. simpl in *. simplify_eq.
  destruct (Z.ltb_spec (cp_SequenceHigh top) thr); [lia|done].
Qed.

#[export] Instance Store_laws cf : @persisterLaws DB (Store_persister cf) LatestFullCheckpoint.
Proof.
  split.
  - intros now run sq gen b db db' E Hle. apply retried_spec in E as [[_ ->]|[[? ?] _]]; [by apply Store_write_latest|done].
  - intros run keep db e db'. simpl. unfold PruneCheckpoints. destruct (cf_pluck cf); [intros; by simplify_eq|].
    pose proof (Store_prune_latest run keep db) as Hp. unfold pruned in Hp.
    destruct (pruneThreshold run keep db) as [thr|]; [|intros; by simplify_eq].
    intros [[_ ->]|[_ ->]]%retried_spec; done.
Qed.

(** A checkpoint touches no task row, whatever fails. *)
Lemma Force_rows us cf now rs gen w (db : DB) : task_runs (Force (P := Store_persister cf) us now rs gen w db).2 = task_runs db.
Proof.
  unfold Force. simpl. destruct (WriteCheckpoint _ _ _ _ _ _ _ db) as [e db1] eqn:E.
  assert (task_runs db1 = task_runs db) as E1 by (by apply retried_spec in E as [[_ ->]|[_ ->]]).
  destruct e; [done|]. unfold PruneCheckpoints. destruct (cf_pluck cf); [done|].
  destruct (pruneThreshold _ _ db1) as [thr|]; [|done]. destruct (retried _ _ db1) as [e db2] eqn:E2.
  by apply retried_spec in E2 as [[_ ->]|[_ ->]].
Qed.

Lemma Maybe_rows us cf now rs gen w (db : DB) : task_runs (Maybe (P := Store_persister cf) us now rs gen w db).2 = task_runs db.
Proof. unfold Maybe. destruct (negb _); [done|apply Force_rows]. Qed.

(** * Pruning *)

(** The full snapshots of a run, newest first. *)
Definition fulls (run : uuid) (db : DB) : list RunCheckpoint :=
  sort_stable newer (select (is_full run) (run_checkpoints db)).

Definition checkpoint_key (c : RunCheckpoint) : uuid * Z := (cp_RunID c, cp_SequenceHigh c).

Lemma fulls_elem run db c : c ∈ fulls run db ↔ c ∈ run_checkpoints db ∧ is_full run c = true.
Proof. unfold fulls. by rewrite sort_stable_perm, select_elem. Qed.

Lemma fulls_nodup run db : NoDup (map checkpoint_key (run_checkpoints db)) → NoDup (fulls run db).
Proof.
  intros Hk. unfold fulls. rewrite sort_stable_perm. apply NoDup_ListNoDup, List.NoDup_filter, NoDup_ListNoDup.
  exact (NoDup_fmap_1 checkpoint_key _ Hk).
Qed.

(** Distinct snapshots of a run have distinct numbers. *)
Lemma fulls_strict run db n x y : NoDup (map checkpoint_key (run_checkpoints db)) →
  x ∈ take n (fulls run db) → y ∈ drop n (fulls run db) → cp_SequenceHigh y < cp_SequenceHigh x.
Proof.
  intros Hk Hx Hy. pose proof (sort_stable_split newer newer_asym newer_negtrans _ n x y Hx Hy) as Hn.
  unfold newer in Hn. apply Z.ltb_ge in Hn. destruct (decide (cp_SequenceHigh x = cp_SequenceHigh y)) as [E|]; [|lia].
  exfalso. pose proof (fulls_nodup run db Hk) as Hnd. rewrite <- (take_drop n (fulls run db)) in Hnd.
  apply NoDup_app in Hnd as (_ & Hd & _). apply (Hd x Hx).
  assert (x ∈ fulls run db) as Hxf by (rewrite <- (take_drop n (fulls run db)); set_solver).
  assert (y ∈ fulls run db) as Hyf by (rewrite <- (take_drop n (fulls run db)); set_solver).
  apply fulls_elem in Hxf as [Hx1 Hx2], Hyf as [Hy1 Hy2]. unfold is_full in *. bool_prop.
  by rewrite (NoDup_map_eq checkpoint_key (run_checkpoints db) x y) by (done || unfold checkpoint_key; congruence).
Qed.

Lemma filter_take_drop {A} (p : A → bool) (l : list A) n :
  (∀ x, x ∈ take n l → p x = true) → (∀ x, x ∈ drop n l → p x = false) → List.filter p l = take n l.
Proof.
  intros Ht Hd. rewrite <- (take_drop n l) at 1. rewrite List.filter_app.
  assert (∀ k : list A, (∀ x, x ∈ k → p x = true) → List.filter p k = k) as H1.
  { induction k as [|x k IH]; intros H; [done|]. simpl. rewrite (H x) by set_solver. f_equal. apply IH. set_solver. }
  assert (∀ k : list A, (∀ x, x ∈ k → p x = false) → List.filter p k = []) as H2.
  { induction k as [|x k IH]; intros H; [done|]. simpl. rewrite (H x) by set_solver. apply IH. set_solver. }
  by rewrite (H1 _ Ht), (H2 _ Hd), app_nil_r.
Qed.

(** Pruning keeps exactly the requested number of newest full snapshots of
    the run (at least one), never touches other runs, and so never changes which
    snapshot recovery starts from. *)
Lemma prune_keeps_newest run keep db :
  NoDup (map checkpoint_key (run_checkpoints db)) →
  fulls run (pruned run keep db) = take (Z.to_nat (Z.max 1 keep)) (fulls run db) ∧
  LatestFullCheckpoint run (pruned run keep db) = LatestFullCheckpoint run db ∧
  (∀ c, cp_RunID c ≠ run → c ∈ run_checkpoints (pruned run keep db) ↔ c ∈ run_checkpoints db).
Proof.
  intros Hk. split; [|split; [apply Store_prune_latest|]].
  - unfold pruned, pruneThreshold, deleteBelow. cbv zeta. fold (fulls run db).
    assert ((if keep <? 1 then 1 else keep) = Z.max 1 keep) as -> by (destruct (Z.ltb_spec keep 1); lia).
    rewrite length_map, length_take. set (n := Z.to_nat (Z.max 1 keep)).
    destruct (Z.ltb_spec (Z.of_nat (n `min` length (fulls run db))) (Z.max 1 keep)) as [Hlt|Hge].
    { rewrite take_ge; [done|]. lia. }
    destruct (last _) as [thr|] eqn:Et.
    2:{ rewrite last_None in Et. apply (f_equal length) in Et. rewrite length_map, length_take in Et. simpl in Et. lia. }
    rewrite fmap_last, fmap_Some in Et. destruct Et as (c & Hc & ->). unfold fulls at 1. simpl.
    assert (select (is_full run) (List.filter (λ x, negb ((cp_RunID x =? run)%N && (cp_SequenceHigh x <? cp_SequenceHigh c)))
      (run_checkpoints db)) = List.filter (λ x, negb (cp_SequenceHigh x <? cp_SequenceHigh c))
      (select (is_full run) (run_checkpoints db))) as ->.
    { unfold select. rewrite !filter_filter. apply List.filter_ext. intros x. unfold is_full.
      by destruct (cp_RunID x =? run)%N, (cp_IsIncremental x), (cp_SequenceHigh x <? cp_SequenceHigh c). }
    rewrite (sort_stable_filter_comm newer newer_asym newer_negtrans). fold (fulls run db).
    assert (c ∈ take n (fulls run db)) as Hcin by (rewrite last_lookup in Hc; by eapply list_elem_of_lookup_2).
    apply filter_take_drop.
    + intros x Hx. apply negb_true_iff, Z.ltb_ge.
      pose proof (sort_stable_sorted newer newer_asym newer_negtrans (select (is_full run) (run_checkpoints db))) as Hs.
      fold (fulls run db) in Hs. rewrite <- (take_drop n (fulls run db)) in Hs. apply StronglySorted_app in Hs as (_ & Hs & _).
      apply last_Some in Hc as (pre & Hpre). rewrite Hpre in Hs, Hx. apply StronglySorted_app in Hs as (Hs & _ & _).
      apply elem_of_app in Hx as [Hx|Hx].
      * specialize (Hs x c Hx). unfold not_after, newer in Hs. apply Z.ltb_ge. apply Hs. set_solver.
      * apply list_elem_of_singleton in Hx as ->. lia.
    + intros x Hx. apply negb_false_iff, Z.ltb_lt. by eapply (fulls_strict run db n).
  - intros c Hc. unfold pruned, pruneThreshold, deleteBelow. cbv zeta. destruct (_ <? _); [done|]. destruct (last _) as [thr|]; [|done].
    simpl. rewrite list_elem_of_In, List.filter_In, <- list_elem_of_In.
    assert ((cp_RunID c =? run)%N = false) as -> by (by apply N.eqb_neq). simpl. tauto.
Qed.

Lemma prune_keeps_newest_witness :
  let cp n := mkRunCheckpoint 100 n 1 BlobCorrupt false 0 in
  let db := set_run_checkpoints [cp 4; cp 9; cp 2; cp 6] (mkDB [] [] [] [] [] [] [] [] []) in
  fulls 100 (pruned 100 2 db) = [cp 9; cp 6] ∧
  LatestFullCheckpoint 100 (pruned 100 2 db) = LatestFullCheckpoint 100 db.
Proof.
  intros cp db. split; [vm_compute; reflexivity|].
  apply (prune_keeps_newest 100 2 db). decide_vm.
Defined.

(** * Cadence *)

(** The cadence bounds what recovery has to replay: after a call of the
    writer that reports no error, against any store that keeps its promise, fewer
    than the configured number of terminal transitions lie beyond the newest
    stored snapshot. *)
Lemma checkpoint_tail_bounded {S} `{!checkpointPersister S} latest `{!persisterLaws S latest}
    us now rs gen w s w' s' :
  0 < cc_Events (cw_cfg w) → 0 ≤ cw_lastSeq w ≤ seq rs → seq rs ≤ int64_max →
  (∀ cp, latest (cw_runID w) s = Some cp → cw_lastSeq w ≤ cp_SequenceHigh cp ≤ seq rs) →
  (latest (cw_runID w) s = None → cw_lastSeq w = 0) →
  Maybe us now rs gen w s = (None, w', s') →
  match latest (cw_runID w) s' with
  | Some cp => seq rs - cp_SequenceHigh cp < cc_Events (cw_cfg w) ∧ cw_lastSeq w' ≤ cp_SequenceHigh cp
  | None => seq rs < cc_Events (cw_cfg w)
  end.
Proof.
  intros Hev Hls Hmax Hcp Hnone. unfold Maybe, Sequence. destruct (due now (seq rs) w) eqn:Ed; simpl.
  - intros E. destruct (Force_latest us latest now rs gen w s None w' s' E) as (_ & _ & H).
    { intros cp Hl. by apply Hcp. }
    destruct H as [[-> Hls']|([? ?] & _)]; [simpl; lia|done].
  - intros E. simplify_eq. unfold due in Ed.
    assert (seq rs - cw_lastSeq w' < cc_Events (cw_cfg w')) as Hlt.
    { destruct (Z.leb_spec (seq rs) (cw_lastSeq w')); [lia|].
      destruct (Z.leb_spec (cc_Events (cw_cfg w')) (wrap64 (seq rs - cw_lastSeq w'))) as [|Hw]; [done|].
      rewrite wrap64_small in Hw; [done|]. unfold int64_min, int64_max in *. lia. }
    destruct (latest (cw_runID w') s') as [cp|] eqn:El.
    + specialize (Hcp cp eq_refl). lia.
    + specialize (Hnone eq_refl). lia.
Qed.

Lemma checkpoint_tail_bounded_witness :
  let rs := mkRunState (mkRunTopology ∅ ∅ ∅ ∅) ∅ ∅ ∅ [] ∅ 5 5 5 in
  let w := NewCheckpointWriter 0 100 (mkCheckpointConfig 4 0 0) in
  let db := mkDB [] [] [] [] [] [] [] [] [] in
  ∃ w' db', Maybe (P := Store_persister no_checkpoint_faults) (λ _, "") 1 rs 1 w db = (None, w', db') ∧ cw_lastSeq w' = 5 ∧
    match LatestFullCheckpoint 100 db' with
    | Some cp => 5 - cp_SequenceHigh cp < 4 ∧ cw_lastSeq w' ≤ cp_SequenceHigh cp
    | None => 5 < 4
    end.
Proof.
  intros rs w db. eexists _, _. split; [vm_compute; reflexivity|]. split; [reflexivity|].
  apply (@checkpoint_tail_bounded _ (Store_persister no_checkpoint_faults) LatestFullCheckpoint _ (λ _, "") 1 rs 1 w db);
    [reflexivity|vm_compute; split; discriminate|vm_compute; discriminate|done|done|vm_compute; reflexivity].
Defined.
