(* ===== verification/OwnerManager.v ===== *)
(** The owner manager (internal/run/owner_manager.go): the in-memory run states a
    node owns, composed with the store. The state is the manager together with
    the database; every method returns the new pair. The locks of the code
    serialize the methods of one run, which is the sequential composition here.

    Parameters: the textual form of UUIDs, and the orders in which Go iterates the
    maps ([iter1], [iter2] while a state is built, [iter3] over its tasks). The
    errors the database raises are arguments as well: one record for a recovery
    ([recover_faults]), one for a completion ([complete_faults]), each with an entry
    for every query and every attempt of a wrapped statement. *)

From S2P Require Import Prelude TriggerRule Tables Store RunState TaskOps RunOps Topology SqlAdvance Recovery.
From S2P Require Import Checkpoints.

Record ownedRun := mkOwnedRun {
  or_state : RunState;
  or_writer : CheckpointWriter;
  or_gen : Z;
}.

Record OwnerManager := mkOwnerManager {
  om_cfg : CheckpointConfig;
  om_runs : gmap uuid ownedRun;
}.

Definition set_runs (r : gmap uuid ownedRun) (m : OwnerManager) : OwnerManager := mkOwnerManager (om_cfg m) r.

Definition NewOwnerManager (cfg : CheckpointConfig) : OwnerManager := mkOwnerManager cfg ∅.

Definition get (runID : uuid) (m : OwnerManager) : option ownedRun := om_runs m !! runID.

(** Keeps an entry that is already tracked. *)
Definition put (runID : uuid) (or : ownedRun) (m : OwnerManager) : OwnerManager * bool :=
  match om_runs m !! runID with
  | Some _ => (m, false)
  | None => (set_runs (<[runID := or]> (om_runs m)) m, true)
  end.

Definition Owns (runID : uuid) (m : OwnerManager) : bool := bool_decide (is_Some (get runID m)).

Definition Ready (runID : uuid) (m : OwnerManager) : list uuid :=
  match get runID m with None => [] | Some or => ReadyTasks (or_state or) end.

Record DispatchableTask := mkDispatchableTask { dt_TaskID : uuid; dt_Attempt : Z }.

Definition ReadyForDispatch (runID : uuid) (m : OwnerManager) : list DispatchableTask :=
  match get runID m with
  | None => []
  | Some or =>
      map (λ id, mkDispatchableTask id
                   (match TaskState id (or_state or) with
                    | Some st => if 0 <? Attempt st then Attempt st else 1
                    | None => 1
                    end)) (ReadyTasks (or_state or))
  end.

Definition ManagerMarkDispatched (runID taskID : uuid) (worker : string) (attempt leaseExpiresAtMs : Z)
    (m : OwnerManager) : OwnerManager :=
  match get runID m with
  | None => m
  | Some or =>
      set_runs (<[runID := mkOwnedRun (MarkDispatched taskID worker attempt leaseExpiresAtMs (or_state or))
                             (or_writer or) (or_gen or)]> (om_runs m)) m
  end.

Record CompleteResult := mkCompleteResult {
  co_Ready : list uuid;
  co_Complete : bool;
  co_Owned : bool;
}.

(** Errors of the manager: of the topology loader or of the store. *)
Inductive manager_error : Type :=
| ErrTopology (e : topo_err)
| ErrStore (e : store_error).

(** Database errors during [Recover]: while the topology, the checkpoint and the rows
    are read, at the reset of the in-flight rows, and in the forced checkpoint. *)
Record recover_faults := mkRecoverFaults {
  rf_topology : option store_error;
  rf_checkpoint : option store_error;
  rf_rows : option store_error;
  rf_reset : option store_error;
  rf_force : checkpoint_faults;
}.

Definition no_recover_faults : recover_faults := mkRecoverFaults None None None None no_checkpoint_faults.

(** Database errors during [Complete]: in the query of the branch skips, at the
    attempts of the terminal write, in the checkpoint on cadence, at the attempts of
    the finalization, and in the final checkpoint. *)
Record complete_faults := mkCompleteFaults {
  mf_branches : option store_error;
  mf_write : nat → option store_error;
  mf_maybe : checkpoint_faults;
  mf_finalize : nat → option store_error;
  mf_drop : checkpoint_faults;
}.

Definition no_complete_faults : complete_faults :=
  mkCompleteFaults None (λ _, None) no_checkpoint_faults (λ _, None) no_checkpoint_faults.

Section manager.
Context (uuid_String : uuid → string) (uuid_Parse : string → option uuid).
Context (iter1 iter2 : RunTopology → list uuid) (iter3 : RunState → list uuid).

Definition loadTopology (fault : option store_error) (runID : uuid) (db : DB) : manager_error + RunTopology :=
  match fault with
  | Some e => inl (ErrStore e)
  | None => match LoadRunTopology db runID with inl e => inl (ErrTopology e) | inr t => inr t end
  end.

Definition Adopt (fault : option store_error) (now : Z) (runID : uuid) (generation : Z) (m : OwnerManager) (db : DB)
    : (manager_error + ()) * OwnerManager :=
  if Owns runID m then (inr (), m)
  else match loadTopology fault runID db with
       | inl e => (inl e, m)
       | inr t =>
           (inr (), (put runID (mkOwnedRun (NewRunState (iter1 t) (iter2 t) t 0)
                                  (NewCheckpointWriter now runID (om_cfg m)) generation) m).1)
       end.

(** The reset of the rows and the checkpoint are best effort. *)
Definition Recover (rf : recover_faults) (now : Z) (runID : uuid) (generation : Z) (m : OwnerManager) (db : DB)
    : (manager_error + RecoveryResult) * (OwnerManager * DB) :=
  match loadTopology (rf_topology rf) runID db with
  | inl e => (inl e, (m, db))
  | inr t =>
      match rf_checkpoint rf with
      | Some e => (inl (ErrStore e), (m, db))
      | None =>
          let checkpoint := LatestFullCheckpoint runID db in
          let afterSeq := match checkpoint with Some cp => cp_SequenceHigh cp | None => 0 end in
          match rf_rows rf with
          | Some e => (inl (ErrStore e), (m, db))
          | None =>
              let rows := TerminalTaskRunsSince runID afterSeq db in
              let '(rs, res) := RecoverRunState uuid_Parse (iter1 t) (iter2 t) iter3 t checkpoint rows in
              let db := (Transaction (rf_reset rf) (ResetInFlightTasks runID) db).2 in
              let w := NewCheckpointWriter now runID (om_cfg m) in
              let '(_, w, db) := Force (P := Store_persister (rf_force rf)) uuid_String now rs generation w db in
              (inr res, ((put runID (mkOwnedRun rs w generation) m).1, db))
          end
      end
  end.

(** The final checkpoint is best effort. *)
Definition Drop (cf : checkpoint_faults) (now : Z) (runID : uuid) (m : OwnerManager) (db : DB) : OwnerManager * DB :=
  match get runID m with
  | None => (m, db)
  | Some or =>
      let '(_, _, db) := Force (P := Store_persister cf) uuid_String now (or_state or) (or_gen or) (or_writer or) db in
      (set_runs (delete runID (om_runs m)) m, db)
  end.

Definition branchSkipsOf (fault : option store_error) (runID taskID : uuid) (branchSelections : list string) (db : DB)
    : store_error + list uuid :=
  match branchSelections with
  | [] => inr []
  | _ => (Transaction fault (ResolveBranchSkips uuid_String runID taskID branchSelections) db).1
  end.

(** Finalize a finished run and stop tracking it. *)
Definition finalizeRun (mf : complete_faults) (now : Z) (runID : uuid) (hasFailures : bool)
    (m : OwnerManager) (db : DB) : OwnerManager * DB :=
  let runErr := if hasFailures
                then Some ("run " +:+ uuid_String runID +:+ " completed with failed task(s)") else None in
  let db := (Complete (mf_finalize mf) now runID runErr db).2 in
  Drop (mf_drop mf) now runID m db.

Definition ManagerComplete (mf : complete_faults) (now : Z) (runID taskID : uuid)
    (status : TaskStatus) (result errMsg claimedBy : string) (output : gmap string string)
    (branchSelections : list string) (m : OwnerManager) (db : DB)
    : (store_error + CompleteResult) * (OwnerManager * DB) :=
  match get runID m with
  | None => (inr (mkCompleteResult [] false false), (m, db))
  | Some or =>
      match branchSkipsOf (mf_branches mf) runID taskID branchSelections db with
      | inl e => (inl e, (m, db))
      | inr branchSkips =>
          match ApplyCompletion taskID status branchSkips (or_state or) with
          | None => (inl outOfFuel, (m, db))
          | Some (rs, res) =>
              let m := set_runs (<[runID := mkOwnedRun rs (or_writer or) (or_gen or)]> (om_runs m)) m in
              match withStoreBusyRetry (mf_write mf)
                      (CompleteTaskOwner now runID taskID status result errMsg claimedBy output
                         branchSelections (cr_TerminalSequence res) (or_gen or) (cr_Skipped res)) db with
              | (inl e, db) => (inl e, (m, db))
              | (inr _, db) =>
                  let '(_, w, db) := Maybe (P := Store_persister (mf_maybe mf)) uuid_String now rs (or_gen or) (or_writer or) db in
                  let m := set_runs (<[runID := mkOwnedRun rs w (or_gen or)]> (om_runs m)) m in
                  let complete := cr_Complete res in
                  let '(m, db) := if complete
                                  then finalizeRun mf now runID (HasFailures rs) m db else (m, db) in
                  (inr (mkCompleteResult (cr_Ready res) complete true), (m, db))
              end
          end
      end
  end.
End manager.
