(* ===== verification/Durable.v ===== *)
(** What the owner keeps in memory agrees with what it has written: the relation
    between the owner's state and the task rows of a run, its preservation by
    every step of the owner-driven execution (dispatch, the workers' row updates,
    completion with its checkpoints and finalization, takeover after a crash), and
    the theorem that finished work survives any number of crashes. *)

From S2P Require Import Prelude TriggerRule Tables Store TxLogic RunState TaskOps RunOps RunStateInv Advance.
From S2P Require Import OwnerSteps Topology SqlAdvance TaskTheorems OwnerRun OwnerTheorems Recovery Replay.
From S2P Require Import Checkpoints OwnerManager.

#[local] Arguments Updates : simpl never.

(** * Row updates that leave outcomes alone *)

Definition row_calm (r r' : TaskRun) : Prop :=
  task_key r' = task_key r ∧ IsTerminal (tr_Status r') = IsTerminal (tr_Status r) ∧
  (IsTerminal (tr_Status r) = true →
     tr_Status r' = tr_Status r ∧ tr_TerminalSequence r' = tr_TerminalSequence r).

#[export] Instance row_calm_preorder : PreOrder row_calm.
Proof.
  split; [by intros r|]. intros a b c (K1 & S1 & T1) (K2 & S2 & T2).
  split; [congruence|]. split; [congruence|]. intros Ht. destruct (T1 Ht) as [E1 E2].
  destruct T2 as [E3 E4]; [congruence|]. split; congruence.
Qed.

(** Coordination writes: outcomes and checkpoints are as before. *)
Definition calm (db db' : DB) : Prop :=
  run_checkpoints db' = run_checkpoints db ∧ Forall2 row_calm (task_runs db) (task_runs db').

#[export] Instance calm_preorder : PreOrder calm.
Proof.
  split; [by intros db; split|]. intros a b c [E1 F1] [E2 F2]. split; [congruence|by transitivity (task_runs b)].
Qed.

Lemma calm_events : ignores_events calm.
Proof. by intros db evts. Qed.

Definition same_rows (db db' : DB) : Prop := task_runs db' = task_runs db.

#[export] Instance same_rows_preorder : PreOrder same_rows.
Proof. split; [done|]. intros a b c H1 H2. unfold same_rows in *. congruence. Qed.

Lemma same_rows_events : ignores_events same_rows.
Proof. by intros db evts. Qed.

Lemma Forall2_map_r {A} (R : A → A → Prop) (f : A → A) (l : list A) :
  (∀ x, x ∈ l → R x (f x)) → Forall2 R l (map f l).
Proof.
  induction l as [|x l IH]; intros H; constructor; [apply H; set_solver|apply IH; intros; apply H; set_solver].
Qed.

Lemma update_rows p cols db n db' : UpdateTaskRuns p cols db = inr (n, db') →
  task_runs db' = map (λ r, if p r then Updates cols r else r) (task_runs db) ∧
  run_checkpoints db' = run_checkpoints db ∧ n = countb p (task_runs db).
Proof. intros (E & -> & _)%UpdateTaskRuns_spec. done. Qed.

Lemma calm_update p cols : (∀ r, task_key (Updates cols r) = task_key r) →
  (∀ r, p r = true → IsTerminal (tr_Status r) = false) →
  (∀ r, p r = true → IsTerminal (tr_Status (Updates cols r)) = false) → tx_rel calm (UpdateTaskRuns p cols).
Proof.
  intros Hk Hl Hl' db n db' (Er & Ec & _)%update_rows. split; [done|]. rewrite Er. apply Forall2_map_r.
  intros r _. destruct (p r) eqn:Ep; [|done]. split; [apply Hk|].
  rewrite (Hl r Ep), (Hl' r Ep). done.
Qed.

Ltac calm_update :=
  apply calm_update; [done|try unfold claimable; live_guard|].

#[export] Hint Extern 1 (tx_rel calm (recordTaskEventTx _ _ _)) =>
  apply tx_rel_record; [typeclasses eauto|apply calm_events] : tx.

Section coordination.
Context (now : Z) (run task : uuid).

Lemma claim_calm w g ttl b : tx_rel calm (ClaimTaskForDispatch now run task w g ttl b).
Proof. unfold ClaimTaskForDispatch. tx_step; [calm_update; done|tx_solve]. Qed.

Lemma release_calm w g : tx_rel calm (ReleaseTaskClaim run task w g).
Proof. unfold ReleaseTaskClaim. tx_step; [calm_update; done|tx_solve]. Qed.

Lemma ratelimit_calm after : tx_rel calm (RateLimitTask now run task after).
Proof. unfold RateLimitTask. tx_step; [calm_update; done|tx_solve]. Qed.

Lemma started_calm rt w : tx_rel calm (StartTaskClaimed now run task rt w).
Proof.
  unfold StartTaskClaimed. tx_step; [calm_update|tx_solve].
  intros r H. change (tr_Status (Updates _ r)) with (tr_Status r). revert r H. live_guard.
Qed.

Lemma reset_calm : tx_rel calm (ResetInFlightTasks run).
Proof. unfold ResetInFlightTasks. tx_step; [calm_update; done|tx_solve]. Qed.
End coordination.

(** * The owner's state and the rows *)

(** A row of the run against the owner's state [rs], when the newest snapshot is
    that of [rs0]: terminal exactly when the task is, with the same status, a
    number not beyond the cursor, and a number beyond the snapshot exactly when
    the snapshot still has the task as unfinished. *)
Definition row_matches (rs0 rs : RunState) (r : TaskRun) : Prop :=
  IsTerminal (tr_Status r) = terminal_at rs (tr_TaskID r) ∧
  (IsTerminal (tr_Status r) = true →
     status_at rs (tr_TaskID r) = Some (tr_Status r) ∧ tr_TerminalSequence r ≤ seq rs ∧
     (seq rs0 < tr_TerminalSequence r ↔ live_at rs0 (tr_TaskID r) = true)).

Record durable (run : uuid) (rs0 rs : RunState) (rows : list TaskRun) : Prop := {
  du_unique : NoDup (map task_key rows);
  du_inv0 : owner_inv rs0;
  du_inv : owner_inv rs;
  du_topo : topo rs = topo rs0;
  du_kept : ∀ t, terminal_at rs0 t = true → tasks rs !! t = tasks rs0 !! t;
  du_rows : ∀ t, is_Some (tasks rs !! t) → ∃ r, r ∈ rows ∧ task_key r = (run, t);
  du_match : ∀ r, r ∈ rows → tr_JobRunID r = run → row_matches rs0 rs r;
  du_top : seq rs = seq rs0 ∨ ∃ r, r ∈ rows ∧ tr_JobRunID r = run ∧
             IsTerminal (tr_Status r) = true ∧ tr_TerminalSequence r = seq rs;
  du_seq : seq rs0 ≤ seq rs;
}.

Lemma Forall2_elem {A B} (R : A → B → Prop) l l' x : Forall2 R l l' → x ∈ l → ∃ y, y ∈ l' ∧ R x y.
Proof. intros F (i & Hi)%list_elem_of_lookup. destruct (Forall2_lookup_l _ _ _ _ _ F Hi) as (y & Hy & HR).
  exists y. split; [by eapply list_elem_of_lookup_2|done]. Qed.

Lemma Forall2_elem_r {A B} (R : A → B → Prop) l l' y : Forall2 R l l' → y ∈ l' → ∃ x, x ∈ l ∧ R x y.
Proof. intros F (i & Hi)%list_elem_of_lookup. destruct (Forall2_lookup_r _ _ _ _ _ F Hi) as (x & Hx & HR).
  exists x. split; [by eapply list_elem_of_lookup_2|done]. Qed.

Lemma Forall2_keys (R : TaskRun → TaskRun → Prop) rows rows' : (∀ r r', R r r' → task_key r' = task_key r) →
  Forall2 R rows rows' → map task_key rows' = map task_key rows.
Proof. intros HR F. induction F as [|r r' l l' H F IH]; [done|]. simpl. by rewrite IH, (HR _ _ H). Qed.

(** Coordination writes keep the agreement. *)
Lemma durable_calm run rs0 rs rows rows' : Forall2 row_calm rows rows' → durable run rs0 rs rows →
  durable run rs0 rs rows'.
Proof.
  intros F D. assert (∀ r r', row_calm r r' → tr_JobRunID r' = tr_JobRunID r ∧ tr_TaskID r' = tr_TaskID r) as Hk.
  { intros r r' (K & _). unfold task_key in K. by injection K. }
  constructor; try apply D.
  - rewrite (Forall2_keys row_calm rows rows'); [apply D|by intros r r' [? _]|done].
  - intros t (r & Hr & K)%(du_rows _ _ _ _ D). destruct (Forall2_elem _ _ _ _ F Hr) as (r' & Hr' & C).
    exists r'. split; [done|]. destruct C as [-> _]. done.
  - intros r' Hr' Hrun. destruct (Forall2_elem_r _ _ _ _ F Hr') as (r & Hr & C).
    destruct (Hk _ _ C) as [E1 E2]. destruct C as (_ & Es & Et).
    destruct (du_match _ _ _ _ D r Hr) as [M1 M2]; [congruence|]. unfold row_matches. rewrite E2, Es.
    split; [done|]. intros Ht. destruct (Et Ht) as [-> ->]. by apply M2.
  - destruct (du_top _ _ _ _ D) as [?|(r & Hr & Hrun & Ht & Hs)]; [by left|right].
    destruct (Forall2_elem _ _ _ _ F Hr) as (r' & Hr' & C). exists r'. destruct (Hk _ _ C) as [E1 _].
    destruct C as (_ & Es & Et). destruct (Et Ht) as [E3 E4]. repeat split; congruence || done.
Qed.

(** The outcomes of a consistent state are the statuses of its finished tasks. *)
Lemma outcomes_finished rs t : owner_inv rs →
  outcomes rs !! t = (if terminal_at rs t then status_at rs t else None).
Proof.
  intros [B _]. rewrite (b_out _ _ _ B). unfold outcome_of, terminal_at, status_at.
  destruct (tasks rs !! t) as [ts|]; [|done]. simpl. by destruct (IsTerminal (Status ts)).
Qed.

Lemma same_outcomes rs rs' t : owner_inv rs → owner_inv rs' → outcomes rs' = outcomes rs →
  terminal_at rs' t = terminal_at rs t ∧ (terminal_at rs t = true → status_at rs' t = status_at rs t).
Proof.
  intros I I' E. pose proof (outcomes_finished rs t I) as H. pose proof (outcomes_finished rs' t I') as H'.
  rewrite E, H in H'.
  assert (∀ rs, terminal_at rs t = true → is_Some (status_at rs t)) as Hs.
  { intros rs1. unfold terminal_at, status_at. by destruct (tasks rs1 !! t). }
  pose proof (Hs rs) as H1. pose proof (Hs rs') as H2.
  destruct (terminal_at rs t), (terminal_at rs' t); try done.
  - by destruct (H1 eq_refl) as [s Es]; rewrite Es in H'.
  - by destruct (H2 eq_refl) as [s Es]; rewrite Es in H'.
Qed.

Lemma task_exists rs t : owner_inv rs → is_Some (tasks rs !! t) ↔ t ∈ dom (Order (topo rs)).
Proof. intros [B _]. by rewrite <- (b_dom _ _ _ B), elem_of_dom. Qed.

(** A snapshot of a state with the same outcomes makes the tail empty. *)
Lemma durable_rebase run rs0 rs rs' rows : durable run rs0 rs rows → owner_inv rs' → topo rs' = topo rs →
  seq rs' = seq rs → outcomes rs' = outcomes rs → durable run rs' rs' rows.
Proof.
  intros D I' Et Es Eo. pose proof (du_inv _ _ _ _ D) as I.
  constructor; try done; [apply D| | |by left].
  - intros t Ht. apply D. rewrite task_exists in * by done. by rewrite <- Et.
  - intros r Hr Hrun. destruct (du_match _ _ _ _ D r Hr Hrun) as [M1 M2].
    destruct (same_outcomes rs rs' (tr_TaskID r) I I' Eo) as [E1 E2]. split; [congruence|]. intros Ht.
    destruct (M2 Ht) as (S1 & S2 & _). rewrite M1 in Ht. split; [by rewrite E2|]. split; [lia|].
    rewrite terminal_not_live by congruence. split; [lia|done].
Qed.

(** Another state with the same outcomes, over the same snapshot. *)
Lemma durable_same run rs0 rs rs' rows : durable run rs0 rs rows → owner_inv rs' → topo rs' = topo rs →
  seq rs' = seq rs → outcomes rs' = outcomes rs →
  (∀ t, terminal_at rs0 t = true → tasks rs' !! t = tasks rs0 !! t) → durable run rs0 rs' rows.
Proof.
  intros D I' Et Es Eo Hk. pose proof (du_inv _ _ _ _ D) as I.
  constructor; try done; try apply D; [rewrite Et; apply D| | |rewrite Es; apply D|rewrite Es; apply D].
  - intros t Ht. apply D. rewrite task_exists in * by done. by rewrite <- Et.
  - intros r Hr Hrun. destruct (du_match _ _ _ _ D r Hr Hrun) as [M1 M2].
    destruct (same_outcomes rs rs' (tr_TaskID r) I I' Eo) as [F1 F2]. split; [congruence|]. intros Ht.
    rewrite F2, Es by congruence. by apply M2.
Qed.

(** Dispatching a task changes no outcome. *)
Lemma durable_dispatch run rs0 rs rows x w at_ le : durable run rs0 rs rows → x ∈ ready rs →
  durable run rs0 (MarkDispatched x w at_ le rs) rows.
Proof.
  intros D Hx. pose proof (du_inv _ _ _ _ D) as I.
  pose proof (MarkDispatched_inv x w at_ le rs I Hx) as I'.
  destruct (MarkDispatched_same x w at_ le rs) as (E1 & E2 & _ & _ & E5).
  assert (∀ t, terminal_at rs t = true → tasks (MarkDispatched x w at_ le rs) !! t = tasks rs !! t) as Hk.
  { intros t Ht. by apply step_terminal_kept; [|constructor|]. }
  constructor; try apply D; try done; [rewrite E1; apply D| | | | |].
  - intros t Ht. rewrite Hk; [by apply D|]. unfold terminal_at in *. by rewrite (du_kept _ _ _ _ D t Ht).
  - intros t Ht. apply D. rewrite task_exists in * by done. by rewrite <- E1.
  - intros r Hr Hrun. destruct (du_match _ _ _ _ D r Hr Hrun) as [M1 M2].
    destruct (same_outcomes rs _ (tr_TaskID r) I I' E5) as [F1 F2]. split; [congruence|]. intros Ht.
    rewrite F2, E2 by congruence. by apply M2.
  - rewrite E2. apply D.
  - rewrite E2. apply D.
Qed.

(** * The terminal write *)

(** A row across the skips: a live row of a skipped task takes the skip's status
    and number, rows of other tasks are untouched. *)
Definition row_skipped (run : uuid) (sks : list SkippedTask) (r r' : TaskRun) : Prop :=
  task_key r' = task_key r ∧
  (∀ sk, sk ∈ sks → task_key r = (run, sk_TaskID sk) → IsTerminal (tr_Status r) = false →
     tr_Status r' = TaskStatusSkipped ∧ tr_TerminalSequence r' = sk_TerminalSequence sk) ∧
  ((∀ sk, sk ∈ sks → task_key r ≠ (run, sk_TaskID sk)) → r' = r).

Lemma persistSkip_rows now run gen sk db db' : persistSkip now run gen sk db = inr ((), db') →
  run_checkpoints db' = run_checkpoints db ∧ Forall2 (row_skipped run [sk]) (task_runs db) (task_runs db').
Proof.
  unfold persistSkip. intros (n & db1 & E1 & E2)%bind_inr. apply update_rows in E1 as (Er & Ec & _).
  assert (calm db1 db' ∧ task_runs db' = task_runs db1) as [[Ec' _] Er'].
  { destruct (n =? 0)%nat; [apply ret_inr in E2 as [_ ->]; done|]. split.
    - eapply (tx_rel_record calm calm_events); exact E2.
    - eapply (tx_rel_record same_rows same_rows_events); exact E2. }
  split; [congruence|]. rewrite Er', Er. apply Forall2_map_r. intros r _.
  destruct (is_task_run run (sk_TaskID sk) r && notTerminal r) eqn:Ep.
  - apply andb_true_iff in Ep as [Hk Hn]. apply is_task_run_key in Hk. split; [done|]. split.
    + intros sk' ->%list_elem_of_singleton _ _. done.
    + intros H. destruct (H sk); [set_solver|done].
  - split; [done|]. split; [|done]. intros sk' ->%list_elem_of_singleton Hk Ht.
    apply andb_false_iff in Ep as [Hk'|Hn]; [|by rewrite notTerminal_spec, Ht in Hn].
    apply is_task_run_key in Hk. congruence.
Qed.

Lemma row_skipped_compose run sk sks r r1 r2 : sk_TaskID sk ∉ map sk_TaskID sks →
  row_skipped run [sk] r r1 → row_skipped run sks r1 r2 → row_skipped run (sk :: sks) r r2.
Proof.
  intros Hn (K1 & S1 & N1) (K2 & S2 & N2).
  assert (∀ sk', sk' ∈ sks → sk_TaskID sk' ≠ sk_TaskID sk) as Hne.
  { intros sk' Hin He. apply Hn. rewrite <- He. by apply list_elem_of_In, in_map, list_elem_of_In. }
  split; [congruence|]. split.
  - intros sk' [->|Hin]%elem_of_cons Hk Ht.
    + rewrite N2; [apply S1; [set_solver|done|done]|]. intros sk2 Hin2. rewrite K1, Hk. intros [=]. by eapply Hne.
    + assert (r1 = r) as ->; [|by eapply S2].
      apply N1. intros sk2 ->%list_elem_of_singleton. rewrite Hk. intros [=]. by eapply Hne.
  - intros H. assert (r1 = r) as ->; [|apply N2; intros; apply H; set_solver].
    apply N1. intros sk2 ->%list_elem_of_singleton. apply H. set_solver.
Qed.

Lemma persistSkips_rows now run gen sks db db' : NoDup (map sk_TaskID sks) →
  forTx sks (persistSkip now run gen) db = inr ((), db') →
  run_checkpoints db' = run_checkpoints db ∧ Forall2 (row_skipped run sks) (task_runs db) (task_runs db').
Proof.
  revert db. induction sks as [|sk sks IH]; intros db Hnd.
  - intros [_ ->]%ret_inr. split; [done|]. apply Forall_Forall2_diag, Forall_forall. intros r _. split; [done|]. split; [|done].
    intros sk Hin. by apply elem_of_nil in Hin.
  - simpl. intros ([] & db1 & E1 & E2)%bind_inr. inversion Hnd as [|? ? Hn Hnd']; subst.
    apply persistSkip_rows in E1 as [Ec1 F1]. apply IH in E2 as [Ec2 F2]; [|done].
    split; [congruence|]. clear -F1 F2 Hn. revert F2. generalize (task_runs db'). induction F1 as [|r r1 l l1 H F1 IHF];
      intros l2 F2; inversion F2; subst; constructor; [by eapply row_skipped_compose|by apply IHF].
Qed.

(** A row across the whole terminal write of task [x]. *)
Definition row_completed (run x : uuid) (s : TaskStatus) (sq : Z) (sks : list SkippedTask) (r r' : TaskRun) : Prop :=
  task_key r' = task_key r ∧
  (task_key r = (run, x) → tr_Status r' = s ∧ tr_TerminalSequence r' = sq) ∧
  (∀ sk, sk ∈ sks → task_key r = (run, sk_TaskID sk) → IsTerminal (tr_Status r) = false →
     tr_Status r' = TaskStatusSkipped ∧ tr_TerminalSequence r' = sk_TerminalSequence sk) ∧
  (task_key r ≠ (run, x) → (∀ sk, sk ∈ sks → task_key r ≠ (run, sk_TaskID sk)) → r' = r).

Lemma claim_key_key run x cb r : claim_key run x cb true r = true → task_key r = (run, x).
Proof. unfold claim_key. intros H. apply is_task_run_key. by apply andb_true_iff in H as [? _]. Qed.

Lemma completion_columns_row now s res err out br sq gen r :
  let r' := Updates (completion_columns now s res err out br sq gen) r in
  task_key r' = task_key r ∧ tr_Status r' = s ∧ tr_TerminalSequence r' = sq.
Proof. unfold completion_columns. repeat case_match; done. Qed.

Lemma CompleteTaskOwner_rows now run x s res err cb out br sq gen sks db db' :
  NoDup (map task_key (task_runs db)) → NoDup (map sk_TaskID sks) → x ∉ map sk_TaskID sks →
  CompleteTaskOwner now run x s res err cb out br sq gen sks db = inr ((), db') →
  run_checkpoints db' = run_checkpoints db ∧
  Forall2 (row_completed run x s sq sks) (task_runs db) (task_runs db').
Proof.
  intros Hu Hnd Hx. unfold CompleteTaskOwner. intros (seen & db0 & E0 & E)%bind_inr.
  apply query_inr in E0 as [_ ->]. destruct (negb _); [done|].
  apply bind_inr in E as (n & db1 & E1 & E). apply update_rows in E1 as (Er & Ec & ->).
  destruct (Nat.eqb_spec (countb (claim_key run x cb true) (task_runs db)) 0) as [|Hn]; [done|].
  apply bind_inr in E as ([] & db2 & E2 & E3).
  assert (run_checkpoints db2 = run_checkpoints db1) as Ec2 by
    (by apply (tx_rel_record calm calm_events) in E2 as [? _]).
  assert (task_runs db2 = task_runs db1) as Er2 by (by apply (tx_rel_record same_rows same_rows_events) in E2).
  apply persistSkips_rows in E3 as [Ec3 F3]; [|done]. split; [congruence|].
  assert (∀ r, r ∈ task_runs db → task_key r = (run, x) → claim_key run x cb true r = true) as Hcl.
  { assert (0 < countb (claim_key run x cb true) (task_runs db))%nat as (r0 & Hr0 & Hc)%countb_pos by lia.
    intros r Hr Hk. rewrite (NoDup_map_eq task_key (task_runs db) r r0 Hu Hr Hr0); [done|].
    rewrite Hk. symmetry. by eapply claim_key_key. }
  rewrite Er2, Er in F3. clear -Hcl F3 Hx. revert F3. generalize (task_runs db').
  induction (task_runs db) as [|r l IH]; intros l' F; inversion F as [|? r' ? l2 (K & S1 & N1) F2]; subst;
    constructor; [|apply IH; [intros; apply Hcl; set_solver|done]].
  specialize (Hcl r ltac:(set_solver)).
  destruct (claim_key run x cb true r) eqn:Ecl.
  - pose proof (claim_key_key _ _ _ _ Ecl) as Hk.
    destruct (completion_columns_row now s res err out br sq gen r) as (K' & Es & Et).
    assert (∀ sk, sk ∈ sks → task_key r ≠ (run, sk_TaskID sk)) as Hne.
    { intros sk Hin. rewrite Hk. intros [= ->]. apply Hx. by apply list_elem_of_In, in_map, list_elem_of_In. }
    rewrite N1 by (by rewrite K'). split; [done|]. split; [done|]. split; [|done].
    intros sk Hin Hk2. by destruct (Hne sk Hin).
  - split; [done|]. split; [intros Hk; by specialize (Hcl Hk)|]. split; [done|]. intros _. apply N1.
Qed.

Lemma live_before run rs0 rs rows t : durable run rs0 rs rows → live_at rs t = true → live_at rs0 t = true.
Proof.
  intros D Hl. destruct (live_has _ _ Hl) as (ts & Hts & Hn).
  assert (is_Some (tasks rs0 !! t)) as [ts0 H0].
  { apply task_exists; [apply D|]. rewrite <- (du_topo _ _ _ _ D). apply task_exists; [apply D|]. by rewrite Hts. }
  destruct (live_at rs0 t) eqn:E; [done|]. rewrite <- Hl. unfold live_at in E. rewrite H0 in E.
  apply negb_false_iff in E. unfold live_at. rewrite (du_kept _ _ _ _ D t), H0; [by rewrite E|].
  unfold terminal_at. by rewrite H0.
Qed.

Lemma stamp_range rs0 rs x s sks sk : effect rs0 rs x s sks → sk ∈ sks →
  seq rs0 + 2 ≤ sk_TerminalSequence sk ≤ seq rs.
Proof.
  intros E Hin. assert (sk_TerminalSequence sk ∈ map sk_TerminalSequence sks) as H
    by (by apply list_elem_of_In, in_map, list_elem_of_In).
  rewrite (ef_stamps _ _ _ _ _ E), elem_of_seqZ in H. rewrite (ef_seq _ _ _ _ _ E). lia.
Qed.

Lemma last_stamp rs0 rs x s sks : effect rs0 rs x s sks →
  seq rs = seq rs0 + 1 ∨ ∃ sk, sk ∈ sks ∧ sk_TerminalSequence sk = seq rs.
Proof.
  intros E. pose proof (ef_seq _ _ _ _ _ E) as Es. destruct (decide (sks = [])) as [->|Hne]; [left; simpl in *; lia|].
  right. assert (seq rs ∈ map sk_TerminalSequence sks) as H.
  { rewrite (ef_stamps _ _ _ _ _ E), elem_of_seqZ. destruct sks; [done|]. simpl in *. lia. }
  apply list_elem_of_In, in_map_iff in H as (sk & <- & Hin). exists sk. by rewrite list_elem_of_In.
Qed.

Section completing.
Context (run : uuid) (rs0 rs rs' : RunState) (rows rows' : list TaskRun) (x : uuid) (s : TaskStatus)
  (branch : list uuid) (res : CompletionResult).
Context (D : durable run rs0 rs rows) (Hx : live_at rs x = true) (Hs : IsTerminal s = true).
Context (C : completion rs x s branch rs' res).
Context (F : Forall2 (row_completed run x s (cr_TerminalSequence res) (cr_Skipped res)) rows rows').

(** The task of every row after the write. *)
Lemma completing_match r r' : r ∈ rows → row_completed run x s (cr_TerminalSequence res) (cr_Skipped res) r r' →
  tr_JobRunID r = run → row_matches rs0 rs' r'.
Proof using D Hx Hs C.
  intros Hr (K & X & S & N) Hrun. pose proof (cp_effect _ _ _ _ _ _ C) as E.
  pose proof (ef_tasks _ _ _ _ _ E (tr_TaskID r)) as Et. pose proof (ef_seq _ _ _ _ _ E) as Eq.
  destruct (du_match _ _ _ _ D r Hr Hrun) as [M1 M2].
  assert (tr_TaskID r' = tr_TaskID r) as Ek by (unfold task_key in K; by injection K).
  assert (task_key r = (run, tr_TaskID r)) as Hk by (unfold task_key; by rewrite Hrun).
  unfold row_matches, terminal_at, status_at. rewrite Ek, Et. pose proof (du_seq _ _ _ _ D) as Hq.
  destruct (decide (tr_TaskID r = x)) as [Ex|Hne].
  - destruct X as [-> ->]; [by rewrite Hk, Ex|]. rewrite Ex in *.
    destruct (live_has _ _ Hx) as (ts & -> & _). simpl. split; [by rewrite Hs|]. intros _.
    split; [done|]. rewrite (cp_seq _ _ _ _ _ _ C), (live_before _ _ _ _ _ D Hx). split; [lia|]. split; [done|lia].
  - case_decide as Hsk.
    + destruct (ef_live _ _ _ _ _ E _ Hsk) as [Hl _]. destruct (live_has _ _ Hl) as (ts & Hts & Hn).
      unfold skipped_ids in Hsk. apply list_elem_of_In, in_map_iff in Hsk as (sk & Hid & Hsk).
      apply list_elem_of_In in Hsk. destruct (S sk Hsk) as [-> ->]; [by rewrite Hid| |].
      { rewrite M1. unfold terminal_at. by rewrite Hts. }
      rewrite Hts. simpl. split; [done|]. intros _. split; [done|].
      destruct (stamp_range _ _ _ _ _ _ E Hsk). rewrite (live_before _ _ _ _ _ D Hl). split; [lia|].
      split; [done|lia].
    + assert (r' = r) as ->.
      { apply N; [by rewrite Hk; intros [=]|]. intros sk Hin. rewrite Hk. intros [=]. apply Hsk.
        unfold skipped_ids. apply list_elem_of_In, in_map_iff. exists sk. by rewrite <- list_elem_of_In. }
      split; [exact M1|]. intros Ht. destruct (M2 Ht) as (? & ? & ?). split; [done|]. split; [lia|done].
Qed.

Lemma completing_row t : is_Some (tasks rs !! t) → ∃ r r', r ∈ rows ∧ r' ∈ rows' ∧ task_key r = (run, t) ∧
  tr_JobRunID r' = run ∧ row_completed run x s (cr_TerminalSequence res) (cr_Skipped res) r r'.
Proof using D F.
  intros (r & Hr & Hk)%(du_rows _ _ _ _ D). destruct (Forall2_elem _ _ _ _ F Hr) as (r' & Hr' & R).
  exists r, r'. split; [done|]. split; [done|]. split; [done|]. split; [|done].
  destruct R as [K _]. rewrite Hk in K. unfold task_key in K. by injection K.
Qed.

Lemma durable_complete : durable run rs0 rs' rows'.
Proof using All.
  pose proof (cp_effect _ _ _ _ _ _ C) as E. pose proof (ef_seq _ _ _ _ _ E) as Eq.
  assert (∀ t, is_Some (tasks rs' !! t) → is_Some (tasks rs !! t)) as Hdom.
  { intros t. rewrite !task_exists by (apply C || apply D). by rewrite (ef_topo _ _ _ _ _ E). }
  constructor; try apply D; [| |by rewrite (ef_topo _ _ _ _ _ E); apply D| | | | |].
  - erewrite Forall2_keys; [apply D| |exact F]. by intros r r' [? _].
  - apply C.
  - intros t Ht. pose proof (du_kept _ _ _ _ D t Ht) as Hk. rewrite <- Hk.
    eapply effect_terminal; [exact E|done|]. unfold terminal_at in *. by rewrite Hk.
  - intros t (r & r' & _ & Hr' & Hk & _ & K & _)%Hdom%completing_row. exists r'. by rewrite K.
  - intros r' Hr' Hrun. destruct (Forall2_elem_r _ _ _ _ F Hr') as (r & Hr & R).
    apply (completing_match r r' Hr R). destruct R as [K _]. unfold task_key in K. injection K. congruence.
  - right. destruct (last_stamp _ _ _ _ _ E) as [H1|(sk & Hsk & Hq)].
    + destruct (live_has _ _ Hx) as (ts & Hts & _). destruct (completing_row x) as (r & r' & _ & Hr' & Hk & Hrun & _ & X & _);
        [by rewrite Hts|]. destruct (X Hk) as [E1 E2]. exists r'. rewrite E1, E2, (cp_seq _ _ _ _ _ _ C).
      repeat split; done || lia.
    + assert (sk_TaskID sk ∈ skipped_ids (cr_Skipped res)) as Hin.
      { unfold skipped_ids. by apply list_elem_of_In, in_map, list_elem_of_In. }
      destruct (ef_live _ _ _ _ _ E _ Hin) as [Hl _]. destruct (live_has _ _ Hl) as (ts & Hts & Hn).
      destruct (completing_row (sk_TaskID sk)) as (r & r' & Hr & Hr' & Hk & Hrun & _ & _ & S & _); [by rewrite Hts|].
      destruct (S sk Hsk Hk) as [E1 E2].
      { unfold task_key in Hk. injection Hk as Hk1 Hk2. destruct (du_match _ _ _ _ D r Hr Hk1) as [-> _].
        unfold terminal_at. by rewrite Hk2, Hts. }
      exists r'. rewrite E1, E2. done.
  - pose proof (du_seq _ _ _ _ D). lia.
Qed.
End completing.

(** * The tail a recovering owner reads *)

Lemma fold_max_top {A} (f : A → Z) (l : list A) m top : m ≤ top → (∀ x, x ∈ l → f x ≤ top) →
  m = top ∨ (∃ x, x ∈ l ∧ f x = top) → fold_left (λ m x, Z.max m (f x)) l m = top.
Proof.
  revert m. induction l as [|x l IH]; intros m Hm Hl Ht; simpl.
  - destruct Ht as [?|(x & Hx & _)]; [done|by apply elem_of_nil in Hx].
  - pose proof (Hl x ltac:(set_solver)) as Hx. apply IH; [lia|intros; apply Hl; set_solver|].
    destruct Ht as [->|(y & [->|Hy]%elem_of_cons & E)]; [left; lia|left; lia|right; eauto].
Qed.

Lemma tail_elem run sq db r : r ∈ TerminalTaskRunsSince run sq db ↔
  r ∈ task_runs db ∧ tr_JobRunID r = run ∧ sq < tr_TerminalSequence r ∧ IsTerminal (tr_Status r) = true.
Proof.
  unfold TerminalTaskRunsSince. rewrite sort_stable_perm, select_elem, !andb_true_iff, N.eqb_eq, Z.ltb_lt,
    bool_decide_eq_true, <- IsTerminal_in. tauto.
Qed.

(** The rows beyond the snapshot are exactly the tail between the two states. *)
Lemma durable_tail run rs0 rs db : durable run rs0 rs (task_runs db) →
  tail_of rs0 rs (TerminalTaskRunsSince run (seq rs0) db).
Proof.
  intros D. assert (∀ r, r ∈ TerminalTaskRunsSince run (seq rs0) db →
    row_matches rs0 rs r ∧ IsTerminal (tr_Status r) = true ∧ seq rs0 < tr_TerminalSequence r) as Hin.
  { intros r (Hr & Hrun & Hq & Ht)%tail_elem. split; [by apply D|done]. }
  constructor.
  - unfold row_ids, TerminalTaskRunsSince. rewrite sort_stable_perm.
    pose proof (du_unique _ _ _ _ D) as Hu. clear -Hu. unfold select.
    induction (task_runs db) as [|r l IH]; [constructor|]. inversion Hu as [|? ? Hn Hu']; subst. simpl.
    destruct (_ && _) eqn:Ep; [|by apply IH]. constructor; [|by apply IH].
    intros (r' & He & Hr')%list_elem_of_In%in_map_iff. apply List.filter_In in Hr' as [Hr' Ep'].
    rewrite !andb_true_iff, N.eqb_eq in Ep, Ep'. destruct Ep as [[E1 _] _], Ep' as [[E2 _] _].
    apply Hn. apply list_elem_of_In, in_map_iff. exists r'. split; [|done]. unfold task_key. congruence.
  - intros r Hr. destruct (Hin r Hr) as ([M1 M2] & Ht & Hq). destruct (M2 Ht) as (S1 & _ & S3).
    split; [by apply S3|]. split; [congruence|done].
  - intros t Hl Ht. assert (is_Some (tasks rs !! t)) as (r & Hr & Hk)%(du_rows _ _ _ _ D).
    { unfold terminal_at in Ht. by destruct (tasks rs !! t). }
    unfold task_key in Hk. injection Hk as Hrun Hid. destruct (du_match _ _ _ _ D r Hr Hrun) as [M1 M2].
    rewrite Hid in *. rewrite Ht in M1. destruct (M2 M1) as (_ & _ & S3). apply S3 in Hl.
    unfold row_ids. apply list_elem_of_In, in_map_iff. exists r. split; [done|]. apply list_elem_of_In, tail_elem. done.
  - apply fold_max_top; [apply D| |].
    + intros r Hr. destruct (Hin r Hr) as ([_ M2] & Ht & _). by apply M2.
    + destruct (du_top _ _ _ _ D) as [?|(r & Hr & Hrun & Ht & Hq)]; [by left|]. pose proof (du_seq _ _ _ _ D).
      destruct (decide (seq rs0 = seq rs)); [by left|right]. exists r. split; [|done]. apply tail_elem.
      repeat split; try done. lia.
Qed.

(** * The owner-driven execution of a run *)

Lemma calm_job_runs p f : tx_rel calm (UpdateJobRuns p f).
Proof. intros db n db' E. unfold UpdateJobRuns, Exec in E. destruct (update_where _ _ _). by simplify_eq/=. Qed.

Lemma complete_calm faults now run res db : calm db (Complete faults now run res db).2.
Proof.
  assert (tx_rel calm (completeRunTx now run res)) as H.
  { unfold completeRunTx, run_event, firstRun. tx_solve; try apply calm_job_runs; apply tx_rel_append, calm_events. }
  unfold Complete. destruct (withStoreBusyRetry _ _ db) as [r db'] eqn:E. apply busyRetryLoop_atomic in E.
  assert (calm db db'); [|by repeat case_match; simplify_eq/=].
  destruct r; [by rewrite E|by eapply H].
Qed.

Section system.
Context (uuid_String : uuid → string) (uuid_Parse : string → option uuid).
Context (uuid_Parse_String : ∀ u, uuid_Parse (uuid_String u) = Some u).
Context (iter1 iter2 : RunTopology → list uuid) (iter3 : RunState → list uuid).
Context (Hiter1 : ∀ t, key_order (iter1 t) (Order t)) (Hiter2 : ∀ t, key_order (iter2 t) (Order t)).
Context (Hiter3 : ∀ rs, key_order (iter3 rs) (tasks rs)).
Context (run : uuid) (t0 : RunTopology).

Definition system : Type := OwnerManager * DB.

(** Row updates of the workers: the claim of a dispatched task, its rollback, the
    start and the rate limit. *)
Inductive worker_op : Type :=
| OpClaimed (now : Z) (task : uuid) (worker : string) (gen ttl : Z) (trust : bool)
| OpStarted (now : Z) (task : uuid) (runtimeID claimedBy : string)
| OpReleased (task : uuid) (claimedBy : string) (gen : Z)
| OpRateLimited (now : Z) (task : uuid) (retryAfter : option Z).

Definition worker_tx (op : worker_op) : Tx () :=
  match op with
  | OpClaimed now task w gen ttl trust => ClaimTaskForDispatch now run task w gen ttl trust
  | OpStarted now task rt cb => StartTaskClaimed now run task rt cb
  | OpReleased task cb gen => ReleaseTaskClaim run task cb gen
  | OpRateLimited now task after => RateLimitTask now run task after
  end.

(** Workers update rows; the owner marks a task dispatched that is still queued, or
    whose completion was faster; a completion of an unfinished task is accepted; a
    node that does not track the run (its manager is [m0]) takes it over while the
    stored topology is still the one the run started with; the owner is lost, and a
    node that does not track the run is looked at instead. *)
Inductive sys_step : system → system → Prop :=
| ss_mark x w at_ le m db :
    (∀ or, get run m = Some or → x ∈ ready (or_state or) ∨ terminal_at (or_state or) x = true) →
    sys_step (m, db) (ManagerMarkDispatched run x w at_ le m, db)
| ss_worker op m db db' : worker_tx op db = inr ((), db') → sys_step (m, db) (m, db')
| ss_complete mf now x s result errMsg cb output sel or co m db s' :
    get run m = Some or → live_at (or_state or) x = true → IsTerminal s = true →
    ManagerComplete uuid_String mf now run x s result errMsg cb output sel m db = (inr co, s') →
    sys_step (m, db) s'
| ss_takeover rf now gen res m m0 db s' :
    LoadRunTopology db run = inr t0 → get run m0 = None →
    Recover uuid_String uuid_Parse iter1 iter2 iter3 rf now run gen m0 db = (inr res, s') →
    sys_step (m, db) s'
| ss_lost m m0 db : get run m0 = None → sys_step (m, db) (m0, db).

(** The execution has reached the logical state [rs]: the rows record it, and
    the manager that tracks the run holds it. *)
Definition stored (rs : RunState) (db : DB) : Prop :=
  ∃ rs0, durable run rs0 rs (task_runs db) ∧
    checkpoint_of uuid_String (iter1 t0) (iter2 t0) t0 (LatestFullCheckpoint run db) rs0 ∧
    (LatestFullCheckpoint run db = None → seq rs0 = 0).

Definition tracked (rs : RunState) (m : OwnerManager) : Prop :=
  ∀ or, get run m = Some or → or_state or = rs ∧ cw_runID (or_writer or) = run.

Definition at_state (s : system) (rs : RunState) : Prop :=
  topo rs = t0 ∧ stored rs s.2 ∧ tracked rs s.1.

Lemma stored_calm rs db db' : calm db db' → stored rs db → stored rs db'.
Proof.
  intros [Ec Fc] (rs0 & D & H1 & H2). exists rs0. unfold LatestFullCheckpoint in *. rewrite Ec.
  split; [by eapply durable_calm|done].
Qed.

Lemma worker_calm op : tx_rel calm (worker_tx op).
Proof. destruct op; [apply claim_calm|apply started_calm|apply release_calm|apply ratelimit_calm]. Qed.

(** Writing a snapshot of a state with the outcomes of the recorded one: written,
    it is the new starting point; lost, the old one still serves. *)
Lemma force_stored rs0 rs rs' cf now gen w db e w' db' : cw_runID w = run →
  durable run rs0 rs (task_runs db) →
  checkpoint_of uuid_String (iter1 t0) (iter2 t0) t0 (LatestFullCheckpoint run db) rs0 →
  (LatestFullCheckpoint run db = None → seq rs0 = 0) → owner_inv rs' →
  topo rs' = topo rs → seq rs' = seq rs → outcomes rs' = outcomes rs →
  (∀ t, terminal_at rs0 t = true → tasks rs' !! t = tasks rs0 !! t) →
  Force (P := Store_persister cf) uuid_String now rs' gen w db = (e, w', db') → stored rs' db' ∧ cw_runID w' = run.
Proof.
  intros Hw D Hcp H0 I' Et Es Eo Hk HF.
  assert (task_runs db' = task_runs db) as Er by (rewrite <- (Force_rows uuid_String cf now rs' gen w db); by rewrite HF).
  destruct (Force_latest uuid_String LatestFullCheckpoint now rs' gen w db e w' db' HF) as (Hr & _ & HL).
  { rewrite Hw. intros cp Hl. rewrite Hl in Hcp. destruct Hcp as [_ ->]. rewrite Es. apply D. }
  rewrite Hw in *. split; [|done]. destruct HL as [[HL _]|(_ & _ & e' & HE)].
  - exists rs'. rewrite HL, Er. split; [by eapply durable_rebase|]. split; [done|done].
  - apply retried_spec in HE as [[? _]|[_ ->]]; [done|]. exists rs0. split; [by eapply durable_same|done].
Qed.

Lemma stored_inv rs db : stored rs db → owner_inv rs.
Proof. intros (rs0 & D & _). apply D. Qed.

Lemma maybe_stored rs cf now gen w db e w' db' : cw_runID w = run → stored rs db →
  Maybe (P := Store_persister cf) uuid_String now rs gen w db = (e, w', db') → stored rs db' ∧ cw_runID w' = run.
Proof.
  intros Hw (rs0 & D & H1 & H2). unfold Maybe. destruct (negb _); [intros; simplify_eq; split; [by exists rs0|done]|].
  eapply force_stored; try done; apply D.
Qed.

Lemma drop_stored rs cf now m db m' db' : tracked rs m → stored rs db →
  Drop uuid_String cf now run m db = (m', db') → stored rs db' ∧ tracked rs m'.
Proof.
  intros HT HS. unfold Drop. destruct (get run m) as [or|] eqn:Eg; [|intros; by simplify_eq].
  destruct (HT or Eg) as [-> Hw]. destruct HS as (rs0 & D & H1 & H2).
  destruct (Force uuid_String now rs (or_gen or) (or_writer or) db) as [[e w'] db1] eqn:EF. intros; simplify_eq.
  split; [eapply force_stored; try done; apply D|].
  intros or'. unfold get, set_runs. simpl. by rewrite lookup_delete_eq.
Qed.

Lemma finalize_stored rs mf now b m db m' db' : tracked rs m → stored rs db →
  finalizeRun uuid_String mf now run b m db = (m', db') → stored rs db' ∧ tracked rs m'.
Proof.
  intros HT HS. unfold finalizeRun. cbv zeta. apply drop_stored; [done|].
  eapply stored_calm; [|exact HS]. apply complete_calm.
Qed.

Lemma tracked_insert rs w gen m : cw_runID w = run →
  tracked rs (set_runs (<[run := mkOwnedRun rs w gen]> (om_runs m)) m).
Proof. intros Hw or. unfold get, set_runs. simpl. rewrite lookup_insert_eq. intros. by simplify_eq. Qed.

Definition carried (rs rs' : RunState) : Prop :=
  ∀ t, terminal_at rs t = true → terminal_at rs' t = true ∧ status_at rs' t = status_at rs t.

Lemma carried_same rs rs' : owner_inv rs → owner_inv rs' → outcomes rs' = outcomes rs → carried rs rs'.
Proof.
  intros I I' E t Ht. destruct (same_outcomes rs rs' t I I' E) as [E1 E2]. split; [congruence|by apply E2].
Qed.

Lemma complete_at mf now x s result errMsg cb output sel or co m db s' rs :
  at_state (m, db) rs → get run m = Some or → live_at (or_state or) x = true → IsTerminal s = true →
  ManagerComplete uuid_String mf now run x s result errMsg cb output sel m db = (inr co, s') →
  ∃ rs', at_state s' rs' ∧ carried rs rs'.
Proof.
  intros (Et & (rs0 & D & Hcp & H0) & HT) Hg Hx Hs. unfold ManagerComplete. rewrite Hg. simpl in *.
  destruct (HT or Hg) as [Eor Hw]. rewrite Eor in *. pose proof (du_inv _ _ _ _ D) as I.
  destruct (branchSkipsOf _ _ _ _ _ db) as [e|sk]; [done|].
  destruct (ApplyCompletion x s sk rs) as [[rs1 res]|] eqn:EA; [|done].
  destruct (completion_of _ _ _ _ _ _ I Hs EA) as [[Hd _]|[_ C]]; [congruence|].
  pose proof (cp_effect _ _ _ _ _ _ C) as E.
  destruct (withStoreBusyRetry _ _ db) as [[e|[]] db1] eqn:EC; [done|]. apply busyRetryLoop_atomic in EC.
  apply CompleteTaskOwner_rows in EC as [Ec F]; [|apply D|apply E|].
  2:{ intros Hin. by destruct (ef_live _ _ _ _ _ E _ Hin). }
  assert (stored rs1 db1) as HS1.
  { exists rs0. unfold LatestFullCheckpoint in *. rewrite Ec. split; [by eapply durable_complete|done]. }
  destruct (Maybe _ _ _ _ _ db1) as [[e w] db2] eqn:EM.
  destruct (maybe_stored _ _ _ _ _ _ _ _ _ Hw HS1 EM) as [HS2 Hw2].
  assert (topo rs1 = t0) as Et1 by (rewrite (ef_topo _ _ _ _ _ E); done).
  assert (carried rs rs1) as HC.
  { intros t Ht. pose proof (effect_terminal _ _ _ _ _ _ E Hx Ht) as Hk. unfold terminal_at, status_at in *.
    by rewrite Hk. }
  set (m2 := set_runs (<[run := mkOwnedRun rs1 w (or_gen or)]> _) _).
  assert (tracked rs1 m2) as HT2 by (by apply tracked_insert).
  destruct (cr_Complete res).
  - destruct (finalizeRun _ _ _ _ _ m2 db2) as [m3 db3] eqn:EF. intros; simplify_eq.
    destruct (finalize_stored _ _ _ _ _ _ _ _ HT2 HS2 EF). by exists rs1.
  - intros; simplify_eq. by exists rs1.
Qed.

(** What a successful recovery is made of. *)
Lemma Recover_inr rf now gen m0 db res s' : LoadRunTopology db run = inr t0 →
  Recover uuid_String uuid_Parse iter1 iter2 iter3 rf now run gen m0 db = (inr res, s') →
  ∃ rs' e w db2,
    RecoverRunState uuid_Parse (iter1 t0) (iter2 t0) iter3 t0 (LatestFullCheckpoint run db)
      (TerminalTaskRunsSince run match LatestFullCheckpoint run db with Some cp => cp_SequenceHigh cp | None => 0 end db) =
      (rs', res) ∧
    Force (P := Store_persister (rf_force rf)) uuid_String now rs' gen (NewCheckpointWriter now run (om_cfg m0))
      (Transaction (rf_reset rf) (ResetInFlightTasks run) db).2 = (e, w, db2) ∧
    s' = ((put run (mkOwnedRun rs' w gen) m0).1, db2).
Proof.
  intros HL. unfold Recover, loadTopology. rewrite HL. destruct (rf_topology rf); [done|].
  destruct (rf_checkpoint rf); [done|]. destruct (rf_rows rf); [done|].
  destruct (RecoverRunState _ _ _ _ _ _ _) as [rs' res'] eqn:ER.
  destruct (Force _ _ _ _ _ _) as [[e w] db2] eqn:EF. intros; simplify_eq. by exists rs', e, w, db2.
Qed.

Lemma reset_stored fault db : calm db (Transaction fault (ResetInFlightTasks run) db).2.
Proof.
  unfold Transaction. destruct fault; [reflexivity|].
  destruct (ResetInFlightTasks run db) as [e'|[[] db']] eqn:E; [reflexivity|]. by apply reset_calm in E.
Qed.

Lemma takeover_at rf now gen res m m0 db s' rs : at_state (m, db) rs → LoadRunTopology db run = inr t0 →
  get run m0 = None → Recover uuid_String uuid_Parse iter1 iter2 iter3 rf now run gen m0 db = (inr res, s') →
  ∃ rs', at_state s' rs' ∧ carried rs rs' ∧ is_Some (get run s'.1) ∧
    (∀ t, t ∈ rr_Ready res ↔ t ∈ ready rs ∨ has_status rs t TaskStatusRunning).
Proof using uuid_Parse_String Hiter3.
  intros (Et & (rs0 & D & Hcp & H0) & _) Hload Hg (rs' & e & w & db2 & ER & EF & ->)%Recover_inr; [|done].
  cbn [fst snd] in *.
  replace (match LatestFullCheckpoint run db with Some cp => cp_SequenceHigh cp | None => 0 end) with (seq rs0) in ER
    by (destruct (LatestFullCheckpoint run db); [by destruct Hcp|by rewrite H0]).
  assert (topo rs0 = t0) as Et0 by (rewrite <- (du_topo _ _ _ _ D); done). rewrite <- Et0 in ER, Hcp.
  destruct (recovery_core uuid_String uuid_Parse uuid_Parse_String _ _ _ _ rs0 rs _ rs' res
    (du_inv0 _ _ _ _ D) (du_inv _ _ _ _ D) (du_topo _ _ _ _ D) (du_kept _ _ _ _ D) (durable_tail _ _ _ _ D)
    Hcp H0 Hiter3 ER) as (I' & Et' & Eo & _ & _ & Hrd & Es & _).
  pose proof (λ t, recovery_kept uuid_String uuid_Parse uuid_Parse_String _ _ _ _ rs0 rs _ rs' res t
    (du_inv0 _ _ _ _ D) (du_inv _ _ _ _ D) (du_topo _ _ _ _ D) (du_kept _ _ _ _ D) (durable_tail _ _ _ _ D)
    Hcp H0 Hiter3 ER) as Hk.
  rewrite Et0 in Hcp. destruct (reset_stored (rf_reset rf) db) as [Ec Fc].
  set (db1 := (Transaction (rf_reset rf) (ResetInFlightTasks run) db).2) in *.
  assert (LatestFullCheckpoint run db1 = LatestFullCheckpoint run db) as El by (unfold LatestFullCheckpoint; by rewrite Ec).
  destruct (force_stored rs0 rs rs' (rf_force rf) now gen (NewCheckpointWriter now run (om_cfg m0)) db1 e w db2 eq_refl)
    as [HS2 Hw]; try done; [by eapply durable_calm|by rewrite El|by rewrite El|].
  unfold get in Hg. exists rs'. unfold put, get. rewrite Hg. simpl. rewrite lookup_insert_eq.
  split; [split; [congruence|]; split; [done|by apply tracked_insert]|].
  split; [apply carried_same; try done; apply D|]. split; [by eexists|done].
Qed.

Lemma step_at s s' rs : at_state s rs → sys_step s s' → ∃ rs', at_state s' rs' ∧ carried rs rs'.
Proof using uuid_Parse_String Hiter3.
  intros HA Hs. destruct Hs as [x w at_ le m db Hx|op m db db' HC|
    mf now x st result errMsg cb output sel or co m db s' Hg Hx Hst HC|rf now gen res m m0 db s' HL Hg HR|m m0 db Hg].
  - destruct HA as (Et & HS & HT). simpl in *. unfold ManagerMarkDispatched.
    destruct (get run m) as [or|] eqn:Eg; [|by exists rs; split; [|intros t]]. destruct (HT or Eg) as [Eor Hw].
    specialize (Hx or eq_refl). rewrite Eor in *. destruct Hx as [Hx|Hx].
    + destruct HS as (rs0 & D & Hcp). destruct (MarkDispatched_same x w at_ le rs) as (E1 & _ & _ & _ & E5).
      exists (MarkDispatched x w at_ le rs). split.
      * split; [congruence|]. split; [|by apply tracked_insert]. exists rs0. split; [by apply durable_dispatch|done].
      * apply carried_same; [apply D|by apply (durable_dispatch _ _ _ _ _ w at_ le D)|done].
    + assert (MarkDispatched x w at_ le rs = rs) as ->.
      { unfold MarkDispatched, terminal_at in *. destruct (tasks rs !! x) as [ts|]; [|done]. by rewrite Hx. }
      exists rs. split; [|by intros t]. split; [done|]. split; [done|]. by apply tracked_insert.
  - destruct HA as (Et & HS & HT). exists rs. split; [|by intros t]. split; [done|]. split; [|done].
    by apply (stored_calm _ _ _ (worker_calm op _ _ _ HC)).
  - by eapply complete_at.
  - destruct (takeover_at _ _ _ _ _ _ _ _ _ HA HL Hg HR) as (rs' & H1 & H2 & _). by exists rs'.
  - destruct HA as (Et & HS & _). exists rs. split; [|by intros t]. split; [done|]. split; [done|].
    intros or Hor. simpl in Hor. congruence.
Qed.

Lemma steps_at s s' rs : at_state s rs → rtc sys_step s s' → ∃ rs', at_state s' rs' ∧ carried rs rs'.
Proof using uuid_Parse_String Hiter3.
  intros HA Hs. revert rs HA. induction Hs as [s|s s1 s2 H1 H2 IH]; intros rs HA.
  - exists rs. by split; [|intros t].
  - destruct (step_at _ _ _ HA H1) as (rs1 & HA1 & C1). destruct (IH rs1 HA1) as (rs2 & HA2 & C2).
    exists rs2. split; [done|]. intros t Ht. destruct (C1 t Ht) as [Ht1 E1]. destruct (C2 t Ht1) as [Ht2 E2].
    split; [done|congruence].
Qed.

(** A run just registered: one row per task, none finished, no snapshot. *)
Record registered (db : DB) : Prop := {
  rg_load : LoadRunTopology db run = inr t0;
  rg_unique : NoDup (map task_key (task_runs db));
  rg_rows : ∀ t, t ∈ dom (Order t0) → ∃ r, r ∈ task_runs db ∧ task_key r = (run, t);
  rg_live : ∀ r, r ∈ task_runs db → tr_JobRunID r = run → IsTerminal (tr_Status r) = false;
  rg_none : LatestFullCheckpoint run db = None;
}.

(** A node that does not track the run yet. *)
Lemma registered_at db m : registered db → get run m = None →
  at_state (m, db) (NewRunState (iter1 t0) (iter2 t0) t0 0).
Proof using Hiter1 Hiter2.
  intros [HL Hu Hr Hl Hn] Hg.
  pose proof (NewRunState_fresh (iter1 t0) (iter2 t0) t0 0 (LoadRunTopology_wf _ _ _ HL) (Hiter1 t0) (Hiter2 t0)) as FR.
  destruct FR as [I Et Etk _ Es _]. set (rs := NewRunState _ _ _ _) in *.
  assert (∀ t, terminal_at rs t = false) as Hnt.
  { intros t. unfold terminal_at. rewrite Etk. by case_decide. }
  split; [done|]. split; [|intros or Hor; simpl in Hor; congruence]. exists rs. simpl. rewrite Hn. split; [|done].
  constructor; try done; [| |by left].
  - intros t Ht. apply Hr. rewrite <- Et. by apply task_exists.
  - intros r Hin Hrun. specialize (Hl r Hin Hrun). split; [by rewrite Hl, Hnt|]. by rewrite Hl.
Qed.

Lemma row_at s rs r : at_state s rs → r ∈ task_runs s.2 → tr_JobRunID r = run →
  IsTerminal (tr_Status r) = terminal_at rs (tr_TaskID r) ∧
  (IsTerminal (tr_Status r) = true → status_at rs (tr_TaskID r) = Some (tr_Status r)).
Proof.
  intros (_ & (rs0 & D & _) & _) Hr Hrun. destruct (du_match _ _ _ _ D r Hr Hrun) as [M1 M2].
  split; [done|]. intros Ht. by apply M2.
Qed.

(** What every execution from a consistent state keeps: finished rows, and the
    agreement of the tracking node's memory with the rows. *)
Lemma system_safe s0 rs s1 s2 : at_state s0 rs → rtc sys_step s0 s1 → rtc sys_step s1 s2 →
  (∀ r, r ∈ task_runs s1.2 → tr_JobRunID r = run → IsTerminal (tr_Status r) = true →
     ∃ r', r' ∈ task_runs s2.2 ∧ task_key r' = task_key r ∧ tr_Status r' = tr_Status r) ∧
  (∀ or, get run s2.1 = Some or → owner_inv (or_state or) ∧
     ∀ r, r ∈ task_runs s2.2 → tr_JobRunID r = run →
       IsTerminal (tr_Status r) = terminal_at (or_state or) (tr_TaskID r) ∧
       (IsTerminal (tr_Status r) = true → status_at (or_state or) (tr_TaskID r) = Some (tr_Status r))).
Proof using uuid_Parse_String Hiter3.
  intros HA H1 H2. destruct (steps_at _ _ _ HA H1) as (rs1 & HA1 & _).
  destruct (steps_at _ _ _ HA1 H2) as (rs2 & HA2 & C). split.
  - intros r Hr Hrun Ht. destruct (row_at _ _ _ HA1 Hr Hrun) as [M1 M2]. rewrite M1 in Ht.
    destruct (C _ Ht) as [Ht2 E]. destruct HA2 as (Et2 & (rs0 & D & Hcp) & HT2).
    assert (is_Some (tasks rs2 !! tr_TaskID r)) as (r' & Hr' & Hk)%(du_rows _ _ _ _ D).
    { unfold terminal_at in Ht2. by destruct (tasks rs2 !! tr_TaskID r). }
    exists r'. split; [done|]. split; [rewrite Hk; unfold task_key; by rewrite Hrun|].
    unfold task_key in Hk. injection Hk as Hk1 Hk2. destruct (du_match _ _ _ _ D r' Hr' Hk1) as [N1 N2].
    rewrite Hk2 in *. destruct N2 as [N2 _]; [congruence|]. rewrite M2 in E by congruence. congruence.
  - intros or Hg. destruct (HA2) as (_ & (rs0 & D & _) & HT2). destruct (HT2 or Hg) as [-> _].
    split; [apply D|]. intros r Hr Hrun. by apply (row_at s2).
Qed.
End system.

(** * Instances *)

(** The job of [sql_db], driven by an owner: task 1 is claimed and fails, which
    readies task 2. *)
Definition topo_order (t : RunTopology) : list uuid := elements (dom (Order t)).

Definition demo_cfg : CheckpointConfig := mkCheckpointConfig 10 (5 * second) 2.

Definition sql_topo : RunTopology :=
  match LoadRunTopology sql_start 100 with inr t => t | inl _ => emptyTopology end.

Definition adopted : OwnerManager := (Adopt topo_order topo_order None 0 100 1 (NewOwnerManager demo_cfg) sql_start).2.

Definition tx_result {A} (r : store_error + A * DB) (db : DB) : DB := match r with inr (_, db') => db' | inl _ => db end.

Definition claimed_db : DB := tx_result (ClaimTaskForDispatch 1 100 1 "worker-a" 1 30 true sql_start) sql_start.

Definition claimed_sys : system := (ManagerMarkDispatched 100 1 "worker-a" 1 30 adopted, claimed_db).

Definition failed_sys : system :=
  (ManagerComplete demo_String no_complete_faults 2 100 1 TaskStatusFailed "failure" "" "worker-a" ∅ []
     claimed_sys.1 claimed_sys.2).2.

Lemma sql_registered : registered 100 sql_topo sql_start.
Proof.
  split; [vm_compute; reflexivity|decide_vm| | |vm_compute; reflexivity].
  - intros t Ht. assert (t = 1 ∨ t = 2 ∨ t = 3)%N as [->|[->| ->]].
    { replace (dom (Order sql_topo)) with ({[1; 2; 3]}%N : gset uuid) in Ht by (by vm_compute). set_solver. }
    + exists (sql_row 1 TaskStatusPending "" 0). split; [|done]. simpl. set_solver.
    + exists (sql_row 2 TaskStatusPending "" 1). split; [|done]. simpl. set_solver.
    + exists (sql_row 3 TaskStatusPending "" 1). split; [|done]. simpl. set_solver.
  - intros r Hr. repeat (apply elem_of_cons in Hr as [->|Hr]; [done|]). by apply elem_of_nil in Hr.
Qed.
