(* ===== verification/RateLimit.v ===== *)
(** The durable rate limiter (internal/ratelimit): fixed windows of consumed units
    per resource, their pruning and the resolution of a task's rule, with the
    theorem that a window never grants more units than the limit, provided that all
    requests for the resource declare one window.

    Instants are nanoseconds since the zero time, so [time.Time.Truncate] is a
    modulus. The table is keyed by the start of the window; the code stores its
    RFC3339Nano text, which is injective on UTC instants. [time.ParseDuration] is an
    argument of the rule resolution. *)

From S2P Require Import Prelude Tables.

Definition minute : Z := 60 * 1000000000.

Definition minWindow : Z := minute.

Record RateLimitToken := mkRateLimitToken {
  rt_Resource : string;
  rt_WindowKey : Z;
  rt_Consumed : Z;
  rt_LimitVal : Z;
  rt_ExpiresAt : Z;
}.

Inductive limit_error : Type :=
| ErrResourceRequired
| ErrUnits (resource : string)
| ErrLimit (resource : string)
| ErrNoDeclarations (resource : string)
| ErrDecodeLimits
| ErrWindow (resource : string)
| ErrNotDeclared (resource : string).

Definition NormalizeWindow (window : Z) : Z := if window <? minWindow then minWindow else window.

(** [Truncate]: rounds down to a multiple of the window since the zero time. *)
Definition Truncate (t d : Z) : Z := t - t mod d.

Definition RetryAfter (now window : Z) : Z :=
  let window := NormalizeWindow window in
  let next := Truncate now window + window in
  if next <=? now then 0 else next - now.

Definition same_window (resource : string) (key : Z) (r : RateLimitToken) : bool :=
  (rt_Resource r =s resource) && (rt_WindowKey r =? key).

(** The guarded upsert; the result is the number of rows affected. *)
Definition upsert (resource : string) (key units limit expiresAt : Z) (tbl : list RateLimitToken)
    : list RateLimitToken * nat :=
  if (0 <? countb (same_window resource key) tbl)%nat
  then update_where (λ r, same_window resource key r && (rt_Consumed r + units <=? limit))
         (λ r, mkRateLimitToken (rt_Resource r) (rt_WindowKey r) (rt_Consumed r + units) limit (rt_ExpiresAt r)) tbl
  else (tbl ++ [mkRateLimitToken resource key units limit expiresAt], 1%nat).

Definition Acquire (now : Z) (resource : string) (units limit window : Z) (tbl : list RateLimitToken)
    : (limit_error + bool) * list RateLimitToken :=
  let resource := TrimSpace resource in
  if resource =s "" then (inl ErrResourceRequired, tbl)
  else if units <=? 0 then (inl (ErrUnits resource), tbl)
  else if limit <=? 0 then (inl (ErrLimit resource), tbl)
  else if limit <? units then (inr false, tbl)
  else
    let window := NormalizeWindow window in
    let windowStart := Truncate now window in
    let '(tbl, rows) := upsert resource windowStart units limit (windowStart + window) tbl in
    (inr (rows =? 1)%nat, tbl).

Definition Prune (now : Z) (tbl : list RateLimitToken) : list RateLimitToken * nat :=
  delete_where (λ r, rt_ExpiresAt r <=? now) tbl.

(** * The rule of a task *)

Record RateLimit := mkRateLimit { rld_Resource : string; rld_Limit : Z; rld_Window : string }.

Record Rule := mkRule {
  ru_Resource : string;
  ru_Units : Z;
  ru_Limit : Z;
  ru_Window : Z;
  ru_JobAlias : string;
}.

Section rules.
Context (ParseDuration : string → option Z).

Fixpoint findDeclaration (jobAlias : string) (declarations : list RateLimit) (resource : string) (units : Z)
    : limit_error + option Rule :=
  match declarations with
  | [] => inl (ErrNotDeclared resource)
  | d :: l =>
      if TrimSpace (rld_Resource d) =s resource
      then match ParseDuration (rld_Window d) with
           | None => inl (ErrWindow resource)
           | Some window => inr (Some (mkRule resource units (rld_Limit d) window jobAlias))
           end
      else findDeclaration jobAlias l resource units
  end.

(** [inr None] is the result without a rule. *)
Definition RuleFromRateLimits (jobAlias : string) (declarations : list RateLimit) (resource : string) (units : Z)
    : limit_error + option Rule :=
  let resource := TrimSpace resource in
  if (resource =s "") || (units <=? 0) then inr None
  else findDeclaration jobAlias declarations resource units.

Definition decodeRateLimit (j : json) : option RateLimit :=
  match j with
  | JObj l =>
      resource ← decodeStr (field "resource" l);
      limit ← decodeZ (field "limit" l);
      window ← decodeStr (field "window" l);
      Some (mkRateLimit resource limit window)
  | JNull => Some (mkRateLimit "" 0 "")
  | _ => None
  end.

Definition decodeRateLimits (raw : blob) : option (list RateLimit) :=
  match raw with
  | BlobJson (JArr l) => mapM decodeRateLimit l
  | BlobJson JNull => Some []
  | _ => None
  end.

Definition RuleFromDeclarations (jobAlias : string) (raw : blob) (resource : string) (units : Z)
    : limit_error + option Rule :=
  let resource := TrimSpace resource in
  if (resource =s "") || (units <=? 0) then inr None
  else match raw with
       | BlobEmpty => inl (ErrNoDeclarations resource)
       | _ =>
           match decodeRateLimits raw with
           | None => inl ErrDecodeLimits
           | Some declarations => RuleFromRateLimits jobAlias declarations resource units
           end
       end.
End rules.

(** * Theorems *)

Lemma NormalizeWindow_pos w : minute ≤ NormalizeWindow w.
Proof. unfold NormalizeWindow, minWindow. destruct (Z.ltb_spec w minute); lia. Qed.

Lemma Truncate_bounds t d : 0 < d → Truncate t d ≤ t < Truncate t d + d.
Proof. intros Hd. unfold Truncate. pose proof (Z.mod_pos_bound t d Hd). lia. Qed.

(** A clock reading with what happens then. *)
Inductive limit_op : Type :=
| OpAcquire (now : Z) (resource : string) (units limit window : Z)
| OpPrune (now : Z).

Definition op_time (op : limit_op) : Z := match op with OpAcquire now _ _ _ _ => now | OpPrune now => now end.

Definition op_apply (op : limit_op) (tbl : list RateLimitToken) : bool * list RateLimitToken :=
  match op with
  | OpAcquire now resource units limit window =>
      let '(r, tbl) := Acquire now resource units limit window tbl in
      (match r with inr b => b | inl _ => false end, tbl)
  | OpPrune now => (false, (Prune now tbl).1)
  end.

Fixpoint clock_monotone (now : Z) (ops : list limit_op) : Prop :=
  match ops with [] => True | op :: l => now ≤ op_time op ∧ clock_monotone (op_time op) l end.

Section window.
Context (resource : string) (limit window : Z).

(** Units an operation asks of the window that starts at [key]. *)
Definition asks (key : Z) (op : limit_op) : Z :=
  match op with
  | OpAcquire now res units _ _ =>
      if (TrimSpace res =s resource) && (Truncate now window =? key) then units else 0
  | OpPrune _ => 0
  end.

(** Units granted from that window over a sequence of operations. *)
Fixpoint granted (key : Z) (ops : list limit_op) (tbl : list RateLimitToken) : Z :=
  match ops with
  | [] => 0
  | op :: l => let '(b, tbl') := op_apply op tbl in (if b then asks key op else 0) + granted key l tbl'
  end.

(** A use of the resource declares the window and at most the limit. *)
Definition declared (op : limit_op) : Prop :=
  match op with
  | OpAcquire _ res _ l w => TrimSpace res = resource → l ≤ limit ∧ NormalizeWindow w = window
  | OpPrune _ => True
  end.

(** [g key] are the units granted so far. *)
Record window_inv (now : Z) (g : Z → Z) (tbl : list RateLimitToken) : Prop := {
  wi_unique : NoDup (map (λ r, (rt_Resource r, rt_WindowKey r)) tbl);
  wi_row : ∀ r, r ∈ tbl → rt_Resource r = resource →
    rt_Consumed r = g (rt_WindowKey r) ∧ rt_ExpiresAt r = rt_WindowKey r + window;
  wi_none : ∀ k, (∀ r, r ∈ tbl → same_window resource k r = false) → g k = 0 ∨ k + window ≤ now;
  wi_limit : ∀ k, g k ≤ limit;
}.

Definition add_grant (k u : Z) (g : Z → Z) : Z → Z := λ k', if k' =? k then g k' + u else g k'.

Lemma same_window_spec res k r : same_window res k r = true ↔ rt_Resource r = res ∧ rt_WindowKey r = k.
Proof. unfold same_window, str_eqb. rewrite andb_true_iff, bool_decide_eq_true, Z.eqb_eq. done. Qed.

Lemma prune_inv now now' g tbl : now ≤ now' → window_inv now g tbl → window_inv now' g (Prune now' tbl).1.
Proof.
  intros Hn [H1 H2 H3 H4]. split; [|intros r [Hr _]%delete_elem; by apply H2| |done].
  - unfold Prune, delete_where. simpl. clear -H1. induction tbl as [|r tbl IH]; [constructor|].
    inversion H1 as [|? ? Hx Hnd]; subst. simpl. destruct (_ <=? _); simpl; [by apply IH|].
    constructor; [|by apply IH]. intros (r' & He & [Hin _]%List.filter_In)%list_elem_of_In%in_map_iff.
    apply Hx, list_elem_of_In, in_map_iff. by exists r'.
  - intros k Hk. destruct (decide (0 < countb (same_window resource k) tbl)%nat) as [(r & Hr & Hs)%countb_pos|Hno].
    + destruct (Z.leb_spec (rt_ExpiresAt r) now') as [He|He].
      * apply same_window_spec in Hs as [Hs1 Hs2]. destruct (H2 r Hr Hs1) as [_ Hx]. right. rewrite <- Hs2. lia.
      * rewrite (Hk r) in Hs; [done|]. apply delete_elem. split; [done|]. by apply Z.leb_gt.
    + destruct (H3 k) as [?|?]; [|by left|right; lia]. intros r Hr. destruct (same_window resource k r) eqn:E; [|done].
      destruct Hno. apply countb_pos. by exists r.
Qed.

Lemma window_unique tbl res k r r' : NoDup (map (λ r, (rt_Resource r, rt_WindowKey r)) tbl) →
  r ∈ tbl → r' ∈ tbl → same_window res k r = true → same_window res k r' = true → r = r'.
Proof.
  rewrite !same_window_spec. induction tbl as [|x tbl IH]; intros Hnd Hr Hr' [E1 E2] [E3 E4]; [by apply elem_of_nil in Hr|].
  inversion Hnd as [|? ? Hx Hnd']; subst. apply elem_of_cons in Hr as [->|Hr], Hr' as [->|Hr']; try done.
  - destruct Hx. simpl. apply list_elem_of_In, in_map_iff. exists r'. rewrite <- list_elem_of_In. split; [congruence|done].
  - destruct Hx. simpl. apply list_elem_of_In, in_map_iff. exists r. rewrite <- list_elem_of_In. split; [congruence|done].
  - by apply IH.
Qed.

Lemma countb_unique {A} (p : A → bool) (f : A → string * Z) l r : NoDup (map f l) → r ∈ l → p r = true →
  (∀ r', r' ∈ l → p r' = true → r' = r) → countb p l = 1%nat.
Proof.
  induction l as [|x l IH]; intros Hnd Hr Hp Hu; [by apply elem_of_nil in Hr|]. inversion Hnd as [|? ? Hx Hnd']; subst.
  rewrite countb_cons. apply elem_of_cons in Hr as [->|Hr].
  - rewrite Hp, (proj2 (countb_0 p l)); [done|]. intros y Hy. destruct (p y) eqn:E; [|done].
    rewrite (Hu y) in Hy; [|by apply elem_of_cons; right|done]. destruct Hx. by apply list_elem_of_In, in_map, list_elem_of_In.
  - rewrite IH; [|done..|intros r' Hr'; apply Hu; by apply elem_of_cons; right]. destruct (p x) eqn:E; [|done].
    rewrite <- (Hu x) in Hr; [|by apply elem_of_cons; left|done]. destruct Hx. by apply list_elem_of_In, in_map, list_elem_of_In.
Qed.

(** The three outcomes of the upsert. *)
Lemma upsert_cases tbl res k u l e : NoDup (map (λ r, (rt_Resource r, rt_WindowKey r)) tbl) →
  match upsert res k u l e tbl with
  | (tbl', n) =>
      (n = 0%nat ∧ tbl' = tbl) ∨
      (n = 1%nat ∧ (∀ r, r ∈ tbl → same_window res k r = false) ∧ tbl' = tbl ++ [mkRateLimitToken res k u l e]) ∨
      (n = 1%nat ∧ (∃ r, r ∈ tbl ∧ same_window res k r = true ∧ rt_Consumed r + u ≤ l) ∧
       tbl' = map (λ r, if same_window res k r
                        then mkRateLimitToken (rt_Resource r) (rt_WindowKey r) (rt_Consumed r + u) l (rt_ExpiresAt r)
                        else r) tbl)
  end.
Proof.
  intros Hnd. unfold upsert. destruct (Nat.ltb_spec 0 (countb (same_window res k) tbl)) as [(r & Hr & Hs)%countb_pos|Hz].
  - unfold update_where. assert (∀ r', r' ∈ tbl → same_window res k r' = true → r' = r) as Hu.
    { intros r' Hr' Hs'. by eapply window_unique. }
    destruct (Z.leb_spec (rt_Consumed r + u) l) as [Hl|Hl].
    + right. right. split; [|split; [by exists r|]].
      * eapply countb_unique; [exact Hnd|exact Hr| |]; [by rewrite Hs; apply Z.leb_le|].
        intros r' Hr' [Hs' _]%andb_true_iff. by apply Hu.
      * apply map_ext_in. intros r' Hr'%list_elem_of_In. destruct (same_window res k r') eqn:Es; [|done].
        rewrite (Hu r' Hr' Es). simpl. by rewrite (proj2 (Z.leb_le _ _) Hl).
    + left. assert (∀ r', r' ∈ tbl → same_window res k r' && (rt_Consumed r' + u <=? l) = false) as Hf.
      { intros r' Hr'. destruct (same_window res k r') eqn:Es; [|done]. rewrite (Hu r' Hr' Es). by apply Z.leb_gt. }
      split; [by apply countb_0|]. rewrite <- (map_id tbl) at 2. apply map_ext_in. intros r' Hr'%list_elem_of_In. by rewrite Hf.
  - right. left. split; [done|]. split; [|done]. apply countb_0. lia.
Qed.

(** One request of [res'] at [now'] with window [w]. *)
Section request.
Context (now' : Z) (g : Z → Z) (tbl : list RateLimitToken) (res' : string) (u l w : Z).
Hypothesis window_pos : 0 < window.
Hypothesis request_declared : res' = resource → l ≤ limit ∧ NormalizeWindow w = window.
Hypothesis request_fits : u ≤ l.
Hypothesis inv_before : window_inv now' g tbl.
Let key := Truncate now' (NormalizeWindow w).
Let g' := add_grant (Truncate now' window) (if res' =s resource then u else 0) g.

Lemma insert_inv : (∀ r, r ∈ tbl → same_window res' key r = false) →
  window_inv now' g' (tbl ++ [mkRateLimitToken res' key u l (key + NormalizeWindow w)]).
Proof using window_pos request_declared request_fits inv_before.
  intros Hno. destruct inv_before as [H1 H2 H3 H4]. unfold g'. pose proof request_declared as Hd. pose proof window_pos as Hw.
  split.
  + rewrite map_app. apply NoDup_app. split; [done|]. split; [|apply NoDup_singleton].
    intros p (r & <- & Hr%list_elem_of_In)%list_elem_of_In%in_map_iff Hp%list_elem_of_singleton. simpl in Hp.
    specialize (Hno r Hr). rewrite (proj2 (same_window_spec _ _ _)) in Hno; [done|]. by injection Hp.
  + intros r [Hr| ->%list_elem_of_singleton]%elem_of_app Hres; simpl in *.
    * destruct (H2 r Hr Hres) as [E1 E2]. split; [|done]. unfold add_grant. destruct (Z.eqb_spec (rt_WindowKey r) (Truncate now' window)) as [Ek|]; [|done].
      unfold str_eqb. case_bool_decide as Eres; [|lia]. destruct (Hd Eres) as [_ Ew]. exfalso.
      specialize (Hno r Hr). rewrite (proj2 (same_window_spec _ _ _)) in Hno; [done|]. unfold key. rewrite Ew. split; congruence.
    * destruct (Hd Hres) as [_ Ew]. unfold key. rewrite Ew. split; [|done]. unfold add_grant.
      rewrite Z.eqb_refl. unfold str_eqb. rewrite bool_decide_eq_true_2 by done.
      destruct (H3 (Truncate now' window)) as [E|E]; [|lia|].
      -- intros r Hr. rewrite <- Hres, <- Ew. by apply Hno.
      -- pose proof (Truncate_bounds now' window Hw). lia.
  + intros k Hk. unfold add_grant. assert (∀ r, r ∈ tbl → same_window resource k r = false) as Hk'.
    { intros r Hr. apply Hk. apply elem_of_app. by left. }
    destruct (Z.eqb_spec k (Truncate now' window)) as [->|]; [|by apply H3]. unfold str_eqb. case_bool_decide as Eres.
    * destruct (Hd Eres) as [_ Ew]. specialize (Hk (mkRateLimitToken res' key u l (key + NormalizeWindow w))).
      rewrite (proj2 (same_window_spec _ _ _)) in Hk; [|simpl; unfold key; rewrite Ew; done].
      discriminate Hk. apply elem_of_app. right. by apply list_elem_of_singleton.
    * rewrite Z.add_0_r. by apply H3.
  + intros k. unfold add_grant. destruct (Z.eqb_spec k (Truncate now' window)) as [->|]; [|done].
    unfold str_eqb. case_bool_decide as Eres; [|rewrite Z.add_0_r; done]. destruct (Hd Eres) as [Hll Ew].
    destruct (H3 (Truncate now' window)) as [E|E]; [|lia|pose proof (Truncate_bounds now' window Hw); lia].
    intros r Hr. rewrite <- Eres, <- Ew. by apply Hno.
Qed.

Lemma update_inv r0 : r0 ∈ tbl → same_window res' key r0 = true → rt_Consumed r0 + u ≤ l →
  window_inv now' g' (map (λ r, if same_window res' key r
                                then mkRateLimitToken (rt_Resource r) (rt_WindowKey r) (rt_Consumed r + u) l (rt_ExpiresAt r)
                                else r) tbl).
Proof using request_declared request_fits inv_before.
  intros Hr0 Hs0 Hl0. destruct inv_before as [H1 H2 H3 H4]. unfold g'. pose proof request_declared as Hd.
  pose proof (proj1 (same_window_spec _ _ _) Hs0) as [Er Ek].
  set (f := λ r, if same_window res' key r then mkRateLimitToken (rt_Resource r) (rt_WindowKey r) (rt_Consumed r + u) l (rt_ExpiresAt r) else r).
  assert (∀ r, rt_Resource (f r) = rt_Resource r ∧ rt_WindowKey (f r) = rt_WindowKey r ∧ rt_ExpiresAt (f r) = rt_ExpiresAt r) as Hf.
  { intros r. unfold f. by destruct (same_window res' key r). }
  split.
  + rewrite map_map. rewrite (map_ext _ (λ r, (rt_Resource r, rt_WindowKey r))); [done|]. intros r. by destruct (Hf r) as (-> & -> & _).
  + intros r' (r & <- & Hr%list_elem_of_In)%list_elem_of_In%in_map_iff. destruct (Hf r) as (-> & -> & ->). intros Hres.
    destruct (H2 r Hr Hres) as [E1 E2]. split; [|done]. unfold add_grant, f, str_eqb.
    destruct (same_window res' key r) eqn:Es.
    * apply same_window_spec in Es as [Es1 Es2]. rewrite bool_decide_eq_true_2 by congruence.
      destruct Hd as [_ Ew]; [congruence|]. rewrite Es2. unfold key. rewrite Ew, Z.eqb_refl. simpl. rewrite E1, Es2. unfold key. by rewrite Ew.
    * rewrite E1. case_bool_decide as Eres; [|case_match; lia]. destruct (Hd Eres) as [_ Ew].
      destruct (Z.eqb_spec (rt_WindowKey r) (Truncate now' window)) as [Ekk|]; [|done].
      rewrite (proj2 (same_window_spec _ _ _)) in Es; [done|]. unfold key. rewrite Ew. split; congruence.
  + intros k Hk. unfold add_grant. assert (∀ r, r ∈ tbl → same_window resource k r = false) as Hk'.
    { intros r Hr. rewrite <- (Hk (f r)); [|by apply list_elem_of_In, in_map, list_elem_of_In].
      unfold same_window. by destruct (Hf r) as (-> & -> & _). }
    destruct (Z.eqb_spec k (Truncate now' window)) as [->|]; [|by apply H3]. unfold str_eqb. case_bool_decide as Eres.
    * destruct (Hd Eres) as [_ Ew]. specialize (Hk' r0 Hr0). rewrite <- Ew, <- Eres in Hk'. fold key in Hk'. congruence.
    * rewrite Z.add_0_r. by apply H3.
  + intros k. unfold add_grant. destruct (Z.eqb_spec k (Truncate now' window)) as [->|]; [|done].
    unfold str_eqb. case_bool_decide as Eres; [|rewrite Z.add_0_r; done]. destruct (Hd Eres) as [Hll Ew].
    destruct (H2 r0 Hr0) as [E1 _]; [congruence|]. rewrite E1, Ek in Hl0. unfold key in Hl0. rewrite Ew in Hl0. lia.
Qed.
End request.

Lemma acquire_inv now now' g tbl res u l w b tbl' : 0 < window → now ≤ now' → declared (OpAcquire now' res u l w) →
  window_inv now g tbl → op_apply (OpAcquire now' res u l w) tbl = (b, tbl') →
  window_inv now' (if b then add_grant (Truncate now' window)
    (if TrimSpace res =s resource then u else 0) g else g) tbl'.
Proof.
  intros Hw Hn Hd HI. assert (window_inv now' g tbl) as HI'.
  { destruct HI as [H1 H2 H3 H4]. split; [done..| |done]. intros k Hk. destruct (H3 k Hk); [by left|right; lia]. }
  clear HI. unfold op_apply, Acquire. set (res' := TrimSpace res) in *. unfold declared in Hd. fold res' in Hd.
  destruct (res' =s ""); [intros; by simplify_eq|]. destruct (u <=? 0); [intros; by simplify_eq|].
  destruct (l <=? 0); [intros; by simplify_eq|]. destruct (Z.ltb_spec l u) as [|Hul]; [intros; by simplify_eq|].
  set (key := Truncate now' (NormalizeWindow w)).
  pose proof (upsert_cases tbl res' key u l (key + NormalizeWindow w) (wi_unique _ _ _ HI')) as HC.
  destruct (upsert _ _ _ _ _ tbl) as [t n].
  destruct HC as [[-> ->]|[(-> & Hno & ->)|(-> & (r0 & Hr0 & Hs0 & Hl0) & ->)]]; intros; simplify_eq; [done| |].
  - by apply insert_inv.
  - by eapply update_inv.
Qed.

Lemma add_grant_zero k g : ∀ k', add_grant k 0 g k' = g k'.
Proof. intros k'. unfold add_grant. case_match; lia. Qed.

Lemma granted_bound now g ops tbl key : 0 < window → clock_monotone now ops → Forall declared ops →
  window_inv now g tbl → g key + granted key ops tbl ≤ limit.
Proof.
  intros Hw. revert now g tbl. induction ops as [|op ops IH]; intros now g tbl Hc Hd HI; simpl.
  { rewrite Z.add_0_r. apply HI. }
  destruct Hc as [Hn Hc]. apply Forall_cons in Hd as [Hop Hd]. destruct (op_apply op tbl) as [b tbl'] eqn:E.
  destruct op as [now' res u l w|now']; simpl in *.
  - pose proof (acquire_inv _ _ _ _ _ _ _ _ _ _ Hw Hn Hop HI E) as HI'. specialize (IH _ _ _ Hc Hd HI').
    destruct b; [|lia]. unfold add_grant in IH. rewrite (Z.eqb_sym key) in IH.
    destruct (TrimSpace res =s resource); destruct (Truncate now' window =? key); simpl; lia.
  - simplify_eq. apply (prune_inv _ _ _ _ Hn) in HI. specialize (IH _ _ _ Hc Hd HI). simpl in IH. lia.
Qed.

(** C33: a window never grants more than its limit: starting from an empty table, over
    any sequence of requests for any resources and prunings, with a clock that does
    not run backwards, the units granted for a resource within one fixed window stay
    within the largest limit any request declares for it, if all requests for the
    resource declare the same window (a window below a minute counts as a minute). *)
Theorem window_grants_within_limit now ops key : 0 < window → 0 ≤ limit →
  clock_monotone now ops → Forall declared ops → granted key ops [] ≤ limit.
Proof.
  intros Hw Hl Hc Hd. apply (granted_bound now (λ _, 0) ops [] key Hw Hc Hd). split; [constructor| |by left|done].
  intros r Hr. by apply elem_of_nil in Hr.
Qed.
End window.

(** Three requests of two units against a limit of five in one minute, a pruning of
    the finished window, and a request in the next minute. *)
Definition limit_demo : list limit_op :=
  [OpAcquire 10 "api" 2 5 0; OpAcquire 20 " api " 2 5 minute; OpAcquire 30 "api" 2 5 0;
   OpPrune (minute + 5); OpAcquire (minute + 6) "api" 2 5 0].

Lemma window_grants_within_limit_witness :
  granted "api" minute 0 limit_demo [] = 4 ∧ granted "api" minute minute limit_demo [] = 2 ∧
  granted "api" minute 0 limit_demo [] ≤ 5.
Proof.
  split; [vm_compute; reflexivity|]. split; [vm_compute; reflexivity|].
  apply (window_grants_within_limit "api" 5 minute 0 limit_demo 0).
  - reflexivity.
  - lia.
  - unfold limit_demo, minute. simpl. lia.
  - unfold limit_demo. repeat (apply Forall_cons_2; [first [exact I|intros _; split; [vm_compute; discriminate|reflexivity]]|]). apply Forall_nil_2.
Defined.

(** The condition on the windows is needed: a request with a window of one minute creates
    the row that requests with a window of two minutes share, the row expires after the
    first minute, and once it is pruned the two-minute window starts from zero again: ten
    units are granted within the two minutes against a limit of five. *)
Lemma mixed_windows_exceed_limit :
  granted "api" (2 * minute) 0
    [OpAcquire 10 "api" 5 5 minute; OpPrune (minute + 1); OpAcquire (minute + 2) "api" 5 5 (2 * minute)] [] = 10.
Proof. vm_compute. reflexivity. Qed.

(** [RetryAfter] is the time to the next window: positive, within one window, and
    the instant it names opens the next window. *)
Lemma RetryAfter_next now window :
  let w := NormalizeWindow window in
  0 < RetryAfter now window ≤ w ∧ Truncate (now + RetryAfter now window) w = Truncate now w + w.
Proof.
  intros w. pose proof (NormalizeWindow_pos window) as Hp. fold w in Hp. assert (0 < w) as Hw by (unfold minute in Hp; lia).
  pose proof (Truncate_bounds now w Hw) as Hb. unfold RetryAfter. fold w. rewrite (proj2 (Z.leb_gt _ _)) by lia.
  split; [lia|]. replace (now + (Truncate now w + w - now)) with (Truncate now w + w) by lia.
  unfold Truncate at 1. replace ((Truncate now w + w) mod w) with 0; [lia|]. unfold Truncate.
  replace (now - now mod w + w) with ((now / w + 1) * w); [by rewrite Z.mod_mul by lia|].
  pose proof (Z.div_mod now w). nia.
Qed.
