(* ===== verification/JobDef.v ===== *)
(** Job definitions (pkg/jobdef/definition.go): the document types and the errors of
    their validation.

    A Go map is a list of pairs in the order a [range] over it visits them; the
    theorems hold for every order. A pointer or a map that may be nil is an option.
    Validation normalizes the document in place: each check returns the part it
    may have changed. An error is its format text with the arguments; the double
    quotes of a format text are written as single ones. Display-only metadata
    (labels, annotations, SLA, cache) is left out. *)

From S2P Require Import Prelude Tables RateLimit.

(** * Errors *)

Inductive def_error : Type :=
| Errorf (format : string) (args : list fmt_arg)
with fmt_arg : Type :=
| D (n : nat)
| Q (s : string)
| W (err : def_error).

(** A call that may return an error. *)
Definition checked (A : Type) : Type := def_error + A.
#[export] Instance checked_ret : MRet checked := λ A a, inr a.
#[export] Instance checked_bind : MBind checked := λ A B k m,
  match m with inl e => inl e | inr a => k a end.

Definition fail {A} (e : def_error) : checked A := inl e.

(** [if !b { return err }] *)
Definition require (b : bool) (e : def_error) : checked () := if b then inr () else inl e.

(** [fmt.Errorf("...: %w", err)] around a call. *)
Definition wrap {A} (f : def_error → def_error) (m : checked A) : checked A :=
  match m with inl e => inl (f e) | inr a => inr a end.

(** [for i := range l] over a body that may change the element and threads a state. *)
Fixpoint forEach {A St} (body : nat → A → St → checked (A * St)) (i : nat) (l : list A) (s : St) : checked (list A * St) :=
  match l with
  | [] => mret ([], s)
  | a :: l' =>
      '(a, s) ← body i a s;
      '(l', s) ← forEach body (S i) l' s;
      mret (a :: l', s)
  end.

(** [for _, x := range l] over checks. *)
Fixpoint checkEach {A} (body : nat → A → checked ()) (i : nat) (l : list A) : checked () :=
  match l with
  | [] => mret ()
  | a :: l' => _ ← body i a; checkEach body (S i) l'
  end.

Definition blank (s : string) : bool := TrimSpace s =s "".

Abbreviation object := (list (string * json)).

(** Reading a key of a map. *)
Fixpoint get {V} (k : string) (l : list (string * V)) : option V :=
  match l with
  | [] => None
  | (k', v) :: l' => if k' =s k then Some v else get k l'
  end.

(** [o[k] = v] *)
Definition set (k : string) (v : json) (data : object) : object :=
  (k, v) :: List.filter (λ e, negb (e.1 =s k)) data.

(** * Constants *)

Definition APIVersionV1 : string := "v1".
Definition KindJob : string := "Job".

Definition TriggerCron : string := "cron".
Definition TriggerHTTP : string := "http".
Definition TriggerEvent : string := "event".
Definition TriggerFreshness : string := "freshness".

Definition CallbackNotification : string := "notification".

Definition EngineDocker : string := "docker".
Definition EngineKubernetes : string := "kubernetes".
Definition EnginePodman : string := "podman".

Definition StepTypeTask : string := "task".
Definition StepTypeBranch : string := "branch".

Definition TriggerRules : list string :=
  ["all_success"; "all_done"; "all_failed"; "one_success"; "always"].

Definition ConcurrencyStrategyQueue : string := "queue".
Definition ConcurrencyStrategies : list string := [ConcurrencyStrategyQueue; "replace"; "skip"; "fail"].

Definition DatasetSchemaFromOutput : string := "output".

Definition remediationClasses : list string :=
  ["transient_infra"; "schema_violation"; "sla_risk"; "data_unavailable"; "auth_failure"; "oom"; "quota"; "unknown"].

Definition remediationActions : list string :=
  ["auto_retry_backoff"; "snooze_until_cron"; "snooze_retry"; "retry_from_failure"; "retry_callbacks"; "notify";
   "quarantine_replay"; "rerun_with_params"; "pause_job"; "unpause_job"; "clear_cache_entry";
   "suppress_downstream_alerts"; "extend_sla_once"; "skip_task"; "override_schema_gate"; "apply_jobdef_patch";
   "escalate"].

(** * Metadata, trigger, callbacks *)

Record Concurrency := mkConcurrency { con_MaxRuns : Z; con_Strategy : string }.

Record Arrival := mkArrival { ar_EventType : option string; ar_Watermark : string }.

Record SourceDataset := mkSourceDataset {
  sd_Name : string;
  sd_ExpectedEvery : string;
  sd_Arrival : option Arrival;
  sd_External : bool;
}.

Record MetadataDatasets := mkMetadataDatasets { md_Sources : list SourceDataset; md_SkipWhenFresh : option bool }.

Record RemediationAutonomy := mkRemediationAutonomy {
  ra_Allow : list string;
  ra_ParamOverrides : list (string * list string);
  ra_PerClass : list (string * list string);
  ra_RequireApproval : list string;
}.

Record RemediationEscalation := mkRemediationEscalation { re_Channel : string; re_After : string }.

Record MetadataRemediation := mkMetadataRemediation {
  mr_Profile : string;
  mr_Classes : list string;
  mr_MaxAttempts : Z;
  mr_Autonomy : option RemediationAutonomy;
  mr_Escalation : option RemediationEscalation;
}.

Record Metadata := mkMetadata {
  md_Alias : string;
  md_Priority : string;
  md_Concurrency : option Concurrency;
  md_RateLimits : list RateLimit;
  md_SchemaValidation : string;
  md_ReplaySafe : bool;
  md_Datasets : option MetadataDatasets;
  md_Remediation : option MetadataRemediation;
  md_ServiceAccountName : string;
  md_PodAnnotations : gmap string string;
  md_AutomountServiceAccountToken : option bool;
}.

Record Trigger := mkTrigger {
  tg_Type : string;
  tg_Configuration : option object;
  tg_DefaultParams : list (string * string);
}.

Record Callback := mkCallback { cb_Type : string; cb_Configuration : option object }.

(** * Volumes *)

Record ClaimTemplate := mkClaimTemplate {
  ct_StorageClass : string;
  ct_Size : string;
  ct_AccessMode : string;
  ct_Labels : gmap string string;
  ct_Annotations : gmap string string;
}.

Record TmpfsSource := mkTmpfsSource { tm_SizeBytes : Z; tm_Mode : option Z }.

Record VolumeSource := mkVolumeSource {
  vs_PVC : string;
  vs_ClaimTemplate : option ClaimTemplate;
  vs_VolumeSource : option object;
  vs_Bind : string;
  vs_Volume : string;
  vs_Tmpfs : option TmpfsSource;
}.

Record Volume := mkVolume {
  v_Name : string;
  v_Source : option VolumeSource;
  v_Sources : list (string * VolumeSource);
  v_AccessMode : string;
}.

(** * Container settings (pkg/container/spec.go) *)

Record Mount := mkMount { mt_Type : string; mt_Source : string; mt_Target : string; mt_ReadOnly : bool }.

Record KubernetesClaimTemplate := mkKubernetesClaimTemplate {
  kct_StorageClass : string;
  kct_Size : string;
  kct_AccessMode : string;
  kct_Labels : gmap string string;
  kct_Annotations : gmap string string;
}.

(** A resolved volume mount; the type is one of the six source kinds. *)
Record ResolvedMount := mkResolvedMount {
  rm_Name : string;
  rm_Type : string;
  rm_Source : string;
  rm_Target : string;
  rm_ReadOnly : bool;
  rm_SubPath : string;
  rm_Tmpfs : option TmpfsSource;
  rm_ClaimTemplate : option KubernetesClaimTemplate;
  rm_VolumeSource : option object;
}.

Record KubernetesSpec := mkKubernetesSpec {
  ks_ServiceAccountName : string;
  ks_PodAnnotations : gmap string string;
  ks_AutomountServiceAccountToken : option bool;
  ks_QueueName : string;
}.

Record ContainerSpec := mkContainerSpec {
  cs_Env : gmap string string;
  cs_WorkDir : string;
  cs_Mounts : list Mount;
  cs_ResolvedVolumeMounts : list ResolvedMount;
  cs_Kubernetes : option KubernetesSpec;
}.

(** * Steps *)

Record StepRateLimit := mkStepRateLimit { srl_Resource : string; srl_Units : Z }.

Record VolumeMount := mkVolumeMount {
  vm_Volume : string;
  vm_Path : string;
  vm_ReadOnly : bool;
  vm_SubPath : string;
}.

Record ProducedDataset := mkProducedDataset {
  pd_Name : string;
  pd_Schema : option object;
  pd_SchemaFrom : string;
  pd_Version : Z;
  pd_Freshness : string;
  pd_MaxStaleness : string;
  pd_WatermarkKey : option string;
}.

Record ConsumedDataset := mkConsumedDataset { cd_Name : string; cd_Schema : option object }.

Record StepDatasets := mkStepDatasets { sds_Consumes : list ConsumedDataset; sds_Produces : list ProducedDataset }.

Record Step := mkStep {
  s_Name : string;
  s_Type : string;
  s_Engine : string;
  s_Image : string;
  s_Command : list string;
  s_Next : list string;
  s_DependsOn : list string;
  s_Retries : Z;
  s_RetryDelay : Z;
  s_RetryBackoff : bool;
  s_TriggerRule : string;
  s_ReplaySafe : bool;
  s_Spec : ContainerSpec;
  s_VolumeMounts : list VolumeMount;
  s_ServiceAccountName : string;
  s_PodAnnotations : gmap string string;
  s_AutomountServiceAccountToken : option bool;
  s_Kueue : option string;
  s_RateLimit : option StepRateLimit;
  s_OutputSchema : option object;
  s_InputSchema : list (string * object);
  s_Datasets : option StepDatasets;
  s_NodeSelector : gmap string string;
}.

Definition with_edges (next deps : list string) (s : Step) : Step :=
  mkStep (s_Name s) (s_Type s) (s_Engine s) (s_Image s) (s_Command s) next deps (s_Retries s)
    (s_RetryDelay s) (s_RetryBackoff s) (s_TriggerRule s) (s_ReplaySafe s) (s_Spec s)
    (s_VolumeMounts s) (s_ServiceAccountName s) (s_PodAnnotations s)
    (s_AutomountServiceAccountToken s) (s_Kueue s) (s_RateLimit s) (s_OutputSchema s)
    (s_InputSchema s) (s_Datasets s) (s_NodeSelector s).

Definition with_RateLimit (rl : option StepRateLimit) (s : Step) : Step :=
  mkStep (s_Name s) (s_Type s) (s_Engine s) (s_Image s) (s_Command s) (s_Next s) (s_DependsOn s)
    (s_Retries s) (s_RetryDelay s) (s_RetryBackoff s) (s_TriggerRule s) (s_ReplaySafe s)
    (s_Spec s) (s_VolumeMounts s) (s_ServiceAccountName s) (s_PodAnnotations s)
    (s_AutomountServiceAccountToken s) (s_Kueue s) rl (s_OutputSchema s) (s_InputSchema s)
    (s_Datasets s) (s_NodeSelector s).

Definition with_Datasets (ds : option StepDatasets) (s : Step) : Step :=
  mkStep (s_Name s) (s_Type s) (s_Engine s) (s_Image s) (s_Command s) (s_Next s) (s_DependsOn s)
    (s_Retries s) (s_RetryDelay s) (s_RetryBackoff s) (s_TriggerRule s) (s_ReplaySafe s)
    (s_Spec s) (s_VolumeMounts s) (s_ServiceAccountName s) (s_PodAnnotations s)
    (s_AutomountServiceAccountToken s) (s_Kueue s) (s_RateLimit s) (s_OutputSchema s)
    (s_InputSchema s) ds (s_NodeSelector s).

Record Definition_ := mkDefinition {
  def_APIVersion : string;
  def_Kind : string;
  def_Metadata : Metadata;
  def_Trigger : Trigger;
  def_Callbacks : list Callback;
  def_Volumes : list Volume;
  def_Steps : list Step;
}.

(** * Reading the error monad *)

Lemma bind_ok {A B} (m : checked A) (k : A → checked B) r :
  (m ≫= k) = inr r ↔ ∃ a, m = inr a ∧ k a = inr r.
Proof.
  destruct m as [e|a]; unfold mbind, checked_bind; split; [done|naive_solver|eauto|].
  by intros (? & [= ->] & ?).
Qed.

Lemma require_ok b e u : require b e = inr u ↔ b = true.
Proof. destruct b, u; simpl; naive_solver. Qed.
