(* ===== verification/StepGraph.v ===== *)
(** The step graph of a job definition (pkg/jobdef/definition.go):
    [computeStepAdjacency] with its checks, [DeriveStepSuccessors] and the
    depth-first [detectCycles].

    Go ranges over a map in an unspecified order. Each such loop takes its
    iteration order as an argument, a permutation of the keys; the theorems hold
    for all of them. [computeStepAdjacency] trims the references of the steps it is
    given in place: the trimmed steps are part of its result. *)

From S2P Require Import Prelude Tables RateLimit JobDef.

Abbreviation Names := (gmap string nat).
Abbreviation Adj := (gmap string (gset string)).

(** * Helpers *)

(** The field an edge check reports: [steps[%d].next] or [steps[%d].dependsOn]. *)
Inductive edge_field : Type := FieldNext (i : nat) | FieldDependsOn (i : nat).


Definition ErrDuplicateEntry (field : edge_field) (key : string) : def_error :=
  match field with
  | FieldNext i => Errorf "steps[%d].next contains duplicate entry %q" [D i; Q key]
  | FieldDependsOn i => Errorf "steps[%d].dependsOn contains duplicate entry %q" [D i; Q key]
  end.

Definition ErrEmptyReference (field : edge_field) : def_error :=
  match field with
  | FieldNext i => Errorf "steps[%d].next contains an empty entry" [D i]
  | FieldDependsOn i => Errorf "steps[%d].dependsOn contains an empty entry" [D i]
  end.

Definition ErrUnknownReference (field : edge_field) (ref : string) : def_error :=
  match field with
  | FieldNext i => Errorf "steps[%d].next references unknown step %q" [D i; Q ref]
  | FieldDependsOn i => Errorf "steps[%d].dependsOn references unknown step %q" [D i; Q ref]
  end.

Definition ErrSelfReference (field : edge_field) (ref : string) : def_error :=
  match field with
  | FieldNext i => Errorf "steps[%d].next cannot reference the same step %q" [D i; Q ref]
  | FieldDependsOn i => Errorf "steps[%d].dependsOn cannot reference the same step %q" [D i; Q ref]
  end.

Definition ErrCycle (name : string) : def_error := Errorf "cycle detected involving step %q" [Q name].

Definition trimCopy (values : list string) : list string :=
  List.filter (λ v, negb (v =s "")) (map TrimSpace values).

Fixpoint ensureUniqueLoop (seen : gset string) (entries : list string) (field : edge_field)
    : checked () :=
  match entries with
  | [] => mret ()
  | entry :: l =>
      let key := TrimSpace entry in
      if key =s "" then ensureUniqueLoop seen l field
      else if bool_decide (key ∈ seen) then fail (ErrDuplicateEntry field key)
      else ensureUniqueLoop ({[key]} ∪ seen) l field
  end.

Definition ensureUnique (entries : list string) (field : edge_field) : checked () :=
  ensureUniqueLoop ∅ entries field.

Definition knownEngine (e : string) : bool :=
  (e =s EngineDocker) || (e =s EngineKubernetes) || (e =s EnginePodman).
Definition knownStepType (t : string) : bool := (t =s StepTypeTask) || (t =s StepTypeBranch).
Definition knownTriggerRule (r : string) : bool := bool_decide (r ∈ TriggerRules).

(** * [computeStepAdjacency] *)

(** The first loop: the checks of one step and the name table. *)
Definition checkStep (i : nat) (names : Names) (step : Step) : checked Names :=
  _ ← require (negb (blank (s_Name step))) (Errorf "steps[%d].name is required" [D i]);
  _ ← require (bool_decide (names !! s_Name step = None)) (Errorf "duplicate step name %q" [Q (s_Name step)]);
  _ ← require (negb (blank (s_Image step))) (Errorf "steps[%d].image is required" [D i]);
  _ ← require (knownEngine (s_Engine step)) (Errorf "steps[%d].engine must be one of [docker,kubernetes,podman]" [D i]);
  _ ← require (knownStepType (s_Type step)) (Errorf "steps[%d].type %q must be one of [task,branch]" [D i; Q (s_Type step)]);
  _ ← require (negb ((s_Type step =s StepTypeBranch) && bool_decide (s_Next step = [])))
        (Errorf "steps[%d] is a branch step and must have at least one next entry" [D i]);
  _ ← ensureUnique (s_Next step) (FieldNext i);
  _ ← ensureUnique (s_DependsOn step) (FieldDependsOn i);
  let rule := TrimSpace (s_TriggerRule step) in
  _ ← require ((rule =s "") || knownTriggerRule rule) (Errorf "steps[%d].triggerRule %q must be one of [all_success,all_done,all_failed,one_success,always]" [D i; Q rule]);
  mret (<[s_Name step := i]> names).

Fixpoint checkSteps (i : nat) (names : Names) (steps : list Step) : checked Names :=
  match steps with
  | [] => mret names
  | step :: l => names ← checkStep i names step; checkSteps (S i) names l
  end.

(** The second loop trims the references in place. *)
Definition trimStep (step : Step) : Step :=
  with_edges (trimCopy (s_Next step)) (trimCopy (s_DependsOn step)) step.

Definition explicitEdges (step : Step) : bool :=
  negb (bool_decide (s_Next step = [])) || negb (bool_decide (s_DependsOn step = [])).

(** [ensureAdj(from)[to] = struct{}{}] *)
Definition addTarget (from to : string) (adj : Adj) : Adj :=
  <[from := {[to]} ∪ default ∅ (adj !! from)]> adj.

Definition checkReference (names : Names) (self ref : string) (field : edge_field) : checked () :=
  _ ← require (negb (blank ref)) (ErrEmptyReference field);
  _ ← require (bool_decide (is_Some (names !! ref))) (ErrUnknownReference field ref);
  require (negb (ref =s self)) (ErrSelfReference field ref).

Fixpoint addNext (names : Names) (i : nat) (self : string) (refs : list string) (adj : Adj) : checked Adj :=
  match refs with
  | [] => mret adj
  | successor :: l =>
      _ ← checkReference names self successor (FieldNext i);
      addNext names i self l (addTarget self successor adj)
  end.

Fixpoint addDependsOn (names : Names) (i : nat) (self : string) (refs : list string) (adj : Adj) : checked Adj :=
  match refs with
  | [] => mret adj
  | dependency :: l =>
      _ ← checkReference names self dependency (FieldDependsOn i);
      addDependsOn names i self l (addTarget dependency self adj)
  end.

Fixpoint addStepEdges (names : Names) (i : nat) (steps : list Step) (adj : Adj) : checked Adj :=
  match steps with
  | [] => mret adj
  | step :: l =>
      adj ← addNext names i (s_Name step) (s_Next step) adj;
      adj ← addDependsOn names i (s_Name step) (s_DependsOn step) adj;
      addStepEdges names (S i) l adj
  end.

(** Without explicit edges each step precedes the next one. *)
Fixpoint addChain (steps : list Step) (adj : Adj) : Adj :=
  match steps with
  | a :: l =>
      match l with
      | b :: _ => addChain l (if bool_decide (s_Next a = []) then addTarget (s_Name a) (s_Name b) adj else adj)
      | [] => adj
      end
  | [] => adj
  end.

Definition computeStepAdjacency (steps : list Step) : checked (list Step * Names * Adj) :=
  names ← checkSteps 0 ∅ steps;
  let steps := map trimStep steps in
  let hasExplicitEdges := existsb explicitEdges steps in
  adj ← addStepEdges names 0 steps ∅;
  mret (steps, names, if hasExplicitEdges then adj else addChain steps adj).

Definition targets (adj : Adj) (name : string) : gset string := default ∅ (adj !! name).

(** Byte-wise order of strings, as [slices.Sort] uses it. *)
Definition str_less (a b : string) : bool := match String.compare a b with Lt => true | _ => false end.

(** [DeriveStepSuccessors]; [order] gives each inner range its iteration order. *)
Definition DeriveStepSuccessors (order : gset string → list string) (steps : list Step)
    : checked (list Step * gmap string (list string)) :=
  '(steps, names, adj) ← computeStepAdjacency steps;
  mret (steps, map_imap (λ name _,
    if bool_decide (targets adj name = ∅) then None
    else Some (sort_stable str_less (order (targets adj name)))) names).

(** * [detectCycles] *)

Inductive mark : Type := visiting | visited.
#[export] Instance mark_eq_dec : EqDecision mark.
Proof. solve_decision. Defined.

Abbreviation Marks := (gmap string mark).

(** The loop over the successors of [node], with the recursive call as an argument;
    at its end [node] is marked visited. *)
Fixpoint visitEach (call : string → Marks → option (checked Marks)) (node : string) (l : list string)
    (state : Marks) : option (checked Marks) :=
  match l with
  | [] => Some (inr (<[node := visited]> state))
  | succ :: l' =>
      match call succ state with
      | Some (inr state) => visitEach call node l' state
      | r => r
      end
  end.

Section visit.
Context (succs : string → list string).

(** [None]: the fuel, a bound on the recursion depth, is used up. *)
Fixpoint visit (fuel : nat) (node : string) (state : Marks) : option (checked Marks) :=
  match fuel with
  | O => None
  | S fuel =>
      match state !! node with
      | Some visiting => Some (inl (ErrCycle node))
      | Some visited => Some (inr state)
      | None => visitEach (visit fuel) node (succs node) (<[node := visiting]> state)
      end
  end.

Fixpoint visitAll (fuel : nat) (names : list string) (state : Marks) : option (checked Marks) :=
  match names with
  | [] => Some (inr state)
  | name :: l =>
      match visit fuel name state with
      | Some (inr state) => visitAll fuel l state
      | r => r
      end
  end.
End visit.

(** [order] iterates over the successors of a node, [names_order] over the steps.
    Each nested call marks another step, so the depth stays below one more than the
    number of steps and [errDepth] does not occur ([detectCycles_exact]). *)
Definition errDepth : def_error := Errorf "recursion too deep" [].

Definition detectCycles (order : string → list string) (names_order : list string) (names : Names)
    : checked () :=
  match visitAll order (S (size names)) names_order ∅ with
  | Some (inr _) => mret ()
  | Some (inl e) => fail e
  | None => fail errDepth
  end.
