(* ===== verification/StepTheorems.v ===== *)
(** What the step checks of a job definition guarantee: the cycle detection is
    exact for every map iteration order, and the accepted definitions are the
    well-formed ones. *)

From S2P Require Import Prelude Tables RateLimit JobDef StepGraph.

(** * Depth-first search *)

Section dfs.
Context (succs : string → list string) (U : gset string).
Hypothesis closed : ∀ n s, n ∈ U → s ∈ succs n → s ∈ U.

Definition edge (a b : string) : Prop := b ∈ succs a.

(** The visited steps are closed under successors and ranked by finishing time. *)
Definition ranked (st : Marks) : Prop := ∃ (rank : string → nat) (N : nat),
  ∀ n, st !! n = Some visited → (rank n < N)%nat ∧
    ∀ s, s ∈ succs n → st !! s = Some visited ∧ (rank s < rank n)%nat.

Record search (st : Marks) : Prop := {
  search_dom : dom st ⊆ U;
  search_ranked : ranked st;
}.

(** [st'] extends [st] with finished steps only. *)
Record extends (st st' : Marks) : Prop := {
  ext_marks : ∀ n m, st !! n = Some m → st' !! n = Some m;
  ext_visiting : ∀ n, st' !! n = Some visiting → st !! n = Some visiting;
}.

#[local] Instance extends_trans : Transitive extends.
Proof. intros a b c [H1 H2] [H3 H4]. split; eauto. Qed.
#[local] Instance extends_refl : Reflexive extends.
Proof. by split. Qed.

(** Outcome of a search of [node] that starts with marks [st]. *)
Inductive outcome (st : Marks) (node : string) : option (checked Marks) → Prop :=
| finished st' : search st' → extends st st' → st' !! node = Some visited →
    outcome st node (Some (inr st'))
| cyclic n : n ∈ U → ((∀ v, st !! v = Some visiting → tc edge v node) → tc edge n n) →
    outcome st node (Some (inl (ErrCycle n))).

Definition unmarked (st : Marks) : nat := size (U ∖ dom st).

Lemma unmarked_extends st st' : extends st st' → (unmarked st' ≤ unmarked st)%nat.
Proof.
  intros [H _]. unfold unmarked. apply subseteq_size. intros n Hn. rewrite elem_of_difference, elem_of_dom in Hn |- *.
  destruct Hn as [? Hn]. split; [done|]. intros [m Hm]. apply Hn. eauto.
Qed.

Lemma unmarked_visiting st n : n ∈ U → st !! n = None → (unmarked (<[n := visiting]> st) < unmarked st)%nat.
Proof.
  intros HU Hn. unfold unmarked. apply subset_size. split; [set_solver|]. intros H.
  assert (n ∈ U ∖ dom (<[n:=visiting]> st)) as Hx; [|set_solver].
  apply H. rewrite elem_of_difference, not_elem_of_dom. done.
Qed.

Lemma search_visiting st n : n ∈ U → st !! n = None → search st → search (<[n := visiting]> st).
Proof.
  intros HU Hn [Hd (rank & N & Hr)]. split; [set_solver|]. exists rank, N. intros k Hk.
  apply lookup_insert_Some in Hk as [[_ ?]|[Hne Hk]]; [done|]. destruct (Hr k Hk) as [HN Hs].
  split; [done|]. intros s Hs'. destruct (Hs s Hs') as [Hv ?]. split; [|done].
  rewrite lookup_insert_ne; [done|]. intros <-. congruence.
Qed.

Lemma search_visited st n : n ∈ U → st !! n = Some visiting → search st →
  (∀ s, s ∈ succs n → st !! s = Some visited) → search (<[n := visited]> st).
Proof.
  intros HU Hn [Hd (rank & N & Hr)] Hs. split; [set_solver|].
  exists (λ k, if decide (k = n) then N else rank k), (S N). intros k Hk.
  assert (∀ s, st !! s = Some visited → s ≠ n) as Hne by (intros s ? ->; congruence).
  apply lookup_insert_Some in Hk as [[<- _]|[Hkn Hk]].
  - rewrite decide_True by done. split; [lia|]. intros s Hin. pose proof (Hs s Hin) as Hv.
    rewrite lookup_insert_ne by (symmetry; auto). rewrite decide_False by auto.
    split; [done|]. by apply Hr.
  - rewrite decide_False by done. destruct (Hr k Hk) as [HN Hs']. split; [lia|]. intros s Hin.
    destruct (Hs' s Hin) as [Hv Hlt]. rewrite lookup_insert_ne by (symmetry; auto).
    by rewrite decide_False by auto.
Qed.

(** The loop over the successors, given the outcome of the recursive calls. *)
Lemma visitEach_outcome call node st l : ∀ st1 prefix,
  (∀ n st, n ∈ U → search st → (unmarked st < unmarked st1 + 1)%nat → outcome st n (call n st)) →
  node ∈ U → st !! node = None → succs node = prefix ++ l → search st1 →
  extends (<[node := visiting]> st) st1 → (∀ s, s ∈ prefix → st1 !! s = Some visited) →
  outcome st node (visitEach call node l st1).
Proof using closed.
  induction l as [|s l IH]; intros st1 prefix Hcall HU Hn Hsp H1 Hx Hp; simpl.
  - rewrite app_nil_r in Hsp. assert (st1 !! node = Some visiting) as Hv.
    { apply (ext_marks _ _ Hx), lookup_insert_eq. }
    apply finished; [|split|apply lookup_insert_eq].
    + apply search_visited; [done..|]. by rewrite Hsp.
    + intros n m Hm. assert (n ≠ node) by congruence. rewrite lookup_insert_ne by done.
      apply (ext_marks _ _ Hx). by rewrite lookup_insert_ne.
    + intros n Hm. apply lookup_insert_Some in Hm as [[_ ?]|[? Hm]]; [done|].
      apply (ext_visiting _ _ Hx) in Hm. by rewrite lookup_insert_ne in Hm.
  - assert (s ∈ succs node) as Hs by (rewrite Hsp; set_solver).
    destruct (Hcall s st1) as [st2 H2 Hx2 Hv|n HnU Hc]; [by apply (closed node)|done|lia| |].
    + apply (IH st2 (prefix ++ [s])); [|done|done|by rewrite <- app_assoc|done|by transitivity st1|].
      { intros n' st' ???. apply Hcall; [done..|]. pose proof (unmarked_extends _ _ Hx2). lia. }
      intros s'. rewrite elem_of_app, list_elem_of_singleton. intros [?| ->]; [|done].
      apply (ext_marks _ _ Hx2). auto.
    + apply cyclic; [done|]. intros Hpath. apply Hc. intros v Hv. apply (ext_visiting _ _ Hx) in Hv.
      apply lookup_insert_Some in Hv as [[<- _]|[_ Hv]]; [by apply tc_once|].
      eapply tc_r; [by apply Hpath|done].
Qed.

Lemma visit_outcome fuel : ∀ node st, node ∈ U → search st → (unmarked st < fuel)%nat →
  outcome st node (visit succs fuel node st).
Proof using closed.
  induction fuel as [|fuel IH]; intros node st HU Hst Hf; [lia|]. simpl.
  destruct (st !! node) as [[]|] eqn:E.
  - apply cyclic; [done|]. auto.
  - by apply finished.
  - pose proof (unmarked_visiting st node HU E).
    eapply (visitEach_outcome _ _ _ _ _ []); [|done|done|done|by apply search_visiting|done|set_solver].
    intros n st' ???. apply IH; [done..|]. lia.
Qed.

Lemma visitAll_outcome fuel names : ∀ st, (size U < fuel)%nat → (∀ n, n ∈ names → n ∈ U) → search st →
  (∀ n, st !! n ≠ Some visiting) →
  (∃ st', visitAll succs fuel names st = Some (inr st') ∧ search st' ∧ extends st st' ∧
     ∀ n, n ∈ names → st' !! n = Some visited) ∨
  (∃ n, visitAll succs fuel names st = Some (inl (ErrCycle n)) ∧ n ∈ U ∧ tc edge n n).
Proof using closed.
  induction names as [|n names IH]; intros st Hf HU Hst Hno; simpl.
  { left. exists st. split_and!; [done..|]. set_solver. }
  assert (unmarked st ≤ size U)%nat by (unfold unmarked; apply subseteq_size; set_solver).
  destruct (visit_outcome fuel n st) as [st1 H1 Hx Hv|m Hm Hc]; [set_solver|done|lia| |].
  - destruct (IH st1) as [(st' & E & H' & Hx' & Hall)|(m & E & Hm)]; [done|set_solver|done| | |].
    { intros k Hk. by apply (ext_visiting _ _ Hx) in Hk; apply Hno in Hk. }
    + left. exists st'. rewrite E. split_and!; [done|done|by transitivity st1|].
      intros k. rewrite elem_of_cons. intros [->|Hk]; [|auto]. by apply (ext_marks _ _ Hx').
    + right. eauto.
  - right. exists m. split_and!; [done|done|]. apply Hc. intros v Hv. by apply Hno in Hv.
Qed.
End dfs.

(** * Exactness of the cycle detection *)

Section cycles.
Context (adj : Adj) (names : Names) (order : string → list string) (names_order : list string).
Hypothesis adj_closed : ∀ a b, b ∈ targets adj a → a ∈ dom names ∧ b ∈ dom names.
Hypothesis order_ok : ∀ n, order n ≡ₚ elements (targets adj n).
Hypothesis names_ok : names_order ≡ₚ elements (dom names).

Definition adj_edge (a b : string) : Prop := b ∈ targets adj a.

Lemma order_elem n s : s ∈ order n ↔ s ∈ targets adj n.
Proof using order_ok. by rewrite order_ok, elem_of_elements. Qed.

Lemma detectCycles_exact :
  (detectCycles order names_order names = inr () ∧
   ∃ rank : string → nat, ∀ a b, adj_edge a b → (rank b < rank a)%nat) ∨
  (∃ n, detectCycles order names_order names = inl (ErrCycle n) ∧ n ∈ dom names ∧ tc adj_edge n n).
Proof using adj_closed order_ok names_ok.
  unfold detectCycles.
  assert (∀ n s, n ∈ dom names → s ∈ order n → s ∈ dom names) as Hcl.
  { intros n s _ Hs. apply order_elem in Hs. apply adj_closed in Hs. tauto. }
  destruct (visitAll_outcome order (dom names) Hcl (S (size names)) names_order ∅)
    as [(st & E & [_ (rank & N & Hr)] & _ & Hall)|(n & E & Hn & Hc)].
  - rewrite size_dom. lia.
  - intros n. by rewrite names_ok, elem_of_elements.
  - split; [set_solver|]. exists (λ _, 0%nat), 0%nat. intros n Hn. by rewrite lookup_empty in Hn.
  - intros n. by rewrite lookup_empty.
  - left. rewrite E. split; [done|]. exists rank. intros a b Hab.
    destruct (Hr a) as [_ Hs]; [|by apply Hs, order_elem].
    apply Hall. rewrite names_ok, elem_of_elements. apply adj_closed in Hab. tauto.
  - right. exists n. rewrite E. split_and!; [done|done|].
    assert (∀ a b, tc (edge order) a b → tc adj_edge a b) as Htc; [|by apply Htc].
    clear -order_ok. induction 1 as [a b H|a b c H _ IH].
    + apply tc_once. exact (proj1 (order_elem _ _) H).
    + eapply tc_l; [|exact IH]. exact (proj1 (order_elem _ _) H).
Qed.

(** A ranking and a cycle exclude each other. *)
Lemma ranked_no_cycle (rank : string → nat) n : (∀ a b, adj_edge a b → (rank b < rank a)%nat) → ¬ tc adj_edge n n.
Proof.
  intros Hr Hc. assert (∀ a b, tc adj_edge a b → (rank b < rank a)%nat) as H.
  { induction 1 as [a b H|a b c H _ IH]; [by apply Hr|]. specialize (Hr a b H). lia. }
  specialize (H n n Hc). lia.
Qed.
End cycles.

(** * Trimmed references *)

Lemma trim_left_head s : match trim_left s with String c _ => is_space c = false | EmptyString => True end.
Proof. induction s as [|c s IH]; simpl; [done|]. by destruct (is_space c) eqn:E. Qed.

Lemma trim_left_id s : match s with String c _ => is_space c = false | EmptyString => True end → trim_left s = s.
Proof. destruct s as [|c s]; [done|]. simpl. by intros ->. Qed.

Lemma trim_right_idemp s : trim_right (trim_right s) = trim_right s.
Proof.
  induction s as [|c s IH]; simpl; [done|]. destruct (trim_right s) as [|d t] eqn:E.
  - destruct (is_space c) eqn:Ec; [done|]. simpl. by rewrite Ec.
  - change (trim_right (String c (String d t))) with
      (match trim_right (String d t) with EmptyString => if is_space c then EmptyString else String c EmptyString
       | t => String c t end). by rewrite IH.
Qed.

Lemma TrimSpace_idemp s : TrimSpace (TrimSpace s) = TrimSpace s.
Proof.
  unfold TrimSpace. rewrite (trim_left_id (trim_right _)); [apply trim_right_idemp|].
  pose proof (trim_left_head s) as H. destruct (trim_left s) as [|c t]; [done|]. simpl.
  destruct (trim_right t); [|done]. by rewrite H.
Qed.

Lemma trimCopy_cons v l :
  trimCopy (v :: l) = if TrimSpace v =s "" then trimCopy l else TrimSpace v :: trimCopy l.
Proof. unfold trimCopy. simpl. by destruct (TrimSpace v =s ""). Qed.

Lemma trimCopy_elem l r : r ∈ trimCopy l ↔ r ≠ "" ∧ ∃ v, v ∈ l ∧ r = TrimSpace v.
Proof.
  unfold trimCopy. rewrite list_elem_of_In, filter_In, in_map_iff, negb_true_iff.
  unfold str_eqb. rewrite bool_decide_eq_false. setoid_rewrite list_elem_of_In. naive_solver.
Qed.

Lemma trimCopy_blank l r : r ∈ trimCopy l → blank r = false.
Proof.
  rewrite trimCopy_elem. intros (Hne & v & _ & ->). unfold blank, str_eqb.
  rewrite TrimSpace_idemp. by apply bool_decide_eq_false.
Qed.

(** * Unique references *)

Lemma ensureUniqueLoop_ok seen l field u : ensureUniqueLoop seen l field = inr u ↔
  NoDup (trimCopy l) ∧ ∀ x, x ∈ trimCopy l → x ∉ seen.
Proof.
  destruct u. revert seen. induction l as [|v l IH]; intros seen; simpl.
  { split; [intros _; split; [constructor|set_solver]|done]. }
  rewrite trimCopy_cons. destruct (TrimSpace v =s "") eqn:E; [apply IH|].
  case_bool_decide as Hs.
  - split; [done|]. intros [_ H]. exfalso. by apply (H (TrimSpace v)); [left|].
  - rewrite IH, NoDup_cons. setoid_rewrite elem_of_cons. set_solver.
Qed.

Lemma ensureUnique_ok l field u : ensureUnique l field = inr u ↔ NoDup (trimCopy l).
Proof. unfold ensureUnique. rewrite ensureUniqueLoop_ok. set_solver. Qed.

(** * The accepted definitions *)

(** What a step must satisfy on its own. *)
Record step_shape (s : Step) : Prop := {
  shape_name : blank (s_Name s) = false;
  shape_image : blank (s_Image s) = false;
  shape_engine : s_Engine s ∈ [EngineDocker; EngineKubernetes; EnginePodman];
  shape_type : s_Type s ∈ [StepTypeTask; StepTypeBranch];
  shape_branch : s_Type s = StepTypeBranch → s_Next s ≠ [];
  shape_next : NoDup (trimCopy (s_Next s));
  shape_depends : NoDup (trimCopy (s_DependsOn s));
  shape_rule : TrimSpace (s_TriggerRule s) = "" ∨ TrimSpace (s_TriggerRule s) ∈ TriggerRules;
}.

(** References name another step of the definition. *)
Definition refs_ok (steps : list Step) (s : Step) : Prop :=
  ∀ r, r ∈ trimCopy (s_Next s) ∨ r ∈ trimCopy (s_DependsOn s) → r ∈ map s_Name steps ∧ r ≠ s_Name s.

Record well_formed (steps : list Step) : Prop := {
  wf_shape : ∀ s, s ∈ steps → step_shape s;
  wf_names : NoDup (map s_Name steps);
  wf_refs : ∀ s, s ∈ steps → refs_ok steps s;
}.

(** The precedence the definition declares. *)
Definition explicit_edge (steps : list Step) (a b : string) : Prop :=
  ∃ s, s ∈ steps ∧ ((a = s_Name s ∧ b ∈ trimCopy (s_Next s)) ∨ (b = s_Name s ∧ a ∈ trimCopy (s_DependsOn s))).

Definition step_edge (steps : list Step) (a b : string) : Prop :=
  explicit_edge steps a b ∨
  ((∀ a b, ¬ explicit_edge steps a b) ∧
   ∃ i : nat, map s_Name steps !! i = Some a ∧ map s_Name steps !! S i = Some b).

Fixpoint numbered (i : nat) (steps : list Step) (names : Names) : Names :=
  match steps with
  | [] => names
  | s :: l => numbered (S i) l (<[s_Name s := i]> names)
  end.

Lemma checkStep_ok i names s names' : checkStep i names s = inr names' ↔
  step_shape s ∧ names !! s_Name s = None ∧ names' = <[s_Name s := i]> names.
Proof.
  unfold checkStep. cbv zeta. split.
  - intros H. repeat setoid_rewrite bind_ok in H. setoid_rewrite require_ok in H.
    setoid_rewrite ensureUnique_ok in H.
    destruct H as (_ & H1 & _ & H2 & _ & H3 & _ & H4 & _ & H5 & _ & H6 & _ & H7 & _ & H8 & _ & H9 & [= <-]).
    apply bool_decide_eq_true in H2. split_and!; [|done|done].
    unfold knownEngine, knownStepType, knownTriggerRule, EngineDocker in *. bool_prop.
    split; [done|done| | | |done|done|].
    + rewrite !orb_true_iff, !str_eqb_eq in H4. unfold EngineDocker. set_solver.
    + rewrite !orb_true_iff, !str_eqb_eq in H5. set_solver.
    + intros E En. rewrite E, En, str_eqb_refl in H6. done.
    + rewrite orb_true_iff, str_eqb_eq, bool_decide_eq_true in H9. done.
  - intros ([H1 H3 H4 H5 H6 H7 H8 H9] & H2 & ->).
    repeat (rewrite bind_ok; exists (); split;
      [rewrite ?require_ok, ?ensureUnique_ok; try done|]); [..|done].
    + by rewrite H1.
    + by apply bool_decide_eq_true.
    + by rewrite H3.
    + unfold knownEngine. rewrite !orb_true_iff, !str_eqb_eq. set_solver.
    + unfold knownStepType. rewrite !orb_true_iff, !str_eqb_eq. set_solver.
    + apply negb_true_iff, andb_false_iff. destruct (s_Type s =s StepTypeBranch) eqn:E; [right|by left].
      apply str_eqb_eq in E. apply bool_decide_eq_false. auto.
    + unfold knownTriggerRule. rewrite orb_true_iff, str_eqb_eq, bool_decide_eq_true. done.
Qed.

Lemma checkSteps_ok steps : ∀ i names names', checkSteps i names steps = inr names' ↔
  (∀ s, s ∈ steps → step_shape s ∧ names !! s_Name s = None) ∧ NoDup (map s_Name steps) ∧
  names' = numbered i steps names.
Proof.
  induction steps as [|s l IH]; intros i names names'; simpl.
  { split; [intros [= <-]; split_and!; [set_solver|constructor|done]|by intros (_ & _ & ->)]. }
  rewrite bind_ok. setoid_rewrite checkStep_ok. setoid_rewrite IH. rewrite NoDup_cons. split.
  - intros (n & (Hs & Hn & ->) & Hl & Hnd & ->). split_and!; [|intros Hin|done|done].
    + intros t. rewrite elem_of_cons. intros [->|Ht]; [done|]. destruct (Hl t Ht) as [? H].
      split; [done|]. by apply lookup_insert_None in H as [? _].
    + apply list_elem_of_In, in_map_iff in Hin as (t & Ht & Hin). apply list_elem_of_In in Hin.
      destruct (Hl t Hin) as [_ H]. rewrite Ht, lookup_insert_eq in H. done.
  - intros (Hl & [Hin Hnd] & ->). destruct (Hl s) as [? Hn]; [by left|].
    eexists. split; [by split_and!|]. split_and!; [|done|done]. intros t Ht.
    destruct (Hl t) as [? Hn']; [by right|]. split; [done|]. rewrite lookup_insert_ne; [done|].
    intros E. apply Hin. rewrite E. apply list_elem_of_In, in_map. by apply list_elem_of_In.
Qed.

Lemma numbered_dom steps : ∀ i names, dom (numbered i steps names) = list_to_set (map s_Name steps) ∪ dom names.
Proof. induction steps as [|s l IH]; intros i names; simpl; [set_solver|]. rewrite IH. set_solver. Qed.

Lemma numbered_lookup steps : ∀ i names n k, NoDup (map s_Name steps) → (∀ s, s ∈ steps → names !! s_Name s = None) →
  numbered i steps names !! n = Some k ↔
  names !! n = Some k ∨ ∃ j : nat, k = (i + j)%nat ∧ map s_Name steps !! j = Some n.
Proof.
  induction steps as [|s l IH]; intros i names n k Hnd Hfresh; simpl.
  { split; [by left|]. intros [?|(j & _ & Hj)]; [done|]. by rewrite lookup_nil in Hj. }
  simpl in Hnd. apply NoDup_cons in Hnd as [Hin Hnd]. rewrite IH; [|done|].
  - rewrite lookup_insert_Some. split.
    + intros [[[<- <-]|[Hne H]]|(j & -> & Hj)]; [|by left|].
      * right. exists 0%nat. split; [lia|done].
      * right. exists (S j). split; [lia|done].
    + intros [H|([|j] & -> & Hj)].
      * left. right. split; [|done]. intros E. rewrite <- E, Hfresh in H; [done|by left].
      * left. left. injection Hj as ->. split; [done|lia].
      * right. exists j. split; [lia|done].
  - intros t Ht. rewrite lookup_insert_ne; [apply Hfresh; by right|].
    intros E. apply Hin. rewrite E. apply list_elem_of_In, in_map. by apply list_elem_of_In.
Qed.

(** * The adjacency map *)

Lemma targets_addTarget from to adj a : targets (addTarget from to adj) a =
  if decide (a = from) then {[to]} ∪ targets adj a else targets adj a.
Proof.
  unfold targets, addTarget. destruct (decide (a = from)) as [->|Hne].
  - by rewrite lookup_insert_eq.
  - by rewrite lookup_insert_ne by congruence.
Qed.

Lemma elem_of_addTarget from to adj a b : b ∈ targets (addTarget from to adj) a ↔
  (a = from ∧ b = to) ∨ b ∈ targets adj a.
Proof. rewrite targets_addTarget. case_decide; set_solver. Qed.

Lemma checkReference_ok names self ref field u : checkReference names self ref field = inr u ↔
  blank ref = false ∧ ref ∈ dom names ∧ ref ≠ self.
Proof.
  unfold checkReference, str_eqb. rewrite elem_of_dom. split.
  - rewrite bind_ok. intros (_ & H1%require_ok & H). apply bind_ok in H as (_ & H2%require_ok & H3%require_ok).
    bool_prop. apply bool_decide_eq_true in H2. by apply bool_decide_eq_false in H3.
  - intros (H1 & H2 & H3). rewrite H1. simpl. unfold mbind, checked_bind.
    rewrite bool_decide_eq_true_2, bool_decide_eq_false_2 by done. by destruct u.
Qed.

(** Both reference loops check every entry and add the pairs they list. *)
Lemma addNext_ok names i self refs : ∀ adj adj', addNext names i self refs adj = inr adj' ↔
  (∀ r, r ∈ refs → blank r = false ∧ r ∈ dom names ∧ r ≠ self) ∧
  adj' = fold_left (λ adj r, addTarget self r adj) refs adj.
Proof.
  induction refs as [|r refs IH]; intros adj adj'; simpl.
  { split; [intros [= <-]; set_solver|by intros [_ ->]]. }
  rewrite bind_ok. setoid_rewrite checkReference_ok. setoid_rewrite IH. setoid_rewrite elem_of_cons.
  split; [naive_solver|]. intros [H ->]. exists (). naive_solver.
Qed.

Lemma addDependsOn_ok names i self refs : ∀ adj adj', addDependsOn names i self refs adj = inr adj' ↔
  (∀ r, r ∈ refs → blank r = false ∧ r ∈ dom names ∧ r ≠ self) ∧
  adj' = fold_left (λ adj r, addTarget r self adj) refs adj.
Proof.
  induction refs as [|r refs IH]; intros adj adj'; simpl.
  { split; [intros [= <-]; set_solver|by intros [_ ->]]. }
  rewrite bind_ok. setoid_rewrite checkReference_ok. setoid_rewrite IH. setoid_rewrite elem_of_cons.
  split; [naive_solver|]. intros [H ->]. exists (). naive_solver.
Qed.

(** The pairs of a list of steps with trimmed references. *)
Definition step_pairs (s : Step) : list (string * string) :=
  map (pair (s_Name s)) (s_Next s) ++ map (λ d, (d, s_Name s)) (s_DependsOn s).

Definition addPairs (l : list (string * string)) (adj : Adj) : Adj :=
  fold_left (λ adj p, addTarget p.1 p.2 adj) l adj.

Lemma fold_map {A B C} (f : A → B → A) (g : C → B) (l : list C) a :
  fold_left f (map g l) a = fold_left (λ a c, f a (g c)) l a.
Proof. revert a. induction l as [|c l IH]; intros a; simpl; auto. Qed.

Lemma addStepEdges_ok names steps : ∀ i adj adj', addStepEdges names i steps adj = inr adj' ↔
  (∀ s r, s ∈ steps → r ∈ s_Next s ∨ r ∈ s_DependsOn s → blank r = false ∧ r ∈ dom names ∧ r ≠ s_Name s) ∧
  adj' = addPairs (flat_map step_pairs steps) adj.
Proof.
  induction steps as [|s l IH]; intros i adj adj'; simpl.
  { split; [intros [= <-]; set_solver|by intros [_ ->]]. }
  assert (∀ adj, addPairs (step_pairs s) adj = fold_left (λ adj r, addTarget r (s_Name s) adj) (s_DependsOn s)
    (fold_left (λ adj r, addTarget (s_Name s) r adj) (s_Next s) adj)) as Hpairs.
  { intros a. unfold addPairs, step_pairs. rewrite fold_left_app, !fold_map. done. }
  unfold addPairs in *. rewrite fold_left_app, Hpairs, bind_ok. setoid_rewrite addNext_ok.
  setoid_rewrite bind_ok. setoid_rewrite addDependsOn_ok. setoid_rewrite IH. split.
  - intros (a1 & [H1 ->] & a2 & [H2 ->] & H3 & ->). split; [|done]. intros t r. rewrite elem_of_cons.
    intros [->|Ht] Hr; [|by apply (H3 t)]. destruct Hr; auto.
  - intros [H ->]. eexists. split; [split; [|reflexivity]|].
    { intros r Hr. apply (H s); [by left|by left]. }
    eexists. split; [split; [|reflexivity]|].
    { intros r Hr. apply (H s); [by left|by right]. }
    split; [|done]. intros t r Ht. apply (H t). by right.
Qed.

Lemma addPairs_targets l : ∀ adj a b, b ∈ targets (addPairs l adj) a ↔ (a, b) ∈ l ∨ b ∈ targets adj a.
Proof.
  induction l as [|[x y] l IH]; intros adj a b; [set_solver|]. unfold addPairs in *. simpl.
  rewrite IH, elem_of_addTarget, elem_of_cons. naive_solver.
Qed.

Lemma step_pairs_elem steps a b : (a, b) ∈ flat_map step_pairs (map trimStep steps) ↔ explicit_edge steps a b.
Proof.
  unfold explicit_edge, step_pairs. rewrite list_elem_of_In, in_flat_map. setoid_rewrite in_map_iff. split.
  - intros (t & (s & <- & Hs) & Hp). exists s. apply list_elem_of_In in Hs. split; [done|]. simpl in Hp.
    apply in_app_iff in Hp as [Hp|Hp]; apply in_map_iff in Hp as (r & [= <- <-] & Hr);
      apply list_elem_of_In in Hr; auto.
  - intros (s & Hs & H). exists (trimStep s). split; [exists s; by rewrite <- list_elem_of_In|]. simpl.
    apply in_app_iff. destruct H as [[-> H]|[-> H]]; [left|right]; apply in_map_iff; eexists;
      (split; [reflexivity|by apply list_elem_of_In]).
Qed.

Lemma addChain_targets steps : ∀ adj a b, (∀ s, s ∈ steps → s_Next s = []) →
  b ∈ targets (addChain steps adj) a ↔
  (∃ i : nat, map s_Name steps !! i = Some a ∧ map s_Name steps !! S i = Some b) ∨ b ∈ targets adj a.
Proof.
  induction steps as [|s l IH]; intros adj a b Hn.
  { simpl. split; [by right|]. intros [(i & H & _)|H]; [by rewrite lookup_nil in H|done]. }
  destruct l as [|t l].
  { simpl. split; [by right|]. intros [(i & _ & H)|H]; [|done]. by destruct i. }
  change (addChain (s :: t :: l) adj) with (addChain (t :: l)
    (if bool_decide (s_Next s = []) then addTarget (s_Name s) (s_Name t) adj else adj)).
  rewrite bool_decide_eq_true_2 by (apply Hn; by left). rewrite IH by (intros; apply Hn; by right).
  rewrite elem_of_addTarget. split.
  - intros [(i & H1 & H2)|[[-> ->]|H]]; [left; by exists (S i)|left; by exists 0%nat|by right].
  - intros [([|i] & H1 & H2)|H]; [|left; by exists i|by right; right].
    right. left. simpl in H1, H2. naive_solver.
Qed.

Lemma explicit_edges_test steps : existsb explicitEdges (map trimStep steps) = true ↔ ∃ a b, explicit_edge steps a b.
Proof.
  rewrite existsb_exists. setoid_rewrite in_map_iff. unfold explicitEdges. split.
  - intros (t & (s & <- & Hs) & H). apply list_elem_of_In in Hs. simpl in H.
    rewrite orb_true_iff, !negb_true_iff, !bool_decide_eq_false in H. destruct H as [H|H].
    + destruct (trimCopy (s_Next s)) as [|b k] eqn:E; [done|]. exists (s_Name s), b, s.
      split; [done|]. left. split; [done|]. rewrite E. by left.
    + destruct (trimCopy (s_DependsOn s)) as [|a k] eqn:E; [done|]. exists a, (s_Name s), s.
      split; [done|]. right. split; [done|]. rewrite E. by left.
  - intros (a & b & s & Hs & H). exists (trimStep s). split; [exists s; by rewrite <- list_elem_of_In|].
    simpl. rewrite orb_true_iff, !negb_true_iff, !bool_decide_eq_false.
    destruct H as [[_ H]|[_ H]]; [left|right]; intros E; rewrite E in H; by apply elem_of_nil in H.
Qed.

(** * The contract of [computeStepAdjacency] *)

Lemma map_names_trim steps : map s_Name (map trimStep steps) = map s_Name steps.
Proof. by rewrite map_map. Qed.

Lemma elem_of_names steps n : n ∈ map s_Name steps ↔ ∃ s, s ∈ steps ∧ s_Name s = n.
Proof. rewrite list_elem_of_In, in_map_iff. setoid_rewrite list_elem_of_In. naive_solver. Qed.

Lemma names_dom steps n : n ∈ dom (numbered 0 steps ∅) ↔ n ∈ map s_Name steps.
Proof. rewrite numbered_dom. set_solver. Qed.

Lemma refs_checked steps : (∀ s, s ∈ steps → refs_ok steps s) ↔
  (∀ s r, s ∈ map trimStep steps → r ∈ s_Next s ∨ r ∈ s_DependsOn s →
     blank r = false ∧ r ∈ dom (numbered 0 steps ∅) ∧ r ≠ s_Name s).
Proof.
  setoid_rewrite names_dom. split.
  - intros H t r Ht Hr. apply list_elem_of_In, in_map_iff in Ht as (s & <- & Hs). apply list_elem_of_In in Hs.
    simpl in *. destruct (H s Hs r Hr). split_and!; [|done|done].
    destruct Hr; by eapply trimCopy_blank.
  - intros H s Hs r Hr. destruct (H (trimStep s) r) as (_ & ? & ?); [|done|done].
    apply list_elem_of_In, in_map. by apply list_elem_of_In.
Qed.

Lemma computeStepAdjacency_ok steps steps' names adj :
  computeStepAdjacency steps = inr (steps', names, adj) →
  well_formed steps ∧ steps' = map trimStep steps ∧
  (∀ n i, names !! n = Some i ↔ map s_Name steps !! i = Some n) ∧
  (∀ a b, b ∈ targets adj a ↔ step_edge steps a b).
Proof.
  unfold computeStepAdjacency. rewrite bind_ok. intros (names1 & H1 & H). cbv zeta in H.
  apply bind_ok in H as (adj1 & H2 & [= <- <- <-]).
  apply checkSteps_ok in H1 as (Hs & Hnd & ->). apply addStepEdges_ok in H2 as [Hr ->].
  split_and!; [split; [naive_solver|done|by apply refs_checked]|done| |].
  - intros n i. rewrite numbered_lookup; [|done|naive_solver]. rewrite lookup_empty. naive_solver.
  - intros a b. unfold step_edge. destruct (existsb explicitEdges (map trimStep steps)) eqn:E.
    + rewrite addPairs_targets, step_pairs_elem. apply explicit_edges_test in E as (x & y & E).
      split; [|by intros [?|[H _]]; [left|by apply H in E]]. intros [?|Hb]; [by left|].
      unfold targets in Hb. rewrite lookup_empty in Hb. set_solver.
    + assert (∀ x y, ¬ explicit_edge steps x y) as Hno.
      { intros x y H. assert (existsb explicitEdges (map trimStep steps) = true); [|congruence].
        apply explicit_edges_test. eauto. }
      rewrite addChain_targets, map_names_trim, addPairs_targets, step_pairs_elem.
      * split; [|naive_solver]. intros [?|[?|Hb]]; [by right|by left|].
        unfold targets in Hb. rewrite lookup_empty in Hb. set_solver.
      * intros t Ht. apply list_elem_of_In, in_map_iff in Ht as (s & <- & Hs'). apply list_elem_of_In in Hs'.
        simpl. destruct (trimCopy (s_Next s)) as [|r l] eqn:Er; [done|].
        exfalso. apply (Hno (s_Name s) r). exists s. split; [done|]. left. rewrite Er. split; [done|by left].
Qed.

Lemma computeStepAdjacency_err steps e : computeStepAdjacency steps = inl e → ¬ well_formed steps.
Proof.
  intros H [Hs Hnd Hr]. unfold computeStepAdjacency in H.
  rewrite (proj2 (checkSteps_ok steps 0 ∅ (numbered 0 steps ∅))) in H by (split_and!; [naive_solver|done..]).
  unfold mbind, checked_bind in H.
  rewrite (proj2 (addStepEdges_ok _ _ _ _ (addPairs (flat_map step_pairs (map trimStep steps)) ∅))) in H; [done|].
  split; [by apply refs_checked|done].
Qed.

(** Every edge joins two steps of the definition. *)
Lemma step_edge_names steps a b : well_formed steps → step_edge steps a b →
  a ∈ map s_Name steps ∧ b ∈ map s_Name steps.
Proof.
  intros [_ _ Hr] [(s & Hs & [[-> Hb]|[-> Ha]])|(_ & i & Ha & Hb)].
  - split; [apply elem_of_names; eauto|]. apply (Hr s Hs). by left.
  - split; [|apply elem_of_names; eauto]. apply (Hr s Hs). by right.
  - split; by eapply list_elem_of_lookup_2.
Qed.

(** * Acceptance of a step graph *)

(** A ranking along the declared edges: no step precedes itself. *)
Definition acyclic_steps (steps : list Step) : Prop :=
  ∃ rank : string → nat, ∀ a b, step_edge steps a b → (rank b < rank a)%nat.

(** The range loops visit every key once. *)
Definition range_ok (range_order : option string → gset string → list string) : Prop :=
  ∀ loop X, range_order loop X ≡ₚ elements X.

Lemma detectCycles_spec range_order steps steps' names adj :
  range_ok range_order → computeStepAdjacency steps = inr (steps', names, adj) →
  (detectCycles (λ n, range_order (Some n) (targets adj n)) (range_order None (dom names)) names = inr () ∧
   acyclic_steps steps) ∨
  (∃ n, detectCycles (λ n, range_order (Some n) (targets adj n)) (range_order None (dom names)) names =
        inl (ErrCycle n) ∧ tc (step_edge steps) n n).
Proof.
  intros Hrange H. apply computeStepAdjacency_ok in H as (Hwf & -> & Hnames & Hadj).
  assert (∀ n, n ∈ map s_Name steps → n ∈ dom names) as Hdom.
  { intros n Hn. apply list_elem_of_lookup in Hn as [i Hi]. apply elem_of_dom. exists i. by apply Hnames. }
  assert (∀ a b, b ∈ targets adj a → a ∈ dom names ∧ b ∈ dom names) as Hcl.
  { intros a b Hb. apply Hadj, step_edge_names in Hb as [? ?]; [|done]. split; by apply Hdom. }
  destruct (detectCycles_exact adj names (λ n, range_order (Some n) (targets adj n)) (range_order None (dom names)))
    as [[E (rank & Hr)]|(n & E & _ & Hc)]; [done|by intros n; apply Hrange|apply Hrange| |].
  - left. split; [done|]. exists rank. intros a b Hab. apply Hr. by apply Hadj.
  - right. exists n. split; [done|].
    assert (∀ a b, tc (adj_edge adj) a b → tc (step_edge steps) a b) as Htc; [|by apply Htc].
    induction 1 as [a b Hab|a b c Hab _ IH]; [apply tc_once; by apply Hadj|].
    eapply tc_l; [|exact IH]. by apply Hadj.
Qed.

Lemma acyclic_no_cycle steps n : acyclic_steps steps → ¬ tc (step_edge steps) n n.
Proof.
  intros (rank & Hr) Hc. assert (∀ a b, tc (step_edge steps) a b → (rank b < rank a)%nat) as H.
  { induction 1 as [a b H|a b c H _ IH]; [by apply Hr|]. specialize (Hr a b H). lia. }
  specialize (H n n Hc). lia.
Qed.

(** The two graph checks of [validateSteps] in a row. *)
Definition stepGraph (range_order : option string → gset string → list string) (steps : list Step)
    : checked (list Step * Names * Adj) :=
  '(steps, names, adj) ← computeStepAdjacency steps;
  _ ← detectCycles (λ n, range_order (Some n) (targets adj n)) (range_order None (dom names)) names;
  mret (steps, names, adj).

Lemma step_graph_parts range_order steps : range_ok range_order →
  match stepGraph range_order steps with
  | inr (steps', names, adj) => well_formed steps ∧ acyclic_steps steps ∧ steps' = map trimStep steps ∧
      (∀ n i, names !! n = Some i ↔ map s_Name steps !! i = Some n) ∧
      (∀ a b, b ∈ targets adj a ↔ step_edge steps a b)
  | inl e => ¬ (well_formed steps ∧ acyclic_steps steps) ∧
      (well_formed steps → ∃ n, e = ErrCycle n ∧ tc (step_edge steps) n n)
  end.
Proof.
  intros Hrange. unfold stepGraph. destruct (computeStepAdjacency steps) as [e|[[steps' names] adj]] eqn:E.
  - apply computeStepAdjacency_err in E. unfold mbind, checked_bind. naive_solver.
  - unfold mbind, checked_bind. destruct (detectCycles_spec _ _ _ _ _ Hrange E) as [[-> Hac]|(n & -> & Hc)].
    + apply computeStepAdjacency_ok in E as (? & ? & ? & ?). done.
    + split; [|eauto]. intros [_ Hac]. by apply acyclic_no_cycle in Hc.
Qed.

(** C7: For every iteration order of the map loops, the step checks of a definition
    accept exactly the well-formed acyclic step graphs: names and images present and
    unique, known engines, types and trigger rules, references to other steps of the
    definition, and no step that precedes itself. The adjacency of an accepted graph is
    the declared precedence, the chain of the steps when no edge is declared; when the
    graph is well formed the only rejection is a cycle, and the named step is on one. *)
Theorem step_graph_accepted_iff range_order steps : range_ok range_order →
  match stepGraph range_order steps with
  | inr (steps', names, adj) => well_formed steps ∧ acyclic_steps steps ∧ steps' = map trimStep steps ∧
      (∀ n i, names !! n = Some i ↔ map s_Name steps !! i = Some n) ∧
      (∀ a b, b ∈ targets adj a ↔ step_edge steps a b)
  | inl e => ¬ (well_formed steps ∧ acyclic_steps steps) ∧
      (well_formed steps → ∃ n, e = ErrCycle n ∧ tc (step_edge steps) n n)
  end.
Proof. apply step_graph_parts. Qed.

(** A diamond with a branch step, and its reversal of one edge into a cycle. *)
Definition demo_step (name type : string) (next deps : list string) : Step :=
  mkStep name type EngineDocker "img" [] next deps 0 0 false "" false (mkContainerSpec ∅ "" [] [] None) [] "" ∅ None None None None [] None ∅.

Definition demo_steps : list Step :=
  [demo_step "extract" StepTypeBranch ["left"; " right "] []; demo_step "left" StepTypeTask [] [];
   demo_step "right" StepTypeTask [] []; demo_step "load" StepTypeTask [] ["left"; "right"]].

Definition cyclic_steps : list Step :=
  [demo_step "a" StepTypeTask ["b"] []; demo_step "b" StepTypeTask ["c"] []; demo_step "c" StepTypeTask ["b"] []].

Definition canonical_order (loop : option string) (X : gset string) : list string := elements X.

Lemma step_graph_accepted_iff_witness :
  range_ok canonical_order ∧
  (∃ r, stepGraph canonical_order demo_steps = inr r) ∧
  acyclic_steps demo_steps ∧ ¬ acyclic_steps cyclic_steps ∧
  (∃ n, stepGraph canonical_order cyclic_steps = inl (ErrCycle n) ∧ tc (step_edge cyclic_steps) n n).
Proof.
  assert (range_ok canonical_order) as Hr by (intros ? ?; reflexivity).
  pose proof (step_graph_accepted_iff canonical_order demo_steps Hr) as H1.
  pose proof (step_graph_accepted_iff canonical_order cyclic_steps Hr) as H2.
  split; [done|]. destruct (stepGraph canonical_order demo_steps) as [e|[[? ?] ?]] eqn:E1.
  { exfalso. vm_compute in E1. done. }
  destruct (stepGraph canonical_order cyclic_steps) as [e|r] eqn:E2; [|exfalso; vm_compute in E2; done].
  destruct H1 as (_ & Hac & _). destruct H2 as [Hno Hcyc].
  assert (∃ n, e = ErrCycle n ∧ tc (step_edge cyclic_steps) n n) as (n & -> & Hc).
  { apply Hcyc. destruct (computeStepAdjacency cyclic_steps) as [e'|[[? ?] ?]] eqn:E3.
    - exfalso. vm_compute in E3. done.
    - by apply computeStepAdjacency_ok in E3 as (? & _). }
  split; [eexists; reflexivity|]. split; [exact Hac|]. split; [|exists n; split; [reflexivity|exact Hc]].
  intros Hac'. exact (acyclic_no_cycle _ _ Hac' Hc).
Defined.
