(* ===== verification/Validate.v ===== *)
(** [Definition.Validate] (pkg/jobdef/definition.go, schema.go): the checks of a whole
    job definition and the normalization they do in place.

    [ParseDuration] is Go's [time.ParseDuration]; [Compile] is the JSON Schema compiler
    of the santhosh-tekuri/jsonschema library, which reports a malformed schema;
    [freshness] is the CAESIUM_FRESHNESS_ENABLED flag; [range_order] gives the
    iteration order of the loops over the step graph. *)

From S2P Require Import Prelude Tables RateLimit JobDef StepGraph.

Definition one_of (x : string) (l : list string) : bool := bool_decide (x ∈ l).

(** * Text patterns *)

(** [\s] of Go's regular expressions. *)
Definition re_space (c : ascii) : bool :=
  let n := Ascii.N_of_ascii c in ((9 <=? n) && (n <=? 10))%N || ((12 <=? n) && (n <=? 13))%N || (n =? 32)%N.

Definition is_digit (c : ascii) : bool := let n := Ascii.N_of_ascii c in ((48 <=? n) && (n <=? 57))%N.
Definition is_lower (c : ascii) : bool := let n := Ascii.N_of_ascii c in ((97 <=? n) && (n <=? 122))%N.

(** [simpleJSONPathPattern] as a deterministic automaton. *)
Inductive path_state : Type := PathStart | PathIndexed | PathOpen | PathDigits | PathDot | PathName.

Definition path_step (q : path_state) (c : ascii) : option path_state :=
  let bracket := Ascii.eqb c "["%char in
  let dot := Ascii.eqb c "."%char in
  let name_char := negb (bracket || dot || Ascii.eqb c "]"%char || re_space c) in
  match q with
  | PathStart => if Ascii.eqb c "$"%char then Some PathIndexed else None
  | PathIndexed => if bracket then Some PathOpen else if dot then Some PathDot else None
  | PathOpen => if is_digit c then Some PathDigits else None
  | PathDigits => if is_digit c then Some PathDigits else if Ascii.eqb c "]"%char then Some PathIndexed else None
  | PathDot => if name_char then Some PathName else None
  | PathName => if name_char then Some PathName else if bracket then Some PathOpen else if dot then Some PathDot else None
  end.

Fixpoint path_run (q : path_state) (s : string) : bool :=
  match s with
  | EmptyString => match q with PathIndexed | PathName => true | _ => false end
  | String c s' => match path_step q c with Some q' => path_run q' s' | None => false end
  end.

Definition simpleJSONPathPattern (s : string) : bool := path_run PathStart s.

(** [kueueQueueNamePattern]: the first and last character alphanumeric, ['-'] and ['.'] between. *)
Definition queue_end (c : ascii) : bool := is_digit c || is_lower c.
Definition queue_char (c : ascii) : bool := queue_end c || Ascii.eqb c "-"%char || Ascii.eqb c "."%char.

Fixpoint queue_rest (s : string) : bool :=
  match s with
  | EmptyString => false
  | String c EmptyString => queue_end c
  | String c s' => queue_char c && queue_rest s'
  end.

Definition kueueQueueNamePattern (s : string) : bool :=
  match s with
  | EmptyString => false
  | String c EmptyString => queue_end c
  | String c s' => queue_end c && queue_rest s'
  end.

Definition TrimPrefix (prefix s : string) : string :=
  if String.prefix prefix s then String.substring (String.length prefix) (String.length s) s else s.

(** [strings.Trim(s, "/")] *)
Definition is_slash (c : ascii) : bool := Ascii.eqb c "/"%char.

Fixpoint slashes_left (s : string) : string :=
  match s with String c s' => if is_slash c then slashes_left s' else s | EmptyString => EmptyString end.

Fixpoint slashes_right (s : string) : string :=
  match s with
  | EmptyString => EmptyString
  | String c s' =>
      match slashes_right s' with
      | EmptyString => if is_slash c then EmptyString else String c EmptyString
      | t => String c t
      end
  end.

Definition normalizeHTTPTriggerPath (path : string) : string :=
  slashes_right (slashes_left
    (TrimPrefix "hooks/" (TrimPrefix "v1/" (TrimPrefix "/" (TrimSpace path))))).

Definition validateSimpleJSONPath (expr : string) : checked () :=
  let expr := TrimSpace expr in
  _ ← require (negb (expr =s "")) (Errorf "must not be empty" []);
  require (simpleJSONPathPattern expr) (Errorf "must be '$' or a dot-separated path starting with '$.'" []).

Definition IsAbs (path : string) : bool := match path with String c _ => is_slash c | EmptyString => false end.

(** * Volumes *)

Definition isKnownAccessMode (value : string) : bool :=
  one_of (TrimSpace value) ["ReadWriteOnce"; "ReadOnlyMany"; "ReadWriteMany"; "ReadWriteOncePod"].

Definition sourceKind (source : VolumeSource) : checked string :=
  let kinds :=
    (if blank (vs_PVC source) then [] else ["pvc"]) ++
    (match vs_ClaimTemplate source with Some _ => ["claimTemplate"] | None => [] end) ++
    (match vs_VolumeSource source with Some _ => ["volumeSource"] | None => [] end) ++
    (if blank (vs_Bind source) then [] else ["bind"]) ++
    (if blank (vs_Volume source) then [] else ["volume"]) ++
    (match vs_Tmpfs source with Some _ => ["tmpfs"] | None => [] end) in
  match kinds with
  | [kind] => mret kind
  | _ => fail (Errorf "must set exactly one source kind, got %d" [D (length kinds)])
  end.

Definition sourceKindCompatible (kind engine : string) : bool :=
  if engine =s EngineKubernetes then (kind =s "pvc") || (kind =s "claimTemplate") || (kind =s "volumeSource")
  else if (engine =s EngineDocker) || (engine =s EnginePodman) then (kind =s "bind") || (kind =s "volume") || (kind =s "tmpfs")
  else false.

Definition validateEngine (engine : string) (field : list fmt_arg) : checked () :=
  require (knownEngine engine) (Errorf "%s has unknown engine %q" (field ++ [Q engine])).

Definition validateVolumeSource (source : VolumeSource) (engine : string) (field : list fmt_arg) : checked () :=
  kind ← wrap (λ e, Errorf "%s: %w" (field ++ [W e])) (sourceKind source);
  _ ← require ((engine =s "") || sourceKindCompatible kind engine)
        (Errorf "%s.%s is not valid for engine %q" (field ++ [Q kind; Q engine]));
  _ ← match vs_ClaimTemplate source with
      | None => mret ()
      | Some ct =>
          let accessMode := TrimSpace (ct_AccessMode ct) in
          _ ← require ((accessMode =s "") || isKnownAccessMode accessMode)
                (Errorf "%s.claimTemplate.accessMode %q is not supported" (field ++ [Q accessMode]));
          require (negb (blank (ct_Size ct))) (Errorf "%s.claimTemplate.size is required" field)
      end;
  require (match vs_VolumeSource source with Some [] => false | _ => true end)
    (Errorf "%s.volumeSource must not be empty" field).

Definition validateEngineSource (i : nat) (e : string * VolumeSource) : checked () :=
  let engine := TrimSpace e.1 in
  _ ← require (engine =s e.1) (Errorf "volumes[%d].sources has invalid engine key %q" [D i; Q e.1]);
  _ ← validateEngine engine [Q "volumes[%d].sources"; D i];
  validateVolumeSource e.2 engine [Q "volumes[%d].sources[%q]"; D i; Q engine].

Definition validateVolume (i : nat) (volume : Volume) (byName : gmap string Volume)
    : checked (Volume * gmap string Volume) :=
  let name := TrimSpace (v_Name volume) in
  _ ← require (negb (name =s "")) (Errorf "volumes[%d].name is required" [D i]);
  _ ← require (bool_decide (byName !! name = None)) (Errorf "duplicate volume name %q" [Q name]);
  let volume := mkVolume name (v_Source volume) (v_Sources volume) (v_AccessMode volume) in
  _ ← match v_Source volume, v_Sources volume with
      | Some source, [] => validateVolumeSource source "" [Q "volumes[%d].source"; D i]
      | None, _ :: _ => checkEach (λ _, validateEngineSource i) 0 (v_Sources volume)
      | _, _ => fail (Errorf "volumes[%d] must set exactly one of source or sources" [D i])
      end;
  _ ← require (blank (v_AccessMode volume) || isKnownAccessMode (v_AccessMode volume))
        (Errorf "volumes[%d].accessMode %q is not supported" [D i; Q (v_AccessMode volume)]);
  mret (volume, <[name := volume]> byName).

Definition validateVolumes (volumes : list Volume) : checked (list Volume * gmap string Volume) :=
  forEach validateVolume 0 volumes ∅.

Definition sourceForEngine (v : Volume) (engine : string) : checked VolumeSource :=
  match v_Source v with
  | Some source => mret source
  | None =>
      match v_Sources v with
      | [] => fail (Errorf "volume %q has no sources" [Q (v_Name v)])
      | sources =>
          match get engine sources with
          | Some source => mret source
          | None => fail (Errorf "volume %q has no source for engine %q" [Q (v_Name v); Q engine])
          end
      end
  end.

(** * Scheduling metadata, trigger, callbacks *)

Section parameters.
Context (ParseDuration : string → option Z) (Compile : object → option def_error) (freshness : bool)
  (range_order : option string → gset string → list string).

Definition validateConcurrency (c : Concurrency) : checked Concurrency :=
  _ ← require (0 <=? con_MaxRuns c) (Errorf "metadata.concurrency.maxRuns must be >= 0" []);
  let strategy := if blank (con_Strategy c) then ConcurrencyStrategyQueue else con_Strategy c in
  _ ← require (one_of strategy ConcurrencyStrategies)
        (Errorf "metadata.concurrency.strategy %q must be one of ['queue','replace','skip','fail']" [Q strategy]);
  mret (mkConcurrency (con_MaxRuns c) strategy).

Definition validateRateLimit (i : nat) (limit : RateLimit) (resources : gset string)
    : checked (RateLimit * gset string) :=
  let resource := TrimSpace (rld_Resource limit) in
  _ ← require (negb (resource =s "")) (Errorf "metadata.rateLimits[%d].resource is required" [D i]);
  _ ← require (0 <? rld_Limit limit) (Errorf "metadata.rateLimits[%d].limit must be > 0" [D i]);
  _ ← require (bool_decide (is_Some (ParseDuration (rld_Window limit))))
        (Errorf "metadata.rateLimits[%d].window %q must be a valid duration" [D i; Q (rld_Window limit)]);
  _ ← require (bool_decide (resource ∉ resources))
        (Errorf "metadata.rateLimits[%d].resource %q duplicates another rate limit" [D i; Q resource]);
  mret (mkRateLimit resource (rld_Limit limit) (rld_Window limit), {[resource]} ∪ resources).

Definition validateSchedulingMetadata (m : Metadata) : checked (Metadata * gset string) :=
  _ ← require (one_of (md_Priority m) [""; "high"; "normal"; "low"])
        (Errorf "metadata.priority %q must be one of ['high','normal','low']" [Q (md_Priority m)]);
  concurrency ← match md_Concurrency m with
                | None => mret None
                | Some c => c ← validateConcurrency c; mret (Some c)
                end;
  '(limits, resources) ← forEach validateRateLimit 0 (md_RateLimits m) ∅;
  mret (mkMetadata (md_Alias m) (md_Priority m) concurrency limits (md_SchemaValidation m) (md_ReplaySafe m)
          (md_Datasets m) (md_Remediation m) (md_ServiceAccountName m) (md_PodAnnotations m)
          (md_AutomountServiceAccountToken m), resources).

Definition validateParamMapping (e : string * json) : checked () :=
  match e.2 with
  | JStr expr => wrap (λ err, Errorf "trigger.configuration.paramMapping[%q]: %w" [Q e.1; W err]) (validateSimpleJSONPath expr)
  | _ => fail (Errorf "trigger.configuration.paramMapping[%q] must be a string" [Q e.1])
  end.

Definition validateParamMappingConfiguration (cfg : object) : checked () :=
  match get "paramMapping" cfg with
  | None | Some JNull => mret ()
  | Some (JObj mapping) => checkEach (λ _, validateParamMapping) 0 mapping
  | Some _ => fail (Errorf "trigger.configuration.paramMapping must be a map of string keys and values" [])
  end.

Definition validateDefaultParamsConfiguration (cfg : object) : checked () :=
  match get "defaultParams" cfg with
  | None | Some JNull => mret ()
  | Some (JObj params) =>
      checkEach (λ _ e, match e.2 with JStr _ => mret ()
        | _ => fail (Errorf "trigger.configuration.defaultParams[%q] must be a string" [Q e.1]) end) 0 params
  | Some _ => fail (Errorf "trigger.configuration.defaultParams must be a map of string keys and values" [])
  end.

Definition validateHTTPTriggerConfiguration (cfg : object) : checked () :=
  _ ← match get "path" cfg with
      | None => fail (Errorf "trigger.configuration.path is required for http triggers" [])
      | Some (JStr path) =>
          require (negb (normalizeHTTPTriggerPath path =s "")) (Errorf "trigger.configuration.path must not be empty" [])
      | Some _ => fail (Errorf "trigger.configuration.path must be a string" [])
      end;
  _ ← match get "signatureScheme" cfg with
      | None | Some JNull => mret ()
      | Some (JStr scheme) =>
          require (one_of (TrimSpace scheme) [""; "hmac-sha256"; "hmac-sha1"; "bearer"; "basic"])
            (Errorf "trigger.configuration.signatureScheme %q must be one of [hmac-sha256,hmac-sha1,bearer,basic]" [Q scheme])
      | Some _ => fail (Errorf "trigger.configuration.signatureScheme must be a string" [])
      end;
  validateParamMappingConfiguration cfg.

Definition validateEventPattern (i : nat) (rawEvent : json) : checked () :=
  match rawEvent with
  | JObj pattern =>
      _ ← match get "type" pattern with
          | None => fail (Errorf "trigger.configuration.events[%d].type is required" [D i])
          | Some (JStr eventType) =>
              require (negb (blank eventType)) (Errorf "trigger.configuration.events[%d].type must not be empty" [D i])
          | Some _ => fail (Errorf "trigger.configuration.events[%d].type must be a string" [D i])
          end;
      _ ← match get "source" pattern with
          | None | Some JNull | Some (JStr _) => mret ()
          | Some _ => fail (Errorf "trigger.configuration.events[%d].source must be a string" [D i])
          end;
      match get "filter" pattern with
      | None | Some JNull => mret ()
      | Some (JObj filter) =>
          checkEach (λ _ e, match e.2 with JStr _ => mret ()
            | _ => fail (Errorf "trigger.configuration.events[%d].filter[%q] must be a string" [D i; Q e.1]) end) 0 filter
      | Some _ => fail (Errorf "trigger.configuration.events[%d].filter must be a map of string keys and values" [D i])
      end
  | _ => fail (Errorf "trigger.configuration.events[%d] must be an object" [D i])
  end.

Definition validateEventTriggerConfiguration (cfg : object) : checked () :=
  _ ← match get "events" cfg with
      | None | Some JNull => fail (Errorf "trigger.configuration.events is required for event triggers" [])
      | Some (JArr []) => fail (Errorf "trigger.configuration.events must contain at least one pattern" [])
      | Some (JArr events) => checkEach validateEventPattern 0 events
      | Some _ => fail (Errorf "trigger.configuration.events must be a non-empty list" [])
      end;
  _ ← validateParamMappingConfiguration cfg;
  validateDefaultParamsConfiguration cfg.

Definition validateTrigger (t : Trigger) : checked Trigger :=
  _ ← require (one_of (tg_Type t) [TriggerCron; TriggerHTTP; TriggerEvent; TriggerFreshness])
        (Errorf "trigger.type must be one of [cron,http,event,freshness]" []);
  let cfg := default [] (tg_Configuration t) in
  _ ← if tg_Type t =s TriggerHTTP then validateHTTPTriggerConfiguration cfg
      else if tg_Type t =s TriggerEvent then validateEventTriggerConfiguration cfg
      else if tg_Type t =s TriggerFreshness
      then require freshness (Errorf "trigger.type %q requires CAESIUM_FRESHNESS_ENABLED=true" [Q TriggerFreshness])
      else mret ();
  mret (mkTrigger (tg_Type t) (Some cfg) (tg_DefaultParams t)).

Definition validateCallback (i : nat) (cb : Callback) : checked () :=
  _ ← require (cb_Type cb =s CallbackNotification) (Errorf "callbacks[%d].type must be notification" [D i]);
  require (bool_decide (is_Some (cb_Configuration cb))) (Errorf "callbacks[%d].configuration is required" [D i]).

Definition validateCallbacks (callbacks : list Callback) : checked () := checkEach validateCallback 0 callbacks.

(** * Steps *)

Definition validateStepRateLimit (resources : gset string) (i : nat) (step : Step) (_ : ()) : checked (Step * ()) :=
  match s_RateLimit step with
  | None => mret (step, ())
  | Some rl =>
      let resource := TrimSpace (srl_Resource rl) in
      _ ← require (negb (resource =s "")) (Errorf "steps[%d].rateLimit.resource is required when rateLimit is set" [D i]);
      _ ← require (0 <=? srl_Units rl) (Errorf "steps[%d].rateLimit.units must be >= 0" [D i]);
      let units := if srl_Units rl =? 0 then 1 else srl_Units rl in
      _ ← require (bool_decide (resource ∈ resources))
            (Errorf "steps[%d].rateLimit.resource %q does not match any metadata.rateLimits[].resource" [D i; Q resource]);
      mret (with_RateLimit (Some (mkStepRateLimit resource units)) step, ())
  end.

Definition validateStepRateLimits (steps : list Step) (resources : gset string) : checked (list Step) :=
  '(steps, _) ← forEach (validateStepRateLimit resources) 0 steps ();
  mret steps.

Fixpoint mountTargets (i : nat) (targets : list string) (paths : gset string) : checked (gset string) :=
  match targets with
  | [] => mret paths
  | t :: l =>
      let target := TrimSpace t in
      if target =s "" then mountTargets i l paths
      else
        _ ← require (bool_decide (target ∉ paths)) (Errorf "steps[%d] mounts duplicate target path %q" [D i; Q target]);
        mountTargets i l ({[target]} ∪ paths)
  end.

Definition validateVolumeMount (volumes : gmap string Volume) (engine : string) (i j : nat) (mount : VolumeMount)
    (paths : gset string) : checked (VolumeMount * gset string) :=
  let volumeName := TrimSpace (vm_Volume mount) in
  _ ← require (negb (volumeName =s "")) (Errorf "steps[%d].volumeMounts[%d].volume is required" [D i; D j]);
  match volumes !! volumeName with
  | None => fail (Errorf "steps[%d].volumeMounts[%d] references unknown volume %q" [D i; D j; Q volumeName])
  | Some volume =>
      let target := TrimSpace (vm_Path mount) in
      _ ← require (negb (target =s "")) (Errorf "steps[%d].volumeMounts[%d].path is required" [D i; D j]);
      _ ← require (IsAbs target) (Errorf "steps[%d].volumeMounts[%d].path %q must be absolute" [D i; D j; Q target]);
      _ ← require (bool_decide (target ∉ paths)) (Errorf "steps[%d] mounts duplicate target path %q" [D i; Q target]);
      source ← wrap (λ e, Errorf "steps[%d].volumeMounts[%d]: %w" [D i; D j; W e]) (sourceForEngine volume engine);
      kind ← wrap (λ e, Errorf "steps[%d].volumeMounts[%d]: %w" [D i; D j; W e]) (sourceKind source);
      _ ← require (sourceKindCompatible kind engine)
            (Errorf "steps[%d].volumeMounts[%d]: volume %q source %q is not valid for engine %q"
               [D i; D j; Q volumeName; Q kind; Q engine]);
      mret (mount, {[target]} ∪ paths)
  end.

Definition validateKubernetesFields (i : nat) (step : Step) : checked () :=
  if s_Engine step =s EngineKubernetes then mret ()
  else
    _ ← require (blank (s_ServiceAccountName step))
          (Errorf "steps[%d].serviceAccountName is only supported for kubernetes steps" [D i]);
    _ ← require (bool_decide (s_PodAnnotations step = ∅))
          (Errorf "steps[%d].podAnnotations is only supported for kubernetes steps" [D i]);
    _ ← require (bool_decide (s_AutomountServiceAccountToken step = None))
          (Errorf "steps[%d].automountServiceAccountToken is only supported for kubernetes steps" [D i]);
    require (bool_decide (s_Kueue step = None)) (Errorf "steps[%d].kueue is only supported for kubernetes steps" [D i]).

Definition validateKueue (i : nat) (step : Step) : checked () :=
  match s_Kueue step with
  | None => mret ()
  | Some raw =>
      let queueName := TrimSpace raw in
      _ ← require (negb (queueName =s "")) (Errorf "steps[%d].kueue.queueName is required when kueue is set" [D i]);
      _ ← require (bool_decide (String.length queueName ≤ 63)%nat)
            (Errorf "steps[%d].kueue.queueName %q must be at most 63 characters" [D i; Q queueName]);
      require (kueueQueueNamePattern queueName)
        (Errorf "steps[%d].kueue.queueName %q must be a valid DNS-1123 label" [D i; Q queueName])
  end.

Definition validateStepMounts (volumes : gmap string Volume) (i : nat) (step : Step) : checked () :=
  paths ← mountTargets i (map mt_Target (cs_Mounts (s_Spec step))) ∅;
  _ ← forEach (validateVolumeMount volumes (s_Engine step) i) 0 (s_VolumeMounts step) paths;
  _ ← validateKubernetesFields i step;
  validateKueue i step.

Definition validateStepVolumeMounts (steps : list Step) (volumes : gmap string Volume) : checked () :=
  checkEach (validateStepMounts volumes) 0 steps.

(** ** Schemas (schema.go) *)

(** [v.(map[string]any)] and [v.(string)], with the zero value on failure. *)
Definition asObject (v : option json) : option object := match v with Some (JObj l) => Some l | _ => None end.
Definition asString (v : option json) : string := match v with Some (JStr s) => s | _ => "" end.

Definition checkRequiredKey (consumerIdx : nat) (producerName : string) (producerProps : option object)
    (consumerSchema : object) (item : json) : checked () :=
  match item with
  | JStr key =>
      match producerProps with
      | None => fail (Errorf "steps[%d].inputSchema[%q]: requires key %q but step %q declares no outputSchema properties"
                        [D consumerIdx; Q producerName; Q key; Q producerName])
      | Some props =>
          match get key props with
          | None => fail (Errorf "steps[%d].inputSchema[%q]: requires key %q which is not declared in step %q outputSchema"
                            [D consumerIdx; Q producerName; Q key; Q producerName])
          | Some producerPropRaw =>
              match asObject (get "properties" consumerSchema) with
              | None => mret ()
              | Some consumerProps =>
                  match get key consumerProps with
                  | None => mret ()
                  | Some consumerPropRaw =>
                      match asObject (Some producerPropRaw), asObject (Some consumerPropRaw) with
                      | Some producerProp, Some consumerProp =>
                          let producerType := asString (get "type" producerProp) in
                          let consumerType := asString (get "type" consumerProp) in
                          require ((producerType =s "") || (consumerType =s "") || (producerType =s consumerType))
                            (Errorf "steps[%d].inputSchema[%q]: key %q type mismatch: producer declares %q, consumer expects %q"
                               [D consumerIdx; Q producerName; Q key; Q producerType; Q consumerType])
                      | _, _ => mret ()
                      end
                  end
              end
          end
      end
  | _ => fail (Errorf "steps[%d].inputSchema[%q]: 'required' entries must be strings" [D consumerIdx; Q producerName])
  end.

Definition checkSchemaCompatibility (consumerIdx : nat) (producerName : string) (outputSchema consumerSchema : object)
    : checked () :=
  let producerProps := asObject (get "properties" outputSchema) in
  match get "required" consumerSchema with
  | None => mret ()
  | Some (JArr requiredList) =>
      checkEach (λ _, checkRequiredKey consumerIdx producerName producerProps consumerSchema) 0 requiredList
  | Some _ => fail (Errorf "steps[%d].inputSchema[%q]: 'required' must be an array" [D consumerIdx; Q producerName])
  end.

Definition compileJSONSchema (schema : object) : checked () :=
  match Compile schema with Some e => fail e | None => mret () end.

Definition validateOutputSchema (stepName : string) (schema : object) : checked () :=
  wrap (λ e, Errorf "step %q: invalid outputSchema: %w" [Q stepName; W e]) (compileJSONSchema schema).

Definition validateDatasetSchema (field : list fmt_arg) (schema : object) : checked () :=
  wrap (λ e, Errorf "%s: invalid schema: %w" (field ++ [W e])) (compileJSONSchema schema).

Definition validateInputEntry (stepIdx : nat) (stepName : string) (preds : gset string) (names : Names)
    (steps : list Step) (e : string * object) : checked () :=
  let '(producerName, consumerSchema) := e in
  match names !! producerName with
  | None => fail (Errorf "steps[%d].inputSchema: references unknown step %q" [D stepIdx; Q producerName])
  | Some producerIdx =>
      _ ← require (bool_decide (producerName ∈ preds))
            (Errorf "steps[%d].inputSchema: step %q is not a predecessor of %q" [D stepIdx; Q producerName; Q stepName]);
      match steps !! producerIdx ≫= s_OutputSchema with
      | None => mret ()
      | Some outputSchema => checkSchemaCompatibility stepIdx producerName outputSchema consumerSchema
      end
  end.

(** The reverse of the adjacency map at one step. *)
Definition predecessorsOf (adj : Adj) (name : string) : gset string :=
  dom (filter (λ e : string * gset string, name ∈ e.2) adj).

Definition validateStepSchemas (names : Names) (adj : Adj) (steps : list Step) (i : nat) (step : Step) : checked () :=
  _ ← match s_OutputSchema step with Some schema => validateOutputSchema (s_Name step) schema | None => mret () end;
  checkEach (λ _, validateInputEntry i (s_Name step) (predecessorsOf adj (s_Name step)) names steps) 0 (s_InputSchema step).

Definition validateSchemas (steps : list Step) (names : Names) (adj : Adj) : checked () :=
  checkEach (validateStepSchemas names adj steps) 0 steps.

Definition validateSteps (steps : list Step) (volumes : gmap string Volume) (resources : gset string)
    : checked (list Step) :=
  '(steps, names, adj) ← computeStepAdjacency steps;
  _ ← validateStepVolumeMounts steps volumes;
  steps ← validateStepRateLimits steps resources;
  _ ← detectCycles (λ n, range_order (Some n) (targets adj n)) (range_order None (dom names)) names;
  _ ← validateSchemas steps names adj;
  mret steps.
(** * Datasets *)

(** An optional duration text that must be positive when present. *)
Definition validatePositiveDuration (text : string) (field : list fmt_arg) : checked () :=
  if blank text then mret ()
  else
    match ParseDuration text with
    | None => fail (Errorf "%s %q must be a valid duration" (field ++ [Q text]))
    | Some dur => require (0 <? dur) (Errorf "%s %q must be a positive duration" (field ++ [Q text]))
    end.

Definition validateSource (i : nat) (src : SourceDataset) (sources : gset string)
    : checked (SourceDataset * gset string) :=
  let name := TrimSpace (sd_Name src) in
  _ ← require (negb (name =s "")) (Errorf "metadata.datasets.sources[%d].name is required" [D i]);
  _ ← require (bool_decide (name ∉ sources))
        (Errorf "metadata.datasets.sources[%d].name %q duplicates another source" [D i; Q name]);
  _ ← validatePositiveDuration (sd_ExpectedEvery src) [Q "metadata.datasets.sources[%d].expectedEvery"; D i];
  _ ← match sd_Arrival src with
      | None => mret ()
      | Some arrival =>
          _ ← require (match ar_EventType arrival with Some t => negb (blank t) | None => true end)
                (Errorf "metadata.datasets.sources[%d].arrival.event.type is required when event is set" [D i]);
          let wm := TrimSpace (ar_Watermark arrival) in
          if wm =s "" then mret ()
          else wrap (λ e, Errorf "metadata.datasets.sources[%d].arrival.watermark: %w" [D i; W e]) (validateSimpleJSONPath wm)
      end;
  mret (mkSourceDataset name (sd_ExpectedEvery src) (sd_Arrival src) (sd_External src), {[name]} ∪ sources).

Definition validateProduced (sources : gset string) (i : nat) (step : Step) (j : nat) (p : ProducedDataset)
    (produced : gset string) : checked (ProducedDataset * gset string) :=
  let name := TrimSpace (pd_Name p) in
  _ ← require (negb (name =s "")) (Errorf "steps[%d].datasets.produces[%d].name is required" [D i; D j]);
  _ ← require (bool_decide (name ∉ produced))
        (Errorf "steps[%d].datasets.produces[%d].name %q is produced more than once in this job" [D i; D j; Q name]);
  _ ← require (bool_decide (name ∉ sources))
        (Errorf "steps[%d].datasets.produces[%d].name %q is also declared under metadata.datasets.sources" [D i; D j; Q name]);
  _ ← validatePositiveDuration (pd_Freshness p) [Q "steps[%d].datasets.produces[%d].freshness"; D i; D j];
  _ ← validatePositiveDuration (pd_MaxStaleness p) [Q "steps[%d].datasets.produces[%d].maxStaleness"; D i; D j];
  _ ← require (match pd_WatermarkKey p with Some k => negb (blank k) | None => true end)
        (Errorf "steps[%d].datasets.produces[%d].watermark.key is required when watermark is set" [D i; D j]);
  let schemaFrom := TrimSpace (pd_SchemaFrom p) in
  _ ← require (negb (bool_decide (is_Some (pd_Schema p)) && negb (schemaFrom =s "")))
        (Errorf "steps[%d].datasets.produces[%d] cannot set both schema and schemaFrom" [D i; D j]);
  _ ← if schemaFrom =s "" then mret ()
      else if schemaFrom =s DatasetSchemaFromOutput
      then require (match s_OutputSchema step with Some (_ :: _) => true | _ => false end)
             (Errorf "steps[%d].datasets.produces[%d].schemaFrom %q requires step %q to declare outputSchema"
                [D i; D j; Q schemaFrom; Q (s_Name step)])
      else fail (Errorf "steps[%d].datasets.produces[%d].schemaFrom %q must be 'output'" [D i; D j; Q (pd_SchemaFrom p)]);
  _ ← match pd_Schema p with
      | None => mret ()
      | Some schema => validateDatasetSchema [Q "steps[%d].datasets.produces[%d].schema"; D i; D j] schema
      end;
  mret (mkProducedDataset name (pd_Schema p) schemaFrom (pd_Version p) (pd_Freshness p) (pd_MaxStaleness p)
          (pd_WatermarkKey p), {[name]} ∪ produced).

Definition validateProduces (sources : gset string) (i : nat) (step : Step) (produced : gset string)
    : checked (Step * gset string) :=
  match s_Datasets step with
  | None => mret (step, produced)
  | Some ds =>
      '(produces, produced) ← forEach (validateProduced sources i step) 0 (sds_Produces ds) produced;
      mret (with_Datasets (Some (mkStepDatasets (sds_Consumes ds) produces)) step, produced)
  end.

Definition validateConsumed (i j : nat) (consumed : ConsumedDataset) (seen : gset string)
    : checked (ConsumedDataset * gset string) :=
  let name := TrimSpace (cd_Name consumed) in
  _ ← require (negb (name =s "")) (Errorf "steps[%d].datasets.consumes[%d] must not be empty" [D i; D j]);
  _ ← require (bool_decide (name ∉ seen)) (Errorf "steps[%d].datasets.consumes contains duplicate entry %q" [D i; Q name]);
  _ ← match cd_Schema consumed with
      | None => mret ()
      | Some schema => validateDatasetSchema [Q "steps[%d].datasets.consumes[%d].schema"; D i; D j] schema
      end;
  mret (mkConsumedDataset name (cd_Schema consumed), {[name]} ∪ seen).

Definition validateConsumes (i : nat) (step : Step) (_ : ()) : checked (Step * ()) :=
  match s_Datasets step with
  | None => mret (step, ())
  | Some ds =>
      '(consumes, _) ← forEach (validateConsumed i) 0 (sds_Consumes ds) ∅;
      mret (with_Datasets (Some (mkStepDatasets consumes (sds_Produces ds))) step, ())
  end.

Definition validateDatasets (m : Metadata) (steps : list Step) : checked (Metadata * list Step) :=
  '(datasets, sources) ← match md_Datasets m with
      | None => mret (None, ∅)
      | Some ds =>
          '(srcs, sources) ← forEach validateSource 0 (md_Sources ds) ∅;
          mret (Some (mkMetadataDatasets srcs (md_SkipWhenFresh ds)), sources)
      end;
  '(steps, _) ← forEach (validateProduces sources) 0 steps ∅;
  '(steps, _) ← forEach validateConsumes 0 steps ();
  mret (mkMetadata (md_Alias m) (md_Priority m) (md_Concurrency m) (md_RateLimits m) (md_SchemaValidation m)
          (md_ReplaySafe m) datasets (md_Remediation m) (md_ServiceAccountName m) (md_PodAnnotations m)
          (md_AutomountServiceAccountToken m), steps).

Definition validateFreshnessTriggerDefinition (t : Trigger) (m : Metadata) (steps : list Step) : checked () :=
  if negb (tg_Type t =s TriggerFreshness) then mret ()
  else
    let datasets := omap s_Datasets steps in
    let consumes :=
      match md_Datasets m with
      | Some ds => existsb (λ s, negb (blank (sd_Name s))) (md_Sources ds)
      | None => false
      end || existsb (λ ds, negb (bool_decide (map cd_Name (sds_Consumes ds) = []))) datasets in
    let producesWithFreshness :=
      existsb (λ ds, existsb (λ p, negb (blank (pd_Freshness p))) (sds_Produces ds)) datasets in
    require (consumes && producesWithFreshness)
      (Errorf "trigger.type %q requires at least one consumed dataset and one produced dataset with freshness" [Q TriggerFreshness]).

(** * Remediation *)

(** A list of trimmed names from a vocabulary, without duplicates. *)
Definition validateName (known : list string) (unknown duplicate : string) (field : list fmt_arg) (i : nat)
    (raw : string) (seen : gset string) : checked (string * gset string) :=
  let name := TrimSpace raw in
  _ ← require (one_of name known) (Errorf unknown (field ++ [D i; Q raw]));
  _ ← require (bool_decide (name ∉ seen)) (Errorf duplicate (field ++ [D i; Q raw]));
  mret (name, {[name]} ∪ seen).

Definition validateRemediationActionList (field : list fmt_arg) (actions : list string) : checked (list string) :=
  '(actions, _) ← forEach (validateName remediationActions "%s[%d] %q is not a known remediation action"
                             "%s[%d] %q duplicates another entry" field) 0 actions ∅;
  mret actions.

Definition validateParamOverride (defaultParams : list (string * string)) (e : string * list string) : checked () :=
  _ ← require (bool_decide (is_Some (get e.1 defaultParams)))
        (Errorf "metadata.remediation.autonomy.paramOverrides key %q does not match any trigger.defaultParams key" [Q e.1]);
  require (negb (bool_decide (e.2 = [])))
    (Errorf "metadata.remediation.autonomy.paramOverrides[%q] must list at least one allowed value" [Q e.1]).

Definition validatePerClass (_ : nat) (e : string * list string) (normalized : gset string)
    : checked ((string * list string) * gset string) :=
  let name := TrimSpace e.1 in
  _ ← require (one_of name remediationClasses)
        (Errorf "metadata.remediation.autonomy.perClass key %q is not a known failure class" [Q e.1]);
  _ ← require (bool_decide (name ∉ normalized))
        (Errorf "metadata.remediation.autonomy.perClass key %q duplicates another entry" [Q e.1]);
  allow ← validateRemediationActionList [Q "metadata.remediation.autonomy.perClass[%q].allow"; Q name] e.2;
  mret ((name, allow), {[name]} ∪ normalized).

Definition validateRemediationAutonomy (a : RemediationAutonomy) (defaultParams : list (string * string))
    : checked RemediationAutonomy :=
  allow ← validateRemediationActionList [Q "metadata.remediation.autonomy.allow"] (ra_Allow a);
  _ ← checkEach (λ _, validateParamOverride defaultParams) 0 (ra_ParamOverrides a);
  '(perClass, _) ← forEach validatePerClass 0 (ra_PerClass a) ∅;
  approval ← validateRemediationActionList [Q "metadata.remediation.autonomy.requireApproval"] (ra_RequireApproval a);
  mret (mkRemediationAutonomy allow (ra_ParamOverrides a) perClass approval).

Definition validateEscalation (e : RemediationEscalation) : checked RemediationEscalation :=
  let channel := TrimSpace (re_Channel e) in
  let after := TrimSpace (re_After e) in
  _ ← require (negb ((channel =s "") && (after =s "")))
        (Errorf "metadata.remediation.escalation requires channel and/or after" []);
  _ ← validatePositiveDuration after [Q "metadata.remediation.escalation.after"];
  mret (mkRemediationEscalation channel after).

Definition validateRemediation (r : MetadataRemediation) (defaultParams : list (string * string))
    : checked MetadataRemediation :=
  let profile := TrimSpace (mr_Profile r) in
  _ ← require (negb (profile =s "")) (Errorf "metadata.remediation.profile is required" []);
  _ ← require (negb (bool_decide (mr_Classes r = []))) (Errorf "metadata.remediation.classes must contain at least one entry" []);
  '(classes, _) ← forEach (validateName remediationClasses "metadata.remediation.classes[%d] %q is not a known failure class"
                             "metadata.remediation.classes[%d] %q duplicates another entry" []) 0 (mr_Classes r) ∅;
  _ ← require (0 <=? mr_MaxAttempts r) (Errorf "metadata.remediation.maxAttempts must be >= 0" []);
  autonomy ← match mr_Autonomy r with
             | None => mret None
             | Some a => a ← validateRemediationAutonomy a defaultParams; mret (Some a)
             end;
  escalation ← match mr_Escalation r with
               | None => mret None
               | Some e => e ← validateEscalation e; mret (Some e)
               end;
  mret (mkMetadataRemediation profile classes (mr_MaxAttempts r) autonomy escalation).

Definition with_Remediation (r : option MetadataRemediation) (m : Metadata) : Metadata :=
  mkMetadata (md_Alias m) (md_Priority m) (md_Concurrency m) (md_RateLimits m) (md_SchemaValidation m)
    (md_ReplaySafe m) (md_Datasets m) r (md_ServiceAccountName m) (md_PodAnnotations m)
    (md_AutomountServiceAccountToken m).

(** * [Validate] *)

Definition Validate (d : Definition_) : checked Definition_ :=
  let m := def_Metadata d in
  _ ← require (def_APIVersion d =s APIVersionV1) (Errorf "unsupported apiVersion: %s" [Q (def_APIVersion d)]);
  _ ← require (def_Kind d =s KindJob) (Errorf "unsupported kind: %s" [Q (def_Kind d)]);
  _ ← require (negb (blank (md_Alias m))) (Errorf "metadata.alias is required" []);
  _ ← require (one_of (md_SchemaValidation m) [""; "warn"; "fail"])
        (Errorf "metadata.schemaValidation %q must be one of ['','warn','fail']" [Q (md_SchemaValidation m)]);
  '(m, rateLimitResources) ← validateSchedulingMetadata m;
  trigger ← validateTrigger (def_Trigger d);
  _ ← validateCallbacks (def_Callbacks d);
  '(vols, volumes) ← validateVolumes (def_Volumes d);
  _ ← require (negb (bool_decide (map s_Name (def_Steps d) = []))) (Errorf "steps must contain at least one entry" []);
  steps ← validateSteps (def_Steps d) volumes rateLimitResources;
  '(m, steps) ← validateDatasets m steps;
  _ ← validateFreshnessTriggerDefinition trigger m steps;
  m ← match md_Remediation m with
      | None => mret m
      | Some r => r ← validateRemediation r (tg_DefaultParams trigger); mret (with_Remediation (Some r) m)
      end;
  mret (mkDefinition (def_APIVersion d) (def_Kind d) m trigger (def_Callbacks d) vols steps).
End parameters.
