(* ===== verification/ValidateTheorems.v ===== *)
(** What a validated job definition guarantees, and that validating it again
    changes nothing. *)

From S2P Require Import Prelude Tables RateLimit JobDef StepGraph StepTheorems Validate.

(** Opens the successful calls of a check in a hypothesis, and closes them in the goal
    with the facts of the context. *)
Ltac unbind H :=
  repeat match type of H with
  | (require ?b ?e ≫= _) = inr _ => let R := fresh "R" in apply bind_ok in H as ([] & R%require_ok & H)
  | (?m ≫= _) = inr _ => let x := fresh "x" in let R := fresh "R" in apply bind_ok in H as (x & R & H)
  end.

Ltac rebind :=
  repeat match goal with
  | |- (require ?b ?e ≫= _) = inr _ => apply bind_ok; exists (); split; [apply require_ok; assumption|]
  | H : ?m = inr ?a |- (?m ≫= _) = inr _ => apply bind_ok; exists a; split; [exact H|]
  end.

(** * Loops *)

Lemma checkEach_ok {A} (body : nat → A → checked ()) l : ∀ i, checkEach body i l = inr () ↔
  ∀ (j : nat) a, l !! j = Some a → body (i + j)%nat a = inr ().
Proof.
  induction l as [|a l IH]; intros i; simpl; [by split|]. rewrite bind_ok. split.
  - intros ([] & H1 & H2) [|j] b Hb.
    + injection Hb as <-. by rewrite Nat.add_0_r.
    + replace (i + S j)%nat with (S i + j)%nat by lia. by apply IH.
  - intros H. exists (). split; [rewrite <- (Nat.add_0_r i) at 1; by apply (H 0%nat)|].
    apply IH. intros j b Hb. replace (S i + j)%nat with (i + S j)%nat by lia. by apply (H (S j)).
Qed.

Lemma checkEach_elem {A} (body : nat → A → checked ()) l i a :
  checkEach body i l = inr () → a ∈ l → ∃ j, body j a = inr ().
Proof.
  intros H Ha. apply list_elem_of_lookup in Ha as [j Hj]. eexists.
  by apply (proj1 (checkEach_ok body l i) H j a).
Qed.

Section loops.
Context {A St : Type} (body : nat → A → St → checked (A * St)).

Lemma forEach_cons i a l s r : forEach body i (a :: l) s = inr r ↔
  ∃ a' s1 l' s', body i a s = inr (a', s1) ∧ forEach body (S i) l s1 = inr (l', s') ∧ r = (a' :: l', s').
Proof.
  simpl. rewrite bind_ok. split.
  - intros ([a' s1] & H1 & H). apply bind_ok in H as ([l' s'] & H2 & [= <-]). eauto 10.
  - intros (a' & s1 & l' & s' & H1 & H2 & ->). exists (a', s1). split; [done|]. simpl. rewrite bind_ok.
    exists (l', s'). done.
Qed.

(** A relation between each element and its replacement, and one threaded through the states. *)
Lemma forEach_forall2 (R : A → A → Prop) l : (∀ i a s a' s', body i a s = inr (a', s') → R a a') →
  ∀ i s l' s', forEach body i l s = inr (l', s') → Forall2 R l l'.
Proof.
  intros HR. induction l as [|a l IH]; intros i s l' s' H; [by injection H as <- <-; constructor|].
  apply forEach_cons in H as (a' & s1 & k & s2 & H1 & H2 & [= -> ->]). constructor; eauto.
Qed.

(** Running the loop again over its result, or over a list that later passes changed in
    ways [R] the body does not see, keeps the elements and takes the same states. *)
Lemma forEach_again (R : A → A → Prop) l :
  (∀ i a s a' s' b, body i a s = inr (a', s') → R a' b → body i b s = inr (b, s')) →
  ∀ i s l' s' k, forEach body i l s = inr (l', s') → Forall2 R l' k → forEach body i k s = inr (k, s').
Proof.
  intros Hb. induction l as [|a l IH]; intros i s l' s' k H Hk.
  { injection H as <- <-. by inv Hk. }
  apply forEach_cons in H as (a' & s1 & m & s2 & H1 & H2 & [= -> ->]). inv Hk. apply forEach_cons.
  do 4 eexists. split_and!; [by eapply Hb|by eapply IH|done].
Qed.

Lemma forEach_idem l : (∀ i a s a' s', body i a s = inr (a', s') → body i a' s = inr (a', s')) →
  ∀ i s l' s', forEach body i l s = inr (l', s') → forEach body i l' s = inr (l', s').
Proof.
  intros Hb i s l' s' H. eapply (forEach_again eq); [|exact H|by apply list_eq_Forall2].
  intros j a s1 a' s2 b Ha <-. by eapply Hb.
Qed.

(** A property of the produced elements that later states preserve. *)
Lemma forEach_final (P : A → St → Prop) l :
  (∀ i a s a' s', body i a s = inr (a', s') → P a' s' ∧ ∀ b, P b s → P b s') →
  ∀ i s l' s', forEach body i l s = inr (l', s') → (∀ a, a ∈ l' → P a s') ∧ ∀ b, P b s → P b s'.
Proof.
  intros HP. induction l as [|a l IH]; intros i s l' s' H.
  { injection H as <- <-. split; [intros ? H'; by apply elem_of_nil in H'|done]. }
  apply forEach_cons in H as (a' & s1 & k & s2 & H1 & H2 & [= -> ->]).
  apply HP in H1 as [Pa H1]. apply IH in H2 as [Pk H2]. split; [|auto].
  intros b. rewrite elem_of_cons. intros [->|Hb]; auto.
Qed.
End loops.

(** * Scheduling metadata *)

Section parameters.
Context (ParseDuration : string → option Z) (Compile : object → option def_error) (freshness : bool)
  (range_order : option string → gset string → list string).

(** Normalized declarations of distinct resources with positive limits and readable windows. *)
Record limits_ok (limits : list RateLimit) (resources : gset string) : Prop := {
  lim_resources : ∀ r, r ∈ resources ↔ ∃ l, l ∈ limits ∧ rld_Resource l = r;
  lim_valid : ∀ l, l ∈ limits → TrimSpace (rld_Resource l) = rld_Resource l ∧ rld_Resource l ≠ "" ∧
    0 < rld_Limit l ∧ is_Some (ParseDuration (rld_Window l));
  lim_unique : NoDup (map rld_Resource limits);
}.

Lemma validateRateLimit_ok i l resources l' resources' :
  validateRateLimit ParseDuration i l resources = inr (l', resources') ↔
  l' = mkRateLimit (TrimSpace (rld_Resource l)) (rld_Limit l) (rld_Window l) ∧
  resources' = {[rld_Resource l']} ∪ resources ∧ rld_Resource l' ∉ resources ∧ rld_Resource l' ≠ "" ∧
  0 < rld_Limit l ∧ is_Some (ParseDuration (rld_Window l)).
Proof.
  unfold validateRateLimit, str_eqb. cbv zeta. split.
  - rewrite bind_ok. intros ([] & H1%require_ok & H). apply bind_ok in H as ([] & H2%require_ok & H).
    apply bind_ok in H as ([] & H3%require_ok & H). apply bind_ok in H as ([] & H4%require_ok & [= <- <-]).
    bool_prop. apply bool_decide_eq_false in H1. apply bool_decide_eq_true in H3, H4. done.
  - intros (-> & -> & Hin & Hne & Hl & Hw). simpl in *. unfold require.
    rewrite (bool_decide_eq_false_2 (_ = _)) by done. rewrite !bool_decide_eq_true_2 by done.
    by rewrite (proj2 (Z.ltb_lt _ _) Hl).
Qed.

Lemma rateLimits_ok limits limits' resources :
  forEach (validateRateLimit ParseDuration) 0 limits ∅ = inr (limits', resources) → limits_ok limits' resources.
Proof.
  assert (∀ l i s l' s', forEach (validateRateLimit ParseDuration) i l s = inr (l', s') →
    (∀ r, r ∈ s' ↔ r ∈ s ∨ ∃ x, x ∈ l' ∧ rld_Resource x = r) ∧
    (∀ x, x ∈ l' → rld_Resource x ∉ s) ∧ NoDup (map rld_Resource l') ∧
    ∀ x, x ∈ l' → TrimSpace (rld_Resource x) = rld_Resource x ∧ rld_Resource x ≠ "" ∧
      0 < rld_Limit x ∧ is_Some (ParseDuration (rld_Window x))) as H.
  { induction l as [|a l IH]; intros i s l' s' H.
    { injection H as <- <-. split; [intros r; set_solver|]. split; [intros x Hx; by apply elem_of_nil in Hx|].
      split; [apply NoDup_nil_2|intros x Hx; by apply elem_of_nil in Hx]. }
    apply forEach_cons in H as (a' & s1 & k & s2 & H1 & H2 & [= -> ->]).
    apply validateRateLimit_ok in H1 as (Ea & -> & Hnew & Hne & Hl & Hw). apply IH in H2 as (IH1 & IH3 & IH4 & IH2). split_and!.
    - intros r. rewrite IH1. setoid_rewrite elem_of_cons. set_solver.
    - intros x. rewrite elem_of_cons. intros [->|Hx]; [done|]. specialize (IH3 x Hx). set_solver.
    - simpl. apply NoDup_cons_2; [|done]. intros (x & Ex & Hx)%list_elem_of_In%in_map_iff. apply list_elem_of_In in Hx.
      apply (IH3 x Hx). set_solver.
    - intros x. rewrite elem_of_cons. intros [->|Hx]; [|auto].
      rewrite Ea in *. simpl in *. by rewrite TrimSpace_idemp. }
  intros E. apply H in E as (H1 & _ & H3 & H2). split; [|done|done]. intros r. rewrite H1. set_solver.
Qed.

(** * The step graph sees only part of a step *)

(** A container without settings. *)
Definition emptySpec : ContainerSpec := mkContainerSpec ∅ "" [] [] None.

Definition core (s : Step) : Step :=
  mkStep (s_Name s) (s_Type s) (s_Engine s) (s_Image s) [] (s_Next s) (s_DependsOn s) 0 0 false
    (s_TriggerRule s) false emptySpec [] "" ∅ None None None None [] None ∅.

Lemma checkSteps_core l : ∀ i names, checkSteps i names (map core l) = checkSteps i names l.
Proof.
  induction l as [|s l IH]; intros i names; [done|]. simpl. 
  change (checkStep i names (core s)) with (checkStep i names s).
  destruct (checkStep i names s); [done|]. apply IH.
Qed.

Lemma addStepEdges_core l names : ∀ i adj, addStepEdges names i (map core l) adj = addStepEdges names i l adj.
Proof.
  induction l as [|s l IH]; intros i adj; [done|]. simpl.
  destruct (addNext names i (s_Name s) (s_Next s) adj) as [|a1]; [done|]. unfold mbind, checked_bind.
  destruct (addDependsOn names i (s_Name s) (s_DependsOn s) a1); [done|]. apply IH.
Qed.

Lemma addChain_core l : ∀ adj, addChain (map core l) adj = addChain l adj.
Proof. induction l as [|s [|t l] IH]; intros adj; [done..|]. simpl in *. apply IH. Qed.

Lemma trim_core l : map trimStep (map core l) = map core (map trimStep l).
Proof. by rewrite !map_map. Qed.

Lemma explicit_core l : existsb explicitEdges (map core l) = existsb explicitEdges l.
Proof. induction l as [|s l IH]; [done|]. simpl. by rewrite IH. Qed.

(** Steps with the same graph fields have the same names and adjacency. *)
Lemma adjacency_core l l' r names adj : map core l = map core l' →
  computeStepAdjacency l = inr (r, names, adj) → computeStepAdjacency l' = inr (map trimStep l', names, adj).
Proof.
  intros E. unfold computeStepAdjacency. rewrite <- (checkSteps_core l), <- (checkSteps_core l'), E.
  destruct (checkSteps 0 ∅ (map core l')) as [|ns]; [done|]. unfold mbind, checked_bind.
  assert (map core (map trimStep l) = map core (map trimStep l')) as E' by (rewrite <- !trim_core; by f_equal).
  rewrite <- (addStepEdges_core (map trimStep l)), <- (addStepEdges_core (map trimStep l')), E'.
  destruct (addStepEdges ns 0 _ ∅) as [|a]; [done|].
  rewrite <- (explicit_core (map trimStep l)), <- (explicit_core (map trimStep l')), E'.
  rewrite <- (addChain_core (map trimStep l)), <- (addChain_core (map trimStep l')), E'.
  by intros [= _ <- <-].
Qed.

(** * Idempotence of the parts *)

Lemma rateLimit_again i l s l' s' : validateRateLimit ParseDuration i l s = inr (l', s') →
  validateRateLimit ParseDuration i l' s = inr (l', s').
Proof.
  intros H. apply validateRateLimit_ok in H as (-> & H). apply validateRateLimit_ok. simpl in *.
  by rewrite TrimSpace_idemp.
Qed.

Lemma blank_trim s : blank (TrimSpace s) = blank s.
Proof. unfold blank. by rewrite TrimSpace_idemp. Qed.

Lemma concurrency_again c c' : validateConcurrency c = inr c' → validateConcurrency c' = inr c'.
Proof.
  unfold validateConcurrency. cbv zeta. intros H. unbind H. injection H as <-. simpl.
  destruct (blank (con_Strategy c)) eqn:E; simpl; [|rewrite E]; rebind; done.
Qed.

Lemma scheduling_again m m' resources : validateSchedulingMetadata ParseDuration m = inr (m', resources) →
  validateSchedulingMetadata ParseDuration m' = inr (m', resources) ∧ md_Alias m' = md_Alias m ∧
  md_SchemaValidation m' = md_SchemaValidation m ∧ md_Datasets m' = md_Datasets m ∧
  md_Remediation m' = md_Remediation m ∧ limits_ok (md_RateLimits m') resources.
Proof.
  unfold validateSchedulingMetadata. intros H. unbind H. destruct x0 as [limits rs]. injection H as <- <-.
  split_and!; simpl; [|done..|by eapply rateLimits_ok].
  rebind. apply bind_ok. exists x. split.
  - destruct (md_Concurrency m) as [c|]; [|by injection R0 as <-]. unbind R0. injection R0 as <-.
    apply concurrency_again in R2. by rewrite R2.
  - apply (forEach_idem _ _ rateLimit_again) in R1. by rewrite R1.
Qed.

(** The admission settings of the metadata are in the vocabulary of the run store. *)
Lemma scheduling_ok m m' resources : validateSchedulingMetadata ParseDuration m = inr (m', resources) →
  md_Priority m' ∈ [""; "high"; "normal"; "low"] ∧
  ∀ c, md_Concurrency m' = Some c → 0 ≤ con_MaxRuns c ∧ con_Strategy c ∈ ConcurrencyStrategies.
Proof.
  unfold validateSchedulingMetadata. intros H. unbind H. destruct x0 as [limits rs]. injection H as <- <-. simpl.
  split; [by apply bool_decide_eq_true in R|]. intros c ->. destruct (md_Concurrency m) as [c0|]; [|done].
  unbind R0. injection R0 as ->. unfold validateConcurrency in R2. cbv zeta in R2. unbind R2. injection R2 as <-.
  apply bool_decide_eq_true in R3.
  simpl. split; [lia|done].
Qed.

Lemma trigger_again t t' : validateTrigger freshness t = inr t' →
  validateTrigger freshness t' = inr t' ∧ tg_Type t' = tg_Type t ∧ tg_DefaultParams t' = tg_DefaultParams t.
Proof.
  unfold validateTrigger. cbv zeta. intros H. unbind H. injection H as <-. simpl. split; [|done]. rebind. done.
Qed.

Lemma volume_again i v s v' s' : validateVolume i v s = inr (v', s') → validateVolume i v' s = inr (v', s').
Proof.
  unfold validateVolume. cbv zeta. intros H. unbind H. injection H as <- <-. simpl in *.
  rewrite TrimSpace_idemp. rebind. done.
Qed.

Lemma stepRateLimit_again resources i a s a' s' b ds :
  validateStepRateLimit resources i a s = inr (a', s') → b = with_Datasets ds a' →
  validateStepRateLimit resources i b s = inr (b, s').
Proof.
  unfold validateStepRateLimit. intros H ->. destruct (s_RateLimit a) as [rl|] eqn:E; simpl.
  - cbv zeta in H. unbind H. injection H as <- <-. simpl. rewrite TrimSpace_idemp.
    assert ((0 <=? (if srl_Units rl =? 0 then 1 else srl_Units rl)) = true) as Hu by (destruct (srl_Units rl =? 0); done).
    assert ((if (if srl_Units rl =? 0 then 1 else srl_Units rl) =? 0 then 1
             else if srl_Units rl =? 0 then 1 else srl_Units rl) = if srl_Units rl =? 0 then 1 else srl_Units rl) as Hz.
    { destruct (srl_Units rl =? 0) eqn:Ez; [done|]. by rewrite Ez. }
    rebind. rewrite Hz. done.
  - injection H as <- <-. simpl. by rewrite E.
Qed.

Lemma source_again i src s src' s' : validateSource ParseDuration i src s = inr (src', s') →
  validateSource ParseDuration i src' s = inr (src', s').
Proof.
  unfold validateSource. cbv zeta. intros H. unbind H. injection H as <- <-. simpl. rewrite TrimSpace_idemp.
  rebind. done.
Qed.

Lemma produced_again sources i step step' j p s p' s' : s_OutputSchema step' = s_OutputSchema step → s_Name step' = s_Name step →
  validateProduced ParseDuration Compile sources i step j p s = inr (p', s') →
  validateProduced ParseDuration Compile sources i step' j p' s = inr (p', s').
Proof.
  intros E1 E2. unfold validateProduced. cbv zeta. intros H. unbind H. injection H as <- <-. simpl.
  rewrite !TrimSpace_idemp, E1, E2. rebind. apply bind_ok. eexists. split; [|].
  { destruct (TrimSpace (pd_SchemaFrom p) =s "") eqn:Ef; [exact R6|].
    destruct (TrimSpace (pd_SchemaFrom p) =s DatasetSchemaFromOutput); [exact R6|done]. }
  rebind. done.
Qed.

Lemma consumed_again i j c s c' s' : validateConsumed Compile i j c s = inr (c', s') →
  validateConsumed Compile i j c' s = inr (c', s').
Proof.
  unfold validateConsumed. cbv zeta. intros H. unbind H. injection H as <- <-. simpl. rewrite TrimSpace_idemp.
  rebind. done.
Qed.

(** Replacing the consumed datasets of a step that has a datasets block. *)
Definition reconsume (c : list ConsumedDataset) (s : Step) : Step :=
  match s_Datasets s with
  | None => s
  | Some ds => with_Datasets (Some (mkStepDatasets c (sds_Produces ds))) s
  end.

Lemma consumes_shape i a s a' s' : validateConsumes Compile i a s = inr (a', s') → ∃ c, a' = reconsume c a.
Proof.
  unfold validateConsumes, reconsume. intros H. destruct (s_Datasets a) as [ds|].
  - unbind H. destruct x as [c ?]. injection H as <- <-. eauto.
  - injection H as <- <-. by exists [].
Qed.

Lemma consumes_again i a s a' s' : validateConsumes Compile i a s = inr (a', s') →
  validateConsumes Compile i a' s = inr (a', s').
Proof.
  unfold validateConsumes. intros H. destruct (s_Datasets a) as [ds|] eqn:E.
  - unbind H. destruct x as [c seen]. injection H as <- <-. simpl.
    apply (forEach_idem _ _ (consumed_again i)) in R. by rewrite R.
  - injection H as <- <-. by rewrite E.
Qed.

Lemma produces_again sources i a s a' s' b c : validateProduces ParseDuration Compile sources i a s = inr (a', s') →
  b = reconsume c a' → validateProduces ParseDuration Compile sources i b s = inr (b, s').
Proof.
  unfold validateProduces, reconsume. intros H ->. destruct (s_Datasets a) as [ds|] eqn:E.
  - unbind H. destruct x as [ps produced]. injection H as <- <-. simpl.
    match goal with |- context [validateProduced _ _ _ _ ?b] =>
      change (validateProduced ParseDuration Compile sources i b) with (validateProduced ParseDuration Compile sources i a) end.
    apply forEach_idem in R; [by rewrite R|]. intros j p t p' t'. by apply produced_again.
  - injection H as <- <-. by rewrite E, E.
Qed.

Lemma produces_shape sources i a s a' s' : validateProduces ParseDuration Compile sources i a s = inr (a', s') →
  ∃ ds, a' = with_Datasets ds a.
Proof.
  unfold validateProduces. intros H. destruct (s_Datasets a) as [ds|] eqn:E.
  - unbind H. destruct x as [ps produced]. injection H as <- <-. eauto.
  - injection H as <- <-. exists None. destruct a; simpl in *. by rewrite E.
Qed.

Lemma reconsume_shape c a : ∃ ds, reconsume c a = with_Datasets ds a.
Proof.
  unfold reconsume. destruct (s_Datasets a) as [ds|] eqn:E; [eauto|]. exists None.
  destruct a; simpl in *. by rewrite E.
Qed.

(** The passes over the datasets change only the datasets of the steps. *)
Definition redataset (a b : Step) : Prop := ∃ ds, b = with_Datasets ds a.

Lemma Forall2_compose {A} (R S T : A → A → Prop) l1 l2 l3 : (∀ a b c, R a b → S b c → T a c) →
  Forall2 R l1 l2 → Forall2 S l2 l3 → Forall2 T l1 l3.
Proof.
  intros H H1. revert l3. induction H1 as [|a b l1 l2 Hab _ IH]; intros l3 H2; inv H2; constructor; eauto.
Qed.

Lemma datasets_again m steps m' steps' :
  validateDatasets ParseDuration Compile m steps = inr (m', steps') →
  validateDatasets ParseDuration Compile m' steps' = inr (m', steps') ∧ Forall2 redataset steps steps' ∧
  md_Alias m' = md_Alias m ∧ md_SchemaValidation m' = md_SchemaValidation m ∧ md_Priority m' = md_Priority m ∧
  md_Concurrency m' = md_Concurrency m ∧ md_RateLimits m' = md_RateLimits m ∧
  md_ReplaySafe m' = md_ReplaySafe m ∧ md_Remediation m' = md_Remediation m.
Proof.
  unfold validateDatasets. intros H. unbind H. destruct x as [datasets sources]. unbind H.
  destruct x as [steps1 produced]. unbind H. destruct x as [steps2 u]. injection H as <- <-. simpl.
  pose proof (forEach_forall2 _ (λ a b, ∃ c, b = reconsume c a) _
    (λ i a s a' s', consumes_shape i a s a' s') _ _ _ _ R1) as Hc.
  split_and!; [| |done..].
  - apply bind_ok. exists (datasets, sources). split; [|apply bind_ok; exists (steps2, produced); split].
    + destruct (md_Datasets m) as [ds|]; [|by injection R as <- <-]. unbind R. destruct x as [srcs ss].
      injection R as <- <-. simpl. apply (forEach_idem _ _ source_again) in R2. by rewrite R2.
    + eapply (forEach_again _ (λ a b, ∃ c, b = reconsume c a)); [|exact R0|exact Hc].
      intros i a s a' s' b Ha [c Hb]. by eapply produces_again.
    + apply (forEach_idem _ _ consumes_again) in R1. by rewrite R1.
  - eapply Forall2_compose; [|eapply (forEach_forall2 _ redataset); [|exact R0]|exact Hc].
    + intros a b c [ds ->] [k ->]. destruct (reconsume_shape k (with_Datasets ds a)) as [ds' ->]. by exists ds'.
    + intros i a s a' s' Ha. by eapply produces_shape.
Qed.

(** ** Remediation *)

Lemma name_again known e1 e2 field i raw s name s' : validateName known e1 e2 field i raw s = inr (name, s') →
  ∀ e1 e2 field, validateName known e1 e2 field i name s = inr (name, s').
Proof.
  unfold validateName. cbv zeta. intros H. unbind H. injection H as <- <-. intros. rewrite TrimSpace_idemp.
  rebind. done.
Qed.

Lemma actions_again field l l' : validateRemediationActionList field l = inr l' →
  validateRemediationActionList field l' = inr l'.
Proof.
  unfold validateRemediationActionList. intros H. unbind H. destruct x as [k seen]. injection H as <-.
  apply forEach_idem in R; [by rewrite R|]. intros i a s a' s' Ha. by eapply name_again.
Qed.

Lemma perClass_again i e s e' s' : validatePerClass i e s = inr (e', s') → validatePerClass i e' s = inr (e', s').
Proof.
  unfold validatePerClass. cbv zeta. intros H. unbind H. injection H as <- <-. simpl. rewrite TrimSpace_idemp.
  apply actions_again in R1. rebind. done.
Qed.

Lemma autonomy_again a params a' : validateRemediationAutonomy a params = inr a' →
  validateRemediationAutonomy a' params = inr a'.
Proof.
  unfold validateRemediationAutonomy. intros H. unbind H. destruct x1 as [pc seen]. unbind H.
  injection H as <-. simpl. apply actions_again in R, R2. apply (forEach_idem _ _ perClass_again) in R1.
  rebind. done.
Qed.

Lemma escalation_again e e' : validateEscalation ParseDuration e = inr e' → validateEscalation ParseDuration e' = inr e'.
Proof.
  unfold validateEscalation. cbv zeta. intros H. unbind H. injection H as <-. simpl. rewrite !TrimSpace_idemp.
  rebind. done.
Qed.

Lemma remediation_again r params r' : validateRemediation ParseDuration r params = inr r' →
  validateRemediation ParseDuration r' params = inr r'.
Proof.
  unfold validateRemediation. cbv zeta. intros H. unbind H. destruct x as [classes seen]. unbind H.
  injection H as <-. simpl. rewrite TrimSpace_idemp. rebind.
  assert (negb (bool_decide (classes = [])) = true) as Hc.
  { destruct (mr_Classes r) as [|c l] eqn:E; [done|]. apply forEach_cons in R1 as (? & ? & ? & ? & _ & _ & [= -> ->]). done. }
  rebind. apply bind_ok. exists (classes, seen). split.
  { apply forEach_idem in R1; [done|]. intros i a s a' s' Ha. by eapply name_again. }
  rebind. apply bind_ok. exists x. split.
  { destruct (mr_Autonomy r) as [a|]; [|by injection R3 as <-]. unbind R3. injection R3 as <-.
    apply autonomy_again in R5. by rewrite R5. }
  apply bind_ok. exists x0. split; [|done].
  destruct (mr_Escalation r) as [e|]; [|by injection R4 as <-]. unbind R4. injection R4 as <-.
  apply escalation_again in R5. by rewrite R5.
Qed.

(** * Steps *)

(** Every branch step names a successor after trimming. *)
Definition branch_refs (steps : list Step) : Prop :=
  ∀ s, s ∈ steps → s_Type s = StepTypeBranch → trimCopy (s_Next s) ≠ [].

Lemma trimCopy_idemp l : trimCopy (trimCopy l) = trimCopy l.
Proof.
  induction l as [|v l IH]; [done|]. rewrite trimCopy_cons. destruct (TrimSpace v =s "") eqn:E; [done|].
  rewrite trimCopy_cons, TrimSpace_idemp, E, IH. done.
Qed.

Lemma trimStep_idemp s : trimStep (trimStep s) = trimStep s.
Proof. unfold trimStep. simpl. by rewrite !trimCopy_idemp. Qed.

Lemma map_trim_idemp l : map trimStep (map trimStep l) = map trimStep l.
Proof. rewrite map_map. apply map_ext. apply trimStep_idemp. Qed.

Lemma numbered_trim l : ∀ i names, numbered i (map trimStep l) names = numbered i l names.
Proof. induction l as [|s l IH]; intros i names; simpl; auto. Qed.

Lemma shape_trim s : step_shape s → (s_Type s = StepTypeBranch → trimCopy (s_Next s) ≠ []) → step_shape (trimStep s).
Proof. intros [] Hb. split; simpl; rewrite ?trimCopy_idemp; auto. Qed.

Lemma adjacency_trim steps r names adj : branch_refs steps → computeStepAdjacency steps = inr (r, names, adj) →
  computeStepAdjacency (map trimStep steps) = inr (map trimStep steps, names, adj).
Proof.
  intros Hb. unfold computeStepAdjacency. rewrite map_trim_idemp. intros H. apply bind_ok in H as (ns & H1 & H).
  apply checkSteps_ok in H1 as (Hs & Hnd & ->).
  rewrite (proj2 (checkSteps_ok (map trimStep steps) 0 ∅ (numbered 0 steps ∅))).
  - unfold mbind at 1, checked_bind at 1. cbv zeta in *. apply bind_ok in H as (a & Ha & [= <- <- <-]).
    by rewrite Ha.
  - split_and!; [|by rewrite map_names_trim|by rewrite numbered_trim].
    intros t Ht. apply list_elem_of_In, in_map_iff in Ht as (s & <- & Hin). apply list_elem_of_In in Hin.
    split; [|done]. apply shape_trim; [by apply Hs|]. by apply Hb.
Qed.

Definition rerate (a b : Step) : Prop := ∃ rl, b = with_RateLimit rl a.

Lemma rate_shape resources i a s a' s' : validateStepRateLimit resources i a s = inr (a', s') → rerate a a'.
Proof.
  unfold validateStepRateLimit, rerate. destruct (s_RateLimit a) as [rl|] eqn:E; cbv zeta; intros H.
  - unbind H. injection H as <- <-. eauto.
  - injection H as <- <-. exists None. destruct a; simpl in *. by rewrite E.
Qed.

(** The changes after the graph check: rate limits and datasets. *)
Definition annotated (a b : Step) : Prop := ∃ rl ds, b = with_Datasets ds (with_RateLimit rl a).

Lemma annotated_core l l' : Forall2 annotated l l' → map core l = map core l'.
Proof. induction 1 as [|a b l l' (rl & ds & ->) _ IH]; [done|]. apply (f_equal2 cons); [done|exact IH]. Qed.

Lemma annotated_trim l l' : Forall2 annotated (map trimStep l) l' → map trimStep l' = l'.
Proof.
  revert l'. induction l as [|s l IH]; intros l' H; inv H as [|? ? ? ? (rl & ds & ->) H']; [done|]. simpl.
  f_equal; [|auto]. unfold trimStep. simpl. by rewrite !trimCopy_idemp.
Qed.

Lemma checkEach_forall2 {A} (R : A → A → Prop) (f g : nat → A → checked ()) i l l' : Forall2 R l l' →
  (∀ j a b, R a b → f j a = g j b) → checkEach f i l = inr () → checkEach g i l' = inr ().
Proof.
  intros HR Hfg. rewrite !checkEach_ok. intros H j b Hb.
  destruct (Forall2_lookup_r _ _ _ _ _ HR Hb) as (a & Ha & Hab). rewrite <- (Hfg _ a b Hab). by apply H.
Qed.

Lemma output_schema_annotated l l' i : Forall2 annotated l l' →
  (l !! i ≫= s_OutputSchema) = (l' !! i ≫= s_OutputSchema).
Proof.
  intros H. destruct (l !! i) as [a|] eqn:E.
  - destruct (Forall2_lookup_l _ _ _ _ _ H E) as (b & -> & (rl & ds & ->)). done.
  - apply Forall2_length in H. apply lookup_ge_None in E. by rewrite (proj2 (lookup_ge_None l' i)) by lia.
Qed.

Lemma schemas_annotated names adj l l' : Forall2 annotated l l' →
  validateSchemas Compile l names adj = inr () → validateSchemas Compile l' names adj = inr ().
Proof.
  intros HR. unfold validateSchemas. eapply checkEach_forall2; [exact HR|].
  intros j a b (rl & ds & ->). unfold validateStepSchemas. simpl.
  destruct (match s_OutputSchema a with Some schema => validateOutputSchema Compile (s_Name a) schema | None => mret () end);
    [done|]. match goal with |- (inr ?u ≫= ?k) = (inr ?u ≫= ?k') => change (k u = k' u) end. cbv beta.
  assert (∀ e, validateInputEntry j (s_Name a) (predecessorsOf adj (s_Name a)) names l e =
               validateInputEntry j (s_Name a) (predecessorsOf adj (s_Name a)) names l' e) as He.
  { intros [p c]. simpl. destruct (names !! p) as [idx|]; [|done]. by rewrite (output_schema_annotated l l' idx HR). }
  generalize 0%nat. induction (s_InputSchema a) as [|e es IH]; intros k; [done|]. simpl. rewrite He.
  destruct (validateInputEntry j _ _ names l' e); [done|]. apply IH.
Qed.

Lemma annotated_intro a b c : rerate a b → redataset b c → annotated a c.
Proof. intros [rl ->] [ds ->]. by exists rl, ds. Qed.

Lemma validateSteps_parts steps volumes resources steps' :
  validateSteps Compile range_order steps volumes resources = inr steps' → ∃ names adj,
  stepGraph range_order steps = inr (map trimStep steps, names, adj) ∧
  validateStepVolumeMounts (map trimStep steps) volumes = inr () ∧
  forEach (validateStepRateLimit resources) 0 (map trimStep steps) () = inr (steps', ()) ∧
  validateSchemas Compile steps' names adj = inr ().
Proof.
  unfold validateSteps, stepGraph. intros H. unbind H. destruct x as [[s1 names] adj]. unbind H.
  destruct x as [], x1 as [], x2 as []. injection H as <-.
  unfold validateStepRateLimits in R1. unbind R1. destruct x as [s2 []]. injection R1 as <-.
  pose proof (computeStepAdjacency_ok _ _ _ _ R) as (_ & -> & _ & _).
  exists names, adj. split_and!; [|done|done|done].
  apply bind_ok. eexists. split; [exact R|]. simpl. apply bind_ok. exists (). split; [exact R2|done].
Qed.

Lemma steps_again steps volumes resources steps' k : branch_refs steps →
  validateSteps Compile range_order steps volumes resources = inr steps' → Forall2 redataset steps' k →
  validateSteps Compile range_order k volumes resources = inr k.
Proof.
  intros Hb H Hk. apply validateSteps_parts in H as (names & adj & Hg & Hm & Hr & Hs).
  pose proof (forEach_forall2 _ rerate _ (λ i a s a' s', rate_shape resources i a s a' s') _ _ _ _ Hr) as Ht.
  pose proof (Forall2_compose _ _ _ _ _ _ annotated_intro Ht Hk) as Ha.
  unfold stepGraph in Hg. unbind Hg. destruct x as [[s1 ns] ad]. unbind Hg. injection Hg as -> -> ->. destruct x.
  apply (adjacency_trim _ _ _ _ Hb), (adjacency_core _ k) in R; [|by apply annotated_core].
  rewrite (annotated_trim _ _ Ha) in R. unfold validateSteps.
  apply bind_ok. eexists. split; [exact R|]. simpl. apply bind_ok. exists (). split.
  { eapply (checkEach_forall2 annotated); [exact Ha| |exact Hm]. by intros j a b (rl & ds & ->). }
  apply bind_ok. exists k. split.
  { unfold validateStepRateLimits. apply bind_ok. exists (k, ()). split; [|done].
    eapply (forEach_again _ redataset); [|exact Hr|exact Hk]. intros i a s a' s' b Hab [ds Hd].
    by eapply stepRateLimit_again. }
  apply bind_ok. exists (). split; [exact R0|]. apply bind_ok. exists (). split; [|done].
  eapply schemas_annotated; [|exact Hs]. eapply Forall2_impl; [exact Hk|].
  intros a b [ds ->]. exists (s_RateLimit a), ds. by destruct a.
Qed.

Lemma scheduling_frame m n resources : validateSchedulingMetadata ParseDuration m = inr (m, resources) →
  md_Priority n = md_Priority m → md_Concurrency n = md_Concurrency m → md_RateLimits n = md_RateLimits m →
  validateSchedulingMetadata ParseDuration n = inr (n, resources).
Proof.
  unfold validateSchedulingMetadata. intros H E1 E2 E3. rewrite E1, E2, E3. unbind H. destruct x0 as [limits rs].
  injection H as H <-. rebind. rewrite <- H in E2, E3. destruct n; simpl in *. by subst.
Qed.

Lemma datasets_frame r m steps : validateDatasets ParseDuration Compile m steps = inr (m, steps) →
  validateDatasets ParseDuration Compile (with_Remediation r m) steps = inr (with_Remediation r m, steps).
Proof.
  unfold validateDatasets. intros H. unbind H. destruct x as [datasets sources]. unbind H.
  destruct x as [steps1 produced]. unbind H. destruct x as [steps2 u]. injection H as Hm ->. simpl.
  rebind. rewrite <- Hm. done.
Qed.

(** Validating a validated definition succeeds and changes nothing, provided every
    branch step of the original names a successor after trimming; so the second
    validation of the apply path accepts what the first accepted. *)
Lemma validate_idempotent d d' : branch_refs (def_Steps d) →
  Validate ParseDuration Compile freshness range_order d = inr d' →
  Validate ParseDuration Compile freshness range_order d' = inr d'.
Proof.
  intros Hb. unfold Validate. cbv zeta. intros H. unbind H. destruct x as [m1 resources].
  unbind H. destruct x1 as [vols volumes]. unbind H. destruct x2 as [m2 steps2]. unbind H.
  injection H as <-. simpl.
  apply scheduling_again in R3 as (R3 & Ealias & Esv & Eds & Erem & _).
  apply trigger_again in R4 as (R4 & Ett & Edp).
  apply (forEach_idem _ _ volume_again) in R6.
  pose proof (datasets_again _ _ _ _ R9) as (R9' & Hf & Ea & Es & Ep & Ec & Erl & Ers & Er).
  pose proof (steps_again _ _ _ _ _ Hb R8 Hf) as R8'.
  assert (x3 = with_Remediation (md_Remediation x3) m2 ∧
    match md_Remediation x3 with
    | None => md_Remediation m2 = None
    | Some r => validateRemediation ParseDuration r (tg_DefaultParams x) = inr r
    end) as [Em Hrem].
  { destruct (md_Remediation m2) as [r|] eqn:Em2.
    - unbind R11. injection R11 as <-. split; [done|]. simpl. by eapply remediation_again.
    - injection R11 as <-. rewrite Em2. split; [|done]. destruct m2; simpl in *. by rewrite Em2. }
  assert (negb (bool_decide (map s_Name steps2 = [])) = true) as R7'.
  { destruct steps2; [|done]. inv Hf. apply validateSteps_parts in R8 as (? & ? & _ & _ & Hr & _).
    apply forEach_forall2 with (R := λ _ _, True) in Hr; [|done]. apply Forall2_length in Hr. rewrite length_map in Hr.
    by destruct (def_Steps d). }
  assert (validateSchedulingMetadata ParseDuration x3 = inr (x3, resources)) as R3'.
  { eapply scheduling_frame; [exact R3|rewrite Em; simpl; congruence..]. }
  pose proof (datasets_frame (md_Remediation x3) _ _ R9') as R9''. rewrite <- Em in R9''.
  rewrite <- Ealias, <- Ea in R1. rewrite <- Esv, <- Es in R2.
  assert (md_Alias x3 = md_Alias m2 ∧ md_SchemaValidation x3 = md_SchemaValidation m2 ∧ md_Datasets x3 = md_Datasets m2)
    as (Ea3 & Es3 & Ed3) by (rewrite Em; done).
  rewrite Ea3, Es3. rebind. unfold validateFreshnessTriggerDefinition in *. rewrite Ed3. rebind.
  destruct (md_Remediation x3) as [r|] eqn:E3.
  - assert (with_Remediation (Some r) x3 = x3) as Ex by (destruct x3; simpl in *; by rewrite E3).
    apply bind_ok. exists x3. split; [|done]. apply bind_ok. exists r. split; [exact Hrem|]. by rewrite Ex.
  - done.
Qed.
End parameters.
