(* ===== verification/RuntimeSpec.v ===== *)
(** Resolving a step's container settings (pkg/jobdef/definition.go,
    [RuntimeSpecForStep]): volume mounts against the job's volumes, and the
    Kubernetes settings of job and step.

    The clones of the source are values here, nil and empty maps are both empty,
    and [cloneAnyMap]'s trip through JSON text is the identity on JSON values. *)

From S2P Require Import Prelude Tables RateLimit JobDef StepGraph StepTheorems Validate ValidateTheorems.

Definition EffectiveReplaySafeForStep (d : Definition_) (step : Step) : bool :=
  md_ReplaySafe (def_Metadata d) || s_ReplaySafe step.

Definition convertClaimTemplate (source : ClaimTemplate) : KubernetesClaimTemplate :=
  let accessMode := TrimSpace (ct_AccessMode source) in
  mkKubernetesClaimTemplate (TrimSpace (ct_StorageClass source)) (TrimSpace (ct_Size source))
    (if accessMode =s "" then "ReadWriteOnce" else accessMode) (ct_Labels source) (ct_Annotations source).

Definition resolveVolumeMount (name : string) (source : VolumeSource) (mount : VolumeMount) : checked ResolvedMount :=
  kind ← sourceKind source;
  let resolved src tmpfs claim vs :=
    mkResolvedMount (TrimSpace name) kind src (TrimSpace (vm_Path mount)) (vm_ReadOnly mount)
      (TrimSpace (vm_SubPath mount)) tmpfs claim vs in
  if kind =s "bind" then mret (resolved (TrimSpace (vs_Bind source)) None None None)
  else if kind =s "volume" then mret (resolved (TrimSpace (vs_Volume source)) None None None)
  else if kind =s "tmpfs" then mret (resolved "" (vs_Tmpfs source) None None)
  else if kind =s "pvc" then mret (resolved (TrimSpace (vs_PVC source)) None None None)
  else if kind =s "claimTemplate" then mret (resolved "" None (convertClaimTemplate <$> vs_ClaimTemplate source) None)
  else if kind =s "volumeSource" then
    mret (resolved "" None None (match vs_VolumeSource source with Some (e :: l) => Some (e :: l) | _ => None end))
  else fail (Errorf "unsupported source kind %q" [Q kind]).

(** [volumes[volume.Name] = volume] over the job's volumes. *)
Definition volumesByName (volumes : list Volume) : gmap string Volume :=
  fold_left (λ m v, <[v_Name v := v]> m) volumes ∅.

Fixpoint resolveMounts (volumes : gmap string Volume) (step : Step) (mounts : list VolumeMount)
    : checked (list ResolvedMount) :=
  match mounts with
  | [] => mret []
  | mount :: l =>
      match volumes !! TrimSpace (vm_Volume mount) with
      | None => fail (Errorf "step %s references unknown volume %q" [Q (s_Name step); Q (vm_Volume mount)])
      | Some volume =>
          source ← wrap (λ e, Errorf "step %s volume %s: %w" [Q (s_Name step); Q (v_Name volume); W e])
                     (sourceForEngine volume (s_Engine step));
          resolved ← wrap (λ e, Errorf "step %s volume %s: %w" [Q (s_Name step); Q (v_Name volume); W e])
                       (resolveVolumeMount (v_Name volume) source mount);
          rest ← resolveMounts volumes step l;
          mret (resolved :: rest)
      end
  end.

(** The step's settings override the job's; annotations are merged. *)
Definition kubernetesSpec (m : Metadata) (step : Step) : KubernetesSpec :=
  mkKubernetesSpec
    (if blank (s_ServiceAccountName step) then TrimSpace (md_ServiceAccountName m) else TrimSpace (s_ServiceAccountName step))
    (s_PodAnnotations step ∪ md_PodAnnotations m)
    (match s_AutomountServiceAccountToken step with Some b => Some b | None => md_AutomountServiceAccountToken m end)
    (match s_Kueue step with Some q => TrimSpace q | None => "" end).

Definition RuntimeSpecForStep (d : Definition_) (step : Step) : checked ContainerSpec :=
  mounts ← resolveMounts (volumesByName (def_Volumes d)) step (s_VolumeMounts step);
  let spec := s_Spec step in
  let k8s := kubernetesSpec (def_Metadata d) step in
  let kubernetes :=
    if (s_Engine step =s EngineKubernetes) &&
       (negb (ks_ServiceAccountName k8s =s "") || negb (bool_decide (ks_PodAnnotations k8s = ∅)) ||
        bool_decide (is_Some (ks_AutomountServiceAccountToken k8s)) || negb (ks_QueueName k8s =s ""))
    then Some k8s else cs_Kubernetes spec in
  mret (mkContainerSpec (cs_Env spec) (cs_WorkDir spec) (cs_Mounts spec) mounts kubernetes).

(** * Validated definitions resolve *)

Section sound.
Context (ParseDuration : string → option Z) (Compile : object → option def_error) (freshness : bool)
  (range_order : option string → gset string → list string).

(** The table [validateVolumes] returns is the one the resolution builds. *)
Lemma validateVolume_ok i v s v' s' : validateVolume i v s = inr (v', s') →
  v_Name v' = TrimSpace (v_Name v) ∧ s !! v_Name v' = None ∧ s' = <[v_Name v' := v']> s.
Proof.
  unfold validateVolume. cbv zeta. intros H. unbind H. injection H as <- <-. simpl.
  by apply bool_decide_eq_true in R0.
Qed.

Lemma volumes_table l i s l' s' : forEach validateVolume i l s = inr (l', s') →
  s' = fold_left (λ m v, <[v_Name v := v]> m) l' s.
Proof.
  revert i s l' s'. induction l as [|v l IH]; intros i s l' s' H; [by injection H as <- <-|].
  apply forEach_cons in H as (v' & s1 & k & s2 & H1 & H2 & [= -> ->]). simpl.
  apply validateVolume_ok in H1 as (_ & _ & ->). by eapply IH.
Qed.

Lemma resolve_known name source mount kind : sourceKind source = inr kind →
  ∃ r, resolveVolumeMount name source mount = inr r ∧ rm_Type r = kind.
Proof.
  intros H. unfold resolveVolumeMount. rewrite H. unfold mbind, checked_bind. cbv zeta.
  assert (kind ∈ ["pvc"; "claimTemplate"; "volumeSource"; "bind"; "volume"; "tmpfs"]) as Hk.
  { unfold sourceKind, fail, mret, checked_ret in H. cbv zeta in H.
    destruct (blank (vs_PVC source)), (vs_ClaimTemplate source), (vs_VolumeSource source), (blank (vs_Bind source)),
      (blank (vs_Volume source)), (vs_Tmpfs source); simpl in H; simplify_eq; set_solver. }
  rewrite !elem_of_cons, elem_of_nil in Hk. destruct_or! Hk; subst kind; simpl; eauto.
Qed.

Lemma mounts_resolve volumes step i mounts paths r : ∀ j,
  forEach (validateVolumeMount volumes (s_Engine step) i) j mounts paths = inr r →
  ∃ l, resolveMounts volumes step mounts = inr l ∧
    map rm_Target l = map (λ m, TrimSpace (vm_Path m)) mounts ∧
    ∀ x, x ∈ l → sourceKindCompatible (rm_Type x) (s_Engine step) = true.
Proof.
  revert paths r. induction mounts as [|m mounts IH]; intros paths r j H.
  { exists []. split_and!; [done|done|]. intros x Hx. by apply elem_of_nil in Hx. }
  apply forEach_cons in H as (m' & p1 & k & p2 & H1 & H2 & ->). simpl.
  unfold validateVolumeMount in H1. cbv zeta in H1. unbind H1.
  destruct (volumes !! TrimSpace (vm_Volume m)) as [v|]; [|done]. unbind H1. 
  destruct (sourceForEngine v (s_Engine step)) as [|src] eqn:Es; [done|]. injection R3 as ->.
  destruct (sourceKind x) as [|kind] eqn:Ek; [done|]. injection R4 as ->.
  destruct (resolve_known (v_Name v) x m _ Ek) as (res & Hres & Hty). apply IH in H2 as (l & Hl & Ht & Hc).
  exists (res :: l). rewrite Hl. simpl. unfold mbind, checked_bind. rewrite Hres. split_and!; [done| |].
  - simpl. f_equal; [|done]. unfold resolveVolumeMount in Hres. rewrite Ek in Hres. unfold mbind, checked_bind in Hres.
    cbv zeta in Hres. repeat (case_match; [by injection Hres as <-|]). done.
  - intros y. rewrite elem_of_cons. intros [->|Hy]; [by rewrite Hty|auto].
Qed.

(** The precedence depends on names and trimmed references only. *)
Definition edge_view (s : Step) : string * list string * list string :=
  (s_Name s, trimCopy (s_Next s), trimCopy (s_DependsOn s)).

Lemma explicit_view l l' a b : map edge_view l = map edge_view l' → explicit_edge l a b → explicit_edge l' a b.
Proof.
  intros E (s & Hs & H). assert (edge_view s ∈ map edge_view l') as Hin.
  { rewrite <- E. apply list_elem_of_In, in_map. by apply list_elem_of_In. }
  apply list_elem_of_In, in_map_iff in Hin as (t & Et & Ht). apply list_elem_of_In in Ht.
  exists t. unfold edge_view in Et. injection Et as -> -> ->. done.
Qed.

Lemma step_edge_view l l' a b : map edge_view l = map edge_view l' → step_edge l a b → step_edge l' a b.
Proof.
  intros E [H|[Hno H]]; [left; by eapply explicit_view|]. right. split.
  - intros x y Hxy. apply (Hno x y). eapply explicit_view; [by symmetry|done].
  - assert (map s_Name l = map s_Name l') as En.
    { transitivity (map (λ v, v.1.1) (map edge_view l)); [by rewrite map_map|]. rewrite E. by rewrite map_map. }
    by rewrite <- En.
Qed.

Lemma annotated_view l l' : Forall2 annotated (map trimStep l) l' → map edge_view l = map edge_view l'.
Proof.
  revert l'. induction l as [|s l IH]; intros l' H; inv H as [|? ? ? ? (rl & ds & ->) H']; [done|].
  apply (f_equal2 cons); [|auto]. unfold edge_view. simpl. by rewrite !trimCopy_idemp.
Qed.

(** The result of [Validate] in its parts. *)
Lemma Validate_parts d d' : Validate ParseDuration Compile freshness range_order d = inr d' →
  ∃ resources steps1 names adj,
  limits_ok ParseDuration (md_RateLimits (def_Metadata d')) resources ∧
  stepGraph range_order (def_Steps d) = inr (map trimStep (def_Steps d), names, adj) ∧
  validateStepVolumeMounts (map trimStep (def_Steps d)) (volumesByName (def_Volumes d')) = inr () ∧
  forEach (validateStepRateLimit resources) 0 (map trimStep (def_Steps d)) () = inr (steps1, ()) ∧
  validateSchemas Compile steps1 names adj = inr () ∧ Forall2 redataset steps1 (def_Steps d') ∧
  Forall2 annotated (map trimStep (def_Steps d)) (def_Steps d') ∧ def_Steps d ≠ [].
Proof.
  unfold Validate. cbv zeta. intros H. unbind H. destruct x as [m1 resources].
  unbind H. destruct x1 as [vols volumes]. unbind H. destruct x2 as [m2 steps2]. unbind H.
  injection H as <-. simpl. apply scheduling_again in R3 as (_ & _ & _ & _ & _ & Hl).
  apply volumes_table in R6. apply validateSteps_parts in R8 as (names & adj & Hg & Hm & Hr & Hs).
  apply datasets_again in R9 as (_ & Hf & _ & _ & _ & _ & Erl & _ & _).
  exists resources, x1, names, adj. split_and!; [|done|by unfold volumesByName; rewrite <- R6|done|done|done| |].
  - destruct (md_Remediation m2); [unbind R11|]; injection R11 as <-; simpl; by rewrite Erl.
  - eapply Forall2_compose; [apply annotated_intro| |exact Hf].
    eapply forEach_forall2; [|exact Hr]. apply rate_shape.
  - intros E. by rewrite E in R7.
Qed.

(** The rule a declaration gives to a task that takes [units] of its resource. *)
Definition declared_rule (alias : string) (units : Z) (decl : RateLimit) (window : Z) : Rule :=
  mkRule (rld_Resource decl) units (rld_Limit decl) window alias.

(** A declared resource of a normalized list is found by the rule lookup. *)
Lemma rule_found alias limits resources resource units :
  limits_ok ParseDuration limits resources → resource ∈ resources → TrimSpace resource = resource → resource ≠ "" →
  0 < units → ∃ decl window, decl ∈ limits ∧ rld_Resource decl = resource ∧ 0 < rld_Limit decl ∧
  ParseDuration (rld_Window decl) = Some window ∧
  RuleFromRateLimits ParseDuration alias limits resource units = inr (Some (declared_rule alias units decl window)).
Proof.
  intros [Hr Hv _] Hin Ht Hne Hu. unfold RuleFromRateLimits. rewrite Ht. cbv zeta.
  replace ((resource =s "") || (units <=? 0)) with false.
  2:{ symmetry. apply orb_false_iff. split; [by apply bool_decide_eq_false|lia]. }
  apply Hr in Hin as (l & Hl & El). clear Hr. induction limits as [|x limits IH]; [by apply elem_of_nil in Hl|]. simpl.
  destruct (Hv x) as (Hx & _ & Hpos & [w Hw]); [by left|]. rewrite Hx.
  destruct (rld_Resource x =s resource) eqn:E.
  - rewrite Hw. exists x, w. apply str_eqb_eq in E as <-. split; [by left|done].
  - destruct IH as (decl & window & Hd & H'); [intros y Hy; apply Hv; by right| |].
    + apply elem_of_cons in Hl as [->|Hl]; [|done]. apply bool_decide_eq_false in E. done.
    + exists decl, window. split; [by right|done].
Qed.

Lemma rate_limit_ok resources i a s a' s' rl : validateStepRateLimit resources i a s = inr (a', s') →
  s_RateLimit a' = Some rl → srl_Resource rl ∈ resources ∧ TrimSpace (srl_Resource rl) = srl_Resource rl ∧
  srl_Resource rl ≠ "" ∧ 0 < srl_Units rl.
Proof.
  unfold validateStepRateLimit. destruct (s_RateLimit a) as [r|] eqn:E; cbv zeta; intros H Hrl.
  - unbind H. injection H as <- <-. injection Hrl as <-. simpl. rewrite TrimSpace_idemp. bool_prop.
    apply bool_decide_eq_true in R1. split_and!; [done|done|done|]. destruct (srl_Units r =? 0) eqn:Ez; lia.
  - injection H as <- <-. congruence.
Qed.

Lemma rate_limits_ok resources steps steps1 : forEach (validateStepRateLimit resources) 0 steps () = inr (steps1, ()) →
  ∀ a rl, a ∈ steps1 → s_RateLimit a = Some rl → srl_Resource rl ∈ resources ∧
  TrimSpace (srl_Resource rl) = srl_Resource rl ∧ srl_Resource rl ≠ "" ∧ 0 < srl_Units rl.
Proof.
  intros H a rl Ha Hrl. revert rl Hrl. revert a Ha.
  eapply (forEach_final _ (λ a _, ∀ rl, s_RateLimit a = Some rl → srl_Resource rl ∈ resources ∧
    TrimSpace (srl_Resource rl) = srl_Resource rl ∧ srl_Resource rl ≠ "" ∧ 0 < srl_Units rl)); [|exact H].
  intros i a s a' s' Hstep. split; [|done]. intros r. by eapply rate_limit_ok.
Qed.

(** An accepted input schema names a predecessor. *)
Lemma input_schema_edge steps names adj steps1 s p sch :
  (∀ a b, b ∈ targets adj a ↔ step_edge steps a b) → validateSchemas Compile steps1 names adj = inr () →
  s ∈ steps1 → (p, sch) ∈ s_InputSchema s → step_edge steps p (s_Name s).
Proof.
  intros Hadj H Hs Hin. destruct (checkEach_elem _ _ _ _ H Hs) as [i Hi]. unfold validateStepSchemas in Hi.
  apply bind_ok in Hi as ([] & _ & Hi). destruct (checkEach_elem _ _ _ _ Hi Hin) as [j Hj]. simpl in Hj.
  destruct (names !! p); [|done]. apply bind_ok in Hj as ([] & Hp%require_ok & _). apply bool_decide_eq_true in Hp.
  unfold predecessorsOf in Hp. apply elem_of_dom in Hp as [ts Hts]. apply map_lookup_filter_Some in Hts as [Ha Ht].
  apply Hadj. unfold targets. by rewrite Ha.
Qed.

(** The graph of the normalized steps. *)
Lemma validated_graph d d' : range_ok range_order →
  Validate ParseDuration Compile freshness range_order d = inr d' →
  def_Steps d' ≠ [] ∧ well_formed (def_Steps d) ∧ acyclic_steps (def_Steps d') ∧
  map s_Name (def_Steps d') = map s_Name (def_Steps d) ∧
  ∀ a b, step_edge (def_Steps d') a b ↔ step_edge (def_Steps d) a b.
Proof.
  intros Hrange H. apply Validate_parts in H as (resources & steps1 & names & adj & Hl & Hg & Hm & Hr & Hs & Hf & Ha & Hne).
  pose proof (step_graph_parts range_order (def_Steps d) Hrange) as HG. rewrite Hg in HG.
  destruct HG as (Hwf & (rank & Hac) & _ & _ & Hadj). pose proof (annotated_view _ _ Ha) as Hv.
  assert (∀ a b, step_edge (def_Steps d') a b ↔ step_edge (def_Steps d) a b) as Hedge.
  { intros a b. split; apply step_edge_view; done. }
  split_and!.
  - intros E. rewrite E in Ha. apply Forall2_length in Ha. rewrite length_map in Ha. by destruct (def_Steps d).
  - done.
  - exists rank. intros a b Hab. by apply Hac, Hedge.
  - transitivity (map (λ v, v.1.1) (map edge_view (def_Steps d'))); [by rewrite map_map|]. rewrite <- Hv. by rewrite map_map.
  - done.
Qed.

(** Every step's container settings resolve. *)
Lemma validated_specs d d' s : Validate ParseDuration Compile freshness range_order d = inr d' → s ∈ def_Steps d' →
  ∃ spec, RuntimeSpecForStep d' s = inr spec ∧
    ∀ m, m ∈ cs_ResolvedVolumeMounts spec → sourceKindCompatible (rm_Type m) (s_Engine s) = true.
Proof.
  intros H Hin. apply Validate_parts in H as (resources & steps1 & names & adj & Hl & Hg & Hm & Hr & Hs & Hf & Ha & Hne).
  apply list_elem_of_lookup in Hin as [j Hj].
  destruct (Forall2_lookup_r _ _ _ _ _ Ha Hj) as (t & Ht & (rl & ds & ->)).
  apply (proj1 (checkEach_ok _ _ _)) with (j := j) (a := t) in Hm; [|done].
  unfold validateStepMounts in Hm. unbind Hm. destruct (mounts_resolve _ _ _ _ _ _ _ R0) as (l & Hres & _ & Hc).
  unfold RuntimeSpecForStep. simpl.
  replace (resolveMounts (volumesByName (def_Volumes d')) (with_Datasets ds (with_RateLimit rl t)) (s_VolumeMounts t))
    with (resolveMounts (volumesByName (def_Volumes d')) t (s_VolumeMounts t)).
  - rewrite Hres. eexists. split; [reflexivity|]. done.
  - clear. induction (s_VolumeMounts t) as [|m l IH]; [done|]. simpl. by rewrite IH.
Qed.

(** Deriving the adjacency of the normalized steps again succeeds. *)
Lemma validated_adjacency d d' : branch_refs (def_Steps d) →
  Validate ParseDuration Compile freshness range_order d = inr d' →
  ∃ names adj, computeStepAdjacency (def_Steps d') = inr (def_Steps d', names, adj).
Proof.
  intros Hb H. apply Validate_parts in H as (resources & steps1 & names & adj & _ & Hg & _ & _ & _ & _ & Ha & _).
  exists names, adj. unfold stepGraph in Hg. unbind Hg. destruct x as [[s1 ns] ad]. unbind Hg. injection Hg as -> -> ->.
  apply (adjacency_trim _ _ _ _ Hb), (adjacency_core _ (def_Steps d')) in R; [|by apply annotated_core].
  by rewrite (annotated_trim _ _ Ha) in R.
Qed.

(** The admission settings of a validated definition. *)
Lemma validated_scheduling d d' : Validate ParseDuration Compile freshness range_order d = inr d' →
  md_Priority (def_Metadata d') ∈ [""; "high"; "normal"; "low"] ∧
  ∀ c, md_Concurrency (def_Metadata d') = Some c → 0 ≤ con_MaxRuns c ∧ con_Strategy c ∈ ConcurrencyStrategies.
Proof.
  unfold Validate. cbv zeta. intros H. unbind H. destruct x as [m1 resources].
  unbind H. destruct x1 as [vols volumes]. unbind H. destruct x2 as [m2 steps2]. unbind H.
  injection H as <-. simpl. apply scheduling_ok in R3 as [Hp Hcon].
  apply datasets_again in R9 as (_ & _ & _ & _ & Ep & Ec & _).
  destruct (md_Remediation m2); [unbind R11|]; injection R11 as <-; simpl; rewrite Ep, Ec; done.
Qed.

(** Every rate limited step finds its rule. *)
Lemma validated_rules d d' s rl alias : Validate ParseDuration Compile freshness range_order d = inr d' →
  s ∈ def_Steps d' → s_RateLimit s = Some rl → ∃ decl window,
  decl ∈ md_RateLimits (def_Metadata d') ∧ NoDup (map rld_Resource (md_RateLimits (def_Metadata d'))) ∧
  rld_Resource decl = srl_Resource rl ∧ 0 < rld_Limit decl ∧ ParseDuration (rld_Window decl) = Some window ∧
  RuleFromRateLimits ParseDuration alias (md_RateLimits (def_Metadata d')) (srl_Resource rl) (srl_Units rl) =
  inr (Some (declared_rule alias (srl_Units rl) decl window)) ∧
  TrimSpace (srl_Resource rl) = srl_Resource rl ∧ srl_Resource rl ≠ "" ∧ 0 < srl_Units rl.
Proof.
  intros H Hin Hrl. apply Validate_parts in H as (resources & steps1 & names & adj & Hl & Hg & Hm & Hr & Hs & Hf & Ha & Hne).
  apply list_elem_of_lookup in Hin as [j Hj].
  destruct (Forall2_lookup_r _ _ _ _ _ Hf Hj) as (t & Ht & (ds & ->)). simpl in Hrl.
  destruct (rate_limits_ok _ _ _ Hr t rl) as (H1 & H2 & H3 & H4); [by eapply list_elem_of_lookup_2|done|].
  destruct (rule_found alias _ _ _ _ Hl H1 H2 H3 H4) as (decl & window & Hd & Hdr & Hpos & Hw & E). exists decl, window.
  pose proof (lim_unique _ _ _ Hl). done.
Qed.

(** C19: A definition that validates is sound: it has steps, its step graph is well formed
    and acyclic and the normalization keeps it, every step's container settings resolve
    against the volumes of the definition, every rate limited step finds the rule of its
    resource with a positive limit, and every input schema names a predecessor. *)
Theorem validated_definition_sound d d' : range_ok range_order →
  Validate ParseDuration Compile freshness range_order d = inr d' →
  (def_Steps d' ≠ [] ∧ well_formed (def_Steps d) ∧ acyclic_steps (def_Steps d') ∧
   map s_Name (def_Steps d') = map s_Name (def_Steps d) ∧
   ∀ a b, step_edge (def_Steps d') a b ↔ step_edge (def_Steps d) a b) ∧
  (∀ s, s ∈ def_Steps d' → ∃ spec, RuntimeSpecForStep d' s = inr spec ∧
     ∀ m, m ∈ cs_ResolvedVolumeMounts spec → sourceKindCompatible (rm_Type m) (s_Engine s) = true) ∧
  (∀ s rl alias, s ∈ def_Steps d' → s_RateLimit s = Some rl → ∃ limit window, 0 < limit ∧
     RuleFromRateLimits ParseDuration alias (md_RateLimits (def_Metadata d')) (srl_Resource rl) (srl_Units rl) =
     inr (Some (mkRule (srl_Resource rl) (srl_Units rl) limit window alias))) ∧
  (∀ s p sch, s ∈ def_Steps d' → (p, sch) ∈ s_InputSchema s → step_edge (def_Steps d') p (s_Name s)).
Proof.
  intros Hrange H. pose proof (validated_graph _ _ Hrange H) as HG. split; [done|].
  split; [intros s; by apply (validated_specs d)|]. split.
  { intros s rl alias Hin Hrl. destruct (validated_rules d d' s rl alias H Hin Hrl) as (l & w & _ & _ & Er & ? & _ & E & _).
    exists (rld_Limit l), w. split; [done|]. rewrite E. unfold declared_rule. by rewrite Er. }
  destruct HG as (_ & _ & _ & _ & Hedge).
  apply Validate_parts in H as (resources & steps1 & names & adj & Hl & Hg & Hm & Hr & Hs & Hf & Ha & Hne).
  pose proof (step_graph_parts range_order (def_Steps d) Hrange) as HP. rewrite Hg in HP. destruct HP as (_ & _ & _ & _ & Hadj).
  intros s p sch Hin Hp. apply list_elem_of_lookup in Hin as [j Hj].
    destruct (Forall2_lookup_r _ _ _ _ _ Hf Hj) as (t & Ht & (ds & ->)). simpl in *. apply Hedge.
    eapply (input_schema_edge _ names adj steps1 t); [done|done|by eapply list_elem_of_lookup_2|done].
Qed.
End sound.

(** * A definition with a rate limit and a mounted volume *)

Definition demo_parse (s : string) : option Z := if s =s "1m" then Some (60 * 10 ^ 9) else None.
Definition demo_compile (schema : object) : option def_error := None.

Definition demo_rated : Step :=
  mkStep "load" StepTypeTask EngineDocker "img" [] [] ["extract"] 0 0 false "" false (mkContainerSpec ∅ "" [] [] None)
    [mkVolumeMount "data" "/data" false ""] "" ∅ None None (Some (mkStepRateLimit " api " 0)) None
    [("extract", [("required", JArr [JStr "rows"])])] None ∅.

Definition demo_extract : Step :=
  mkStep "extract" StepTypeBranch EngineDocker "img" [] ["load "] [] 0 0 false "" false (mkContainerSpec ∅ "" [] [] None)
    [] "" ∅ None None None (Some [("properties", JObj [("rows", JObj [("type", JStr "integer")])])]) [] None ∅.

Definition demo_volume : Volume :=
  mkVolume "data " (Some (mkVolumeSource "" None None "/srv" "" None)) [] "".

Definition demo_definition : Definition_ :=
  mkDefinition "v1" "Job"
    (mkMetadata "etl" "high" (Some (mkConcurrency 1 "")) [mkRateLimit "api" 10 "1m"] "" false None None "" ∅ None)
    (mkTrigger "cron" None []) [] [demo_volume] [demo_extract; demo_rated].

Definition demo_validated : Definition_ :=
  match Validate demo_parse demo_compile false canonical_order demo_definition with inr d => d | inl _ => demo_definition end.

Lemma demo_validates : Validate demo_parse demo_compile false canonical_order demo_definition = inr demo_validated.
Proof. vm_compute. reflexivity. Qed.

Lemma demo_branch_refs : branch_refs (def_Steps demo_definition).
Proof.
  intros s Hs. apply elem_of_cons in Hs as [->|Hs]; [done|]. apply elem_of_cons in Hs as [->|Hs]; [done|].
  by apply elem_of_nil in Hs.
Qed.

Lemma canonical_range : range_ok canonical_order.
Proof. intros loop X. reflexivity. Qed.

Lemma validate_idempotent_witness :
  branch_refs (def_Steps demo_definition) ∧
  Validate demo_parse demo_compile false canonical_order demo_definition = inr demo_validated ∧
  Validate demo_parse demo_compile false canonical_order demo_validated = inr demo_validated.
Proof.
  split; [exact demo_branch_refs|]. split; [exact demo_validates|].
  exact (validate_idempotent demo_parse demo_compile false canonical_order _ _ demo_branch_refs demo_validates).
Defined.

Lemma validated_definition_sound_witness :
  range_ok canonical_order ∧ demo_validated ≠ demo_definition ∧ well_formed (def_Steps demo_definition) ∧
  acyclic_steps (def_Steps demo_validated).
Proof.
  destruct (validated_definition_sound demo_parse demo_compile false canonical_order _ _ canonical_range demo_validates)
    as ((_ & Hwf & Hac & _) & _).
  split; [exact canonical_range|]. split; [|split; [exact Hwf|exact Hac]].
  intros E. apply (f_equal (λ d, map s_Next (def_Steps d))) in E. vm_compute in E. discriminate E.
Defined.
