(* ===== verification/Dag.v ===== *)
(** DAG analysis of a job definition (internal/dag/analysis.go): predecessors, layers of
    steps that can run in parallel, roots and leaves.

    [order] gives the iteration order of the range over the successor map; [fuel]
    bounds the number of layers, one per step at most. *)

From S2P Require Import Prelude Tables RateLimit JobDef StepGraph StepTheorems.

(** * Model *)

Record StepInfo := mkStepInfo {
  si_Name : string;
  si_Engine : string;
  si_Image : string;
  si_DependsOn : list string;
  si_Successors : list string;
  si_Depth : nat;
}.

Record Analysis := mkAnalysis {
  an_Steps : list StepInfo;
  an_ExecutionOrder : list (list string);
  an_MaxParallelism : nat;
  an_RootSteps : list string;
  an_LeafSteps : list string;
}.

Abbreviation Edges := (gmap string (list string)).

(** Reading a map of slices, counters or depths; a missing key gives the zero value. *)
Definition listAt (m : Edges) (k : string) : list string := default [] (m !! k).
Definition countAt (m : gmap string Z) (k : string) : Z := default 0 (m !! k).
Definition depthAt (m : gmap string nat) (k : string) : nat := default 0%nat (m !! k).

(** [predecessors[to] = append(predecessors[to], from)] for each successor. *)
Definition addPredecessors (successors : Edges) (m : Edges) (from : string) : Edges :=
  fold_left (λ m to, <[to := listAt m to ++ [from]]> m) (listAt successors from) m.

Definition predecessorMap (order : list string) (names : list string) (successors : Edges) : Edges :=
  fold_left (addPredecessors successors) order (fold_left (λ m n, <[n := []]> m) names ∅).

(** One successor: its counter drops, and at zero it joins the next layer. *)
Definition release (acc : gmap string Z * list string) (succ : string) : gmap string Z * list string :=
  let '(inDegree, queue) := acc in
  let d := countAt inDegree succ - 1 in
  (<[succ := d]> inDegree, if d =? 0 then queue ++ [succ] else queue).

(** One layer: every step of it gets the depth and releases its successors. *)
Definition processStep (successors : Edges) (level : nat) (acc : gmap string nat * (gmap string Z * list string))
    (name : string) : gmap string nat * (gmap string Z * list string) :=
  let '(depth, st) := acc in
  (<[name := level]> depth, fold_left release (listAt successors name) st).

Fixpoint layerLoop (fuel : nat) (successors : Edges) (level : nat) (depth : gmap string nat)
    (inDegree : gmap string Z) (queue : list string) : option (gmap string nat * list (list string)) :=
  match queue with
  | [] => Some (depth, [])
  | _ =>
      match fuel with
      | O => None
      | S fuel =>
          let '(depth, (inDegree, next)) :=
            fold_left (processStep successors level) queue (depth, (inDegree, [])) in
          '(depth, layers) ← layerLoop fuel successors (S level) depth inDegree next;
          Some (depth, queue :: layers)
      end
  end.

Definition maxLength (layers : list (list string)) : nat :=
  fold_left (λ m layer, if (m <? length layer)%nat then length layer else m) layers 0%nat.

(** The second component is the result once the layers are known; [None] when the
    bound on the layers is used up. *)
Definition Analyze (order : gset string → list string) (map_order : list string → list string)
    (steps : list Step) : checked (option Analysis) :=
  '(steps, successors) ← DeriveStepSuccessors order steps;
  let names := map s_Name steps in
  let predecessors := predecessorMap (map_order (map fst (map_to_list successors))) names successors in
  let inDegree := fold_left (λ m n, <[n := Z.of_nat (length (listAt predecessors n))]> m) names ∅ in
  let roots := List.filter (λ n, countAt inDegree n =? 0) names in
  mret (match layerLoop (S (length steps)) successors 0 ∅ inDegree roots with
        | None => None
        | Some (depth, layers) =>
            Some (mkAnalysis
              (map (λ s, mkStepInfo (s_Name s) (s_Engine s) (s_Image s) (listAt predecessors (s_Name s))
                           (listAt successors (s_Name s)) (depthAt depth (s_Name s))) steps)
              layers (maxLength layers) roots
              (List.filter (λ n, (length (listAt successors n) =? 0)%nat) names))
        end).

(** [UniqueImages]: the images in definition order, each once. *)
Fixpoint uniqueImages (seen : gset string) (steps : list Step) : list string :=
  match steps with
  | [] => []
  | s :: l => if bool_decide (s_Image s ∈ seen) then uniqueImages seen l
              else s_Image s :: uniqueImages ({[s_Image s]} ∪ seen) l
  end.

Definition UniqueImages (steps : list Step) : list string := uniqueImages ∅ steps.

(** * Layering *)

Section kahn.
Context (names : list string) (succs : Edges) (preds : string → list string).
Hypothesis preds_nodup : ∀ n, NoDup (preds n).
Hypothesis succs_nodup : ∀ n, NoDup (listAt succs n).
Hypothesis edges_agree : ∀ a b, b ∈ listAt succs a ↔ a ∈ preds b.
Hypothesis preds_names : ∀ a b, a ∈ preds b → a ∈ names ∧ b ∈ names.

(** Predecessors of [n] outside the processed steps. *)
Definition waiting (P : gset string) (n : string) : nat := countb (λ p, negb (bool_decide (p ∈ P))) (preds n).

Lemma waiting_0 P n : waiting P n = 0%nat ↔ ∀ p, p ∈ preds n → p ∈ P.
Proof.
  unfold waiting. rewrite countb_0. split; intros H p Hp; specialize (H p Hp).
  - apply negb_false_iff, bool_decide_eq_true in H. done.
  - by apply negb_false_iff, bool_decide_eq_true.
Qed.

Lemma waiting_add P a n : a ∉ P →
  waiting P n = (waiting ({[a]} ∪ P) n + (if decide (a ∈ preds n) then 1 else 0))%nat.
Proof using preds_nodup.
  clear edges_agree preds_names succs_nodup. intros Ha. unfold waiting. specialize (preds_nodup n). induction (preds n) as [|p l IH].
  { rewrite decide_False by apply not_elem_of_nil. done. }
  apply NoDup_cons in preds_nodup as [Hp Hnd]. rewrite !countb_cons, (IH Hnd). clear IH.
  destruct (decide (p = a)) as [->|Hne].
  - rewrite (decide_False (P := a ∈ l)) by done. rewrite decide_True by by left.
    rewrite (bool_decide_eq_false_2 (a ∈ P)), (bool_decide_eq_true_2 (a ∈ {[a]} ∪ P)) by set_solver. simpl. lia.
  - rewrite (bool_decide_ext (p ∈ {[a]} ∪ P) (p ∈ P)) by set_solver.
    destruct (decide (a ∈ l)) as [Hl|Hl]; [rewrite decide_True by by right|rewrite decide_False by set_solver]; lia.
Qed.

(** State while a layer is processed: [P] is processed, [P0] was before the layer. *)
Record kahn (P0 P : gset string) (inDegree : gmap string Z) (queue : list string) : Prop := {
  k_degree : ∀ n, n ∈ names → countAt inDegree n = Z.of_nat (waiting P n);
  k_queue : ∀ n, n ∈ queue ↔ n ∈ names ∧ waiting P n = 0%nat ∧ waiting P0 n ≠ 0%nat;
  k_nodup : NoDup queue;
}.

(** Releasing the successors [l] of [a] that are left, the others are done. *)
Lemma release_loop P0 P a l : ∀ inDegree queue, a ∉ P → P0 ⊆ P → NoDup l → (∀ n, n ∈ l → a ∈ preds n) →
  (∀ n, n ∈ names → countAt inDegree n = Z.of_nat (if decide (n ∈ l) then waiting P n else waiting ({[a]} ∪ P) n)) →
  (∀ n, n ∈ queue ↔ n ∈ names ∧ n ∉ l ∧ waiting ({[a]} ∪ P) n = 0%nat ∧ waiting P0 n ≠ 0%nat) → NoDup queue →
  kahn P0 ({[a]} ∪ P) (fold_left release l (inDegree, queue)).1 (fold_left release l (inDegree, queue)).2.
Proof using preds_nodup preds_names.
  clear edges_agree succs_nodup. induction l as [|s l IH]; intros inDegree queue Ha HP Hnd Hl Hdeg Hq Hqn; simpl.
  { split; [|intros n; rewrite Hq; set_solver|done]. intros n Hn. rewrite (Hdeg n Hn).
    by rewrite decide_False by apply not_elem_of_nil. }
  apply NoDup_cons in Hnd as [Hs Hnd].
  assert (a ∈ preds s) as Has by (apply Hl; by left). destruct (preds_names _ _ Has) as [_ Hsn].
  assert (countAt inDegree s = Z.of_nat (waiting P s)) as Hc by (rewrite (Hdeg s Hsn); by rewrite decide_True by left).
  pose proof (waiting_add P a s Ha) as Hw. rewrite decide_True in Hw by done.
  assert (waiting P0 s ≠ 0%nat) as Hw0.
  { intros E. rewrite waiting_0 in E. specialize (E a Has). set_solver. }
  rewrite Hc.
  apply IH; [done|done|done|intros n Hn; apply Hl; by right| | |].
  - intros n Hn. unfold countAt. destruct (decide (n = s)) as [->|Hne].
    + rewrite lookup_insert_eq, decide_False by done. simpl. lia.
    + rewrite lookup_insert_ne by congruence. fold (countAt inDegree n). rewrite (Hdeg n Hn).
      f_equal. destruct (decide (n ∈ l)); [rewrite decide_True by by right|rewrite decide_False by set_solver]; done.
  - intros n. destruct (Z.of_nat (waiting P s) - 1 =? 0) eqn:E.
    + rewrite elem_of_app, list_elem_of_singleton, Hq. bool_prop. split.
      * intros [(? & ? & ? & ?)| ->]; [set_solver|]. split_and!; [done|done|lia|done].
      * intros (? & ? & ? & ?). destruct (decide (n = s)) as [->|]; [by right|left]. set_solver.
    + rewrite Hq. bool_prop. split; [intros (? & ? & ? & ?); set_solver|].
      intros (? & ? & ? & ?). split_and!; [done| |done|done]. intros Hin.
      apply elem_of_cons in Hin as [->|Hin]; [lia|done].
  - destruct (Z.of_nat (waiting P s) - 1 =? 0); [|done]. apply NoDup_app. split_and!; [done| |apply NoDup_singleton].
    intros n Hn. rewrite list_elem_of_singleton. intros ->. apply Hq in Hn as (_ & Hn & _). set_solver.
Qed.

Lemma waiting_mono P Q n : P ⊆ Q → waiting P n = 0%nat → waiting Q n = 0%nat.
Proof. rewrite !waiting_0. intros H H1 p Hp. by apply H, H1. Qed.

Lemma kahn_start P inDegree : (∀ n, n ∈ names → countAt inDegree n = Z.of_nat (waiting P n)) → kahn P P inDegree [].
Proof. intros H. split; [done| |constructor]. intros n. rewrite elem_of_nil. naive_solver. Qed.

Lemma processStep_kahn P0 P level depth inDegree queue a : a ∉ P → P0 ⊆ P → kahn P0 P inDegree queue →
  ∃ inDegree' queue', processStep succs level (depth, (inDegree, queue)) a = (<[a := level]> depth, (inDegree', queue')) ∧
  kahn P0 ({[a]} ∪ P) inDegree' queue'.
Proof using preds_nodup preds_names edges_agree succs_nodup.
  intros Ha HP [Hd Hq Hn]. eexists _, _. split.
  { unfold processStep. f_equal. apply surjective_pairing. }
  apply release_loop; [done|done|apply succs_nodup|by intros n Hs; apply edges_agree| | |done].
  - intros n Hin. rewrite (Hd n Hin). f_equal. case_decide as E; [done|]. rewrite (waiting_add P a n Ha).
    rewrite decide_False; [lia|]. by rewrite <- edges_agree.
  - intros n. rewrite Hq. pose proof (waiting_add P a n Ha) as Hw. rewrite edges_agree.
    destruct (decide (a ∈ preds n)); [|naive_solver lia]. split; [intros (_ & ? & _); lia|naive_solver].
Qed.

Lemma process_layer P0 level layer : ∀ P depth inDegree queue, NoDup layer → (∀ n, n ∈ layer → n ∉ P) → P0 ⊆ P →
  kahn P0 P inDegree queue →
  ∃ inDegree' queue', fold_left (processStep succs level) layer (depth, (inDegree, queue)) =
    (fold_left (λ d n, <[n := level]> d) layer depth, (inDegree', queue')) ∧
  kahn P0 (list_to_set layer ∪ P) inDegree' queue'.
Proof using preds_nodup preds_names edges_agree succs_nodup.
  induction layer as [|a l IH]; intros P depth inDegree queue Hnd Hout HP Hk.
  { exists inDegree, queue. split; [done|]. simpl. by rewrite (left_id_L ∅ (∪)). }
  apply NoDup_cons in Hnd as [Ha Hnd]. 
  destruct (processStep_kahn P0 P level depth inDegree queue a) as (d1 & q1 & E & Hk1); [apply Hout; by left|done|done|].
  cbn [fold_left]. rewrite E. destruct (IH ({[a]} ∪ P) (<[a := level]> depth) d1 q1) as (d2 & q2 & E2 & Hk2); [done| |set_solver|done|].
  - intros n Hn. pose proof (Hout n (list_elem_of_further _ _ _ Hn)). set_solver.
  - exists d2, q2. split; [done|]. cbn [list_to_set]. replace ({[a]} ∪ list_to_set l ∪ P) with (list_to_set l ∪ ({[a]} ∪ P)) by set_solver. done.
Qed.

Lemma depth_layer level layer : ∀ depth n, depthAt (fold_left (λ d n, <[n := level]> d) layer depth) n =
  if decide (n ∈ layer) then level else depthAt depth n.
Proof.
  clear. induction layer as [|a l IH]; intros depth n.
  { case_decide as H; [by apply elem_of_nil in H|done]. }
  cbn [fold_left]. rewrite IH. destruct (decide (n ∈ l)); [by rewrite decide_True by by right|].
  unfold depthAt. destruct (decide (n = a)) as [->|Hne].
  - by rewrite lookup_insert_eq, decide_True by by left.
  - rewrite lookup_insert_ne by congruence. rewrite decide_False; [done|]. set_solver.
Qed.

(** The steps not yet processed, in layers from [level] on. *)
Record layered (P : gset string) (level : nat) (depth : gmap string nat) (layers : list (list string)) : Prop := {
  la_elems : ∀ n, n ∈ concat layers ↔ n ∈ names ∧ n ∉ P;
  la_nodup : NoDup (concat layers);
  la_depth : ∀ (i : nat) layer n, layers !! i = Some layer → n ∈ layer → depthAt depth n = (level + i)%nat;
  la_before : ∀ n p, n ∈ concat layers → p ∈ preds n → p ∈ P ∨ (p ∈ concat layers ∧ (depthAt depth p < depthAt depth n)%nat);
  la_tight : ∀ n, n ∈ concat layers → depthAt depth n ≠ level → ∃ p, p ∈ preds n ∧ S (depthAt depth p) = depthAt depth n;
}.

Hypothesis ranked : ∃ rank : string → nat, ∀ a b, a ∈ preds b → (rank b < rank a)%nat.

(** While steps are left, one of them waits for nothing. *)
Lemma some_ready P : (∃ n, n ∈ names ∧ n ∉ P) → ∃ n, n ∈ names ∧ n ∉ P ∧ waiting P n = 0%nat.
Proof using ranked preds_names.
  destruct ranked as (rank & Hr). intros (n0 & Hn0 & HP0).
  set (M := fold_right Nat.max 0%nat (map rank names)).
  assert (∀ n, n ∈ names → (rank n ≤ M)%nat) as HM.
  { subst M. clear. induction names as [|x l IH]; intros n Hn; [by apply elem_of_nil in Hn|]. simpl.
    apply elem_of_cons in Hn as [->|Hn]; [lia|]. specialize (IH n Hn). lia. }
  assert (∀ k n, (M - rank n < k)%nat → n ∈ names → n ∉ P → ∃ n, n ∈ names ∧ n ∉ P ∧ waiting P n = 0%nat) as H; [|eauto].
  induction k as [|k IH]; intros n Hk Hn HP; [lia|].
  destruct (decide (waiting P n = 0%nat)) as [E|E]; [eauto|].
  assert (0 < waiting P n)%nat as (p & Hp & Hout)%countb_pos by lia.
  apply negb_true_iff, bool_decide_eq_false in Hout. destruct (preds_names _ _ Hp) as [Hpn _].
  apply (IH p); [|done|done]. specialize (Hr _ _ Hp). specialize (HM p Hpn). lia.
Qed.

(** What the loop knows when a layer starts. *)
Record frontier (P : gset string) (inDegree : gmap string Z) (queue : list string) : Prop := {
  f_degree : ∀ n, n ∈ names → countAt inDegree n = Z.of_nat (waiting P n);
  f_queue : ∀ n, n ∈ queue ↔ n ∈ names ∧ waiting P n = 0%nat ∧ n ∉ P;
  f_nodup : NoDup queue;
  f_done : ∀ n, n ∈ P → waiting P n = 0%nat;
}.

Lemma frontier_next P inDegree queue inDegree' queue' : frontier P inDegree queue →
  kahn P (list_to_set queue ∪ P) inDegree' queue' → frontier (list_to_set queue ∪ P) inDegree' queue'.
Proof.
  clear. intros [_ Hq _ Hdone] [Hd' Hq' Hn'].
  assert (∀ n, n ∈ list_to_set queue ∪ P → waiting P n = 0%nat) as Hold.
  { intros n. rewrite elem_of_union, elem_of_list_to_set. intros [Hn|Hn]; [apply Hq in Hn; tauto|auto]. }
  split; [done| |done|].
  - intros n. rewrite Hq'. split; intros (Hn & H1 & H2); (split_and!; [done|done|]).
    + intros Hin. by apply Hold in Hin.
    + intros E. apply H2. rewrite elem_of_union, elem_of_list_to_set.
      destruct (decide (n ∈ P)); [by right|left]. by apply Hq.
  - intros n Hn. eapply waiting_mono; [|by apply Hold]. set_solver.
Qed.

(** One more layer in front; its successors in the next layer wait for one of its steps. *)
Lemma layered_cons P level depth queue layers inDegree :
  frontier P inDegree queue → layered (list_to_set queue ∪ P) (S level) depth layers →
  (∀ n, n ∈ queue → depthAt depth n = level) →
  (∀ n, n ∈ concat layers → depthAt depth n = S level → waiting (list_to_set queue ∪ P) n = 0%nat ∧ waiting P n ≠ 0%nat) →
  layered P level depth (queue :: layers).
Proof using edges_agree preds_names.
  clear ranked succs_nodup preds_nodup. intros [_ Hq Hqn Hdone] [He Hn Hd Hb Ht] Hdepth Hnext.
  assert (∀ n, n ∈ concat (queue :: layers) ↔ n ∈ queue ∨ n ∈ concat layers) as Hc by (intros n; apply elem_of_app).
  assert (∀ n, n ∈ concat layers → (S level ≤ depthAt depth n)%nat) as Hge.
  { intros n Hin. apply list_elem_of_In, in_concat in Hin as (l & Hl & Hin). apply list_elem_of_In in Hl, Hin.
    apply list_elem_of_lookup in Hl as [i Hi]. rewrite (Hd i l n); [lia|done..]. }
  split.
  - intros n. rewrite Hc, He, Hq. rewrite elem_of_union, elem_of_list_to_set, Hq.
    split; [tauto|]. intros [H1 H2]. destruct (decide (waiting P n = 0%nat)); [by left|right]. tauto.
  - apply NoDup_app. split_and!; [done| |done]. intros n Hin Hin'. apply He in Hin' as [_ Hout].
    apply Hout. rewrite elem_of_union, elem_of_list_to_set. by left.
  - intros [|i] layer n Hi Hin; [injection Hi as <-; rewrite Hdepth by done; lia|].
    rewrite (Hd i layer n) by done. lia.
  - intros n p Hin Hp. rewrite Hc in Hin. destruct Hin as [Hin|Hin].
    + left. apply Hq in Hin as (_ & Hw & _). rewrite waiting_0 in Hw. auto.
    + destruct (Hb n p Hin Hp) as [HP|[Hpc Hlt]]; [|right; rewrite Hc; auto].
      rewrite elem_of_union, elem_of_list_to_set in HP. destruct HP as [Hpq|?]; [right|by left].
      rewrite Hc. split; [by left|]. rewrite (Hdepth p Hpq). specialize (Hge n Hin). lia.
  - intros n Hin Hne. rewrite Hc in Hin. destruct Hin as [Hin|Hin]; [by rewrite Hdepth in Hne|].
    destruct (decide (depthAt depth n = S level)) as [E|E]; [|auto]. destruct (Hnext n Hin E) as [H1 H2].
    assert (0 < waiting P n)%nat as (p & Hp & Hout)%countb_pos by lia. exists p. split; [done|].
    apply negb_true_iff, bool_decide_eq_false in Hout. rewrite waiting_0 in H1. specialize (H1 p Hp).
    rewrite elem_of_union, elem_of_list_to_set in H1. destruct H1 as [H1|?]; [|done]. rewrite Hdepth by done. lia.
Qed.

Lemma loop_end fuel P level depth inDegree : frontier P inDegree [] → ∃ depth' layers,
  layerLoop fuel succs level depth inDegree [] = Some (depth', layers) ∧ layered P level depth' layers ∧
  (∀ n, n ∉ concat layers → depthAt depth' n = depthAt depth n) ∧
  (∀ n, n ∈ concat layers → depthAt depth' n = level → n ∈ []).
Proof using ranked preds_names.
  intros [_ Hq _ _]. exists depth, []. split; [by destruct fuel|]. 
  assert (∀ n : string, n ∈ concat [] → False) as Hno by (intros n Hn; by apply elem_of_nil in Hn).
  split_and!; [split|done|done].
  - intros n. split; [by intros ?%Hno|]. intros Hn. destruct (some_ready P) as (m & H1 & H2 & H3); [eauto|].
    exfalso. apply (not_elem_of_nil m), Hq. done.
  - constructor.
  - intros i layer n Hi. by rewrite lookup_nil in Hi.
  - intros n p Hn. by apply Hno in Hn.
  - intros n Hn. by apply Hno in Hn.
Qed.

Lemma layerLoop_spec fuel : ∀ P level depth inDegree queue, (size (list_to_set names ∖ P) ≤ fuel)%nat →
  frontier P inDegree queue → ∃ depth' layers,
  layerLoop fuel succs level depth inDegree queue = Some (depth', layers) ∧ layered P level depth' layers ∧
  (∀ n, n ∉ concat layers → depthAt depth' n = depthAt depth n) ∧
  (∀ n, n ∈ concat layers → depthAt depth' n = level → n ∈ queue).
Proof using preds_nodup succs_nodup edges_agree preds_names ranked.
  induction fuel as [|fuel IH]; intros P level depth inDegree queue Hf HF; pose proof HF as [Hd Hq Hqn Hdone].
  - assert (queue = []) as ->; [|by apply loop_end].
    destruct queue as [|a l]; [done|]. exfalso. destruct (proj1 (Hq a)) as (Ha & _ & HaP); [by left|].
    assert (a ∈ (list_to_set names : gset string) ∖ P) as Hin.
    { apply elem_of_difference. by rewrite elem_of_list_to_set. }
    assert (size ((list_to_set names : gset string) ∖ P) ≠ 0%nat); [|lia].
    apply size_non_empty_iff. intros E. apply E in Hin. by apply elem_of_empty in Hin.
  - destruct queue as [|a l] eqn:Eq; [by apply loop_end|]. rewrite <- Eq in *. 
    destruct (process_layer P level queue P depth inDegree []) as (d1 & q1 & E & Hk);
      [done|intros n Hn; apply Hq in Hn; tauto|done|by apply kahn_start|].
    pose proof (frontier_next _ _ _ _ _ HF Hk) as HF'.
    destruct (IH (list_to_set queue ∪ P) (S level) (fold_left (λ d n, <[n := level]> d) queue depth) d1 q1)
      as (depth' & layers & EL & HL & Hold & Hlev); [|done|].
    { assert (size ((list_to_set names : gset string) ∖ (list_to_set queue ∪ P)) < size ((list_to_set names : gset string) ∖ P))%nat; [|lia].
      destruct (proj1 (Hq a)) as (Ha & _ & HaP); [rewrite Eq; by left|].
      apply subset_size. clear -Ha HaP Eq. split; [set_solver|]. intros H.
      assert (a ∈ (list_to_set names : gset string) ∖ (list_to_set queue ∪ P)) as Hx; [|rewrite Eq in Hx; set_solver].
      apply H. set_solver. }
    exists depth', (queue :: layers). split.
    { rewrite Eq at 1. cbn [layerLoop]. rewrite <- Eq. rewrite E, EL. done. }
    assert (∀ n, n ∈ queue → depthAt depth' n = level) as Hdq.
    { intros n Hn. rewrite Hold, depth_layer, decide_True; [done|done|]. rewrite (la_elems _ _ _ _ HL).
      rewrite elem_of_union, elem_of_list_to_set. tauto. }
    split_and!.
    + eapply layered_cons; [done|done|done|]. intros n Hn En. apply (k_queue _ _ _ _ Hk). by apply Hlev.
    + intros n. cbn [concat]. rewrite elem_of_app. intros Hn. rewrite Hold by tauto.
      rewrite depth_layer, decide_False by tauto. done.
    + intros n. cbn [concat]. rewrite elem_of_app. intros [Hn|Hn] Hl; [done|].
      apply list_elem_of_In, in_concat in Hn as (k & Hk1 & Hk2). apply list_elem_of_In in Hk1, Hk2.
      apply list_elem_of_lookup in Hk1 as [i Hi]. rewrite (la_depth _ _ _ _ HL i k n) in Hl by done. lia.
Qed.
End kahn.

(** * The maps [Analyze] builds *)

Lemma str_less_negtrans x y z : str_less y x = false → str_less z y = false → str_less z x = false.
Proof.
  unfold str_less. revert y z. induction x as [|a x IH]; intros [|b y] [|c z]; simpl; try done.
  intros H1 H2. unfold Ascii.compare in *.
  destruct (N.compare_spec (N_of_ascii b) (N_of_ascii a)) as [Eab|Lab|Lab]; [|done|];
  destruct (N.compare_spec (N_of_ascii c) (N_of_ascii b)) as [Ebc|Lbc|Lbc]; try done;
  destruct (N.compare_spec (N_of_ascii c) (N_of_ascii a)) as [Eac|Lac|Lac]; try done; try lia.
  by apply (IH y z).
Qed.

Lemma listAt_insert m k v n : listAt (<[k := v]> m) n = if decide (n = k) then v else listAt m n.
Proof.
  unfold listAt. case_decide as E; [by rewrite E, lookup_insert_eq|]. by rewrite lookup_insert_ne by congruence.
Qed.

Lemma addPredecessors_at succs m from b : NoDup (listAt succs from) →
  listAt (addPredecessors succs m from) b = listAt m b ++ (if bool_decide (b ∈ listAt succs from) then [from] else []).
Proof.
  unfold addPredecessors. generalize (listAt succs from). intros l. revert m. induction l as [|s l IH]; intros m Hnd.
  { rewrite bool_decide_eq_false_2 by apply not_elem_of_nil. cbn. by rewrite app_nil_r. }
  apply NoDup_cons in Hnd as [Hs Hnd]. cbn [fold_left]. rewrite IH, listAt_insert by done.
  destruct (decide (b = s)) as [<-|E].
  - rewrite (bool_decide_eq_false_2 (b ∈ l)), bool_decide_eq_true_2 by (done || by left). by rewrite app_nil_r.
  - f_equal. rewrite (bool_decide_ext (b ∈ l) (b ∈ s :: l)); [done|]. set_solver.
Qed.

Lemma predecessorMap_at order names succs b : (∀ n, NoDup (listAt succs n)) →
  listAt (predecessorMap order names succs) b = List.filter (λ from, bool_decide (b ∈ listAt succs from)) order.
Proof.
  intros Hnd. unfold predecessorMap.
  assert (∀ names m, listAt m b = [] → listAt (fold_left (λ m n, <[n:=[]]> m) names m) b = []) as Hinit.
  { clear. induction names as [|n l IH]; intros m Hm; [done|]. cbn [fold_left]. apply IH. rewrite listAt_insert.
    by case_decide. }
  assert (∀ m, listAt (fold_left (addPredecessors succs) order m) b =
    listAt m b ++ List.filter (λ from, bool_decide (b ∈ listAt succs from)) order) as H.
  { induction order as [|a l IH]; intros m; [by rewrite app_nil_r|]. cbn [fold_left List.filter].
    rewrite IH, addPredecessors_at, <- app_assoc by done. f_equal. by case_bool_decide. }
  rewrite H, Hinit; [done|]. unfold listAt. by rewrite lookup_empty.
Qed.

Lemma inDegree_at (f : string → Z) names n : n ∈ names → countAt (fold_left (λ m n, <[n := f n]> m) names ∅) n = f n.
Proof.
  assert (∀ m, (n ∈ names ∨ countAt m n = f n) → countAt (fold_left (λ m n, <[n := f n]> m) names m) n = f n) as H; [|auto].
  induction names as [|a l IH]; intros m Hn; [destruct Hn as [Hn|Hn]; [by apply elem_of_nil in Hn|done]|].
  cbn [fold_left]. apply IH. unfold countAt. destruct (decide (n = a)) as [->|Hne]; [right; by rewrite lookup_insert_eq|].
  rewrite lookup_insert_ne by congruence. destruct Hn as [Hn|Hn]; [left; set_solver|by right].
Qed.

Section analyze.
Context (order : gset string → list string) (map_order : list string → list string).
Hypothesis order_ok : ∀ X, order X ≡ₚ elements X.
Hypothesis map_order_ok : ∀ l, map_order l ≡ₚ l.

Lemma derive_successors steps steps' names adj : computeStepAdjacency steps = inr (steps', names, adj) →
  ∃ successors, DeriveStepSuccessors order steps = inr (map trimStep steps, successors) ∧
  (∀ a b, b ∈ listAt successors a ↔ step_edge steps a b) ∧ (∀ a, NoDup (listAt successors a)) ∧
  (∀ a, a ∈ map fst (map_to_list successors) ↔ ∃ b, step_edge steps a b) ∧
  (∀ a, StronglySorted (not_after str_less) (listAt successors a)).
Proof using order_ok.
  clear map_order_ok. intros E. unfold DeriveStepSuccessors. rewrite E. eexists. split.
  { pose proof (computeStepAdjacency_ok _ _ _ _ E) as (_ & -> & _). reflexivity. }
  apply computeStepAdjacency_ok in E as (Hwf & -> & Hnames & Hadj).
  assert (∀ X, sort_stable str_less (order X) ≡ₚ elements X) as Hsort by (intros X; by rewrite sort_stable_perm).
  assert (∀ a, a ∉ map s_Name steps → targets adj a = ∅) as Hout.
  { intros a Ha. apply set_eq. intros b. rewrite Hadj. split; [|by intros ?%elem_of_empty].
    intros Hab. by apply step_edge_names in Hab as [? _]. }
  set (successors := map_imap _ names).
  assert (∀ a, successors !! a = if bool_decide (targets adj a = ∅) then None else Some (sort_stable str_less (order (targets adj a)))) as Hlook.
  { intros a. subst successors. rewrite map_lookup_imap. destruct (names !! a) as [i|] eqn:Ei; [done|]. simpl.
    rewrite bool_decide_eq_true_2; [done|]. apply Hout. intros Ha. apply list_elem_of_lookup in Ha as [i Hi].
    apply Hnames in Hi. congruence. }
  split_and!.
  - intros a b. unfold listAt. rewrite Hlook, <- Hadj. case_bool_decide as Et; simpl; [rewrite Et; set_solver|].
    by rewrite Hsort, elem_of_elements.
  - intros a. unfold listAt. rewrite Hlook. case_bool_decide; simpl; [constructor|]. rewrite Hsort. apply NoDup_elements.
  - intros a. rewrite list_elem_of_In, in_map_iff. setoid_rewrite <- list_elem_of_In. split.
    + intros ([k l] & <- & Hin). apply elem_of_map_to_list in Hin. rewrite Hlook in Hin. case_bool_decide as Et; [done|].
      apply set_choose_L in Et as [b Hb]. exists b. by apply Hadj.
    + intros (b & Hab). apply Hadj in Hab. eexists (a, _). split; [done|]. apply elem_of_map_to_list. rewrite Hlook.
      rewrite bool_decide_eq_false_2; [reflexivity|]. set_solver.
  - intros a. unfold listAt. rewrite Hlook. case_bool_decide; simpl; [constructor|].
    apply sort_stable_sorted; unfold str_less.
    + intros x y. rewrite (String.compare_antisym x y). by destruct (String.compare y x).
    + apply str_less_negtrans.
Qed.

Lemma maxLength_max layers : (∀ l, l ∈ layers → (length l ≤ maxLength layers)%nat) ∧
  (maxLength layers = 0%nat ∨ ∃ l, l ∈ layers ∧ length l = maxLength layers).
Proof.
  unfold maxLength. assert (∀ m, (m ≤ fold_left (λ m l, if (m <? length l)%nat then length l else m) layers m)%nat ∧
    (∀ l, l ∈ layers → (length l ≤ fold_left (λ m l, if (m <? length l)%nat then length l else m) layers m)%nat) ∧
    (fold_left (λ m l, if (m <? length l)%nat then length l else m) layers m = m ∨
     ∃ l, l ∈ layers ∧ length l = fold_left (λ m l, if (m <? length l)%nat then length l else m) layers m)) as H.
  { clear. induction layers as [|x l IH]; intros m; cbn [fold_left].
    { split_and!; [done|intros l Hl; by apply elem_of_nil in Hl|by left]. }
    destruct (IH (if (m <? length x)%nat then length x else m)) as (H1 & H2 & H3).
    assert (length x ≤ (if (m <? length x)%nat then length x else m) ∧ m ≤ (if (m <? length x)%nat then length x else m))%nat
      as [Hx Hm] by (destruct (Nat.ltb_spec m (length x)); lia).
    split_and!; [lia|intros k Hk; apply elem_of_cons in Hk as [->|Hk]; [lia|auto]|].
    destruct H3 as [->|(k & Hk & E)]; [|right; exists k; split; [by right|done]].
    destruct (Nat.ltb_spec m (length x)); [right; exists x; split; [by left|done]|by left]. }
  destruct (H 0%nat) as (_ & H2 & H3). done.
Qed.

(** The layers follow the declared precedence. *)
Record layering (steps : list Step) (a : Analysis) (depth : string → nat) : Prop := {
  ly_steps : map si_Name (an_Steps a) = map s_Name steps;
  ly_info : ∀ i, i ∈ an_Steps a → si_Depth i = depth (si_Name i) ∧
    (∀ p, p ∈ si_DependsOn i ↔ step_edge steps p (si_Name i)) ∧
    (∀ b, b ∈ si_Successors i ↔ step_edge steps (si_Name i) b);
  ly_partition : concat (an_ExecutionOrder a) ≡ₚ map s_Name steps;
  ly_layer : ∀ (i : nat) layer n, an_ExecutionOrder a !! i = Some layer → n ∈ layer → depth n = i;
  ly_before : ∀ x y, step_edge steps x y → (depth x < depth y)%nat;
  ly_tight : ∀ n, n ∈ map s_Name steps → depth n ≠ 0%nat → ∃ p, step_edge steps p n ∧ S (depth p) = depth n;
  ly_parallel : ∀ layer, layer ∈ an_ExecutionOrder a → (length layer ≤ an_MaxParallelism a)%nat;
  ly_roots : ∀ n, n ∈ an_RootSteps a ↔ n ∈ map s_Name steps ∧ ∀ p, ¬ step_edge steps p n;
  ly_leaves : ∀ n, n ∈ an_LeafSteps a ↔ n ∈ map s_Name steps ∧ ∀ b, ¬ step_edge steps n b;
}.

(** The maps of [Analyze], given the successor map. *)
Section maps.
Context (steps : list Step) (succs : Edges).
Hypothesis Hwf : well_formed steps.
Hypothesis Hedge : ∀ a b, b ∈ listAt succs a ↔ step_edge steps a b.
Hypothesis Hnd : ∀ a, NoDup (listAt succs a).
Hypothesis Hkeys : ∀ a, a ∈ map fst (map_to_list succs) ↔ ∃ b, step_edge steps a b.

Let names := map s_Name steps.
Let preds := predecessorMap (map_order (map fst (map_to_list succs))) names succs.
Let inDegree : gmap string Z := fold_left (λ m n, <[n := Z.of_nat (length (listAt preds n))]> m) names ∅.
Let roots := List.filter (λ n, countAt inDegree n =? 0) names.

Lemma preds_edges p n : p ∈ listAt preds n ↔ step_edge steps p n.
Proof using map_order_ok Hedge Hnd Hkeys.
  unfold preds. rewrite predecessorMap_at by done. rewrite list_elem_of_In, filter_In, <- list_elem_of_In.
  rewrite bool_decide_eq_true, Hedge, map_order_ok, Hkeys. naive_solver.
Qed.

Lemma preds_unique n : NoDup (listAt preds n).
Proof using map_order_ok Hnd.
  unfold preds. rewrite predecessorMap_at by done. apply NoDup_ListNoDup, List.NoDup_filter, NoDup_ListNoDup.
  rewrite map_order_ok. apply NoDup_fst_map_to_list.
Qed.

Lemma inDegree_count n : n ∈ names → countAt inDegree n = Z.of_nat (length (listAt preds n)).
Proof. apply (inDegree_at (λ n, Z.of_nat (length (listAt preds n)))). Qed.

Lemma roots_elem n : n ∈ roots ↔ n ∈ names ∧ ∀ p, ¬ step_edge steps p n.
Proof using map_order_ok Hedge Hnd Hkeys.
  unfold roots. rewrite list_elem_of_In, filter_In, <- list_elem_of_In. split; intros [Hn H]; (split; [done|]).
  - rewrite (inDegree_count n Hn) in H. intros p Hp. apply preds_edges in Hp.
    destruct (listAt preds n); [by apply elem_of_nil in Hp|done].
  - rewrite (inDegree_count n Hn). destruct (listAt preds n) as [|p l] eqn:El; [done|]. exfalso. apply (H p).
    apply preds_edges. rewrite El. by left.
Qed.

Lemma waiting_all n : waiting (listAt preds) ∅ n = length (listAt preds n).
Proof.
  unfold waiting. generalize (listAt preds n). intros l. induction l as [|p l IH]; [done|].
  rewrite countb_cons, IH, bool_decide_eq_false_2 by apply not_elem_of_empty. done.
Qed.

Lemma first_frontier : frontier names (listAt preds) ∅ inDegree roots.
Proof using map_order_ok Hedge Hnd Hkeys Hwf.
  split.
  - intros n Hn. by rewrite waiting_all, inDegree_count.
  - intros n. rewrite roots_elem. split; intros (Hn & H); (split; [done|]).
    + split; [|apply not_elem_of_empty]. apply waiting_0. intros p Hp. apply preds_edges in Hp. by apply H in Hp.
    + intros p Hp. destruct H as [H _]. rewrite waiting_0 in H. apply preds_edges, H in Hp. by apply not_elem_of_empty in Hp.
  - unfold roots. apply NoDup_ListNoDup, List.NoDup_filter, NoDup_ListNoDup. apply Hwf.
  - intros n Hn. by apply not_elem_of_empty in Hn.
Qed.

Lemma layers_exist : acyclic_steps steps → ∃ depth layers,
  layerLoop (S (length steps)) succs 0 ∅ inDegree roots = Some (depth, layers) ∧
  layered names (listAt preds) ∅ 0 depth layers.
Proof using map_order_ok Hedge Hnd Hkeys Hwf.
  intros (rank & Hrank).
  assert (∀ a b, b ∈ listAt succs a ↔ a ∈ listAt preds b) as Hag by (intros a b; rewrite Hedge, preds_edges; done).
  assert (∀ a b, a ∈ listAt preds b → a ∈ names ∧ b ∈ names) as Hin.
  { intros a b Hab. apply preds_edges in Hab. by apply step_edge_names in Hab. }
  destruct (layerLoop_spec names succs (listAt preds) preds_unique Hnd Hag Hin) with (fuel := S (length steps))
    (P := ∅ : gset string) (level := 0%nat) (depth := ∅ : gmap string nat) (inDegree := inDegree) (queue := roots)
    as (depth & layers & EL & HL & _); [| |apply first_frontier|eauto].
  - exists rank. intros a b Hab. apply Hrank. by apply preds_edges.
  - rewrite difference_empty_L. rewrite size_list_to_set by apply Hwf. unfold names. rewrite length_map. lia.
Qed.
End maps.

(** C29: On a well-formed acyclic definition the analysis terminates and its layers
    partition the steps; each step lies in the layer of its depth, every edge leads to a
    later layer, and a step below the first layer has a predecessor in the layer just
    before it, so that the depth is the length of the longest path to the step. Roots,
    leaves, predecessors, successors and the parallelism bound are those of the declared
    precedence, for every iteration order of the maps. *)
Theorem analysis_layers steps : well_formed steps → acyclic_steps steps →
  ∃ a depth, Analyze order map_order steps = inr (Some a) ∧ layering steps a depth.
Proof using order_ok map_order_ok.
  intros Hwf Hac.
  destruct (computeStepAdjacency steps) as [e|[[steps' nm] adj]] eqn:E; [by apply computeStepAdjacency_err in E|].
  destruct (derive_successors _ _ _ _ E) as (succs & Hder & Hedge & Hnd & Hkeys & _). clear E.
  destruct (layers_exist steps succs Hwf Hedge Hnd Hkeys Hac) as (depth & layers & EL & [He Hnc Hd Hb Ht]).
  assert (∀ n, n ∈ concat layers ↔ n ∈ map s_Name steps) as Hall by (intros n; rewrite He; pose proof (not_elem_of_empty (C := gset string) n); tauto).
  eexists _, (depthAt depth). split.
  { unfold Analyze. rewrite Hder. unfold mbind, checked_bind. rewrite map_names_trim, length_map. cbv zeta.
    rewrite EL. reflexivity. }
  split; simpl.
  - rewrite map_map. by rewrite map_map.
  - intros i Hi. apply list_elem_of_In, in_map_iff in Hi as (s & <- & _). simpl. split_and!; [done| |done].
    intros p. by apply preds_edges.
  - apply NoDup_Permutation; [done|apply Hwf|done].
  - intros i layer n Hi Hn. by rewrite (Hd i layer n Hi Hn).
  - intros x y Hxy. destruct (step_edge_names _ _ _ Hwf Hxy) as [_ Hy].
    destruct (Hb y x) as [H|[_ H]]; [by apply Hall|by eapply preds_edges|by apply not_elem_of_empty in H|done].
  - intros n Hn Hne. destruct (Ht n) as (p & Hp & Hs); [by apply Hall|done|]. exists p. split; [|done]. by eapply preds_edges.
  - apply maxLength_max.
  - intros n. by apply roots_elem.
  - intros n. rewrite list_elem_of_In, filter_In, <- list_elem_of_In, Nat.eqb_eq. split; intros [Hn H]; (split; [done|]).
    + intros b Hb'. apply Hedge in Hb'. destruct (listAt succs n); [by apply elem_of_nil in Hb'|done].
    + destruct (listAt succs n) as [|b l] eqn:El; [done|]. exfalso. apply (H b). apply Hedge. rewrite El. by left.
Qed.
End analyze.

Lemma demo_well_formed : well_formed demo_steps ∧ acyclic_steps demo_steps.
Proof.
  pose proof (step_graph_parts canonical_order demo_steps (λ _ _, Permutation_refl _)) as H.
  destruct (stepGraph canonical_order demo_steps) as [e|[[? ?] ?]] eqn:E; [exfalso; vm_compute in E; discriminate E|].
  destruct H as (H1 & H2 & _). exact (conj H1 H2).
Qed.

Lemma analysis_layers_witness :
  well_formed demo_steps ∧ acyclic_steps demo_steps ∧
  (∃ a depth, Analyze elements id demo_steps = inr (Some a) ∧ layering demo_steps a depth) ∧
  (∃ a, Analyze elements id demo_steps = inr (Some a) ∧
     an_ExecutionOrder a = [["extract"]; ["left"; "right"]; ["load"]] ∧ an_MaxParallelism a = 2%nat).
Proof.
  destruct demo_well_formed as [H1 H2]. split; [exact H1|]. split; [exact H2|]. split.
  - exact (analysis_layers elements id (λ X, Permutation_refl _) (λ l, Permutation_refl _) demo_steps H1 H2).
  - eexists. split; [vm_compute; reflexivity|]. split; reflexivity.
Defined.
