(* ===== verification/Importer.v ===== *)
(** The importer (internal/jobdef/importer.go): applying a validated definition to the
    catalog of jobs, tasks, atoms, edges and callbacks, and retiring jobs.

    Rows carry their soft-delete mark; the tables of [Tables] hold the live rows
    ([publish]). [uuid.New()] takes the next identifier of a supply; [now] is the
    clock of the transaction. Left out: the trigger row, provenance columns other than
    the source of a job, and the rows of the snapshot, dataset-declaration and contract
    registries, whose verdict is the argument [registries]. *)

From S2P Require Import Prelude Tables Store RateLimit JobDef StepGraph StepTheorems Validate ValidateTheorems RuntimeSpec Dag.

(** * Rows *)

Record JobRow := mkJobRow {
  jb_ID : uuid;
  jb_Alias : string;
  jb_TriggerID : uuid;
  jb_Priority : string;
  jb_Concurrency : blob;
  jb_RateLimits : blob;
  jb_SchemaValidation : string;
  jb_ReplaySafe : bool;
  jb_Paused : bool;
  jb_ProvenanceSourceID : string;
  jb_Deleted : bool;
}.

Record TaskRow := mkTaskRow {
  tk_ID : uuid;
  tk_JobID : uuid;
  tk_AtomID : uuid;
  tk_Name : string;
  tk_Position : Z;
  tk_Type : string;
  tk_Retries : Z;
  tk_RetryDelay : Z;
  tk_RetryBackoff : bool;
  tk_TriggerRule : string;
  tk_ReplaySafe : bool;
  tk_RateLimitResource : string;
  tk_RateLimitUnits : Z;
  tk_CreatedAt : Z;
  tk_Deleted : bool;
  tk_NodeSelector : gmap string string;
}.

Record AtomRow := mkAtomRow {
  at_ID : uuid;
  at_Engine : string;
  at_Image : string;
  at_Command : list string;
  at_Spec : ContainerSpec;
  at_ReplaySafe : bool;
  at_Deleted : bool;
}.

Record CallbackRow := mkCallbackRow {
  cbr_ID : uuid;
  cbr_JobID : uuid;
  cbr_Type : string;
  cbr_Configuration : string;
  cbr_Position : Z;
  cbr_CreatedAt : Z;
  cbr_Deleted : bool;
}.

Record TriggerRow := mkTriggerRow {
  tgr_ID : uuid;
  tgr_Alias : string;
  tgr_Type : string;
  tgr_NormalizedPath : string;
  tgr_Configuration : blob;
  tgr_ProvenanceSourceID : string;
  tgr_Deleted : bool;
}.

Record Catalog := mkCatalog {
  c_jobs : list JobRow;
  c_tasks : list TaskRow;
  c_atoms : list AtomRow;
  c_edges : list TaskEdge;
  c_callbacks : list CallbackRow;
  c_triggers : list TriggerRow;
  c_supply : N;
}.

Definition set_jobs r c := mkCatalog r (c_tasks c) (c_atoms c) (c_edges c) (c_callbacks c) (c_triggers c) (c_supply c).
Definition set_tasks r c := mkCatalog (c_jobs c) r (c_atoms c) (c_edges c) (c_callbacks c) (c_triggers c) (c_supply c).
Definition set_atoms r c := mkCatalog (c_jobs c) (c_tasks c) r (c_edges c) (c_callbacks c) (c_triggers c) (c_supply c).
Definition set_edges r c := mkCatalog (c_jobs c) (c_tasks c) (c_atoms c) r (c_callbacks c) (c_triggers c) (c_supply c).
Definition set_callbacks r c := mkCatalog (c_jobs c) (c_tasks c) (c_atoms c) (c_edges c) r (c_triggers c) (c_supply c).
Definition set_triggers r c := mkCatalog (c_jobs c) (c_tasks c) (c_atoms c) (c_edges c) (c_callbacks c) r (c_supply c).
Definition set_supply n c := mkCatalog (c_jobs c) (c_tasks c) (c_atoms c) (c_edges c) (c_callbacks c) (c_triggers c) n.

Inductive apply_error : Type :=
| ErrDefinition (e : def_error)
| ErrJobRunning (alias : string)
| ErrProvenanceConflict (alias existing incoming : string)
| ErrMissingMapping (step : string)
| ErrMissingSuccessor (step successor : string)
| ErrRegistry (e : def_error).

(** * Catalog transactions *)

Definition CatTx (A : Type) : Type := Catalog → apply_error + A * Catalog.
#[export] Instance CatTx_ret : MRet CatTx := λ A a c, inr (a, c).
#[export] Instance CatTx_bind : MBind CatTx := λ A B k m c,
  match m c with inl e => inl e | inr (a, c') => k a c' end.

Definition catThrow {A} (e : apply_error) : CatTx A := λ _, inl e.
Definition catRead {A} (f : Catalog → A) : CatTx A := λ c, inr (f c, c).
Definition catWrite (f : Catalog → Catalog) : CatTx () := λ c, inr ((), f c).
Definition catLift {A} (m : checked A) : CatTx A := λ c,
  match m with inl e => inl (ErrDefinition e) | inr a => inr (a, c) end.

(** The supply hands out every identifier once and never [uuid.Nil]. *)
Definition newID : CatTx uuid := λ c, inr (c_supply c, set_supply (c_supply c + 1)%N c).

Record Provenance := mkProvenance { pv_SourceID : string }.
Record ApplyOptions := mkApplyOptions { ao_Provenance : option Provenance; ao_Force : bool }.

Definition incomingSource (opts : option ApplyOptions) : string :=
  match opts with
  | Some o => match ao_Provenance o with Some p => TrimSpace (pv_SourceID p) | None => "" end
  | None => ""
  end.

(** * Guards *)

Definition findJobByAliasTx (alias : string) : CatTx (option JobRow) :=
  catRead (λ c, first (select (λ j, jb_Alias j =s alias) (c_jobs c))).

Definition ensureJobNotRunningTx (runs : list JobRun) (job : JobRow) : CatTx () :=
  if (0 <? countb (λ r, (jr_JobID r =? jb_ID job)%N && (jr_Status r =s "running")) runs)%nat
  then catThrow (ErrJobRunning (jb_Alias job)) else mret ().

Definition guardJobMutationTx (runs : list JobRun) (opts : option ApplyOptions) (job : JobRow) : CatTx () :=
  _ ← ensureJobNotRunningTx runs job;
  if match opts with Some o => ao_Force o | None => false end then mret ()
  else
    let incoming := incomingSource opts in
    let existing := TrimSpace (jb_ProvenanceSourceID job) in
    if negb (existing =s incoming) && (negb (existing =s "") || negb (incoming =s ""))
    then catThrow (ErrProvenanceConflict (jb_Alias job) existing incoming) else mret ().

(** * The trigger row *)

(** The part of a webhook's path that identifies its trigger. *)
Definition NormalizedTriggerPath (path : string) : string :=
  let trimmed := slashes_right (slashes_left (TrimSpace path)) in
  if trimmed =s "" then ""
  else
    let parts := Split "/" trimmed in
    let parts := match parts with
                 | first :: second :: rest =>
                     if (first =s "v1") && (second =s "hooks") then rest
                     else if first =s "hooks" then second :: rest else parts
                 | [first] => if first =s "hooks" then [] else parts
                 | [] => []
                 end in
    slashes_right (slashes_left (String.concat "/" parts)).

(** Only the configuration of an HTTP trigger has a path. *)
Definition NormalizedTriggerPathForConfiguration (type : string) (configuration : object) : string :=
  if negb (type =s TriggerHTTP) then "" else NormalizedTriggerPath (asString (get "path" configuration)).

(** The configuration as it is stored, with the default parameters of the trigger. *)
Definition triggerConfiguration (trig : Trigger) : object :=
  let cfg := default [] (tg_Configuration trig) in
  match tg_DefaultParams trig with
  | [] => cfg
  | params => set "defaultParams" (JObj (map (λ p, (p.1, JStr p.2)) params)) cfg
  end.

Definition triggerFields (id : uuid) (alias : string) (trig : Trigger) (opts : option ApplyOptions) : TriggerRow :=
  let cfg := triggerConfiguration trig in
  mkTriggerRow id alias (tg_Type trig) (NormalizedTriggerPathForConfiguration (tg_Type trig) cfg) (BlobJson (JObj cfg))
    (incomingSource opts) false.

Definition upsertTriggerTx (existingJob : option JobRow) (alias : string) (trig : Trigger) (opts : option ApplyOptions)
    : CatTx TriggerRow :=
  existing ← catRead (λ c, j ← existingJob;
    if (jb_TriggerID j =? uuid_Nil)%N then None else first (select (λ t, (tgr_ID t =? jb_TriggerID j)%N) (c_triggers c)));
  match existing with
  | None =>
      id ← newID;
      let row := triggerFields id alias trig opts in
      _ ← catWrite (λ c, set_triggers (c_triggers c ++ [row]) c);
      mret row
  | Some t =>
      let row := triggerFields (tgr_ID t) alias trig opts in
      _ ← catWrite (λ c, set_triggers (update_where (λ r, (tgr_ID r =? tgr_ID t)%N) (λ _, row) (c_triggers c)).1 c);
      mret row
  end.

(** * The job row *)

(** JSON of [*Concurrency] and of the rate limits; zero fields are omitted from the former. *)
Definition concurrencyJSON (c : option Concurrency) : blob :=
  match c with
  | None => BlobEmpty
  | Some c => BlobJson (JObj (
      (if con_MaxRuns c =? 0 then [] else [("maxRuns", JNum (con_MaxRuns c))]) ++
      (if con_Strategy c =s "" then [] else [("strategy", JStr (con_Strategy c))])))
  end.

Definition rateLimitJSON (r : RateLimit) : json :=
  JObj [("resource", JStr (rld_Resource r)); ("limit", JNum (rld_Limit r)); ("window", JStr (rld_Window r))].

Definition marshalRateLimits (limits : list RateLimit) : blob :=
  match limits with [] => BlobEmpty | _ => BlobJson (JArr (map rateLimitJSON limits)) end.

Definition jobFields (def : Definition_) (opts : option ApplyOptions) (id trigger : uuid) (paused : bool) : JobRow :=
  let m := def_Metadata def in
  mkJobRow id (md_Alias m) trigger (md_Priority m) (concurrencyJSON (md_Concurrency m)) (marshalRateLimits (md_RateLimits m))
    (md_SchemaValidation m) (md_ReplaySafe m) paused (incomingSource opts) false.

Definition upsertJobRowTx (existing : option JobRow) (def : Definition_) (opts : option ApplyOptions) (trigger : uuid) : CatTx JobRow :=
  match existing with
  | None =>
      id ← newID;
      let job := jobFields def opts id trigger false in
      _ ← catWrite (λ c, set_jobs (c_jobs c ++ [job]) c);
      mret job
  | Some j =>
      let job := jobFields def opts (jb_ID j) trigger (jb_Paused j) in
      _ ← catWrite (λ c, set_jobs (update_where (λ r, (jb_ID r =? jb_ID j)%N) (λ _, job) (c_jobs c)).1 c);
      mret job
  end.

Definition upsertJobAndTriggerTx (existing : option JobRow) (def : Definition_) (opts : option ApplyOptions) : CatTx JobRow :=
  trigger ← upsertTriggerTx existing (md_Alias (def_Metadata def)) (def_Trigger def) opts;
  upsertJobRowTx existing def opts (tgr_ID trigger).

(** * Tasks *)

Definition populateTaskFromStep (task : TaskRow) (atomID : uuid) (step : Step) (replaySafe : bool) (position : Z) : TaskRow :=
  let rule := TrimSpace (s_TriggerRule step) in
  let type := TrimSpace (s_Type step) in
  mkTaskRow (tk_ID task) (tk_JobID task) atomID (s_Name step) position
    (if type =s "" then StepTypeTask else type) (s_Retries step) (s_RetryDelay step) (s_RetryBackoff step)
    (if rule =s "" then "all_success" else rule) replaySafe
    (match s_RateLimit step with Some rl => TrimSpace (srl_Resource rl) | None => "" end)
    (match s_RateLimit step with Some rl => srl_Units rl | None => 0 end)
    (tk_CreatedAt task) false (s_NodeSelector step).

(** [ORDER BY position asc, created_at asc], soft-deleted rows included. *)
Definition row_before (a b : TaskRow) : bool :=
  (tk_Position a <? tk_Position b) || ((tk_Position a =? tk_Position b) && (tk_CreatedAt a <? tk_CreatedAt b)).

Definition jobRows (jobID : uuid) (c : Catalog) : list TaskRow :=
  sort_stable row_before (select (λ t, (tk_JobID t =? jobID)%N) (c_tasks c)).

Definition byName (rows : list TaskRow) : gmap string TaskRow :=
  fold_left (λ m t, <[tk_Name t := t]> m) rows ∅.

(** The atom a task keeps, if its row still exists. *)
Definition existingAtom (task : option TaskRow) : CatTx (option AtomRow) :=
  match task with
  | None => mret None
  | Some t =>
      if (tk_AtomID t =? uuid_Nil)%N then mret None
      else catRead (λ c, first (select (λ a, (at_ID a =? tk_AtomID t)%N) (c_atoms c)))
  end.

Definition reconcileAtomTx (existing : option AtomRow) (step : Step) (spec : ContainerSpec) (replaySafe : bool) : CatTx uuid :=
  let engine := if s_Engine step =s "" then EngineDocker else s_Engine step in
  let row id := mkAtomRow id engine (s_Image step) (s_Command step) spec replaySafe false in
  match existing with
  | None =>
      id ← newID;
      _ ← catWrite (λ c, set_atoms (c_atoms c ++ [row id]) c);
      mret id
  | Some a =>
      _ ← catWrite (λ c, set_atoms (update_where (λ r, (at_ID r =? at_ID a)%N) (λ _, row (at_ID a)) (c_atoms c)).1 c);
      mret (at_ID a)
  end.

(** [MarshalMapString] is the JSON text of a configuration (pkg/jsonutil). *)
Section importer.
Context (now : Z) (MarshalMapString : object → string).

Definition reconcileTaskTx (job : JobRow) (def : Definition_) (existingByName : gmap string TaskRow) (idx : nat)
    (step : Step) : CatTx TaskRow :=
  let existing := existingByName !! s_Name step in
  spec ← catLift (RuntimeSpecForStep def step);
  let replaySafe := EffectiveReplaySafeForStep def step in
  atom ← existingAtom existing;
  atomID ← reconcileAtomTx atom step spec replaySafe;
  match existing with
  | None =>
      id ← newID;
      let task := populateTaskFromStep (mkTaskRow id (jb_ID job) 0 "" 0 "" 0 0 false "" false "" 0 now false ∅)
                    atomID step replaySafe (Z.of_nat idx) in
      _ ← catWrite (λ c, set_tasks (c_tasks c ++ [task]) c);
      mret task
  | Some t =>
      let task := populateTaskFromStep t atomID step replaySafe (Z.of_nat idx) in
      _ ← catWrite (λ c, set_tasks (update_where (λ r, (tk_ID r =? tk_ID t)%N) (λ _, task) (c_tasks c)).1 c);
      mret task
  end.

Fixpoint reconcileSteps (job : JobRow) (def : Definition_) (existingByName : gmap string TaskRow) (idx : nat)
    (steps : list Step) (taskByName : gmap string TaskRow) : CatTx (gmap string TaskRow) :=
  match steps with
  | [] => mret taskByName
  | step :: l =>
      task ← reconcileTaskTx job def existingByName idx step;
      reconcileSteps job def existingByName (S idx) l (<[s_Name step := task]> taskByName)
  end.

(** Soft deletion marks the live row. *)
Definition delete_task (t : TaskRow) : TaskRow :=
  mkTaskRow (tk_ID t) (tk_JobID t) (tk_AtomID t) (tk_Name t) (tk_Position t) (tk_Type t) (tk_Retries t) (tk_RetryDelay t)
    (tk_RetryBackoff t) (tk_TriggerRule t) (tk_ReplaySafe t) (tk_RateLimitResource t) (tk_RateLimitUnits t)
    (tk_CreatedAt t) true (tk_NodeSelector t).

Definition retireTask (id : uuid) (c : Catalog) : Catalog :=
  set_tasks (update_where (λ r, (tk_ID r =? id)%N && negb (tk_Deleted r)) delete_task (c_tasks c)).1 c.

(** The rows whose name no step has, with their atoms. *)
Fixpoint retireUnseen (seen : gset string) (rows : list TaskRow) : CatTx (list uuid) :=
  match rows with
  | [] => mret []
  | t :: l =>
      if bool_decide (tk_Name t ∈ seen) then retireUnseen seen l
      else
        _ ← catWrite (retireTask (tk_ID t));
        rest ← retireUnseen seen l;
        mret (if (tk_AtomID t =? uuid_Nil)%N then rest else tk_AtomID t :: rest)
  end.

Definition reconcileTasksTx (job : JobRow) (def : Definition_) : CatTx (gmap string TaskRow * list uuid) :=
  existing ← catRead (jobRows (jb_ID job));
  taskByName ← reconcileSteps job def (byName existing) 0 (def_Steps def) ∅;
  retiredAtoms ← retireUnseen (list_to_set (map s_Name (def_Steps def))) existing;
  mret (taskByName, retiredAtoms).

(** * Edges *)

(** [sort.Slice] by position of the step, then by name. *)
Definition from_before (stepOrder : gmap string nat) (a b : string) : bool :=
  let left := default 0%nat (stepOrder !! a) in
  let right := default 0%nat (stepOrder !! b) in
  if (left =? right)%nat then str_less a b else (left <? right)%nat.

Fixpoint edgesFrom (jobID : uuid) (taskByName : gmap string TaskRow) (fromName : string) (from : uuid) (succs : list string)
    : CatTx (list TaskEdge) :=
  match succs with
  | [] => mret []
  | toName :: l =>
      match taskByName !! toName with
      | None => catThrow (ErrMissingSuccessor fromName toName)
      | Some toTask =>
          rest ← edgesFrom jobID taskByName fromName from l;
          mret (mkTaskEdge jobID from (tk_ID toTask) :: rest)
      end
  end.

Fixpoint buildEdges (jobID : uuid) (successors : Edges) (taskByName : gmap string TaskRow) (fromNames : list string)
    : CatTx (list TaskEdge) :=
  match fromNames with
  | [] => mret []
  | fromName :: l =>
      match taskByName !! fromName with
      | None => catThrow (ErrMissingMapping fromName)
      | Some fromTask =>
          es ← edgesFrom jobID taskByName fromName (tk_ID fromTask) (listAt successors fromName);
          rest ← buildEdges jobID successors taskByName l;
          mret (es ++ rest)
      end
  end.

(** The identifiers of edge rows are not read by the modelled code and are left out. *)
Definition reconcileEdgesTx (map_order : list string → list string) (job : JobRow) (steps : list Step)
    (successors : Edges) (taskByName : gmap string TaskRow) : CatTx () :=
  _ ← catWrite (λ c, set_edges (delete_where (λ e, (e_JobID e =? jb_ID job)%N) (c_edges c)).1 c);
  let stepOrder := numbered 0 steps ∅ in
  let fromNames := sort_stable (from_before stepOrder) (map_order (map fst (map_to_list successors))) in
  edges ← buildEdges (jb_ID job) successors taskByName fromNames;
  catWrite (λ c, set_edges (c_edges c ++ edges) c).

(** * Callbacks *)

Definition callback_before (a b : CallbackRow) : bool :=
  (cbr_Position a <? cbr_Position b) ||
  ((cbr_Position a =? cbr_Position b) && (cbr_CreatedAt a <? cbr_CreatedAt b)).

(** [callbackSignature]: equal type and configuration text. *)
Definition sameSignature (type cfg : string) (r : CallbackRow) : bool :=
  (cbr_Type r =s type) && (cbr_Configuration r =s cfg).

Definition with_callback (position : Z) (deleted : bool) (r : CallbackRow) : CallbackRow :=
  mkCallbackRow (cbr_ID r) (cbr_JobID r) (cbr_Type r) (cbr_Configuration r) position (cbr_CreatedAt r) deleted.

(** Each callback takes the first unclaimed row with its signature, or a new row. *)
Fixpoint reconcileCallbackLoop (jobID : uuid) (existing : list CallbackRow) (idx : nat) (callbacks : list Callback)
    (claimed : gset uuid) : CatTx (gset uuid) :=
  match callbacks with
  | [] => mret claimed
  | cb :: l =>
      let cfg := MarshalMapString (default [] (cb_Configuration cb)) in
      match first (select (λ r, sameSignature (cb_Type cb) cfg r && negb (bool_decide (cbr_ID r ∈ claimed))) existing) with
      | Some r =>
          _ ← catWrite (λ c, set_callbacks (update_where (λ x, (cbr_ID x =? cbr_ID r)%N)
                               (with_callback (Z.of_nat idx) false) (c_callbacks c)).1 c);
          reconcileCallbackLoop jobID existing (S idx) l ({[cbr_ID r]} ∪ claimed)
      | None =>
          id ← newID;
          _ ← catWrite (λ c, set_callbacks (c_callbacks c ++
                 [mkCallbackRow id jobID (cb_Type cb) cfg (Z.of_nat idx) now false]) c);
          reconcileCallbackLoop jobID existing (S idx) l claimed
      end
  end.

Fixpoint retireCallbacks (claimed : gset uuid) (rows : list CallbackRow) : CatTx () :=
  match rows with
  | [] => mret ()
  | r :: l =>
      if bool_decide (cbr_ID r ∈ claimed) then retireCallbacks claimed l
      else
        _ ← catWrite (λ c, set_callbacks (update_where (λ x, (cbr_ID x =? cbr_ID r)%N && negb (cbr_Deleted x))
                             (λ x, with_callback (cbr_Position x) true x) (c_callbacks c)).1 c);
        retireCallbacks claimed l
  end.

Definition reconcileCallbacksTx (jobID : uuid) (callbacks : list Callback) : CatTx () :=
  existing ← catRead (λ c, sort_stable callback_before (select (λ r, (cbr_JobID r =? jobID)%N) (c_callbacks c)));
  claimed ← reconcileCallbackLoop jobID existing 0 callbacks ∅;
  retireCallbacks claimed existing.

(** * Applying a definition *)

Definition delete_atom (a : AtomRow) : AtomRow :=
  mkAtomRow (at_ID a) (at_Engine a) (at_Image a) (at_Command a) (at_Spec a) (at_ReplaySafe a) true.

Definition softDeleteAtomsTx (atomIDs : list uuid) : CatTx () :=
  catWrite (λ c, set_atoms (update_where (λ a, bool_decide (at_ID a ∈ atomIDs) && negb (at_Deleted a))
                              delete_atom (c_atoms c)).1 c).

(** The transaction of [ApplyWithOptions]; [successors] is [DeriveStepSuccessors]. *)
Definition applyTx (order : gset string → list string) (map_order : list string → list string)
    (registries : Definition_ → checked ()) (runs : list JobRun) (def : Definition_) (opts : option ApplyOptions)
    : CatTx JobRow :=
  existing ← findJobByAliasTx (md_Alias (def_Metadata def));
  _ ← match existing with Some j => guardJobMutationTx runs opts j | None => mret () end;
  job ← upsertJobAndTriggerTx existing def opts;
  '(taskByName, retiredAtoms) ← reconcileTasksTx job def;
  '(steps, successors) ← catLift (DeriveStepSuccessors order (def_Steps def));
  _ ← reconcileEdgesTx map_order job steps successors taskByName;
  _ ← reconcileCallbacksTx (jb_ID job) (def_Callbacks def);
  _ ← (λ c, match registries def with inl e => inl (ErrRegistry e) | inr _ => inr ((), c) end);
  _ ← softDeleteAtomsTx retiredAtoms;
  mret job.

(** One attempt commits or leaves the catalog alone; contention is retried. *)
Definition importerBusyRetryBackoffs : list Z := [10; 20; 40; 80; 160].

Fixpoint importerRetryLoop {A} (remaining : nat) (faults : nat → bool) (attempt : nat) (body : CatTx A) (c : Catalog)
    : option (apply_error + A) * Catalog :=
  if faults attempt then
    match remaining with
    | O => (None, c)
    | S remaining => importerRetryLoop remaining faults (S attempt) body c
    end
  else
    match body c with
    | inl e => (Some (inl e), c)
    | inr (a, c') => (Some (inr a), c')
    end.

(** [None] is a contention error after the last retry. *)
Definition withImporterBusyRetry {A} (faults : nat → bool) (body : CatTx A) (c : Catalog)
    : option (apply_error + A) * Catalog :=
  importerRetryLoop (length importerBusyRetryBackoffs) faults 0 body c.

Definition ApplyWithOptions (ParseDuration : string → option Z) (Compile : object → option def_error) (freshness : bool)
    (range_order : option string → gset string → list string) (map_order : list string → list string)
    (registries : Definition_ → checked ()) (faults : nat → bool) (runs : list JobRun) (def : Definition_)
    (opts : option ApplyOptions) (c : Catalog) : option (apply_error + JobRow) * Catalog :=
  match Validate ParseDuration Compile freshness range_order def with
  | inl e => (Some (inl (ErrDefinition e)), c)
  | inr def => withImporterBusyRetry faults (applyTx (range_order None) map_order registries runs def opts) c
  end.

(** * Retiring jobs *)

Definition delete_job (j : JobRow) : JobRow :=
  mkJobRow (jb_ID j) (jb_Alias j) (jb_TriggerID j) (jb_Priority j) (jb_Concurrency j) (jb_RateLimits j) (jb_SchemaValidation j)
    (jb_ReplaySafe j) (jb_Paused j) (jb_ProvenanceSourceID j) true.

Definition delete_trigger (t : TriggerRow) : TriggerRow :=
  mkTriggerRow (tgr_ID t) (tgr_Alias t) (tgr_Type t) (tgr_NormalizedPath t) (tgr_Configuration t) (tgr_ProvenanceSourceID t) true.

Definition ensureJobsNotRunningTx (runs : list JobRun) (jobs : list JobRow) : CatTx () :=
  match first (select (λ r, bool_decide (jr_JobID r ∈ map jb_ID jobs) && (jr_Status r =s "running")) runs) with
  | None => mret ()
  | Some r =>
      catThrow (ErrJobRunning (match first (select (λ j, (jb_ID j =? jr_JobID r)%N) jobs) with
                               | Some j => jb_Alias j | None => "" end))
  end.

Definition retireJobsTx (jobs : list JobRow) : CatTx () :=
  let ids := map jb_ID jobs in
  let triggerIDs := List.filter (λ t, negb (t =? uuid_Nil)%N) (map jb_TriggerID jobs) in
  _ ← catWrite (λ c, set_edges (delete_where (λ e, bool_decide (e_JobID e ∈ ids)) (c_edges c)).1 c);
  _ ← catWrite (λ c, set_callbacks (update_where (λ r, bool_decide (cbr_JobID r ∈ ids) && negb (cbr_Deleted r))
                       (λ r, with_callback (cbr_Position r) true r) (c_callbacks c)).1 c);
  atomIDs ← catRead (λ c, List.filter (λ a, negb (a =? uuid_Nil)%N)
              (map tk_AtomID (select (λ t, bool_decide (tk_JobID t ∈ ids) && negb (tk_Deleted t)) (c_tasks c))));
  _ ← catWrite (λ c, set_tasks (update_where (λ t, bool_decide (tk_JobID t ∈ ids) && negb (tk_Deleted t)) delete_task
                       (c_tasks c)).1 c);
  _ ← softDeleteAtomsTx atomIDs;
  _ ← catWrite (λ c, set_triggers (update_where (λ t, bool_decide (tgr_ID t ∈ triggerIDs) && negb (tgr_Deleted t)) delete_trigger
                       (c_triggers c)).1 c);
  catWrite (λ c, set_jobs (update_where (λ j, bool_decide (jb_ID j ∈ ids) && negb (jb_Deleted j)) delete_job (c_jobs c)).1 c).

Definition desiredSet (aliases : list string) : gset string :=
  list_to_set (List.filter (λ a, negb (a =s "")) (map TrimSpace aliases)).

Definition pruneTx (runs : list JobRun) (desired : gset string) (sourceID : string) : CatTx nat :=
  jobs ← catRead (λ c, select (λ j, negb (jb_Deleted j) &&
           ((TrimSpace sourceID =s "") || (jb_ProvenanceSourceID j =s TrimSpace sourceID))) (c_jobs c));
  let toRetire := List.filter (λ j, negb (bool_decide (jb_Alias j ∈ desired))) jobs in
  match toRetire with
  | [] => mret 0%nat
  | _ =>
      _ ← ensureJobsNotRunningTx runs toRetire;
      _ ← retireJobsTx toRetire;
      mret (length toRetire)
  end.

Definition PruneMissing (faults : nat → bool) (runs : list JobRun) (desiredAliases : list string) (sourceID : string)
    (c : Catalog) : option (apply_error + nat) * Catalog :=
  withImporterBusyRetry faults (pruneTx runs (desiredSet desiredAliases) sourceID) c.
End importer.

(** * The live rows as the run store sees them *)

Definition liveTask (t : TaskRow) : Task :=
  mkTask (tk_ID t) (tk_JobID t) (tk_Name t) (tk_Position t) (tk_Type t) (tk_TriggerRule t) (tk_CreatedAt t) (tk_NodeSelector t).

Definition liveJob (j : JobRow) : Job := mkJob (jb_ID j) (jb_Alias j) (jb_TriggerID j) (jb_Priority j) (jb_Concurrency j) (jb_Paused j).

Definition live_tasks_of (c : Catalog) : list Task := map liveTask (select (λ t, negb (tk_Deleted t)) (c_tasks c)).

Definition publish (c : Catalog) (db : DB) : DB :=
  mkDB (map liveJob (select (λ j, negb (jb_Deleted j)) (c_jobs c))) (live_tasks_of c) (c_edges c)
    (job_runs db) (task_runs db) (run_leases db) (run_checkpoints db) (run_queue db) (execution_events db).

(** * The rate limit rule of a task (internal/ratelimit/limiter.go) *)

(** The join of the task's row, its run, its task and its job; the tables are read by
    name, so soft-deleted tasks and jobs are included. [Some] when all four rows exist. *)
Definition RuleForTask (ParseDuration : string → option Z) (c : Catalog) (db : DB) (runID taskID : uuid)
    : limit_error + option Rule :=
  match first (select (is_task_run runID taskID) (task_runs db)),
        first (select (λ t, (tk_ID t =? taskID)%N) (c_tasks c)),
        first (select (is_run runID) (job_runs db)) with
  | Some _, Some t, Some jr =>
      match first (select (λ j, (jb_ID j =? jr_JobID jr)%N) (c_jobs c)) with
      | Some j =>
          if TrimSpace (tk_RateLimitResource t) =s "" then inr None
          else RuleFromDeclarations ParseDuration (jb_Alias j) (jb_RateLimits j) (tk_RateLimitResource t) (tk_RateLimitUnits t)
      | None => inr None
      end
  | _, _, _ => inr None
  end.
