(* ===== verification/ImportTheorems.v ===== *)
(** What importing a validated definition leaves in the catalog: the live tasks of the
    job are its steps, the edges are its precedence, and the topology a run of the job
    loads is the step graph. *)

From S2P Require Import Prelude TriggerRule Tables RunState RunStateInv OwnerSteps Topology JobGraph OwnerRun OwnerTheorems Store RunOps RateLimit JobDef StepGraph StepTheorems Validate ValidateTheorems RuntimeSpec Dag Importer.

(** * Catalog invariant *)

Record cat_ids (c : Catalog) : Prop := {
  ci_supply : (0 < c_supply c)%N;
  ci_tasks : NoDup (map tk_ID (c_tasks c));
  ci_names : NoDup (map (λ t, (tk_JobID t, tk_Name t)) (c_tasks c));
  ci_fresh : ∀ t, t ∈ c_tasks c → (0 < tk_ID t < c_supply c)%N ∧ (tk_JobID t < c_supply c)%N;
  ci_jobs : NoDup (map jb_ID (c_jobs c));
  ci_aliases : NoDup (map jb_Alias (c_jobs c));
  ci_jobs_fresh : ∀ j, j ∈ c_jobs c → (0 < jb_ID j < c_supply c)%N;
  ci_edges : ∀ e, e ∈ c_edges c → ∃ t, t ∈ c_tasks c ∧ tk_ID t = e_FromTaskID e ∧ tk_JobID t = e_JobID e;
}.

(** Rows identified by the two keys. *)
Lemma task_by_name c r t : cat_ids c → r ∈ c_tasks c → t ∈ c_tasks c → tk_JobID r = tk_JobID t → tk_Name r = tk_Name t → r = t.
Proof. intros H Hr Ht E1 E2. eapply (NoDup_map_eq _ _ _ _ (ci_names _ H)); [done|done|]. simpl. congruence. Qed.

Lemma task_by_id c r t : cat_ids c → r ∈ c_tasks c → t ∈ c_tasks c → tk_ID r = tk_ID t → r = t.
Proof. intros H. apply (NoDup_map_eq _ _ _ _ (ci_tasks _ H)). Qed.

(** * One task *)

(** The row a step gives. *)
Record imports (job : uuid) (s : Step) (position : nat) (t : TaskRow) : Prop := {
  im_job : tk_JobID t = job;
  im_name : tk_Name t = s_Name s;
  im_position : tk_Position t = Z.of_nat position;
  im_rule : tk_TriggerRule t = if TrimSpace (s_TriggerRule s) =s "" then "all_success" else TrimSpace (s_TriggerRule s);
  im_type : tk_Type t = if TrimSpace (s_Type s) =s "" then StepTypeTask else TrimSpace (s_Type s);
  im_resource : tk_RateLimitResource t = match s_RateLimit s with Some rl => TrimSpace (srl_Resource rl) | None => "" end;
  im_units : tk_RateLimitUnits t = match s_RateLimit s with Some rl => srl_Units rl | None => 0 end;
  im_live : tk_Deleted t = false;
}.

Lemma populate_imports t atom s safe i : imports (tk_JobID t) s i (populateTaskFromStep t atom s safe (Z.of_nat i)).
Proof. by split. Qed.

(** What the table of existing rows knows about the name [n]. *)
Definition located (job : uuid) (existing : gmap string TaskRow) (n : string) (c : Catalog) : Prop :=
  match existing !! n with
  | None => ∀ r, r ∈ c_tasks c → ¬ (tk_JobID r = job ∧ tk_Name r = n)
  | Some t => t ∈ c_tasks c ∧ tk_JobID t = job ∧ tk_Name t = n
  end.

(** The catalog after writing the row [t] under its job and name; only atoms and the
    supply change besides. *)
Record wrote (c c' : Catalog) (t : TaskRow) : Prop := {
  wr_rows : ∀ r, r ∈ c_tasks c' ↔ r = t ∨ (r ∈ c_tasks c ∧ ¬ (tk_JobID r = tk_JobID t ∧ tk_Name r = tk_Name t));
  wr_ids : cat_ids c';
  wr_jobs : c_jobs c' = c_jobs c;
  wr_edges : c_edges c' = c_edges c;
  wr_supply : (c_supply c ≤ c_supply c')%N;
}.

Lemma replace_elem (f : TaskRow → N) i t tbl r0 : r0 ∈ tbl → f r0 = i → f t = i →
  ∀ r, r ∈ (update_where (λ r, (f r =? i)%N) (λ _, t) tbl).1 ↔ r = t ∨ (r ∈ tbl ∧ f r ≠ i).
Proof.
  intros H0 E0 Et r. rewrite update_elem. split.
  - intros (x & Hx & ->). destruct (N.eqb_spec (f x) i); [by left|by right].
  - intros [->|[Hr Hne]]; [exists r0; split; [done|]; by rewrite E0, N.eqb_refl|].
    exists r. split; [done|]. by rewrite (proj2 (N.eqb_neq _ _) Hne).
Qed.

Lemma wrote_update c t : cat_ids c → (∃ r0, r0 ∈ c_tasks c ∧ tk_ID r0 = tk_ID t ∧ tk_JobID r0 = tk_JobID t ∧ tk_Name r0 = tk_Name t) →
  wrote c (set_tasks (update_where (λ r, (tk_ID r =? tk_ID t)%N) (λ _, t) (c_tasks c)).1 c) t.
Proof.
  intros H (r0 & Hr0 & E1 & E2 & E3). pose proof H as [H1 H2 H3 H4 H5 H6 H7 H8].
  assert (∀ r, r ∈ c_tasks c → tk_ID r = tk_ID t ↔ tk_JobID r = tk_JobID t ∧ tk_Name r = tk_Name t) as Hkey.
  { intros r Hr. split; [intros E; rewrite (task_by_id c r r0) by (done || congruence); done|].
    intros [Ea Eb]. by rewrite (task_by_name c r r0) by (done || congruence). }
  assert (∀ {K} (f : TaskRow → K), f r0 = f t → map f (update_where (λ r, (tk_ID r =? tk_ID t)%N) (λ _, t) (c_tasks c)).1 =
    map f (c_tasks c)) as Hcol.
  { intros K f Ef. simpl. rewrite map_map. apply map_ext_in. intros r Hr%list_elem_of_In.
    destruct (N.eqb_spec (tk_ID r) (tk_ID t)) as [E|]; [|done]. rewrite <- Ef. f_equal. apply (task_by_id c); congruence. }
  split; [|split|done|done|done]; cbn [set_tasks c_tasks c_jobs c_edges c_supply]; [|done| | | |done|done|done|].
  - intros r. rewrite (replace_elem tk_ID (tk_ID t) t (c_tasks c) r0) by done. split; intros [->|[Hr Hne]]; auto;
      right; (split; [done|]); by rewrite Hkey in * by done.
  - by rewrite (Hcol _ tk_ID).
  - rewrite (Hcol _ (λ t, (tk_JobID t, tk_Name t))); [done|congruence].
  - intros r. rewrite (replace_elem tk_ID (tk_ID t) t (c_tasks c) r0) by done. intros [->|[Hr _]]; [|auto].
    rewrite <- E1, <- E2. auto.
  - intros e He. destruct (H8 e He) as (x & Hx & Ef & Ej).
    destruct (decide (tk_ID x = tk_ID t)) as [E|E].
    + exists t. rewrite (replace_elem tk_ID (tk_ID t) t (c_tasks c) r0) by done. rewrite <- E.
      assert (x = r0) as -> by (apply (task_by_id c); congruence). split_and!; [by left|done|congruence].
    + exists x. rewrite (replace_elem tk_ID (tk_ID t) t (c_tasks c) r0) by done. auto.
Qed.

Lemma wrote_insert c t : cat_ids c → (∀ r, r ∈ c_tasks c → ¬ (tk_JobID r = tk_JobID t ∧ tk_Name r = tk_Name t)) →
  tk_ID t = c_supply c → (tk_JobID t < c_supply c)%N →
  wrote c (set_tasks (c_tasks c ++ [t]) (set_supply (c_supply c + 1)%N c)) t.
Proof.
  intros [H1 H2 H3 H4 H5 H6 H7 H8] Hnew Eid Hj.
  split; [|split|done|done|simpl; lia]; cbn [set_tasks set_supply c_tasks c_jobs c_edges c_supply]; [|lia| | | |done|done| |].
  - intros r. rewrite elem_of_app, list_elem_of_singleton. split; [intros [Hr| ->]; auto|]. intros [->|[Hr _]]; auto.
  - rewrite map_app. apply NoDup_app. split_and!; [done| |apply NoDup_singleton]. intros i Hi Hi'.
    apply list_elem_of_singleton in Hi'. subst i. apply list_elem_of_In, in_map_iff in Hi as (r & Er & Hr%list_elem_of_In).
    destruct (H4 r Hr). lia.
  - rewrite map_app. apply NoDup_app. split_and!; [done| |apply NoDup_singleton]. intros i Hi Hi'.
    apply list_elem_of_singleton in Hi'. subst i. apply list_elem_of_In, in_map_iff in Hi as (r & [= Er Er'] & Hr%list_elem_of_In).
    by apply (Hnew r Hr).
  - intros r. rewrite elem_of_app, list_elem_of_singleton. intros [Hr| ->]; [destruct (H4 r Hr); lia|lia].
  - intros j Hin. specialize (H7 j Hin). lia.
  - intros e He. destruct (H8 e He) as (x & Hx & ?). exists x. rewrite elem_of_app. auto.
Qed.

(** Atoms and the supply do not matter to the task table. *)
Definition same_tasks (c c' : Catalog) : Prop :=
  c_tasks c' = c_tasks c ∧ c_jobs c' = c_jobs c ∧ c_edges c' = c_edges c ∧ (c_supply c ≤ c_supply c')%N.

Lemma same_ids c c' : same_tasks c c' → cat_ids c → cat_ids c'.
Proof.
  intros (E1 & E2 & E3 & Hs) [H1 H2 H3 H4 H5 H6 H7 H8]. split; rewrite ?E1, ?E2, ?E3; [lia|done|done| |done|done| |done].
  - intros t Ht. specialize (H4 t Ht). lia.
  - intros j Hj. specialize (H7 j Hj). lia.
Qed.

Lemma reconcileAtom_total existing step spec safe c : ∃ id c', reconcileAtomTx existing step spec safe c = inr (id, c') ∧ same_tasks c c'.
Proof.
  unfold reconcileAtomTx, same_tasks. cbv zeta. destruct existing as [a|]; eexists _, _; (split; [reflexivity|]); simpl; (split_and!; [done..|lia]).
Qed.

Lemma existingAtom_total t c : ∃ a, existingAtom t c = inr (a, c).
Proof. unfold existingAtom. destruct t as [t|]; [destruct (_ =? _)%N|]; eexists; reflexivity. Qed.

Lemma reconcileTask_total now job def existing idx step spec c :
  cat_ids c → (jb_ID job < c_supply c)%N → RuntimeSpecForStep def step = inr spec → located (jb_ID job) existing (s_Name step) c →
  ∃ t c', reconcileTaskTx now job def existing idx step c = inr (t, c') ∧ imports (jb_ID job) step idx t ∧ wrote c c' t.
Proof.
  intros Hc Hj Hspec Hloc. unfold reconcileTaskTx, mbind, CatTx_bind. unfold catLift. rewrite Hspec.
  destruct (existingAtom_total (existing !! s_Name step) c) as [a Ea]. rewrite Ea.
  destruct (reconcileAtom_total a step spec (EffectiveReplaySafeForStep def step) c) as (id & c1 & E1 & S1). rewrite E1.
  pose proof (same_ids _ _ S1 Hc) as Hc1. destruct S1 as (T1 & J1 & D1 & P1).
  unfold located in Hloc. destruct (existing !! s_Name step) as [t0|].
  - destruct Hloc as (Ht0 & Hj0 & Hn0). eexists _, _. split; [reflexivity|].
    pose proof (populate_imports t0 id step (EffectiveReplaySafeForStep def step) idx) as Him. rewrite Hj0 in Him.
    split; [done|]. destruct (wrote_update c1 (populateTaskFromStep t0 id step (EffectiveReplaySafeForStep def step) (Z.of_nat idx)) Hc1) as [W1 W2 W3 W4 W5].
    { exists t0. rewrite T1. done. }
    split; [by rewrite <- T1|done|exact J1|exact D1|]. cbn [set_tasks c_supply] in *. lia.
  - eexists _, _. split; [reflexivity|]. split; [by split|]. simpl.
    match goal with |- wrote _ _ ?t => destruct (wrote_insert c1 t Hc1) as [W1 W2 W3 W4 W5] end;
      [rewrite T1; exact Hloc|done|simpl; lia|].
    split; [by rewrite <- T1|done|exact J1|exact D1|]. simpl in *. lia.
Qed.

(** * All steps *)

Lemma wrote_located job existing n c c' t : wrote c c' t → n ≠ tk_Name t → located job existing n c → located job existing n c'.
Proof.
  intros W Hne. unfold located. destruct (existing !! n) as [x|].
  - intros (Hx & Hj & Hn). split_and!; [|done|done]. apply (wr_rows _ _ _ W). right. split; [done|]. intros [_ E]. congruence.
  - intros H r Hr [Ej En]. apply (wr_rows _ _ _ W) in Hr as [->|[Hr _]]; [congruence|]. by apply (H r).
Qed.

(** The task table after the loop over [steps]: the imported rows, and the old rows under
    other names. *)
Record reconciled (job : uuid) (steps : list Step) (idx : nat) (c c' : Catalog) (tb : gmap string TaskRow) : Prop := {
  rc_imported : ∀ (i : nat) s, steps !! i = Some s → ∃ t, tb !! s_Name s = Some t ∧ imports job s (idx + i) t;
  rc_rows : ∀ r, r ∈ c_tasks c' ↔ (∃ s, s ∈ steps ∧ tb !! s_Name s = Some r) ∨
    (r ∈ c_tasks c ∧ ¬ (tk_JobID r = job ∧ tk_Name r ∈ map s_Name steps));
  rc_ids : cat_ids c';
  rc_jobs : c_jobs c' = c_jobs c;
  rc_edges : c_edges c' = c_edges c;
  rc_supply : (c_supply c ≤ c_supply c')%N;
}.

Lemma reconcileSteps_total now job def existing steps : ∀ idx tb c,
  cat_ids c → (jb_ID job < c_supply c)%N → NoDup (map s_Name steps) →
  (∀ s, s ∈ steps → ∃ spec, RuntimeSpecForStep def s = inr spec) →
  (∀ s, s ∈ steps → located (jb_ID job) existing (s_Name s) c) →
  ∃ tb' c', reconcileSteps now job def existing idx steps tb c = inr (tb', c') ∧
    reconciled (jb_ID job) steps idx c c' tb' ∧ ∀ n, n ∉ map s_Name steps → tb' !! n = tb !! n.
Proof.
  induction steps as [|s steps IH]; intros idx tb c Hc Hj Hnd Hspec Hloc.
  { exists tb, c. split; [done|]. split; [|done]. split; [by intros i s|..]; try done.
    intros r. split; [intros Hr; right; split; [done|]; intros [_ H]; by apply elem_of_nil in H|].
    intros [(s & Hs & _)|[Hr _]]; [by apply elem_of_nil in Hs|done]. }
  simpl in Hnd. apply NoDup_cons in Hnd as [Hs Hnd]. destruct (Hspec s) as [spec Es]; [by left|].
  destruct (reconcileTask_total now job def existing idx s spec c Hc Hj Es) as (t & c1 & E1 & Him & W); [apply Hloc; by left|].
  assert (tk_JobID t = jb_ID job ∧ tk_Name t = s_Name s) as [Htj Htn] by (split; apply Him).
  assert (∀ x, x ∈ steps → s_Name x ≠ tk_Name t) as Hother.
  { intros x Hx E. apply Hs. rewrite <- Htn, <- E. apply elem_of_names. eauto. }
  destruct (IH (S idx) (<[s_Name s := t]> tb) c1) as (tb' & c' & E & R & Hkeep); [by apply W|pose proof (wr_supply _ _ _ W); lia|done| | |].
  { intros x Hx. apply Hspec. by right. }
  { intros x Hx. eapply wrote_located; [done|auto|]. apply Hloc. by right. }
  assert (tb' !! s_Name s = Some t) as Htb by (rewrite Hkeep by done; apply lookup_insert_eq).
  exists tb', c'. split; [simpl; unfold mbind, CatTx_bind; by rewrite E1|]. split.
  - destruct R as [R1 R2 R3 R4 R5 R6]. split; [|..|done| | |].
    + intros [|i] x Hx; [injection Hx as <-; exists t; by rewrite Nat.add_0_r|].
      destruct (R1 i x Hx) as (u & Hu & Hi). exists u. split; [done|]. by replace (idx + S i)%nat with (S idx + i)%nat by lia.
    + intros r. rewrite R2, (wr_rows _ _ _ W). simpl. setoid_rewrite elem_of_cons. rewrite Htj, Htn. split.
      * intros [(x & Hx & Er)|[[->|[Hr Hn]] Hout]]; [left; eauto|left; eauto|]. right. split; [done|]. tauto.
      * intros [(x & [->|Hx] & Er)|[Hr Hn]]; [|left; eauto|right; tauto].
        rewrite Htb in Er. injection Er as <-. right. split; [by left|]. rewrite Htn. tauto.
    + rewrite R4. apply W.
    + rewrite R5. apply W.
    + pose proof (wr_supply _ _ _ W). lia.
  - intros n Hn. simpl in Hn. rewrite Hkeep by set_solver. rewrite lookup_insert_ne; [done|]. set_solver.
Qed.

(** ** The table of existing rows *)

Lemma byName_spec rows n : NoDup (map tk_Name rows) →
  match byName rows !! n with
  | None => ∀ t, t ∈ rows → tk_Name t ≠ n
  | Some t => t ∈ rows ∧ tk_Name t = n
  end.
Proof.
  intros Hnd. unfold byName. assert (∀ l (m : gmap string TaskRow), NoDup (map tk_Name l) →
    fold_left (λ m t, <[tk_Name t := t]> m) l m !! n =
    match List.find (λ t, tk_Name t =s n) l with Some t => Some t | None => m !! n end) as H.
  { clear. induction l as [|t l IH]; intros m Hnd; [done|]. simpl in *. apply NoDup_cons in Hnd as [Ht Hnd]. rewrite IH by done.
    destruct (tk_Name t =s n) eqn:E.
    - apply str_eqb_eq in E. destruct (List.find _ l) as [u|] eqn:F; [|by rewrite <- E, lookup_insert_eq].
      apply find_some in F as [Hu Eu%str_eqb_eq]. exfalso. apply Ht. rewrite E, <- Eu. by apply list_elem_of_In, in_map.
    - apply bool_decide_eq_false in E. by rewrite lookup_insert_ne by done. }
  rewrite H by done. destruct (List.find _ rows) as [t|] eqn:F.
  - apply find_some in F as [Hu Eu%str_eqb_eq]. by rewrite list_elem_of_In.
  - rewrite lookup_empty. intros t Ht E. apply list_elem_of_In in Ht. apply (find_none _ _ F) in Ht.
    apply bool_decide_eq_false in Ht. done.
Qed.

Lemma jobRows_elem job c t : t ∈ jobRows job c ↔ t ∈ c_tasks c ∧ tk_JobID t = job.
Proof. unfold jobRows. rewrite sort_stable_perm, select_elem. by rewrite N.eqb_eq. Qed.

Lemma jobRows_names job c : cat_ids c → NoDup (map tk_Name (jobRows job c)).
Proof.
  intros H. unfold jobRows. rewrite (sort_stable_perm row_before (select _ _)). unfold select.
  pose proof (ci_names _ H) as Hn. clear H. induction (c_tasks c) as [|t l IH]; simpl in *; [constructor|].
  apply NoDup_cons in Hn as [Ht Hn]. destruct (N.eqb_spec (tk_JobID t) job) as [E|]; [|auto]. simpl. constructor; [|auto].
  intros Hin. apply Ht. apply list_elem_of_In, in_map_iff in Hin as (u & Eu & Hu). apply filter_In in Hu as [Hu Eu'%N.eqb_eq].
  apply list_elem_of_In, in_map_iff. exists u. split; [congruence|done].
Qed.

Lemma located_byName job c n : cat_ids c → located job (byName (jobRows job c)) n c.
Proof.
  intros H. unfold located. pose proof (byName_spec (jobRows job c) n (jobRows_names job c H)) as HB.
  destruct (byName _ !! n) as [t|].
  - destruct HB as [Ht En]. apply jobRows_elem in Ht as [? ?]. done.
  - intros r Hr [Ej En]. apply (HB r); [by apply jobRows_elem|done].
Qed.

(** * Retirement *)

(** A row of [rows] with this identifier has a name no step has. *)
Definition unseen (seen : gset string) (rows : list TaskRow) (r : TaskRow) : bool :=
  existsb (λ t, (tk_ID t =? tk_ID r)%N && negb (bool_decide (tk_Name t ∈ seen))) rows.

Definition retired (seen : gset string) (rows : list TaskRow) (r : TaskRow) : TaskRow :=
  if unseen seen rows r && negb (tk_Deleted r) then delete_task r else r.

Lemma retireUnseen_total seen rows : ∀ c, ∃ atoms, retireUnseen seen rows c =
  inr (atoms, set_tasks (map (retired seen rows) (c_tasks c)) c).
Proof.
  induction rows as [|t rows IH]; intros c.
  { exists []. unfold retired, unseen. simpl. unfold mret, CatTx_ret. do 2 f_equal. destruct c; unfold set_tasks; simpl. f_equal.
    by rewrite map_id. }
  cbn [retireUnseen]. destruct (bool_decide (tk_Name t ∈ seen)) eqn:E.
  - destruct (IH c) as [atoms Ha]. exists atoms. rewrite Ha. do 3 f_equal. apply map_ext. intros r. unfold retired, unseen. simpl.
    by rewrite E, andb_false_r.
  - unfold mbind, CatTx_bind, catWrite. destruct (IH (retireTask (tk_ID t) c)) as [atoms Ha]. rewrite Ha. eexists.
    unfold mret, CatTx_ret. do 2 f_equal. unfold retireTask, set_tasks. simpl. f_equal. rewrite map_map. apply map_ext. intros r.
    unfold retired, unseen. simpl. rewrite E, (N.eqb_sym (tk_ID r)). destruct (tk_ID t =? tk_ID r)%N eqn:Eid; simpl.
    + destruct (tk_Deleted r) eqn:Ed; simpl; [by rewrite Ed, andb_false_r|]. by rewrite andb_false_r.
    + done.
Qed.

Lemma unseen_true seen rows r : unseen seen rows r = true ↔ ∃ t, t ∈ rows ∧ tk_ID t = tk_ID r ∧ tk_Name t ∉ seen.
Proof.
  unfold unseen. rewrite existsb_exists. apply exist_proper. intros t. rewrite list_elem_of_In, andb_true_iff, N.eqb_eq, negb_true_iff.
  by rewrite bool_decide_eq_false.
Qed.

Lemma retired_keys seen rows r : tk_ID (retired seen rows r) = tk_ID r ∧ tk_JobID (retired seen rows r) = tk_JobID r ∧
  tk_Name (retired seen rows r) = tk_Name r.
Proof. unfold retired. by destruct (_ && _). Qed.

Lemma retired_ids seen rows c : cat_ids c → cat_ids (set_tasks (map (retired seen rows) (c_tasks c)) c).
Proof.
  intros [H1 H2 H3 H4 H5 H6 H7 H8]. split; simpl; [done| | | |done|done|done|].
  - rewrite map_map. erewrite map_ext; [exact H2|]. intros r. apply retired_keys.
  - rewrite map_map. erewrite map_ext; [exact H3|]. intros r. by destruct (retired_keys seen rows r) as (_ & -> & ->).
  - intros t Ht. apply list_elem_of_In, in_map_iff in Ht as (r & <- & Hr%list_elem_of_In).
    destruct (retired_keys seen rows r) as (-> & -> & _). auto.
  - intros e He. destruct (H8 e He) as (t & Ht & E1 & E2). exists (retired seen rows t).
    destruct (retired_keys seen rows t) as (-> & -> & _). split; [|done].
    apply list_elem_of_In, in_map. by apply list_elem_of_In.
Qed.

(** * The live tasks of the job *)

(** The steps' rows in order. *)
Definition stepRows (tb : gmap string TaskRow) (steps : list Step) : list TaskRow := omap (λ s, tb !! s_Name s) steps.

Record imported (job : JobRow) (steps : list Step) (tb : gmap string TaskRow) (c c' : Catalog) : Prop := {
  ip_rows : ∀ (i : nat) s, steps !! i = Some s → ∃ t, tb !! s_Name s = Some t ∧ imports (jb_ID job) s i t;
  ip_live : ∀ t, t ∈ c_tasks c' ∧ tk_JobID t = jb_ID job ∧ tk_Deleted t = false ↔ t ∈ stepRows tb steps;
  ip_ids : cat_ids c';
  ip_jobs : c_jobs c' = c_jobs c;
  ip_edges : c_edges c' = c_edges c;
  ip_supply : (c_supply c ≤ c_supply c')%N;
}.

Lemma reconcileTasks_total now job def c :
  cat_ids c → (jb_ID job < c_supply c)%N → NoDup (map s_Name (def_Steps def)) →
  (∀ s, s ∈ def_Steps def → ∃ spec, RuntimeSpecForStep def s = inr spec) →
  ∃ tb atoms c', reconcileTasksTx now job def c = inr ((tb, atoms), c') ∧ imported job (def_Steps def) tb c c'.
Proof.
  intros Hc Hj Hnd Hspec. unfold reconcileTasksTx, mbind, CatTx_bind, catRead.
  destruct (reconcileSteps_total now job def (byName (jobRows (jb_ID job) c)) (def_Steps def) 0 ∅ c Hc Hj Hnd Hspec)
    as (tb & c1 & E & [R1 R2 R3 R4 R5 R6] & _); [intros s _; by apply located_byName|]. rewrite E.
  destruct (retireUnseen_total (list_to_set (map s_Name (def_Steps def))) (jobRows (jb_ID job) c) c1) as [atoms Ea]. rewrite Ea.
  eexists _, _, _. split; [reflexivity|].
  split; [done| |by apply retired_ids|done|done|done]. intros t. unfold stepRows. rewrite list_elem_of_omap. simpl. split.
  - intros (Ht & Hjt & Hd). apply list_elem_of_In, in_map_iff in Ht as (r & <- & Hr%list_elem_of_In).
    destruct (retired_keys (list_to_set (map s_Name (def_Steps def))) (jobRows (jb_ID job) c) r) as (_ & Ej & _).
    rewrite Ej in Hjt. apply R2 in Hr as [(s & Hs & Er)|[Hr Hout]].
    + exists s. split; [done|]. rewrite Er. f_equal. unfold retired in *. by destruct (_ && _).
    + exfalso. unfold retired in Hd. rewrite (proj2 (unseen_true _ _ r)) in Hd; [destruct (tk_Deleted r) eqn:Ed; simpl in Hd; congruence|].
      exists r. rewrite jobRows_elem, elem_of_list_to_set. tauto.
  - intros (s & Hs & Et). apply list_elem_of_lookup in Hs as [i Hi]. destruct (R1 i s Hi) as (t' & Et' & Him).
    rewrite Et in Et'. injection Et' as <-. split; [|by split; apply Him]. 
    assert (t ∈ c_tasks c1) as Ht by (apply R2; left; exists s; split; [by eapply list_elem_of_lookup_2|done]).
    apply list_elem_of_In, in_map_iff. exists t. rewrite <- list_elem_of_In. split; [|done]. unfold retired.
    replace (unseen _ _ t) with false; [done|]. symmetry. apply not_true_iff_false. rewrite unseen_true.
    intros (r & Hr & Eid & Hout). apply jobRows_elem in Hr as [Hr Ej].
    assert (tk_Name r ∉ map s_Name (def_Steps def)) as Hout' by (by rewrite elem_of_list_to_set in Hout).
    assert (r ∈ c_tasks c1) as Hr1 by (apply R2; right; split; [done|tauto]).
    rewrite (task_by_id c1 r t R3 Hr1 Ht Eid) in Hout'. apply Hout'. rewrite (im_name _ _ _ _ Him).
    apply elem_of_names. exists s. split; [by eapply list_elem_of_lookup_2|done].
Qed.

(** * The published tasks *)

Section published.
Context (job : JobRow) (steps : list Step) (tb : gmap string TaskRow) (c c' : Catalog).
Hypothesis Himp : imported job steps tb c c'.
Hypothesis Hnames : NoDup (map s_Name steps).

Lemma stepRows_lookup i t : stepRows tb steps !! i = Some t ↔ ∃ s, steps !! i = Some s ∧ tb !! s_Name s = Some t.
Proof using Himp.
  assert (∀ s, s ∈ steps → is_Some (tb !! s_Name s)) as Hsome.
  { intros s [j Hj]%list_elem_of_lookup. destruct (ip_rows _ _ _ _ _ Himp j s Hj) as (u & Hu & _). eauto. }
  clear -Hsome. revert i. induction steps as [|s l IH]; intros i; [split; [by destruct i|intros (s & Hs & _); by destruct i]|].
  unfold stepRows. simpl. destruct (Hsome s) as [u Hu]; [by left|]. rewrite Hu. destruct i as [|i]; simpl.
  - split; [intros [= <-]; eauto|]. intros (x & [= <-] & Hx). congruence.
  - apply IH. intros x Hx. apply Hsome. by right.
Qed.

Lemma stepRows_imports i t : stepRows tb steps !! i = Some t → ∃ s, steps !! i = Some s ∧ tb !! s_Name s = Some t ∧ imports (jb_ID job) s i t.
Proof using Himp.
  intros (s & Hs & Ht)%stepRows_lookup. destruct (ip_rows _ _ _ _ _ Himp i s Hs) as (u & Hu & Hi).
  assert (u = t) as -> by congruence. eauto.
Qed.

Lemma stepRows_names : map tk_Name (stepRows tb steps) = map s_Name steps.
Proof using Himp.
  apply list_eq. intros i. rewrite !list_lookup_fmap. destruct (stepRows tb steps !! i) as [t|] eqn:E.
  - apply stepRows_imports in E as (s & -> & _ & Hi). simpl. f_equal. apply Hi.
  - destruct (steps !! i) as [s|] eqn:Es; [|done]. destruct (ip_rows _ _ _ _ _ Himp i s Es) as (u & Hu & _).
    rewrite (proj2 (stepRows_lookup i u)) in E; [done|eauto].
Qed.

Lemma stepRows_nodup : NoDup (stepRows tb steps).
Proof using Himp Hnames. apply (NoDup_fmap_1 tk_Name). change (NoDup (map tk_Name (stepRows tb steps))). by rewrite stepRows_names. Qed.

Lemma stepRows_sorted : StronglySorted (not_after task_before) (map liveTask (stepRows tb steps)).
Proof using Himp.
  assert (∀ l k, (∀ (i : nat) t, l !! i = Some t → tk_Position t = Z.of_nat (k + i)) →
    StronglySorted (not_after task_before) (map liveTask l)) as H.
  { induction l as [|t l IH]; intros k Hp; [constructor|]. simpl. constructor.
    - apply (IH (S k)). intros i u Hu. rewrite (Hp (S i) u Hu). f_equal. lia.
    - apply Forall_forall. intros x (u & <- & [i Hu]%list_elem_of_In%list_elem_of_lookup)%list_elem_of_In%in_map_iff.
      unfold not_after, task_before. simpl. pose proof (Hp 0%nat t eq_refl). pose proof (Hp (S i) u Hu). apply orb_false_iff. split; [lia|]. apply andb_false_iff. left. lia. }
  apply (H _ 0%nat). intros i t (s & _ & _ & Hi)%stepRows_imports. apply Hi.
Qed.

(** The live tasks of the job, in the order the loader reads them, are its steps. *)
Lemma published_tasks d db : c_tasks d = c_tasks c' →
  jobTasks (jb_ID job) (publish d db) = map liveTask (stepRows tb steps).
Proof using Himp Hnames.
  intros Ed. unfold jobTasks, order_tasks. symmetry. apply (sorted_unique task_before).
  - intros x y (t & <- & [i Hi]%list_elem_of_In%list_elem_of_lookup)%list_elem_of_In%in_map_iff
      (u & <- & [j Hj]%list_elem_of_In%list_elem_of_lookup)%list_elem_of_In%in_map_iff H1 H2.
    pose proof (stepRows_imports i t Hi) as (? & _ & _ & It). pose proof (stepRows_imports j u Hj) as (? & _ & _ & Iu).
    unfold task_before in H1, H2. simpl in H1, H2. rewrite (im_position _ _ _ _ It), (im_position _ _ _ _ Iu) in H1, H2.
    assert (i = j) as -> by lia. congruence.
  - apply stepRows_sorted.
  - apply sort_stable_sorted; intros *; unfold task_before; lia.
  - rewrite sort_stable_perm. apply NoDup_Permutation.
    + apply (NoDup_fmap_1 t_Name). change (NoDup (map t_Name (map liveTask (stepRows tb steps)))). rewrite map_map. simpl.
      change (NoDup (map tk_Name (stepRows tb steps))). by rewrite stepRows_names.
    + apply NoDup_ListNoDup, List.NoDup_filter, NoDup_ListNoDup. simpl. unfold live_tasks_of. rewrite Ed.
      apply (NoDup_fmap_1 t_ID). change (NoDup (map t_ID (map liveTask (select (λ t, negb (tk_Deleted t)) (c_tasks c'))))).
      rewrite map_map. simpl. pose proof (ci_tasks _ (ip_ids _ _ _ _ _ Himp)) as Hnd. clear -Hnd.
      unfold select. induction (c_tasks c') as [|t l IH]; simpl in *; [constructor|]. apply NoDup_cons in Hnd as [Ht Hnd].
      destruct (negb (tk_Deleted t)); [|auto]. simpl. constructor; [|auto]. intros Hin. apply Ht.
      apply list_elem_of_In, in_map_iff in Hin as (u & Eu & Hu). apply filter_In in Hu as [Hu _].
      apply list_elem_of_In, in_map_iff. eauto.
    + intros x. rewrite select_elem. simpl. unfold live_tasks_of. rewrite Ed, !list_elem_of_In, !in_map_iff. split.
      * intros (t & <- & Ht%list_elem_of_In). apply (ip_live _ _ _ _ _ Himp) in Ht as (Ht & Hj & Hd). split; [|simpl; by apply N.eqb_eq].
        exists t. split; [done|]. apply list_elem_of_In. rewrite select_elem, Hd. done.
      * intros [(t & <- & Ht%list_elem_of_In) Hj%N.eqb_eq]. rewrite select_elem in Ht. destruct Ht as [Ht Hd%negb_true_iff].
        exists t. split; [done|]. apply list_elem_of_In. apply (ip_live _ _ _ _ _ Himp). done.
Qed.
End published.

(** * Edges *)

Definition idOf (tb : gmap string TaskRow) (n : string) : uuid := match tb !! n with Some t => tk_ID t | None => uuid_Nil end.

Definition stepEdges (job : uuid) (tb : gmap string TaskRow) (succs : Edges) (a : string) : list TaskEdge :=
  map (λ b, mkTaskEdge job (idOf tb a) (idOf tb b)) (listAt succs a).

Lemma edgesFrom_total job tb a id succs c : (∀ b, b ∈ succs → is_Some (tb !! b)) →
  edgesFrom job tb a id succs c = inr (map (λ b, mkTaskEdge job id (idOf tb b)) succs, c).
Proof.
  induction succs as [|b l IH]; intros H; [done|]. simpl. destruct (H b) as [t Ht]; [by left|]. unfold idOf at 1. rewrite Ht.
  unfold mbind, CatTx_bind. rewrite IH; [done|]. intros x Hx. apply H. by right.
Qed.

Lemma buildEdges_total job tb succs names c :
  (∀ a, a ∈ names → is_Some (tb !! a) ∧ ∀ b, b ∈ listAt succs a → is_Some (tb !! b)) →
  buildEdges job succs tb names c = inr (flat_map (stepEdges job tb succs) names, c).
Proof.
  induction names as [|a l IH]; intros H; [done|]. simpl. destruct (H a) as [[t Ht] Hb]; [by left|].
  unfold stepEdges at 1, idOf at 1. rewrite Ht. unfold mbind, CatTx_bind. rewrite edgesFrom_total by done.
  rewrite IH; [done|]. intros x Hx. apply H. by right.
Qed.

Lemma select_app {A} (p : A → bool) (l k : list A) : select p (l ++ k) = select p l ++ select p k.
Proof. apply List.filter_app. Qed.

(** The edges out of one step among the edges of the job. *)
Lemma select_stepEdges job tb succs names a : NoDup names →
  (∀ x, x ∈ names → idOf tb x = idOf tb a → x = a) → (a ∉ names → listAt succs a = []) →
  select (λ e, (e_FromTaskID e =? idOf tb a)%N) (flat_map (stepEdges job tb succs) names) = stepEdges job tb succs a.
Proof.
  intros Hnd Hinj Hout.
  assert (∀ x, select (λ e, (e_FromTaskID e =? idOf tb a)%N) (stepEdges job tb succs x) =
    if (idOf tb x =? idOf tb a)%N then stepEdges job tb succs x else []) as Hx.
  { intros x. unfold stepEdges. destruct (idOf tb x =? idOf tb a)%N eqn:E.
    - apply select_all. intros e (b & <- & _)%list_elem_of_In%in_map_iff. done.
    - apply select_none. intros e (b & <- & _)%list_elem_of_In%in_map_iff. done. }
  induction names as [|x l IH]; simpl; [unfold stepEdges; by rewrite Hout by apply not_elem_of_nil|].
  apply NoDup_cons in Hnd as [Hxl Hnd]. unfold select in *. rewrite List.filter_app, Hx.
  destruct (N.eqb_spec (idOf tb x) (idOf tb a)) as [E|E].
  - assert (x = a) as -> by (apply Hinj; [by left|done]). rewrite <- (app_nil_r (stepEdges job tb succs a)) at 2. f_equal.
    fold (select (λ e, (e_FromTaskID e =? idOf tb a)%N) (flat_map (stepEdges job tb succs) l)). apply select_none.
    intros e (y & Hy & He)%list_elem_of_In%in_flat_map. apply list_elem_of_In in Hy. unfold stepEdges in He.
    apply in_map_iff in He as (b & <- & _). simpl. apply N.eqb_neq. intros Ey. apply Hxl.
    rewrite <- (Hinj y); [done|by right|done].
  - simpl. apply IH; [done|intros y Hy; apply Hinj; by right|]. intros Hal. apply Hout. rewrite elem_of_cons.
    intros [->|?]; [done|done].
Qed.

Section edges.
Context (job : JobRow) (steps : list Step) (tb : gmap string TaskRow) (c c' : Catalog) (succs : Edges) (keys : list string).
Hypothesis Himp : imported job steps tb c c'.
Hypothesis Hwf : well_formed steps.
Hypothesis Hedge : ∀ a b, b ∈ listAt succs a ↔ step_edge steps a b.
Hypothesis Hkeys : ∀ a, a ∈ keys ↔ ∃ b, step_edge steps a b.
Hypothesis Hkeys_nodup : NoDup keys.

Let names := map s_Name steps.
Let J := flat_map (stepEdges (jb_ID job) tb succs) keys.
Let edges := (delete_where (λ e, (e_JobID e =? jb_ID job)%N) (c_edges c')).1 ++ J.

Lemma tb_some a : a ∈ names → ∃ s t i, steps !! i = Some s ∧ s_Name s = a ∧ tb !! a = Some t ∧ imports (jb_ID job) s i t ∧ t ∈ c_tasks c'.
Proof using Himp.
  intros (s & [i Hi]%list_elem_of_lookup & <-)%elem_of_names. destruct (ip_rows _ _ _ _ _ Himp i s Hi) as (t & Ht & Him).
  exists s, t, i. split_and!; try done. apply (ip_live _ _ _ _ _ Himp). unfold stepRows. apply list_elem_of_omap.
  exists s. split; [by eapply list_elem_of_lookup_2|done].
Qed.

Lemma idOf_inj a b : a ∈ names → b ∈ names → idOf tb a = idOf tb b → a = b.
Proof using Himp.
  intros (s & t & i & _ & <- & Ht & Im & Hc)%tb_some (s' & t' & i' & _ & <- & Ht' & Im' & Hc')%tb_some. unfold idOf. rewrite Ht, Ht'.
  intros E. assert (t = t') as <- by (eapply task_by_id; [apply Himp|done..]).
  rewrite <- (im_name _ _ _ _ Im). apply Im'.
Qed.

Lemma edges_from a : a ∈ names → select (λ e, (e_FromTaskID e =? idOf tb a)%N) edges = stepEdges (jb_ID job) tb succs a.
Proof using Himp Hwf Hedge Hkeys Hkeys_nodup.
  intros Ha. unfold edges. rewrite select_app, (select_none _ (delete_where _ _).1).
  - simpl. apply select_stepEdges; [done| |].
    + intros x Hx E. apply idOf_inj; [|done|done]. apply Hkeys in Hx as [b Hb]. by apply step_edge_names in Hb as [? _].
    + intros Hout. destruct (listAt succs a) as [|b l] eqn:E; [done|]. exfalso. apply Hout, Hkeys. exists b.
      apply Hedge. rewrite E. by left.
  - intros e [He Hj]%delete_elem. apply N.eqb_neq. intros Ef. apply N.eqb_neq in Hj.
    destruct (ci_edges _ (ip_ids _ _ _ _ _ Himp) e He) as (r & Hr & Er & Ejr).
    destruct (tb_some a Ha) as (s & t & i & _ & _ & Ht & Im & Hc). unfold idOf in Ef. rewrite Ht in Ef.
    assert (r = t) as -> by (eapply task_by_id; [apply Himp|done|done|congruence]).
    apply Hj. rewrite <- Ejr. apply Im.
Qed.

Lemma job_edges : select (λ e, (e_JobID e =? jb_ID job)%N) edges = J.
Proof.
  unfold edges. rewrite select_app, (select_none _ (delete_where _ _).1).
  - simpl. apply select_all. intros e (a & _ & (b & <- & _)%in_map_iff)%list_elem_of_In%in_flat_map. simpl. apply N.eqb_refl.
  - intros e [_ He]%delete_elem. done.
Qed.

(** Two steps have an edge between them, or one has none to follow. *)
Lemma no_edges_single : J = [] → ∀ (i j : nat) a b, names !! i = Some a → names !! j = Some b → i = j.
Proof using Hwf Hedge Hkeys.
  intros HJ. assert (∀ a b, ¬ step_edge steps a b) as Hno.
  { intros a b Hab. assert (mkTaskEdge (jb_ID job) (idOf tb a) (idOf tb b) ∈ J) as Hin; [|rewrite HJ in Hin; by apply elem_of_nil in Hin].
    apply list_elem_of_In, in_flat_map. exists a. split; [apply list_elem_of_In, Hkeys; eauto|].
    unfold stepEdges. apply in_map_iff. exists b. split; [done|]. by apply list_elem_of_In, Hedge. }
  assert (∀ (i : nat) a, names !! i = Some a → i = 0%nat) as H0.
  { intros [|i] a Ha; [done|]. exfalso. destruct (names !! i) as [b|] eqn:Eb.
    - apply (Hno b a). right. split; [intros x y Hxy; apply (Hno x y); by left|]. exists i. done.
    - apply lookup_ge_None in Eb. apply lookup_lt_Some in Ha. lia. }
  intros i j a b Ha Hb. by rewrite (H0 i a Ha), (H0 j b Hb).
Qed.

Lemma step_row_index t : t ∈ stepRows tb steps → ∃ (i : nat), names !! i = Some (tk_Name t) ∧ stepRows tb steps !! i = Some t ∧
  tk_ID t = idOf tb (tk_Name t) ∧ tk_JobID t = jb_ID job.
Proof using Himp.
  intros [i Hi]%list_elem_of_lookup. exists i. destruct (stepRows_imports _ _ _ _ _ Himp i t Hi) as (s & Hs & Ht & Im).
  unfold names, idOf. rewrite (im_name _ _ _ _ Im), Ht. split_and!; [|done|done|apply Im].
  change (map s_Name steps) with (s_Name <$> steps). by rewrite list_lookup_fmap, Hs.
Qed.

Lemma published_successors d db t : c_tasks d = c_tasks c' → c_edges d = edges → t ∈ stepRows tb steps →
  map e_ToTaskID (successorEdgesTx (publish d db) (liveTask t)) = map (idOf tb) (listAt succs (tk_Name t)).
Proof using Himp Hwf Hedge Hkeys Hkeys_nodup.
  intros Et Ee Hin. destruct (step_row_index t Hin) as (i & Hi & Hri & Eid & Ej).
  unfold successorEdgesTx. simpl. rewrite Ee, Eid, edges_from by (by eapply list_elem_of_lookup_2).
  destruct (stepEdges (jb_ID job) tb succs (tk_Name t)) as [|e es] eqn:Es.
  2:{ rewrite <- Es. unfold stepEdges. by rewrite map_map. }
  assert (listAt succs (tk_Name t) = []) as -> by (unfold stepEdges in Es; by apply map_eq_nil in Es). simpl.
  change (countb (λ e, (e_JobID e =? tk_JobID t)%N) edges) with (length (select (λ e, (e_JobID e =? tk_JobID t)%N) edges)).
  rewrite Ej, job_edges. destruct J as [|e es] eqn:EJ; [|done]. simpl.
  rewrite (select_none _ (live_tasks_of d)); [done|]. intros u Hu. apply not_true_iff_false. intros Hlater. bool_prop.
  assert (u ∈ map liveTask (stepRows tb steps)) as Hx.
  { rewrite <- (published_tasks _ _ _ _ _ Himp (wf_names _ Hwf) d db Et). unfold jobTasks. apply order_tasks_elem, select_elem. simpl.
    split; [done|by apply N.eqb_eq]. }
  apply list_elem_of_In, in_map_iff in Hx as (r & <- & Hr%list_elem_of_In). destruct (step_row_index r Hr) as (j & Hj & Hrj & _ & _).
  assert (i = j) as <- by (by eapply no_edges_single). assert (r = t) as -> by congruence.
  simpl in *. rewrite orb_true_iff, andb_true_iff in *. lia.
Qed.

(** The topology a run of the job loads. *)
Definition stepTopology : RunTopology :=
  buildTopology (map (λ t, (tk_ID t, normalizedTriggerRule (tk_TriggerRule t))) (stepRows tb steps))
    (map (λ t, (tk_ID t, map (idOf tb) (listAt succs (tk_Name t)))) (stepRows tb steps)).

Lemma published_topology d db runID jr : c_tasks d = c_tasks c' → c_edges d = edges →
  findRun (publish d db) runID = Some jr → jr_JobID jr = jb_ID job → jr_Quarantine jr = false →
  LoadRunTopology (publish d db) runID = inr stepTopology.
Proof using Himp Hwf Hedge Hkeys Hkeys_nodup.
  intros Et Ee Hrun Hj Hq. unfold LoadRunTopology. rewrite Hrun, Hq, Hj. fold (jobTasks (jb_ID job) (publish d db)).
  rewrite (published_tasks _ _ _ _ _ Himp (wf_names _ Hwf) d db Et), !map_map. f_equal. unfold stepTopology. f_equal.
  apply map_ext_in. intros t Ht%list_elem_of_In. by rewrite (published_successors d db t Et Ee Ht).
Qed.

Lemma topology_dom : dom (Order stepTopology) = list_to_set (map (idOf tb) names) ∧ topo_wf stepTopology.
Proof using Himp.
  destruct (buildTopology_wf (map (λ t, (tk_ID t, normalizedTriggerRule (tk_TriggerRule t))) (stepRows tb steps))
    (map (λ t, (tk_ID t, map (idOf tb) (listAt succs (tk_Name t)))) (stepRows tb steps))) as [W D]; [intros x; by rewrite !map_map|].
  split; [|done]. unfold stepTopology. rewrite D, map_map. simpl. f_equal.
  unfold names. rewrite <- (stepRows_names _ _ _ _ _ Himp), map_map. apply map_ext_in. intros t Ht%list_elem_of_In.
  by destruct (step_row_index t Ht) as (_ & _ & _ & -> & _).
Qed.

Lemma topology_edges a b : a ∈ names → b ∈ names → idOf tb a ∈ predecessors_of stepTopology (idOf tb b) ↔ step_edge steps a b.
Proof using Himp Hwf Hedge.
  intros Ha Hb. rewrite <- occ_elem. unfold stepTopology, buildTopology. rewrite topology_pairs, topology_preds, addTasks_dom.
  match goal with |- context [addTasks emptyTopology 0 ?l] => destruct (addTasks_edges emptyTopology 0 l) as [_ ->]; [done|] end.
  rewrite decide_True.
  2:{ apply elem_of_union_r, elem_of_list_to_set. rewrite map_map. simpl. destruct (tb_some b Hb) as (s & t & i & Hs & Es & Ht & Im & _).
      apply list_elem_of_In, in_map_iff. exists t. split; [unfold idOf; by rewrite Ht|]. apply list_elem_of_In.
      unfold stepRows. apply list_elem_of_omap. exists s. rewrite Es. split; [by eapply list_elem_of_lookup_2|done]. }
  destruct (tb_some a Ha) as (s & t & i & Hs & Es & Ht & Im & _).
  assert (t ∈ stepRows tb steps) as Hin.
  { unfold stepRows. apply list_elem_of_omap. exists s. rewrite Es. split; [by eapply list_elem_of_lookup_2|done]. }
  rewrite (flat_count _ _ _ (map (idOf tb) (listAt succs a))).
  - simpl. rewrite occ_elem, <- Hedge. rewrite list_elem_of_In, in_map_iff. split.
    + intros (x & E & Hx%list_elem_of_In). rewrite <- (idOf_inj x b); [done| |done|done]. apply Hedge in Hx.
      by apply step_edge_names in Hx as [_ ?].
    + intros Hab. exists b. split; [done|]. by apply list_elem_of_In.
  - rewrite map_map. simpl. apply (NoDup_fmap_2_strong tk_ID).
    + intros x y Hx Hy E. eapply task_by_id; [apply Himp| | |done]; by apply (ip_live _ _ _ _ _ Himp).
    + apply (stepRows_nodup _ _ _ _ _ Himp), Hwf.
  - apply list_elem_of_In, in_map_iff. exists t. rewrite <- list_elem_of_In. split; [|done]. unfold idOf. rewrite Ht.
    by rewrite (im_name _ _ _ _ Im), Es.
Qed.

Lemma topology_acyclic : acyclic_steps steps → acyclic stepTopology.
Proof using Himp Hwf Hedge.
  intros (rank & Hr). set (M := fold_right Nat.max 0%nat (map rank names)).
  set (nameOf := λ p : uuid, default "" (List.find (λ n, (idOf tb n =? p)%N) names)).
  exists (λ p, (M - rank (nameOf p))%nat). intros p s Hp. destruct topology_dom as [D [_ Hc]].
  destruct (Hc p s Hp) as [Hpd Hsd]. rewrite D, elem_of_list_to_set in Hpd, Hsd.
  apply list_elem_of_In, in_map_iff in Hpd as (a & <- & Ha%list_elem_of_In), Hsd as (b & <- & Hb%list_elem_of_In).
  assert (∀ n, n ∈ names → nameOf (idOf tb n) = n) as Hname.
  { intros n Hn. unfold nameOf. destruct (List.find _ names) as [m|] eqn:F; simpl.
    - apply find_some in F as [Hm E%N.eqb_eq]. apply list_elem_of_In in Hm. by apply idOf_inj.
    - apply list_elem_of_In in Hn. apply (find_none _ _ F) in Hn. by rewrite N.eqb_refl in Hn. }
  rewrite !Hname by done. apply topology_edges in Hp; [|done|done]. specialize (Hr a b Hp).
  assert (∀ n, n ∈ names → (rank n ≤ M)%nat) as HM.
  { unfold M. clear. induction names as [|x l IH]; intros n Hn; [by apply elem_of_nil in Hn|]. simpl.
    apply elem_of_cons in Hn as [->|Hn]; [lia|]. specialize (IH n Hn). lia. }
  pose proof (HM a Ha). lia.
Qed.
End edges.

(** * The whole transaction *)

(** Callbacks and atoms leave the task, job and edge tables alone. *)
Lemma same_trans c c1 c2 : same_tasks c c1 → same_tasks c1 c2 → same_tasks c c2.
Proof. intros (A1 & A2 & A3 & A4) (B1 & B2 & B3 & B4). split_and!; [congruence..|lia]. Qed.

Lemma callbackLoop_total now MarshalMapString job existing cbs : ∀ idx claimed c, ∃ claimed' c',
  reconcileCallbackLoop now MarshalMapString job existing idx cbs claimed c = inr (claimed', c') ∧ same_tasks c c'.
Proof.
  induction cbs as [|cb cbs IH]; intros idx claimed c; [exists claimed, c; by split_and!|]. cbn [reconcileCallbackLoop]. cbv zeta.
  destruct (first _) as [r|]; unfold mbind, CatTx_bind, catWrite, newID.
  - match goal with |- context [reconcileCallbackLoop _ _ _ _ ?i _ ?s ?d] => destruct (IH i s d) as (s' & c' & E & S) end.
    eexists _, _. split; [exact E|]. eapply same_trans; [|exact S]. by split_and!.
  - match goal with |- context [reconcileCallbackLoop _ _ _ _ ?i _ ?s ?d] => destruct (IH i s d) as (s' & c' & E & S) end.
    eexists _, _. split; [exact E|]. eapply same_trans; [|exact S]. split_and!; [done..|simpl; lia].
Qed.

Lemma retireCallbacks_total claimed rows : ∀ c, ∃ c', retireCallbacks claimed rows c = inr ((), c') ∧ same_tasks c c'.
Proof.
  induction rows as [|r rows IH]; intros c; [exists c; by split_and!|]. cbn [retireCallbacks].
  destruct (bool_decide _); [apply IH|]. unfold mbind, CatTx_bind, catWrite.
  match goal with |- context [retireCallbacks _ _ ?d] => destruct (IH d) as (c' & E & S) end.
  exists c'. split; [exact E|]. eapply same_trans; [|exact S]. by split_and!.
Qed.

Lemma reconcileCallbacks_total now MarshalMapString job cbs c : ∃ c',
  reconcileCallbacksTx now MarshalMapString job cbs c = inr ((), c') ∧ same_tasks c c'.
Proof.
  unfold reconcileCallbacksTx, mbind, CatTx_bind, catRead.
  match goal with |- context [reconcileCallbackLoop _ _ _ ?e ?i _ ?s ?d] =>
    destruct (callbackLoop_total now MarshalMapString job e cbs i s d) as (s' & c1 & E & S1) end.
  rewrite E. match goal with |- context [retireCallbacks ?a ?b ?d] => destruct (retireCallbacks_total a b d) as (c2 & E2 & S2) end.
  exists c2. split; [exact E2|]. by eapply same_trans.
Qed.

(** The job row keeps its identity under the alias. *)
Lemma upsertJobRow_total def opts trigger c : cat_ids c →
  let existing := first (select (λ j, jb_Alias j =s md_Alias (def_Metadata def)) (c_jobs c)) in
  ∃ job c', upsertJobRowTx existing def opts trigger c = inr (job, c') ∧ cat_ids c' ∧ (jb_ID job < c_supply c')%N ∧
    job ∈ c_jobs c' ∧ job = jobFields def opts (jb_ID job) trigger (match existing with Some j => jb_Paused j | None => false end) ∧
    match existing with Some j => jb_ID job = jb_ID j | None => ∀ j, j ∈ c_jobs c → jb_ID j ≠ jb_ID job end ∧
    c_edges c' = c_edges c.
Proof.
  intros Hc. pose proof Hc as [H1 H2 H3 H4 H5 H6 H7 H8]. destruct (first _) as [j|] eqn:Ef; cbv zeta.
  - apply head_Some_elem_of, select_elem in Ef as [Hj Ea%str_eqb_eq]. eexists _, _. split; [reflexivity|].
    set (row := jobFields def opts (jb_ID j) trigger (jb_Paused j)).
    assert (∀ {K} (f : JobRow → K), f row = f j → map f (update_where (λ r, (jb_ID r =? jb_ID j)%N) (λ _, row) (c_jobs c)).1 = map f (c_jobs c)) as Hcol.
    { intros K f Efr. simpl. rewrite map_map. apply map_ext_in. intros r Hr%list_elem_of_In.
      destruct (N.eqb_spec (jb_ID r) (jb_ID j)) as [E|]; [|done]. rewrite Efr. f_equal. symmetry. by apply (NoDup_map_eq _ _ _ _ H5). }
    assert (row ∈ (update_where (λ r, (jb_ID r =? jb_ID j)%N) (λ _, row) (c_jobs c)).1) as Hrow.
    { apply update_elem. exists j. split; [done|]. by rewrite N.eqb_refl. }
    split_and!; [|apply (H7 j Hj)|exact Hrow|done|done|done].
    split; cbn [set_jobs c_tasks c_jobs c_edges c_supply]; [done|done|done|done|by rewrite (Hcol _ jb_ID)| | |done].
    + rewrite (Hcol _ jb_Alias); [done|]. simpl. done.
    + intros x (r & Hr & ->)%update_elem. destruct (_ =? _)%N; [apply (H7 j Hj)|auto].
  - exists (jobFields def opts (c_supply c) trigger false),
      (set_jobs (c_jobs c ++ [jobFields def opts (c_supply c) trigger false]) (set_supply (c_supply c + 1)%N c)).
    split; [reflexivity|]. simpl. split_and!; [|lia| |done| |done].
    + split; simpl; [lia|done|done| | | | |done].
      * intros t Ht. specialize (H4 t Ht). lia.
      * rewrite map_app. apply NoDup_app. split_and!; [done| |apply NoDup_singleton]. intros i (r & <- & Hr%list_elem_of_In)%list_elem_of_In%in_map_iff.
        simpl. rewrite list_elem_of_singleton. specialize (H7 r Hr). lia.
      * rewrite map_app. apply NoDup_app. split_and!; [done| |apply NoDup_singleton]. intros i (r & <- & Hr%list_elem_of_In)%list_elem_of_In%in_map_iff.
        simpl. rewrite list_elem_of_singleton. intros E. assert (r ∈ select (λ j, jb_Alias j =s md_Alias (def_Metadata def)) (c_jobs c)) as Hs.
        { apply select_elem. split; [done|]. by apply str_eqb_eq. }
        unfold first in Ef. destruct (select _ _); [by apply elem_of_nil in Hs|done].
      * intros j. rewrite elem_of_app, list_elem_of_singleton. intros [Hj| ->]; [specialize (H7 j Hj); lia|simpl; lia].
    + rewrite elem_of_app, list_elem_of_singleton. by right.
    + intros j Hj. specialize (H7 j Hj). lia.
Qed.

(** The trigger row replaces the one the job had, or is new; no other row changes. *)
Lemma upsertTrigger_total existing alias trig opts c : ∃ row c', upsertTriggerTx existing alias trig opts c = inr (row, c') ∧
  same_tasks c c' ∧ row = triggerFields (tgr_ID row) alias trig opts ∧ row ∈ c_triggers c' ∧
  (∀ t, t ∈ c_triggers c' → t ∈ c_triggers c ∨ t = row) ∧ (tgr_ID row = c_supply c ∨ ∃ t, t ∈ c_triggers c ∧ tgr_ID t = tgr_ID row).
Proof.
  unfold upsertTriggerTx, mbind, CatTx_bind, catRead. cbv zeta beta iota.
  match goal with |- context [match ?e with Some _ => _ | None => _ end c] => destruct e as [t|] eqn:E end.
  - assert (t ∈ c_triggers c) as Ht.
    { destruct existing as [j|]; [|done]. simpl in E. destruct (_ =? _)%N; [done|]. by apply head_Some_elem_of, select_elem in E as [? _]. }
    eexists _, _. split; [reflexivity|]. split_and!; [by split_and!|done| | |].
    + apply update_elem. exists t. by rewrite N.eqb_refl.
    + intros x (r & Hr & ->)%update_elem. destruct (_ =? _)%N; auto.
    + right. by exists t.
  - eexists _, _. split; [reflexivity|]. split_and!; [split_and!; simpl; [done..|lia]|done| | |by left].
    + simpl. rewrite elem_of_app, list_elem_of_singleton. by right.
    + intros x. simpl. rewrite elem_of_app, list_elem_of_singleton. tauto.
Qed.

Lemma upsertJob_total def opts c : cat_ids c →
  let existing := first (select (λ j, jb_Alias j =s md_Alias (def_Metadata def)) (c_jobs c)) in
  ∃ job c', upsertJobAndTriggerTx existing def opts c = inr (job, c') ∧ cat_ids c' ∧ (jb_ID job < c_supply c')%N ∧
    job ∈ c_jobs c' ∧ (∃ trigger, job = jobFields def opts (jb_ID job) trigger (match existing with Some j => jb_Paused j | None => false end)) ∧
    match existing with Some j => jb_ID job = jb_ID j | None => ∀ j, j ∈ c_jobs c → jb_ID j ≠ jb_ID job end ∧
    c_edges c' = c_edges c.
Proof.
  intros Hc. cbv zeta. destruct (upsertTrigger_total (first (select (λ j, jb_Alias j =s md_Alias (def_Metadata def)) (c_jobs c)))
    (md_Alias (def_Metadata def)) (def_Trigger def) opts c) as (row & c1 & E1 & S1 & _).
  unfold upsertJobAndTriggerTx, mbind at 1, CatTx_bind at 1. rewrite E1.
  pose proof (upsertJobRow_total def opts (tgr_ID row) c1 (same_ids _ _ S1 Hc)) as HU. cbv zeta in HU.
  destruct S1 as (_ & Ej & Ee & _). rewrite Ej, Ee in HU.
  destruct HU as (job & c' & E & ? & ? & ? & Hjob & Hid & He). exists job, c'. split_and!; [done|done|done|done|by exists (tgr_ID row)|done|done].
Qed.

(** * From definition to run *)

Section import.
Context (ParseDuration : string → option Z) (Compile : object → option def_error) (freshness : bool)
  (range_order : option string → gset string → list string) (map_order : list string → list string)
  (MarshalMapString : object → string) (registries : Definition_ → checked ()) (now : Z).
Hypothesis Hrange : range_ok range_order.
Hypothesis Hmap : ∀ l, map_order l ≡ₚ l.

Lemma reconcileEdges_total job steps tb c c' succs : imported job steps tb c c' → well_formed steps →
  (∀ a b, b ∈ listAt succs a ↔ step_edge steps a b) → (∀ a, a ∈ map fst (map_to_list succs) ↔ ∃ b, step_edge steps a b) →
  ∃ keys, NoDup keys ∧ (∀ a, a ∈ keys ↔ ∃ b, step_edge steps a b) ∧
  reconcileEdgesTx map_order job steps succs tb c' = inr ((), set_edges
    ((delete_where (λ e, (e_JobID e =? jb_ID job)%N) (c_edges c')).1 ++ flat_map (stepEdges (jb_ID job) tb succs) keys) c').
Proof using Hmap.
  intros Himp Hwf Hedge Hkeys. unfold reconcileEdgesTx, mbind, CatTx_bind, catWrite. cbv zeta.
  set (keys := sort_stable _ _). exists keys.
  assert (keys ≡ₚ map fst (map_to_list succs)) as HP by (unfold keys; rewrite sort_stable_perm; apply Hmap).
  split_and!; [rewrite HP; apply NoDup_fst_map_to_list|intros a; by rewrite HP|].
  assert (∀ a, a ∈ map s_Name steps → is_Some (tb !! a)) as Hsome.
  { intros a Ha. destruct (tb_some _ _ _ _ _ Himp a Ha) as (_ & t & _ & _ & _ & Ht & _). eauto. }
  rewrite buildEdges_total; [done|]. intros a Ha. rewrite HP, Hkeys in Ha. destruct Ha as [b Hb]. split.
  - apply Hsome. by apply step_edge_names in Hb as [? _].
  - intros x Hx%Hedge. apply Hsome. by apply step_edge_names in Hx as [_ ?].
Qed.

(** The new edges start at tasks of the job. *)
Lemma edges_ids job steps tb c c' succs keys : imported job steps tb c c' → well_formed steps →
  (∀ a, a ∈ keys ↔ ∃ b, step_edge steps a b) →
  cat_ids (set_edges ((delete_where (λ e, (e_JobID e =? jb_ID job)%N) (c_edges c')).1 ++
    flat_map (stepEdges (jb_ID job) tb succs) keys) c').
Proof.
  intros Himp Hwf Hkeys. destruct (ip_ids _ _ _ _ _ Himp) as [H1 H2 H3 H4 H5 H6 H7 H8]. split; simpl; try done.
  intros e. rewrite elem_of_app. intros [He|He].
  - apply list_elem_of_In, filter_In in He as [He _]. apply list_elem_of_In in He. auto.
  - apply list_elem_of_In, in_flat_map in He as (a & Ha%list_elem_of_In & He). apply Hkeys in Ha as [b Hb].
    apply step_edge_names in Hb as [Ha _]; [|done]. destruct (tb_some _ _ _ _ _ Himp a Ha) as (s & t & i & _ & _ & Ht & Im & Hc).
    unfold stepEdges in He. apply in_map_iff in He as (x & <- & _). exists t. simpl. unfold idOf. rewrite Ht.
    split_and!; [done|done|apply Im].
Qed.

(** What a run of the imported job loads: the step graph under an injective naming. *)
Record topology_of_steps (steps : list Step) (T : RunTopology) (ids : string → uuid) : Prop := {
  ts_inj : ∀ a b, a ∈ map s_Name steps → b ∈ map s_Name steps → ids a = ids b → a = b;
  ts_tasks : dom (Order T) = list_to_set (map ids (map s_Name steps));
  ts_edges : ∀ a b, a ∈ map s_Name steps → b ∈ map s_Name steps → ids a ∈ predecessors_of T (ids b) ↔ step_edge steps a b;
  ts_wf : topo_wf T;
  ts_acyclic : acyclic T;
}.

(** The guards of an update: no running run of the job and no foreign provenance. *)
Definition mutable (runs : list JobRun) (opts : option ApplyOptions) (def : Definition_) (c : Catalog) : Prop :=
  match first (select (λ j, jb_Alias j =s md_Alias (def_Metadata def)) (c_jobs c)) with
  | Some j => guardJobMutationTx runs opts j c = inr ((), c)
  | None => True
  end.

Lemma apply_total runs opts d def c : cat_ids c → branch_refs (def_Steps d) →
  Validate ParseDuration Compile freshness range_order d = inr def → mutable runs opts def c → registries def = inr () →
  ∃ job c', applyTx now MarshalMapString (range_order None) map_order registries runs def opts c = inr (job, c') ∧
    cat_ids c' ∧ job ∈ c_jobs c' ∧ (∃ trigger paused, job = jobFields def opts (jb_ID job) trigger paused) ∧
    (∀ (i : nat) s, def_Steps def !! i = Some s → ∃ t, t ∈ c_tasks c' ∧ imports (jb_ID job) s i t) ∧
    ∀ db runID jr, findRun (publish c' db) runID = Some jr → jr_JobID jr = jb_ID job → jr_Quarantine jr = false →
      ∃ T ids, LoadRunTopology (publish c' db) runID = inr T ∧ topology_of_steps (def_Steps def) T ids.
Proof using Hrange Hmap.
  intros Hc Hb HV Hmut Hreg. destruct (validated_graph _ _ _ _ _ _ Hrange HV) as (_ & _ & Hac & _ & _).
  destruct (validated_adjacency _ _ _ _ _ _ Hb HV) as (names & adj & Hadj).
  pose proof (computeStepAdjacency_ok _ _ _ _ Hadj) as (Hwf & Htrim & _ & _).
  destruct (derive_successors (range_order None) (λ X, Hrange None X) _ _ _ _ Hadj) as (succs & Hder & Hedge & _ & Hkeys & _).
  rewrite <- Htrim in Hder. unfold applyTx, mbind, CatTx_bind, findJobByAliasTx, catRead. unfold mutable in Hmut.
  pose proof (upsertJob_total def opts c Hc) as HU. cbv zeta in HU. set (existing := first _) in *.
  assert (match existing with Some j => guardJobMutationTx runs opts j | None => mret () end c = inr ((), c)) as -> by (by destruct existing).
  destruct HU as (job & c1 & -> & Hc1 & Hj1 & Hin & Hjob & _ & _).
  destruct (reconcileTasks_total now job def c1 Hc1 Hj1 (wf_names _ Hwf)) as (tb & atoms & c2 & -> & Himp).
  { intros s Hs. destruct (validated_specs _ _ _ _ _ _ s HV Hs) as (spec & Hspec & _). eauto. }
  unfold catLift. rewrite Hder.
  destruct (reconcileEdges_total job (def_Steps def) tb c1 c2 succs Himp Hwf Hedge Hkeys) as (keys & Hknd & Hk & ->).
  pose proof (edges_ids job (def_Steps def) tb c1 c2 succs keys Himp Hwf Hk) as Hc3. set (c3 := set_edges _ c2) in *.
  destruct (reconcileCallbacks_total now MarshalMapString (jb_ID job) (def_Callbacks def) c3) as (c4 & -> & S4). rewrite Hreg.
  unfold softDeleteAtomsTx, catWrite. eexists job, _. split; [reflexivity|].
  assert (same_tasks c3 (set_atoms (update_where (λ a, bool_decide (at_ID a ∈ atoms) && negb (at_Deleted a)) delete_atom (c_atoms c4)).1 c4)) as S5
    by (eapply same_trans; [exact S4|by split_and!]).
  split; [by eapply same_ids|]. destruct S5 as (E1 & E2 & E3 & _).
  split; [rewrite E2; simpl; by rewrite (ip_jobs _ _ _ _ _ Himp)|]. split; [destruct Hjob as [? Hjob]; eauto|]. split.
  { intros i s Hs. destruct (ip_rows _ _ _ _ _ Himp i s Hs) as (t & Ht & Im). exists t. split; [|done]. rewrite E1. simpl.
    apply (ip_live _ _ _ _ _ Himp). apply list_elem_of_omap. exists s. split; [by eapply list_elem_of_lookup_2|done]. }
  intros db runID jr Hrun Hjj Hq. exists (stepTopology (def_Steps def) tb succs), (idOf tb). split.
  { eapply published_topology; [exact Himp|done|done|exact Hk|done|exact E1|exact E3|done..]. }
  destruct (topology_dom job (def_Steps def) tb c1 c2 succs Himp) as [Hd W].
  split; [intros a b; by eapply idOf_inj|done|intros a b; by eapply topology_edges|done|by eapply topology_acyclic].
Qed.

Lemma importerRetry_done {A} (body : CatTx A) faults c a c' : body c = inr (a, c') → ∀ remaining attempt,
  (∃ k, (attempt ≤ k ≤ attempt + remaining)%nat ∧ faults k = false) →
  importerRetryLoop remaining faults attempt body c = (Some (inr a), c').
Proof.
  intros E. induction remaining as [|r IH]; intros attempt (k & Hk & Hf); simpl.
  - assert (k = attempt) as -> by lia. by rewrite Hf, E.
  - destruct (faults attempt) eqn:Ef; [|by rewrite E]. apply IH. exists k. split; [|done].
    destruct (decide (k = attempt)) as [->|]; [congruence|lia].
Qed.

(** At most five contention errors in a row. *)
Definition few_faults (faults : nat → bool) : Prop := ∃ k, (k ≤ 5)%nat ∧ faults k = false.

Lemma ApplyWithOptions_total faults runs opts d def c : few_faults faults → cat_ids c → branch_refs (def_Steps d) →
  Validate ParseDuration Compile freshness range_order d = inr def → mutable runs opts def c → registries def = inr () →
  ∃ job c', ApplyWithOptions now MarshalMapString ParseDuration Compile freshness range_order map_order registries faults runs d opts c =
      (Some (inr job), c') ∧
    cat_ids c' ∧ job ∈ c_jobs c' ∧ (∃ trigger paused, job = jobFields def opts (jb_ID job) trigger paused) ∧
    (∀ (i : nat) s, def_Steps def !! i = Some s → ∃ t, t ∈ c_tasks c' ∧ imports (jb_ID job) s i t) ∧
    ∀ db runID jr, findRun (publish c' db) runID = Some jr → jr_JobID jr = jb_ID job → jr_Quarantine jr = false →
      ∃ T ids, LoadRunTopology (publish c' db) runID = inr T ∧ topology_of_steps (def_Steps def) T ids.
Proof using Hrange Hmap.
  intros (k & Hk & Hf) Hc Hb HV Hmut Hreg. destruct (apply_total runs opts d def c Hc Hb HV Hmut Hreg) as (job & c' & E & H).
  exists job, c'. split; [|done]. unfold ApplyWithOptions. rewrite HV. unfold withImporterBusyRetry. eapply importerRetry_done; [exact E|].
  exists k. simpl. split; [lia|done].
Qed.

(** C2: A definition that validates can be imported and its runs complete. Let every
    branch step of the definition name a real successor, the registries accept the
    definition, the catalog be consistent, no running run and no provenance of another
    source stand in the way, and at most five contention errors occur in a row. Then
    applying it succeeds, keeps the catalog consistent, and every run of the job that is
    not quarantined loads the step graph of the definition under an injective naming of
    its steps; and such a run, in whatever order its tasks are dispatched and its workers
    report, takes at most two steps per task and is never stuck before it is complete. *)
Theorem imported_job_completes faults runs opts d def c : few_faults faults → cat_ids c → branch_refs (def_Steps d) →
  Validate ParseDuration Compile freshness range_order d = inr def → mutable runs opts def c → registries def = inr () →
  ∃ job c', ApplyWithOptions now MarshalMapString ParseDuration Compile freshness range_order map_order registries faults runs d opts c =
      (Some (inr job), c') ∧ cat_ids c' ∧ job ∈ c_jobs c' ∧
    ∀ db runID jr, findRun (publish c' db) runID = Some jr → jr_JobID jr = jb_ID job → jr_Quarantine jr = false →
      ∃ T ids, LoadRunTopology (publish c' db) runID = inr T ∧ topology_of_steps (def_Steps def) T ids ∧
        ∀ iter1 iter2 start, key_order iter1 (Order T) → key_order iter2 (Order T) →
          completes_within (2 * size (Order T)) (NewRunState iter1 iter2 T start).
Proof using Hrange Hmap.
  intros Hf Hc Hb HV Hmut Hreg. destruct (ApplyWithOptions_total faults runs opts d def c Hf Hc Hb HV Hmut Hreg)
    as (job & c' & E & Hc' & Hin & _ & _ & HT). exists job, c'. split_and!; [done..|].
  intros db runID jr Hrun Hj Hq. destruct (HT db runID jr Hrun Hj Hq) as (T & ids & HL & Hsteps). exists T, ids.
  split_and!; [done|done|]. intros iter1 iter2 start. apply fresh_completes; apply Hsteps.
Qed.

(** ** Settings *)

Lemma strategy_normal st : st ∈ ConcurrencyStrategies → ToLower (TrimSpace st) = st ∧ st ≠ "".
Proof. unfold ConcurrencyStrategies. intros H. rewrite !elem_of_cons, elem_of_nil in H. by destruct_or! H; subst st. Qed.

(** The concurrency column decodes to the setting of the definition. *)
Lemma concurrency_roundtrip con : (∀ c, con = Some c → con_Strategy c ∈ ConcurrencyStrategies) →
  concurrencyFromJSON (concurrencyJSON con) = Some ((λ c, mkConcurrencyConfig (con_MaxRuns c) (con_Strategy c)) <$> con).
Proof.
  intros H. destruct con as [[n st]|]; [|done]. destruct (strategy_normal st (H _ eq_refl)) as [_ Hne].
  unfold concurrencyFromJSON, concurrencyJSON. simpl. rewrite (proj2 (bool_decide_eq_false (st = "")) Hne : (st =s "") = false).
  destruct (Z.eqb_spec n 0) as [->|]; done.
Qed.

Lemma limits_roundtrip l : l ≠ [] → decodeRateLimits (marshalRateLimits l) = Some l.
Proof.
  destruct l as [|x l]; [done|]. intros _. unfold marshalRateLimits, decodeRateLimits. apply mapM_Some. clear.
  induction (x :: l) as [|[r n w] k IH]; constructor; [done|exact IH].
Qed.

(** The live row of the imported job is the one the run store reads. *)
Lemma published_job c' db job : cat_ids c' → job ∈ c_jobs c' → jb_Deleted job = false →
  first (select (λ j, (j_ID j =? jb_ID job)%N) (jobs (publish c' db))) = Some (liveJob job).
Proof.
  intros Hc Hin Hd. simpl. pose proof (ci_jobs _ Hc) as Hnd. clear Hc. unfold first, select.
  induction (c_jobs c') as [|j l IH]; [by apply elem_of_nil in Hin|]. simpl in *. apply NoDup_cons in Hnd as [Hj Hnd].
  apply elem_of_cons in Hin as [->|Hin].
  - rewrite Hd. simpl. by rewrite N.eqb_refl.
  - destruct (negb (jb_Deleted j)); simpl; [|auto]. destruct (N.eqb_spec (jb_ID j) (jb_ID job)) as [E|]; [|auto].
    exfalso. apply Hj. rewrite E. by apply list_elem_of_In, in_map, list_elem_of_In.
Qed.

(** The join finds the rows of the task and of the job. *)
Lemma rule_joined c' db runID t job row jr : cat_ids c' → t ∈ c_tasks c' → job ∈ c_jobs c' →
  first (select (is_task_run runID (tk_ID t)) (task_runs db)) = Some row → findRun db runID = Some jr → jr_JobID jr = jb_ID job →
  RuleForTask ParseDuration c' db runID (tk_ID t) =
  if TrimSpace (tk_RateLimitResource t) =s "" then inr None
  else RuleFromDeclarations ParseDuration (jb_Alias job) (jb_RateLimits job) (tk_RateLimitResource t) (tk_RateLimitUnits t).
Proof.
  intros Hc Ht Hj Hrow Hrun Hjr. unfold RuleForTask. rewrite Hrow, (first_unique tk_ID _ t (ci_tasks _ Hc) Ht).
  change (first (select (is_run runID) (job_runs db))) with (findRun db runID). rewrite Hrun, Hjr.
  by rewrite (first_unique jb_ID _ job (ci_jobs _ Hc) Hj).
Qed.

(** Admission reads the concurrency policy and the priority of the definition. *)
Lemma published_admission d def opts job trigger paused c' : Validate ParseDuration Compile freshness range_order d = inr def →
  cat_ids c' → job ∈ c_jobs c' → job = jobFields def opts (jb_ID job) trigger paused →
  ∀ db, concurrencyConfigTx (jb_ID job) (publish c' db) =
       inr (con ← md_Concurrency (def_Metadata def);
            if con_MaxRuns con <=? 0 then None else Some (mkConcurrencyConfig (con_MaxRuns con) (con_Strategy con)),
            publish c' db) ∧
     ∃ p, PriorityValue (md_Priority (def_Metadata def)) = inr p ∧
       startPriorityTx (jb_ID job) "" (publish c' db) = inr (p, publish c' db).
Proof.
  intros HV Hc' Hin Hjob. destruct (validated_scheduling _ _ _ _ _ _ HV) as [Hprio Hcon].
  intros db. assert (jb_Deleted job = false) as Hd by (by rewrite Hjob). pose proof (published_job c' db job Hc' Hin Hd) as HJ.
  unfold concurrencyConfigTx, startPriorityTx, Query, mbind, Tx_bind. rewrite HJ. split.
  - assert (j_Concurrency (liveJob job) = concurrencyJSON (md_Concurrency (def_Metadata def))) as -> by (rewrite Hjob; done).
    rewrite concurrency_roundtrip by (intros k Hk; by apply Hcon). destruct (md_Concurrency (def_Metadata def)) as [con|]; [|done].
    simpl. destruct (con_MaxRuns con <=? 0); [done|]. destruct (Hcon con eq_refl) as [_ Hst].
    destruct (strategy_normal _ Hst) as [-> Hne]. by rewrite (proj2 (bool_decide_eq_false (con_Strategy con = "")) Hne : (_ =s "") = false).
  - change (negb (TrimSpace "" =s "")) with false. cbv iota beta. rewrite HJ.
    assert (j_Priority (liveJob job) = md_Priority (def_Metadata def)) as -> by (rewrite Hjob; done).
    rewrite !elem_of_cons, elem_of_nil in Hprio. destruct_or! Hprio; rewrite Hprio; eexists; by split.
Qed.

(** C26: The settings of an imported definition are the ones the scheduler reads back from
    the catalog. For a definition that validates, whose branch steps name a real
    successor, with registries that accept it, no running run or foreign provenance in
    the way, and a database that recovers within the retries: admission uses the
    concurrency limit and strategy of the definition (no limit when it is absent or zero)
    and its priority, and every task row of a run registered for a rate limited step
    resolves to the rule made of the step's resource and units and of the limit and
    window of the one declaration of that resource in the definition. *)
Theorem imported_settings faults runs opts d def c : few_faults faults → cat_ids c → branch_refs (def_Steps d) →
  Validate ParseDuration Compile freshness range_order d = inr def → mutable runs opts def c → registries def = inr () →
  ∃ job c', ApplyWithOptions now MarshalMapString ParseDuration Compile freshness range_order map_order registries faults runs d opts c =
      (Some (inr job), c') ∧
    (∀ db, concurrencyConfigTx (jb_ID job) (publish c' db) =
       inr (con ← md_Concurrency (def_Metadata def);
            if con_MaxRuns con <=? 0 then None else Some (mkConcurrencyConfig (con_MaxRuns con) (con_Strategy con)),
            publish c' db) ∧
     ∃ p, PriorityValue (md_Priority (def_Metadata def)) = inr p ∧
       startPriorityTx (jb_ID job) "" (publish c' db) = inr (p, publish c' db)) ∧
    (∀ s rl, s ∈ def_Steps def → s_RateLimit s = Some rl → ∃ t decl window,
       t ∈ c_tasks c' ∧ tk_JobID t = jb_ID job ∧ tk_Name t = s_Name s ∧
       decl ∈ md_RateLimits (def_Metadata def) ∧ rld_Resource decl = srl_Resource rl ∧ 0 < rld_Limit decl ∧
       (∀ other, other ∈ md_RateLimits (def_Metadata def) → rld_Resource other = srl_Resource rl → other = decl) ∧
       ParseDuration (rld_Window decl) = Some window ∧
       ∀ db runID row jr, first (select (is_task_run runID (tk_ID t)) (task_runs db)) = Some row →
         findRun db runID = Some jr → jr_JobID jr = jb_ID job →
         RuleForTask ParseDuration c' db runID (tk_ID t) =
         inr (Some (mkRule (srl_Resource rl) (srl_Units rl) (rld_Limit decl) window (jb_Alias job)))).
Proof using Hrange Hmap.
  intros Hf Hc Hb HV Hmut Hreg. destruct (ApplyWithOptions_total faults runs opts d def c Hf Hc Hb HV Hmut Hreg)
    as (job & c' & E & Hc' & Hin & (trigger & paused & Hjob) & Htasks & _). exists job, c'. split; [done|].
  split; [by eapply published_admission|].
  intros s rl [i Hi]%list_elem_of_lookup Hrl. destruct (Htasks i s Hi) as (t & Ht & Im).
    destruct (validated_rules _ _ _ _ _ _ s rl (jb_Alias job) HV (list_elem_of_lookup_2 _ _ _ Hi) Hrl) as (decl & window & Hd & Hnd & Hdr & Hl & Hw & Hrule & Htr & Hne & Hu).
    unfold declared_rule in Hrule. rewrite Hdr in Hrule.
    exists t, decl, window. split_and!; [done|apply Im|apply Im|done|done|done| |done|].
    { intros other Ho Er. eapply (NoDup_map_eq rld_Resource); [exact Hnd|done|done|congruence]. }
    intros db runID row jr Hrow Hrun Hjr.
    rewrite (rule_joined c' db runID t job row jr) by done.
    rewrite (im_resource _ _ _ _ Im), (im_units _ _ _ _ Im), Hrl, !Htr. unfold RuleFromDeclarations. rewrite Htr. cbv zeta.
    rewrite (proj2 (bool_decide_eq_false (srl_Resource rl = "")) Hne : (_ =s "") = false), (proj2 (Z.leb_gt _ _) Hu). simpl.
    assert (jb_RateLimits job = marshalRateLimits (md_RateLimits (def_Metadata def))) as -> by (rewrite Hjob; done).
    assert (md_RateLimits (def_Metadata def) ≠ []) as Hnil.
    { intros En. rewrite En in Hrule. unfold RuleFromRateLimits in Hrule. simpl in Hrule. by destruct (_ || _). }
    rewrite limits_roundtrip by done. destruct (md_RateLimits (def_Metadata def)) eqn:El; [done|]. exact Hrule.
Qed.
End import.

(** * The demonstration definition, imported into an empty catalog *)

Definition empty_catalog : Catalog := mkCatalog [] [] [] [] [] [] 1.

Definition demo_apply : option (apply_error + JobRow) * Catalog :=
  ApplyWithOptions 0 (λ _, "{}") demo_parse demo_compile false canonical_order (λ l, l) (λ _, inr ())
    (λ n, (n <? 2)%nat) [] demo_definition None empty_catalog.

Definition demo_run : JobRun := mkJobRun 100 2 None 5 StatusRunning 0 BlobEmpty "" false 0 None.

Definition demo_run_db : DB := mkDB [] [] [] [demo_run] [] [] [] [] [].

Definition demo_task_run (task : uuid) : TaskRun :=
  mkTaskRun 200 100 task TaskStatusPending "" None 0 None 1 2 "" None None false None None None "" false "" "" 0 0 0
    None None 0 false NoDescriptor ∅.

Definition demo_task_db (task : uuid) : DB := mkDB [] [] [] [demo_run] [demo_task_run task] [] [] [] [].

Lemma empty_cat_ids : cat_ids empty_catalog.
Proof. by split; simpl; try apply NoDup_nil; try (intros x Hx; by apply elem_of_nil in Hx). Qed.

Lemma dom_key_order {V} (m : gmap uuid V) : key_order (elements (dom m)) m.
Proof. split; [apply NoDup_elements|]. intros t. apply elem_of_elements. Qed.

Lemma demo_few_faults : few_faults (λ n, (n <? 2)%nat).
Proof. exists 2%nat. split; [lia|done]. Qed.

(** The first two attempts hit a busy database; the third imports the job, whose run
    loads a two-step topology and completes. *)
Lemma imported_job_completes_witness : ∃ job c' T rs, demo_apply = (Some (inr job), c') ∧ length (c_tasks c') = 2%nat ∧
  LoadRunTopology (publish c' demo_run_db) 100 = inr T ∧
  rtc serve_step (NewRunState (elements (dom (Order T))) (elements (dom (Order T))) T 0) rs ∧ IsComplete rs = true.
Proof.
  destruct (imported_job_completes demo_parse demo_compile false canonical_order (λ l, l) (λ _, "{}") (λ _, inr ()) 0
              canonical_range (λ l, reflexivity l) (λ n, (n <? 2)%nat) [] None demo_definition demo_validated empty_catalog
              demo_few_faults empty_cat_ids demo_branch_refs demo_validates I eq_refl)
    as (job & c' & E & _ & _ & Hrun).
  assert (demo_apply = (Some (inr job), c')) as E' by exact E. clear E.
  assert (jb_ID job = 2%N ∧ length (c_tasks c') = 2%nat) as [Hid Hlen].
  { assert (match demo_apply with (Some (inr j), k) => jb_ID j = 2%N ∧ length (c_tasks k) = 2%nat | _ => False end) as V
      by (vm_compute; split; reflexivity). rewrite E' in V. exact V. }
  destruct (Hrun demo_run_db 100%N demo_run eq_refl (eq_sym Hid) eq_refl)
    as (T & ids & HT & _ & Hdrive).
  destruct (completes_reaches _ _ (Hdrive _ _ 0 (dom_key_order (Order T)) (dom_key_order (Order T)))) as (rs & Hrs & Hc).
  exists job, c', T, rs. exact (conj E' (conj Hlen (conj HT (conj Hrs Hc)))).
Defined.

(** The stored settings: at most one run of the job at a time, queued runs waiting, and
    the load step limited to ten calls a minute, one per task. *)
Lemma imported_settings_witness : ∃ job c' t, demo_apply = (Some (inr job), c') ∧
  concurrencyConfigTx (jb_ID job) (publish c' demo_run_db) =
    inr (Some (mkConcurrencyConfig 1 ConcurrencyStrategyQueue), publish c' demo_run_db) ∧
  t ∈ c_tasks c' ∧
  RuleForTask demo_parse c' (demo_task_db (tk_ID t)) 100 (tk_ID t) = inr (Some (mkRule "api" 1 10 minute (jb_Alias job))).
Proof.
  destruct (imported_settings demo_parse demo_compile false canonical_order (λ l, l) (λ _, "{}") (λ _, inr ()) 0
              canonical_range (λ l, reflexivity l) (λ n, (n <? 2)%nat) [] None demo_definition demo_validated empty_catalog
              demo_few_faults empty_cat_ids demo_branch_refs demo_validates I eq_refl)
    as (job & c' & E & Hset & Hlim).
  assert (demo_apply = (Some (inr job), c')) as E' by exact E. clear E.
  assert (jb_ID job = 2%N) as Hid.
  { assert (match demo_apply with (Some (inr j), k) => jb_ID j = 2%N | _ => False end) as V by (vm_compute; reflexivity).
    rewrite E' in V. exact V. }
  destruct (nth_error (def_Steps demo_validated) 1) as [s|] eqn:Es; [|vm_compute in Es; discriminate Es].
  assert (s_RateLimit s = Some (mkStepRateLimit "api" 1)) as Hs by (vm_compute in Es; injection Es as <-; reflexivity).
  destruct (Hlim s (mkStepRateLimit "api" 1) (proj2 (list_elem_of_In _ _) (nth_error_In _ _ Es)) Hs)
    as (t & decl & window & Ht & _ & _ & Hd & _ & _ & _ & Hw & Hr).
  exists job, c', t. split; [exact E'|]. split; [destruct (Hset demo_run_db) as [Hcon _]; rewrite Hcon; reflexivity|].
  split; [exact Ht|].
  change (md_RateLimits (def_Metadata demo_validated)) with [mkRateLimit "api" 10 "1m"] in Hd.
  apply list_elem_of_singleton in Hd as ->. change (Some minute = Some window) in Hw. injection Hw as <-.
  apply (Hr (demo_task_db (tk_ID t)) 100%N (demo_task_run (tk_ID t)) demo_run); [|reflexivity|exact (eq_sym Hid)].
  simpl. unfold is_task_run. simpl. rewrite N.eqb_refl. reflexivity.
Defined.
