(* ===== verification/Claimer.v ===== *)
(** The worker's task claimer (internal/worker/claimer.go): pulling the next ready task
    of any run that no owner drives, gated by the rate limiter, and returning tasks
    whose claim expired.
    [now] is the clock of the transaction and [limitNow] that of the limiter; [faults]
    and [limitFaults] are the database errors of the successive attempts. Metrics and the
    publication of the recorded events are left out. *)

From S2P Require Import Prelude TriggerRule Tables Store RunState TaskOps RateLimit Importer RunOps.

(** * Node labels *)

Definition addNodeLabel (values : gmap string string) (entry : string) : gmap string string :=
  let entry := TrimSpace entry in
  if entry =s "" then values
  else
    match SplitN2 "=" entry with
    | (_, None) => values
    | (key, Some value) =>
        let key := TrimSpace key in
        let value := TrimSpace value in
        if (key =s "") || (value =s "") then values else <[key := value]> values
    end.

Definition ParseNodeLabels (raw : string) : gmap string string := fold_left addNodeLabel (Split "," raw) ∅.

(** SQL's TRIM and BTRIM remove spaces only. *)
Fixpoint sql_trim_left (s : string) : string :=
  match s with
  | String " " s' => sql_trim_left s'
  | _ => s
  end.

Fixpoint sql_trim_right (s : string) : string :=
  match s with
  | EmptyString => EmptyString
  | String c s' =>
      match sql_trim_right s' with
      | EmptyString => if bool_decide (c = " "%char) then EmptyString else String c EmptyString
      | t => String c t
      end
  end.

Definition sql_trim (s : string) : string := sql_trim_right (sql_trim_left s).

(** * The claimer *)

Definition defaultLeaseTTL : Z := 5 * 60 * 1000000000.

Record Claimer := mkClaimer {
  cl_nodeID : string;
  cl_nodeLabels : gmap string string;
  cl_leaseTTL : Z;
  cl_rateLimiter : bool;
}.

Definition NewClaimer (nodeID : string) (leaseTTL : Z) (nodeLabels : gmap string string) : Claimer :=
  mkClaimer (if TrimSpace nodeID =s "" then "unknown-node" else nodeID) nodeLabels
    (if leaseTTL <=? 0 then defaultLeaseTTL else leaseTTL) false.

Definition WithRateLimiter (c : Claimer) : Claimer :=
  mkClaimer (cl_nodeID c) (cl_nodeLabels c) (cl_leaseTTL c) true.

(** Milliseconds. *)
Definition defaultBusyRetryBackoffSchedule : list Z := [10; 20; 40; 80; 160].

Definition withBusyRetry {A} (faults : nat → option store_error) (body : Tx A) (db : DB) : (store_error + A) * DB :=
  busyRetryLoop (length defaultBusyRetryBackoffSchedule) faults 0 body db.

(** No entry of the selector with a value is unmatched by the labels. *)
Definition nodeSelectorPredicateSQL (nodeLabels selector : gmap string string) : bool :=
  if bool_decide (nodeLabels = ∅)
  then negb (existsb (λ ns, negb (sql_trim ns.2 =s "")) (map_to_list selector))
  else negb (existsb (λ ns,
         negb (sql_trim ns.2 =s "") &&
         match nodeLabels !! ns.1 with
         | None => true
         | Some label => negb (sql_trim ns.2 =s label)
         end) (map_to_list selector)).

(** The run has no lease that is still alive. *)
Definition liveLeaseGuardSQL (now : Z) (runID : uuid) (db : DB) : bool :=
  negb (existsb (λ l, (rl_RunID l =? runID)%N && (now <? rl_LeaseExpiresAt l)) (run_leases db)).

Definition runningRun (runID : uuid) (db : DB) : bool :=
  existsb (λ jr, (jr_ID jr =? runID)%N && (jr_Status jr =s StatusRunning)) (job_runs db).

(** The conditions on the row that both levels of the statement state. *)
Definition claimable_row (now : Z) (r : TaskRun) : bool :=
  (tr_Status r =s TaskStatusPending) && (tr_OutstandingPredecessors r =? 0) &&
  ((tr_ClaimedBy r =s "") || match tr_ClaimExpiresAt r with None => true | Some t => t <? now end) &&
  retry_due now r.

Definition candidate (c : Claimer) (now : Z) (db : DB) (r : TaskRun) : bool :=
  runningRun (tr_JobRunID r) db && claimable_row now r &&
  nodeSelectorPredicateSQL (cl_nodeLabels c) (tr_NodeSelector r) && liveLeaseGuardSQL now (tr_JobRunID r) db.

(** [ORDER BY priority DESC, created_at ASC] *)
Definition claim_before (a b : TaskRun) : bool :=
  (tr_Priority b <? tr_Priority a) || ((tr_Priority a =? tr_Priority b) && (tr_CreatedAt a <? tr_CreatedAt b)).

(** The guarded update of the first candidate, with the row it returns and its job. *)
Definition claimNextSingleStatementTx (c : Claimer) (now leaseExpiry : Z) : Tx (option (TaskRun * uuid)) :=
  id ← Query (λ db, tr_ID <$> first (sort_stable claim_before (select (candidate c now db) (task_runs db))));
  match id with
  | None => mret None
  | Some id =>
      db ← Query (λ db, db);
      rows ← UpdateTaskRuns (λ r, (tr_ID r =? id)%N && claimable_row now r && runningRun (tr_JobRunID r) db)
               [with_ClaimedBy (cl_nodeID c); with_ClaimExpiresAt (Some leaseExpiry);
                λ r, with_ClaimAttempt (tr_ClaimAttempt r + 1) r; with_Status TaskStatusRunning;
                with_RateLimitRetryAfter None];
      if (rows =? 0)%nat then mret None
      else
        Query (λ db, r ← first (select (λ r, (tr_ID r =? id)%N) (task_runs db));
                     Some (r, match first (select (is_run (tr_JobRunID r)) (job_runs db)) with
                              | Some jr => jr_JobID jr | None => uuid_Nil end))
  end.

Definition TypeTaskClaimed : string := "task_claimed".
Definition TypeTaskLeaseExpired : string := "task_lease_expired".

Definition recordTaskClaimedEventTx (claimed : TaskRun) (jobID : uuid) : Tx () :=
  evt ← stampEventQuarantineTx (mkExecutionEvent TypeTaskClaimed jobID (tr_JobRunID claimed) (tr_TaskID claimed) false);
  AppendTx evt.

Definition claimNextTx (c : Claimer) (now leaseExpiry : Z) : Tx (option TaskRun) :=
  claimed ← claimNextSingleStatementTx c now leaseExpiry;
  match claimed with
  | None => mret None
  | Some (r, jobID) => _ ← recordTaskClaimedEventTx r jobID; mret (Some r)
  end.

Inductive claim_error : Type :=
| ErrStore (e : store_error)
| ErrRate (e : limit_error).

(** The verdict of the limiter, the time to retry after when it refuses, and the
    consumed tokens. *)
Definition acquireRateLimit (rules : uuid → uuid → limit_error + option Rule) (c : Claimer) (limitNow : Z) (task : TaskRun)
    (tokens : list RateLimitToken) : (limit_error + option Z) * list RateLimitToken :=
  if negb (cl_rateLimiter c) then (inr None, tokens)
  else
    match rules (tr_JobRunID task) (tr_TaskID task) with
    | inl e => (inl e, tokens)
    | inr None => (inr None, tokens)
    | inr (Some rule) =>
        match Acquire limitNow (ru_Resource rule) (ru_Units rule) (ru_Limit rule) (ru_Window rule) tokens with
        | (inl e, tokens) => (inl e, tokens)
        | (inr true, tokens) => (inr None, tokens)
        | (inr false, tokens) => (inr (Some (limitNow + RetryAfter limitNow (ru_Window rule))), tokens)
        end
    end.

Definition ClaimNext (rules : DB → uuid → uuid → limit_error + option Rule) (c : Claimer)
    (now limitNow : Z) (faults limitFaults : nat → option store_error) (tokens : list RateLimitToken) (db : DB)
    : (claim_error + option TaskRun) * (list RateLimitToken * DB) :=
  match withBusyRetry faults (claimNextTx c now (now + cl_leaseTTL c)) db with
  | (inl e, db) => (inl (ErrStore e), (tokens, db))
  | (inr None, db) => (inr None, (tokens, db))
  | (inr (Some r), db) =>
      match acquireRateLimit (rules db) c limitNow r tokens with
      | (inl e, tokens) => (inl (ErrRate e), (tokens, db))
      | (inr None, tokens) => (inr (Some r), (tokens, db))
      | (inr (Some retryAfter), tokens) =>
          match withStoreBusyRetry limitFaults
                  (RateLimitTask limitNow (tr_JobRunID r) (tr_TaskID r) (Some retryAfter)) db with
          | (inl e, db) => (inl (ErrStore e), (tokens, db))
          | (inr _, db) => (inr None, (tokens, db))
          end
      end
  end.

(** * Expired claims *)

Definition expired_row (now : Z) (db : DB) (r : TaskRun) : bool :=
  runningRun (tr_JobRunID r) db && (tr_Status r =s TaskStatusRunning) &&
  match tr_ClaimExpiresAt r with None => false | Some t => t <? now end && liveLeaseGuardSQL now (tr_JobRunID r) db.

Definition reclaim_columns : list (TaskRun → TaskRun) :=
  [with_Status TaskStatusPending; with_ClaimedBy ""; with_ClaimExpiresAt None; with_RuntimeID ""; with_StartedAt None].

(** The two events of a returned row, with the marker of the row or of its run. *)
Definition reclaimEvents (r : TaskRun) (jobRun : JobRun) : list ExecutionEvent :=
  let quarantined := tr_Quarantine r || jr_Quarantine jobRun in
  [mkExecutionEvent TypeTaskLeaseExpired (jr_JobID jobRun) (tr_JobRunID r) (tr_TaskID r) quarantined;
   mkExecutionEvent TypeTaskReady (jr_JobID jobRun) (tr_JobRunID r) (tr_TaskID r) quarantined].

Fixpoint reclaimEventsTx (expired : list TaskRun) : Tx (list ExecutionEvent) :=
  match expired with
  | [] => mret []
  | r :: l =>
      jobRun ← firstRun (tr_JobRunID r);
      rest ← reclaimEventsTx l;
      mret (reclaimEvents r jobRun ++ rest)
  end.

Definition reclaimTx (now : Z) : Tx () :=
  db ← Query (λ db, db);
  let expired := select (expired_row now db) (task_runs db) in
  _ ← UpdateTaskRuns (expired_row now db) reclaim_columns;
  evts ← reclaimEventsTx expired;
  forTx evts AppendTx.

Definition ReclaimExpired (now : Z) (faults : nat → option store_error) (db : DB) : (store_error + ()) * DB :=
  withBusyRetry faults (reclaimTx now) db.
