(* ===== verification/ClaimTheorems.v ===== *)
(** Theorems on the worker claimer: a claim takes the best ready task the node may run,
    claims in flight and the runs of living owners are left alone, and the tasks of a
    dead worker come back. *)

From S2P Require Import Prelude TriggerRule Tables Store TxLogic RunState TaskOps RunOps RateLimit Importer Claimer.

(** * One claim *)

(** The row after a claim. *)
Definition claimed_row (c : Claimer) (now : Z) (r : TaskRun) : TaskRun :=
  Updates [with_ClaimedBy (cl_nodeID c); with_ClaimExpiresAt (Some (now + cl_leaseTTL c));
           λ r, with_ClaimAttempt (tr_ClaimAttempt r + 1) r; with_Status TaskStatusRunning;
           with_RateLimitRetryAfter None] r.

Definition ids_unique (db : DB) : Prop := NoDup (map tr_ID (task_runs db)).

(** The candidates of a node, best first. *)
Definition claim_queue (c : Claimer) (now : Z) (db : DB) : list TaskRun :=
  sort_stable claim_before (select (candidate c now db) (task_runs db)).

Definition replace_row (r r' : TaskRun) (rows : list TaskRun) : list TaskRun :=
  map (λ x, if (tr_ID x =? tr_ID r)%N then r' else x) rows.

Lemma claim_asym x y : claim_before x y = true → claim_before y x = false.
Proof. unfold claim_before. lia. Qed.

Lemma claim_negtrans x y z : claim_before y x = false → claim_before z y = false → claim_before z x = false.
Proof. unfold claim_before. lia. Qed.

Lemma queue_elem c now db r : r ∈ claim_queue c now db ↔ r ∈ task_runs db ∧ candidate c now db r = true.
Proof. unfold claim_queue. rewrite (sort_stable_perm claim_before). apply select_elem. Qed.

Lemma candidate_parts c now db r : candidate c now db r = true ↔
  runningRun (tr_JobRunID r) db = true ∧ claimable_row now r = true ∧
  nodeSelectorPredicateSQL (cl_nodeLabels c) (tr_NodeSelector r) = true ∧ liveLeaseGuardSQL now (tr_JobRunID r) db = true.
Proof. unfold candidate. rewrite !andb_true_iff. tauto. Qed.

(** The owner of the run holds a lease that has not expired. *)
Definition live_owner (now : Z) (run : uuid) (db : DB) : Prop :=
  ∃ l, l ∈ run_leases db ∧ rl_RunID l = run ∧ now < rl_LeaseExpiresAt l.

(** The tasks a node may take: waiting, ready, not held, not put off, of a running run
    that no owner drives, and with a selector the labels of the node satisfy. *)
Record eligible (c : Claimer) (now : Z) (db : DB) (r : TaskRun) : Prop := {
  el_run : ∃ jr, jr ∈ job_runs db ∧ jr_ID jr = tr_JobRunID r ∧ jr_Status jr = StatusRunning;
  el_pending : tr_Status r = TaskStatusPending ∧ tr_OutstandingPredecessors r = 0;
  el_free : tr_ClaimedBy r = "" ∨ ∀ t, tr_ClaimExpiresAt r = Some t → t < now;
  el_due : ∀ t, tr_RateLimitRetryAfter r = Some t → t ≤ now;
  el_labels : ∀ k v, tr_NodeSelector r !! k = Some v → sql_trim v ≠ "" → cl_nodeLabels c !! k = Some (sql_trim v);
  el_owner : ¬ live_owner now (tr_JobRunID r) db;
}.

(** No task precedes [r] by priority and then by age. *)
Definition no_better (r x : TaskRun) : Prop :=
  tr_Priority x ≤ tr_Priority r ∧ (tr_Priority x = tr_Priority r → tr_CreatedAt r ≤ tr_CreatedAt x).

Lemma not_before r x : claim_before x r = false ↔ no_better r x.
Proof. unfold claim_before, no_better. rewrite orb_false_iff, andb_false_iff, !Z.ltb_ge, Z.eqb_neq. lia. Qed.

Lemma guard_spec now run db : liveLeaseGuardSQL now run db = false ↔ live_owner now run db.
Proof.
  unfold liveLeaseGuardSQL, live_owner. rewrite negb_false_iff, existsb_exists. setoid_rewrite andb_true_iff.
  setoid_rewrite N.eqb_eq. setoid_rewrite Z.ltb_lt. setoid_rewrite list_elem_of_In. naive_solver.
Qed.

Lemma running_spec run db : runningRun run db = true ↔ ∃ jr, jr ∈ job_runs db ∧ jr_ID jr = run ∧ jr_Status jr = StatusRunning.
Proof.
  unfold runningRun. rewrite existsb_exists. setoid_rewrite andb_true_iff. setoid_rewrite N.eqb_eq. setoid_rewrite str_eqb_eq.
  setoid_rewrite list_elem_of_In. naive_solver.
Qed.

(** The two forms of the SQL predicate, with and without labels, mean the same. *)
Lemma selector_spec labels selector : nodeSelectorPredicateSQL labels selector = true ↔
  ∀ k v, selector !! k = Some v → sql_trim v ≠ "" → labels !! k = Some (sql_trim v).
Proof.
  unfold nodeSelectorPredicateSQL. destruct (bool_decide (labels = ∅)) eqn:El; rewrite negb_true_iff, <- not_true_iff_false, existsb_exists.
  - apply bool_decide_eq_true in El as ->. setoid_rewrite negb_true_iff. setoid_rewrite bool_decide_eq_false. split.
    + intros H k v Hk Hv. destruct H. exists (k, v). split; [|done]. by apply list_elem_of_In, elem_of_map_to_list.
    + intros H ([k v] & Hin & Hv). apply list_elem_of_In, elem_of_map_to_list in Hin. apply (H k v) in Hin; [|done].
      by rewrite lookup_empty in Hin.
  - setoid_rewrite andb_true_iff. setoid_rewrite negb_true_iff. setoid_rewrite bool_decide_eq_false. split.
    + intros H k v Hk Hv. destruct (labels !! k) as [label|] eqn:E;
        [destruct (decide (sql_trim v = label)) as [->|Hne]; [done|]|]; destruct H; exists (k, v);
        (split; [by apply list_elem_of_In, elem_of_map_to_list|split; [done|]]); simpl; rewrite E; [|done].
      by apply negb_true_iff, bool_decide_eq_false.
    + intros H ([k v] & Hin & Hv & Hl). apply list_elem_of_In, elem_of_map_to_list in Hin. simpl in *.
      rewrite (H k v Hin Hv) in Hl. by apply negb_true_iff, bool_decide_eq_false in Hl.
Qed.

Lemma candidate_spec c now db r : candidate c now db r = true ↔ eligible c now db r.
Proof.
  rewrite candidate_parts, running_spec, selector_spec. unfold claimable_row, retry_due.
  rewrite <- (not_false_iff_true (liveLeaseGuardSQL _ _ _)), guard_spec, !andb_true_iff, orb_true_iff, !str_eqb_eq, Z.eqb_eq.
  destruct (tr_ClaimExpiresAt r) as [t|] eqn:Et, (tr_RateLimitRetryAfter r) as [t'|] eqn:Ed; rewrite ?Z.ltb_lt, ?Z.leb_le;
    (split; [intros (? & (((? & ?) & ?) & ?) & ? & ?); split; rewrite ?Et, ?Ed; naive_solver
            |intros [? ? Hf Hd ? ?]; rewrite ?Et, ?Ed in *; split_and!; naive_solver]).
Qed.

Lemma by_id db r x : ids_unique db → r ∈ task_runs db → x ∈ task_runs db → tr_ID x = tr_ID r → x = r.
Proof. intros H Hr Hx E. by eapply (NoDup_map_eq _ _ _ _ H). Qed.

Lemma replace_ids r r' rows : tr_ID r' = tr_ID r → map tr_ID (replace_row r r' rows) = map tr_ID rows.
Proof.
  intros E. unfold replace_row. rewrite map_map. apply map_ext. intros x. destruct (N.eqb_spec (tr_ID x) (tr_ID r)); congruence.
Qed.

Lemma replaced_elem r r' rows : r ∈ rows → r' ∈ replace_row r r' rows.
Proof.
  intros H. apply list_elem_of_In, in_map_iff. exists r. rewrite N.eqb_refl. by rewrite <- list_elem_of_In.
Qed.

Lemma replace_other r r' rows x : x ∈ rows → tr_ID x ≠ tr_ID r → x ∈ replace_row r r' rows.
Proof.
  intros H Hne. apply list_elem_of_In, in_map_iff. exists x. rewrite (proj2 (N.eqb_neq _ _) Hne). by rewrite <- list_elem_of_In.
Qed.

(** The guarded update touches the chosen row only. *)
Lemma claim_update c now db r : ids_unique db → r ∈ task_runs db → claimable_row now r = true → runningRun (tr_JobRunID r) db = true →
  ∃ n, n ≠ 0%nat ∧
    UpdateTaskRuns (λ x, (tr_ID x =? tr_ID r)%N && claimable_row now x && runningRun (tr_JobRunID x) db)
      [with_ClaimedBy (cl_nodeID c); with_ClaimExpiresAt (Some (now + cl_leaseTTL c));
       λ r, with_ClaimAttempt (tr_ClaimAttempt r + 1) r; with_Status TaskStatusRunning;
       with_RateLimitRetryAfter None] db =
    inr (n, set_task_runs (replace_row r (claimed_row c now r) (task_runs db)) db).
Proof.
  intros Hu Hin Hrow Hrun. eexists. split; [|unfold UpdateTaskRuns, Exec, update_where; do 3 f_equal].
  - assert (0 < countb (λ x, (tr_ID x =? tr_ID r)%N && claimable_row now x && runningRun (tr_JobRunID x) db) (task_runs db))%nat
      as H; [|intros E; rewrite E in H; lia].
    apply countb_pos. exists r. by rewrite N.eqb_refl, Hrow, Hrun.
  - apply map_ext_in. intros x Hx%list_elem_of_In. destruct (N.eqb_spec (tr_ID x) (tr_ID r)) as [E|]; [|done].
    rewrite (by_id db r x Hu Hin Hx E), Hrow, Hrun. done.
Qed.

(** The statement replaces the first row of the queue and returns it. *)
Lemma statement_effect c now db : ids_unique db →
  claimNextSingleStatementTx c now (now + cl_leaseTTL c) db =
  match claim_queue c now db with
  | [] => inr (None, db)
  | r :: _ =>
      inr (Some (claimed_row c now r, match first (select (is_run (tr_JobRunID r)) (job_runs db)) with
                                      | Some jr => jr_JobID jr | None => uuid_Nil end),
           set_task_runs (replace_row r (claimed_row c now r) (task_runs db)) db)
  end.
Proof.
  intros Hu. unfold claimNextSingleStatementTx, mbind, Tx_bind, Query. fold (claim_queue c now db).
  destruct (claim_queue c now db) as [|r l] eqn:EQ; [done|]. cbn [first head fmap option_fmap option_map].
  assert (r ∈ task_runs db ∧ candidate c now db r = true) as [Hin Hc].
  { apply queue_elem. rewrite EQ. by left. }
  apply candidate_parts in Hc as (Hrun & Hrow & _ & _).
  destruct (claim_update c now db r Hu Hin Hrow Hrun) as (n & Hn & ->). rewrite (proj2 (Nat.eqb_neq _ _) Hn).
  cbn [task_runs job_runs set_task_runs].
  pose proof (first_unique tr_ID (replace_row r (claimed_row c now r) (task_runs db)) (claimed_row c now r)) as F.
  rewrite replace_ids in F by done. change (tr_ID (claimed_row c now r)) with (tr_ID r) in F. rewrite (F Hu (replaced_elem _ _ _ Hin)). done.
Qed.

Lemma First_found {R} (p : R → bool) (tbl : DB → list R) db x : x ∈ tbl db → p x = true →
  ∃ y, First (λ db, select p (tbl db)) db = inr (y, db) ∧ y ∈ tbl db ∧ p y = true.
Proof.
  intros Hx Hp. unfold First, first. destruct (select p (tbl db)) as [|y l] eqn:E.
  - assert (x ∈ select p (tbl db)) as H by by apply select_elem. rewrite E in H. by apply elem_of_nil in H.
  - exists y. split; [done|]. apply select_elem. rewrite E. by left.
Qed.

Definition run_listed (runID : uuid) (db : DB) : Prop := ∃ jr, jr ∈ job_runs db ∧ is_run runID jr = true.

Lemma running_listed runID db : runningRun runID db = true → run_listed runID db.
Proof.
  unfold runningRun. intros (jr & Hin & H)%existsb_exists. apply andb_true_iff in H as [H _].
  exists jr. split; [by apply list_elem_of_In|done].
Qed.

Lemma claimed_event r jobID db : r ∈ task_runs db → run_listed (tr_JobRunID r) db → ∃ evt,
  recordTaskClaimedEventTx r jobID db = inr ((), set_execution_events (execution_events db ++ [evt]) db) ∧
  ev_Type evt = TypeTaskClaimed ∧ ev_RunID evt = tr_JobRunID r ∧ ev_TaskID evt = tr_TaskID r.
Proof.
  intros Hin (jr & Hjr & Hk). unfold recordTaskClaimedEventTx, stampEventQuarantineTx. cbn [ev_RunID ev_TaskID ev_Type ev_JobID].
  destruct (tr_JobRunID r =? uuid_Nil)%N; [by eexists|].
  unfold taskEventQuarantineTx, runEventQuarantineTx, firstTaskRun, firstRun. destruct (negb (tr_TaskID r =? uuid_Nil)%N).
  - destruct (First_found (is_task_run (tr_JobRunID r) (tr_TaskID r)) task_runs db r Hin) as (y & E & _).
    { unfold is_task_run. by rewrite !N.eqb_refl. }
    unfold mbind, Tx_bind. rewrite E. by eexists.
  - destruct (First_found (is_run (tr_JobRunID r)) job_runs db jr Hjr Hk) as (y & E & _).
    unfold mbind, Tx_bind. rewrite E. by eexists.
Qed.

(** The claim transaction never fails: the event finds the rows it is stamped from. *)
Lemma claimNext_effect c now db : ids_unique db →
  match claim_queue c now db with
  | [] => claimNextTx c now (now + cl_leaseTTL c) db = inr (None, db)
  | r :: _ => ∃ evt, claimNextTx c now (now + cl_leaseTTL c) db =
      inr (Some (claimed_row c now r),
           set_execution_events (execution_events db ++ [evt]) (set_task_runs (replace_row r (claimed_row c now r) (task_runs db)) db)) ∧
      ev_Type evt = TypeTaskClaimed ∧ ev_RunID evt = tr_JobRunID r ∧ ev_TaskID evt = tr_TaskID r
  end.
Proof.
  intros Hu. pose proof (statement_effect c now db Hu) as E. unfold claimNextTx. destruct (claim_queue c now db) as [|r l] eqn:EQ;
    unfold mbind at 1, Tx_bind at 1; rewrite E; [done|]. clear E.
  assert (r ∈ task_runs db ∧ candidate c now db r = true) as [Hin Hc] by (apply queue_elem; rewrite EQ; by left).
  apply candidate_parts in Hc as (Hrun & _). unfold mbind, Tx_bind.
  edestruct (claimed_event (claimed_row c now r)) as (evt & -> & H1 & H2 & H3).
  - simpl. by apply replaced_elem.
  - by apply running_listed in Hrun.
  - exists evt. done.
Qed.

(** * The whole operation *)

(** The row after the limiter has put the task off. *)
Definition put_off_row (retryAfter : Z) (r : TaskRun) : TaskRun :=
  Updates [with_Status TaskStatusPending; with_ClaimedBy ""; with_ClaimExpiresAt None; with_RuntimeID "";
           with_StartedAt None; with_RateLimitRetryAfter (Some retryAfter)] r.

Lemma put_off_effect now r retryAfter rows r' db : tr_ID r' = tr_ID r → task_key r' = task_key r → NoDup (map tr_ID rows) →
  NoDup (map task_key rows) → r ∈ rows → tr_Status r' = TaskStatusRunning → task_runs db = replace_row r r' rows →
  RateLimitTask now (tr_JobRunID r) (tr_TaskID r) (Some retryAfter) db =
    inr ((), set_task_runs (replace_row r (put_off_row retryAfter r') rows) db).
Proof.
  intros Hid Hkey Hids Hkeys Hin Hst Hdb. unfold RateLimitTask, mbind, Tx_bind, UpdateTaskRuns, Exec, update_where. rewrite Hdb.
  cbn [default from_option id]. unfold mret, Tx_ret. do 3 f_equal. unfold replace_row. rewrite map_map. apply map_ext_in. intros x Hx%list_elem_of_In. destruct (N.eqb_spec (tr_ID x) (tr_ID r)) as [E|E].
  - rewrite (proj2 (is_task_run_key _ _ r')) by (rewrite Hkey; done). rewrite Hst. done.
  - destruct (is_task_run (tr_JobRunID r) (tr_TaskID r) x) eqn:K; [|done]. apply is_task_run_key in K. exfalso. apply E.
    f_equal. by eapply (NoDup_map_eq _ _ _ _ Hkeys).
Qed.

Definition same_world (db db' : DB) : Prop := job_runs db' = job_runs db ∧ run_leases db' = run_leases db.

(** Every way [ClaimNext] can end. *)
Inductive claim_outcome (faults : nat → option store_error) (c : Claimer) (now limitNow : Z) (db : DB) : claim_error + option TaskRun → DB → Prop :=
| outcome_idle : claim_queue c now db = [] → claim_outcome faults c now limitNow db (inr None) db
| outcome_failed e : withBusyRetry faults (claimNextTx c now (now + cl_leaseTTL c)) db = (inl e, db) →
    claim_outcome faults c now limitNow db (inl (ErrStore e)) db
| outcome_row r l res r' db' : claim_queue c now db = r :: l → same_world db db' →
    task_runs db' = replace_row r r' (task_runs db) →
    (r' = claimed_row c now r ∧ (res = inr (Some r') ∨ ∃ e, res = inl e) ∨
     (∃ window, r' = put_off_row (limitNow + RetryAfter limitNow window) (claimed_row c now r)) ∧ res = inr None) →
    claim_outcome faults c now limitNow db res db'.

Lemma ClaimNext_outcome rules c now limitNow faults limitFaults tokens db res tokens' db' : ids_unique db → rows_unique db →
  ClaimNext rules c now limitNow faults limitFaults tokens db = (res, (tokens', db')) → claim_outcome faults c now limitNow db res db'.
Proof.
  intros Hu Hk. unfold ClaimNext. destruct (withBusyRetry _ _ db) as [res0 db0] eqn:EW.
  pose proof EW as E0. apply busyRetryLoop_atomic in E0. pose proof (claimNext_effect c now db Hu) as HE.
  destruct res0 as [e|[r'|]]; [intros ?; simplify_eq; by apply outcome_failed| |].
  2: { intros ?; simplify_eq. destruct (claim_queue c now db) as [|r l] eqn:EQ; [|by destruct HE as (? & HE & _); congruence].
       rewrite HE in E0. simplify_eq. by apply outcome_idle. }
  destruct (claim_queue c now db) as [|r l] eqn:EQ; [congruence|]. destruct HE as (evt & HE & _).
  rewrite HE in E0. clear HE. injection E0 as <- <-. set (db0 := set_execution_events _ _).
  assert (r ∈ task_runs db) as Hin by (eapply (queue_elem c now); rewrite EQ; by left).
  destruct (acquireRateLimit _ c limitNow _ tokens) as [[e|[t|]] tok] eqn:EL.
  - intros ?; simplify_eq. eapply outcome_row; [done|done|done|left; eauto].
  - assert (∃ window, t = limitNow + RetryAfter limitNow window) as [window ->].
    { unfold acquireRateLimit in EL. repeat case_match; simplify_eq; eauto. }
    destruct (withStoreBusyRetry _ _ db0) as [res1 db1] eqn:E1. apply busyRetryLoop_atomic in E1.
    destruct res1 as [e|[]]; intros ?; simplify_eq; [eapply outcome_row; [done|done|done|left; eauto]|].
    change (tr_JobRunID (claimed_row c now r)) with (tr_JobRunID r) in E1.
    change (tr_TaskID (claimed_row c now r)) with (tr_TaskID r) in E1.
    rewrite (put_off_effect limitNow r _ (task_runs db) (claimed_row c now r)) in E1 by done. injection E1 as <-.
    eapply outcome_row; [done|done|done|right; eauto].
  - intros ?; simplify_eq. eapply outcome_row; [done|done|done|left; eauto].
Qed.

(** The connection recovers after at most [n] contention errors. *)
Definition recovers (n : nat) (faults : nat → option store_error) : Prop :=
  ∃ k, (k ≤ n)%nat ∧ (∀ i, (i < k)%nat → faults i = Some ErrContention) ∧ faults k = None.

Lemma withBusyRetry_recovers {A} faults (body : Tx A) db a db' : recovers 5 faults → body db = inr (a, db') →
  withBusyRetry faults body db = (inr a, db').
Proof.
  intros (k & Hk & Hf & Hn) E. unfold withBusyRetry.
  rewrite (busyRetryLoop_recovers _ faults 0 body db k); [by rewrite E|done|intros i Hi; apply Hf; lia|done|congruence].
Qed.

Lemma claim_recovers faults c now db : ids_unique db → recovers 5 faults →
  ∃ res db', withBusyRetry faults (claimNextTx c now (now + cl_leaseTTL c)) db = (inr res, db') ∧
    claimNextTx c now (now + cl_leaseTTL c) db = inr (res, db').
Proof.
  intros Hu Hf. pose proof (claimNext_effect c now db Hu) as H. destruct (claim_queue c now db) as [|r l].
  - exists None, db. split; [|done]. by apply withBusyRetry_recovers.
  - destruct H as (evt & H & _). eexists _, _. split; [|exact H]. by apply withBusyRetry_recovers.
Qed.

Lemma queue_sorted c now db : StronglySorted no_better (claim_queue c now db).
Proof.
  unfold claim_queue. induction (sort_stable_sorted claim_before claim_asym claim_negtrans (select (candidate c now db) (task_runs db)))
    as [|x l _ IH Hx]; constructor; [done|]. eapply Forall_impl; [exact Hx|]. intros y. apply not_before.
Qed.

Lemma queue_best c now db r l x : claim_queue c now db = r :: l → x ∈ task_runs db → candidate c now db x = true →
  claim_before x r = false.
Proof.
  intros E Hx Hc. destruct (sort_stable_head claim_before claim_asym claim_negtrans (select (candidate c now db) (task_runs db)) r) as [_ H].
  - fold (claim_queue c now db). by rewrite E.
  - apply H; [by apply select_elem|unfold claim_before; lia].
Qed.


(** * Expired claims *)

Definition reclaimed_row (now : Z) (db : DB) (r : TaskRun) : TaskRun :=
  if expired_row now db r then Updates reclaim_columns r else r.

(** The events of the reclaimed rows, two each. *)
Definition reclaim_events_of (evts : list ExecutionEvent) (rows : list TaskRun) : Prop :=
  map (λ e, (ev_Type e, ev_RunID e, ev_TaskID e)) evts =
  concat (map (λ r, [(TypeTaskLeaseExpired, tr_JobRunID r, tr_TaskID r); (TypeTaskReady, tr_JobRunID r, tr_TaskID r)]) rows).

Lemma reclaimEvents_total rows db : (∀ r, r ∈ rows → run_listed (tr_JobRunID r) db) →
  ∃ evts, reclaimEventsTx rows db = inr (evts, db) ∧ reclaim_events_of evts rows.
Proof.
  induction rows as [|r l IH]; intros H; [by exists []|].
  destruct (H r) as (jr & Hjr & Hk); [by left|]. destruct IH as (evts & E & HE); [intros x Hx; apply H; by right|].
  destruct (First_found (is_run (tr_JobRunID r)) job_runs db jr Hjr Hk) as (y & EF & _).
  exists (reclaimEvents r y ++ evts). cbn [reclaimEventsTx]. unfold firstRun, mbind, Tx_bind. rewrite EF, E. split; [done|].
  unfold reclaim_events_of in *. rewrite map_app. cbn [map concat]. by rewrite HE.
Qed.

Lemma append_all evts db : forTx evts AppendTx db = inr ((), set_execution_events (execution_events db ++ evts) db).
Proof.
  revert db. induction evts as [|e l IH]; intros db; simpl.
  - rewrite app_nil_r. by destruct db.
  - unfold mbind, Tx_bind, AppendTx. rewrite IH. simpl. by rewrite <- (assoc_L (++)).
Qed.

Lemma reclaim_effect now db : ∃ evts db', reclaimTx now db = inr ((), db') ∧ same_world db db' ∧
  task_runs db' = map (reclaimed_row now db) (task_runs db) ∧ execution_events db' = execution_events db ++ evts ∧
  reclaim_events_of evts (select (expired_row now db) (task_runs db)).
Proof.
  unfold reclaimTx, mbind, Tx_bind, Query, UpdateTaskRuns, Exec, update_where. set (db1 := set_task_runs _ db).
  destruct (reclaimEvents_total (select (expired_row now db) (task_runs db)) db1) as (evts & E & HE).
  - intros r [_ Hr]%select_elem. unfold expired_row in Hr. rewrite !andb_true_iff in Hr. destruct Hr as (((Hr & _) & _) & _).
    by apply running_listed in Hr.
  - rewrite E. exists evts. eexists. split; [apply append_all|]. done.
Qed.

(** * Sequences of claims *)

(** What any of the claimers of a cluster may do, each with its own clock reading. *)
Inductive claimer_op : Type :=
| OpClaim (c : Claimer) (now limitNow : Z) (faults limitFaults : nat → option store_error)
| OpReclaim (now : Z) (faults : nat → option store_error).

Definition op_now (op : claimer_op) : Z := match op with OpClaim _ now _ _ _ => now | OpReclaim now _ => now end.

Definition claimer_step (rules : DB → uuid → uuid → limit_error + option Rule) (s : list RateLimitToken * DB) (op : claimer_op)
    : list RateLimitToken * DB :=
  match op with
  | OpClaim c now limitNow faults limitFaults => (ClaimNext rules c now limitNow faults limitFaults s.1 s.2).2
  | OpReclaim now faults => (s.1, (ReclaimExpired now faults s.2).2)
  end.

(** A row no claimer may touch at [now]: its run has a living owner; it is running or
    held and its claim has not expired (a retried task is pending again and keeps the
    claim of its worker); or it is finished. *)
Definition protected (now : Z) (db : DB) (r : TaskRun) : Prop :=
  live_owner now (tr_JobRunID r) db ∨
  ((tr_Status r = TaskStatusRunning ∨ tr_ClaimedBy r ≠ "") ∧ ∃ t, tr_ClaimExpiresAt r = Some t ∧ now ≤ t) ∨
  IsTerminal (tr_Status r) = true.

Lemma protected_not_candidate c now db r : protected now db r → candidate c now db r = false.
Proof.
  intros H. destruct (candidate c now db r) eqn:E; [|done]. apply candidate_spec in E as [_ [Hs _] Hf _ _ Ho].
  destruct H as [H|[([Hr|Hc] & t & Et & Ht)|Ht]]; [done|by rewrite Hr in Hs| |by rewrite Hs in Ht].
  destruct Hf as [?|Hf]; [done|]. specialize (Hf t Et). lia.
Qed.

Lemma protected_not_expired now db r : protected now db r → expired_row now db r = false.
Proof.
  intros H. unfold expired_row. destruct H as [->%guard_spec|[(_ & t & -> & Ht)|Ht]]; [by rewrite andb_false_r| |].
  - rewrite (proj2 (Z.ltb_ge _ _) Ht). by rewrite !andb_false_r.
  - destruct (str_eqb (tr_Status r) TaskStatusRunning) eqn:Es; [|by rewrite andb_false_r].
    apply str_eqb_eq in Es. by rewrite Es in Ht.
Qed.

Definition good_rows (db : DB) : Prop := ids_unique db ∧ rows_unique db.

Lemma replace_good db db' r r' : good_rows db → tr_ID r' = tr_ID r → task_key r' = task_key r → r ∈ task_runs db →
  task_runs db' = replace_row r r' (task_runs db) → good_rows db'.
Proof.
  intros [Hu Hk] Hid Hkey Hin Ht. unfold good_rows, ids_unique, rows_unique. rewrite Ht, replace_ids by done. split; [exact Hu|].
  replace (map task_key (replace_row r r' (task_runs db))) with (map task_key (task_runs db)); [exact Hk|].
  unfold replace_row. rewrite map_map. apply map_ext_in. intros x Hx%list_elem_of_In.
  destruct (N.eqb_spec (tr_ID x) (tr_ID r)) as [E|]; [|done]. by rewrite (by_id db r x Hu Hin Hx E), Hkey.
Qed.

Lemma map_good db db' f : good_rows db → (∀ r, tr_ID (f r) = tr_ID r ∧ task_key (f r) = task_key r) →
  task_runs db' = map f (task_runs db) → good_rows db'.
Proof.
  intros [Hu Hk] Hf Ht. unfold good_rows, ids_unique, rows_unique. rewrite Ht, !map_map.
  rewrite (map_ext _ tr_ID) by apply Hf. by rewrite (map_ext _ task_key) by apply Hf.
Qed.

Lemma outcome_keeps faults c now limitNow db res db' r : good_rows db → claim_outcome faults c now limitNow db res db' →
  good_rows db' ∧ same_world db db' ∧ (protected now db r → r ∈ task_runs db → r ∈ task_runs db').
Proof.
  intros Hg. destruct 1 as [| |x l res x' db' EQ Hw Ht HR]; [done|done|].
  assert (x ∈ task_runs db ∧ candidate c now db x = true) as [Hin Hc] by (apply queue_elem; rewrite EQ; by left).
  assert (tr_ID x' = tr_ID x ∧ task_key x' = task_key x) as [Hid Hkey] by (by destruct HR as [[-> _]|[[window ->] _]]).
  split_and!; [by eapply replace_good|done|]. intros Hp Hr. rewrite Ht. apply replace_other; [done|]. intros E.
  rewrite (by_id db x r (proj1 Hg) Hin Hr E) in Hp. apply (protected_not_candidate c) in Hp. congruence.
Qed.

Lemma step_keeps rules s op r : good_rows s.2 → let s' := claimer_step rules s op in
  good_rows s'.2 ∧ same_world s.2 s'.2 ∧ (protected (op_now op) s.2 r → r ∈ task_runs s.2 → r ∈ task_runs s'.2).
Proof.
  intros Hg. destruct op as [c now limitNow faults limitFaults|now faults]; simpl.
  - destruct (ClaimNext _ _ _ _ _ _ _ _) as [res [tokens' db']] eqn:E.
    apply ClaimNext_outcome in E; [|apply Hg..]. by eapply outcome_keeps.
  - unfold ReclaimExpired. destruct (withBusyRetry _ _ _) as [res db'] eqn:E. apply busyRetryLoop_atomic in E.
    destruct res as [e|[]]; [by subst|]. destruct (reclaim_effect now s.2) as (evts & db1 & E1 & Hw & Ht & _).
    rewrite E1 in E. injection E as ->. split_and!; [|apply Hw..|].
    + eapply map_good; [exact Hg| |exact Ht]. intros x. unfold reclaimed_row. by destruct (expired_row now s.2 x).
    + intros Hp Hr. simpl. rewrite Ht. apply list_elem_of_In, in_map_iff. exists r. split; [|by apply list_elem_of_In].
      unfold reclaimed_row. by rewrite (protected_not_expired now s.2 r Hp).
Qed.

Lemma protected_world now db db' r : same_world db db' → protected now db r → protected now db' r.
Proof. intros [_ Hl]. unfold protected, live_owner. by rewrite Hl. Qed.

Lemma steps_keep rules ops r : ∀ s, good_rows s.2 → r ∈ task_runs s.2 → (∀ op, op ∈ ops → protected (op_now op) s.2 r) →
  r ∈ task_runs (fold_left (claimer_step rules) ops s).2.
Proof.
  induction ops as [|op ops IH]; intros s Hg Hr Hp; [done|]. simpl.
  destruct (step_keeps rules s op r Hg) as (Hg' & Hw & Hstep). apply IH; [done|apply Hstep; [apply Hp; by left|done]|].
  intros op' Hop. eapply protected_world; [exact Hw|]. apply Hp. by right.
Qed.

(** C14: claimers respect claims and owners. Whatever sequence of claims and reclaims the
    nodes of a cluster perform, under database errors and rate limits, a task row stays
    exactly as it is as long as, at each of those moments, its run has a living owner
    (the owner's dispatch loop then drives the run), or the row is running or held by a
    worker (a retried task is pending and still held) and the claim has not expired, or
    the task is finished. *)
Theorem claims_respected rules ops tokens db r : ids_unique db → rows_unique db → r ∈ task_runs db →
  (∀ op, op ∈ ops → protected (op_now op) db r) →
  r ∈ task_runs (fold_left (claimer_step rules) ops (tokens, db)).2.
Proof. intros Hu Hk Hr Hp. by apply steps_keep. Qed.

(** * The queue after a claim *)

Lemma candidate_world c now db db' r : same_world db db' → candidate c now db' r = candidate c now db r.
Proof. intros [Hj Hl]. unfold candidate, runningRun, liveLeaseGuardSQL. by rewrite Hj, Hl. Qed.

Lemma select_replaced (p : TaskRun → bool) r r' rows : p r' = false →
  select p (replace_row r r' rows) = List.filter (λ x, negb (tr_ID x =? tr_ID r)%N) (select p rows).
Proof.
  intros Hp. unfold select, replace_row. induction rows as [|x l IH]; [done|]. simpl.
  destruct (tr_ID x =? tr_ID r)%N eqn:E; rewrite ?Hp; destruct (p x); simpl; rewrite ?E; simpl; by rewrite ?IH.
Qed.

Lemma filter_absent (f : TaskRun → N) n l : n ∉ map f l → List.filter (λ x, negb (f x =? n)%N) l = l.
Proof.
  induction l as [|x l IH]; [done|]. simpl. intros [Hx Hl]%not_elem_of_cons. rewrite (proj2 (N.eqb_neq _ _)) by congruence.
  simpl. by rewrite IH.
Qed.

Lemma claimed_not_candidate c now db r : candidate c now db (claimed_row c now r) = false.
Proof.
  unfold candidate, claimable_row. change (tr_Status (claimed_row c now r) =s TaskStatusPending) with false.
  by rewrite !andb_false_l, andb_false_r.
Qed.

(** Replacing the first task of the queue by a row that is no candidate leaves the
    rest of it. *)
Lemma queue_next c now db db' r r' l : ids_unique db → claim_queue c now db = r :: l → same_world db db' →
  (∀ db0, candidate c now db0 r' = false) →
  task_runs db' = replace_row r r' (task_runs db) → claim_queue c now db' = l.
Proof.
  intros Hu EQ Hw Hr' Ht. unfold claim_queue. rewrite Ht.
  assert (select (candidate c now db') (replace_row r r' (task_runs db)) =
          List.filter (λ x, negb (tr_ID x =? tr_ID r)%N) (select (candidate c now db) (task_runs db))) as ->.
  { rewrite select_replaced by apply Hr'. unfold select. f_equal. apply List.filter_ext. intros x. by apply candidate_world. }
  rewrite (sort_stable_filter_comm claim_before claim_asym claim_negtrans). fold (claim_queue c now db). rewrite EQ. simpl.
  rewrite N.eqb_refl. simpl. apply filter_absent.
  assert (NoDup (map tr_ID (claim_queue c now db))) as Hnd.
  { unfold claim_queue. rewrite (sort_stable_perm claim_before). unfold ids_unique in Hu. revert Hu. unfold select.
    generalize (task_runs db). intros rows. induction rows as [|x k IH]; [done|]. simpl. intros [Hx Hk]%NoDup_cons.
    destruct (candidate c now db x); [|auto]. simpl. constructor; [|auto]. intros H. apply Hx.
    apply list_elem_of_In, in_map_iff in H as (y & Ey & Hy). apply list_elem_of_In, in_map_iff. exists y. split; [done|].
    by apply List.filter_In in Hy as [Hy _]. }
  rewrite EQ in Hnd. simpl in Hnd. by apply NoDup_cons in Hnd as [Hnd _].
Qed.

(** * Polling *)

(** One poll of the claimer: the clock of the limiter and the database errors. *)
Record poll := mkPoll { po_limitNow : Z; po_faults : nat → option store_error; po_limitFaults : nat → option store_error }.

(** Successive polls of a node at one instant, whatever each of them returns. *)
Fixpoint claim_polls (rules : DB → uuid → uuid → limit_error + option Rule) (c : Claimer) (now : Z) (polls : list poll)
    (s : list RateLimitToken * DB) : list (claim_error + option TaskRun) * (list RateLimitToken * DB) :=
  match polls with
  | [] => ([], s)
  | p :: polls =>
      let '(res, s) := ClaimNext rules c now (po_limitNow p) (po_faults p) (po_limitFaults p) s.1 s.2 in
      let '(l, s) := claim_polls rules c now polls s in (res :: l, s)
  end.

Definition polls_ok (now : Z) (polls : list poll) : Prop :=
  Forall (λ p, now ≤ po_limitNow p ∧ recovers 5 (po_faults p)) polls.

Lemma put_off_not_candidate c now limitNow window r db : now ≤ limitNow →
  candidate c now db (put_off_row (limitNow + RetryAfter limitNow window) r) = false.
Proof.
  intros Hn. destruct (RetryAfter_next limitNow window) as [[H _] _]. apply not_true_iff_false. intros [_ _ _ Hd _ _]%candidate_spec.
  specialize (Hd _ eq_refl). lia.
Qed.

(** A poll that takes a task the limiter has no rule for returns it. *)
Lemma ClaimNext_unlimited rules c now limitNow faults limitFaults tokens db r l : good_rows db → recovers 5 faults →
  claim_queue c now db = r :: l →
  (cl_rateLimiter c = true → ∀ db0, rules db0 (tr_JobRunID r) (tr_TaskID r) = inr None) →
  (ClaimNext rules c now limitNow faults limitFaults tokens db).1 = inr (Some (claimed_row c now r)).
Proof.
  intros Hg Hf EQ Hrule. unfold ClaimNext. pose proof (claimNext_effect c now db (proj1 Hg)) as HE. rewrite EQ in HE.
  destruct HE as (evt & HE & _). rewrite (withBusyRetry_recovers _ _ _ _ _ Hf HE). unfold acquireRateLimit.
  destruct (cl_rateLimiter c) eqn:El; [|done]. cbn [negb].
  change (tr_JobRunID (claimed_row c now r)) with (tr_JobRunID r). change (tr_TaskID (claimed_row c now r)) with (tr_TaskID r).
  by rewrite Hrule.
Qed.

(** Every poll takes the first task of the queue, whether it keeps it or not. *)
Lemma ClaimNext_pops rules c now limitNow faults limitFaults tokens db r l : good_rows db → recovers 5 faults → now ≤ limitNow →
  claim_queue c now db = r :: l →
  let db' := (ClaimNext rules c now limitNow faults limitFaults tokens db).2.2 in good_rows db' ∧ claim_queue c now db' = l.
Proof.
  intros Hg Hf Hn EQ. destruct (ClaimNext rules c now limitNow faults limitFaults tokens db) as [res [tokens' db']] eqn:E. simpl.
  apply ClaimNext_outcome in E; [|apply Hg..]. destruct (claim_recovers faults c now db (proj1 Hg) Hf) as (res0 & db0 & E0 & _).
  pose proof (outcome_keeps _ _ _ _ _ _ _ r Hg E) as (Hg' & _). split; [done|].
  inversion E as [|e EW|x k res' x' db'' EQ' Hw Ht HR]; subst; [congruence|congruence|]. rewrite EQ' in EQ. simplify_eq.
  eapply (queue_next c now db); [apply Hg|done|done| |done]. intros db1.
  destruct HR as [[-> _]|[[window ->] _]]; [apply claimed_not_candidate|by apply put_off_not_candidate].
Qed.

Lemma polls_take rules c now polls r : (cl_rateLimiter c = true → ∀ db0, rules db0 (tr_JobRunID r) (tr_TaskID r) = inr None) →
  ∀ s, good_rows s.2 → polls_ok now polls → r ∈ claim_queue c now s.2 → (length (claim_queue c now s.2) ≤ length polls)%nat →
  inr (Some (claimed_row c now r)) ∈ (claim_polls rules c now polls s).1.
Proof.
  intros Hrule. induction polls as [|p polls IH]; intros [tokens db] Hg Hok Hr Hlen; simpl in *.
  { destruct (claim_queue c now db); [by apply elem_of_nil in Hr|simpl in Hlen; lia]. }
  apply Forall_cons in Hok as [[Hn Hf] Hok]. destruct (claim_queue c now db) as [|x l] eqn:EQ; [by apply elem_of_nil in Hr|].
  destruct (ClaimNext_pops rules c now (po_limitNow p) (po_faults p) (po_limitFaults p) tokens db x l Hg Hf Hn EQ) as [Hg' EQ'].
  pose proof (ClaimNext_unlimited rules c now (po_limitNow p) (po_faults p) (po_limitFaults p) tokens db x l Hg Hf EQ) as Hx.
  destruct (ClaimNext rules c now _ _ _ tokens db) as [res s']. destruct (claim_polls rules c now polls s') as [out s''] eqn:E.
  simpl in *. apply elem_of_cons in Hr as [->|Hr]; [rewrite (Hx Hrule); by left|right].
  replace out with (claim_polls rules c now polls s').1 by (by rewrite E). apply IH; [done|done|by rewrite EQ'|].
  rewrite EQ'. lia.
Qed.


(** * A cluster with two nodes *)

Definition pull_row (id task run : uuid) (status : TaskStatus) (claimedBy : string) (expires : option Z) (priority created : Z)
    (selector : gmap string string) : TaskRun :=
  mkTaskRun id run task status claimedBy expires 0 None 1 priority "" None None false None None None "" false "" "" 0 0 0
    None None created false NoDescriptor selector.

(** Run 100 has no owner: task 1 is claimed by a worker that died, tasks 2 to 4 wait,
    task 4 for a node with a GPU, task 6 is pending for a retry by the worker that holds
    it. Run 101 has a living owner. *)
Definition pull_db : DB :=
  mkDB [] [] [] [mkJobRun 100 7 None 0 StatusRunning 2 BlobEmpty "" false 0 None;
                 mkJobRun 101 8 None 0 StatusRunning 2 BlobEmpty "" false 0 None]
    [pull_row 1 11 100 TaskStatusRunning "dead" (Some 50) 2 0 ∅; pull_row 2 12 100 TaskStatusPending "" None 2 1 ∅;
     pull_row 3 13 100 TaskStatusPending "" None 3 2 ∅; pull_row 4 14 100 TaskStatusPending "" None 3 1 {["gpu" := " yes "]};
     pull_row 5 15 101 TaskStatusRunning "w" (Some 50) 2 0 ∅; pull_row 6 16 100 TaskStatusPending "w" (Some 500) 9 0 ∅]
    [mkRunLease 101 "n1" 0 1000 1] [] [] [].

Definition plain_node : Claimer := NewClaimer "n2" 60 ∅.
Definition gpu_node : Claimer := NewClaimer "n3" 60 (ParseNodeLabels "zone = a, gpu=yes,broken").

Lemma pull_ids : ids_unique pull_db.
Proof. unfold ids_unique. decide_vm. Qed.

Lemma pull_keys : rows_unique pull_db.
Proof. unfold rows_unique. decide_vm. Qed.

Lemma busy_twice : recovers 5 (λ n, if (n <? 2)%nat then Some ErrContention else None).
Proof.
  exists 2%nat. split; [lia|]. split; [|reflexivity]. intros i Hi. by rewrite (proj2 (Nat.ltb_lt _ _) Hi).
Qed.

Definition busy : nat → option store_error := λ n, if (n <? 2)%nat then Some ErrContention else None.


(** The retried task stays with the worker that holds it. *)
Lemma claims_respected_witness :
  pull_row 6 16 100 TaskStatusPending "w" (Some 500) 9 0 ∅ ∈
  task_runs (fold_left (claimer_step (λ _ _ _, inr None)) [OpReclaim 200 busy; OpClaim gpu_node 210 210 busy busy] ([], pull_db)).2.
Proof.
  apply (claims_respected (λ _ _ _, inr None) [OpReclaim 200 busy; OpClaim gpu_node 210 210 busy busy] [] pull_db);
    [exact pull_ids|exact pull_keys|right; right; right; right; right; left|].
  intros op Hop. right. left. split; [right; discriminate|]. exists 500. split; [reflexivity|].
  apply elem_of_cons in Hop as [->|Hop]; [discriminate|].
  apply elem_of_cons in Hop as [->|Hop]; [discriminate|]. by apply elem_of_nil in Hop.
Defined.

(** A rule for every task but task 11, which lets one of them pass in a minute. *)
Definition strict_rules (_ : DB) (run task : uuid) : limit_error + option Rule :=
  if (task =? 11)%N then inr None else inr (Some (mkRule "api" 1 1 minute "etl")).

