(* ===== verification/RunWait.v ===== *)
(** The triggering node of a distributed run (internal/job/job.go, [waitForRunCompletion]):
    it waits for an event that ends the run, and on every tick reads the rows and decides. *)

From S2P Require Import Prelude TriggerRule Tables Store RunState TaskOps RunOps RateLimit Claimer ClaimTheorems.

(** * What the wait reads *)

(** The fields of [store.Get] that the wait looks at. *)
Record RunSnapshot := mkRunSnapshot { sn_Status : string; sn_Error : string; sn_Tasks : list TaskStatus }.

Definition snapshotOf (runID : uuid) (db : DB) : store_error + RunSnapshot :=
  match first (select (is_run runID) (job_runs db)) with
  | None => inl ErrRecordNotFound
  | Some r => inr (mkRunSnapshot (jr_Status r) (jr_Error r) (map tr_Status (select (λ t, (tr_JobRunID t =? runID)%N) (task_runs db))))
  end.

(** [WaitMessage] is the error text the run row holds. *)
Inductive wait_error : Type :=
| WaitContext
| WaitStore (e : store_error)
| WaitMessage (msg : string)
| WaitCancelled
| WaitFailed
| WaitCompletedFailed (failed : Z)
| WaitUnresolved (failed pending : Z)
| WaitHalted (failed : Z).

(** What ends one pass of the loop: the context, an event or the end of the subscription, or
    the ticker; reads of the store may fail. *)
Inductive occurrence : Type :=
| ContextEnds
| BusEvent (ty : string) (read : store_error + RunSnapshot)
| BusClosed
| Tick (read : store_error + RunSnapshot).

Definition storedOr (snapshot : RunSnapshot) (e : wait_error) : wait_error :=
  if sn_Error snapshot =s "" then e else WaitMessage (sn_Error snapshot).

(** * The wait *)

(** [Some r]: the wait returns, with an error or without one. *)
Definition onEvent (ty : string) (read : store_error + RunSnapshot) : option (option wait_error) :=
  if (ty =s TypeRunFailed) || (ty =s TypeRunCancelled) then
    match read with
    | inl e => Some (Some (WaitStore e))
    | inr s => Some (Some (storedOr s (if sn_Status s =s StatusCancelled then WaitCancelled else WaitFailed)))
    end
  else if (ty =s TypeRunCompleted) || (ty =s TypeRunTerminal) then
    match read with
    | inl e => Some (Some (WaitStore e))
    | inr s =>
        if sn_Status s =s StatusFailed then Some (Some (storedOr s WaitFailed))
        else if sn_Status s =s StatusCancelled then Some (Some (storedOr s WaitCancelled))
        else Some None
    end
  else None.

Definition statusCount (status : TaskStatus) (l : list TaskStatus) : Z := Z.of_nat (countb (λ s, s =s status) l).

Definition onTick (taskCount : Z) (continueOnFailure : bool) (read : store_error + RunSnapshot) : option (option wait_error) :=
  match read with
  | inl e => Some (Some (WaitStore e))
  | inr s =>
      let failed := statusCount TaskStatusFailed (sn_Tasks s) in
      let running := statusCount TaskStatusRunning (sn_Tasks s) in
      let cancelled := statusCount TaskStatusCancelled (sn_Tasks s) in
      let terminal := failed + statusCount TaskStatusSucceeded (sn_Tasks s) + statusCount TaskStatusSkipped (sn_Tasks s) +
                      statusCount TaskStatusCached (sn_Tasks s) + cancelled in
      if sn_Status s =s StatusCancelled then Some (Some (storedOr s WaitCancelled))
      else if terminal =? taskCount then
        if 0 <? cancelled then Some (Some WaitCancelled)
        else if 0 <? failed then Some (Some (WaitCompletedFailed failed))
        else Some None
      else if (0 <? failed) && (running =? 0) then
        Some (Some (if continueOnFailure then WaitUnresolved failed (taskCount - terminal) else WaitHalted failed))
      else None
  end.

(** [None]: still waiting after the occurrences. A closed subscription delivers no event. *)
Fixpoint waitLoop (taskCount : Z) (continueOnFailure subscribed : bool) (l : list occurrence) : option (option wait_error) :=
  match l with
  | [] => None
  | o :: l =>
      match o with
      | ContextEnds => Some (Some WaitContext)
      | BusClosed => waitLoop taskCount continueOnFailure false l
      | BusEvent ty read =>
          match (if subscribed then onEvent ty read else None) with
          | Some r => Some r
          | None => waitLoop taskCount continueOnFailure subscribed l
          end
      | Tick read =>
          match onTick taskCount continueOnFailure read with
          | Some r => Some r
          | None => waitLoop taskCount continueOnFailure subscribed l
          end
      end
  end.

Definition waitForRunCompletion (taskCount : Z) (continueOnFailure subscribed : bool) (l : list occurrence) : option (option wait_error) :=
  if taskCount <=? 0 then Some None else waitLoop taskCount continueOnFailure subscribed l.

(** * Correctness of a tick *)

Lemma statusCount_cons status s l : statusCount status (s :: l) = (if s =s status then 1 else 0) + statusCount status l.
Proof. unfold statusCount. rewrite countb_cons. destruct (s =s status); lia. Qed.

Lemma statusCount_nonneg status l : 0 ≤ statusCount status l.
Proof. unfold statusCount. lia. Qed.

Lemma statusCount_pos status l : 0 < statusCount status l ↔ status ∈ l.
Proof.
  unfold statusCount. rewrite <- Nat2Z.inj_0, <- Nat2Z.inj_lt, countb_pos. split.
  - intros (s & Hs & ->%str_eqb_eq). done.
  - intros H. exists status. split; [done|]. by apply str_eqb_eq.
Qed.

(** The statuses in which a task row ends. *)
Definition ended_status (s : TaskStatus) : Prop :=
  s = TaskStatusFailed ∨ s = TaskStatusSucceeded ∨ s = TaskStatusSkipped ∨ s = TaskStatusCached ∨ s = TaskStatusCancelled.

#[export] Instance ended_status_dec s : Decision (ended_status s).
Proof. unfold ended_status. apply _. Defined.

(** Comparisons of constant statuses. *)
Ltac statuses := repeat match goal with |- context [?a =s ?b] => let v := eval vm_compute in (a =s b) in change (a =s b) with v end; cbv iota.

Definition terminalCount (l : list TaskStatus) : Z :=
  statusCount TaskStatusFailed l + statusCount TaskStatusSucceeded l + statusCount TaskStatusSkipped l + statusCount TaskStatusCached l + statusCount TaskStatusCancelled l.

Lemma terminal_le l : terminalCount l ≤ Z.of_nat (length l) ∧ (terminalCount l = Z.of_nat (length l) ↔ ∀ s, s ∈ l → ended_status s).
Proof.
  induction l as [|s l [IH1 IH2]]; [split; [done|]; split; [intros _ s Hs; by apply elem_of_nil in Hs|done]|].
  assert ((terminalCount (s :: l) = 1 + terminalCount l ∧ ended_status s) ∨ (terminalCount (s :: l) = terminalCount l ∧ ¬ ended_status s)) as H.
  { unfold terminalCount, ended_status. rewrite !statusCount_cons.
    destruct (s =s TaskStatusFailed) eqn:E1; [apply str_eqb_eq in E1 as ->; left; split; [statuses; lia|by auto]|].
    destruct (s =s TaskStatusSucceeded) eqn:E2; [apply str_eqb_eq in E2 as ->; left; split; [statuses; lia|by auto]|].
    destruct (s =s TaskStatusSkipped) eqn:E3; [apply str_eqb_eq in E3 as ->; left; split; [statuses; lia|by auto]|].
    destruct (s =s TaskStatusCached) eqn:E4; [apply str_eqb_eq in E4 as ->; left; split; [statuses; lia|by auto]|].
    destruct (s =s TaskStatusCancelled) eqn:E5; [apply str_eqb_eq in E5 as ->; left; split; [statuses; lia|by auto 6]|].
    right. split; [lia|]. intros [->|[->|[->|[->| ->]]]]; by rewrite str_eqb_refl in *. }
  cbn [length]. split; [destruct H as [[-> _]|[-> _]]; lia|]. destruct H as [[-> Hs]|[-> Hs]].
  - rewrite Nat2Z.inj_succ, Z.add_1_l. split.
    + intros E x [->|Hx]%elem_of_cons; [done|]. apply IH2; [lia|done].
    + intros HA. f_equal. apply IH2. intros x Hx. apply HA. by apply elem_of_cons; right.
  - split; [lia|]. intros HA. destruct Hs. apply HA. by apply elem_of_cons; left.
Qed.

(** C35: A tick of the wait on a run with a row per task: it returns success exactly when the
    run is not cancelled and every task has succeeded, was skipped or was served from the
    cache, it returns no success while a task is unfinished, and it keeps waiting exactly
    when the run is not cancelled, some task is unfinished, and nothing has failed or
    something still runs. *)
Theorem tick_verdict taskCount continueOnFailure s : Z.of_nat (length (sn_Tasks s)) = taskCount →
  (onTick taskCount continueOnFailure (inr s) = Some None ↔
     sn_Status s ≠ StatusCancelled ∧ ∀ t, t ∈ sn_Tasks s → t = TaskStatusSucceeded ∨ t = TaskStatusSkipped ∨ t = TaskStatusCached) ∧
  (onTick taskCount continueOnFailure (inr s) = None ↔
     sn_Status s ≠ StatusCancelled ∧ (∃ t, t ∈ sn_Tasks s ∧ ¬ ended_status t) ∧ (TaskStatusFailed ∉ sn_Tasks s ∨ TaskStatusRunning ∈ sn_Tasks s)).
Proof.
  intros <-. unfold onTick. cbv zeta. fold (terminalCount (sn_Tasks s)). destruct (terminal_le (sn_Tasks s)) as [_ HT].
  destruct (sn_Status s =s StatusCancelled) eqn:Ec; [apply str_eqb_eq in Ec; split; split; [done|by intros []|done|by intros []]|].
  assert (sn_Status s ≠ StatusCancelled) as Hc by (intros E; by rewrite E, str_eqb_refl in Ec).
  pose proof (statusCount_pos TaskStatusFailed (sn_Tasks s)) as HF. pose proof (statusCount_pos TaskStatusCancelled (sn_Tasks s)) as HX.
  pose proof (statusCount_pos TaskStatusRunning (sn_Tasks s)) as HR. pose proof (statusCount_nonneg TaskStatusRunning (sn_Tasks s)) as HN.
  destruct (Z.eqb_spec (terminalCount (sn_Tasks s)) (Z.of_nat (length (sn_Tasks s)))) as [E|E].
  - assert (¬ ∃ t, t ∈ sn_Tasks s ∧ ¬ ended_status t) as Hno by (intros (t & Ht & Hn); by apply Hn, (proj1 HT E)). split.
    + destruct (Z.ltb_spec 0 (statusCount TaskStatusCancelled (sn_Tasks s))) as [Hx|Hx].
      { split; [done|]. intros [_ H]. destruct (H TaskStatusCancelled) as [?|[?|?]]; [by apply HX|done..]. }
      destruct (Z.ltb_spec 0 (statusCount TaskStatusFailed (sn_Tasks s))) as [Hf|Hf].
      { split; [done|]. intros [_ H]. destruct (H TaskStatusFailed) as [?|[?|?]]; [by apply HF|done..]. }
      split; [intros _; split; [done|]|done]. intros t Ht. destruct (proj1 HT E t Ht) as [->|[->|[->|[->| ->]]]]; [|by auto..|]; exfalso.
      * apply HF in Ht. lia.
      * apply HX in Ht. lia.
    + split; [|by intros (_ & ? & _)]. destruct (0 <? statusCount TaskStatusCancelled _); [done|]. by destruct (0 <? statusCount TaskStatusFailed _).
  - assert (¬ (∀ t, t ∈ sn_Tasks s → t = TaskStatusSucceeded ∨ t = TaskStatusSkipped ∨ t = TaskStatusCached)) as Hnot.
    { intros H. apply E, HT. intros t Ht. unfold ended_status. destruct (H t Ht) as [?|[?|?]]; by auto. }
    assert (∃ t, t ∈ sn_Tasks s ∧ ¬ ended_status t) as Hex.
    { destruct (decide (Exists (λ t, ¬ ended_status t) (sn_Tasks s))) as [H|H]; [by apply Exists_exists in H|]. exfalso. apply E, HT. intros t Ht.
      destruct (decide (ended_status t)) as [|Hn]; [done|]. destruct H. apply Exists_exists. by exists t. }
    split; [split; [by destruct (_ && _)|by intros [_ ?]]|].
    destruct (Z.ltb_spec 0 (statusCount TaskStatusFailed (sn_Tasks s))) as [Hf|Hf]; cbn [andb].
    + destruct (Z.eqb_spec (statusCount TaskStatusRunning (sn_Tasks s)) 0) as [Hr|Hr]; split; try done.
      * intros (_ & _ & [H|H]); [by destruct H; apply HF|apply HR in H; lia].
      * intros _. split_and!; [done|done|right]. apply HR. lia.
    + split; [|done]. intros _. split_and!; [done|done|left]. intros H%HF. lia.
Qed.

Lemma tick_verdict_witness :
  onTick 3 false (inr (mkRunSnapshot StatusRunning "" [TaskStatusSucceeded; TaskStatusCached; TaskStatusSkipped])) = Some None ∧
  onTick 2 true (inr (mkRunSnapshot StatusRunning "" [TaskStatusFailed; TaskStatusRunning])) = None.
Proof.
  split.
  - apply (tick_verdict 3 false (mkRunSnapshot StatusRunning "" [TaskStatusSucceeded; TaskStatusCached; TaskStatusSkipped]) eq_refl).
    split; [done|]. intros t Ht. cbn in Ht. repeat (apply elem_of_cons in Ht as [->|Ht]; [by auto|]). by apply elem_of_nil in Ht.
  - apply (tick_verdict 2 true (mkRunSnapshot StatusRunning "" [TaskStatusFailed; TaskStatusRunning]) eq_refl). split; [done|].
    split; [exists TaskStatusRunning; split; decide_vm|right; decide_vm].
Defined.

(** * A runnable task is cut off *)

(** Task 11 has failed, the independent task 12 waits for a worker. *)
Definition cut_db : DB :=
  mkDB [] [] [] [mkJobRun 100 7 None 0 StatusRunning 2 BlobEmpty "" false 0 None]
    [pull_row 1 11 100 TaskStatusFailed "" None 2 0 ∅; pull_row 2 12 100 TaskStatusPending "" None 2 1 ∅] [] [] [] [].

Definition no_faults : nat → option store_error := λ _, None.

(** The rows a worker would claim. *)
Definition claims (db : DB) : option uuid :=
  match ClaimNext (λ _ _ _, inr None) plain_node 100 100 no_faults no_faults [] db with (inr (Some r), _) => Some (tr_TaskID r) | _ => None end.

(** Under the continue policy a tick between the failure of one task and the claim of
    another one ends the wait with an error: task 12 is pending and a worker would claim it,
    the wait reports it as unresolved, and once the run is completed with that error no
    worker claims the task any more. *)
Lemma poll_cuts_off_runnable_task :
  waitForRunCompletion 2 true false [Tick (snapshotOf 100 cut_db)] = Some (Some (WaitUnresolved 1 1)) ∧
  claims cut_db = Some 12%N ∧ claims (Complete no_faults 200 100 (Some "1 failed task(s)") cut_db).2 = None.
Proof. split_and!; vm_compute; reflexivity. Qed.
