(* ===== verification/TriggerChain.v ===== *)
(** Trigger chains: the check that event triggers over run life-cycle events form no
    cycle (internal/jobdef/trigger_cycle.go), and the matching of events against
    patterns when they are routed (internal/trigger/event/matcher.go, router.go).

    JSON documents are values; object keys are matched exactly. [uuid_String] is the text
    of an identifier; [number_text] and [json_text] are the text of a JSON number and of a
    JSON array or object. Strings are byte strings, runes are bytes. *)

From S2P Require Import Prelude Tables Store JobDef StepGraph Validate.

(** * [path.Match] of the Go library *)

(** One possibly escaped character of a class, and the rest; [None] is [ErrBadPattern]. *)
Definition getEsc (chunk : string) : option (ascii * string) :=
  match chunk with
  | EmptyString => None
  | String c rest =>
      if bool_decide (c = "-"%char) || bool_decide (c = "]"%char) then None
      else
        match (if bool_decide (c = "\"%char) then rest else chunk) with
        | EmptyString => None
        | String r rest => if rest =s "" then None else Some (r, rest)
        end
  end.

Definition ascii_le (a b : ascii) : bool := (N_of_ascii a <=? N_of_ascii b)%N.

(** The ranges of a class up to its closing bracket. *)
Fixpoint matchRanges (fuel : nat) (r : ascii) (chunk : string) (some_range matched : bool) : option (bool * string) :=
  match fuel with
  | O => None
  | S fuel =>
      let ranges :=
        '(lo, chunk) ← getEsc chunk;
        '(hi, chunk) ← (match chunk with
                        | String "-" chunk => getEsc chunk
                        | _ => Some (lo, chunk)
                        end);
        matchRanges fuel r chunk true (matched || (ascii_le lo r && ascii_le r hi)) in
      match chunk with
      | String "]" rest => if some_range then Some (matched, rest) else ranges
      | _ => ranges
      end
  end.

(** Matches [chunk], which has no star, at the start of [s]. A failed match ([s] is
    [None]) goes on to check the syntax of the chunk. *)
Fixpoint matchChunk (fuel : nat) (chunk : string) (s : option string) : option (option string) :=
  match fuel with
  | O => None
  | S fuel =>
      match chunk with
      | EmptyString => Some s
      | String c chunk =>
          let s := match s with Some EmptyString => None | _ => s end in
          let literal c chunk :=
            matchChunk fuel chunk
              (match s with Some (String c' s) => if bool_decide (c = c') then Some s else None | _ => None end) in
          if bool_decide (c = "["%char) then
            let r := match s with Some (String r _) => r | _ => "000"%char end in
            let '(negated, chunk) := match chunk with String "^" chunk => (true, chunk) | _ => (false, chunk) end in
            '(matched, chunk) ← matchRanges fuel r chunk false false;
            matchChunk fuel chunk
              (match s with Some (String _ s) => if Bool.eqb matched negated then None else Some s | _ => None end)
          else if bool_decide (c = "?"%char) then
            matchChunk fuel chunk
              (match s with Some (String c' s) => if bool_decide (c' = "/"%char) then None else Some s | _ => None end)
          else if bool_decide (c = "\"%char) then
            match chunk with EmptyString => None | String c chunk => literal c chunk end
          else literal c chunk
      end
  end.

(** The leading stars, the chunk up to the next star outside a class, and the rest. *)
Fixpoint scanStars (pattern : string) : bool * string :=
  match pattern with
  | String "*" pattern => (true, (scanStars pattern).2)
  | _ => (false, pattern)
  end.

Fixpoint scanText (inrange : bool) (pattern : string) : string * string :=
  match pattern with
  | EmptyString => ("", "")
  | String c rest =>
      if bool_decide (c = "*"%char) && negb inrange then ("", pattern)
      else if bool_decide (c = "\"%char) then
        match rest with
        | EmptyString => (pattern, "")
        | String c' rest => let '(a, b) := scanText inrange rest in (String c (String c' a), b)
        end
      else
        let inrange := if bool_decide (c = "["%char) then true else if bool_decide (c = "]"%char) then false else inrange in
        let '(a, b) := scanText inrange rest in (String c a, b)
  end.

Definition scanChunk (pattern : string) : bool * string * string :=
  let '(star, pattern) := scanStars pattern in
  let '(chunk, rest) := scanText false pattern in (star, chunk, rest).

Definition match_at (chunk name : string) : option (option string) :=
  matchChunk (S (String.length chunk)) chunk (Some name).

(** The later positions a star allows, up to the next slash; [last] when no pattern is
    left, so that the name has to be used up. *)
Fixpoint matchStar (last : bool) (chunk name : string) : option (option string) :=
  match name with
  | EmptyString => Some None
  | String c name =>
      if bool_decide (c = "/"%char) then Some None
      else
        match match_at chunk name with
        | None => None
        | Some (Some t) => if last && negb (t =s "") then matchStar last chunk name else Some (Some t)
        | Some None => matchStar last chunk name
        end
  end.

(** After a failure the rest of the pattern is still checked. *)
Fixpoint checkRest (fuel : nat) (pattern : string) : option () :=
  match fuel with
  | O => None
  | S fuel =>
      if pattern =s "" then Some ()
      else let '(_, chunk, pattern) := scanChunk pattern in _ ← match_at chunk ""; checkRest fuel pattern
  end.

Fixpoint contains_slash (s : string) : bool :=
  match s with EmptyString => false | String c s => bool_decide (c = "/"%char) || contains_slash s end.

Fixpoint pathMatchLoop (fuel : nat) (pattern name : string) : option bool :=
  match fuel with
  | O => None
  | S fuel =>
      if pattern =s "" then Some (name =s "")
      else
        let '(star, chunk, pattern) := scanChunk pattern in
        if star && (chunk =s "") then Some (negb (contains_slash name))
        else
          match match_at chunk name with
          | None => None
          | Some t =>
              let next :=
                match t with
                | Some t => if (t =s "") || negb (pattern =s "") then Some (Some t)
                            else if star then matchStar (pattern =s "") chunk name else Some None
                | None => if star then matchStar (pattern =s "") chunk name else Some None
                end in
              match next with
              | None => None
              | Some (Some t) => pathMatchLoop fuel pattern t
              | Some None => _ ← checkRest fuel pattern; Some false
              end
          end
  end.

(** [None] is [ErrBadPattern]; every round uses up a part of the pattern. *)
Definition pathMatch (pattern name : string) : option bool := pathMatchLoop (S (String.length pattern)) pattern name.

Fixpoint containsAny (s : string) : bool :=
  match s with
  | EmptyString => false
  | String c s => bool_decide (c = "*"%char) || bool_decide (c = "?"%char) || bool_decide (c = "["%char) || containsAny s
  end.

(** [matchesEventType] of matcher.go; trigger_cycle.go has a copy of it. *)
Definition matchesEventType (pattern eventType : string) : bool :=
  let pattern := TrimSpace pattern in
  let eventType := TrimSpace eventType in
  if (pattern =s "") || (eventType =s "") then false
  else if negb (containsAny pattern) then pattern =s eventType
  else match pathMatch pattern eventType with Some matched => matched | None => false end.

Definition matchesTriggerChainEventType (patternValue eventType : string) : bool := matchesEventType patternValue eventType.

(** * Nodes: the jobs of a batch and of the catalog *)

Definition TriggerTypeEvent : string := "event".

Record triggerChainNode := mkChainNode {
  cn_id : uuid;
  cn_alias : string;
  cn_triggerType : string;
  cn_configuration : object;
}.

Record triggerChainPattern := mkChainPattern {
  tp_eventType : string;
  tp_source : string;
  tp_filter : list (string * string);
}.

(** A row of the join of live jobs with their live triggers. *)
Record ChainRow := mkChainRow {
  cr_ID : uuid;
  cr_Alias : string;
  cr_TriggerType : string;
  cr_Configuration : blob;
}.

Definition ErrDuplicateJob (alias : string) : def_error := Errorf "job alias already exists: %s" [Q alias].

Fixpoint incomingNodes (idx : nat) (seen : gset string) (defs : list Definition_) : checked (list triggerChainNode) :=
  match defs with
  | [] => mret []
  | def :: l =>
      let alias := TrimSpace (md_Alias (def_Metadata def)) in
      _ ← require (negb (alias =s "")) (Errorf "definition %d: metadata.alias is required" [D idx]);
      _ ← require (bool_decide (alias ∉ seen)) (ErrDuplicateJob alias);
      rest ← incomingNodes (S idx) ({[alias]} ∪ seen) l;
      mret (mkChainNode uuid_Nil alias (TrimSpace (tg_Type (def_Trigger def))) (default [] (tg_Configuration (def_Trigger def))) :: rest)
  end.

(** The identifiers of the live jobs whose stored alias is one of the batch. *)
Definition existingJobIDsByAlias (jobs : list (uuid * string)) (aliases : gset string) : gmap string uuid :=
  fold_left (λ ids row,
    let alias := TrimSpace row.2 in
    if (alias =s "") || (row.1 =? uuid_Nil)%N then ids else <[alias := row.1]> ids)
    (select (λ row, bool_decide (row.2 ∈ aliases)) jobs) ∅.

Definition withID (ids : gmap string uuid) (n : triggerChainNode) : triggerChainNode :=
  mkChainNode (match ids !! cn_alias n with Some id => id | None => cn_id n end) (cn_alias n) (cn_triggerType n) (cn_configuration n).

(** The stored configuration of a trigger. *)
Definition decodeConfiguration (alias : string) (raw : blob) : checked object :=
  match raw with
  | BlobEmpty => mret []
  | BlobJson (JObj cfg) => mret cfg
  | BlobJson JNull => mret []
  | _ => fail (Errorf "existing trigger %s configuration" [Q alias])
  end.

Fixpoint existingTriggerChainNodes (incoming : gset string) (incomingIDs : gset uuid) (rows : list ChainRow)
    : checked (list triggerChainNode) :=
  match rows with
  | [] => mret []
  | row :: l =>
      let alias := TrimSpace (cr_Alias row) in
      if (alias =s "") || bool_decide (alias ∈ incoming) || bool_decide (cr_ID row ∈ incomingIDs)
      then existingTriggerChainNodes incoming incomingIDs l
      else
        cfg ← decodeConfiguration alias (cr_Configuration row);
        rest ← existingTriggerChainNodes incoming incomingIDs l;
        mret (mkChainNode (cr_ID row) alias (TrimSpace (cr_TriggerType row)) cfg :: rest)
  end.

Definition triggerChainNodes (jobs : list (uuid * string)) (rows : list ChainRow) (defs : list Definition_)
    : checked (list triggerChainNode) :=
  nodes ← incomingNodes 0 ∅ defs;
  let aliases := list_to_set (map cn_alias nodes) in
  let ids := existingJobIDsByAlias jobs aliases in
  existing ← existingTriggerChainNodes aliases (list_to_set (map snd (map_to_list ids))) rows;
  mret (map (withID ids) nodes ++ existing).

(** * Patterns *)

Fixpoint stringEntries (l : object) : list (string * string) :=
  match l with
  | [] => []
  | (k, JStr v) :: l => (k, v) :: stringEntries l
  | _ :: l => stringEntries l
  end.

Definition chainPattern (idx : nat) (rawEvent : json) : checked triggerChainPattern :=
  match rawEvent with
  | JObj eventMap =>
      filter ← (match get "filter" eventMap with
                | None | Some JNull => mret []
                | Some (JObj filter) => mret (stringEntries filter)
                | Some _ => fail (Errorf "trigger.configuration.events[%d].filter must be an object" [D idx])
                end);
      mret (mkChainPattern (asString (get "type" eventMap)) (asString (get "source" eventMap)) filter)
  | _ => fail (Errorf "trigger.configuration.events[%d] must be an object" [D idx])
  end.

Fixpoint chainPatterns (idx : nat) (events : list json) : checked (list triggerChainPattern) :=
  match events with
  | [] => mret []
  | e :: l => p ← chainPattern idx e; rest ← chainPatterns (S idx) l; mret (p :: rest)
  end.

Definition triggerChainPatterns (cfg : object) : checked (list triggerChainPattern) :=
  match get "events" cfg with
  | None | Some JNull => mret []
  | Some (JArr events) => chainPatterns 0 events
  | Some _ => fail (Errorf "trigger.configuration.events must be a list" [])
  end.

Definition lifecycleEventTypes : list string := [TypeRunCompleted; TypeRunFailed; TypeRunTerminal].

Definition patternCanMatchCaesiumLifecycle (p : triggerChainPattern) : bool :=
  let source := TrimSpace (tp_source p) in
  if negb (source =s "") && negb (source =s "caesium") then false
  else existsb (matchesTriggerChainEventType (tp_eventType p)) lifecycleEventTypes.

(** * The graph *)

Abbreviation ChainGraph := (gmap string (list string)).

(** [None] when the pattern is not restricted to one job. *)
Definition triggerChainPatternSourceAlias (p : triggerChainPattern) (aliasByJobID : gmap string string) : option string :=
  let sourceAlias := TrimSpace (default "" (get "job_alias" (tp_filter p))) in
  let sourceJobID := TrimSpace (default "" (get "job_id" (tp_filter p))) in
  if (sourceAlias =s "") && (sourceJobID =s "") then None
  else if sourceJobID =s "" then Some sourceAlias
  else
    let resolvedAlias := default "" (aliasByJobID !! sourceJobID) in
    if sourceAlias =s "" then Some resolvedAlias
    else if negb (resolvedAlias =s "") && negb (resolvedAlias =s sourceAlias) then Some ""
    else Some sourceAlias.

Definition edges_of (graph : ChainGraph) (from : string) : list string := default [] (graph !! from).

Definition addTriggerChainEdge (graph : ChainGraph) (from to : string) : ChainGraph :=
  let from := TrimSpace from in
  let to := TrimSpace to in
  if (from =s "") || (to =s "") then graph
  else if existsb (λ existing, existing =s to) (edges_of graph from) then graph
  else <[from := edges_of graph from ++ [to]]> graph.

Section chain.
Context (uuid_String : uuid → string).

Definition jobIDAliases (nodes : list triggerChainNode) : gmap string string :=
  fold_left (λ m n, if (cn_alias n =s "") || (cn_id n =? uuid_Nil)%N then m else <[uuid_String (cn_id n) := cn_alias n]> m) nodes ∅.

Definition emptyGraph (nodes : list triggerChainNode) : ChainGraph :=
  fold_left (λ g n, if (cn_alias n =s "") || bool_decide (is_Some (g !! cn_alias n)) then g else <[cn_alias n := []]> g) nodes ∅.

Definition addPattern (known : list string) (aliasByJobID : gmap string string) (to : string) (graph : ChainGraph)
    (p : triggerChainPattern) : ChainGraph :=
  if negb (patternCanMatchCaesiumLifecycle p) then graph
  else
    match triggerChainPatternSourceAlias p aliasByJobID with
    | Some sourceAlias => addTriggerChainEdge graph sourceAlias to
    | None => fold_left (λ g alias, addTriggerChainEdge g alias to) known graph
    end.

Fixpoint addNodes (known : list string) (aliasByJobID : gmap string string) (nodes : list triggerChainNode) (graph : ChainGraph)
    : checked ChainGraph :=
  match nodes with
  | [] => mret graph
  | n :: l =>
      if negb (cn_triggerType n =s TriggerEvent) && negb (cn_triggerType n =s TriggerTypeEvent)
      then addNodes known aliasByJobID l graph
      else
        patterns ← wrap (λ e, Errorf "definition %s: %w" [Q (cn_alias n); W e]) (triggerChainPatterns (cn_configuration n));
        addNodes known aliasByJobID l (fold_left (addPattern known aliasByJobID (cn_alias n)) patterns graph)
  end.

Definition triggerChainGraph (nodes : list triggerChainNode) : checked ChainGraph :=
  let graph := emptyGraph nodes in
  let known := sort_stable str_less (elements (dom graph)) in
  addNodes known (jobIDAliases nodes) nodes graph.
End chain.

(** * The search for a cycle *)

(** The part of the stack from the repeated alias on, closed by that alias. *)
Fixpoint dropUntil (repeated : string) (stack : list string) : option (list string) :=
  match stack with
  | [] => None
  | node :: l => if node =s repeated then Some stack else dropUntil repeated l
  end.

Definition triggerChainCyclePath (stack : list string) (repeated : string) : list string :=
  default stack (dropUntil repeated stack) ++ [repeated].

(** The loop over the targets of [node]; the recursive call is an argument. *)
Fixpoint chainEach (call : list string → string → Marks → option (list string + Marks)) (stack : list string) (node : string)
    (nexts : list string) (state : Marks) : option (list string + Marks) :=
  match nexts with
  | [] => Some (inr (<[node := visited]> state))
  | next :: l =>
      match state !! next with
      | None =>
          match call stack next state with
          | Some (inr state) => chainEach call stack node l state
          | r => r
          end
      | Some visiting => Some (inl (triggerChainCyclePath stack next))
      | Some visited => chainEach call stack node l state
      end
  end.

(** [None]: the fuel, a bound on the depth, is used up. *)
Fixpoint chainVisit (graph : ChainGraph) (fuel : nat) (stack : list string) (node : string) (state : Marks)
    : option (list string + Marks) :=
  match fuel with
  | O => None
  | S fuel => chainEach (chainVisit graph fuel) (stack ++ [node]) node (edges_of graph node) (<[node := visiting]> state)
  end.

Fixpoint chainVisitAll (graph : ChainGraph) (fuel : nat) (nodes : list string) (state : Marks) : option (list string + Marks) :=
  match nodes with
  | [] => Some (inr state)
  | node :: l =>
      match state !! node with
      | Some _ => chainVisitAll graph fuel l state
      | None =>
          match chainVisit graph fuel [] node state with
          | Some (inr state) => chainVisitAll graph fuel l state
          | r => r
          end
      end
  end.

Definition ErrTriggerChainCycle (cycle : list string) : def_error :=
  Errorf "trigger chain cycle detected: %s" (map Q cycle).

(** The depth stays below one more than the number of aliases ([chain_search_exact]). *)
Definition rejectTriggerChainCycle (graph : ChainGraph) : checked () :=
  let graph := sort_stable str_less <$> graph in
  match chainVisitAll graph (S (size graph)) (sort_stable str_less (elements (dom graph))) ∅ with
  | Some (inr _) => mret ()
  | Some (inl cycle) => fail (ErrTriggerChainCycle cycle)
  | None => fail errDepth
  end.

Definition ValidateTriggerChains (uuid_String : uuid → string) (jobs : list (uuid * string)) (rows : list ChainRow)
    (defs : list Definition_) : checked () :=
  nodes ← triggerChainNodes jobs rows defs;
  graph ← triggerChainGraph uuid_String nodes;
  rejectTriggerChainCycle graph.

(** * Routing life-cycle events *)

Record EventPattern := mkEventPattern {
  ep_Type : string;
  ep_Source : string;
  ep_Filter : list (string * string);
}.

Record IngestedEvent := mkIngestedEvent { ie_Type : string; ie_Source : string; ie_Data : object }.

(** json.Unmarshal of one pattern; null leaves the zero value, other types are errors. *)
Definition decodeText (v : option json) : option string :=
  match v with
  | None | Some JNull => Some ""
  | Some (JStr s) => Some s
  | Some _ => None
  end.

Fixpoint decodeFilter (l : object) : option (list (string * string)) :=
  match l with
  | [] => Some []
  | (k, v) :: l => s ← decodeText (Some v); rest ← decodeFilter l; Some ((k, s) :: rest)
  end.

Definition decodePattern (v : json) : option EventPattern :=
  match v with
  | JNull => Some (mkEventPattern "" "" [])
  | JObj o =>
      type ← decodeText (get "type" o);
      source ← decodeText (get "source" o);
      filter ← (match get "filter" o with
                | None | Some JNull => Some []
                | Some (JObj l) => decodeFilter l
                | Some _ => None
                end);
      Some (mkEventPattern type source filter)
  | _ => None
  end.

(** The events of [parseConfig]; [None] is a configuration that does not decode. *)
Definition parseEvents (cfg : object) : option (list EventPattern) :=
  match get "events" cfg with
  | None | Some JNull => Some []
  | Some (JArr l) => mapM decodePattern l
  | Some _ => None
  end.

Section routing.
Context (uuid_String : uuid → string) (number_text : Z → string) (json_text : json → string).

Definition stringifyJSONValue (v : json) : option string :=
  match v with
  | JNull => None
  | JStr s => Some s
  | JNum n => Some (number_text n)
  | JBool b => Some (if b then "true" else "false")
  | v => Some (json_text v)
  end.

Fixpoint descend (current : json) (segments : list string) : option json :=
  match segments with
  | [] => Some current
  | segment :: l =>
      let segment := TrimSpace segment in
      if segment =s "" then None
      else match current with
           | JObj o => next ← get segment o; descend next l
           | _ => None
           end
  end.

Definition extractField (data : object) (fieldPath : string) : option string :=
  let fieldPath := TrimSpace fieldPath in
  if fieldPath =s "" then None
  else v ← descend (JObj data) (Split "." fieldPath); stringifyJSONValue v.

Definition filterHolds (data : object) (entry : string * string) : bool :=
  bool_decide (extractField data entry.1 = Some entry.2).

Definition Matches (p : EventPattern) (evt : IngestedEvent) : bool :=
  matchesEventType (ep_Type p) (ie_Type evt) &&
  ((TrimSpace (ep_Source p) =s "") || (TrimSpace (ep_Source p) =s TrimSpace (ie_Source evt))) &&
  forallb (filterHolds (ie_Data evt)) (ep_Filter p).

(** [EventTrigger.Matches] and [matchingTriggers]. *)
Definition triggerMatches (patterns : list EventPattern) (evt : IngestedEvent) : bool :=
  existsb (λ p, Matches p evt) patterns.

(** A life-cycle event of the bus, its payload decoded. *)
Record LifecycleEvent := mkLifecycleEvent {
  le_Type : string;
  le_Sequence : Z;
  le_JobID : uuid;
  le_RunID : uuid;
  le_TaskID : uuid;
  le_Timestamp : option string;
  le_Payload : option json;
}.

Definition lifecycleEventData (evt : LifecycleEvent) : object :=
  let data := match le_Payload evt with
              | None => []
              | Some (JObj o) => o
              | Some v => [("payload", v)]
              end in
  let data := set "event_type" (JStr (le_Type evt)) data in
  let data := if le_Sequence evt =? 0 then data else set "sequence" (JNum (le_Sequence evt)) data in
  let data := if (le_JobID evt =? uuid_Nil)%N then data else set "job_id" (JStr (uuid_String (le_JobID evt))) data in
  let data := if (le_RunID evt =? uuid_Nil)%N then data else set "run_id" (JStr (uuid_String (le_RunID evt))) data in
  let data := if (le_TaskID evt =? uuid_Nil)%N then data else set "task_id" (JStr (uuid_String (le_TaskID evt))) data in
  match le_Timestamp evt with None => data | Some t => set "timestamp" (JStr t) data end.

Definition TriggerDepthParam : string := "_trigger_depth".

Definition lifecycleTriggerDepth (data : object) : string :=
  match extractField data TriggerDepthParam with
  | Some depth => depth
  | None => default "" (extractField data ("params." +:+ TriggerDepthParam))
  end.

(** [lookup] is the alias of a live job, the empty string when there is none. *)
Definition lifecycleIngestedEvent (lookup : uuid → string) (evt : LifecycleEvent) : IngestedEvent :=
  let data := lifecycleEventData evt in
  let jobAlias := asString (get "job_alias" data) in
  let jobAlias := if (jobAlias =s "") && negb (le_JobID evt =? uuid_Nil)%N then lookup (le_JobID evt) else jobAlias in
  let data := if jobAlias =s "" then data else set "job_alias" (JStr jobAlias) data in
  let depth := lifecycleTriggerDepth data in
  let data := if depth =s "" then data else set TriggerDepthParam (JStr depth) data in
  mkIngestedEvent (le_Type evt) "caesium" data.
End routing.
