(* ===== verification/ChainTheorems.v ===== *)
(** What the trigger chain check guarantees: its search is exact and reports a cycle of
    the graph, and the graph covers the routing of life-cycle events, so that in an
    accepted catalog no job can start itself again through event triggers. *)

From S2P Require Import Prelude Tables Store JobDef StepGraph StepTheorems Validate TriggerChain.

(** * The search *)

Definition chain_edge (g : ChainGraph) (a b : string) : Prop := b ∈ edges_of g a.

(** Consecutive elements are edges. *)
Definition walk (g : ChainGraph) (l : list string) : Prop :=
  ∀ (i : nat) x y, l !! i = Some x → l !! S i = Some y → chain_edge g x y.

Definition closed_walk (g : ChainGraph) (l : list string) : Prop := (∃ a k, l = a :: k ++ [a]) ∧ walk g l.

Definition targets_known (g : ChainGraph) : Prop := ∀ a b, chain_edge g a b → b ∈ dom g.

Section search.
Context (g : ChainGraph).

(** ** The recorded path *)

Lemma walk_drop l n : walk g l → walk g (drop n l).
Proof. intros H i x y. rewrite !lookup_drop. replace (n + S i)%nat with (S (n + i)) by lia. apply H. Qed.

Lemma walk_snoc l a b : walk g (l ++ [a]) → chain_edge g a b → walk g (l ++ [a; b]).
Proof.
  intros H Hab i x y Hx Hy. change [a; b] with ([a] ++ [b]) in Hx, Hy. rewrite (assoc_L (++)) in Hx, Hy.
  apply lookup_snoc_Some in Hy as [[Hi Hy]|[Hi ->]].
  - apply lookup_snoc_Some in Hx as [[_ Hx]|[Hx _]]; [by eapply H|lia].
  - rewrite length_app in Hi. simpl in Hi. apply lookup_snoc_Some in Hx as [[_ Hx]|[Hx _]].
    + apply lookup_snoc_Some in Hx as [[Hlt _]|[_ ->]]; [lia|done].
    + rewrite length_app in Hx. simpl in Hx. lia.
Qed.

Lemma dropUntil_found r l : r ∈ l → ∃ n k, dropUntil r l = Some (r :: k) ∧ drop n l = r :: k.
Proof.
  induction l as [|x l IH]; [by intros ?%elem_of_nil|]. intros H. simpl. destruct (str_eqb x r) eqn:E.
  - apply str_eqb_eq in E as ->. by exists 0%nat, l.
  - apply elem_of_cons in H as [->|H]; [by rewrite str_eqb_refl in E|]. destruct (IH H) as (n & k & E1 & E2).
    exists (S n), k. done.
Qed.

Lemma cycle_path_closed l node next : walk g (l ++ [node]) → next ∈ l ++ [node] → chain_edge g node next →
  closed_walk g (triggerChainCyclePath (l ++ [node]) next).
Proof.
  intros Hw Hin He. unfold triggerChainCyclePath. destruct (dropUntil_found next _ Hin) as (n & k & E1 & E2).
  rewrite E1. simpl. split; [by exists next, k|].
  change (walk g ((next :: k) ++ [next])). rewrite <- E2. pose proof (walk_snoc l node next Hw He) as H.
  apply (walk_drop _ n) in H. change [node; next] with ([node] ++ [next]) in H. rewrite (assoc_L (++)), drop_app_le in H; [exact H|].
  assert (drop n (l ++ [node]) ≠ []) as Hne by (rewrite E2; done).
  destruct (decide (n ≤ length (l ++ [node]))%nat) as [|Hn]; [done|]. rewrite drop_ge in Hne by lia. done.
Qed.

(** Marks in progress are on the stack; an error is a closed walk. *)
Definition call_ok (call : list string → string → Marks → option (list string + Marks)) : Prop :=
  ∀ stack node state r, (∀ v, state !! v = Some visiting → v ∈ stack) → walk g (stack ++ [node]) →
    state !! node = None → call stack node state = Some r →
    match r with
    | inl cycle => closed_walk g cycle
    | inr state' => ∀ v, state' !! v = Some visiting → state !! v = Some visiting
    end.

Lemma chainEach_ok call stack node nexts : call_ok call → ∀ state r,
  (∀ v, state !! v = Some visiting → v ∈ stack ++ [node]) → walk g (stack ++ [node]) →
  (∀ b, b ∈ nexts → chain_edge g node b) → chainEach call (stack ++ [node]) node nexts state = Some r →
  match r with
  | inl cycle => closed_walk g cycle
  | inr state' => ∀ v, state' !! v = Some visiting → v ≠ node ∧ state !! v = Some visiting
  end.
Proof.
  intros Hcall. induction nexts as [|next l IH]; intros state r Hv Hw He; simpl.
  - intros [= <-] v Hx. apply lookup_insert_Some in Hx as [[_ ?]|[? Hx]]; [done|auto].
  - assert (∀ b, b ∈ l → chain_edge g node b) as He' by (intros b Hb; apply He; by right).
    assert (chain_edge g node next) as Hen by (apply He; by left). destruct (state !! next) as [[]|] eqn:E.
    + intros [= <-]. apply cycle_path_closed; [done|by apply Hv|done].
    + by apply IH.
    + destruct (call (stack ++ [node]) next state) as [[cycle|st]|] eqn:Ec; [| |done].
      * intros [= <-]. assert (walk g ((stack ++ [node]) ++ [next])) as Hw'.
        { rewrite <- (assoc_L (++)). by apply walk_snoc. }
        by specialize (Hcall _ _ _ _ Hv Hw' E Ec).
      * assert (walk g ((stack ++ [node]) ++ [next])) as Hw'.
        { rewrite <- (assoc_L (++)). by apply walk_snoc. }
        pose proof (Hcall _ _ _ _ Hv Hw' E Ec) as Hst. intros Hr.
        specialize (IH st r (λ v Hx, Hv v (Hst v Hx)) Hw He' Hr). destruct r; [done|]. intros v Hx.
        destruct (IH v Hx) as [? ?]. auto.
Qed.

Lemma chainVisit_ok fuel : call_ok (chainVisit g fuel).
Proof.
  induction fuel as [|fuel IH]; intros stack node state r Hv Hw Hn; simpl; [done|]. intros Hr.
  apply (chainEach_ok _ _ _ _ IH) in Hr; [| |done|done].
  - destruct r; [done|]. intros v Hx. destruct (Hr v Hx) as [Hne H]. by rewrite lookup_insert_ne in H.
  - intros v Hx. rewrite elem_of_app. apply lookup_insert_Some in Hx as [[-> _]|[_ Hx]]; [right; by left|left; auto].
Qed.

(** ** Agreement with the search of the step graph *)

Definition same_verdict (r : checked Marks) (r' : list string + Marks) : Prop :=
  match r, r' with inr st, inr st' => st = st' | inl _, inl _ => True | _, _ => False end.

Definition simulates (f : string → Marks → option (checked Marks))
    (call : list string → string → Marks → option (list string + Marks)) : Prop :=
  ∀ stack node state r, state !! node = None → f node state = Some r → ∃ r', call stack node state = Some r' ∧ same_verdict r r'.

Lemma chainEach_sim fuel stack node nexts : simulates (visit (edges_of g) fuel) (chainVisit g fuel) → ∀ state r,
  visitEach (visit (edges_of g) fuel) node nexts state = Some r →
  ∃ r', chainEach (chainVisit g fuel) stack node nexts state = Some r' ∧ same_verdict r r'.
Proof.
  intros Hsim. induction nexts as [|next l IH]; intros state r; cbn [visitEach chainEach].
  - intros [= <-]. by eexists.
  - destruct (state !! next) as [m|] eqn:E.
    + destruct fuel as [|fuel]; [done|]. cbn [visit]. rewrite E. destruct m; [|by apply IH].
      intros [= <-]. by eexists.
    + destruct (visit (edges_of g) fuel next state) as [[e|st]|] eqn:Ev; [| |done].
      * intros [= <-]. destruct (Hsim stack next state _ E Ev) as ([cycle|?] & -> & Hs); [by eexists|done].
      * intros Hr. destruct (Hsim stack next state _ E Ev) as ([?|st'] & -> & Hs); [done|]. simpl in Hs. subst. by apply IH.
Qed.

Lemma chainVisit_sim fuel : simulates (visit (edges_of g) fuel) (chainVisit g fuel).
Proof.
  induction fuel as [|fuel IH]; intros stack node state r Hn; [done|]. cbn [visit chainVisit]. rewrite Hn.
  by apply chainEach_sim.
Qed.

Lemma chainVisitAll_sim fuel nodes : ∀ state r, (∀ v, state !! v ≠ Some visiting) →
  visitAll (edges_of g) fuel nodes state = Some r → ∃ r', chainVisitAll g fuel nodes state = Some r' ∧ same_verdict r r' ∧
    match r' with inl cycle => closed_walk g cycle | inr _ => True end.
Proof.
  induction nodes as [|node l IH]; intros state r Hno; cbn [visitAll chainVisitAll]; [intros [= <-]; by exists (inr state)|].
  destruct (state !! node) as [m|] eqn:E.
  - destruct fuel as [|fuel]; [done|]. cbn [visit]. rewrite E. destruct m; [by apply Hno in E|]. by apply IH.
  - destruct (visit (edges_of g) fuel node state) as [v|] eqn:Ev; [|done].
    destruct (chainVisit_sim fuel [] node state v E Ev) as (r1 & E1 & Hs).
    pose proof (chainVisit_ok fuel [] node state r1) as Hok. rewrite E1.
    assert (walk g ([] ++ [node])) as Hw by (intros i x y Hx Hy; simpl in Hy; by rewrite lookup_nil in Hy).
    specialize (Hok (λ v Hv, False_ind _ (Hno v Hv)) Hw E E1). destruct v as [e|st], r1 as [cycle|st']; try done.
    + intros [= <-]. by exists (inl cycle).
    + simpl in Hs. subst. apply IH. intros v Hv. by apply Hok, Hno in Hv.
Qed.

Hypothesis known : targets_known g.

(** The search over all aliases, with the fuel of the code. *)
Lemma chain_search_exact nodes : (∀ n, n ∈ nodes ↔ n ∈ dom g) →
  (∃ st, chainVisitAll g (S (size g)) nodes ∅ = Some (inr st) ∧ ∀ n, ¬ tc (chain_edge g) n n) ∨
  (∃ cycle, chainVisitAll g (S (size g)) nodes ∅ = Some (inl cycle) ∧ closed_walk g cycle).
Proof using known.
  intros Hn. assert (∀ n s, n ∈ dom g → s ∈ edges_of g n → s ∈ dom g) as Hcl by (intros n s _ Hs; by eapply known).
  assert (∀ v, (∅ : Marks) !! v ≠ Some visiting) as Hno by (intros v; by rewrite lookup_empty).
  destruct (visitAll_outcome (edges_of g) (dom g) Hcl (S (size g)) nodes ∅) as [(st & E & [_ (rank & N & Hr)] & _ & Hall)|(n & E & _)].
  - rewrite size_dom. lia.
  - intros n. apply Hn.
  - split; [set_solver|]. exists (λ _, 0%nat), 0%nat. intros n H. by rewrite lookup_empty in H.
  - done.
  - destruct (chainVisitAll_sim _ _ _ _ Hno E) as ([?|st'] & E' & Hs & _); [done|]. left. exists st'. split; [done|]. intros n Hc.
    assert (∀ a b, tc (chain_edge g) a b → (rank b < rank a)%nat) as Hlt.
    { assert (∀ a b, chain_edge g a b → (rank b < rank a)%nat) as H1.
      { intros a b Hab. destruct (Hr a) as [_ Hs']; [|by apply Hs']. apply Hall, Hn. unfold chain_edge, edges_of in Hab.
        destruct (g !! a) eqn:Ea; [by eapply elem_of_dom_2|by apply elem_of_nil in Hab]. }
      induction 1 as [a b H|a b c H _ IH]; [auto|]. specialize (H1 _ _ H). lia. }
    specialize (Hlt _ _ Hc). lia.
  - destruct (chainVisitAll_sim _ _ _ _ Hno E) as ([cycle|?] & E' & Hs & Hw); [|by destruct Hs]. right. eauto.
Qed.
End search.

Lemma sorted_edges g a b : chain_edge (sort_stable str_less <$> g) a b ↔ chain_edge g a b.
Proof.
  unfold chain_edge, edges_of. rewrite lookup_fmap. destruct (g !! a); simpl; [|done]. by rewrite (sort_stable_perm str_less).
Qed.

Lemma tc_edges (R S : string → string → Prop) a b : (∀ a b, R a b → S a b) → tc R a b → tc S a b.
Proof. intros H. induction 1; [apply tc_once; auto|eapply tc_l; eauto]. Qed.

Lemma reject_exact g : targets_known g →
  (rejectTriggerChainCycle g = inr () ∧ ∀ n, ¬ tc (chain_edge g) n n) ∨
  (∃ cycle, rejectTriggerChainCycle g = inl (ErrTriggerChainCycle cycle) ∧ closed_walk g cycle).
Proof.
  intros Hk. unfold rejectTriggerChainCycle. set (g' := sort_stable str_less <$> g).
  assert (targets_known g') as Hk' by (intros a b Hab%sorted_edges%Hk; unfold g'; by rewrite dom_fmap).
  destruct (chain_search_exact g' Hk' (sort_stable str_less (elements (dom g')))) as [(st & -> & Ha)|(cycle & -> & Hw)].
  - intros n. rewrite (sort_stable_perm str_less). apply elem_of_elements.
  - left. split; [done|]. intros n Hc. apply (Ha n). eapply tc_edges; [|exact Hc]. intros a b. apply sorted_edges.
  - right. exists cycle. split; [done|]. destruct Hw as [Hc Hw]. split; [done|]. intros i x y Hx Hy. by apply sorted_edges, (Hw i).
Qed.

(** * The graph *)

Lemma edge_added g from to a b : chain_edge (addTriggerChainEdge g from to) a b ↔
  chain_edge g a b ∨ (a = TrimSpace from ∧ b = TrimSpace to ∧ a ≠ "" ∧ b ≠ "").
Proof.
  unfold addTriggerChainEdge. cbv zeta. set (f := TrimSpace from). set (t := TrimSpace to).
  destruct ((f =s "") || (t =s "")) eqn:Ee.
  { apply orb_true_iff in Ee. rewrite !str_eqb_eq in Ee. naive_solver. }
  apply orb_false_iff in Ee as [Hf Ht]. apply bool_decide_eq_false in Hf, Ht.
  destruct (existsb (λ existing, existing =s t) (edges_of g f)) eqn:Ex.
  - apply existsb_exists in Ex as (x & Hx & ->%str_eqb_eq). apply list_elem_of_In in Hx. unfold chain_edge. naive_solver.
  - unfold chain_edge, edges_of. destruct (decide (a = f)) as [->|Hne].
    + rewrite lookup_insert_eq. simpl. rewrite elem_of_app, list_elem_of_singleton. fold (edges_of g f). naive_solver.
    + rewrite lookup_insert_ne by done. naive_solver.
Qed.

Lemma dom_added g from to : dom g ⊆ dom (addTriggerChainEdge g from to).
Proof. unfold addTriggerChainEdge. cbv zeta. repeat case_match; set_solver. Qed.

Lemma fold_edges to known : ∀ g a b, chain_edge (fold_left (λ g alias, addTriggerChainEdge g alias to) known g) a b ↔
  chain_edge g a b ∨ ((∃ s, s ∈ known ∧ a = TrimSpace s) ∧ b = TrimSpace to ∧ a ≠ "" ∧ b ≠ "").
Proof.
  induction known as [|s known IH]; intros g a b; simpl.
  - split; [auto|]. intros [?|[(s & Hs & _) _]]; [done|by apply elem_of_nil in Hs].
  - rewrite IH, edge_added. setoid_rewrite elem_of_cons. split.
    + intros [[?|(-> & -> & ? & ?)]|[(s' & ? & ?) ?]]; [by left|right; split; [by exists s; auto|done]|right; split; [by exists s'; auto|done]].
    + intros [?|[(s' & [->|?] & ->) (-> & ? & ?)]]; [by left; left|by left; right|right; split; [by exists s'|done]].
Qed.

Lemma fold_dom to known : ∀ g, dom g ⊆ dom (fold_left (λ g alias, addTriggerChainEdge g alias to) known g).
Proof. induction known as [|s known IH]; intros g; simpl; [done|]. etransitivity; [apply dom_added|apply IH]. Qed.

(** The aliases whose runs a pattern may react to. *)
Definition pattern_source (known : list string) (ids : gmap string string) (p : triggerChainPattern) (a : string) : Prop :=
  patternCanMatchCaesiumLifecycle p = true ∧
  match triggerChainPatternSourceAlias p ids with
  | Some s => a = TrimSpace s
  | None => ∃ s, s ∈ known ∧ a = TrimSpace s
  end.

Lemma edge_pattern known ids to g p a b : chain_edge (addPattern known ids to g p) a b ↔
  chain_edge g a b ∨ (pattern_source known ids p a ∧ b = TrimSpace to ∧ a ≠ "" ∧ b ≠ "").
Proof.
  unfold addPattern, pattern_source. destruct (patternCanMatchCaesiumLifecycle p); simpl; [|naive_solver].
  destruct (triggerChainPatternSourceAlias p ids); [rewrite edge_added|rewrite fold_edges]; naive_solver.
Qed.

Lemma dom_pattern known ids to g p : dom g ⊆ dom (addPattern known ids to g p).
Proof. unfold addPattern. repeat case_match; [done|apply dom_added|apply fold_dom]. Qed.

Lemma edge_patterns known ids to ps : ∀ g a b, chain_edge (fold_left (addPattern known ids to) ps g) a b ↔
  chain_edge g a b ∨ ((∃ p, p ∈ ps ∧ pattern_source known ids p a) ∧ b = TrimSpace to ∧ a ≠ "" ∧ b ≠ "").
Proof.
  induction ps as [|p ps IH]; intros g a b; simpl.
  - split; [auto|]. intros [?|[(s & Hs & _) _]]; [done|by apply elem_of_nil in Hs].
  - rewrite IH, edge_pattern. setoid_rewrite elem_of_cons. split.
    + intros [[?|(? & -> & ? & ?)]|[(p' & ? & ?) ?]]; [by left|right; split; [by exists p; auto|done]|right; split; [by exists p'; auto|done]].
    + intros [?|[(p' & [->|?] & ?) (-> & ? & ?)]]; [by left; left|by left; right|right; split; [by exists p'|done]].
Qed.

Lemma dom_patterns known ids to ps : ∀ g, dom g ⊆ dom (fold_left (addPattern known ids to) ps g).
Proof. induction ps as [|p ps IH]; intros g; simpl; [done|]. etransitivity; [apply dom_pattern|apply IH]. Qed.

(** The trigger of [n] reacts to runs of [a]. *)
Definition reacts (known : list string) (ids : gmap string string) (n : triggerChainNode) (a : string) : Prop :=
  cn_triggerType n = TriggerEvent ∧ ∃ ps p, triggerChainPatterns (cn_configuration n) = inr ps ∧ p ∈ ps ∧ pattern_source known ids p a.

Lemma wrap_ok {A} f (m : checked A) r : wrap f m = inr r ↔ m = inr r.
Proof. destruct m; naive_solver. Qed.

Lemma edge_nodes known ids nodes : ∀ g g', addNodes known ids nodes g = inr g' → dom g ⊆ dom g' ∧ ∀ a b,
  chain_edge g' a b ↔ chain_edge g a b ∨ ∃ n, n ∈ nodes ∧ reacts known ids n a ∧ b = TrimSpace (cn_alias n) ∧ a ≠ "" ∧ b ≠ "".
Proof.
  induction nodes as [|n nodes IH]; intros g g'; simpl.
  - intros [= <-]. split; [done|]. intros a b. split; [auto|]. intros [?|(n & Hn & _)]; [done|by apply elem_of_nil in Hn].
  - change TriggerTypeEvent with TriggerEvent. rewrite <- negb_orb, orb_diag. destruct (str_eqb (cn_triggerType n) TriggerEvent) eqn:Et; simpl.
    + apply str_eqb_eq in Et. intros (ps & Hps & H)%bind_ok. apply wrap_ok in Hps. apply IH in H as [Hd H]. split.
      { etransitivity; [apply dom_patterns|exact Hd]. }
      intros a b. rewrite H, edge_patterns. setoid_rewrite elem_of_cons. split.
      * intros [[?|[(p & Hp & Hs) (-> & ? & ?)]]|(n' & Hn' & ?)]; [by left|right; exists n; split_and!; [by left| |done..]|right; eauto].
        split; [done|]. eauto.
      * intros [?|(n' & [->|Hn'] & Hr & -> & ? & ?)]; [by left; left| |right; exists n'; by split_and!].
        left; right. destruct Hr as (_ & ps' & p & Hps' & Hp & Hs). split; [|done]. exists p. split; [congruence|done].
    + intros H. apply IH in H as [Hd H]. split; [done|]. intros a b. rewrite H. setoid_rewrite elem_of_cons. split.
      * intros [?|(n' & ? & ?)]; [by left|right; eauto].
      * intros [?|(n' & [->|Hn'] & Hr)]; [by left| |by right; eauto].
        destruct Hr as [[Ht _] _]. rewrite Ht in Et. by rewrite str_eqb_refl in Et.
Qed.

Definition nodes_wf (nodes : list triggerChainNode) : Prop :=
  ∀ n, n ∈ nodes → cn_alias n ≠ "" ∧ TrimSpace (cn_alias n) = cn_alias n.

Lemma emptyGraph_fold nodes : ∀ g, nodes_wf nodes → (∀ a, edges_of g a = []) →
  let g' := fold_left (λ g n, if (cn_alias n =s "") || bool_decide (is_Some (g !! cn_alias n)) then g else <[cn_alias n := []]> g) nodes g in
  (∀ a, edges_of g' a = []) ∧ ∀ a, a ∈ dom g' ↔ a ∈ dom g ∨ ∃ n, n ∈ nodes ∧ cn_alias n = a.
Proof.
  induction nodes as [|n nodes IH]; intros g Hwf Hg; simpl.
  - split; [done|]. intros a. split; [auto|]. intros [?|(n & Hn & _)]; [done|by apply elem_of_nil in Hn].
  - destruct (Hwf n) as [Hne _]; [by left|]. rewrite (proj2 (bool_decide_eq_false (cn_alias n = "")) Hne : (_ =s "") = false). simpl.
    setoid_rewrite elem_of_cons. destruct (bool_decide (is_Some (g !! cn_alias n))) eqn:E.
    + apply bool_decide_eq_true, elem_of_dom in E. destruct (IH g) as [H1 H2]; [intros k Hk; apply Hwf; by right|done|].
      split; [done|]. intros a. rewrite H2. naive_solver.
    + destruct (IH (<[cn_alias n := []]> g)) as [H1 H2]; [intros k Hk; apply Hwf; by right| |].
      { intros a. unfold edges_of. destruct (decide (a = cn_alias n)) as [->|]; [by rewrite lookup_insert_eq|].
        rewrite lookup_insert_ne by done. apply Hg. }
      split; [done|]. intros a. rewrite H2, dom_insert. set_solver.
Qed.

Definition known_aliases (nodes : list triggerChainNode) : list string := sort_stable str_less (elements (dom (emptyGraph nodes))).

Lemma known_elem nodes a : nodes_wf nodes → a ∈ known_aliases nodes ↔ ∃ n, n ∈ nodes ∧ cn_alias n = a.
Proof.
  intros Hwf. unfold known_aliases, emptyGraph. rewrite (sort_stable_perm str_less), elem_of_elements.
  destruct (emptyGraph_fold nodes ∅ Hwf) as [_ ->]; [by intros a'; unfold edges_of; rewrite lookup_empty|].
  rewrite dom_empty. set_solver.
Qed.

(** The edges of the graph are the reactions of the triggers. *)
Lemma graph_edges uuid_String nodes g : nodes_wf nodes → triggerChainGraph uuid_String nodes = inr g →
  targets_known g ∧ ∀ a b, chain_edge g a b ↔
    ∃ n, n ∈ nodes ∧ cn_alias n = b ∧ a ≠ "" ∧ reacts (known_aliases nodes) (jobIDAliases uuid_String nodes) n a.
Proof.
  intros Hwf H. unfold triggerChainGraph in H. fold (known_aliases nodes) in H. apply edge_nodes in H as [Hd H].
  destruct (emptyGraph_fold nodes ∅ Hwf) as [H1 H2]; [by intros a'; unfold edges_of; rewrite lookup_empty|]. fold (emptyGraph nodes) in *.
  assert (∀ a b, chain_edge g a b ↔
    ∃ n, n ∈ nodes ∧ cn_alias n = b ∧ a ≠ "" ∧ reacts (known_aliases nodes) (jobIDAliases uuid_String nodes) n a) as HE.
  { intros a b. rewrite H. unfold chain_edge. rewrite H1. split.
    - intros [?%elem_of_nil|(n & Hn & Hr & -> & ? & ?)]; [done|]. exists n. destruct (Hwf n Hn) as [_ ->]. done.
    - intros (n & Hn & <- & ? & Hr). right. exists n. destruct (Hwf n Hn) as [? ->]. done. }
  split; [|done]. intros a b (n & Hn & <- & _)%HE. apply Hd, H2. right. eauto.
Qed.

(** * Routing *)

Lemma get_set k v data : get k (set k v data) = Some v.
Proof. unfold set. simpl. by rewrite str_eqb_refl. Qed.

Lemma get_set_ne k k' v data : k ≠ k' → get k (set k' v data) = get k data.
Proof.
  intros H. unfold set. simpl. assert ((k' =s k) = false) as -> by (apply bool_decide_eq_false; congruence).
  induction data as [|[x w] data IH]; [done|]. simpl. destruct (str_eqb x k') eqn:E; simpl.
  - apply str_eqb_eq in E as ->. assert ((k' =s k) = false) as -> by (apply bool_decide_eq_false; congruence). done.
  - by rewrite IH.
Qed.

Lemma get_elem {V} k (l : list (string * V)) v : get k l = Some v → (k, v) ∈ l.
Proof.
  induction l as [|[x w] l IH]; [done|]. simpl. destruct (str_eqb x k) eqn:E; [|intros H; right; auto].
  apply str_eqb_eq in E as ->. intros [= ->]. by left.
Qed.

Lemma decodeFilter_entry l ps k v : decodeFilter l = Some ps → (k, v) ∈ stringEntries l → (k, v) ∈ ps.
Proof.
  revert ps. induction l as [|[x w] l IH]; intros ps; simpl; [by intros _ ?%elem_of_nil|].
  intros (s & Hs & H)%bind_Some. apply bind_Some in H as (rest & Hr & [= <-]).
  destruct w; simpl in Hs; simplify_eq; intros Hin; try (right; by apply IH).
  apply elem_of_cons in Hin as [[= -> ->]|Hin]; [by left|right; by apply IH].
Qed.

(** A pattern that decodes for routing decodes for the check to one with the same type and
    source and no filter entry it does not have. *)
Lemma pattern_decoded idx v ep : decodePattern v = Some ep → v ≠ JNull → ∃ p, chainPattern idx v = inr p ∧
  tp_eventType p = ep_Type ep ∧ tp_source p = ep_Source ep ∧ ∀ k s, get k (tp_filter p) = Some s → (k, s) ∈ ep_Filter ep.
Proof.
  assert (∀ w t, decodeText w = Some t → asString w = t) as HT by (intros [[]|] t; simpl; intros; simplify_eq; done).
  destruct v as [| | | | |o]; simpl; try done. intros (t & Ht & H)%bind_Some _. apply bind_Some in H as (s & Hs & H).
  apply bind_Some in H as (f & Hf & [= <-]). destruct (get "filter" o) as [[]|]; simplify_eq; eexists; (split; [reflexivity|]);
    simpl; (split; [by apply HT|]); (split; [by apply HT|]); intros k s0; try done.
  intros Hg%get_elem. by eapply decodeFilter_entry.
Qed.

Lemma patterns_decoded l : ∀ idx ps eps ep, chainPatterns idx l = inr ps → mapM decodePattern l = Some eps → ep ∈ eps →
  ∃ p, p ∈ ps ∧ tp_eventType p = ep_Type ep ∧ tp_source p = ep_Source ep ∧ ∀ k s, get k (tp_filter p) = Some s → (k, s) ∈ ep_Filter ep.
Proof.
  induction l as [|v l IH]; intros idx ps eps ep; simpl.
  - intros _ [= <-] H. by apply elem_of_nil in H.
  - intros (p & Hp & H)%bind_ok. apply bind_ok in H as (rest & Hr & [= <-]).
    intros (x & Hx & H)%bind_Some. apply bind_Some in H as (xs & Hxs & [= <-]). intros [->|Hin]%elem_of_cons.
    + destruct (pattern_decoded idx v x Hx) as (p' & Hp' & Hrest); [by intros ->|]. assert (p' = p) as -> by congruence. exists p. split; [by left|done].
    + destruct (IH _ _ _ _ Hr Hxs Hin) as (p' & Hp' & ?). exists p'. split; [by right|done].
Qed.

Lemma events_decoded cfg ps eps ep : triggerChainPatterns cfg = inr ps → parseEvents cfg = Some eps → ep ∈ eps →
  ∃ p, p ∈ ps ∧ tp_eventType p = ep_Type ep ∧ tp_source p = ep_Source ep ∧ ∀ k s, get k (tp_filter p) = Some s → (k, s) ∈ ep_Filter ep.
Proof.
  unfold triggerChainPatterns, parseEvents. destruct (get "events" cfg) as [[]|]; intros; simplify_eq; try done;
    try by apply elem_of_nil in H1. by eapply patterns_decoded.
Qed.

Lemma addNodes_decoded known ids nodes : ∀ g g' n, addNodes known ids nodes g = inr g' → n ∈ nodes → cn_triggerType n = TriggerEvent →
  ∃ ps, triggerChainPatterns (cn_configuration n) = inr ps.
Proof.
  induction nodes as [|x nodes IH]; intros g g' n; simpl; [by intros _ ?%elem_of_nil|].
  change TriggerTypeEvent with TriggerEvent. rewrite <- negb_orb, orb_diag. intros H Hin Ht.
  apply elem_of_cons in Hin as [->|Hin].
  - rewrite Ht, str_eqb_refl in H. simpl in H. apply bind_ok in H as (ps & Hps & _). apply wrap_ok in Hps. eauto.
  - destruct (negb _); [by eapply IH|]. apply bind_ok in H as (ps & _ & H). by eapply IH.
Qed.

Section routed.
Context (uuid_String : uuid → string) (number_text : Z → string) (json_text : json → string) (lookup : uuid → string).
Hypothesis uuid_text : ∀ u, uuid_String u ≠ "" ∧ TrimSpace (uuid_String u) = uuid_String u.
Hypothesis uuid_inj : ∀ u v, uuid_String u = uuid_String v → u = v.

(** A life-cycle event of the bus about a run of the job [u]: its payload, if it names the
    job, names it by the alias the catalog has. *)
Record run_event_of (u : uuid) (evt : LifecycleEvent) : Prop := {
  re_type : le_Type evt ∈ lifecycleEventTypes;
  re_job : le_JobID evt = u;
  re_payload : match le_Payload evt with
               | Some (JObj o) => asString (get "job_alias" o) = "" ∨ asString (get "job_alias" o) = lookup u
               | _ => True
               end;
}.

Lemma extract_key data k v : TrimSpace k = k → k ≠ "" → Split "." k = [k] → get k data = Some (JStr v) →
  extractField number_text json_text data k = Some v.
Proof.
  intros Ht Hne Hs Hg. unfold extractField. rewrite Ht, (proj2 (bool_decide_eq_false (k = "")) Hne : (_ =s "") = false), Hs. simpl.
  rewrite Ht, (proj2 (bool_decide_eq_false (k = "")) Hne : (_ =s "") = false), Hg. done.
Qed.

Lemma lifecycle_data_get k evt : k ∈ ["job_alias"; "job_id"] → get k (lifecycleEventData uuid_String evt) =
  if k =s "job_id" then if (le_JobID evt =? uuid_Nil)%N then get k (match le_Payload evt with None => [] | Some (JObj o) => o | Some v => [("payload", v)] end)
                        else Some (JStr (uuid_String (le_JobID evt)))
  else get k (match le_Payload evt with None => [] | Some (JObj o) => o | Some v => [("payload", v)] end).
Proof.
  intros Hk. unfold lifecycleEventData. cbv zeta. rewrite !elem_of_cons, elem_of_nil in Hk.
  destruct Hk as [->|[->|[]]]; simpl; repeat case_match; rewrite ?get_set_ne by done; rewrite ?get_set; done.
Qed.

(** The event names the job by its alias and its identifier. *)
Lemma routed_fields u evt : u ≠ uuid_Nil → lookup u ≠ "" → run_event_of u evt →
  let data := ie_Data (lifecycleIngestedEvent uuid_String number_text json_text lookup evt) in
  extractField number_text json_text data "job_alias" = Some (lookup u) ∧
  extractField number_text json_text data "job_id" = Some (uuid_String u).
Proof.
  intros Hu Hl [_ Hj Hp]. unfold lifecycleIngestedEvent. cbv zeta. cbn [ie_Data].
  assert ((if (asString (get "job_alias" (lifecycleEventData uuid_String evt)) =s "") && negb (le_JobID evt =? uuid_Nil)%N
           then lookup (le_JobID evt) else asString (get "job_alias" (lifecycleEventData uuid_String evt))) = lookup u) as ->.
  { rewrite lifecycle_data_get by (by left). rewrite Hj, (proj2 (N.eqb_neq _ _) Hu).
    change ("job_alias" =s "job_id") with false. cbn [negb]. rewrite andb_true_r.
    set (v := asString _). destruct (str_eqb v "") eqn:E; [done|].
    assert (v = "" ∨ v = lookup u) as [Hv|Hv]; [|by rewrite Hv in E|done].
    unfold v. destruct (le_Payload evt) as [[]|]; try by left. done. }
  rewrite (proj2 (bool_decide_eq_false (lookup u = "")) Hl : (_ =s "") = false).
  set (data := set "job_alias" (JStr (lookup u)) (lifecycleEventData uuid_String evt)).
  set (depth := lifecycleTriggerDepth _ _ data). split; apply extract_key; try done; destruct (str_eqb depth ""); rewrite ?get_set_ne by done; unfold data.
  - apply get_set.
  - apply get_set.
  - rewrite get_set_ne by done. rewrite lifecycle_data_get by (right; by left). by rewrite Hj, (proj2 (N.eqb_neq _ _) Hu).
  - rewrite get_set_ne by done. rewrite lifecycle_data_get by (right; by left). by rewrite Hj, (proj2 (N.eqb_neq _ _) Hu).
Qed.

(** ** Soundness of the graph *)

Definition ids_agree (nodes : list triggerChainNode) : Prop :=
  ∀ n m, n ∈ nodes → m ∈ nodes → cn_id n = cn_id m → cn_id n ≠ uuid_Nil → cn_alias n = cn_alias m.

Lemma jobIDAliases_fold nodes n u : cn_id n = u → u ≠ uuid_Nil → cn_alias n ≠ "" →
  ∀ m : gmap string string, (∀ k, k ∈ nodes → cn_id k = u → cn_alias k = cn_alias n) →
  (n ∈ nodes ∨ m !! uuid_String u = Some (cn_alias n)) →
  fold_left (λ m n, if (cn_alias n =s "") || (cn_id n =? uuid_Nil)%N then m else <[uuid_String (cn_id n) := cn_alias n]> m) nodes m
    !! uuid_String u = Some (cn_alias n).
Proof using uuid_inj.
  intros Hid Hu Hne. induction nodes as [|x nodes IH]; intros m Hall Hin; simpl; [destruct Hin as [?%elem_of_nil|]; done|].
  apply IH; [intros k Hk; apply Hall; by right|]. destruct (decide (cn_id x = u)) as [Ex|Ex].
  - right. rewrite Ex, (proj2 (N.eqb_neq _ _) Hu), (Hall x) by (done || by left).
    rewrite (proj2 (bool_decide_eq_false (cn_alias n = "")) Hne : (_ =s "") = false). simpl. apply lookup_insert_eq.
  - destruct Hin as [Hin|Hin].
    + apply elem_of_cons in Hin as [->|Hin]; [done|by left].
    + right. destruct (_ || _); [done|]. rewrite lookup_insert_ne; [done|]. intros E%uuid_inj. done.
Qed.

(** The identifier of a job at run time: the one it has in the catalog or, for a job the
    batch creates, one that no pattern can name yet. *)
Definition runs_as (nodes : list triggerChainNode) (n : triggerChainNode) (u : uuid) : Prop :=
  u ≠ uuid_Nil ∧ TrimSpace (lookup u) = cn_alias n ∧
  (cn_id n = u ∨
   ∀ m ps p s, m ∈ nodes → triggerChainPatterns (cn_configuration m) = inr ps → p ∈ ps →
     get "job_id" (tp_filter p) = Some s → TrimSpace s ≠ uuid_String u).

(** The router starts [b] on a life-cycle event of a run of [a]. *)
Definition can_start (nodes : list triggerChainNode) (a b : string) : Prop :=
  ∃ n m u evt patterns, n ∈ nodes ∧ m ∈ nodes ∧ cn_alias n = a ∧ cn_alias m = b ∧ runs_as nodes n u ∧ run_event_of u evt ∧
    cn_triggerType m = TriggerEvent ∧ parseEvents (cn_configuration m) = Some patterns ∧
    triggerMatches number_text json_text patterns (lifecycleIngestedEvent uuid_String number_text json_text lookup evt) = true.

(** A filter entry of a matching pattern holds of the event. *)
Lemma filter_entry ep evt k s : Matches number_text json_text ep evt = true → (k, s) ∈ ep_Filter ep →
  extractField number_text json_text (ie_Data evt) k = Some s.
Proof.
  unfold Matches. rewrite !andb_true_iff. intros [_ H] Hin. rewrite forallb_forall in H. apply list_elem_of_In, H in Hin.
  by apply bool_decide_eq_true in Hin.
Qed.

Lemma matching_pattern_lifecycle ep p evt : run_event_of (le_JobID evt) evt → tp_eventType p = ep_Type ep → tp_source p = ep_Source ep →
  Matches number_text json_text ep (lifecycleIngestedEvent uuid_String number_text json_text lookup evt) = true →
  patternCanMatchCaesiumLifecycle p = true.
Proof.
  intros [Hty _ _] Ht Hs H. unfold Matches in H. rewrite !andb_true_iff in H. destruct H as [[H1 H2] _].
  change (ie_Type (lifecycleIngestedEvent uuid_String number_text json_text lookup evt)) with (le_Type evt) in H1.
  change (TrimSpace (ie_Source (lifecycleIngestedEvent uuid_String number_text json_text lookup evt))) with "caesium" in H2.
  unfold patternCanMatchCaesiumLifecycle. rewrite Ht, Hs. rewrite <- negb_orb, H2. apply existsb_exists. exists (le_Type evt).
  split; [by apply list_elem_of_In|done].
Qed.

Lemma routed_edge nodes g a b : nodes_wf nodes → ids_agree nodes → triggerChainGraph uuid_String nodes = inr g →
  can_start nodes a b → chain_edge g a b.
Proof using uuid_text uuid_inj.
  intros Hwf Hids Hg (n & m & u & evt & eps & Hn & Hm & <- & <- & (Hu & Hl & Hid) & Hev & Ht & Hp & Hmatch).
  destruct (Hwf n Hn) as [Hne Htrim]. destruct (graph_edges _ _ _ Hwf Hg) as [_ HE]. apply HE. exists m.
  split_and!; [done..|]. split; [done|]. unfold triggerChainGraph in Hg. destruct (addNodes_decoded _ _ _ _ _ _ Hg Hm Ht) as [ps Hps].
  unfold triggerMatches in Hmatch. apply existsb_exists in Hmatch as (ep & Hep%list_elem_of_In & Hmatch).
  destruct (events_decoded _ _ _ _ Hps Hp Hep) as (p & Hin & Hty & Hsrc & Hf). exists ps, p. split_and!; [done..|].
  assert (lookup u ≠ "") as Hlu by (intros E; rewrite E in Hl; by simpl in Hl; rewrite <- Hl in Hne).
  assert (le_JobID evt = u) as Hj by (by destruct Hev). destruct (routed_fields u evt Hu Hlu Hev) as [FA FI].
  assert (∀ s, get "job_alias" (tp_filter p) = Some s → s = lookup u) as HA.
  { intros s Hs. pose proof (filter_entry _ _ _ _ Hmatch (Hf _ _ Hs)). congruence. }
  assert (∀ s, get "job_id" (tp_filter p) = Some s → s = uuid_String u) as HI.
  { intros s Hs. pose proof (filter_entry _ _ _ _ Hmatch (Hf _ _ Hs)). congruence. }
  split; [eapply matching_pattern_lifecycle; [by rewrite Hj|done..]|].
  unfold triggerChainPatternSourceAlias. cbv zeta.
  assert ((∃ s, s ∈ known_aliases nodes ∧ cn_alias n = TrimSpace s)) as Hknown.
  { exists (cn_alias n). split; [apply known_elem; [done|eauto]|done]. }
  assert (is_Some (get "job_id" (tp_filter p)) → jobIDAliases uuid_String nodes !! uuid_String u = Some (cn_alias n)) as HJ.
  { intros [si Hsi]. destruct Hid as [Hid|Hid].
    - apply jobIDAliases_fold; [done..| |by left]. intros k Hk Ek. symmetry. by apply Hids; [..|congruence|congruence].
    - exfalso. apply (Hid m ps p si Hm Hps Hin Hsi). rewrite (HI _ Hsi). apply uuid_text. }
  destruct (get "job_alias" (tp_filter p)) as [sa|] eqn:Ea; destruct (get "job_id" (tp_filter p)) as [si|] eqn:Ei; simpl;
    try (rewrite (HA _ eq_refl), Hl, (proj2 (bool_decide_eq_false (cn_alias n = "")) Hne : (_ =s "") = false));
    try (rewrite (HI _ eq_refl), (proj2 (uuid_text u)), (proj2 (bool_decide_eq_false (uuid_String u = "")) (proj1 (uuid_text u)) : (_ =s "") = false), HJ by done);
    simpl; rewrite ?(proj2 (bool_decide_eq_false (cn_alias n = "")) Hne : (_ =s "") = false), ?str_eqb_refl; simpl; done.
Qed.
End routed.

(** * The nodes of a batch *)

Lemma incoming_wf defs : ∀ idx seen nodes, incomingNodes idx seen defs = inr nodes → nodes_wf nodes.
Proof.
  induction defs as [|d defs IH]; intros idx seen nodes; simpl; [intros [= <-] n Hn; by apply elem_of_nil in Hn|].
  intros (u1 & R1 & H)%bind_ok. apply require_ok, negb_true_iff, bool_decide_eq_false in R1.
  apply bind_ok in H as (u2 & _ & H). apply bind_ok in H as (rest & Hr & [= <-]).
  intros n [->|Hn]%elem_of_cons; [|by eapply IH]. split; [exact R1|apply TrimSpace_idemp].
Qed.

Lemma incoming_aliases defs : ∀ idx seen nodes, incomingNodes idx seen defs = inr nodes →
  NoDup (map cn_alias nodes) ∧ ∀ n, n ∈ nodes → cn_alias n ∉ seen ∧ cn_id n = uuid_Nil.
Proof.
  induction defs as [|d defs IH]; intros idx seen nodes; simpl.
  - intros [= <-]. split; [constructor|]. intros n Hn. by apply elem_of_nil in Hn.
  - intros (u1 & R1 & H)%bind_ok. apply bind_ok in H as (u2 & R2 & H). apply require_ok, bool_decide_eq_true in R2.
    apply bind_ok in H as (rest & Hr & [= <-]). destruct (IH _ _ _ Hr) as [Hnd Hs]. split.
    + simpl. constructor; [|done]. intros (n & En & Hn)%list_elem_of_In%in_map_iff. apply list_elem_of_In, Hs in Hn as [Hn _].
      rewrite En in Hn. set_solver.
    + intros n [->|Hn]%elem_of_cons; [done|]. apply Hs in Hn. set_solver.
Qed.

Lemma existing_nodes inc ids rows : ∀ nodes n, existingTriggerChainNodes inc ids rows = inr nodes → n ∈ nodes →
  cn_alias n ≠ "" ∧ cn_id n ∉ ids ∧ ∃ row, row ∈ rows ∧ cn_id n = cr_ID row ∧ cn_alias n = TrimSpace (cr_Alias row).
Proof.
  induction rows as [|r rows IH]; intros nodes n; simpl; [intros [= <-] Hn; by apply elem_of_nil in Hn|].
  destruct ((TrimSpace (cr_Alias r) =s "") || _ || _) eqn:E.
  - intros H Hn. destruct (IH _ _ H Hn) as (? & ? & row & ? & ?). split_and!; [done..|]. exists row. split; [by right|done].
  - rewrite !orb_false_iff in E. destruct E as [[E1 _] E3]. apply bool_decide_eq_false in E1, E3.
    intros (cfg & _ & H)%bind_ok Hn. apply bind_ok in H as (rest & Hr & [= <-]). apply elem_of_cons in Hn as [->|Hn].
    + split_and!; [done|done|]. exists r. split; [by left|done].
    + destruct (IH _ _ Hr Hn) as (? & ? & row & ? & ?). split_and!; [done..|]. exists row. split; [by right|done].
Qed.

Lemma job_ids_found rows : ∀ (m : gmap string uuid) a u,
  fold_left (λ ids row, let alias := TrimSpace row.2 in
    if (alias =s "") || (row.1 =? uuid_Nil)%N then ids else <[alias := row.1]> ids) rows m !! a = Some u →
  m !! a = Some u ∨ ∃ row : uuid * string, row ∈ rows ∧ row.1 = u ∧ TrimSpace row.2 = a.
Proof.
  induction rows as [|r rows IH]; intros m a u; simpl; [auto|]. intros [H|(row & Hr & H)]%IH.
  - destruct (_ || _); [auto|]. apply lookup_insert_Some in H as [[<- <-]|[_ H]]; [|auto]. right. exists r. split; [by left|done].
  - right. exists row. split; [by right|done].
Qed.

Lemma chain_nodes_wf jobs rows defs nodes : triggerChainNodes jobs rows defs = inr nodes → nodes_wf nodes.
Proof.
  intros (inc & Hinc & H)%bind_ok. apply bind_ok in H as (ex & Hex & [= <-]). pose proof (incoming_wf _ _ _ _ Hinc) as Hwf.
  intros n [Hn|Hn]%elem_of_app.
  - apply list_elem_of_In, in_map_iff in Hn as (i & <- & Hi%list_elem_of_In). exact (Hwf i Hi).
  - destruct (existing_nodes _ _ _ _ _ Hex Hn) as (? & _ & r & _ & _ & Er). split; [done|]. rewrite Er. apply TrimSpace_idemp.
Qed.

(** In a catalog whose jobs have identifiers of their own, two nodes with the same
    identifier are the same job. *)
Lemma nodes_ok jobs rows defs nodes : NoDup (map fst jobs) → (∀ r, r ∈ rows → (cr_ID r, cr_Alias r) ∈ jobs) →
  triggerChainNodes jobs rows defs = inr nodes → ids_agree nodes.
Proof.
  intros Hnd Hrows (inc & Hinc & H)%bind_ok. apply bind_ok in H as (ex & Hex & [= <-]).
  set (ids := existingJobIDsByAlias jobs _) in *. destruct (incoming_aliases _ _ _ _ Hinc) as [_ Hnil].
  assert (∀ a u, ids !! a = Some u → ∃ r, r ∈ jobs ∧ r.1 = u ∧ TrimSpace r.2 = a) as Hids.
  { intros a u Hu. unfold ids, existingJobIDsByAlias in Hu. apply job_ids_found in Hu as [Hu|(r & Hr & ?)]; [by rewrite lookup_empty in Hu|].
    apply select_elem in Hr as [Hr _]. eauto. }
  (* The job behind an identifier. *)
  assert (∀ n, n ∈ map (withID ids) inc ++ ex → cn_id n ≠ uuid_Nil → ∃ r, r ∈ jobs ∧ r.1 = cn_id n ∧ TrimSpace r.2 = cn_alias n) as Hjob.
  { intros n [Hn|Hn]%elem_of_app Hne.
    - apply list_elem_of_In, in_map_iff in Hn as (i & <- & Hi%list_elem_of_In). simpl in *.
      destruct (ids !! cn_alias i) as [u|] eqn:E; [by apply Hids|]. apply Hnil in Hi as [_ Hi]. congruence.
    - destruct (existing_nodes _ _ _ _ _ Hex Hn) as (_ & _ & r & Hr & -> & ->). exists (cr_ID r, cr_Alias r). split; [by apply Hrows|done]. }
  intros n m Hn Hm E Hne. destruct (Hjob n Hn Hne) as (r & Hr & Er & <-). destruct (Hjob m Hm) as (r' & Hr' & Er' & <-); [congruence|].
  assert (r = r') as ->; [|done]. eapply (NoDup_map_eq fst); [exact Hnd|done|done|congruence].
Qed.

(** C15: an accepted batch has no trigger chain that closes. Let the texts of identifiers
    be injective and without blanks, the catalog list each job once, and its triggers
    belong to listed jobs. When the check accepts a batch against the catalog, the
    relation "the router starts a run of b on a life-cycle event of a run of a", decided
    by the patterns, sources and filters the router evaluates, has no cycle among the jobs
    of the batch and of the catalog; a run of a listed job has the identifier listed, and
    a run of a job the batch creates (or revives) has one that no pattern's job_id filter
    names. The last condition is needed for a revived job, see
    [revived_job_evades_cycle_check]. *)
Theorem trigger_chains_acyclic uuid_String number_text json_text lookup jobs rows defs :
  (∀ u, uuid_String u ≠ "" ∧ TrimSpace (uuid_String u) = uuid_String u) → (∀ u v, uuid_String u = uuid_String v → u = v) →
  NoDup (map fst jobs) → (∀ r, r ∈ rows → (cr_ID r, cr_Alias r) ∈ jobs) →
  ValidateTriggerChains uuid_String jobs rows defs = inr () →
  ∃ nodes, triggerChainNodes jobs rows defs = inr nodes ∧ ∀ a, ¬ tc (can_start uuid_String number_text json_text lookup nodes) a a.
Proof.
  intros Htext Hinj Hnd Hrows (nodes & Hn & H)%bind_ok. apply bind_ok in H as (g & Hg & Hr). exists nodes. split; [done|]. intros a Ha.
  pose proof (chain_nodes_wf _ _ _ _ Hn) as Hwf. pose proof (nodes_ok _ _ _ _ Hnd Hrows Hn) as Hids. destruct (graph_edges _ _ _ Hwf Hg) as [Hk _].
  destruct (reject_exact g Hk) as [[_ Hno]|(cycle & E & _)]; [|congruence]. apply (Hno a).
  eapply tc_edges; [|exact Ha]. intros x y. by apply routed_edge.
Qed.

(** C38: the check of a batch is exact for the graph it builds. When the triggers of the
    batch and of the catalog decode, the batch is accepted exactly when the graph has no
    cycle, and a refusal names a walk along its edges from an alias back to the same
    alias. The bound on the depth of the search is never reached. *)
Theorem trigger_cycle_exact uuid_String jobs rows defs nodes g :
  triggerChainNodes jobs rows defs = inr nodes → triggerChainGraph uuid_String nodes = inr g →
  (ValidateTriggerChains uuid_String jobs rows defs = inr () ∧ ∀ n, ¬ tc (chain_edge g) n n) ∨
  (∃ cycle, ValidateTriggerChains uuid_String jobs rows defs = inl (ErrTriggerChainCycle cycle) ∧ closed_walk g cycle).
Proof.
  intros Hn Hg. destruct (graph_edges _ _ _ (chain_nodes_wf _ _ _ _ Hn) Hg) as [Hk _].
  unfold ValidateTriggerChains. rewrite Hn. simpl. rewrite Hg. apply (reject_exact g Hk).
Qed.

(** * A catalog of two jobs and a batch of one *)

Fixpoint tally (n : nat) : string := match n with O => "j" | S n => String "j" (tally n) end.

Lemma tally_trim n : trim_right (tally n) = tally n.
Proof. induction n as [|n IH]; [done|]. simpl. rewrite IH. by destruct n. Qed.

Lemma tally_inj n : ∀ m, tally n = tally m → n = m.
Proof. induction n as [|n IH]; intros [|m]; simpl; [done|by destruct m|by destruct n|]. intros [= ?%IH]. congruence. Qed.

Definition demo_uuid_text (u : uuid) : string := tally (N.to_nat u).

Lemma demo_text_ok u : demo_uuid_text u ≠ "" ∧ TrimSpace (demo_uuid_text u) = demo_uuid_text u.
Proof.
  unfold demo_uuid_text, TrimSpace. split; [by destruct (N.to_nat u)|].
  rewrite trim_left_id by (by destruct (N.to_nat u)). apply tally_trim.
Qed.

Lemma demo_text_inj u v : demo_uuid_text u = demo_uuid_text v → u = v.
Proof. intros H%tally_inj. lia. Qed.

Definition event_config (filter : list (string * json)) : object :=
  [("events", JArr [JObj [("type", JStr "run_*"); ("source", JStr "caesium"); ("filter", JObj filter)]])].

Definition event_job (alias : string) (filter : list (string * json)) : Definition_ :=
  mkDefinition "v1" "Job" (mkMetadata alias "" None [] "" false None None "" ∅ None)
    (mkTrigger "event" (Some (event_config filter)) []) [] [] [].

Definition chain_jobs : list (uuid * string) := [(1%N, "extract"); (2%N, "transform")].

(** [transform] follows [extract] by its identifier, the batch adds [load] after [transform]. *)
Definition chain_rows : list ChainRow :=
  [mkChainRow 1 "extract" "cron" BlobEmpty;
   mkChainRow 2 "transform" "event" (BlobJson (JObj (event_config [("job_id", JStr (demo_uuid_text 1))])))].

Definition chain_batch : list Definition_ := [event_job "load" [("job_alias", JStr "transform")]].

Definition chain_lookup (u : uuid) : string := if (u =? 1)%N then "extract" else if (u =? 2)%N then "transform" else "".

Definition chain_nodes : list triggerChainNode :=
  match triggerChainNodes chain_jobs chain_rows chain_batch with inr nodes => nodes | inl _ => [] end.

Lemma chain_rows_jobs r : r ∈ chain_rows → (cr_ID r, cr_Alias r) ∈ chain_jobs.
Proof. intros H. assert (Forall (λ r, (cr_ID r, cr_Alias r) ∈ chain_jobs) chain_rows) as HF by (repeat constructor). by eapply Forall_forall in HF. Qed.

Lemma chain_starts : can_start demo_uuid_text (λ _, "") (λ _, "") chain_lookup chain_nodes "extract" "transform".
Proof.
  exists (mkChainNode 1 "extract" "cron" []),
    (mkChainNode 2 "transform" "event" (event_config [("job_id", JStr (demo_uuid_text 1))])), 1%N,
    (mkLifecycleEvent TypeRunCompleted 7 1 50 uuid_Nil None None),
    [mkEventPattern "run_*" "caesium" [("job_id", demo_uuid_text 1)]].
  split; [right; left|]. split; [right; right; left|]. repeat (split; [done|]).
  split; [by split_and!; [|done|left]|]. split; [by constructor; [left|..]|]. repeat (split; [done|]). vm_compute. reflexivity.
Qed.

Lemma trigger_chains_acyclic_witness : ValidateTriggerChains demo_uuid_text chain_jobs chain_rows chain_batch = inr () ∧
  can_start demo_uuid_text (λ _, "") (λ _, "") chain_lookup chain_nodes "extract" "transform" ∧
  ∀ a, ¬ tc (can_start demo_uuid_text (λ _, "") (λ _, "") chain_lookup chain_nodes) a a.
Proof.
  assert (ValidateTriggerChains demo_uuid_text chain_jobs chain_rows chain_batch = inr ()) as H by (vm_compute; reflexivity).
  split; [exact H|]. split; [exact chain_starts|].
  destruct (trigger_chains_acyclic demo_uuid_text (λ _, "") (λ _, "") chain_lookup chain_jobs chain_rows chain_batch
              demo_text_ok demo_text_inj) as (nodes & Hn & Ha); [|exact chain_rows_jobs|exact H|].
  - apply (proj1 (bool_decide_eq_true (NoDup (map fst chain_jobs)))). vm_compute. reflexivity.
  - unfold chain_nodes. rewrite Hn. exact Ha.
Defined.

(** A batch that makes [extract] follow [transform] closes the chain. *)
Definition closing_batch : list Definition_ := [event_job "extract" [("job_alias", JStr "transform")]].

Lemma trigger_cycle_exact_witness : ∃ nodes g cycle,
  triggerChainNodes chain_jobs chain_rows closing_batch = inr nodes ∧ triggerChainGraph demo_uuid_text nodes = inr g ∧
  ValidateTriggerChains demo_uuid_text chain_jobs chain_rows closing_batch = inl (ErrTriggerChainCycle cycle) ∧
  cycle = ["extract"; "transform"; "extract"] ∧ closed_walk g cycle.
Proof.
  destruct (triggerChainNodes chain_jobs chain_rows closing_batch) as [e|nodes] eqn:Hn; [vm_compute in Hn; discriminate Hn|].
  destruct (triggerChainGraph demo_uuid_text nodes) as [e|g] eqn:Hg.
  { exfalso. vm_compute in Hn. injection Hn as <-. vm_compute in Hg. discriminate Hg. }
  assert (ValidateTriggerChains demo_uuid_text chain_jobs chain_rows closing_batch =
    inl (ErrTriggerChainCycle ["extract"; "transform"; "extract"])) as V by (vm_compute; reflexivity).
  destruct (trigger_cycle_exact demo_uuid_text chain_jobs chain_rows closing_batch nodes g Hn Hg) as [[E _]|(cycle & E & Hc)].
  - rewrite V in E. discriminate E.
  - exists nodes, g, ["extract"; "transform"; "extract"]. rewrite V in E. injection E as E.
    destruct cycle as [|x [|y [|z [|]]]]; try discriminate E. injection E as <- <- <-.
    split; [reflexivity|]. split; [exact Hg|]. split; [exact V|]. split; [reflexivity|]. exact Hc.
Defined.
