(* ===== verification/EventTrigger.v ===== *)
(** Event triggers (internal/trigger/event/event.go) and the router that fires them
    (router.go) with the store of ingested events (internal/event/ingest_store.go): the
    configuration of a trigger, the parameters it extracts from an event, the depth of a
    chain of triggered runs, and the routing transaction that starts the runs. *)

From S2P Require Import Prelude Tables Store RunOps JobDef StepGraph Validate TriggerChain Importer.

(** * Decimal integers: [strconv.Itoa] and [strconv.Atoi] at 64 bits *)

Definition digit (n : Z) : ascii := ascii_of_N (Z.to_N (48 + n)).

Fixpoint itoa_go (fuel : nat) (n : Z) (s : string) : string :=
  match fuel with
  | O => s
  | S fuel => if n <? 10 then String (digit n) s else itoa_go fuel (n / 10) (String (digit (n mod 10)) s)
  end.

(** A 64-bit integer has at most 19 digits. *)
Definition Itoa (n : Z) : string := if n <? 0 then String "-" (itoa_go 20 (- n) "") else itoa_go 20 n "".

Fixpoint digits_val (acc : Z) (s : string) : option Z :=
  match s with
  | EmptyString => Some acc
  | String c s =>
      let d := Z.of_N (N_of_ascii c) - 48 in
      if (0 <=? d) && (d <=? 9) then digits_val (acc * 10 + d) s else None
  end.

Definition atoi_unsigned (s : string) : option Z := if s =s "" then None else digits_val 0 s.

(** [None] is a syntax or range error. *)
Definition Atoi (s : string) : option Z :=
  match s with
  | String "-" s => n ← atoi_unsigned s; if n <=? 2 ^ 63 then Some (- n) else None
  | String "+" s => n ← atoi_unsigned s; if n <? 2 ^ 63 then Some n else None
  | s => n ← atoi_unsigned s; if n <? 2 ^ 63 then Some n else None
  end.

(** * Configuration *)

Abbreviation Params := (gmap string string).

Record Config := mkConfig { cfg_Events : list EventPattern; cfg_ParamMapping : Params; cfg_DefaultParams : Params }.

Definition decodeParams (v : option json) : option Params :=
  match v with
  | None | Some JNull => Some ∅
  | Some (JObj l) => entries ← decodeFilter l; Some (list_to_map entries)
  | Some _ => None
  end.

(** [json.Unmarshal] into [Config]; null leaves the empty configuration. *)
Definition parseConfig (raw : blob) : option Config :=
  match raw with
  | BlobEmpty | BlobJson JNull => Some (mkConfig [] ∅ ∅)
  | BlobJson (JObj cfg) =>
      events ← parseEvents cfg;
      mapping ← decodeParams (get "paramMapping" cfg);
      defaults ← decodeParams (get "defaultParams" cfg);
      Some (mkConfig events mapping defaults)
  | _ => None
  end.

Definition mergedParams (c : Config) (params : Params) : Params := params ∪ cfg_DefaultParams c.

(** * Parameters of an event *)

(** The segments of one part of a path: a name followed by indices in brackets. *)
Fixpoint parseJSONPathSegment (fuel : nat) (segment : string) : option (list string) :=
  match fuel with
  | O => None
  | S fuel =>
      if segment =s "" then Some []
      else
        match SplitN2 "[" segment with
        | (_, None) => Some [segment]
        | (name, Some rest) =>
            match SplitN2 "]" rest with
            | (_, None) => None
            | (index, Some rest) =>
                if index =s "" then None
                else
                  _ ← Atoi index;
                  parts ← parseJSONPathSegment fuel rest;
                  Some ((if name =s "" then [] else [name]) ++ index :: parts)
            end
        end
  end.

Fixpoint parseParts (raw : list string) : option (list string) :=
  match raw with
  | [] => Some []
  | segment :: l =>
      let segment := TrimSpace segment in
      if segment =s "" then None
      else parsed ← parseJSONPathSegment (S (String.length segment)) segment; rest ← parseParts l; Some (parsed ++ rest)
  end.

(** The empty list stands for a path without segments, which resolves to nothing. *)
Definition parseJSONPath (jsonPath : string) : list string :=
  let jsonPath := TrimSpace jsonPath in
  if jsonPath =s "" then []
  else if jsonPath =s "$" then []
  else
    let jsonPath := if String.prefix "$." jsonPath then TrimPrefix "$." jsonPath
                    else if String.prefix "$" jsonPath then TrimPrefix "." (TrimPrefix "$" jsonPath) else jsonPath in
    if jsonPath =s "" then [] else default [] (parseParts (Split "." jsonPath)).

Definition descendJSONPath (current : json) (segment : string) : option json :=
  match current with
  | JObj o => get segment o
  | JArr l =>
      index ← Atoi segment;
      if (index <? 0) || (Z.of_nat (length l) <=? index) then None else l !! Z.to_nat index
  | _ => None
  end.

Fixpoint descendAll (current : json) (segments : list string) : option json :=
  match segments with
  | [] => Some current
  | segment :: l => next ← descendJSONPath current segment; descendAll next l
  end.

Section extract.
Context (number_text : Z → string) (json_text : json → string).

Definition resolveJSONPath (payload : json) (jsonPath : string) : option string :=
  if TrimSpace jsonPath =s "$" then stringifyJSONValue number_text json_text payload
  else
    match parseJSONPath jsonPath with
    | [] => None
    | segments => v ← descendAll payload segments; stringifyJSONValue number_text json_text v
    end.

Definition extractParams (data : object) (mapping : Params) : Params := omap (resolveJSONPath (JObj data)) mapping.

(** * The depth of a trigger chain *)

Definition isCaesiumLifecycleEvent (evt : IngestedEvent) : bool :=
  (ie_Source evt =s "caesium") && existsb (λ typ, ie_Type evt =s typ) lifecycleEventTypes.

Definition withLifecycleTriggerDepth (evt : IngestedEvent) (params : Params) : Params :=
  if negb (isCaesiumLifecycleEvent evt) then params
  else
    let extracted := lifecycleTriggerDepth number_text json_text (ie_Data evt) in
    <[TriggerDepthParam := if extracted =s "" then "0" else extracted]> params.
End extract.

Definition defaultMaxTriggerDepth : Z := 10.

Definition ErrTriggerChainDepthExceeded : string := "trigger chain depth exceeded".

(** A depth that is not a natural number counts as 0. *)
Definition readDepth (rawDepth : string) : Z :=
  match Atoi (TrimSpace rawDepth) with
  | Some depth => if depth <? 0 then 0 else depth
  | None => 0
  end.

Definition effectiveMaxDepth (maxTriggerDepth : Z) : Z := if maxTriggerDepth <=? 0 then defaultMaxTriggerDepth else maxTriggerDepth.

Definition applyTriggerDepth (maxTriggerDepth : Z) (params : Params) : string + Params :=
  match params !! TriggerDepthParam with
  | None => inr params
  | Some rawDepth =>
      let depth := readDepth rawDepth in
      if effectiveMaxDepth maxTriggerDepth <=? depth then inl ErrTriggerChainDepthExceeded
      else inr (<[TriggerDepthParam := Itoa (depth + 1)]> params)
  end.

(** * Triggers *)

Record EventTrigger := mkEventTrigger { et_id : uuid; et_config : Config; et_maxTriggerDepth : Z }.

(** [MaxTriggerDepth] of the environment, or the default. *)
Definition configuredMaxTriggerDepth (maxDepth : Z) : Z := if maxDepth <=? 0 then defaultMaxTriggerDepth else maxDepth.

(** [New]; [None] is a trigger of another type or with a configuration that does not decode. *)
Definition newEventTrigger (envMaxDepth : Z) (t : TriggerRow) : option EventTrigger :=
  if negb (tgr_Type t =s TriggerTypeEvent) then None
  else cfg ← parseConfig (tgr_Configuration t); Some (mkEventTrigger (tgr_ID t) cfg (configuredMaxTriggerDepth envMaxDepth)).

(** The live event triggers of the catalog. *)
Definition ListByEventPattern (c : Catalog) : list TriggerRow :=
  select (λ t, (tgr_Type t =s TriggerTypeEvent) && negb (tgr_Deleted t)) (c_triggers c).

(** The live HTTP triggers that a webhook path addresses. *)
Definition ListByPath (path : string) (c : Catalog) : list TriggerRow :=
  let normalizedPath := NormalizedTriggerPath path in
  if normalizedPath =s "" then []
  else select (λ t, (tgr_Type t =s TriggerHTTP) && (tgr_NormalizedPath t =s normalizedPath) && negb (tgr_Deleted t)) (c_triggers c).

(** [None]: one trigger does not load, and the router keeps the set it had. *)
Definition Reload (envMaxDepth : Z) (c : Catalog) : option (list EventTrigger) :=
  mapM (newEventTrigger envMaxDepth) (ListByEventPattern c).

Definition matchingTriggers (number_text : Z → string) (json_text : json → string) (triggers : list EventTrigger) (evt : IngestedEvent)
    : list EventTrigger :=
  List.filter (λ t, triggerMatches number_text json_text (cfg_Events (et_config t)) evt) triggers.

(** * Firing *)

Record FireOutcome := mkFireOutcome {
  fo_JobID : uuid;
  fo_RunID : uuid;
  fo_Skipped : bool;
  fo_SkipReason : string;
  fo_Error : option store_error;
}.

(** What the surroundings decide for one start: fresh identifiers, the database errors of
    its attempts, and whether the context is cancelled when it fails. *)
Record StartCall := mkStartCall {
  sc_newID : uuid;
  sc_queueID : uuid;
  sc_faults : nat → option store_error;
  sc_cancelled : bool;
}.

(** [json.Marshal] of the parameters, when there are any. *)
Definition marshalParams (params : Params) : blob :=
  if bool_decide (params = ∅) then BlobEmpty else BlobJson (JObj (map (λ p, (p.1, JStr p.2)) (map_to_list params))).

Definition fireRequest (triggerID jobID : uuid) (params : Params) : startRunRequest :=
  mkStartRunRequest jobID (Some triggerID) None (marshalParams params) "" false false.

Inductive fire_error : Type :=
| ErrDepth (e : string)
| ErrListJobs (e : store_error)
| ErrCancelled.

Definition skipped (jobID : uuid) (reason : string) : FireOutcome := mkFireOutcome jobID uuid_Nil true reason None.

(** One start: its outcome, whether the loop goes on, and the database. *)
Definition fireJob (env : RunEnv) (now : Z) (triggerID : uuid) (params : Params) (call : StartCall) (j : Job) (db : DB)
    : FireOutcome * bool * DB :=
  if j_Paused j then (skipped (j_ID j) "job paused", true, db)
  else
    match startRun (sc_faults call) (sc_newID call) (sc_queueID call) now env (fireRequest triggerID (j_ID j) params) db with
    | (inl ErrRunSkipped, db) => (skipped (j_ID j) "max concurrency reached", true, db)
    | (inl ErrMaxConcurrentRunsReached, db) => (skipped (j_ID j) "max concurrency reached; run rejected", true, db)
    | (inl ErrRunQueued, db) => (skipped (j_ID j) "queued", true, db)
    | (inl e, db) => (mkFireOutcome (j_ID j) uuid_Nil false "" (Some e), negb (sc_cancelled call), db)
    | (inr None, db) => (skipped (j_ID j) "no run created", true, db)
    | (inr (Some runID), db) => (mkFireOutcome (j_ID j) runID false "" None, true, db)
    end.

Fixpoint fireJobs (env : RunEnv) (now : Z) (triggerID : uuid) (params : Params) (calls : nat → StartCall) (i : nat)
    (jobs : list Job) (db : DB) : list FireOutcome * option fire_error * DB :=
  match jobs with
  | [] => ([], None, db)
  | j :: l =>
      let '(outcome, go_on, db) := fireJob env now triggerID params (calls i) j db in
      if negb go_on then ([outcome], Some ErrCancelled, db)
      else let '(outcomes, e, db) := fireJobs env now triggerID params calls (S i) l db in (outcome :: outcomes, e, db)
  end.

(** [jsvc.List] for a trigger. *)
Definition listJobs (triggerID : uuid) (db : DB) : list Job := select (λ j, (j_TriggerID j =? triggerID)%N) (jobs db).

Definition FireWithParams (env : RunEnv) (now : Z) (listError : option store_error) (calls : nat → StartCall) (t : EventTrigger)
    (params : Params) (db : DB) : list FireOutcome * option fire_error * DB :=
  match applyTriggerDepth (et_maxTriggerDepth t) (mergedParams (et_config t) params) with
  | inl e => ([], Some (ErrDepth e), db)
  | inr mergedParams =>
      match listError with
      | Some e => ([], Some (ErrListJobs e), db)
      | None =>
          match listJobs (et_id t) db with
          | [] => ([skipped uuid_Nil "no jobs registered for trigger"], None, db)
          | jobs => fireJobs env now (et_id t) mergedParams calls 0 jobs db
          end
      end
  end.

(** * Results *)

Record TriggerRouteResult := mkTriggerRouteResult {
  rr_TriggerID : uuid;
  rr_RunsStarted : list uuid;
  rr_Skipped : bool;
  rr_SkipReason : string;
  rr_Error : string;
}.

Record RouteResult := mkRouteResult {
  ro_EventID : uuid;
  ro_EventType : string;
  ro_Source : string;
  ro_MatchedTriggers : list TriggerRouteResult;
}.

Record IngestedRow := mkIngestedRow { ir_ID : uuid; ir_Event : IngestedEvent }.

Record EventTriggerMatch := mkEventTriggerMatch {
  em_EventID : uuid;
  em_TriggerID : uuid;
  em_RunsStarted : list uuid;
  em_Skipped : bool;
  em_SkipReason : string;
  em_Error : string;
}.

Definition fireOutcomeRunIDs (outcomes : list FireOutcome) : list uuid :=
  List.filter (λ id, negb (id =? uuid_Nil)%N) (map fo_RunID outcomes).

Definition fireOutcomesSkipped (outcomes : list FireOutcome) : bool := forallb fo_Skipped outcomes.

Section router.
Context (uuid_String : uuid → string) (number_text : Z → string) (json_text : json → string)
  (error_text : store_error → string) (fire_error_text : fire_error → string).

Definition labelled (jobID : uuid) (text : string) : string :=
  if (jobID =? uuid_Nil)%N then text else uuid_String jobID +:+ ": " +:+ text.

Definition fireOutcomeErrors (outcomes : list FireOutcome) : string :=
  String.concat "; " (omap (λ o, match fo_Error o with
                                 | Some e => if error_text e =s "" then None else Some (labelled (fo_JobID o) (error_text e))
                                 | None => None
                                 end) outcomes).

Definition fireOutcomeSkipReason (outcomes : list FireOutcome) : string :=
  String.concat "; " (omap (λ o, if fo_Skipped o && negb (fo_SkipReason o =s "")
                                 then Some (labelled (fo_JobID o) (fo_SkipReason o)) else None) outcomes).

Definition triggerRouteResult (triggerID : uuid) (outcomes : list FireOutcome) (fireErr : option fire_error) : TriggerRouteResult :=
  let started := fireOutcomeRunIDs outcomes in
  let skipped := match fireErr with Some _ => false | None => fireOutcomesSkipped outcomes end in
  mkTriggerRouteResult triggerID started (match started with [] => skipped | _ => false end)
    (fireOutcomeSkipReason outcomes)
    (match fireErr with Some e => fire_error_text e | None => fireOutcomeErrors outcomes end).

Definition eventTriggerMatchRow (eventID : uuid) (result : TriggerRouteResult) : EventTriggerMatch :=
  mkEventTriggerMatch eventID (rr_TriggerID result) (rr_RunsStarted result) (rr_Skipped result) (rr_SkipReason result) (rr_Error result).

(** * Routing *)

(** The tables of the router beside those of the run store. *)
Record EventStore := mkEventStore { es_db : DB; es_events : list IngestedRow; es_matches : list EventTriggerMatch }.

Inductive route_error : Type :=
| ErrTypeRequired
| ErrMatchIncomplete
| ErrEventStore (e : store_error).

(** What the surroundings decide for one call: the identifier of the event, the errors of
    the two inserts and of the job listings, and the starts of each trigger. *)
Record RouteCall := mkRouteCall {
  rc_eventID : uuid;
  rc_now : Z;
  rc_queueMaxDepth : Z;
  rc_createError : option store_error;
  rc_recordError : option store_error;
  rc_listError : nat → option store_error;
  rc_calls : nat → nat → StartCall;
}.

(** [IngestStore.CreateTx]: the event is stored, and from then on seen, with its type and
    source trimmed. *)
Definition CreateTx (call : RouteCall) (evt : IngestedEvent) (s : EventStore) : route_error + IngestedEvent * EventStore :=
  let evt := mkIngestedEvent (TrimSpace (ie_Type evt)) (TrimSpace (ie_Source evt)) (ie_Data evt) in
  if ie_Type evt =s "" then inl ErrTypeRequired
  else
    match rc_createError call with
    | Some e => inl (ErrEventStore e)
    | None => inr (evt, mkEventStore (es_db s) (es_events s ++ [mkIngestedRow (rc_eventID call) evt]) (es_matches s))
    end.

Definition RecordMatchesTx (call : RouteCall) (matches : list EventTriggerMatch) (s : EventStore) : route_error + EventStore :=
  match matches with
  | [] => inr s
  | _ =>
      if existsb (λ m, (em_EventID m =? uuid_Nil)%N || (em_TriggerID m =? uuid_Nil)%N) matches then inl ErrMatchIncomplete
      else
        match rc_recordError call with
        | Some e => inl (ErrEventStore e)
        | None => inr (mkEventStore (es_db s) (es_events s) (es_matches s ++ matches))
        end
  end.

(** The store of the routing transaction has no lease store. *)
Definition routeEnv (call : RouteCall) : RunEnv := mkRunEnv (rc_queueMaxDepth call) None.

Fixpoint fireTriggers (call : RouteCall) (evt : IngestedEvent) (i : nat) (triggers : list EventTrigger) (db : DB)
    : list TriggerRouteResult * DB :=
  match triggers with
  | [] => ([], db)
  | t :: l =>
      let params := extractParams number_text json_text (ie_Data evt) (cfg_ParamMapping (et_config t)) in
      let params := withLifecycleTriggerDepth number_text json_text evt params in
      let '(outcomes, fireErr, db) := FireWithParams (routeEnv call) (rc_now call) (rc_listError call i) (rc_calls call i) t params db in
      let '(results, db) := fireTriggers call evt (S i) l db in
      (triggerRouteResult (et_id t) outcomes fireErr :: results, db)
  end.

(** The runs to launch, which [Route] does after the commit. *)
Definition Route (call : RouteCall) (triggers : list EventTrigger) (evt : IngestedEvent) (s : EventStore)
    : (route_error + RouteResult * list uuid) * EventStore :=
  let matches := matchingTriggers number_text json_text triggers evt in
  match CreateTx call evt s with
  | inl e => (inl e, s)
  | inr (evt, s1) =>
      let '(results, db) := fireTriggers call evt 0 matches (es_db s1) in
      match RecordMatchesTx call (map (eventTriggerMatchRow (rc_eventID call)) results) (mkEventStore db (es_events s1) (es_matches s1)) with
      | inl e => (inl e, s)
      | inr s2 => (inr (mkRouteResult (rc_eventID call) (ie_Type evt) (ie_Source evt) results, flat_map rr_RunsStarted results), s2)
      end
  end.

(** [routeLifecycleEvent]: an error is only logged. *)
Definition routeLifecycleEvent (lookup : uuid → string) (call : RouteCall) (triggers : list EventTrigger) (evt : LifecycleEvent)
    (s : EventStore) : EventStore :=
  (Route call triggers (lifecycleIngestedEvent uuid_String number_text json_text lookup evt) s).2.
End router.

(** * The events of a run *)

(** The parameters of a stored run; what does not decode is no parameters. *)
Definition runParams (raw : blob) : Params :=
  match raw with
  | BlobJson (JObj l) => default ∅ (list_to_map <$> decodeFilter l)
  | _ => ∅
  end.

Definition textField (k text : string) : object := if text =s "" then [] else [(k, JStr text)].

(** [json.Marshal] of the loaded run, field by field; [other] gives the fields that are
    not columns of the modelled row (times, tasks, callbacks, counts, labels). *)
Definition runPayload (uuid_String : uuid → string) (other : string → option json) (jobAlias : string) (r : JobRun) : json :=
  let others := omap (λ k, v ← other k; Some (k, v)) in
  let params := runParams (jr_Params r) in
  JObj ([("id", JStr (uuid_String (jr_ID r))); ("job_id", JStr (uuid_String (jr_JobID r)))] ++
        textField "job_alias" jobAlias ++ others ["job_labels"; "backfill_id"; "trigger_type"; "trigger_alias"] ++
        [("status", JStr (jr_Status r)); ("priority", JNum (jr_Priority r))] ++
        (if bool_decide (params = ∅) then [] else [("params", JObj (map (λ p, (p.1, JStr p.2)) (map_to_list params)))]) ++
        [("quarantine", JBool (jr_Quarantine r))] ++ others ["started_at"; "completed_at"; "created_at"; "updated_at"] ++
        textField "error" (jr_Error r) ++ others ["tasks"; "callbacks"; "cache_hits"; "executed_tasks"; "total_tasks"]).

(** The life-cycle event the store emits for a run that ends. *)
Definition runEvent (uuid_String : uuid → string) (other : string → option json) (jobAlias type : string) (sequence : Z)
    (timestamp : option string) (r : JobRun) : LifecycleEvent :=
  mkLifecycleEvent type sequence (jr_JobID r) (jr_ID r) uuid_Nil timestamp (Some (runPayload uuid_String other jobAlias r)).
