(* ===== verification/EventTheorems.v ===== *)
(** What event triggers guarantee: the depth a chain of triggered runs carries in its
    parameters grows by one with every link and never passes the configured maximum,
    through the queue of runs as well; routing an event has its whole effect or none; and
    an imported event trigger is loaded as it was declared and starts the runs of its job. *)

From S2P Require Import Prelude Tables Store TxLogic RunOps JobDef StepGraph StepTheorems Validate Importer TriggerChain ChainTheorems EventTrigger.

(** * Decimal integers *)

Lemma digit_val n : 0 ≤ n ≤ 9 → Z.of_N (N_of_ascii (digit n)) - 48 = n.
Proof. intros H. unfold digit. rewrite N_ascii_embedding by lia. lia. Qed.

Lemma digits_cons acc n s : 0 ≤ n ≤ 9 → digits_val acc (String (digit n) s) = digits_val (acc * 10 + n) s.
Proof. intros H. simpl. rewrite digit_val by done. by rewrite (proj2 (Z.leb_le 0 n)), (proj2 (Z.leb_le n 9)) by lia. Qed.

Lemma itoa_digits fuel : ∀ n s, 0 ≤ n < 10 ^ Z.of_nat fuel → digits_val 0 (itoa_go fuel n s) = digits_val n s.
Proof.
  induction fuel as [|fuel IH]; intros n s Hn; simpl; [by assert (n = 0) as -> by lia|]. rewrite Nat2Z.inj_succ, Z.pow_succ_r in Hn by lia.
  destruct (Z.ltb_spec n 10); [by rewrite digits_cons by lia|].
  rewrite IH by (split; [apply Z.div_pos; lia|apply Z.div_lt_upper_bound; lia]). pose proof (Z.mod_pos_bound n 10).
  rewrite digits_cons by lia. f_equal. rewrite (Z.div_mod n 10) at 3 by lia. lia.
Qed.

Fixpoint all_digits (s : string) : Prop :=
  match s with EmptyString => True | String c s => (∃ d, 0 ≤ d ≤ 9 ∧ c = digit d) ∧ all_digits s end.

Lemma itoa_all_digits fuel : ∀ n s, 0 ≤ n → all_digits s → all_digits (itoa_go fuel n s).
Proof.
  induction fuel as [|fuel IH]; intros n s Hn Hs; simpl; [done|]. destruct (Z.ltb_spec n 10); [split; [exists n|]; eauto with lia|].
  pose proof (Z.mod_pos_bound n 10). apply IH; [apply Z.div_pos; lia|]. split; [exists (n mod 10)|]; eauto with lia.
Qed.

Lemma itoa_nonempty fuel : ∀ n s, itoa_go (S fuel) n s ≠ "".
Proof. induction fuel as [|fuel IH]; intros n s; cbn [itoa_go]; destruct (n <? 10); [done..|]. apply IH. Qed.

Lemma digit_cases d : 0 ≤ d ≤ 9 → is_space (digit d) = false ∧ digit d ≠ "-"%char ∧ digit d ≠ "+"%char.
Proof.
  intros H. assert (d = 0 ∨ d = 1 ∨ d = 2 ∨ d = 3 ∨ d = 4 ∨ d = 5 ∨ d = 6 ∨ d = 7 ∨ d = 8 ∨ d = 9) as Hd by lia.
  destruct_or! Hd; subst; (split; [reflexivity|split; discriminate]).
Qed.

Lemma digits_trim s : all_digits s → TrimSpace s = s.
Proof.
  intros H. unfold TrimSpace. rewrite trim_left_id; [|destruct s; [done|]; destruct H as [(d & Hd & ->) _]; by apply digit_cases].
  induction s as [|c s IH]; [done|]. destruct H as [(d & Hd & ->) H]. simpl. rewrite (IH H).
  destruct s; [|done]. by rewrite (proj1 (digit_cases d Hd)).
Qed.

(** A depth is read back as it was written. *)
Lemma depth_roundtrip n : 0 ≤ n < 2 ^ 63 → readDepth (Itoa n) = n.
Proof.
  intros Hn. unfold readDepth, Itoa. rewrite (proj2 (Z.ltb_ge n 0)) by lia.
  assert (all_digits (itoa_go 20 n "")) as Had by (apply itoa_all_digits; [lia|done]). rewrite digits_trim by done.
  assert (Atoi (itoa_go 20 n "") = Some n) as ->; [|by rewrite (proj2 (Z.ltb_ge n 0)) by lia].
  pose proof (itoa_digits 20 n "") as Hv. pose proof (itoa_nonempty 19 n "") as Hne. destruct (itoa_go 20 n "") as [|c t] eqn:E; [done|].
  destruct Had as [(d & Hd & ->) _]. destruct (digit_cases d Hd) as (_ & Hm & Hp).
  assert (atoi_unsigned (String (digit d) t) = Some n) as Hu by (unfold atoi_unsigned; simpl (_ =s _); rewrite Hv; [done|lia]).
  assert (Atoi (String (digit d) t) = n ← atoi_unsigned (String (digit d) t); if n <? 2 ^ 63 then Some n else None) as ->.
  { unfold Atoi. revert Hm Hp. clear. destruct (digit d) as [[] [] [] [] [] [] [] []]; intros ? ?; done. }
  rewrite Hu. simpl. by rewrite (proj2 (Z.ltb_lt _ _)) by lia.
Qed.

(** * The depth a life-cycle event carries *)

(** The depth of a chain, as it is stored with a run or a queued request. *)
Definition storedDepth (raw : blob) : Z := readDepth (default "" (runParams raw !! TriggerDepthParam)).

Lemma get_app {V} k (a b : list (string * V)) : get k (a ++ b) = match get k a with Some v => Some v | None => get k b end.
Proof. induction a as [|[k' v] a IH]; simpl; [done|]. by destruct (k' =s k). Qed.

Lemma get_others k (other : string → option json) l : k ∉ l → get k (omap (λ k, v ← other k; Some (k, v)) l) = None.
Proof.
  induction l as [|x l IH]; intros Hk; [done|]. apply not_elem_of_cons in Hk as [Hne Hk]. cbn [omap list_omap].
  destruct (other x) as [v|]; simpl; [|by apply IH]. by rewrite str_eqb_neq, IH.
Qed.

Lemma get_text k k' text : k ≠ k' → get k (textField k' text) = None.
Proof.
  intros Hne. unfold textField. destruct (text =s ""); simpl; [done|].
  by rewrite str_eqb_neq.
Qed.

Lemma get_entries k (l : list (string * string)) : NoDup l.*1 → get k (map (λ p, (p.1, JStr p.2)) l) = JStr <$> (list_to_map l : Params) !! k.
Proof.
  induction l as [|[k' v] l IH]; intros Hn; [done|]. rewrite fmap_cons in Hn. apply NoDup_cons in Hn as [_ Hn]. simpl. destruct (decide (k' = k)) as [->|Hne].
  - by rewrite str_eqb_refl, lookup_insert_eq.
  - by rewrite str_eqb_neq, lookup_insert_ne, IH.
Qed.

Lemma get_params k (p : Params) : get k (map (λ p, (p.1, JStr p.2)) (map_to_list p)) = JStr <$> p !! k.
Proof. rewrite get_entries by apply NoDup_fst_map_to_list. by rewrite list_to_map_to_list. Qed.

Section depth.
Context (uuid_String : uuid → string) (number_text : Z → string) (json_text : json → string) (lookup : uuid → string).
Abbreviation ingested := (lifecycleIngestedEvent uuid_String number_text json_text lookup).

Lemma payload_depth other alias r : match runPayload uuid_String other alias r with
  | JObj o => get TriggerDepthParam o = None ∧
      get "params" o = if bool_decide (runParams (jr_Params r) = ∅) then None
                       else Some (JObj (map (λ p, (p.1, JStr p.2)) (map_to_list (runParams (jr_Params r)))))
  | _ => False
  end.
Proof.
  unfold runPayload. set (p := runParams (jr_Params r)).
  split; rewrite !get_app, ?get_text, ?get_others by (done || set_solver); by destruct (bool_decide (p = ∅)).
Qed.
Lemma data_get evt o k : le_Payload evt = Some (JObj o) →
  k ∉ ["event_type"; "sequence"; "job_id"; "run_id"; "task_id"; "timestamp"] → get k (lifecycleEventData uuid_String evt) = get k o.
Proof.
  intros Ep Hk. unfold lifecycleEventData. rewrite Ep. repeat case_match; rewrite ?get_set_ne by set_solver; done.
Qed.

Lemma descend_object o segment l : descend (JObj o) (segment :: l) =
  if TrimSpace segment =s "" then None else next ← get (TrimSpace segment) o; descend next l.
Proof. reflexivity. Qed.

Lemma depth_of_data data : extractField number_text json_text data TriggerDepthParam =
    (v ← get TriggerDepthParam data; stringifyJSONValue number_text json_text v) ∧
  extractField number_text json_text data ("params." +:+ TriggerDepthParam) =
    (v ← get "params" data; match v with
      | JObj p => v ← get TriggerDepthParam p; stringifyJSONValue number_text json_text v
      | _ => None
      end).
Proof.
  assert (TrimSpace TriggerDepthParam = TriggerDepthParam ∧ Split "." TriggerDepthParam = [TriggerDepthParam]) as [E1 E2] by (split; vm_compute; reflexivity).
  assert (TrimSpace ("params." +:+ TriggerDepthParam) = "params." +:+ TriggerDepthParam ∧
    Split "." ("params." +:+ TriggerDepthParam) = ["params"; TriggerDepthParam] ∧ TrimSpace "params" = "params") as (E3 & E4 & E5) by (split_and!; vm_compute; reflexivity).
  unfold extractField. split; rewrite ?E3, ?E4, ?E1, ?E2, str_eqb_neq, !descend_object, ?E5, ?E1, str_eqb_neq by done.
  - by destruct (get TriggerDepthParam data).
  - destruct (get "params" data) as [v|]; [|done]. cbn [mbind option_bind]. destruct v; try done.
    rewrite descend_object, E1, str_eqb_neq by done. by destruct (get TriggerDepthParam l).
Qed.

(** The event of a run carries the depth stored with the run. *)
Lemma event_depth other alias type seq ts r :
  lifecycleTriggerDepth number_text json_text (ie_Data (ingested (runEvent uuid_String other alias type seq ts r))) =
  default "" (runParams (jr_Params r) !! TriggerDepthParam).
Proof.
  set (evt := runEvent _ _ _ _ _ _ _). pose proof (payload_depth other alias r) as HP.
  destruct (runPayload uuid_String other alias r) as [| | | | |o] eqn:Eo; try done. destruct HP as [Hd Hp].
  assert (le_Payload evt = Some (JObj o)) as Ep by (unfold evt, runEvent; simpl; by rewrite Eo).
  unfold lifecycleIngestedEvent. simpl ie_Data.
  match goal with |- context [lifecycleTriggerDepth _ _ ?d =s ""] => set (data := d) end.
  assert (lifecycleTriggerDepth number_text json_text data = default "" (runParams (jr_Params r) !! TriggerDepthParam)) as E.
  { unfold lifecycleTriggerDepth. destruct (depth_of_data data) as [-> ->].
    assert (∀ k, k ∉ ["event_type"; "sequence"; "job_id"; "run_id"; "task_id"; "timestamp"; "job_alias"] → get k data = get k o) as Hk.
    { intros k Hk. unfold data. destruct (_ =s ""); [|rewrite get_set_ne by set_solver]; apply data_get; set_solver. }
    rewrite (Hk TriggerDepthParam), (Hk "params"), Hd, Hp by set_solver. simpl.
    destruct (bool_decide (runParams (jr_Params r) = ∅)) eqn:Ee; [apply bool_decide_eq_true in Ee; by rewrite Ee, lookup_empty|].
    simpl. rewrite get_params. by destruct (runParams (jr_Params r) !! TriggerDepthParam). }
  destruct (lifecycleTriggerDepth number_text json_text data =s "") eqn:Ez; [exact E|]. rewrite <- E.
  unfold lifecycleTriggerDepth at 1. destruct (depth_of_data (set TriggerDepthParam (JStr (lifecycleTriggerDepth number_text json_text data)) data)) as [-> _].
  by rewrite get_set.
Qed.
End depth.

(** * The rows a start adds *)

(** Rows of runs and of the queue keep their parameters, and new ones carry parameters
    with the property [P]. *)
Definition adds_only (P : blob → Prop) (db db' : DB) : Prop :=
  (∀ r, r ∈ job_runs db' → (∃ r0, r0 ∈ job_runs db ∧ jr_ID r0 = jr_ID r ∧ jr_Params r0 = jr_Params r) ∨ P (jr_Params r)) ∧
  (∀ q, q ∈ run_queue db' → (∃ q0, q0 ∈ run_queue db ∧ rq_ID q0 = rq_ID q ∧ rq_Params q0 = rq_Params q) ∨ P (rq_Params q)).

Section adds.
Context (P : blob → Prop).

#[export] Instance adds_only_preorder : PreOrder (adds_only P).
Proof.
  split; [intros db; split; eauto|]. intros db db1 db2 [A1 B1] [A2 B2]. split.
  - intros r Hr. destruct (A2 r Hr) as [(r1 & H1 & E1 & E2)|]; [|by right].
    destruct (A1 r1 H1) as [(r0 & H0 & E3 & E4)|HP]; [left; exists r0; split_and!; congruence|right; congruence].
  - intros q Hq. destruct (B2 q Hq) as [(q1 & H1 & E1 & E2)|]; [|by right].
    destruct (B1 q1 H1) as [(q0 & H0 & E3 & E4)|HP]; [left; exists q0; split_and!; congruence|right; congruence].
Qed.

Lemma adds_same db db' : job_runs db' = job_runs db → run_queue db' = run_queue db → adds_only P db db'.
Proof. intros E1 E2. split; rewrite ?E1, ?E2; eauto. Qed.

Lemma adds_insert model : P (jr_Params model) → tx_rel (adds_only P) (insert_run model).
Proof.
  intros HP db a db' [= _ <-]. split; [|simpl; eauto]. intros r. simpl. rewrite elem_of_app, list_elem_of_singleton. intros [Hr| ->]; eauto.
Qed.

Lemma adds_finish pred status now err : tx_rel (adds_only P) (UpdateJobRuns pred (finish_run status now err)).
Proof.
  intros db n db'. unfold UpdateJobRuns, Exec. destruct (update_where _ _ _) as [rows k] eqn:E. intros [= _ <-]. split; [|simpl; eauto].
  intros r Hr. simpl in Hr. assert (rows = (update_where pred (finish_run status now err) (job_runs db)).1) as -> by by rewrite E.
  apply list_elem_of_In, in_map_iff in Hr as (r0 & <- & Hr0%list_elem_of_In). left. exists r0. by destruct (pred r0).
Qed.

Lemma adds_cancel now run reason : tx_rel (adds_only P) (cancelRunTx now run reason).
Proof.
  unfold cancelRunTx, run_event, firstRun. tx_solve; try apply adds_finish; try (apply tx_rel_append; by intros ? ?; apply adds_same).
  - intros db n db'. unfold UpdateTaskRuns, Exec. destruct (update_where _ _ _). intros [= _ <-]. by apply adds_same.
  - intros db n db'. unfold deleteRunLeaseTx. destruct (_ =? _)%N; intros [= _ <-]; by apply adds_same.
Qed.

Lemma adds_enqueue newID now job params priority depth : P params → tx_rel (adds_only P) (enqueueRunTx newID now job params priority depth).
Proof.
  intros HP db a db'. unfold enqueueRunTx. cbv zeta. set (row := mkRunQueue _ _ _ _ _ _ _).
  assert (∀ q, q ∈ run_queue db ++ [row] → (∃ q0, q0 ∈ run_queue db ∧ rq_ID q0 = rq_ID q ∧ rq_Params q0 = rq_Params q) ∨ P (rq_Params q)) as H.
  { intros q. rewrite elem_of_app, list_elem_of_singleton. intros [Hq| ->]; eauto. }
  destruct (0 <? _); intros [= _ <-]; (split; [simpl; eauto|]); intros q Hq; simpl in Hq; apply H; [|done].
  apply list_elem_of_In, filter_In in Hq as [Hq _]. by apply list_elem_of_In.
Qed.
End adds.

Lemma adds_startTx newID queueID now depth req : tx_rel (adds_only (λ raw, raw = sr_params req)) (startRunTx newID queueID now depth req).
Proof.
  unfold startRunTx, startPriorityTx, liftE, admitTx, concurrencyConfigTx, insertRunIfSlotTx, cancelOldestActiveRunTx.
  tx_solve; try (apply tx_rel_append; by intros ? ?; apply adds_same); try (by apply adds_insert); try (by apply adds_enqueue); apply adds_cancel.
Qed.

Lemma adds_start faults newID queueID now env req db res db' : re_leaseStore env = None →
  startRun faults newID queueID now env req db = (res, db') → adds_only (λ raw, raw = sr_params req) db db'.
Proof.
  intros He. unfold startRun, withStoreBusyRetry. destruct (busyRetryLoop _ _ _ _ _) as [r db1] eqn:E. apply busyRetryLoop_atomic in E.
  unfold leaseRun. rewrite He. destruct r as [e|d].
  - subst. intros [= _ <-]. reflexivity.
  - apply adds_startTx in E. by destruct d; intros [= _ <-].
Qed.

Lemma adds_weaken (P Q : blob → Prop) db db' : (∀ raw, P raw → Q raw) → adds_only P db db' → adds_only Q db db'.
Proof. intros H [A B]. split; [intros r Hr; destruct (A r Hr)|intros q Hq; destruct (B q Hq)]; eauto. Qed.

Lemma adds_fireJobs env now trigger params calls jobs : re_leaseStore env = None → ∀ i db,
  adds_only (λ raw, raw = marshalParams params) db (fireJobs env now trigger params calls i jobs db).2.
Proof.
  intros He. induction jobs as [|j jobs IH]; intros i db; simpl; [reflexivity|].
  destruct (fireJob env now trigger params (calls i) j db) as [[outcome go_on] db1] eqn:E.
  assert (adds_only (λ raw, raw = marshalParams params) db db1) as H1.
  { revert E. unfold fireJob. destruct (j_Paused j); [by intros [= _ _ <-]|]. destruct (startRun _ _ _ _ _ _ _) as [res db2] eqn:Es.
    apply adds_start in Es; [|done]. by repeat case_match; intros [= _ _ <-]. }
  destruct go_on; simpl; [|done]. specialize (IH (S i) db1). destruct (fireJobs _ _ _ _ _ _ _ db1) as [[? ?] db2]. simpl in *. by transitivity db1.
Qed.

(** * The depth grows with every link *)

Lemma decode_strings (l : list (string * string)) : decodeFilter (map (λ p, (p.1, JStr p.2)) l) = Some l.
Proof. induction l as [|[k v] l IH]; [done|]. simpl. by rewrite IH. Qed.

Lemma marshal_roundtrip params : runParams (marshalParams params) = params.
Proof.
  unfold marshalParams. destruct (bool_decide (params = ∅)) eqn:E; [by apply bool_decide_eq_true in E as ->|]. simpl.
  rewrite decode_strings. simpl. apply list_to_map_to_list.
Qed.

(** The dequeuer hands the stored parameters on. *)
Lemma dequeue_depth raw : storedDepth (decodeRunParams raw) = storedDepth raw.
Proof.
  unfold storedDepth. do 3 f_equal. destruct raw as [| |[| | | | |l]]; try done. unfold decodeRunParams.
  destruct (forallb _ l) eqn:E; [done|]. simpl. destruct (decodeFilter l) as [e|] eqn:Ed; [|done]. exfalso.
  rewrite <- not_true_iff_false in E. apply E. clear E. revert e Ed.
  induction l as [|[k v] l IH]; intros e; simpl; [done|]. destruct v; simpl; try done; destruct (decodeFilter l); try done; eauto.
Qed.

(** One link: one deeper than [n], within the maximum. *)
Definition one_deeper (n maxDepth : Z) (raw : blob) : Prop := storedDepth raw = n + 1 ∧ n + 1 ≤ maxDepth.

Lemma fire_depth env now e calls t params d db : re_leaseStore env = None → effectiveMaxDepth (et_maxTriggerDepth t) ≤ int64_max →
  params !! TriggerDepthParam = Some d →
  adds_only (one_deeper (readDepth d) (effectiveMaxDepth (et_maxTriggerDepth t))) db (FireWithParams env now e calls t params db).2.
Proof.
  intros He HM Hd. unfold FireWithParams, applyTriggerDepth, mergedParams. rewrite (lookup_union_Some_l _ _ _ _ Hd).
  destruct (Z.leb_spec (effectiveMaxDepth (et_maxTriggerDepth t)) (readDepth d)) as [|Hlt]; [reflexivity|].
  destruct e; [reflexivity|]. destruct (listJobs (et_id t) db) as [|j l] eqn:El; [reflexivity|].
  eapply adds_weaken; [|by apply adds_fireJobs]. intros raw ->. unfold one_deeper, storedDepth. rewrite marshal_roundtrip, lookup_insert_eq. simpl.
  split; [|lia]. apply depth_roundtrip. assert (0 ≤ readDepth d); [|unfold int64_max in HM; lia].
  unfold readDepth. destruct (Atoi _) as [z|]; [|done]. destruct (Z.ltb_spec z 0); lia.
Qed.

Section route.
Context (uuid_String : uuid → string) (number_text : Z → string) (json_text : json → string) (error_text : store_error → string)
  (fire_error_text : fire_error → string) (lookup : uuid → string).
Abbreviation routeRun := (routeLifecycleEvent uuid_String number_text json_text error_text fire_error_text lookup).

Lemma triggers_depth call evt d maxDepth triggers : isCaesiumLifecycleEvent evt = true → maxDepth ≤ int64_max →
  lifecycleTriggerDepth number_text json_text (ie_Data evt) = d → (∀ t, t ∈ triggers → effectiveMaxDepth (et_maxTriggerDepth t) = maxDepth) →
  ∀ i db, adds_only (one_deeper (readDepth d) maxDepth) db
    (fireTriggers uuid_String number_text json_text error_text fire_error_text call evt i triggers db).2.
Proof.
  intros Hl HM Hd Ht. induction triggers as [|t triggers IH]; intros i db; cbn [fireTriggers]; [reflexivity|]. cbv zeta.
  unfold withLifecycleTriggerDepth. rewrite Hl, Hd. cbn [negb]. set (d' := if d =s "" then "0" else d).
  assert (readDepth d' = readDepth d) as Ed.
  { unfold d'. destruct (d =s "") eqn:E; [|done]. apply str_eqb_eq in E as ->. vm_compute. reflexivity. }
  set (params := <[TriggerDepthParam := d']> _).
  pose proof (fire_depth (routeEnv call) (rc_now call) (rc_listError call i) (rc_calls call i) t params d' db eq_refl) as Hf.
  rewrite (Ht t), Ed in Hf by (by left). specialize (Hf HM (lookup_insert_eq _ _ _)).
  destruct (FireWithParams _ _ _ _ _ _ _) as [[outcomes e] db1]. simpl in Hf.
  specialize (IH (λ t' Ht', Ht t' (list_elem_of_further _ _ _ Ht')) (S i) db1).
  destruct (fireTriggers _ _ _ _ _ _ _ _ _ _) as [results db2]. simpl in *. by transitivity db1.
Qed.
Lemma lifecycle_kept type data : type ∈ lifecycleEventTypes →
  TrimSpace type = type ∧ (type =s "") = false ∧ isCaesiumLifecycleEvent (mkIngestedEvent type (TrimSpace "caesium") data) = true.
Proof. unfold lifecycleEventTypes. rewrite !elem_of_cons, elem_of_nil. intros H. destruct_or! H; subst; (split_and!; [vm_compute; reflexivity..|]); done. Qed.

(** Routing the event of a run starts and queues runs that are one link deeper. *)
Lemma route_depth call triggers other alias type seq ts r s maxDepth : type ∈ lifecycleEventTypes → maxDepth ≤ int64_max →
  (∀ t, t ∈ triggers → effectiveMaxDepth (et_maxTriggerDepth t) = maxDepth) →
  adds_only (one_deeper (storedDepth (jr_Params r)) maxDepth) (es_db s)
    (es_db (routeRun call triggers (runEvent uuid_String other alias type seq ts r) s)).
Proof.
  intros Hty HM Ht. unfold routeLifecycleEvent, Route, CreateTx. set (evt := lifecycleIngestedEvent _ _ _ _ _).
  assert (ie_Type evt = type ∧ ie_Source evt = "caesium") as [-> ->] by done.
  destruct (lifecycle_kept type (ie_Data evt) Hty) as (E1 & E2 & E3). rewrite E1. cbn [ie_Type ie_Source ie_Data]. rewrite E2.
  destruct (rc_createError call); [reflexivity|]. cbn [es_db es_events es_matches].
  pose proof (triggers_depth call _ _ maxDepth
    (matchingTriggers number_text json_text triggers evt) E3 HM (event_depth uuid_String number_text json_text lookup other alias type seq ts r)) as Hf.
  assert (∀ t, t ∈ matchingTriggers number_text json_text triggers evt → effectiveMaxDepth (et_maxTriggerDepth t) = maxDepth) as Hm.
  { intros t Hin. apply Ht. apply list_elem_of_In, filter_In in Hin as [Hin _]. by apply list_elem_of_In. }
  specialize (Hf Hm 0%nat (es_db s)).
  destruct (fireTriggers _ _ _ _ _ _ _ _ _ _) as [results db]. unfold RecordMatchesTx. repeat case_match; simplify_eq/=; try reflexivity; exact Hf.
Qed.

(** A row that was not there before carries these parameters. *)
Definition new_params (db db' : DB) (raw : blob) : Prop :=
  (∃ r, r ∈ job_runs db' ∧ jr_ID r ∉ map jr_ID (job_runs db) ∧ jr_Params r = raw) ∨
  (∃ q, q ∈ run_queue db' ∧ rq_ID q ∉ map rq_ID (run_queue db) ∧ rq_Params q = raw).

Lemma adds_new P db db' raw : adds_only P db db' → new_params db db' raw → P raw.
Proof.
  intros [A B] [(r & Hr & Hn & <-)|(q & Hq & Hn & <-)].
  - destruct (A r Hr) as [(r0 & H0 & E & _)|]; [|done]. destruct Hn. rewrite <- E. by apply list_elem_of_In, in_map, list_elem_of_In.
  - destruct (B q Hq) as [(q0 & H0 & E & _)|]; [|done]. destruct Hn. rewrite <- E. by apply list_elem_of_In, in_map, list_elem_of_In.
Qed.

(** [trigger_chain root n raw]: a run or a queued request with the parameters [raw] stands
    at the end of [n] links, each a life-cycle event of a run that the router turned into
    the next run or queued request. The first run is arbitrary, with parameters [root]. *)
Inductive trigger_chain (envMaxDepth : Z) (root : blob) : nat → blob → Prop :=
| chain_root : trigger_chain envMaxDepth root 0 root
| chain_link n r call c triggers other alias type seq ts s raw : trigger_chain envMaxDepth root n (jr_Params r) →
    Reload envMaxDepth c = Some triggers → type ∈ lifecycleEventTypes →
    new_params (es_db s) (es_db (routeRun call triggers (runEvent uuid_String other alias type seq ts r) s)) raw →
    trigger_chain envMaxDepth root (S n) raw
| chain_queue n raw : trigger_chain envMaxDepth root n raw → trigger_chain envMaxDepth root n (decodeRunParams raw).

Lemma reload_depth envMaxDepth c triggers t : Reload envMaxDepth c = Some triggers → t ∈ triggers →
  effectiveMaxDepth (et_maxTriggerDepth t) = configuredMaxTriggerDepth envMaxDepth.
Proof.
  unfold Reload. intros H Ht. apply mapM_Some in H. apply list_elem_of_lookup in Ht as [i Hi].
  destruct (Forall2_lookup_r _ _ _ _ _ H Hi) as (row & _ & E). unfold newEventTrigger in E. destruct (negb _); [done|].
  destruct (parseConfig _); simplify_option_eq. simpl. unfold effectiveMaxDepth, configuredMaxTriggerDepth, defaultMaxTriggerDepth.
  destruct (Z.leb_spec envMaxDepth 0); [done|]. by rewrite (proj2 (Z.leb_gt _ _)).
Qed.

(** C17: chains of triggered runs are bounded. However the triggers of the catalog refer to
    each other, and whatever batches change them in between, in a chain of runs in which
    each starts the next through the event of its end, directly or through the queue of
    runs, the depth stored with the last run is the depth stored with the first one plus
    exactly the number of links, and after a link it is at most the configured maximum (10
    by default); so no chain has more links than that. *)
Theorem trigger_chain_bounded envMaxDepth root n raw : envMaxDepth ≤ int64_max → trigger_chain envMaxDepth root n raw →
  storedDepth raw = storedDepth root + Z.of_nat n ∧ 0 ≤ storedDepth root ∧
  (n ≠ 0%nat → storedDepth raw ≤ configuredMaxTriggerDepth envMaxDepth) ∧
  Z.of_nat n ≤ configuredMaxTriggerDepth envMaxDepth.
Proof.
  intros HM. set (maxDepth := configuredMaxTriggerDepth envMaxDepth).
  assert (0 < maxDepth ≤ int64_max) as Hmax.
  { unfold maxDepth, configuredMaxTriggerDepth, defaultMaxTriggerDepth, int64_max in *. destruct (Z.leb_spec envMaxDepth 0); lia. }
  assert (0 ≤ storedDepth root) as H0.
  { unfold storedDepth, readDepth. destruct (Atoi _) as [z|]; [|done]. destruct (Z.ltb_spec z 0); lia. }
  induction 1 as [|n r call c triggers other alias type seq ts s raw _ IH HR Hty Hnew|n raw _ IH].
  - split_and!; [lia|done|done|lia].
  - eapply adds_new in Hnew; [|apply (route_depth call triggers other alias type seq ts r s maxDepth Hty); [lia|]].
    + destruct Hnew as [E Hle]. split_and!; lia.
    + intros t. by eapply reload_depth.
  - by rewrite dequeue_depth.
Qed.
End route.
