(* ===== verification/RouteTheorems.v ===== *)
(** What the routing of an event stores, which runs it starts, and that a validated and
    imported event trigger is loaded as declared and fires for its job. *)

From S2P Require Import Prelude Tables Store TxLogic RunOps JobDef StepGraph StepTheorems Validate ValidateTheorems Importer ImportTheorems TriggerChain ChainTheorems EventTrigger EventTheorems.

(** * The runs a start adds *)

(** The identity of a run, which no operation changes. *)
Definition run_identity (r : JobRun) : uuid * uuid * uuid := (jr_ID r, jr_JobID r, jr_TriggerID r).

(** Between two databases the runs with the identities [added] appear and no other run
    appears or disappears. *)
Record starts (added : list (uuid * uuid * uuid)) (db db' : DB) : Prop := {
  st_jobs : jobs db' = jobs db;
  st_runs : ∀ i, i ∈ map run_identity (job_runs db') ↔ i ∈ map run_identity (job_runs db) ∨ i ∈ added;
  st_leases : ∀ l, l ∈ run_leases db' → l ∈ run_leases db;
}.

#[export] Instance starts_preorder : PreOrder (starts []).
Proof.
  split; [intros db; split; [done| |done]; set_solver|].
  intros db db1 db2 [J1 R1 L1] [J2 R2 L2]. split; [congruence| |auto]. intros i. rewrite R2, R1. set_solver.
Qed.

Lemma starts_trans a b db db1 db2 : starts a db db1 → starts b db1 db2 → starts (a ++ b) db db2.
Proof. intros [J1 R1 L1] [J2 R2 L2]. split; [congruence| |auto]. intros i. rewrite R2, R1. set_solver. Qed.

Lemma starts_same db db' : jobs db' = jobs db → job_runs db' = job_runs db → (∀ l, l ∈ run_leases db' → l ∈ run_leases db) → starts [] db db'.
Proof. intros E1 E2 E3. split; [done| |done]. rewrite E2. set_solver. Qed.

Lemma starts_finish pred status now err : tx_rel (starts []) (UpdateJobRuns pred (finish_run status now err)).
Proof.
  intros db n db'. unfold UpdateJobRuns, Exec. destruct (update_where _ _ _) as [rows k] eqn:E. intros [= _ <-]. split; [done| |done].
  assert (rows = (update_where pred (finish_run status now err) (job_runs db)).1) as -> by by rewrite E. simpl. intros i.
  rewrite map_map, (map_ext _ run_identity); [set_solver|]. intros r. by destruct (pred r).
Qed.

Lemma starts_cancel now run reason : tx_rel (starts []) (cancelRunTx now run reason).
Proof.
  unfold cancelRunTx, run_event, firstRun. tx_solve; try apply starts_finish; try (apply tx_rel_append; by intros ? ?; apply starts_same).
  - intros db n db'. unfold UpdateTaskRuns, Exec. destruct (update_where _ _ _). intros [= _ <-]. by apply starts_same.
  - intros db n db'. unfold deleteRunLeaseTx. destruct (_ =? _)%N; intros [= _ <-]; apply starts_same; try done. intros l [? _]%delete_elem. done.
Qed.

Lemma starts_enqueue newID now job params priority depth : tx_rel (starts []) (enqueueRunTx newID now job params priority depth).
Proof. intros db a db'. unfold enqueueRunTx. cbv zeta. destruct (0 <? _); intros [= _ <-]; by apply starts_same. Qed.

Lemma starts_insert model db a db' : insert_run model db = inr (a, db') → starts [run_identity model] db db'.
Proof. intros [= _ <-]. split; [done| |done]. intros i. simpl. rewrite map_app. set_solver. Qed.

Lemma starts_slot model maxRuns db b db' : insertRunIfSlotTx model maxRuns db = inr (b, db') →
  starts (if b then [run_identity model] else []) db db'.
Proof.
  unfold insertRunIfSlotTx. destruct (maxRuns <=? 0).
  - intros (u & db1 & H1 & [-> ->]%ret_inr)%bind_inr. by apply starts_insert in H1.
  - intros (n & db1 & [-> ->]%query_inr & H)%bind_inr. destruct (_ <? _).
    + apply bind_inr in H as (u & db1 & H1 & [-> ->]%ret_inr). by apply starts_insert in H1.
    + apply ret_inr in H as [-> ->]. reflexivity.
Qed.

Lemma starts_oldest now job : tx_rel (starts []) (cancelOldestActiveRunTx now job).
Proof. unfold cancelOldestActiveRunTx. tx_solve. apply starts_cancel. Qed.

Lemma starts_admit queueID now maxDepth model req db d db' : admitTx queueID now maxDepth model req db = inr (d, db') →
  starts (match d with admissionCreated => [run_identity model] | _ => [] end) db db'.
Proof.
  unfold admitTx. intros (cfg & db0 & H0 & H)%bind_inr.
  assert (db0 = db) as ->.
  { unfold concurrencyConfigTx in H0. apply bind_inr in H0 as (j & db1 & [-> ->]%query_inr & H0). repeat case_match; by inversion H0. }
  destruct cfg as [cfg|]; [|apply ret_inr in H as [-> ->]; reflexivity].
  destruct (bool_decide _); [apply ret_inr in H as [-> ->]; reflexivity|].
  apply bind_inr in H as (b & db1 & H1%starts_slot & H). destruct b; [by apply ret_inr in H as [-> ->]|].
  destruct (_ =s "skip"); [by apply ret_inr in H as [-> ->]|]. destruct (_ =s "fail"); [by apply ret_inr in H as [-> ->]|].
  destruct (_ =s "queue").
  - destruct (sr_fromQueue req); [by apply ret_inr in H as [-> ->]|]. apply bind_inr in H as (u & db2 & H2%starts_enqueue & [-> ->]%ret_inr).
    by transitivity db1.
  - destruct (_ =s "replace"); [|done]. apply bind_inr in H as (u & db2 & H2%starts_oldest & H).
    apply bind_inr in H as (b & db3 & H3%starts_slot & [-> ->]%ret_inr). pose proof (starts_trans _ _ _ _ _ (starts_trans _ _ _ _ _ H1 H2) H3) as HT.
    by destruct b.
Qed.

Lemma starts_startTx newID queueID now maxDepth req db d db' : sr_policyOnly req = false → startRunTx newID queueID now maxDepth req db = inr (d, db') →
  starts (match d with admissionCreated => [(newID, sr_jobID req, default uuid_Nil (sr_triggerID req))] | _ => [] end) db db' ∧ d ≠ admissionNoPolicy.
Proof.
  intros Hp. unfold startRunTx. intros (prio & db0 & H0 & H)%bind_inr.
  assert (db0 = db) as ->.
  { unfold startPriorityTx, liftE in H0. destruct (negb _); [by destruct (PriorityValue _); inversion H0|].
    apply bind_inr in H0 as (j & db1 & [-> ->]%query_inr & H0). repeat case_match; by inversion H0. }
  apply bind_inr in H as (d1 & db1 & H1%starts_admit & H). rewrite Hp in H.
  assert (∀ evt (db2 db3 : DB) u, AppendTx evt db2 = inr (u, db3) → starts [] db2 db3) as Happ by (intros evt db2 db3 u [= _ <-]; by apply starts_same).
  destruct d1; simpl in H1; try (apply ret_inr in H as [-> ->]; done).
  - apply bind_inr in H as (u & db2 & H2%starts_insert & H). apply bind_inr in H as (v & db3 & H3%Happ & [-> ->]%ret_inr). split; [|done].
    exact (starts_trans _ _ _ _ _ (starts_trans _ _ _ _ _ H1 H2) H3).
  - apply bind_inr in H as (v & db3 & H3%Happ & [-> ->]%ret_inr). split; [|done]. exact (starts_trans _ _ _ _ _ H1 H3).
Qed.

(** A start without a lease store adds exactly the run it reports. *)
Lemma starts_start faults newID queueID now env req db res db' : re_leaseStore env = None → sr_policyOnly req = false →
  startRun faults newID queueID now env req db = (res, db') →
  starts (match res with inr (Some id) => [(id, sr_jobID req, default uuid_Nil (sr_triggerID req))] | _ => [] end) db db' ∧ res ≠ inr None ∧
  (∀ id, res = inr (Some id) → id = newID).
Proof.
  intros He Hp. unfold startRun, withStoreBusyRetry. destruct (busyRetryLoop _ _ _ _ _) as [r db1] eqn:E. apply busyRetryLoop_atomic in E.
  unfold leaseRun. rewrite He. destruct r as [e|d].
  - subst. intros [= <- <-]. split; [reflexivity|done].
  - apply starts_startTx in E as [E Hd]; [|done]. destruct d; intros [= <- <-]; try done; (split; [exact E|]); split; try done. by intros ? [= ->].
Qed.

(** * The runs a trigger starts *)

(** The identities of the runs the outcomes report. *)
Definition started_runs (trigger : uuid) (outcomes : list FireOutcome) : list (uuid * uuid * uuid) :=
  omap (λ o, if (fo_RunID o =? uuid_Nil)%N then None else Some (fo_RunID o, fo_JobID o, trigger)) outcomes.

Lemma started_ids trigger outcomes : map (λ i, i.1.1) (started_runs trigger outcomes) = fireOutcomeRunIDs outcomes.
Proof.
  unfold started_runs, fireOutcomeRunIDs. induction outcomes as [|o l IH]; [done|]. simpl. destruct (fo_RunID o =? uuid_Nil)%N; simpl; [done|].
  by f_equal.
Qed.

(** A run of one of the jobs, none of them paused. *)
Definition run_of_jobs (jobs : list Job) (i : uuid * uuid * uuid) : Prop := ∃ j, j ∈ jobs ∧ j_ID j = i.1.2 ∧ j_Paused j = false.

Lemma starts_fireJob env now trigger params call j db o go_on db' : re_leaseStore env = None → sc_newID call ≠ uuid_Nil →
  fireJob env now trigger params call j db = (o, go_on, db') →
  starts (started_runs trigger [o]) db db' ∧ ∀ i, i ∈ started_runs trigger [o] → i.1.2 = j_ID j ∧ i.2 = trigger ∧ j_Paused j = false.
Proof.
  intros He Hn. unfold fireJob. destruct (j_Paused j) eqn:Ep; [intros [= <- _ <-]; split; [reflexivity|intros i Hi; by apply elem_of_nil in Hi]|].
  destruct (startRun _ _ _ _ _ _ _) as [res db1] eqn:E. apply starts_start in E as (HS & Hne & Hid); [|done|done].
  destruct res as [e|[id|]]; [| |done].
  - assert (starts [] db db1) as HS' by exact HS. destruct e; intros [= <- _ <-]; (split; [exact HS'|intros i Hi; by apply elem_of_nil in Hi]).
  - intros [= <- _ <-]. specialize (Hid id eq_refl). subst id. unfold started_runs. simpl. rewrite (proj2 (N.eqb_neq _ _) Hn).
    split; [exact HS|]. intros i ->%list_elem_of_singleton. done.
Qed.

Lemma started_cons trigger o l : started_runs trigger (o :: l) = started_runs trigger [o] ++ started_runs trigger l.
Proof. unfold started_runs. simpl. by destruct (_ =? _)%N. Qed.

Lemma starts_fireJobs env now trigger params calls l : re_leaseStore env = None → (∀ i, sc_newID (calls i) ≠ uuid_Nil) → ∀ i db,
  let '(outcomes, _, db') := fireJobs env now trigger params calls i l db in
  starts (started_runs trigger outcomes) db db' ∧ ∀ x, x ∈ started_runs trigger outcomes → x.2 = trigger ∧ run_of_jobs l x.
Proof.
  intros He Hn. induction l as [|j l IH]; intros i db; [split; [reflexivity|intros x Hx; by apply elem_of_nil in Hx]|]. cbn [fireJobs].
  destruct (fireJob env now trigger params (calls i) j db) as [[o go_on] db1] eqn:E. apply starts_fireJob in E as [H1 P1]; [|done|done].
  assert (∀ x, x ∈ started_runs trigger [o] → x.2 = trigger ∧ run_of_jobs (j :: l) x) as Q1.
  { intros x (E1 & E2 & E3)%P1. split; [done|]. exists j. split_and!; [by left|done|done]. }
  destruct go_on; cbn [negb]; [|done]. specialize (IH (S i) db1). destruct (fireJobs _ _ _ _ _ _ _ db1) as [[outcomes e] db2].
  destruct IH as [H2 P2]. rewrite started_cons. split; [by eapply starts_trans|]. intros x [Hx|Hx]%elem_of_app; [by apply Q1|].
  destruct (P2 x Hx) as (E2 & j' & Hj & ? & ?). split; [done|]. exists j'. split_and!; [by right|done|done].
Qed.

Lemma starts_fire env now e calls t params db : re_leaseStore env = None → (∀ i, sc_newID (calls i) ≠ uuid_Nil) →
  let '(outcomes, _, db') := FireWithParams env now e calls t params db in
  starts (started_runs (et_id t) outcomes) db db' ∧
  ∀ x, x ∈ started_runs (et_id t) outcomes → x.2 = et_id t ∧ run_of_jobs (listJobs (et_id t) db) x.
Proof.
  intros He Hn. unfold FireWithParams.
  assert (∀ l, l = [] ∨ l = [skipped uuid_Nil "no jobs registered for trigger"] → starts (started_runs (et_id t) l) db db ∧
    ∀ x, x ∈ started_runs (et_id t) l → x.2 = et_id t ∧ run_of_jobs (listJobs (et_id t) db) x) as H0.
  { intros l [-> | ->]; (split; [reflexivity|intros x Hx; by apply elem_of_nil in Hx]). }
  destruct (applyTriggerDepth _ _) as [err|merged]; [by apply H0; left|]. destruct e as [e|]; [by apply H0; left|].
  destruct (listJobs (et_id t) db) as [|j l] eqn:El; [apply H0; by right|]. by apply starts_fireJobs.
Qed.

Section route.
Context (uuid_String : uuid → string) (number_text : Z → string) (json_text : json → string) (error_text : store_error → string)
  (fire_error_text : fire_error → string).
Abbreviation route := (Route uuid_String number_text json_text error_text fire_error_text).
Abbreviation matching := (matchingTriggers number_text json_text).

(** A run of an unpaused job of one of the triggers. *)
Definition run_of_triggers (triggers : list EventTrigger) (db : DB) (i : uuid * uuid * uuid) : Prop :=
  ∃ t, t ∈ triggers ∧ et_id t = i.2 ∧ run_of_jobs (listJobs (et_id t) db) i.

Lemma starts_triggers call evt triggers : (∀ i j, sc_newID (rc_calls call i j) ≠ uuid_Nil) → ∀ i db,
  let '(results, db') := fireTriggers uuid_String number_text json_text error_text fire_error_text call evt i triggers db in
  map rr_TriggerID results = map et_id triggers ∧
  ∃ added, starts added db db' ∧ map (λ i, i.1.1) added = flat_map rr_RunsStarted results ∧ ∀ x, x ∈ added → run_of_triggers triggers db x.
Proof.
  intros Hn. induction triggers as [|t triggers IH]; intros i db; cbn [fireTriggers].
  { split; [done|]. exists []. split_and!; [reflexivity|done|intros x Hx; by apply elem_of_nil in Hx]. }
  cbv zeta. set (params := withLifecycleTriggerDepth _ _ _ _).
  pose proof (starts_fire (routeEnv call) (rc_now call) (rc_listError call i) (rc_calls call i) t params db eq_refl (Hn i)) as HF.
  destruct (FireWithParams _ _ _ _ _ _ _) as [[outcomes e] db1]. destruct HF as [H1 P1].
  specialize (IH (S i) db1). destruct (fireTriggers _ _ _ _ _ _ _ _ _ _) as [results db2]. destruct IH as (Eids & added & H2 & E2 & P2).
  split; [simpl; by f_equal|]. exists (started_runs (et_id t) outcomes ++ added).
  split_and!; [by eapply starts_trans|by rewrite map_app, started_ids, E2|]. intros x [Hx|Hx]%elem_of_app.
  - destruct (P1 x Hx) as [E Hj]. exists t. split_and!; [by left|done|done].
  - destruct (P2 x Hx) as (t' & Ht & E & Hj). exists t'. split_and!; [by right|done|]. unfold listJobs in *. by rewrite (st_jobs _ _ _ H1) in Hj.
Qed.

(** C18: routing an event has its whole effect or none. A failed call stores nothing; a
    successful one stores the event, one match row per matching trigger in their order,
    and the runs it launches: exactly those runs appear, each of an unpaused job whose
    trigger matches the event, and no run receives a lease. *)
Theorem route_effect call triggers evt s res s' : (∀ i j, sc_newID (rc_calls call i j) ≠ uuid_Nil) →
  route call triggers evt s = (res, s') →
  match res with
  | inl _ => s' = s
  | inr (result, launched) =>
      es_events s' = es_events s ++
        [mkIngestedRow (rc_eventID call) (mkIngestedEvent (TrimSpace (ie_Type evt)) (TrimSpace (ie_Source evt)) (ie_Data evt))] ∧
      es_matches s' = es_matches s ++ map (eventTriggerMatchRow (rc_eventID call)) (ro_MatchedTriggers result) ∧
      map rr_TriggerID (ro_MatchedTriggers result) = map et_id (matching triggers evt) ∧
      ∃ added, starts added (es_db s) (es_db s') ∧ map (λ i, i.1.1) added = launched ∧
        ∀ x, x ∈ added → run_of_triggers (matching triggers evt) (es_db s) x
  end.
Proof.
  intros Hn. unfold Route, CreateTx. cbv zeta. set (evt' := mkIngestedEvent _ _ _). destruct (ie_Type evt' =s ""); [by intros [= <- <-]|].
  destruct (rc_createError call); [by intros [= <- <-]|]. cbn [es_db es_events es_matches].
  pose proof (starts_triggers call evt' (matching triggers evt) Hn 0 (es_db s)) as HT. destruct (fireTriggers _ _ _ _ _ _ _ _ _ _) as [results db].
  destruct HT as (Eids & added & HS & El & HP). unfold RecordMatchesTx.
  destruct results as [|r results]; [|destruct (existsb _ _); [by intros [= <- <-]|]; destruct (rc_recordError call); [by intros [= <- <-]|]];
    intros [= <- <-]; cbn [es_db es_events es_matches ro_MatchedTriggers]; (split_and!; [done|by rewrite ?app_nil_r|exact Eids|]);
    exists added; (split_and!; [exact HS|exact El|exact HP]).
Qed.
End route.
