(* ===== verification/TriggerImport.v ===== *)
(** From a declared event trigger to its runs: the importer stores the trigger of a
    definition, the router loads it as declared, and a matching event starts a run of
    the job. *)

From S2P Require Import Prelude Tables Store TxLogic RunOps JobDef StepGraph StepTheorems Validate ValidateTheorems RuntimeSpec Importer ImportTheorems TriggerChain ChainTheorems EventTrigger EventTheorems RouteTheorems.

(** * The trigger row through an apply *)

(** The rest of an apply leaves the trigger rows alone. *)
Definition keeps_triggers {A} (m : CatTx A) : Prop := ∀ c a c', m c = inr (a, c') → c_triggers c' = c_triggers c.

Lemma cat_bind_inr {A B} (m : CatTx A) (k : A → CatTx B) c b c' : (m ≫= k) c = inr (b, c') →
  ∃ a c1, m c = inr (a, c1) ∧ k a c1 = inr (b, c').
Proof. unfold mbind, CatTx_bind. destruct (m c) as [e|[a c1]]; [done|]. intros H. eauto. Qed.

Lemma keeps_bind {A B} (m : CatTx A) (k : A → CatTx B) : keeps_triggers m → (∀ a, keeps_triggers (k a)) → keeps_triggers (m ≫= k).
Proof. intros Hm Hk c b c' (a & c1 & H1 & H2)%cat_bind_inr. rewrite (Hk _ _ _ _ H2). by eapply Hm. Qed.

Lemma keeps_ret {A} (a : A) : keeps_triggers (mret a : CatTx A).
Proof. by intros c b c' [= _ <-]. Qed.

Lemma keeps_read {A} (f : Catalog → A) : keeps_triggers (catRead f).
Proof. by intros c b c' [= _ <-]. Qed.

Lemma keeps_lift {A} (m : checked A) : keeps_triggers (catLift m).
Proof. intros c b c'. unfold catLift. destruct m; [done|]. by intros [= _ <-]. Qed.

Lemma keeps_throw {A} e : keeps_triggers (catThrow e : CatTx A).
Proof. by intros c b c'. Qed.

Lemma keeps_newID : keeps_triggers newID.
Proof. by intros c b c' [= _ <-]. Qed.

Lemma keeps_write f : (∀ c, c_triggers (f c) = c_triggers c) → keeps_triggers (catWrite f).
Proof. intros H c b c' [= _ <-]. apply H. Qed.

Create HintDb cat.
#[local] Hint Resolve keeps_ret keeps_read keeps_lift keeps_throw keeps_newID : cat.

Ltac cat_step :=
  match goal with
  | |- keeps_triggers (_ ≫= _) => apply keeps_bind; [|intros ?]
  | |- keeps_triggers (catWrite _) => apply keeps_write; intros ?; reflexivity
  | |- keeps_triggers (if ?b then _ else _) => destruct b
  | |- keeps_triggers (match ?x with _ => _ end) => destruct x
  | |- keeps_triggers (let _ := _ in _) => cbv zeta
  | |- _ => solve [eauto with cat]
  end.
Ltac cat_solve := repeat cat_step.

Lemma keeps_task now job def existing i s : keeps_triggers (reconcileTaskTx now job def existing i s).
Proof. unfold reconcileTaskTx, existingAtom, reconcileAtomTx. cat_solve. Qed.
#[local] Hint Resolve keeps_task : cat.

Lemma keeps_steps now job def existing steps : ∀ i m, keeps_triggers (reconcileSteps now job def existing i steps m).
Proof. induction steps as [|s l IH]; intros i m; simpl; cat_solve. Qed.
#[local] Hint Resolve keeps_steps : cat.

Lemma keeps_unseen seen rows : keeps_triggers (retireUnseen seen rows).
Proof. induction rows as [|t l IH]; simpl; cat_solve. Qed.
#[local] Hint Resolve keeps_unseen : cat.

Lemma keeps_tasks now job def : keeps_triggers (reconcileTasksTx now job def).
Proof. unfold reconcileTasksTx. cat_solve. Qed.

Lemma keeps_edges map_order job steps succs tb : keeps_triggers (reconcileEdgesTx map_order job steps succs tb).
Proof.
  assert (∀ j m from u l, keeps_triggers (edgesFrom j m from u l)) as H1 by (intros j m from u l; induction l as [|x l IH]; simpl; cat_solve).
  assert (∀ j l, keeps_triggers (buildEdges j succs tb l)) as H2 by (intros j l; induction l as [|x l IH]; simpl; cat_solve).
  unfold reconcileEdgesTx. cat_solve.
Qed.
#[local] Hint Resolve keeps_edges : cat.

Lemma keeps_callbacks now Marshal job cbs : keeps_triggers (reconcileCallbacksTx now Marshal job cbs).
Proof.
  assert (∀ e i s, keeps_triggers (reconcileCallbackLoop now Marshal job e i cbs s)) as H1
    by (induction cbs as [|x l IH]; intros e i s; simpl; cat_solve).
  assert (∀ s l, keeps_triggers (retireCallbacks s l)) as H2 by (intros s l; induction l as [|x l IH]; simpl; cat_solve).
  unfold reconcileCallbacksTx. cat_solve.
Qed.
#[local] Hint Resolve keeps_callbacks : cat.

Lemma keeps_job existing def opts trigger : keeps_triggers (upsertJobRowTx existing def opts trigger).
Proof. unfold upsertJobRowTx. cat_solve. Qed.

(** After an apply the catalog has the trigger the definition declares, under the
    identifier the job refers to. *)
Lemma apply_trigger now Marshal order map_order registries runs def opts c job c' :
  applyTx now Marshal order map_order registries runs def opts c = inr (job, c') →
  let row := triggerFields (jb_TriggerID job) (md_Alias (def_Metadata def)) (def_Trigger def) opts in
  row ∈ c_triggers c' ∧ (∀ t, t ∈ c_triggers c' → t ∈ c_triggers c ∨ t = row) ∧
  (jb_TriggerID job = c_supply c ∨ ∃ t, t ∈ c_triggers c ∧ tgr_ID t = jb_TriggerID job).
Proof.
  unfold applyTx. intros (existing & c0 & [= <- <-] & H)%cat_bind_inr. apply cat_bind_inr in H as ([] & c1 & Hg & H).
  assert (c1 = c) as ->.
  { destruct (first _); [|by injection Hg]. unfold guardJobMutationTx, ensureJobNotRunningTx in Hg.
    apply cat_bind_inr in Hg as ([] & c2 & H1 & H2). unfold catThrow, mret, CatTx_ret in *. repeat case_match; by simplify_eq. }
  apply cat_bind_inr in H as (job' & c2 & Hj & H).
  assert (job' = job ∧ c_triggers c' = c_triggers c2) as [-> ->].
  { apply cat_bind_inr in H as ([tb atoms] & c3 & H3 & H). apply cat_bind_inr in H as ([steps succs] & c4 & H4 & H).
    apply cat_bind_inr in H as ([] & c5 & H5 & H). apply cat_bind_inr in H as ([] & c6 & H6 & H). apply cat_bind_inr in H as ([] & c7 & H7 & H).
    apply cat_bind_inr in H as ([] & c8 & [= <-] & [= -> <-]). split; [done|]. simpl.
    apply keeps_callbacks in H6. apply keeps_edges in H5. apply keeps_lift in H4.
    apply keeps_tasks in H3.
    assert (c7 = c6) as -> by (destruct (registries def); by simplify_eq). congruence. }
  unfold upsertJobAndTriggerTx in Hj. apply cat_bind_inr in Hj as (row & c3 & Hr & Hj).
  assert (jb_TriggerID job = tgr_ID row) as ->.
  { unfold upsertJobRowTx in Hj. destruct (first _) as [j|].
    - apply cat_bind_inr in Hj as ([] & ? & _ & [= <- _]). done.
    - apply cat_bind_inr in Hj as (id & ? & _ & Hj). apply cat_bind_inr in Hj as ([] & ? & _ & [= <- _]). done. }
  apply keeps_job in Hj. rewrite Hj.
  match type of Hr with upsertTriggerTx ?e ?a ?t ?o ?d = _ => destruct (upsertTrigger_total e a t o d) as (row' & c4 & E & _ & Er & Hin & Hall & Hid) end.
  rewrite E in Hr. injection Hr as -> ->. cbv zeta. by rewrite <- Er.
Qed.

(** * A validated event trigger decodes *)

Lemma validated_trigger ParseDuration Compile freshness range_order d def :
  Validate ParseDuration Compile freshness range_order d = inr def → validateTrigger freshness (def_Trigger d) = inr (def_Trigger def).
Proof.
  unfold Validate. cbv zeta. intros H. unbind H. destruct x as [m1 resources].
  unbind H. destruct x1 as [vols volumes]. unbind H. destruct x2 as [m2 steps2]. unbind H. injection H as <-. done.
Qed.

Lemma strings_decode (body : nat → string * json → checked ()) i l : checkEach body i l = inr () →
  (∀ j e, body j e = inr () → ∃ v, e.2 = JStr v) → is_Some (decodeFilter l).
Proof.
  intros H Hb. assert (∀ e, e ∈ l → ∃ v, e.2 = JStr v) as Hl by (intros e He; destruct (checkEach_elem _ _ _ _ H He); eauto).
  clear H Hb. induction l as [|[k v] l IH]; [by eexists|]. destruct (Hl (k, v)) as [s Es]; [by left|]. simpl in *. subst v. simpl.
  destruct IH as [r ->]; [intros e He; apply Hl; by right|]. by eexists.
Qed.

Lemma params_decode cfg key : match get key cfg with
  | None | Some JNull => True
  | Some (JObj l) => is_Some (decodeFilter l)
  | Some _ => False
  end → is_Some (decodeParams (get key cfg)).
Proof. destruct (get key cfg) as [[| | | | |l]|]; simpl; try done; try by eexists. intros [e ->]. by eexists. Qed.

Lemma pattern_decodes i v : validateEventPattern i v = inr () → is_Some (decodePattern v).
Proof.
  unfold validateEventPattern. destruct v as [| | | | |o]; try done. intros H. unbind H. simpl.
  destruct (get "type" o) as [[| | |ty| |]|]; try done. simpl.
  assert (is_Some (decodeText (get "source" o))) as [src ->] by (destruct (get "source" o) as [[]|]; try done; by eexists). simpl.
  destruct (get "filter" o) as [[| | | | |l]|]; try done; try by eexists.
  eapply strings_decode in H as [e ->]; [by eexists|]. intros j [k w]. simpl. destruct w; try done. by eexists.
Qed.

Lemma events_decode cfg : validateEventTriggerConfiguration cfg = inr () →
  (∃ patterns, parseEvents cfg = Some patterns ∧ patterns ≠ []) ∧ is_Some (decodeParams (get "paramMapping" cfg)) ∧
  is_Some (decodeParams (get "defaultParams" cfg)).
Proof.
  unfold validateEventTriggerConfiguration. intros ([] & He & H)%bind_ok. apply bind_ok in H as ([] & Hm & Hd). split_and!.
  - unfold parseEvents. destruct (get "events" cfg) as [[| | | |events|]|]; try done. destruct events as [|v events]; [done|].
    assert (Forall (λ v, is_Some (decodePattern v)) (v :: events)) as HF.
    { apply Forall_forall. intros x Hx. destruct (checkEach_elem _ _ _ _ He Hx) as [j Hj]. by eapply pattern_decodes. }
    apply mapM_is_Some_2 in HF as [patterns E]. exists patterns. split; [done|]. intros ->. apply mapM_Some, Forall2_length in E. done.
  - apply params_decode. unfold validateParamMappingConfiguration in Hm. destruct (get "paramMapping" cfg) as [[]|]; try done.
    eapply strings_decode; [exact Hm|]. intros j [k w]. unfold validateParamMapping. simpl. destruct w; try done. by eexists.
  - apply params_decode. unfold validateDefaultParamsConfiguration in Hd. destruct (get "defaultParams" cfg) as [[]|]; try done.
    eapply strings_decode; [exact Hd|]. intros j [k w]. simpl. destruct w; try done. by eexists.
Qed.

(** The declared configuration, as the router should see it. *)
Definition declared_config (trig : Trigger) (cfg : Config) : Prop :=
  parseEvents (default [] (tg_Configuration trig)) = Some (cfg_Events cfg) ∧
  decodeParams (get "paramMapping" (default [] (tg_Configuration trig))) = Some (cfg_ParamMapping cfg) ∧
  (if bool_decide (tg_DefaultParams trig = []) then decodeParams (get "defaultParams" (default [] (tg_Configuration trig))) = Some (cfg_DefaultParams cfg)
   else cfg_DefaultParams cfg = list_to_map (tg_DefaultParams trig)).

Lemma stored_config_loads freshness trig trig' : validateTrigger freshness trig = inr trig' → tg_Type trig = TriggerEvent →
  ∃ cfg, parseConfig (BlobJson (JObj (triggerConfiguration trig'))) = Some cfg ∧ declared_config trig cfg ∧ cfg_Events cfg ≠ [].
Proof.
  unfold validateTrigger. cbv zeta. intros H Hty. unbind H. injection H as <-. rewrite Hty in R0.
  change (TriggerEvent =s TriggerHTTP) with false in R0. change (TriggerEvent =s TriggerEvent) with true in R0. cbv iota in R0. destruct x.
  apply events_decode in R0 as ((patterns & Ep & Hne) & [mapping Em] & [defaults Ed]).
  unfold parseConfig, triggerConfiguration, declared_config. cbn [tg_Configuration tg_DefaultParams].
  set (cfg := default [] (tg_Configuration trig)) in *. change (default [] (Some cfg)) with cfg.
  destruct (tg_DefaultParams trig) as [|p l] eqn:El.
  - exists (mkConfig patterns mapping defaults). split; [|split; [|exact Hne]; split_and!; [exact Ep|exact Em|by rewrite bool_decide_eq_true_2]].
    rewrite Ep. cbn [mbind option_bind]. rewrite Em. cbn [mbind option_bind]. by rewrite Ed.
  - exists (mkConfig patterns mapping (list_to_map (p :: l))).
    split; [|split; [|exact Hne]; split_and!; [exact Ep|exact Em|by rewrite bool_decide_eq_false_2]].
    unfold parseEvents in *. rewrite (get_set_ne "events"), (get_set_ne "paramMapping"), get_set, Ep by done. cbn [mbind option_bind]. rewrite Em. cbn [mbind option_bind].
    unfold decodeParams. by rewrite decode_strings.
Qed.

(** * A matching event starts a run *)

(** The job has no concurrency policy and a valid priority. *)
Definition free_job (db : DB) (job : uuid) : Prop :=
  concurrencyConfigTx job db = inr (None, db) ∧ ∃ p, startPriorityTx job "" db = inr (p, db).

(** Both are read from the job table. *)
Lemma free_job_jobs db db' job : jobs db' = jobs db → free_job db job → free_job db' job.
Proof.
  intros E [Hc [p Hp]]. unfold free_job, concurrencyConfigTx, startPriorityTx, liftE, Query, mbind, Tx_bind in *.
  change (negb (TrimSpace "" =s "")) with false in *. cbv iota beta in *. rewrite !E.
  split; [|exists p]; destruct (first (select (λ j, (j_ID j =? job)%N) (jobs db))) as [j|]; try done.
  - destruct (concurrencyFromJSON (j_Concurrency j)) as [[cfg|]|]; try done. by destruct (cc_maxRuns cfg <=? 0).
  - unfold throw, mret, Tx_ret in *. destruct (PriorityValue (j_Priority j)); by simplify_eq.
  - unfold mret, Tx_ret in *. by simplify_eq.
Qed.

Lemma free_start newID queueID now env trigger job params db : free_job db job →
  ∃ db', startRun (λ _, None) newID queueID now env (fireRequest trigger job params) db = (inr (Some newID), db').
Proof.
  intros [Hc [p Hp]]. unfold startRun. rewrite busyRetry_nofault. unfold startRunTx, admitTx. unfold mbind, Tx_bind. cbn [fireRequest sr_jobID sr_priorityOverride].
  rewrite Hp. cbv zeta. match goal with |- context [concurrencyConfigTx ?i db] => change i with job end. rewrite Hc. simpl. eexists. reflexivity.
Qed.

(** Starts without database errors or cancellation, with fresh identifiers. *)
Definition smooth (calls : nat → StartCall) : Prop :=
  ∀ i, sc_faults (calls i) = (λ _, None) ∧ sc_cancelled (calls i) = false ∧ sc_newID (calls i) ≠ uuid_Nil.

Lemma fireJobs_starts env now trigger params calls l j : re_leaseStore env = None → smooth calls → j ∈ l → j_Paused j = false → ∀ i db, free_job db (j_ID j) →
  let '(outcomes, _, _) := fireJobs env now trigger params calls i l db in ∃ x, x ∈ started_runs trigger outcomes ∧ x.1.2 = j_ID j.
Proof.
  intros He Hs Hj Hp. induction l as [|k l IH]; intros i db Hf; [by apply elem_of_nil in Hj|]. cbn [fireJobs]. destruct (Hs i) as (Hfaults & Hcan & Hn).
  destruct (fireJob env now trigger params (calls i) k db) as [[o go_on] db1] eqn:E. pose proof (starts_fireJob _ _ _ _ _ _ _ _ _ _ He Hn E) as [H1 _].
  assert (go_on = true) as ->.
  { revert E. unfold fireJob. rewrite Hcan. destruct (j_Paused k); [by intros [= _ <- _]|]. repeat case_match; by intros [= _ <- _]. }
  cbn [negb]. destruct (fireJobs env now trigger params calls (S i) l db1) as [[outcomes e] db2] eqn:E2.
  apply elem_of_cons in Hj as [<-|Hj].
  - destruct (free_start (sc_newID (calls i)) (sc_queueID (calls i)) now env trigger (j_ID j) params db Hf) as [db' Est].
    unfold fireJob in E. rewrite Hp, Hfaults, Est in E. injection E as <- _.
    exists (sc_newID (calls i), j_ID j, trigger). split; [|done]. unfold started_runs. simpl. rewrite (proj2 (N.eqb_neq _ _) Hn). by left.
  - specialize (IH Hj (S i) db1 (free_job_jobs _ _ _ (st_jobs _ _ _ H1) Hf)). rewrite E2 in IH. destruct IH as (x & Hx & Ex).
    exists x. split; [|done]. rewrite started_cons. apply elem_of_app. by right.
Qed.

Section fires.
Context (uuid_String : uuid → string) (number_text : Z → string) (json_text : json → string) (error_text : store_error → string)
  (fire_error_text : fire_error → string).
Abbreviation route := (Route uuid_String number_text json_text error_text fire_error_text).

(** The parameters the event gives the trigger, with its defaults. *)
Definition event_params (t : EventTrigger) (evt : IngestedEvent) : Params :=
  mergedParams (et_config t)
    (withLifecycleTriggerDepth number_text json_text evt (extractParams number_text json_text (ie_Data evt) (cfg_ParamMapping (et_config t)))).

(** The chain the event belongs to has not reached the maximum depth. *)
Definition depth_allows (t : EventTrigger) (evt : IngestedEvent) : Prop :=
  ∃ merged, applyTriggerDepth (et_maxTriggerDepth t) (event_params t evt) = inr merged.

(** A call without database errors. *)
Record smooth_call (call : RouteCall) : Prop := {
  sm_event : rc_eventID call ≠ uuid_Nil;
  sm_create : rc_createError call = None;
  sm_record : rc_recordError call = None;
  sm_list : ∀ i, rc_listError call i = None;
  sm_starts : ∀ i, smooth (rc_calls call i);
}.

Lemma triggers_fire call evt triggers t j : smooth_call call → t ∈ triggers → depth_allows t evt → ∀ i db,
  j ∈ listJobs (et_id t) db → j_Paused j = false → free_job db (j_ID j) →
  let '(results, db') := fireTriggers uuid_String number_text json_text error_text fire_error_text call evt i triggers db in
  ∃ run, run ∈ flat_map rr_RunsStarted results ∧ (run, j_ID j, et_id t) ∈ map run_identity (job_runs db').
Proof.
  intros Hs Ht [merged Hd]. assert (∀ i k, sc_newID (rc_calls call i k) ≠ uuid_Nil) as Hn by (intros i k; by destruct (sm_starts _ Hs i k) as (_ & _ & ?)).
  induction triggers as [|t' triggers IH]; intros i db Hj Hp Hf; [by apply elem_of_nil in Ht|]. cbn [fireTriggers]. cbv zeta.
  fold (event_params t' evt) in *. set (params := withLifecycleTriggerDepth _ _ _ _).
  pose proof (starts_fire (routeEnv call) (rc_now call) (rc_listError call i) (rc_calls call i) t' params db eq_refl (Hn i)) as HF.
  destruct (FireWithParams (routeEnv call) (rc_now call) (rc_listError call i) (rc_calls call i) t' params db) as [[outcomes e] db1] eqn:E1.
  destruct HF as [H1 P1].
  pose proof (starts_triggers uuid_String number_text json_text error_text fire_error_text call evt triggers Hn (S i) db1) as HT.
  destruct (fireTriggers uuid_String number_text json_text error_text fire_error_text call evt (S i) triggers db1) as [results db2] eqn:E2.
  destruct HT as (_ & added & H2 & _ & _). apply elem_of_cons in Ht as [->|Ht].
  - unfold FireWithParams in E1. fold (event_params t' evt) in E1. unfold event_params in Hd. fold params in Hd. rewrite Hd, (sm_list _ Hs i) in E1.
    pose proof (fireJobs_starts (routeEnv call) (rc_now call) (et_id t') merged (rc_calls call i) (listJobs (et_id t') db) j eq_refl (sm_starts _ Hs i) Hj Hp 0 db Hf) as HS.
    destruct (listJobs (et_id t') db) as [|k l] eqn:El; [by apply elem_of_nil in Hj|]. rewrite E1 in HS. destruct HS as (x & Hx & Ex).
    exists x.1.1. split.
    + simpl. apply elem_of_app. left. rewrite <- (started_ids (et_id t')). apply list_elem_of_fmap. by exists x.
    + apply (st_runs _ _ _ H2). left. apply (st_runs _ _ _ H1). right. destruct (P1 x Hx) as [Et _].
      destruct x as [[run job] trig]. simpl in *. by subst.
  - assert (jobs db1 = jobs db) as Ej by apply H1.
    specialize (IH Ht (S i) db1). rewrite E2 in IH. destruct IH as (run & Hr & Hin); [by unfold listJobs in *; rewrite Ej|done|by eapply free_job_jobs|].
    exists run. split; [|done]. simpl. apply elem_of_app. by right.
Qed.

(** Without database errors a routed event starts a run of each unpaused job that no
    policy holds back. *)
Lemma route_fires call triggers evt s t j : smooth_call call → (∀ t, t ∈ triggers → et_id t ≠ uuid_Nil) → t ∈ triggers →
  triggerMatches number_text json_text (cfg_Events (et_config t)) evt = true → TrimSpace (ie_Type evt) ≠ "" →
  depth_allows t (mkIngestedEvent (TrimSpace (ie_Type evt)) (TrimSpace (ie_Source evt)) (ie_Data evt)) →
  j ∈ listJobs (et_id t) (es_db s) → j_Paused j = false → free_job (es_db s) (j_ID j) →
  ∃ result launched s' run, route call triggers evt s = (inr (result, launched), s') ∧ run ∈ launched ∧
    (run, j_ID j, et_id t) ∈ map run_identity (job_runs (es_db s')).
Proof.
  intros Hs Hnil Ht Hm Hty Hd Hj Hp Hf. unfold Route, CreateTx. cbv zeta. set (evt' := mkIngestedEvent _ _ _) in *.
  rewrite (str_eqb_neq (ie_Type evt') "" Hty), (sm_create _ Hs). cbn [es_db es_events es_matches].
  assert (t ∈ matchingTriggers number_text json_text triggers evt) as Hin.
  { apply list_elem_of_In, filter_In. split; [by apply list_elem_of_In|done]. }
  assert (∀ i k, sc_newID (rc_calls call i k) ≠ uuid_Nil) as Hn by (intros i k; by destruct (sm_starts _ Hs i k) as (_ & _ & ?)).
  pose proof (triggers_fire call evt' _ t j Hs Hin Hd 0 (es_db s) Hj Hp Hf) as HF.
  pose proof (starts_triggers uuid_String number_text json_text error_text fire_error_text call evt'
    (matchingTriggers number_text json_text triggers evt) Hn 0 (es_db s)) as HT.
  destruct (fireTriggers _ _ _ _ _ _ _ _ _ _) as [results db]. destruct HF as (run & Hr & Hrow). destruct HT as (Eids & _).
  unfold RecordMatchesTx. destruct results as [|r results]; [by apply elem_of_nil in Hr|]. rewrite (sm_record _ Hs).
  destruct (existsb _ _) eqn:Ex.
  - exfalso. apply existsb_exists in Ex as (m & Hm' & Hbad). apply in_map_iff in Hm' as (res & <- & Hres). simpl in Hbad.
    rewrite orb_true_iff, !N.eqb_eq in Hbad. destruct Hbad as [Hbad|Hbad]; [by apply (sm_event _ Hs)|].
    assert (rr_TriggerID res ∈ map et_id (matchingTriggers number_text json_text triggers evt)) as Hid by (rewrite <- Eids; by apply list_elem_of_In, in_map).
    apply list_elem_of_In, in_map_iff in Hid as (t' & Et & Ht'). apply filter_In in Ht' as [Ht' _]. apply (Hnil t'); [by apply list_elem_of_In|congruence].
  - eexists _, _, _, run. split; [reflexivity|]. done.
Qed.
End fires.

(** * From the definition to the run *)

Lemma loaded_unless envMaxDepth c c' row : is_Some (Reload envMaxDepth c) → (∀ t, t ∈ c_triggers c' → t ∈ c_triggers c ∨ t = row) →
  is_Some (newEventTrigger envMaxDepth row) → is_Some (Reload envMaxDepth c').
Proof.
  intros Hold Hall Hrow. unfold Reload in *. rewrite mapM_is_Some in Hold |- *. rewrite Forall_forall in Hold |- *.
  intros t Ht. unfold ListByEventPattern in *. apply select_elem in Ht as [Ht Hp]. destruct (Hall t Ht) as [Hin| ->]; [|done].
  apply Hold. by apply select_elem.
Qed.

Lemma loaded_trigger envMaxDepth c triggers row t : Reload envMaxDepth c = Some triggers → row ∈ ListByEventPattern c →
  newEventTrigger envMaxDepth row = Some t → t ∈ triggers.
Proof.
  unfold Reload. intros H%mapM_Some [i Hi]%list_elem_of_lookup E. destruct (Forall2_lookup_l _ _ _ _ _ H Hi) as (t' & Ht & E').
  rewrite E in E'. injection E' as ->. by eapply list_elem_of_lookup_2.
Qed.

Section import.
Context (ParseDuration : string → option Z) (Compile : object → option def_error) (freshness : bool)
  (range_order : option string → gset string → list string) (map_order : list string → list string)
  (MarshalMapString : object → string) (registries : Definition_ → checked ()) (now : Z).
Hypothesis Hrange : range_ok range_order.
Hypothesis Hmap : ∀ l, map_order l ≡ₚ l.
Context (uuid_String : uuid → string) (number_text : Z → string) (json_text : json → string) (error_text : store_error → string)
  (fire_error_text : fire_error → string).

(** C16: an event trigger that is declared fires. Take a definition with an event trigger
    that validates, whose branch steps name a real successor, that the registries accept,
    and a consistent catalog whose triggers load and have non-nil identifiers, with no
    running run of the job and no provenance of another source in the way; at most five contention errors occur in a
    row. Applying it succeeds and leaves a catalog whose triggers load, among them one
    with the declared patterns, parameter mapping and default parameters under the trigger
    identifier of the job; and when the job is not paused and has no concurrency limit,
    every event that matches a pattern, on a chain that is not too deep, is routed, if the
    database calls of the routing succeed, to a new run of the job. *)
Theorem declared_trigger_fires faults runs opts d def c envMaxDepth : few_faults faults → cat_ids c → branch_refs (def_Steps d) →
  Validate ParseDuration Compile freshness range_order d = inr def → mutable runs opts def c → registries def = inr () →
  tg_Type (def_Trigger d) = TriggerEvent → is_Some (Reload envMaxDepth c) → (∀ t, t ∈ c_triggers c → tgr_ID t ≠ uuid_Nil) →
  ∃ job c' triggers t,
    ApplyWithOptions now MarshalMapString ParseDuration Compile freshness range_order map_order registries faults runs d opts c =
      (Some (inr job), c') ∧
    Reload envMaxDepth c' = Some triggers ∧ t ∈ triggers ∧ et_id t = jb_TriggerID job ∧ declared_config (def_Trigger d) (et_config t) ∧
    ∀ call evt db events matches, smooth_call call → jb_Paused job = false → md_Concurrency (def_Metadata def) = None →
      triggerMatches number_text json_text (cfg_Events (et_config t)) evt = true → TrimSpace (ie_Type evt) ≠ "" →
      depth_allows number_text json_text t (mkIngestedEvent (TrimSpace (ie_Type evt)) (TrimSpace (ie_Source evt)) (ie_Data evt)) →
      ∃ result launched s' run,
        Route uuid_String number_text json_text error_text fire_error_text call triggers evt (mkEventStore (publish c' db) events matches) =
          (inr (result, launched), s') ∧
        run ∈ launched ∧ (run, jb_ID job, jb_TriggerID job) ∈ map run_identity (job_runs (es_db s')).
Proof using Hrange Hmap.
  intros (k & Hk & Hf) Hc Hb HV Hmut Hreg Hty Hload Hnil.
  destruct (apply_total ParseDuration Compile freshness range_order map_order MarshalMapString registries now Hrange Hmap runs opts d def c Hc Hb HV Hmut Hreg)
    as (job & c' & E & Hc' & Hin & (trigger & paused & Hjob) & _).
  destruct (apply_trigger _ _ _ _ _ _ _ _ _ _ _ E) as (Hrow & Hall & Hid). set (row := triggerFields _ _ _ _) in *.
  pose proof (validated_trigger _ _ _ _ _ _ HV) as HT. destruct (stored_config_loads _ _ _ HT Hty) as (cfg & Hcfg & Hdecl & _).
  assert (tgr_Type row = TriggerTypeEvent) as Hrt.
  { simpl. destruct (trigger_again freshness _ _ HT) as (_ & -> & _). by rewrite Hty. }
  set (t := mkEventTrigger (jb_TriggerID job) cfg (configuredMaxTriggerDepth envMaxDepth)).
  assert (newEventTrigger envMaxDepth row = Some t) as Hnew.
  { unfold newEventTrigger. rewrite Hrt, str_eqb_refl. cbn [negb]. change (tgr_Configuration row) with (BlobJson (JObj (triggerConfiguration (def_Trigger def)))).
    by rewrite Hcfg. }
  destruct (loaded_unless _ _ _ _ Hload Hall) as [triggers Htr]; [by eexists|].
  assert (t ∈ triggers) as Ht.
  { eapply loaded_trigger; [exact Htr| |exact Hnew]. apply select_elem. split; [exact Hrow|]. by rewrite Hrt, str_eqb_refl. }
  exists job, c', triggers, t. split; [|split_and!; [done|done|done|exact Hdecl|]].
  { unfold ApplyWithOptions. rewrite HV. unfold withImporterBusyRetry. eapply importerRetry_done; [exact E|]. exists k. simpl. split; [lia|done]. }
  intros call evt db events matches Hs Hp Hcon Hm Hte Hd.
  destruct (route_fires uuid_String number_text json_text error_text fire_error_text call triggers evt (mkEventStore (publish c' db) events matches) t (liveJob job))
    as (result & launched & s' & run & HR & Hl & Hrun); [done| |done|done|done|done| |done| |by exists result, launched, s', run].
  - intros t' Ht'. unfold Reload in Htr. apply mapM_Some in Htr. apply list_elem_of_lookup in Ht' as [i Hi].
    destruct (Forall2_lookup_r _ _ _ _ _ Htr Hi) as (row' & Hr' & En). unfold newEventTrigger in En. destruct (negb _); [done|].
    destruct (parseConfig _); simplify_option_eq. simpl. apply list_elem_of_lookup_2, select_elem in Hr' as [Hr' _].
    destruct (Hall row' Hr') as [?| ->]; [auto|]. simpl. destruct Hid as [Hid|(t0 & Ht0 & <-)]; [|auto]. rewrite Hid. pose proof (ci_supply _ Hc).
    unfold uuid_Nil. lia.
  - apply select_elem. split; [|simpl; by rewrite N.eqb_refl]. simpl. apply list_elem_of_In, in_map, list_elem_of_In, select_elem.
    split; [done|]. by rewrite Hjob.
  - destruct (published_admission ParseDuration Compile freshness range_order d def opts job trigger paused c' HV Hc' Hin Hjob db) as [Hcc (p & _ & Hpp)].
    split; [|by exists p]. rewrite Hcon in Hcc. exact Hcc.
Qed.
End import.

(** * A job that follows another *)

Definition follow_definition : Definition_ :=
  mkDefinition "v1" "Job" (mkMetadata "follow" "" None [] "" false None None "" ∅ None)
    (mkTrigger "event" (Some (event_config [("job_alias", JStr "extract")])) [("mode", "auto")]) [] []
    [mkStep "pull" StepTypeTask EngineDocker "img" [] [] [] 0 0 false "" false (mkContainerSpec ∅ "" [] [] None)
       [] "" ∅ None None None None [] None ∅].

Definition follow_validated : Definition_ :=
  match Validate demo_parse demo_compile false canonical_order follow_definition with inr d => d | inl _ => follow_definition end.

Definition follow_apply : option (apply_error + JobRow) * Catalog :=
  ApplyWithOptions 0 (λ _, "{}") demo_parse demo_compile false canonical_order (λ l, l) (λ _, inr ())
    (λ _, false) [] follow_definition None empty_catalog.

Definition follow_triggers : list EventTrigger := default [] (Reload 0 follow_apply.2).

Definition no_text {A} (x : A) : string := "".

Definition demo_call : RouteCall :=
  mkRouteCall 70 5 100 None None (λ _, None) (λ i k, mkStartCall (N.of_nat (80 + 10 * i + k)) (N.of_nat (90 + 10 * i + k)) (λ _, None) false).

Lemma demo_call_fresh i k : sc_newID (rc_calls demo_call i k) ≠ uuid_Nil.
Proof. simpl. unfold uuid_Nil. lia. Qed.

Lemma demo_call_smooth : smooth_call demo_call.
Proof. split; [done|done|done|done|]. intros i k. split_and!; [done|done|apply demo_call_fresh]. Qed.

Lemma follow_validates : Validate demo_parse demo_compile false canonical_order follow_definition = inr follow_validated.
Proof. vm_compute. reflexivity. Qed.

Lemma follow_refs : branch_refs (def_Steps follow_definition).
Proof. intros s Hs. apply elem_of_cons in Hs as [->|Hs]; [done|]. by apply elem_of_nil in Hs. Qed.

(** The event that [extract] completed, and the store before it. *)
Definition extract_event : IngestedEvent := mkIngestedEvent " run_completed" "caesium" [("job_alias", JStr "extract")].

Definition follow_store : EventStore := mkEventStore (publish follow_apply.2 (mkDB [] [] [] [] [] [] [] [] [])) [] [].

Lemma declared_trigger_fires_witness : ∃ job c' triggers t, follow_apply = (Some (inr job), c') ∧ Reload 0 c' = Some triggers ∧ t ∈ triggers ∧
  et_id t = jb_TriggerID job ∧ cfg_DefaultParams (et_config t) = {["mode" := "auto"]} ∧
  ∃ result launched s' run,
    Route demo_uuid_text no_text no_text no_text no_text demo_call triggers extract_event (mkEventStore (publish c' (mkDB [] [] [] [] [] [] [] [] [])) [] []) =
      (inr (result, launched), s') ∧ run ∈ launched ∧ (run, jb_ID job, jb_TriggerID job) ∈ map run_identity (job_runs (es_db s')).
Proof.
  destruct (declared_trigger_fires demo_parse demo_compile false canonical_order (λ l, l) (λ _, "{}") (λ _, inr ()) 0 canonical_range (λ l, reflexivity l)
              demo_uuid_text no_text no_text no_text no_text (λ _, false) [] None follow_definition follow_validated empty_catalog 0)
    as (job & c' & triggers & t & E & Hr & Ht & Hid & Hdecl & Hfire).
  - exists 0%nat. split; [lia|reflexivity].
  - exact empty_cat_ids.
  - exact follow_refs.
  - exact follow_validates.
  - exact I.
  - reflexivity.
  - reflexivity.
  - exists []. reflexivity.
  - intros t Ht. by apply elem_of_nil in Ht.
  - assert (follow_apply = (Some (inr job), c')) as E' by exact E.
    destruct Hdecl as (Hev & Hmap & Hdef).
    assert (cfg_Events (et_config t) = [mkEventPattern "run_*" "caesium" [("job_alias", "extract")]] ∧ cfg_ParamMapping (et_config t) = ∅) as [Ev Em].
    { split; [vm_compute in Hev; injection Hev as Hev; exact (eq_sym Hev)|]. vm_compute in Hmap. injection Hmap as Hmap. exact (eq_sym Hmap). }
    assert (jb_Paused job = false) as Hp.
    { assert (match follow_apply with (Some (inr j), _) => jb_Paused j = false | _ => False end) as V by (vm_compute; reflexivity). rewrite E' in V. exact V. }
    exists job, c', triggers, t. split; [exact E'|]. split; [exact Hr|]. split; [exact Ht|]. split; [exact Hid|]. split; [exact Hdef|].
    apply Hfire; [exact demo_call_smooth|exact Hp|reflexivity|rewrite Ev; vm_compute; reflexivity|vm_compute; discriminate|].
    unfold depth_allows, event_params. rewrite Em. unfold applyTriggerDepth, mergedParams. rewrite (reload_depth 0 c' triggers t Hr Ht).
    assert (cfg_DefaultParams (et_config t) = {["mode" := "auto"]}) as -> by exact Hdef. eexists. vm_compute. reflexivity.
Defined.

(** The run of [extract], whose end starts the first link of a chain. *)
Definition extract_run : JobRun := mkJobRun 50 40 None 0 StatusSucceeded 2 BlobEmpty "" false 0 (Some 4).

Definition extract_ends : LifecycleEvent := runEvent demo_uuid_text (λ _, None) "extract" TypeRunCompleted 9 None extract_run.

Definition after_extract : EventStore :=
  routeLifecycleEvent demo_uuid_text no_text no_text no_text no_text no_text demo_call follow_triggers extract_ends follow_store.

Lemma trigger_chain_bounded_witness : ∃ r, r ∈ job_runs (es_db after_extract) ∧ jr_JobID r = 2%N ∧
  storedDepth (jr_Params r) = storedDepth (jr_Params extract_run) + 1 ∧ storedDepth (jr_Params r) ≤ configuredMaxTriggerDepth 0.
Proof.
  assert (∃ r, job_runs (es_db after_extract) = [r] ∧ jr_JobID r = 2%N) as (r & Er & Ej) by (eexists; vm_compute; split; reflexivity).
  exists r. split; [rewrite Er; left|]. split; [exact Ej|].
  assert (trigger_chain demo_uuid_text no_text no_text no_text no_text no_text 0 (jr_Params extract_run) 1 (jr_Params r)) as HC;
    [|destruct (trigger_chain_bounded demo_uuid_text no_text no_text no_text no_text no_text 0 (jr_Params extract_run) 1 (jr_Params r)
        ltac:(vm_compute; discriminate) HC) as (H1 & _ & H2 & _); exact (conj H1 (H2 (Nat.neq_succ_0 0)))].
  apply (chain_link _ _ _ _ _ _ 0 (jr_Params extract_run) 0 extract_run demo_call follow_apply.2 follow_triggers (λ _, None) "extract" TypeRunCompleted 9 None follow_store).
  - apply chain_root.
  - vm_compute. reflexivity.
  - left.
  - left. exists r. split; [|split; [|reflexivity]].
    + change (r ∈ job_runs (es_db after_extract)). rewrite Er. left.
    + intros Hx. by apply elem_of_nil in Hx.
Defined.

Lemma route_effect_witness : ∃ result launched s',
  Route demo_uuid_text no_text no_text no_text no_text demo_call follow_triggers extract_event follow_store = (inr (result, launched), s') ∧
  launched = [80%N] ∧ length (es_matches s') = 1%nat ∧
  ∃ added, starts added (es_db follow_store) (es_db s') ∧ map (λ i, i.1.1) added = launched.
Proof.
  destruct (Route demo_uuid_text no_text no_text no_text no_text demo_call follow_triggers extract_event follow_store) as [res s'] eqn:E.
  pose proof (route_effect demo_uuid_text no_text no_text no_text no_text demo_call follow_triggers extract_event follow_store res s' demo_call_fresh E) as H.
  destruct res as [e|[result launched]]; [vm_compute in E; discriminate E|]. destruct H as (_ & Hm & _ & added & Hs & Hl & _).
  exists result, launched, s'. split; [reflexivity|].
  assert (launched = [80%N] ∧ length (es_matches s') = 1%nat) as [H1 H2] by (vm_compute in E; injection E as _ <- <-; split; reflexivity).
  split; [exact H1|]. split; [exact H2|]. exists added. split; [exact Hs|exact Hl].
Defined.
