(* ===== verification/LocalExec.v ===== *)
(** The in-process executor (internal/job/job.go, [Run] after the graph is built) and
    its failure policy (internal/job/failure_policy.go): the scheduling loop with its
    queue, counters and deferred tasks, and the goroutine that runs one task with its
    retries.

    A goroutine is a program whose store calls are separate steps ([Proc]), so that the
    steps of different goroutines and of the loop interleave. What the surroundings
    decide is an argument: clocks, database errors, what a container answers, and which
    of the channels the loop waits on delivers. The columns of hashes, logs, exit codes
    and descriptors are not part of the rows, and the cache lookup is its answer. *)

From S2P Require Import Prelude TriggerRule Tables Store RunState TaskOps RunOps Topology JobGraph SqlAdvance RateLimit.

(** * Failure policy *)

Definition taskFailurePolicyHalt : string := "halt".
Definition taskFailurePolicyContinue : string := "continue".

Definition normalizeTaskFailurePolicy (value : string) : string :=
  if ToLower (TrimSpace value) =s taskFailurePolicyContinue then taskFailurePolicyContinue else taskFailurePolicyHalt.

(** Nanoseconds. The shift is on int64, where a distance of 64 or more gives 0. *)
Definition computeRetryDelay (retryDelay : Z) (retryBackoff : bool) (attempt : Z) : Z :=
  if retryDelay <=? 0 then 0
  else if retryBackoff then wrap64 (retryDelay * wrap64 (Z.shiftl 1 (attempt - 1)))
  else retryDelay.

Definition isTolerantRule (rule : string) : bool :=
  (rule =s TriggerRuleAllDone) || (rule =s TriggerRuleAllFailed) || (rule =s TriggerRuleAlways) || (rule =s TriggerRuleOneSuccess).

(** * Errors *)

Inductive exec_error : Type :=
| ErrTaskFailed (id : uuid) (msg : string)
| ErrStoreCall (e : store_error)
| ErrRateLimit (e : limit_error)
| ErrContext
| ErrPreviouslyFailed (id : uuid)
| ErrNoRunnableTasks
| ErrUnresolved (terminal total : Z)
| ErrOutOfFuel.

(** * One task *)

(** What a goroutine sends on the results channel. *)
Record taskResult := mkTaskResult { rs_id : uuid; rs_err : option exec_error; rs_skipped : list uuid }.

(** A goroutine: it has sent its result, or its next call of the store is due. *)
Inductive Proc : Type :=
| Returned (result : taskResult)
| Next (call : DB → Proc * DB).

(** A store call with its continuation. *)
Definition storeCall {A} (call : DB → (store_error + A) * DB) (k : store_error + A → Proc) : Proc :=
  Next (λ db, let '(r, db) := call db in (k r, db)).

(** One attempt as its surroundings decide it: the preparation of the container, the
    errors of the store calls, and the container's end: an error (timeout, cancellation,
    engine failure) or its result, output and branch selections. *)
Record AttemptIO := mkAttemptIO {
  ai_now : Z;
  ai_prepare : option string;
  ai_runtimeID : string;
  ai_startFaults : nat → option store_error;
  ai_end : string + string * gmap string string * list string;
  ai_schemaError : option string;
  ai_completeFaults : nat → option store_error;
  ai_failFault : option store_error;
  ai_retryFault : option store_error;
  ai_cancelledInDelay : bool;
}.

(** A cache entry found for the task's input hash. *)
Record CacheEntry := mkCacheEntry {
  ce_source : CacheHitSource;
  ce_Result : string;
  ce_Output : gmap string string;
  ce_BranchSelections : list string;
  ce_now : Z;
  ce_faults : nat → option store_error;
}.

Record TaskIO := mkTaskIO {
  ti_quarantined : bool;
  ti_retries : Z;
  ti_retryDelay : Z;
  ti_retryBackoff : bool;
  ti_cache : option CacheEntry;
  ti_attempt : Z → AttemptIO;
}.

Section task.
Context (uuid_String : uuid → string) (error_text : exec_error → string) (runID : uuid).

Definition failTaskProc (taskID : uuid) (io : AttemptIO) (e : exec_error) : Proc :=
  storeCall (Transaction (ai_failFault io) (FailTask (ai_now io) runID taskID (error_text e)))
    (λ _, Returned (mkTaskResult taskID (Some e) [])).

Definition finishedWith (taskID : uuid) (result : string) (skipped : list uuid) : Proc :=
  Returned (mkTaskResult taskID
    (if IsSuccessfulTaskResult result then None else Some (ErrTaskFailed taskID ("failed with result " +:+ quoted result))) skipped).

(** An attempt has failed: [rest] is what follows the retry, if any is left. *)
Definition attemptFailed (taskID : uuid) (tio : TaskIO) (attempt : Z) (rest : option Proc) (e : exec_error) : Proc :=
  match rest with
  | None => failTaskProc taskID (ti_attempt tio attempt) e
  | Some next =>
      storeCall (Transaction (ai_retryFault (ti_attempt tio attempt)) (RetryTask runID taskID (attempt + 1)))
        (λ _, if (0 <? computeRetryDelay (ti_retryDelay tio) (ti_retryBackoff tio) attempt) && ai_cancelledInDelay (ti_attempt tio attempt)
              then Returned (mkTaskResult taskID (Some ErrContext) []) else next)
  end.

(** [executeAtom] and what follows it, for one attempt. *)
Definition runAttempt (taskID : uuid) (tio : TaskIO) (attempt : Z) (rest : option Proc) : Proc :=
  let io := ti_attempt tio attempt in
  let failed := attemptFailed taskID tio attempt rest in
  if ti_quarantined tio then failed (ErrTaskFailed taskID "replay requires the descriptor-aware executor")
  else
    match ai_prepare io with
    | Some msg => failed (ErrTaskFailed taskID msg)
    | None =>
        storeCall (withStoreBusyRetry (ai_startFaults io) (StartTask (ai_now io) runID taskID (ai_runtimeID io)))
          (λ started,
            match started, ai_end io with
            | inl e, _ => failed (ErrStoreCall e)
            | inr _, inl msg => failed (ErrTaskFailed taskID msg)
            | inr _, inr (result, output, branches) =>
                match ai_schemaError io with
                | Some msg => failed (ErrTaskFailed taskID msg)
                | None =>
                    storeCall (withStoreBusyRetry (ai_completeFaults io)
                                 (completeTask uuid_String (ai_now io) runID taskID result "" false output branches))
                      (λ completed,
                        match completed with
                        | inl e => Returned (mkTaskResult taskID (Some (ErrStoreCall e)) [])
                        | inr skipped => finishedWith taskID result skipped
                        end)
                end
            end)
    end.

(** [more] attempts may follow this one. *)
Fixpoint attempts (taskID : uuid) (tio : TaskIO) (attempt : Z) (more : nat) : Proc :=
  runAttempt taskID tio attempt
    (match more with O => None | S more => Some (attempts taskID tio (attempt + 1) more) end).

Definition runTask (taskID : uuid) (tio : TaskIO) : Proc :=
  let run := attempts taskID tio 1 (Z.to_nat (ti_retries tio)) in
  match ti_cache tio with
  | None => run
  | Some entry =>
      storeCall (withStoreBusyRetry (ce_faults entry)
                   (cacheHitTask uuid_String (ce_now entry) runID taskID (ce_source entry) (ce_Result entry) "" false
                      (ce_Output entry) (ce_BranchSelections entry)))
        (λ hit, match hit with inl _ => run | inr skipped => finishedWith taskID (ce_Result entry) skipped end)
  end.
End task.

(** * The state of the loop *)

(** What [Run] has read before the loop starts. *)
Record Plan := mkPlan {
  pl_runID : uuid;
  pl_tasks : list uuid;
  pl_graph : jobGraph;
  pl_rule : uuid → string;
  pl_maxParallel : Z;
  pl_continueOnFailure : bool;
}.

Definition taskOrder (p : Plan) (id : uuid) : nat := default 0%nat (fst <$> list_find (eq id) (pl_tasks p)).
Definition adjacent (p : Plan) (id : uuid) : list uuid := map_get [] (g_adjacency (pl_graph p)) id.
Definition preds (p : Plan) (id : uuid) : list uuid := map_get [] (g_predecessors (pl_graph p)) id.

(** The local variables of [Run]; [ex_active] holds the goroutines whose result was not
    received, [active] of the code is their number. *)
Record ExecState := mkExec {
  ex_queue : list uuid;
  ex_inQueue : gset uuid;
  ex_processed : gset uuid;
  ex_outcomes : gmap uuid TaskStatus;
  ex_indegree : gmap uuid Z;
  ex_terminal : Z;
  ex_active : list (uuid * Proc);
  ex_halt : bool;
  ex_runErr : option exec_error;
  ex_deferred : gmap uuid Z;
  ex_tokens : list RateLimitToken;
  ex_db : DB;
}.

Definition set_exqueue q i st := mkExec q i (ex_processed st) (ex_outcomes st) (ex_indegree st) (ex_terminal st) (ex_active st)
  (ex_halt st) (ex_runErr st) (ex_deferred st) (ex_tokens st) (ex_db st).
Definition set_exprogress i p o t st := mkExec (ex_queue st) i p o (ex_indegree st) t (ex_active st)
  (ex_halt st) (ex_runErr st) (ex_deferred st) (ex_tokens st) (ex_db st).
Definition set_exindegree d st := mkExec (ex_queue st) (ex_inQueue st) (ex_processed st) (ex_outcomes st) d (ex_terminal st) (ex_active st)
  (ex_halt st) (ex_runErr st) (ex_deferred st) (ex_tokens st) (ex_db st).
Definition set_exactive a st := mkExec (ex_queue st) (ex_inQueue st) (ex_processed st) (ex_outcomes st) (ex_indegree st) (ex_terminal st) a
  (ex_halt st) (ex_runErr st) (ex_deferred st) (ex_tokens st) (ex_db st).
Definition set_exhalt q h e st := mkExec q (ex_inQueue st) (ex_processed st) (ex_outcomes st) (ex_indegree st) (ex_terminal st) (ex_active st)
  h e (ex_deferred st) (ex_tokens st) (ex_db st).
Definition set_exdeferred d st := mkExec (ex_queue st) (ex_inQueue st) (ex_processed st) (ex_outcomes st) (ex_indegree st) (ex_terminal st)
  (ex_active st) (ex_halt st) (ex_runErr st) d (ex_tokens st) (ex_db st).
Definition set_exstore tk db st := mkExec (ex_queue st) (ex_inQueue st) (ex_processed st) (ex_outcomes st) (ex_indegree st) (ex_terminal st)
  (ex_active st) (ex_halt st) (ex_runErr st) (ex_deferred st) tk db.

Definition is_processed (st : ExecState) (id : uuid) : bool := bool_decide (id ∈ ex_processed st).
Definition is_queued (st : ExecState) (id : uuid) : bool := bool_decide (id ∈ ex_inQueue st).

(** An error keeps the first one, sets [halt] and empties the queue. *)
Definition haltWith (e : exec_error) (st : ExecState) : ExecState :=
  set_exhalt [] true (match ex_runErr st with None => Some e | Some e => Some e end) st.

Definition push (p : Plan) (id : uuid) (st : ExecState) : ExecState :=
  if is_processed st id || is_queued st id then st
  else set_exqueue (sort_stable (λ a b, (taskOrder p a <? taskOrder p b)%nat) (ex_queue st ++ [id])) ({[id]} ∪ ex_inQueue st) st.

(** The fields of a task that ends without running, or with a result. *)
Definition markProcessed (id : uuid) (st : ExecState) : ExecState :=
  set_exprogress (ex_inQueue st) ({[id]} ∪ ex_processed st) (ex_outcomes st) (ex_terminal st + 1) st.
Definition setOutcome (id : uuid) (status : TaskStatus) (st : ExecState) : ExecState :=
  set_exprogress (ex_inQueue st) (ex_processed st) (<[id := status]> (ex_outcomes st)) (ex_terminal st) st.
Definition markSkipped (id : uuid) (st : ExecState) : ExecState :=
  let st := markProcessed id (setOutcome id TaskStatusSkipped st) in
  set_exprogress (ex_inQueue st ∖ {[id]}) (ex_processed st) (ex_outcomes st) (ex_terminal st) st.

(** Clock and database errors of the skips of one turn. *)
Record SkipIO := mkSkipIO { si_now : Z; si_fault : uuid → option store_error }.

Definition storeSkip (p : Plan) (io : SkipIO) (id : uuid) (reason : string) (st : ExecState) : option exec_error * ExecState :=
  match Transaction (si_fault io id) (SkipTask (si_now io) (pl_runID p) id reason) (ex_db st) with
  | (inl e, db) => (Some (ErrStoreCall e), set_exstore (ex_tokens st) db st)
  | (inr _, db) => (None, set_exstore (ex_tokens st) db st)
  end.

Definition decrementIn (id : uuid) (st : ExecState) : ExecState :=
  let n := map_get 0 (ex_indegree st) id in
  if 0 <? n then set_exindegree (<[id := n - 1]> (ex_indegree st)) st else st.

Definition satisfied (p : Plan) (st : ExecState) (id : uuid) : bool :=
  SatisfiesTriggerRule (pl_rule p id) (CollectPredecessorStatuses (preds p id) (ex_outcomes st)).

(** * Skips *)

(** The successors of one skipped task; the tasks skipped join the queue. *)
Fixpoint propagateEach (p : Plan) (io : SkipIO) (succs : list uuid) (queue : list uuid) (seen : gset uuid) (st : ExecState)
    : option exec_error * list uuid * gset uuid * ExecState :=
  match succs with
  | [] => (None, queue, seen, st)
  | s :: l =>
      if is_processed st s then propagateEach p io l queue seen st
      else
        match ex_indegree st !! s with
        | None => propagateEach p io l queue seen st
        | Some _ =>
            let st := decrementIn s st in
            if negb (map_get 0 (ex_indegree st) s =? 0) then propagateEach p io l queue seen st
            else if satisfied p st s then propagateEach p io l queue seen (push p s st)
            else
              match storeSkip p io s (ruleUnsatisfied (pl_rule p s)) st with
              | (Some e, st) => (Some e, queue, seen, st)
              | (None, st) =>
                  let st := markSkipped s st in
                  if bool_decide (s ∈ seen) then propagateEach p io l queue seen st
                  else propagateEach p io l (queue ++ [s]) ({[s]} ∪ seen) st
              end
        end
  end.

Fixpoint propagateLoop (fuel : nat) (p : Plan) (io : SkipIO) (queue : list uuid) (seen : gset uuid) (st : ExecState)
    : option exec_error * ExecState :=
  match queue with
  | [] => (None, st)
  | current :: queue =>
      match fuel with
      | O => (Some ErrOutOfFuel, st)
      | S fuel =>
          match propagateEach p io (adjacent p current) queue seen st with
          | (Some e, _, _, st) => (Some e, st)
          | (None, queue, seen, st) => propagateLoop fuel p io queue seen st
          end
      end
  end.

(** Every task joins the queue at most once, after [start]. *)
Definition propagateSkipped (p : Plan) (io : SkipIO) (start : uuid) (st : ExecState) : option exec_error * ExecState :=
  propagateLoop (S (size (dom (g_adjacency (pl_graph p))))) p io [start] {[start]} st.

(** [skipDescendantsFiltered] with its callback. *)
Fixpoint skipDescendantsLoop (fuel : nat) (p : Plan) (skipFn : uuid → ExecState → ExecState) (queue : list uuid) (seen : gset uuid) (st : ExecState)
    : option ExecState :=
  match queue with
  | [] => Some st
  | id :: queue =>
      match fuel with
      | O => None
      | S fuel =>
          if bool_decide (id ∈ seen) then skipDescendantsLoop fuel p skipFn queue seen st
          else
            let seen := {[id]} ∪ seen in
            if is_processed st id || is_queued st id then skipDescendantsLoop fuel p skipFn queue seen st
            else if isTolerantRule (pl_rule p id) then skipDescendantsLoop fuel p skipFn queue seen st
            else skipDescendantsLoop fuel p skipFn (queue ++ adjacent p id) seen (skipFn id st)
      end
  end.

(** The edges of the graph: every one is walked at most once. *)
Definition edgeCount (p : Plan) : nat := sum_list_with (λ id, length (adjacent p id)) (elements (dom (g_adjacency (pl_graph p)))).

Definition skipDescendantsFiltered (p : Plan) (skipFn : uuid → ExecState → ExecState) (start : uuid) (st : ExecState) : option ExecState :=
  skipDescendantsLoop (length (adjacent p start) + edgeCount p) p skipFn (adjacent p start) ∅ st.

(** The list of all descendants, in the order they are found. *)
Fixpoint collectLoop (fuel : nat) (p : Plan) (queue : list uuid) (seen : gset uuid) (out : list uuid) : option (list uuid) :=
  match queue with
  | [] => Some out
  | id :: queue =>
      match fuel with
      | O => None
      | S fuel =>
          if bool_decide (id ∈ seen) then collectLoop fuel p queue seen out
          else collectLoop fuel p (queue ++ adjacent p id) ({[id]} ∪ seen) (out ++ [id])
      end
  end.

Definition collectDescendants (p : Plan) (start : uuid) : option (list uuid) :=
  collectLoop (length (adjacent p start) + edgeCount p) p (adjacent p start) ∅ [].

(** [propagateSkipped] with an error that halts the loop. *)
Definition propagateOrHalt (p : Plan) (io : SkipIO) (id : uuid) (st : ExecState) : bool * ExecState :=
  match propagateSkipped p io id st with
  | (Some e, st) => (true, haltWith e st)
  | (None, st) => (false, st)
  end.

(** The callback: an error of the store halts but still counts the task as skipped. *)
Definition skipFailedDependent (p : Plan) (io : SkipIO) (reason : string) (id : uuid) (st : ExecState) : ExecState :=
  let st := match storeSkip p io id reason st with
            | (Some e, st) => haltWith e st
            | (None, st) => st
            end in
  let st := markSkipped id st in
  if ex_halt st then st else (propagateOrHalt p io id st).2.

(** * Results *)

(** A successor whose counter is decremented: it is queued, or skipped with what follows. The
    flag says that the loop over the successors breaks. *)
Definition settleSuccessor (p : Plan) (io : SkipIO) (s : uuid) (st : ExecState) : bool * ExecState :=
  let st := decrementIn s st in
  if negb (map_get 0 (ex_indegree st) s =? 0) then (false, st)
  else if satisfied p st s then (false, push p s st)
  else
    match storeSkip p io s (ruleUnsatisfied (pl_rule p s)) st with
    | (Some e, st) => (true, haltWith e st)
    | (None, st) => propagateOrHalt p io s (markSkipped s st)
    end.

Fixpoint settleAll (p : Plan) (io : SkipIO) (skip : ExecState → uuid → bool) (succs : list uuid) (st : ExecState) : ExecState :=
  match succs with
  | [] => st
  | s :: l =>
      if skip st s then settleAll p io skip l st
      else
        match ex_indegree st !! s with
        | None => settleAll p io skip l st
        | Some _ =>
            let '(stop, st) := settleSuccessor p io s st in
            if stop then st else settleAll p io skip l st
        end
  end.

Definition handleFailure (p : Plan) (io : SkipIO) (reason : string) (id : uuid) (e : exec_error) (st : ExecState) : ExecState :=
  let st := setOutcome id TaskStatusFailed st in
  let st := set_exhalt (ex_queue st) (ex_halt st) (match ex_runErr st with None => Some e | Some e => Some e end) st in
  if negb (pl_continueOnFailure p) then set_exhalt [] true (ex_runErr st) st
  else
    match skipDescendantsFiltered p (skipFailedDependent p io reason) id st with
    | None => haltWith ErrOutOfFuel st
    | Some st => if ex_halt st then st else settleAll p io is_processed (adjacent p id) st
    end.

(** The tasks the store skipped together with the completion. *)
Fixpoint applySkipped (p : Plan) (io : SkipIO) (skipped : list uuid) (st : ExecState) : ExecState :=
  match skipped with
  | [] => st
  | s :: l =>
      if is_processed st s then applySkipped p io l st
      else
        let '(stop, st) := propagateOrHalt p io s (markSkipped s st) in
        if stop then st else applySkipped p io l st
  end.

Definition handleSuccess (p : Plan) (io : SkipIO) (id : uuid) (skipped : list uuid) (st : ExecState) : ExecState :=
  let st := setOutcome id TaskStatusSucceeded st in
  let st := applySkipped p io skipped st in
  if ex_halt st then st else settleAll p io (λ _ s, bool_decide (s ∈ skipped)) (adjacent p id) st.

Definition handleResult (uuid_String : uuid → string) (p : Plan) (io : SkipIO) (result : taskResult) (st : ExecState) : ExecState :=
  if is_processed st (rs_id result) then st
  else
    let st := markProcessed (rs_id result) st in
    match rs_err result with
    | Some e => handleFailure p io ("skipped due to failed dependency task " +:+ uuid_String (rs_id result)) (rs_id result) e st
    | None => handleSuccess p io (rs_id result) (rs_skipped result) st
    end.

(** * The loop *)

(** What decides one dispatch: the rule of the task, clock, the error of the delay's store
    call, and whether the pool takes the goroutine before the context ends. *)
Record DispatchIO := mkDispatchIO {
  di_rule : limit_error + option Rule;
  di_now : Z;
  di_faults : nat → option store_error;
  di_submitted : bool;
  di_task : TaskIO;
}.

(** [Some t]: the limiter refuses the task until [t]. *)
Definition acquireTaskRateLimit (p : Plan) (io : DispatchIO) (taskID : uuid) (st : ExecState) : (exec_error + option Z) * ExecState :=
  match di_rule io with
  | inl e => (inl (ErrRateLimit e), st)
  | inr None => (inr None, st)
  | inr (Some rule) =>
      match Acquire (di_now io) (ru_Resource rule) (ru_Units rule) (ru_Limit rule) (ru_Window rule) (ex_tokens st) with
      | (inl e, tokens) => (inl (ErrRateLimit e), set_exstore tokens (ex_db st) st)
      | (inr true, tokens) => (inr None, set_exstore tokens (ex_db st) st)
      | (inr false, tokens) =>
          let retryAfter := di_now io + RetryAfter (di_now io) (ru_Window rule) in
          match withStoreBusyRetry (di_faults io) (RateLimitTask (di_now io) (pl_runID p) taskID (Some retryAfter)) (ex_db st) with
          | (inl e, db) => (inl (ErrStoreCall e), set_exstore tokens db st)
          | (inr _, db) => (inr (Some retryAfter), set_exstore tokens db st)
          end
      end
  end.

(** Which channel the loop receives from when it waits. *)
Inductive arrival : Type :=
| ResultOf (id : uuid)
| TimerFired
| ContextDone.

(** One wait of the loop as its surroundings decide it. *)
Record WaitIO := mkWaitIO { wa_now : Z; wa_arrival : arrival; wa_skip : SkipIO }.

(** Where the loop is: at its condition, in the inner loop that dispatches, at the wait, or
    past its end. *)
Inductive phase : Type := LoopTop | Dispatching | Waiting | Exited.

Section loop.
Context (uuid_String : uuid → string) (error_text : exec_error → string) (p : Plan).

Definition dispatch (io : DispatchIO) (taskID : uuid) (st : ExecState) : option exec_error * ExecState :=
  match acquireTaskRateLimit p io taskID st with
  | (inl e, st) => (Some e, st)
  | (inr (Some retryAfter), st) => (None, set_exdeferred (<[taskID := retryAfter]> (ex_deferred st)) st)
  | (inr None, st) =>
      if di_submitted io
      then (None, set_exactive (ex_active st ++ [(taskID, runTask uuid_String error_text (pl_runID p) taskID (di_task io))]) st)
      else (Some ErrContext, st)
  end.

(** [moveDueDeferred]; the map is ranged over in the order of the turn. *)
Fixpoint moveDue (now : Z) (order : list uuid) (st : ExecState) : bool * ExecState :=
  match order with
  | [] => (false, st)
  | id :: order =>
      match ex_deferred st !! id with
      | None => moveDue now order st
      | Some retryAfter =>
          if now <? retryAfter then moveDue now order st
          else (true, (moveDue now order (push p id (set_exdeferred (delete id (ex_deferred st)) st))).2)
      end
  end.

Definition nextDeferredAt (st : ExecState) : option Z :=
  map_fold (λ _ t next, match next with None => Some t | Some n => Some (if t <? n then t else n) end) None (ex_deferred st).

(** One pass of the inner loop. *)
Definition dispatchStep (io : uuid → DispatchIO) (st : ExecState) : phase * ExecState :=
  match ex_queue st with
  | [] => (Waiting, st)
  | taskID :: queue =>
      if ex_halt st || negb (Z.of_nat (length (ex_active st)) <? pl_maxParallel p) then (Waiting, st)
      else
        let st := set_exqueue queue (ex_inQueue st ∖ {[taskID]}) st in
        if is_processed st taskID then (Dispatching, st)
        else
          match dispatch (io taskID) taskID st with
          | (Some e, st) => (Waiting, haltWith e st)
          | (None, st) => (Dispatching, st)
          end
  end.

(** Receiving the result of a goroutine that has sent it. *)
Definition receive (io : SkipIO) (id : uuid) (st : ExecState) : option ExecState :=
  '(i, proc) ← list_find (λ g : uuid * Proc, g.1 = id) (ex_active st);
  match proc.2 with
  | Returned result => Some (handleResult uuid_String p io result (set_exactive (delete i (ex_active st)) st))
  | Next _ => None
  end.

Definition cancelled (st : ExecState) : ExecState := set_exhalt (ex_queue st) true (Some ErrContext) st.

(** The wait after the dispatches, and what is done with a result; [None] says that nothing
    of the kind can arrive where the loop waits. *)
Definition await (w : WaitIO) (st : ExecState) : option (phase * ExecState) :=
  let idle := bool_decide (ex_active st = []) in
  let received id := st ← receive (wa_skip w) id st; Some (LoopTop, st) in
  match bool_decide (ex_queue st = []) && negb (bool_decide (ex_deferred st = ∅)), ex_halt st with
  | true, true =>
      if idle then Some (Exited, st)
      else match wa_arrival w with ResultOf id => received id | TimerFired => Some (LoopTop, st) | ContextDone => None end
  | true, false =>
      match nextDeferredAt st with
      | None => Some (LoopTop, st)
      | Some next =>
          if next <=? wa_now w then Some (LoopTop, st)
          else
            match wa_arrival w with
            | ResultOf id => if idle then None else received id
            | TimerFired => Some (LoopTop, st)
            | ContextDone => Some (LoopTop, cancelled st)
            end
      end
  | false, _ =>
      if idle then Some (Exited, st)
      else match wa_arrival w with ResultOf id => received id | _ => None end
  end.

Definition loopCondition (st : ExecState) : bool :=
  (negb (ex_halt st) && (negb (bool_decide (ex_queue st = [])) || negb (bool_decide (ex_deferred st = ∅)))) ||
  negb (bool_decide (ex_active st = [])).

(** The condition of the loop and the deferred tasks that are due. *)
Definition topStep (now : Z) (order : list uuid) (st : ExecState) : phase * ExecState :=
  if negb (loopCondition st) then (Exited, st)
  else
    let '(moved, st) := if ex_halt st then (false, st) else moveDue now order st in
    (if moved then LoopTop else Dispatching, st).

(** * The system: the loop and its goroutines on one database *)

(** The handling of one result is one step of the loop; a goroutine takes a step per store
    call, at any point between the steps of the loop and of the others. *)
Inductive sys_step : phase * ExecState → phase * ExecState → Prop :=
| step_top now order st : order ≡ₚ (map_to_list (ex_deferred st)).*1 → sys_step (LoopTop, st) (topStep now order st)
| step_dispatch io st : sys_step (Dispatching, st) (dispatchStep io st)
| step_wait w st r : await w st = Some r → sys_step (Waiting, st) r
| step_call (i : nat) id call ph st proc db :
    ex_active st !! i = Some (id, Next call) → call (ex_db st) = (proc, db) →
    sys_step (ph, st) (ph, set_exactive (<[i := (id, proc)]> (ex_active st)) (set_exstore (ex_tokens st) db st)).

(** * Start and end *)

(** The rows of the run as the executor finds them. *)
Fixpoint loadTasks (rows : list TaskRun) (st : ExecState) : exec_error + ExecState :=
  match rows with
  | [] => inr st
  | r :: rows =>
      let id := tr_TaskID r in
      let st := set_exindegree (<[id := tr_OutstandingPredecessors r]> (ex_indegree st)) st in
      if (tr_Status r =s TaskStatusSucceeded) || (tr_Status r =s TaskStatusCached)
      then loadTasks rows (setOutcome id TaskStatusSucceeded (markProcessed id st))
      else if tr_Status r =s TaskStatusSkipped
      then loadTasks rows (setOutcome id TaskStatusSkipped (markProcessed id st))
      else if tr_Status r =s TaskStatusFailed then inl (ErrPreviouslyFailed id)
      else loadTasks rows st
  end.

Definition pushReadyTasks (rows : list TaskRun) (st : ExecState) : ExecState :=
  fold_left (λ st r, if is_processed st (tr_TaskID r) then st
                     else if map_get 0 (ex_indegree st) (tr_TaskID r) =? 0 then push p (tr_TaskID r) st else st) rows st.

Definition startExec (tokens : list RateLimitToken) (db : DB) : exec_error + ExecState :=
  let rows := select (λ r, (tr_JobRunID r =? pl_runID p)%N) (task_runs db) in
  match loadTasks rows (mkExec [] ∅ ∅ ∅ (g_indegree (pl_graph p)) 0 [] false None ∅ tokens db) with
  | inl e => inl e
  | inr st =>
      let st := pushReadyTasks rows st in
      if bool_decide (ex_queue st = []) && (ex_terminal st <? Z.of_nat (length (pl_tasks p))) then inl ErrNoRunnableTasks else inr st
  end.

(** What [Run] returns after the loop. *)
Definition runReturn (st : ExecState) : option exec_error :=
  match ex_runErr st with
  | Some e => Some e
  | None => if negb (ex_terminal st =? Z.of_nat (length (pl_tasks p)))
            then Some (ErrUnresolved (ex_terminal st) (Z.of_nat (length (pl_tasks p)))) else None
  end.

(** The deferred call that completes the run; it reads [runErr], not the value returned. *)
Definition completeRun (faults : nat → option store_error) (now : Z) (st : ExecState) : (store_error + ()) * DB :=
  Complete faults now (pl_runID p) (error_text <$> ex_runErr st) (ex_db st).
End loop.
