(* ===== verification/LocalPolicy.v ===== *)
(** The failure policy of the in-process executor (internal/job/failure_policy.go): its walks
    over the graph end within their fuel, [collectDescendants] lists exactly the tasks
    reachable from its start, and the delay of a retry. *)

From S2P Require Import Prelude TriggerRule Tables Store RunState TaskOps RunOps Topology JobGraph SqlAdvance RateLimit LocalExec.

(** * Work lists *)

Section walk.
Context (p : Plan).

(** The edges out of tasks that were not seen. *)
Definition edgesLeft (seen : gset uuid) : nat := sum_list_with (λ id, length (adjacent p id)) (elements (dom (g_adjacency (pl_graph p)) ∖ seen)).

Lemma edges_all : edgesLeft ∅ = edgeCount p.
Proof. unfold edgesLeft, edgeCount. by rewrite difference_empty_L. Qed.

Lemma adjacent_dom id : id ∉ dom (g_adjacency (pl_graph p)) → adjacent p id = [].
Proof. intros H%not_elem_of_dom. unfold adjacent, map_get. by rewrite H. Qed.

(** A task that is seen gives up its edges. *)
Lemma edges_seen id seen : id ∉ seen → edgesLeft seen = (length (adjacent p id) + edgesLeft ({[id]} ∪ seen))%nat.
Proof.
  intros H. unfold edgesLeft. set (D := dom (g_adjacency (pl_graph p))). destruct (decide (id ∈ D)) as [Hd|Hd].
  - assert (D ∖ seen = {[id]} ∪ D ∖ ({[id]} ∪ seen)) as E.
    { apply set_eq. intros x. rewrite elem_of_union, !elem_of_difference, elem_of_union, elem_of_singleton. destruct (decide (x = id)) as [->|]; tauto. }
    rewrite E at 1. rewrite elements_union_singleton by set_solver. done.
  - rewrite (adjacent_dom id Hd). cbn. do 2 f_equal. set_solver.
Qed.

(** One task out of the queue: the fuel left covers the new queue. *)
Lemma walk_seen fuel (id : uuid) (queue : list uuid) seen : (length (id :: queue) + edgesLeft seen ≤ S fuel → length queue + edgesLeft seen ≤ fuel)%nat.
Proof. cbn. lia. Qed.

Lemma walk_new fuel (id : uuid) (queue : list uuid) seen : id ∉ seen → (length (id :: queue) + edgesLeft seen ≤ S fuel)%nat →
  (length (queue ++ adjacent p id) + edgesLeft ({[id]} ∪ seen) ≤ fuel)%nat.
Proof. intros H. rewrite (edges_seen id seen H), length_app. cbn. lia. Qed.

Lemma failureWalk_total skipFn fuel queue seen st : (length queue + edgesLeft seen ≤ fuel)%nat → is_Some (skipDescendantsLoop fuel p skipFn queue seen st).
Proof.
  revert queue seen st. induction fuel as [|fuel IH]; intros [|id queue] seen st H; cbn [skipDescendantsLoop]; try (by eexists); [cbn in H; lia|].
  case_bool_decide as Hs; [by apply IH, (walk_seen _ id)|]. pose proof (walk_new fuel id queue seen Hs H) as HN.
  assert (length queue + edgesLeft ({[id]} ∪ seen) ≤ fuel)%nat as HL by (rewrite length_app in HN; lia).
  destruct (_ || _); [by apply IH|]. destruct (isTolerantRule _); by apply IH.
Qed.

(** The walk of a failure ends within its fuel, whatever the callback does. *)
Lemma skipDescendants_total skipFn start st : is_Some (skipDescendantsFiltered p skipFn start st).
Proof. apply failureWalk_total. by rewrite edges_all. Qed.

(** * Descendants *)

Definition descends (x y : uuid) : Prop := y ∈ adjacent p x.

Lemma closed_descends (out : list uuid) x y : tc descends x y → (∀ z, z ∈ adjacent p x → z ∈ out) → (∀ z w, z ∈ out → w ∈ adjacent p z → w ∈ out) → y ∈ out.
Proof. intros Htc Hx Hout. revert Hx. induction Htc as [x y H|x y z H _ IH]; intros Hx; [by apply Hx|]. apply IH. intros w. by apply Hout, Hx. Qed.

Lemma collectLoop_spec start fuel queue seen out : seen = list_to_set out → NoDup out → (length queue + edgesLeft seen ≤ fuel)%nat →
  (∀ x, x ∈ queue ∨ x ∈ out → tc descends start x) → (∀ y, y ∈ adjacent p start → y ∈ queue ∨ y ∈ out) →
  (∀ x y, x ∈ out → y ∈ adjacent p x → y ∈ queue ∨ y ∈ out) →
  ∃ res, collectLoop fuel p queue seen out = Some res ∧ NoDup res ∧ ∀ x, x ∈ res ↔ tc descends start x.
Proof.
  revert queue seen out. induction fuel as [|fuel IH]; intros [|id queue] seen out Hseen Hnd Hf Hr Hs Hc; cbn [collectLoop]; try (cbn in Hf; lia).
  1,2: exists out; split_and!; [done|done|]; intros x; split; [intros Hx; apply Hr; by right|]; intros Htc; apply (closed_descends out start x Htc);
    [intros z Hz; by destruct (Hs z Hz) as [?%elem_of_nil|?]|intros z w Hz Hw; by destruct (Hc z w Hz Hw) as [?%elem_of_nil|?]].
  case_bool_decide as Hid.
  - subst seen. rewrite elem_of_list_to_set in Hid. apply IH; [done|done|by apply (walk_seen _ id)| | |].
    + intros x [Hx|Hx]; apply Hr; [left; by apply elem_of_cons; right|by right].
    + intros y Hy. destruct (Hs y Hy) as [[->|?]%elem_of_cons|?]; by auto.
    + intros x y Hx Hy. destruct (Hc x y Hx Hy) as [[->|?]%elem_of_cons|?]; by auto.
  - assert (id ∉ out) as Hno by (intros ?; apply Hid; subst seen; by apply elem_of_list_to_set). assert (tc descends start id) as Hid' by (apply Hr; left; by apply elem_of_cons; left).
    apply IH; [| |by apply walk_new| | |].
    + subst seen. rewrite list_to_set_app_L. cbn. set_solver.
    + apply NoDup_app. split_and!; [done| |apply NoDup_singleton]. intros x Hx ->%list_elem_of_singleton. done.
    + intros x [[Hx|Hx]%elem_of_app|[Hx|Hx]%elem_of_app]; [apply Hr; left; by apply elem_of_cons; right|by eapply tc_r|apply Hr; by right|].
      by apply list_elem_of_singleton in Hx as ->.
    + intros y Hy. rewrite !elem_of_app, list_elem_of_singleton. destruct (Hs y Hy) as [[->|?]%elem_of_cons|?]; by auto.
    + intros x y. rewrite !elem_of_app, !list_elem_of_singleton. intros [Hx| ->] Hy; [|by auto]. destruct (Hc x y Hx Hy) as [[->|?]%elem_of_cons|?]; by auto.
Qed.
End walk.

(** [collectDescendants] ends within its fuel on every graph, cyclic ones included, and
    lists exactly the tasks reachable from its start over one edge or more, each once. *)
Lemma collectDescendants_spec p start : ∃ out, collectDescendants p start = Some out ∧ NoDup out ∧ ∀ x, x ∈ out ↔ tc (descends p) start x.
Proof.
  apply collectLoop_spec; [done|constructor|by rewrite edges_all| | |].
  - intros x [Hx|Hx]; [by apply tc_once|by apply elem_of_nil in Hx].
  - intros y Hy. by left.
  - intros x y Hx. by apply elem_of_nil in Hx.
Qed.

(** * The delay of a retry *)

(** The delay before the attempt after [attempt]: nothing without a configured delay, the
    configured delay without backoff, and with backoff the delay doubled per attempt as long
    as the product fits in 63 bits; from attempt 65 on the shift has left the word and the
    delay is zero. Any delay lies in the range of int64. *)
Lemma retry_delay_spec d backoff attempt : 1 ≤ attempt → int64_min ≤ d ≤ int64_max →
  let r := computeRetryDelay d backoff attempt in
  (d ≤ 0 → r = 0) ∧ (0 < d → backoff = false → r = d) ∧
  (0 < d → backoff = true → d * 2 ^ (attempt - 1) ≤ int64_max → r = d * 2 ^ (attempt - 1)) ∧
  (0 < d → backoff = true → 65 ≤ attempt → r = 0) ∧ int64_min ≤ r ≤ int64_max.
Proof.
  intros Ha Hd r. unfold r, computeRetryDelay. destruct (Z.leb_spec d 0) as [H0|H0]; [split_and!; try lia; try (unfold int64_min; lia); unfold int64_max; lia|].
  rewrite Z.shiftl_mul_pow2, Z.mul_1_l by lia. destruct backoff; [|split_and!; try done; lia].
  split_and!; try done; try lia.
  - intros _ _ Hle. assert (0 < 2 ^ (attempt - 1)) by (apply Z.pow_pos_nonneg; lia).
    rewrite (wrap64_small (2 ^ (attempt - 1))); [apply wrap64_small|]; unfold int64_min, int64_max in *; nia.
  - intros _ _ H65. assert (wrap64 (2 ^ (attempt - 1)) = 0) as ->; [|by rewrite Z.mul_0_r]. unfold wrap64.
    replace (attempt - 1) with ((attempt - 65) + 64) by lia. rewrite Z.pow_add_r by lia. rewrite Z.add_comm, Z_mod_plus_full. done.
  - apply wrap64_range.
  - apply wrap64_range.
Qed.

Lemma retry_delay_spec_witness : computeRetryDelay 5000000000 true 4 = 40000000000 ∧ computeRetryDelay 5000000000 true 65 = 0.
Proof.
  destruct (retry_delay_spec 5000000000 true 4) as (_ & _ & H & _); [lia|unfold int64_min, int64_max; lia|].
  destruct (retry_delay_spec 5000000000 true 65) as (_ & _ & _ & H' & _); [lia|unfold int64_min, int64_max; lia|].
  split; [apply H; [lia|done|vm_compute; discriminate]|apply H'; [lia|done|lia]].
Defined.
