(* ===== verification/LocalRows.v ===== *)
(** The task rows of a run in the in-process executor: the outcome a run of a job has by
    its trigger rules, as equations over the graph, and that the SQL side of a completion
    (store.go, [completeTask] with its skip cascade) moves the rows towards it. *)

From S2P Require Import Prelude TriggerRule Tables Store TxLogic RunState TaskOps RunOps Topology JobGraph SqlAdvance TaskTheorems RateLimit LocalExec.

(** * Transactions that succeed *)

(** Total correctness: [m] succeeds on [db], and its result and database satisfy [Q]. *)
Definition succeeds {A} (m : Tx A) (db : DB) (Q : A → DB → Prop) : Prop :=
  match m db with inl _ => False | inr (a, db') => Q a db' end.

Lemma succeeds_mono {A} (m : Tx A) db (P Q : A → DB → Prop) : (∀ a db', P a db' → Q a db') → succeeds m db P → succeeds m db Q.
Proof. unfold succeeds. intros H. destruct (m db) as [|[a db']]; [done|apply H]. Qed.

Lemma succeeds_bind {A B} (m : Tx A) (k : A → Tx B) db Q :
  succeeds m db (λ a db', succeeds (k a) db' Q) → succeeds (m ≫= k) db Q.
Proof. unfold succeeds, mbind, Tx_bind. by destruct (m db) as [|[a db']]. Qed.

Lemma succeeds_ret {A} (a : A) db (Q : A → DB → Prop) : Q a db → succeeds (mret a) db Q.
Proof. done. Qed.

Lemma succeeds_query {A} (f : DB → A) db (Q : A → DB → Prop) : Q (f db) db → succeeds (Query f) db Q.
Proof. done. Qed.

Lemma succeeds_first {A} (f : DB → list A) db a (Q : A → DB → Prop) : first (f db) = Some a → Q a db → succeeds (First f) db Q.
Proof. unfold succeeds, First. by intros ->. Qed.

Lemma succeeds_append evt db (Q : () → DB → Prop) : Q () (set_execution_events (execution_events db ++ [evt]) db) → succeeds (AppendTx evt) db Q.
Proof. done. Qed.

Lemma succeeds_run {A} (m : Tx A) db Q : succeeds m db Q → ∃ a db', m db = inr (a, db') ∧ Q a db'.
Proof. unfold succeeds. destruct (m db) as [|[a db']]; [done|]. intros H. by exists a, db'. Qed.

(** The postcondition may use the equation. *)
Lemma succeeds_eq {A} (m : Tx A) db (Q : A → DB → Prop) : succeeds m db (λ a db', m db = inr (a, db') → Q a db') → succeeds m db Q.
Proof. unfold succeeds. destruct (m db) as [|[a db']]; [done|]. intros H. by apply H. Qed.

(** The row of a task in a run, and its status. *)
Definition rowof (run : uuid) (db : DB) (t : uuid) : option TaskRun := first (select (is_task_run run t) (task_runs db)).
Definition statusof (run : uuid) (db : DB) (t : uuid) : option TaskStatus := tr_Status <$> rowof run db t.

Lemma first_select_map {A} (p : A → bool) (g : A → A) (l : list A) : (∀ x, p (g x) = p x) →
  first (select p (map g l)) = g <$> first (select p l).
Proof. intros H. induction l as [|x l IH]; [done|]. unfold select in *. simpl. rewrite H. by destruct (p x). Qed.

Lemma rowof_key run db t r : rowof run db t = Some r → r ∈ task_runs db ∧ task_key r = (run, t).
Proof.
  unfold rowof, first. intros H%head_Some_elem_of. apply select_elem in H as [? H]. split; [done|]. by apply is_task_run_key.
Qed.

Lemma rowof_unique run db r t : rows_unique db → r ∈ task_runs db → task_key r = (run, t) → rowof run db t = Some r.
Proof.
  intros Hu Hr Hk. unfold rowof. destruct (first (select (is_task_run run t) (task_runs db))) as [r'|] eqn:E.
  - apply rowof_key in E as [Hr' Hk']. f_equal. apply (NoDup_map_eq task_key (task_runs db)); try done. congruence.
  - unfold first in E. apply head_None in E. assert (r ∈ select (is_task_run run t) (task_runs db)) as Hin.
    { apply select_elem. split; [done|]. by apply is_task_run_key. }
    rewrite E in Hin. by apply elem_of_nil in Hin.
Qed.

(** An update of rows by a test, when the columns leave the key alone. *)
Lemma succeeds_update (q : TaskRun → bool) (cols : list (TaskRun → TaskRun)) db Q : (∀ r, task_key (Updates cols r) = task_key r) →
  (∀ db', db' = set_task_runs (update_where q (Updates cols) (task_runs db)).1 db → same_keys db db' →
     (∀ run t, rowof run db' t = (λ r, if q r then Updates cols r else r) <$> rowof run db t) →
     Q (countb q (task_runs db)) db') → succeeds (UpdateTaskRuns q cols) db Q.
Proof.
  intros Hk H. unfold succeeds, UpdateTaskRuns, Exec. destruct (update_where q (Updates cols) (task_runs db)) as [tbl n] eqn:E.
  assert (tbl = map (λ r, if q r then Updates cols r else r) (task_runs db) ∧ n = countb q (task_runs db)) as [-> ->].
  { unfold update_where in E. by injection E as <- <-. }
  assert (∀ r, task_key (if q r then Updates cols r else r) = task_key r) as Hk' by (intros r; by destruct (q r)).
  apply H.
  - done.
  - unfold same_keys. simpl. rewrite map_map. by apply map_ext.
  - intros run t. unfold rowof. simpl. apply first_select_map. intros r.
    apply eq_true_iff_eq. by rewrite !is_task_run_key, Hk'.
Qed.

(** * The outcome of a run *)

(** What the containers answer when they run, and which successors a task excludes when
    it succeeds. *)
Record Answers := mkAnswers { an_status : uuid → TaskStatus; an_excludes : uuid → list uuid }.

Definition excluded (p : Plan) (a : Answers) (O : uuid → TaskStatus) (t : uuid) : bool :=
  existsb (λ q, (O q =s TaskStatusSucceeded) && bool_decide (t ∈ an_excludes a q)) (preds p t).

Definition ruleHolds (p : Plan) (O : uuid → TaskStatus) (t : uuid) : bool :=
  SatisfiesTriggerRule (pl_rule p t) (map O (preds p t)).

(** One equation per task: it is skipped when a successful branch excludes it or its rule
    does not hold on its predecessors, and otherwise has its container's status. *)
Definition solves (p : Plan) (a : Answers) (O : uuid → TaskStatus) : Prop :=
  ∀ t, t ∈ pl_tasks p → O t = if excluded p a O t || negb (ruleHolds p O t) then TaskStatusSkipped else an_status a t.

(** A cached result counts as a success. *)
Definition norm (s : TaskStatus) : TaskStatus := if s =s TaskStatusCached then TaskStatusSucceeded else s.

Lemma norm_terminal s : IsTerminal (norm s) = IsTerminal s.
Proof. unfold norm. destruct (s =s TaskStatusCached) eqn:E; [|done]. by apply str_eqb_eq in E as ->. Qed.

Lemma norm_norm s : norm (norm s) = norm s.
Proof. unfold norm. destruct (s =s TaskStatusCached) eqn:E; [done|by rewrite E]. Qed.

Lemma norm_id s : s ≠ TaskStatusCached → norm s = s.
Proof. intros H. unfold norm. by rewrite str_eqb_neq. Qed.

(** A rule sees only the set of the statuses, and a cached one as a success. *)
Lemma rule_norm_set rule l k : (l = [] ↔ k = []) → (∀ s, s ∈ map norm l ↔ s ∈ map norm k) →
  SatisfiesTriggerRule rule l = SatisfiesTriggerRule rule k.
Proof.
  intros Hn Hs. apply eq_true_iff_eq. rewrite !trigger_rule_spec.
  assert (∀ P : TaskStatus → Prop, (∀ s, P (norm s) ↔ P s) → ((∀ s, s ∈ l → P s) ↔ ∀ s, s ∈ k → P s) ∧ ((∃ s, s ∈ l ∧ P s) ↔ ∃ s, s ∈ k ∧ P s)) as H.
  { intros P HP. assert (∀ s (m : list TaskStatus), s ∈ map norm m ↔ ∃ x, s = norm x ∧ x ∈ m) as Hm by (intros s m; apply list_elem_of_fmap).
    split; split.
    - intros HA s Hsk. assert (norm s ∈ map norm l) as (x & Ex & Hx)%Hm by (apply Hs, Hm; by exists s). apply HP. rewrite Ex. by apply HP, HA.
    - intros HA s Hsl. assert (norm s ∈ map norm k) as (x & Ex & Hx)%Hm by (apply Hs, Hm; by exists s). apply HP. rewrite Ex. by apply HP, HA.
    - intros (s & Hsl & Ps). assert (norm s ∈ map norm k) as (x & Ex & Hx)%Hm by (apply Hs, Hm; by exists s).
      exists x. split; [done|]. apply HP. rewrite <- Ex. by apply HP.
    - intros (s & Hsk & Ps). assert (norm s ∈ map norm l) as (x & Ex & Hx)%Hm by (apply Hs, Hm; by exists s).
      exists x. split; [done|]. apply HP. rewrite <- Ex. by apply HP. }
  unfold rule_meaning. repeat case_match.
  - apply (H (λ s, s ∈ terminalStatusStrings)). intros s. by rewrite <- !IsTerminal_in, norm_terminal.
  - apply (H (λ s, s = TaskStatusFailed)). intros s. unfold norm. destruct (s =s TaskStatusCached) eqn:E; [|done]. by apply str_eqb_eq in E as ->.
  - rewrite Hn. destruct (H (λ s, s = TaskStatusSucceeded ∨ s = TaskStatusCached)) as [_ ->]; [|done].
    intros s. unfold norm. destruct (s =s TaskStatusCached) eqn:E; [|done]. apply str_eqb_eq in E as ->. naive_solver.
  - apply (H (λ s, s = TaskStatusSucceeded ∨ s = TaskStatusCached)).
    intros s. unfold norm. destruct (s =s TaskStatusCached) eqn:E; [|done]. apply str_eqb_eq in E as ->. naive_solver.
Qed.

(** * The catalog behind a plan *)

Definition successorIDs (db : DB) (task : Task) : list uuid := map e_ToTaskID (successorEdgesTx db task).
Definition edgeSources (db : DB) (t : uuid) : list uuid := map e_FromTaskID (select (λ e, (e_ToTaskID e =? t)%N) (task_edges db)).

(** The graph of a plan: counted edges between its tasks, without a cycle. *)
Record plan_ok (p : Plan) : Prop := {
  po_graph : graph_ok (pl_graph p);
  po_tasks : NoDup (pl_tasks p);
  po_targets : ∀ t, NoDup (adjacent p t);
  po_closed : ∀ t s, s ∈ adjacent p t → s ∈ pl_tasks p ∧ t ∈ pl_tasks p;
  po_keys : ∀ t, t ∈ pl_tasks p → is_Some (g_indegree (pl_graph p) !! t);
  po_nodes : dom (g_adjacency (pl_graph p)) = list_to_set (pl_tasks p);
  po_acyclic : ∃ rank : uuid → nat, ∀ q t, q ∈ preds p t → (rank q < rank t)%nat;
  po_parallel : 0 < pl_maxParallel p;
}.

(** The rows of the catalog agree with the plan; without edge rows the predecessor query
    finds nothing and the rule counts as satisfied there. *)
Record catalog_ok (p : Plan) (db : DB) : Prop := {
  ca_run : ∃ jr, first (select (is_run (pl_runID p)) (job_runs db)) = Some jr ∧ jr_Quarantine jr = false;
  ca_task : ∀ t, t ∈ pl_tasks p → ∃ task, first (select (λ x, (t_ID x =? t)%N) (tasks_tbl db)) = Some task ∧
    normalizedTriggerRule (t_TriggerRule task) = pl_rule p t ∧ NoDup (successorIDs db task) ∧
    ∀ s, s ∈ successorIDs db task ↔ s ∈ adjacent p t;
  ca_preds : ∀ t, t ∈ pl_tasks p → edgeSources db t = [] ∨ ∀ q, q ∈ edgeSources db t ↔ q ∈ preds p t;
}.

(** The tables an execution never writes. *)
Definition same_catalog (db db' : DB) : Prop :=
  tasks_tbl db' = tasks_tbl db ∧ task_edges db' = task_edges db ∧ job_runs db' = job_runs db.

#[export] Instance same_catalog_preorder : PreOrder same_catalog.
Proof. split; [done|]. intros x y z (A1 & A2 & A3) (B1 & B2 & B3). split_and!; congruence. Qed.

Lemma catalog_same p db db' : same_catalog db db' → catalog_ok p db → catalog_ok p db'.
Proof.
  intros (E1 & E2 & E3) [H1 H2 H3].
  assert (∀ task, successorIDs db' task = successorIDs db task) as Es by (intros task; unfold successorIDs, successorEdgesTx; by rewrite E1, E2).
  split.
  - by rewrite E3.
  - intros t Ht. destruct (H2 t Ht) as (task & Hf & Hr & Hn & Hs). exists task. by rewrite E1, Es.
  - intros t Ht. unfold edgeSources. rewrite E2. by apply H3.
Qed.

Section rows.
Context (p : Plan) (a : Answers) (O : uuid → TaskStatus).
Hypothesis HP : plan_ok p.
Hypothesis HO : solves p a O.

Abbreviation R := (pl_runID p).

(** Predecessors that have not finished. *)
Definition live (db : DB) (q : uuid) : bool := match statusof R db q with Some s => negb (IsTerminal s) | None => false end.
Definition liveCount (db : DB) (t : uuid) : nat := countb (live db) (preds p t).

(** The rows of the run: they exist, finished ones have the status of the outcome, and the
    counter of a task covers its unfinished predecessors, with [slack] more. *)
Record rows_ok (slack : uuid → nat) (db : DB) : Prop := {
  ro_unique : rows_unique db;
  ro_catalog : catalog_ok p db;
  ro_rows : ∀ t, t ∈ pl_tasks p → ∃ r, rowof R db t = Some r ∧ tr_Quarantine r = false;
  ro_status : ∀ t s, t ∈ pl_tasks p → statusof R db t = Some s → IsTerminal s = true → norm s = O t;
  ro_count : ∀ t r, t ∈ pl_tasks p → rowof R db t = Some r → Z.of_nat (liveCount db t + slack t) ≤ tr_OutstandingPredecessors r;
}.

(** The listed tasks go from pending to skipped, no other status changes. *)
Definition skips (ks : list uuid) (db db' : DB) : Prop :=
  (∀ k, k ∈ ks → statusof R db k = Some TaskStatusPending) ∧
  ∀ t, statusof R db' t = if bool_decide (t ∈ ks) then Some TaskStatusSkipped else statusof R db t.

Lemma skips_nil db : skips [] db db.
Proof. split; [intros k Hk; by apply elem_of_nil in Hk|]. intros t. by rewrite bool_decide_eq_false_2 by apply not_elem_of_nil. Qed.

Lemma skips_app ks ks' db db1 db2 : skips ks db db1 → skips ks' db1 db2 → skips (ks ++ ks') db db2.
Proof.
  intros [P1 S1] [P2 S2]. split.
  - intros k [Hk|Hk]%elem_of_app; [by apply P1|]. specialize (P2 k Hk). rewrite S1 in P2. by case_bool_decide.
  - intros t. rewrite S2, S1. destruct (bool_decide (t ∈ ks')) eqn:E.
    + rewrite bool_decide_eq_true_2; [done|]. apply elem_of_app. right. by apply bool_decide_eq_true in E.
    + apply bool_decide_eq_false in E. case_bool_decide; case_bool_decide; set_solver.
Qed.

Lemma skips_live ks db db' q : skips ks db db' → live db' q = true → live db q = true ∧ q ∉ ks.
Proof. intros [_ S]. unfold live. rewrite S. case_bool_decide; [done|]. by split. Qed.

Lemma skips_liveCount ks db db' t : skips ks db db' → (liveCount db' t ≤ liveCount db t)%nat.
Proof. intros S. apply countb_mono. intros q _ Hq. by apply (skips_live ks _ db'). Qed.

Lemma events_ok slack db e : rows_ok slack db → rows_ok slack (set_execution_events e db).
Proof. intros [H1 H2 H3 H4 H5]. split; [exact H1|by apply (catalog_same p db)|exact H3|exact H4|exact H5]. Qed.

Lemma skips_events ks db db' e : skips ks db db' → skips ks db (set_execution_events e db').
Proof. done. Qed.

Lemma slack_le slack slack' db : (∀ t, slack' t ≤ slack t)%nat → rows_ok slack db → rows_ok slack' db.
Proof. intros H [H1 H2 H3 H4 H5]. split; try done. intros t r Ht Hr. specialize (H5 t r Ht Hr). specialize (H t). lia. Qed.

Section reads.
Context (slack : uuid → nat) (db : DB) (Hdb : rows_ok slack db).

Lemma run_found Q : (∀ jr, jr_Quarantine jr = false → Q jr db) → succeeds (firstRun R) db Q.
Proof using Hdb. intros H. destruct (ca_run _ _ (ro_catalog _ _ Hdb)) as (jr & Hf & Hq). apply (succeeds_first _ _ jr); [done|by apply H]. Qed.

Lemma row_found t Q : t ∈ pl_tasks p → (∀ r, rowof R db t = Some r → tr_Quarantine r = false → Q r db) → succeeds (firstTaskRun R t) db Q.
Proof using Hdb. intros Ht H. destruct (ro_rows _ _ Hdb t Ht) as (r & Hr & Hq). apply (succeeds_first _ _ r); [exact Hr|by apply H]. Qed.

Lemma event_recorded ty t Q : t ∈ pl_tasks p → (∀ e, Q () (set_execution_events e db)) → succeeds (recordTaskEventTx ty R t) db Q.
Proof using Hdb.
  intros Ht H. apply succeeds_bind, row_found; [done|]. intros r _ _. apply succeeds_bind, run_found. intros jr _. apply succeeds_append, H.
Qed.

Lemma quarantine_stamped t Q : t ∈ pl_tasks p → (∀ b, Q b db) → succeeds (taskEventQuarantineTx R t) db Q.
Proof using Hdb. intros Ht H. apply succeeds_bind, row_found; [done|]. intros r _ _. apply H. Qed.

Lemma run_stamped Q : (∀ b, Q b db) → succeeds (runEventQuarantineTx R) db Q.
Proof using Hdb. intros H. apply succeeds_bind, run_found. intros jr _. apply H. Qed.

Lemma ready_recorded t Q : t ∈ pl_tasks p → (∀ e, Q () (set_execution_events e db)) → succeeds (appendTaskReadyEventTx R t) db Q.
Proof using Hdb.
  intros Ht H. apply succeeds_bind, run_found. intros jr _. apply succeeds_bind. unfold stampEventQuarantineTx. cbn [ev_RunID ev_TaskID].
  destruct (_ =? _)%N; [apply succeeds_ret, succeeds_append, H|]. apply succeeds_bind. destruct (negb _).
  - apply quarantine_stamped; [done|]. intros b. apply succeeds_ret, succeeds_append, H.
  - apply run_stamped. intros b. apply succeeds_ret, succeeds_append, H.
Qed.

Lemma batch_stamped evts Q : (∀ e, e ∈ evts → ev_RunID e = R ∧ ev_TaskID e ∈ pl_tasks p) → (∀ l, Q l db) →
  succeeds (stampBatchEventQuarantineTx evts) db Q.
Proof using Hdb.
  revert Q. induction evts as [|e evts IH]; intros Q He H; [apply succeeds_ret, H|].
  destruct (He e) as [Hr Ht]; [by apply elem_of_cons; left|]. cbn [stampBatchEventQuarantineTx]. apply succeeds_bind. unfold stampBatchEvent.
  assert (∀ x, succeeds (es ← stampBatchEventQuarantineTx evts; mret (x :: es)) db Q) as HI.
  { intros x. apply succeeds_bind, IH; [intros; apply He; by apply elem_of_cons; right|]. intros l. apply succeeds_ret, H. }
  destruct (_ =? _)%N; [apply succeeds_ret, HI|]. rewrite Hr. apply succeeds_bind, run_stamped. intros b. apply succeeds_bind.
  destruct (_ =? _)%N; [apply succeeds_ret, succeeds_ret, HI|]. apply quarantine_stamped; [done|]. intros b'. apply succeeds_ret, HI.
Qed.
End reads.

Section advance.
Context (slack : uuid → nat) (db : DB) (Hdb : rows_ok slack db).

Lemma no_replay t Q : t ∈ pl_tasks p → Q None db → succeeds (replayTaskExecutionDescriptorTx R t) db Q.
Proof using Hdb.
  intros Ht H. unfold succeeds, replayTaskExecutionDescriptorTx. destruct (ro_rows _ _ Hdb t Ht) as (r & Hr & Hq). unfold rowof in Hr.
  rewrite Hr. destruct (ca_run _ _ (ro_catalog _ _ Hdb)) as (jr & -> & Hj). by rewrite Hq, Hj.
Qed.


(** The verdict on a task whose predecessors have finished; only a negative one skips. *)
Lemma verdict_right t Q : t ∈ pl_tasks p → (∀ q, q ∈ preds p t → live db q = false) →
  (∀ v : bool * string, (v.1 = false → ruleHolds p O t = false) → Q v db) → succeeds (shouldRunTaskTx R t) db Q.
Proof using Hdb HP.
  intros Ht Hl H. unfold shouldRunTaskTx. apply succeeds_bind, no_replay; [done|].
  destruct (ca_task _ _ (ro_catalog _ _ Hdb) t Ht) as (task & Hf & Hr & _). apply succeeds_bind, (succeeds_first _ _ task); [exact Hf|].
  apply succeeds_bind. unfold predecessorStatusesTx, replayPredecessorRefsTx. apply succeeds_bind, succeeds_bind, no_replay; [done|].
  apply succeeds_ret, succeeds_query, succeeds_ret, H. cbn [fst]. rewrite sql_rule_agrees.
  assert (∀ l, SatisfiesTriggerRule (t_TriggerRule task) l = SatisfiesTriggerRule (pl_rule p t) l) as Hrule.
  { intros l. rewrite <- Hr. unfold normalizedTriggerRule, SatisfiesTriggerRule. destruct (t_TriggerRule task =s "") eqn:E; [done|]. by rewrite E. }
  rewrite Hrule. intros Hv. fold (edgeSources db t) in Hv. destruct (ca_preds _ _ (ro_catalog _ _ Hdb) t Ht) as [E|E].
  { rewrite E in Hv. rewrite (select_none (in_run R [])) in Hv; [done|]. intros r _. unfold in_run. by rewrite andb_false_r. }
  assert (∀ q, q ∈ preds p t → q ∈ pl_tasks p) as Hin.
  { intros q Hq. apply (po_closed _ HP q t). by apply (go_edges _ (po_graph _ HP)). }
  assert (∀ q, q ∈ preds p t → ∃ r, r ∈ select (in_run R (edgeSources db t)) (task_runs db) ∧ tr_TaskID r = q ∧ norm (tr_Status r) = O q) as Hrows.
  { intros q Hq. destruct (ro_rows _ _ Hdb q (Hin q Hq)) as (r & Hr' & _). pose proof (rowof_key _ _ _ _ Hr') as [Hir Hk]. exists r.
    injection Hk as Hk1 Hk2. split; [|split; [done|]].
    - apply select_elem. split; [done|]. unfold in_run. rewrite Hk1, Hk2, N.eqb_refl. apply bool_decide_eq_true. by apply E.
    - apply (ro_status _ _ Hdb); [by apply Hin|unfold statusof; by rewrite Hr'|]. specialize (Hl q Hq). unfold live, statusof in Hl. rewrite Hr' in Hl.
      cbn in Hl. by apply negb_false_iff in Hl. }
  assert (∀ r, r ∈ select (in_run R (edgeSources db t)) (task_runs db) → tr_TaskID r ∈ preds p t ∧ norm (tr_Status r) = O (tr_TaskID r)) as Hsel.
  { intros r [Hr' Hi]%select_elem. unfold in_run in Hi. apply andb_true_iff in Hi as [Hi1%N.eqb_eq Hi2%bool_decide_eq_true]. apply E in Hi2.
    split; [done|]. destruct (Hrows _ Hi2) as (r2 & [Hr2 Hi3]%select_elem & E2 & Hn). rewrite <- Hn. do 2 f_equal.
    unfold in_run in Hi3. apply andb_true_iff in Hi3 as [Hi3%N.eqb_eq _].
    apply (NoDup_map_eq task_key (task_runs db)); [apply Hdb|done|done|]. unfold task_key. congruence. }
  rewrite <- Hv. symmetry. unfold ruleHolds. apply rule_norm_set.
  - split; intros E0.
    + destruct (preds p t) as [|q l] eqn:Ep; [done|]. destruct (Hrows q) as (r & Hr' & _); [by apply elem_of_cons; left|].
      apply map_eq_nil in E0. rewrite E0 in Hr'. by apply elem_of_nil in Hr'.
    + destruct (select (in_run _ _) _) as [|r l] eqn:Es; [done|]. destruct (Hsel r) as [Hp _]; [by apply elem_of_cons; left|].
      apply map_eq_nil in E0. rewrite E0 in Hp. by apply elem_of_nil in Hp.
  - intros s. rewrite !list_elem_of_fmap. split.
    + intros (x & -> & (r & -> & Hr')%list_elem_of_fmap). destruct (Hsel r Hr') as [Hp Hn]. exists (O (tr_TaskID r)). split.
      * by rewrite <- Hn, norm_norm.
      * apply list_elem_of_fmap. by exists (tr_TaskID r).
    + intros (x & -> & (q & -> & Hq)%list_elem_of_fmap). destruct (Hrows q Hq) as (r & Hr' & E' & Hn). exists (tr_Status r). split.
      * by rewrite <- Hn, norm_norm.
      * apply list_elem_of_fmap. by exists r.
Qed.
End advance.

(** * Steps of the cascade *)

(** One more unit of slack for the listed tasks. *)
Definition bump (l : list uuid) (slack : uuid → nat) : uuid → nat := λ t, (slack t + if bool_decide (t ∈ l) then 1 else 0)%nat.

Definition same_status (db db' : DB) : Prop := ∀ t, statusof R db' t = statusof R db t.

Lemma same_liveCount db db' t : same_status db db' → liveCount db' t = liveCount db t.
Proof. intros H. apply countb_ext. intros q _. unfold live. by rewrite H. Qed.

Lemma decremented slack db ids Q : rows_ok (bump ids slack) db →
  (∀ db', rows_ok slack db' → same_status db db' → Q (select (in_run R ids) (task_runs db')) db') →
  succeeds (batchDecrementPredecessorsTx R ids) db Q.
Proof.
  intros Hdb H. unfold batchDecrementPredecessorsTx. destruct ids as [|i l] eqn:Ei.
  { apply succeeds_ret. rewrite <- (select_none (in_run R []) (task_runs db)); [|intros r _; unfold in_run; by rewrite andb_false_r].
    apply H; [|done]. eapply slack_le; [|exact Hdb]. intros t. unfold bump. lia. }
  rewrite <- Ei in *. clear i l Ei. apply succeeds_bind, succeeds_update; [done|]. intros db' Edb Hk Hrow. apply succeeds_query, H.
  - assert (same_status db db') as Hs.
    { intros t. unfold statusof. rewrite Hrow. destruct (rowof R db t) as [r|]; [|done]. simpl. by destruct (in_run R ids r). }
    destruct Hdb as [D1 D2 D3 D4 D5]. split.
    + by eapply same_keys_unique.
    + apply (catalog_same p db); [by subst db'|done].
    + intros t Ht. destruct (D3 t Ht) as (r & Hr & Hq). rewrite Hrow, Hr. eexists. split; [reflexivity|]. by destruct (in_run R ids r).
    + intros t s Ht. rewrite Hs. by apply D4.
    + intros t r' Ht. rewrite Hrow. destruct (rowof R db t) as [r|] eqn:Er; [|done]. intros [= <-].
      rewrite (same_liveCount db db' t Hs). specialize (D5 t r Ht Er). unfold bump in D5. apply rowof_key in Er as [_ Ek]. injection Ek as E1 E2.
      unfold in_run. rewrite E1, E2, N.eqb_refl. cbn [andb]. case_bool_decide.
      * change (tr_OutstandingPredecessors (decrement r)) with
          (if 0 <? tr_OutstandingPredecessors r then tr_OutstandingPredecessors r - 1 else 0). destruct (0 <? tr_OutstandingPredecessors r) eqn:E0; bool_prop. all: lia.
      * lia.
  - intros t. unfold statusof. rewrite Hrow. destruct (rowof R db t) as [r|]; [|done]. simpl. by destruct (in_run R ids r).
Qed.

(** Marking a pending task leaves its successors one unit of slack. *)
Lemma liveCount_finish db db' t s : live db t = true → live db' t = false → (∀ q, q ≠ t → live db' q = live db q) →
  liveCount db s = (liveCount db' s + if bool_decide (s ∈ adjacent p t) then 1 else 0)%nat.
Proof using HP.
  intros H1 H2 H3. unfold liveCount. rewrite (countb_clear (live db) (live db') t) by (try done; intros y Hy; by rewrite H3).
  f_equal. pose proof (go_edges _ (po_graph _ HP) t s) as He. fold (preds p s) (adjacent p t) in He.
  pose proof (occ_nodup t _ (go_nodup _ (po_graph _ HP) s)) as Hn. fold (preds p s) in Hn. rewrite <- occ_elem in He.
  case_bool_decide as Hs; [apply He in Hs; lia|]. destruct (Nat.eq_dec (occ t (preds p s)) 0); [done|]. destruct Hs. apply He. lia.
Qed.

Lemma marked slack db now t reason Q : rows_ok slack db → t ∈ pl_tasks p → O t = TaskStatusSkipped →
  (∀ db', statusof R db t = Some TaskStatusPending → rows_ok (bump (adjacent p t) slack) db' → skips [t] db db' → Q true db') →
  (∀ db', statusof R db t ≠ Some TaskStatusPending → rows_ok slack db' → skips [] db db' → task_runs db' = task_runs db → Q false db') →
  succeeds (markTaskSkippedTx now R t reason) db Q.
Proof using HP.
  intros Hdb Ht HOt HT HF. apply succeeds_bind, succeeds_update; [done|]. intros db' Edb Hk Hrow.
  destruct (ro_rows _ _ Hdb t Ht) as (r & Hr & Hq). pose proof (rowof_key _ _ _ _ Hr) as [Hir Hkey].
  assert (pending_key R t r = (tr_Status r =s TaskStatusPending)) as Epk.
  { unfold pending_key. by rewrite (proj2 (is_task_run_key R t r) Hkey). }
  assert (∀ q rq, q ≠ t → rowof R db q = Some rq → pending_key R t rq = false) as Hne.
  { intros q rq Hqt [_ [= E1 E2]]%rowof_key. unfold pending_key, is_task_run. rewrite E2, (proj2 (N.eqb_neq q t) Hqt). by rewrite andb_false_r. }
  assert (∀ q, q ≠ t → rowof R db' q = rowof R db q) as Hother.
  { intros q Hqt. rewrite Hrow. destruct (rowof R db q) as [rq|] eqn:Eq; [|done]. simpl. by rewrite (Hne q rq Hqt Eq). }
  pose proof (keyed_countb db R t r (λ r, tr_Status r =s TaskStatusPending) (ro_unique _ _ Hdb) Hir Hkey) as Hc.
  fold (pending_key R t) in Hc. destruct (tr_Status r =s TaskStatusPending) eqn:Es.
  - destruct (Nat.eqb_spec (countb (pending_key R t) (task_runs db)) 0) as [E0|_]; [by apply Hc in E0|].
    apply str_eqb_eq in Es. assert (statusof R db t = Some TaskStatusPending) as Hst by (unfold statusof; rewrite Hr; simpl; by rewrite Es).
    assert (statusof R db' t = Some TaskStatusSkipped) as Hst'.
    { unfold statusof. rewrite Hrow, Hr. simpl. by rewrite Epk. }
    assert (skips [t] db db') as Hsk.
    { split; [by intros k ->%list_elem_of_singleton|]. intros q. case_bool_decide as Hq'; [by apply list_elem_of_singleton in Hq' as ->|].
      unfold statusof. rewrite Hother; [done|]. intros ->. apply Hq'. by apply list_elem_of_singleton. }
    assert (rows_ok (bump (adjacent p t) slack) db') as Hdb'.
    { destruct Hdb as [D1 D2 D3 D4 D5]. split.
      - by eapply same_keys_unique.
      - apply (catalog_same p db); [by subst db'|done].
      - intros q Hq'. destruct (decide (q = t)) as [->|Hqt]; [|rewrite Hother; by auto]. rewrite Hrow, Hr. simpl. rewrite Epk. by eexists.
      - intros q s Hq'. destruct (decide (q = t)) as [->|Hqt]; [rewrite Hst'; by intros [= <-]|]. unfold statusof. rewrite Hother by done. by apply D4.
      - intros s rs Hs Hrs. assert (∃ rs0, rowof R db s = Some rs0 ∧ tr_OutstandingPredecessors rs = tr_OutstandingPredecessors rs0) as (rs0 & Hrs0 & ->).
        { rewrite Hrow in Hrs. destruct (rowof R db s) as [x|]; [|done]. injection Hrs as <-. exists x. split; [done|]. by destruct (pending_key R t x). }
        specialize (D5 s rs0 Hs Hrs0). rewrite (liveCount_finish db db' t s) in D5.
        + unfold bump. lia.
        + unfold live. by rewrite Hst.
        + unfold live. by rewrite Hst'.
        + intros q Hqt. unfold live, statusof. by rewrite Hother. }
    apply succeeds_bind, (event_recorded _ _ Hdb'); [done|]. intros e. apply succeeds_ret, HT; [done|by apply events_ok|by apply skips_events].
  - assert (countb (pending_key R t) (task_runs db) = 0)%nat as -> by (by apply Hc). apply succeeds_ret.
    assert (db' = db) as ->.
    { rewrite Edb. rewrite (update_rows_zero (pending_key R t)); [by destruct db|]. by apply Hc. }
    apply HF; [|done|apply skips_nil|done]. unfold statusof. rewrite Hr. simpl. intros [= E]. by rewrite E in Es.
Qed.

(** The rows read right after a decrement. *)
Definition current_rows (updated : list TaskRun) (db : DB) : Prop := ∀ r, r ∈ updated → rowof R db (tr_TaskID r) = Some r.

Lemma read_rows slack db ids : rows_ok slack db → current_rows (select (in_run R ids) (task_runs db)) db.
Proof.
  intros Hdb r [Hr Hi]%select_elem. unfold in_run in Hi. apply andb_true_iff in Hi as [Hi%N.eqb_eq _].
  apply rowof_unique; [apply Hdb|done|]. unfold task_key. by rewrite Hi.
Qed.

Lemma settled slack db t r : rows_ok slack db → t ∈ pl_tasks p → rowof R db t = Some r → tr_OutstandingPredecessors r = 0 →
  ∀ q, q ∈ preds p t → live db q = false.
Proof.
  intros Hdb Ht Hr H0. pose proof (ro_count _ _ Hdb t r Ht Hr) as Hc. rewrite H0 in Hc.
  apply (proj1 (countb_0 (live db) (preds p t))). unfold liveCount in Hc. lia.
Qed.

(** Tasks whose rule fails by the outcome. *)
Definition unruled (t : uuid) : Prop := t ∈ pl_tasks p ∧ ruleHolds p O t = false.

(** ... and whose predecessors have all finished. *)
Definition settled_unruled (db : DB) (t : uuid) : Prop := unruled t ∧ ∀ q, q ∈ preds p t → live db q = false.

Lemma settled_mono db db' t : (∀ q, live db' q = true → live db q = true) → settled_unruled db t → settled_unruled db' t.
Proof. intros H [H1 H2]. split; [done|]. intros q Hq. destruct (live db' q) eqn:E; [|done]. apply H in E. by rewrite H2 in E. Qed.

Lemma status_live db db' q : same_status db db' → live db' q = live db q.
Proof. intros H. unfold live. by rewrite H. Qed.

Lemma unruled_skipped t : unruled t → O t = TaskStatusSkipped.
Proof using HO. intros [Ht Hr]. by rewrite (HO t Ht), Hr, orb_true_r. Qed.

Lemma classified slack db updated edges Q : rows_ok slack db → current_rows updated db → (∀ e, e ∈ edges → e_ToTaskID e ∈ pl_tasks p) →
  (∀ new db', rows_ok slack db' → same_status db db' → (∀ k, k ∈ new → settled_unruled db' k.1) → Q new db') →
  succeeds (classifySuccessors R updated edges) db Q.
Proof using HP.
  revert db Q. induction edges as [|edge edges IH]; intros db Q Hdb Hup He HQ; cbn [classifySuccessors].
  { apply succeeds_ret, HQ; [done|done|]. intros k Hk. by apply elem_of_nil in Hk. }
  assert (e_ToTaskID edge ∈ pl_tasks p) as Ht by (apply He; by apply elem_of_cons; left).
  assert (∀ e, e ∈ edges → e_ToTaskID e ∈ pl_tasks p) as He' by (intros; apply He; by apply elem_of_cons; right).
  destruct (last _) as [r|] eqn:El; [|by apply IH].
  destruct (_ || _) eqn:Ep; [by apply IH|]. bool_prop.
  assert (r ∈ List.filter (λ r, (tr_TaskID r =? e_ToTaskID edge)%N) updated) as Hr by (by apply last_Some_elem_of).
  apply list_elem_of_In, List.filter_In in Hr as [Hr%list_elem_of_In Hk%N.eqb_eq].
  pose proof (Hup r Hr) as Hrow. rewrite Hk in Hrow.
  apply succeeds_bind, (verdict_right slack db Hdb); [done|by eapply settled|]. intros [b rule] Hv. cbn [fst snd] in *. destruct b.
  - apply succeeds_bind, (ready_recorded slack db Hdb); [done|]. intros e. apply IH; [by apply events_ok|exact Hup|done|].
    intros new db' H1 H2 H3. by apply HQ.
  - apply succeeds_bind, IH; [done|done|done|]. intros new db' H1 H2 H3. apply succeeds_ret, HQ; [done|done|].
    intros k [->|Hk']%elem_of_cons; [|by apply H3]. split; [by split; [|apply Hv]|]. intros q Hq. rewrite (status_live db db' q H2). by eapply settled.
Qed.

Lemma task_edges_found slack db t Q : rows_ok slack db → t ∈ pl_tasks p →
  (∀ task, first (select (λ x, (t_ID x =? t)%N) (tasks_tbl db)) = Some task → NoDup (successorIDs db task) →
     (∀ s, s ∈ successorIDs db task ↔ s ∈ adjacent p t) → Q task (successorEdgesTx db task)) →
  succeeds (taskForEdges R t) db (λ task db', db' = db ∧ succeeds (successorEdgesForRunTx R t task) db (λ edges db', db' = db ∧ Q task edges)).
Proof.
  intros Hdb Ht H. destruct (ca_task _ _ (ro_catalog _ _ Hdb) t Ht) as (task & Hf & _ & Hn & Hs).
  apply succeeds_bind, (no_replay slack db Hdb); [done|]. apply (succeeds_first _ _ task); [exact Hf|]. split; [done|].
  apply succeeds_bind, (no_replay slack db Hdb); [done|]. apply succeeds_query. split; [done|]. by apply H.
Qed.

Lemma expanded slack db t Q : rows_ok (bump (adjacent p t) slack) db → t ∈ pl_tasks p →
  (∀ new db', rows_ok slack db' → same_status db db' → (∀ k, k ∈ new → settled_unruled db' k.1) → Q new db') →
  succeeds (expandSkipped R t) db Q.
Proof using HP.
  intros Hdb Ht HQ. apply succeeds_bind. eapply succeeds_mono; [|apply (task_edges_found _ _ _ (λ task edges, NoDup (map e_ToTaskID edges) ∧ ∀ s, s ∈ map e_ToTaskID edges ↔ s ∈ adjacent p t) Hdb Ht); intros; by split].
  intros task db1 [-> Hs]. apply succeeds_bind. eapply succeeds_mono; [|exact Hs]. intros edges db2 (-> & Hn & He).
  apply succeeds_bind, (decremented slack).
  - eapply slack_le; [|exact Hdb]. intros x. unfold bump. do 2 case_bool_decide; try lia. by rewrite He in *.
  - intros db' Hdb' Hst. apply (classified slack); [done|by eapply read_rows| |].
    + intros e Hin. apply (po_closed _ HP t). apply He. apply list_elem_of_fmap. by exists e.
    + intros new db2 H1 H2 H3. apply HQ; [done| |done]. intros x. by rewrite H2.
Qed.

(** What a cascade skips: the tasks it started from, and tasks whose rule fails. *)
Definition cascaded (from : list uuid) (ks : list uuid) (db db' : DB) : Prop :=
  skips ks db db' ∧ (∀ k, k ∈ ks → k ∈ pl_tasks p ∧ (k ∈ from ∨ settled_unruled db' k)) ∧
  (∀ k, k ∈ from → statusof R db' k ≠ Some TaskStatusPending).

Lemma skips_status ks db db1 db' : same_status db db1 → skips ks db1 db' → skips ks db db'.
Proof. intros H [H1 H2]. split; [intros k Hk; rewrite <- H; by apply H1|]. intros t. by rewrite H2, H. Qed.

Lemma looped slack now marks queue db Q : rows_ok slack db → (∀ k, k ∈ queue → k.1 ∈ pl_tasks p ∧ O k.1 = TaskStatusSkipped) →
  (pendingCount R db ≤ marks)%nat → (∀ ks db', rows_ok slack db' → cascaded (map fst queue) ks db db' → Q ks db') →
  succeeds (skipLoop now R marks queue) db Q.
Proof using HP HO.
  revert queue db Q. induction marks as [|marks IHm]; intros queue;
    induction queue as [|[t reason] queue IHq]; intros db Q Hdb Hq Hm HQ; cbn [skipLoop].
  1,3: apply succeeds_ret, HQ; [done|]; split_and!; [apply skips_nil|intros k Hk; by apply elem_of_nil in Hk|intros k Hk; by apply elem_of_nil in Hk].
  all: destruct (Hq (t, reason)) as [Ht HOt]; [by apply elem_of_cons; left|]; cbn [fst] in *;
    assert (∀ k, k ∈ queue → k.1 ∈ pl_tasks p ∧ O k.1 = TaskStatusSkipped) as Hq' by (intros; apply Hq; by apply elem_of_cons; right);
    apply succeeds_bind, succeeds_eq, (marked slack); [done|done|done| |]; intros db1 Hst Hdb1 Hsk; [intros EM|intros Hrows EM]; cbn [negb].
  1: { apply mark_pending in EM. lia. }
  1,3: apply IHq; [done|done|by unfold pendingCount in *; rewrite Hrows|]; intros ks db' Hdb' (H1 & H2 & H3); apply HQ; [done|];
       (split_and!; [exact (skips_app [] ks db db1 db' Hsk H1)
                    |intros k Hk; destruct (H2 k Hk) as [? [?|?]]; split; try done; [left; by apply elem_of_cons; right|by right]
                    |intros k [->|Hk]%elem_of_cons; [|by apply H3]; rewrite (proj2 (skips_app [] ks db db1 db' Hsk H1)); by case_bool_decide]).
  apply succeeds_bind, succeeds_eq, (expanded slack); [done|done|]. intros new db2 Hdb2 Hst2 Hnew EX.
  apply mark_pending in EM. apply expand_statuses, (same_statuses_pending R) in EX. apply succeeds_bind, IHm; [done| |lia|].
  { intros k [Hk|Hk]%elem_of_app; [by apply Hq'|]. split; [apply (Hnew k Hk)|by apply unruled_skipped, (Hnew k Hk)]. }
  intros ks db' Hdb' (H1 & H2 & H3). apply succeeds_ret, HQ; [done|]. pose proof (skips_app [t] ks db db1 db' Hsk (skips_status ks db1 db2 db' Hst2 H1)) as HS.
  split_and!; [exact HS| |].
  - intros k [->|Hk]%elem_of_cons; [split; [done|left; by apply elem_of_cons; left]|]. destruct (H2 k Hk) as [Hin [Hf|?]]; [|by auto].
    split; [done|]. rewrite map_app in Hf. apply elem_of_app in Hf as [Hf|Hf]; [left; by apply elem_of_cons; right|].
    right. apply list_elem_of_fmap in Hf as (x & -> & Hx). apply (settled_mono db2); [|by apply Hnew]. intros q Hql. by apply (skips_live ks db2 db').
  - intros k [->|Hk]%elem_of_cons.
    + rewrite (proj2 HS), bool_decide_eq_true_2 by (by apply elem_of_cons; left). done.
    + apply H3. rewrite map_app. apply elem_of_app. by left.
Qed.

Lemma cascade slack now t reason db Q : rows_ok slack db → t ∈ pl_tasks p → O t = TaskStatusSkipped →
  (∀ ks db', rows_ok slack db' → cascaded [t] ks db db' → Q ks db') → succeeds (skipTaskAndDescendantsTx now R t reason) db Q.
Proof using HP HO.
  intros Hdb Ht HOt HQ. apply succeeds_bind, succeeds_query, (looped slack); [done| |done|done].
  intros k ->%list_elem_of_singleton. done.
Qed.

(** * Updates of one row *)

(** The test selects the row of [t] in the run; the columns set its status and leave key,
    counter and marker alone. *)
Record sets_status (db : DB) (q : TaskRun → bool) (cols : list (TaskRun → TaskRun)) (t : uuid) (st : TaskStatus) : Prop := {
  ss_test : ∀ r, r ∈ task_runs db → tr_JobRunID r = R → q r = (tr_TaskID r =? t)%N;
  ss_row : ∀ r, tr_Status (Updates cols r) = st ∧ task_key (Updates cols r) = task_key r ∧
    tr_OutstandingPredecessors (Updates cols r) = tr_OutstandingPredecessors r ∧ tr_Quarantine (Updates cols r) = tr_Quarantine r;
}.

Definition only_status (t : uuid) (st : TaskStatus) (db db' : DB) : Prop :=
  ∀ x, statusof R db' x = if decide (x = t) then Some st else statusof R db x.

Lemma status_set slack db q cols t st Q : rows_ok slack db → t ∈ pl_tasks p → live db t = true → sets_status db q cols t st →
  (if IsTerminal st then norm st = O t else True) →
  (∀ db', rows_ok (if IsTerminal st then bump (adjacent p t) slack else slack) db' → only_status t st db db' → same_catalog db db' →
     Q (countb q (task_runs db)) db') →
  succeeds (UpdateTaskRuns q cols) db Q.
Proof using HP.
  intros Hdb Ht Hl [Hq Hc] Hst HQ. apply succeeds_update; [intros r; apply Hc|]. intros db' Edb Hk Hrow.
  assert (∀ x r, rowof R db x = Some r → q r = (x =? t)%N) as Hqx.
  { intros x r Hr. apply rowof_key in Hr as [Hin [= E1 E2]]. by rewrite Hq, E2. }
  assert (only_status t st db db') as Hon.
  { intros x. unfold statusof. rewrite Hrow. destruct (rowof R db x) as [r|] eqn:Er; simpl.
    - rewrite (Hqx x r Er). destruct (N.eqb_spec x t) as [->|Hne]; [rewrite decide_True by done|by rewrite decide_False]. f_equal. apply Hc.
    - rewrite decide_False; [done|]. intros ->. unfold live, statusof in Hl. by rewrite Er in Hl. }
  apply HQ; [|done|by subst db']. pose proof Hdb as [D1 D2 D3 D4 D5].
  assert (∀ x r', rowof R db' x = Some r' → ∃ r, rowof R db x = Some r ∧ tr_OutstandingPredecessors r' = tr_OutstandingPredecessors r ∧
            tr_Quarantine r' = tr_Quarantine r) as Hback.
  { intros x r'. rewrite Hrow. destruct (rowof R db x) as [r|]; [|done]. intros [= <-]. exists r. destruct (Hc r) as (_ & _ & E1 & E2).
    by destruct (q r). }
  split.
  - by eapply same_keys_unique.
  - apply (catalog_same p db); [by subst db'|done].
  - intros x Hx. destruct (D3 x Hx) as (r & Hr & Hqr). rewrite Hrow, Hr. eexists. split; [reflexivity|].
    destruct (q r); [|done]. by destruct (Hc r) as (_ & _ & _ & ->).
  - intros x s Hx. rewrite Hon. destruct (decide (x = t)) as [->|]; [|by apply D4]. intros [= <-] Hterm. by rewrite Hterm in Hst.
  - intros x r' Hx Hr'. destruct (Hback x r' Hr') as (r & Hr & -> & _). specialize (D5 x r Hx Hr). destruct (IsTerminal st) eqn:Eterm.
    + rewrite (liveCount_finish db db' t x) in D5; [unfold bump; lia|done| |].
      * unfold live. by rewrite Hon, decide_True, Eterm.
      * intros y Hy. unfold live. by rewrite Hon, decide_False.
    + assert (liveCount db' x = liveCount db x) as ->; [|done]. apply countb_ext. intros y _. unfold live at 1. rewrite Hon.
      destruct (decide (y = t)) as [->|]; [by rewrite Eterm, Hl|done].
Qed.

Lemma claim_selects db t : ∀ r, r ∈ task_runs db → tr_JobRunID r = R → claim_key R t "" false r = (tr_TaskID r =? t)%N.
Proof. intros r _ E. unfold claim_key, is_task_run. by rewrite E, N.eqb_refl, andb_true_r. Qed.

(** * A completion *)

Lemma cascaded_app from from' ks ks' db db1 db2 : cascaded from ks db db1 → cascaded from' ks' db1 db2 →
  cascaded (from ++ from') (ks ++ ks') db db2.
Proof.
  intros (A1 & A2 & A3) (B1 & B2 & B3). split_and!.
  - by eapply skips_app.
  - intros k [Hk|Hk]%elem_of_app; [destruct (A2 k Hk) as [? [?|?]]|destruct (B2 k Hk) as [? [?|?]]]; rewrite elem_of_app; auto.
    split; [done|right]. apply (settled_mono db1); [|done]. intros q Hq. by apply (skips_live ks' db1 db2).
  - intros k [Hk|Hk]%elem_of_app; [|by apply B3]. rewrite (proj2 B1). case_bool_decide; [done|by apply A3].
Qed.

Lemma cascaded_nil db : cascaded [] [] db db.
Proof. split_and!; [apply skips_nil|intros k Hk; by apply elem_of_nil in Hk|intros k Hk; by apply elem_of_nil in Hk]. Qed.

Lemma evaluated slack now updated db Q : rows_ok slack db →
  (∀ r, r ∈ updated → tr_TaskID r ∈ pl_tasks p ∧ (tr_OutstandingPredecessors r = 0 → ∀ q, q ∈ preds p (tr_TaskID r) → live db q = false)) →
  (∀ evs ks db', rows_ok slack db' → cascaded [] ks db db' → (∀ e, e ∈ evs → ev_RunID e = R ∧ ev_TaskID e ∈ pl_tasks p) → Q (evs, ks) db') →
  succeeds (evaluateSuccessors now R updated) db Q.
Proof using HP HO.
  revert db Q. induction updated as [|r updated IH]; intros db Q Hdb Hup HQ; cbn [evaluateSuccessors].
  { apply succeeds_ret, HQ; [done|apply cascaded_nil|]. intros e He. by apply elem_of_nil in He. }
  destruct (Hup r) as [Ht Hl]; [by apply elem_of_cons; left|].
  assert (∀ db', (∀ q, live db' q = true → live db q = true) → ∀ x, x ∈ updated → tr_TaskID x ∈ pl_tasks p ∧
            (tr_OutstandingPredecessors x = 0 → ∀ q, q ∈ preds p (tr_TaskID x) → live db' q = false)) as Hmono.
  { intros db' Hm x Hx. destruct (Hup x) as [Hxt Hxl]; [by apply elem_of_cons; right|]. split; [done|]. intros H0 q Hq.
    specialize (Hxl H0 q Hq). destruct (live db' q) eqn:E; [|done]. apply Hm in E. congruence. }
  destruct (_ || _) eqn:E; [by apply IH; [|apply Hmono|]|]. bool_prop.
  apply succeeds_bind, (verdict_right slack db Hdb); [done|by apply Hl|]. intros [b rule] Hv. cbn [fst snd] in *. destruct b.
  - apply succeeds_bind, (run_found slack db Hdb). intros jr _. apply succeeds_bind, IH; [done|by apply Hmono|].
    intros evs ks db' H1 H2 H3. apply succeeds_ret, HQ; [done|done|]. intros e [->|He]%elem_of_cons; [done|by apply H3].
  - assert (unruled (tr_TaskID r)) as Hun by (split; [done|by apply Hv]).
    apply succeeds_bind, (cascade slack); [done|done|by apply unruled_skipped|]. intros ks db' Hdb' Hc.
    apply succeeds_bind, IH; [done|apply Hmono; intros q Hq; by apply (skips_live ks db db'); [apply Hc|]|].
    intros evs ks' db2 H1 H2 H3. apply succeeds_ret, HQ; [done| |done].
    destruct (cascaded_app [tr_TaskID r] [] ks ks' db db' db2 Hc H2) as (C1 & C2 & _). split_and!; [done| |intros k Hk; by apply elem_of_nil in Hk].
    intros k Hk. destruct (C2 k Hk) as [Hkt [Hf|?]]; [|by auto]. apply list_elem_of_singleton in Hf as ->. split; [done|right].
    apply (settled_mono db); [|split; [done|by apply Hl]]. intros q Hq. by apply (skips_live (ks ++ ks') db db2).
Qed.

Section completion.
Context (uuid_String : uuid → string).

(** The successors the first loop over the edges skips. *)
Definition unselected (sel : option (gset uuid)) (s : uuid) : bool :=
  match sel with Some sel => negb (bool_decide (s ∈ sel)) | None => false end.

Lemma partitioned slack now t sel edges db Q : rows_ok slack db →
  (∀ e, e ∈ edges → e_ToTaskID e ∈ pl_tasks p ∧ (unselected sel (e_ToTaskID e) = true → O (e_ToTaskID e) = TaskStatusSkipped)) →
  (∀ ks db', rows_ok slack db' → cascaded (List.filter (unselected sel) (map e_ToTaskID edges)) ks db db' →
     Q (ks, List.filter (λ s, negb (unselected sel s)) (map e_ToTaskID edges)) db') →
  succeeds (partitionEdges uuid_String now R t sel edges) db Q.
Proof using HP HO.
  revert db Q. induction edges as [|e edges IH]; intros db Q Hdb He HQ; cbn [partitionEdges].
  { apply succeeds_ret, HQ; [done|apply cascaded_nil]. }
  destruct (He e) as [Ht Hs]; [by apply elem_of_cons; left|].
  assert (∀ e, e ∈ edges → e_ToTaskID e ∈ pl_tasks p ∧ (unselected sel (e_ToTaskID e) = true → O (e_ToTaskID e) = TaskStatusSkipped)) as He'
    by (intros; apply He; by apply elem_of_cons; right).
  change (match sel with Some sel => negb (bool_decide (e_ToTaskID e ∈ sel)) | None => false end) with (unselected sel (e_ToTaskID e)).
  cbn [map List.filter] in HQ. destruct (unselected sel (e_ToTaskID e)) eqn:E; cbn [negb] in HQ.
  - apply succeeds_bind, (cascade slack); [done|done|by apply Hs|]. intros ks db' Hdb' Hc. apply succeeds_bind, IH; [done|done|].
    intros ks' db2 H1 H2. apply succeeds_ret, HQ; [done|]. exact (cascaded_app [_] _ ks ks' db db' db2 Hc H2).
  - apply succeeds_bind, IH; [done|done|]. intros ks db' H1 H2. by apply succeeds_ret, HQ.
Qed.

(** What a branch task excludes is what its selections leave out. *)
Definition branches_answer (validate : bool) (t : uuid) (branches : list string) (db : DB) : Prop :=
  ∃ task sel, first (select (λ x, (t_ID x =? t)%N) (tasks_tbl db)) = Some task ∧
    branchSelection uuid_String validate None (t_Type task) (successorEdgesTx db task) branches db = inr (sel, db) ∧
    ∀ s, s ∈ adjacent p t → s ∈ an_excludes a t ↔ unselected sel s = true.

Lemma branches_same validate t branches db db' : same_catalog db db' → branches_answer validate t branches db → branches_answer validate t branches db'.
Proof.
  intros (E1 & E2 & E3) (task & sel & Hf & Hs & Hx). exists task, sel. rewrite E1. split_and!; [done| |done].
  assert (successorEdgesTx db' task = successorEdgesTx db task) as -> by (unfold successorEdgesTx; by rewrite E1, E2).
  revert Hs. unfold branchSelection. destruct (successorEdgesTx db task) as [|e l]; [by intros [= <-]|]. destruct (negb _); [by intros [= <-]|].
  unfold mbind, Tx_bind, successorNameMapTx, Query, catalogNames. rewrite E1. destruct (validate && _); [done|]. by intros [= <-].
Qed.

Lemma excluded_skipped t s : s ∈ adjacent p t → O t = TaskStatusSucceeded → s ∈ an_excludes a t → O s = TaskStatusSkipped.
Proof using HP HO.
  intros Hs Ht Hx. destruct (po_closed _ HP t s Hs) as [Hst _]. rewrite (HO s Hst).
  assert (excluded p a O s = true) as ->; [|done]. apply existsb_exists. exists t. split.
  - apply list_elem_of_In. by apply (go_edges _ (po_graph _ HP)).
  - rewrite Ht, str_eqb_refl. by apply bool_decide_eq_true.
Qed.

(** The effect of a completion on the other tasks: those it skips were pending, each is
    excluded by the branch or fails its rule, and no excluded one stays pending. *)
Definition advances (t : uuid) (ks : list uuid) (db db' : DB) : Prop :=
  skips ks db db' ∧ (∀ k, k ∈ ks → k ∈ pl_tasks p ∧ (k ∈ adjacent p t ∧ k ∈ an_excludes a t ∧ O t = TaskStatusSucceeded ∨ settled_unruled db' k)) ∧
  (O t = TaskStatusSucceeded → ∀ s, s ∈ adjacent p t → s ∈ an_excludes a t → statusof R db' s ≠ Some TaskStatusPending).

Lemma advanced slack validate ty now t branches db Q : rows_ok (bump (adjacent p t) slack) db → t ∈ pl_tasks p →
  O t = TaskStatusSucceeded → branches_answer validate t branches db →
  (∀ ks db', rows_ok slack db' → advances t ks db db' → Q ks db') →
  succeeds (advanceTaskTx uuid_String validate ty now R t branches) db Q.
Proof using HP HO.
  intros Hdb Ht HOt (task & sel & Hf & Hsel & Hx) HQ. apply succeeds_bind, (no_replay _ _ Hdb); [done|].
  apply succeeds_bind. eapply succeeds_mono; [|apply (task_edges_found _ _ _ (λ task' edges, task' = task ∧ edges = successorEdgesTx db task ∧
    ∀ s, s ∈ map e_ToTaskID edges ↔ s ∈ adjacent p t) Hdb Ht); intros task' Hf' _ Hs; rewrite Hf in Hf'; by injection Hf' as <-].
  intros task' db1 [-> Hs]. apply succeeds_bind. eapply succeeds_mono; [|exact Hs]. intros edges db2 (-> & -> & -> & He).
  apply succeeds_bind. unfold succeeds at 1. cbn [task_type_of]. rewrite Hsel.
  assert (∀ s, s ∈ adjacent p t → s ∈ pl_tasks p) as Hcl by (intros s Hin; by destruct (po_closed _ HP t s Hin)).
  apply succeeds_bind, (partitioned (bump (adjacent p t) slack)); [done| |].
  { intros e Hin. assert (e_ToTaskID e ∈ adjacent p t) as Hadj by (apply He, list_elem_of_fmap; by exists e).
    split; [by apply Hcl|]. intros Hu. apply (excluded_skipped t); [done|done|]. by apply Hx. }
  intros ks1 db1 Hdb1 (C1 & C2 & C3). set (ids := List.filter (λ s, negb (unselected sel s)) _).
  assert (∀ s, s ∈ ids → s ∈ adjacent p t) as Hids.
  { intros s (Hin & _)%list_elem_of_In%List.filter_In. by apply He, list_elem_of_In. }
  apply succeeds_bind. apply (decremented slack db1 ids).
  { eapply slack_le; [|exact Hdb1]. intros x. unfold bump. destruct (bool_decide (x ∈ ids)) eqn:Ex; [|case_bool_decide; lia]. apply bool_decide_eq_true, Hids in Ex. by rewrite bool_decide_eq_true_2. }
  intros db2 Hdb2 Hst2. apply succeeds_bind, (evaluated slack); [done| |].
  { intros r Hr. pose proof (read_rows _ _ ids Hdb2 r Hr) as Hrow. apply select_elem in Hr as [_ Hi]. unfold in_run in Hi.
    apply andb_true_iff in Hi as [_ Hi%bool_decide_eq_true]. split; [by apply Hcl, Hids|]. intros H0. eapply settled; [exact Hdb2|by apply Hcl, Hids|exact Hrow|done]. }
  intros evs ks2 db3 Hdb3 (E1 & E2 & _) Hev. apply succeeds_bind, (row_found _ _ Hdb3); [done|]. intros r _ _.
  apply succeeds_bind, (run_found _ _ Hdb3). intros jr _. apply succeeds_bind. apply succeeds_bind.
  apply (batch_stamped _ _ Hdb3). { intros e [->|Hin]%elem_of_cons; [done|by apply Hev]. }
  intros l. assert (∀ l db', (∃ e, db' = set_execution_events e db3) → succeeds (forTx l AppendTx) db' (λ _ db', ∃ e, db' = set_execution_events e db3)) as Hfor.
  { clear. induction l as [|x l IH]; intros db' (e & ->); [by exists e|]. cbn [forTx]. apply succeeds_bind, succeeds_append, IH.
    exists (execution_events (set_execution_events e db3) ++ [x]). by destruct db3. }
  eapply succeeds_mono; [|apply Hfor; exists (execution_events db3); by destruct db3]. intros [] db4 (e & ->).
  apply succeeds_ret, HQ; [by apply events_ok|]. pose proof (skips_app ks1 ks2 db db1 db3 C1 (skips_status _ _ _ _ Hst2 E1)) as HS.
  split_and!; [exact HS| |].
  - cbn [fst snd]. intros k [Hk|Hk]%elem_of_app.
    + destruct (C2 k Hk) as [Hkt [Hfrom|Hun]].
      2:{ split; [done|right]. apply (settled_mono db1); [|done]. intros q Hq. apply (skips_live ks2 db1 db3); [|exact Hq].
          by apply (skips_status _ _ _ _ Hst2). }
      split; [done|left]. apply list_elem_of_In, List.filter_In in Hfrom as [Hin Hu].
      apply list_elem_of_In, He in Hin. split_and!; [done|by apply Hx|done].
    + destruct (E2 k Hk) as [Hkt [Hfrom|?]]; [by apply elem_of_nil in Hfrom|by auto].
  - intros _ s Hs' Hxs. change (statusof R (set_execution_events e db3) s) with (statusof R db3 s). rewrite (proj2 E1), Hst2. case_bool_decide; [done|].
    apply C3, list_elem_of_In, List.filter_In. split; [by apply list_elem_of_In, He|by apply Hx].
Qed.

(** * The store calls of the executor *)

Definition tight : DB → Prop := rows_ok (λ _, 0%nat).

Lemma tight_of slack db : rows_ok slack db → tight db.
Proof. apply slack_le. intros t. lia. Qed.

(** A task ends with status [st], and [ks] are skipped with it. *)
Definition completes (t : uuid) (st : TaskStatus) (ks : list uuid) (db db' : DB) : Prop :=
  (∀ x, statusof R db' x = if decide (x = t) then Some st else if bool_decide (x ∈ ks) then Some TaskStatusSkipped else statusof R db x) ∧
  (∀ k, k ∈ ks → k ≠ t ∧ statusof R db k = Some TaskStatusPending) ∧
  (∀ k, k ∈ ks → k ∈ pl_tasks p ∧ (k ∈ adjacent p t ∧ k ∈ an_excludes a t ∧ O t = TaskStatusSucceeded ∨ settled_unruled db' k)) ∧
  (O t = TaskStatusSucceeded → ∀ s, s ∈ adjacent p t → s ∈ an_excludes a t → statusof R db' s ≠ Some TaskStatusPending).

Lemma completes_of t st ks db db1 db2 : IsTerminal st = true → only_status t st db db1 → advances t ks db1 db2 → completes t st ks db db2.
Proof.
  intros Hst H1 ([H2 H2'] & H3 & H4). assert (∀ k, k ∈ ks → k ≠ t) as Hne.
  { intros k Hk ->. specialize (H2 t Hk). rewrite H1, decide_True in H2 by done. by injection H2 as ->. }
  split_and!; [| |done|done].
  - intros x. rewrite H2', H1. destruct (decide (x = t)) as [->|]; [|done]. rewrite bool_decide_eq_false_2; [done|]. intros Hk. by apply (Hne t).
  - intros k Hk. split; [by apply Hne|]. specialize (H2 k Hk). rewrite H1 in H2. destruct (decide (k = t)); [by destruct (Hne k)|done].
Qed.

Section calls.
Context (db : DB) (t : uuid).
Hypothesis Hdb : tight db.
Hypothesis Ht : t ∈ pl_tasks p.
Hypothesis Hlive : live db t = true.

Lemma row_live : ∃ r, rowof R db t = Some r ∧ IsTerminal (tr_Status r) = false.
Proof using Hlive.
  unfold live, statusof in Hlive. destruct (rowof R db t) as [r|]; [|done]. exists r. split; [done|]. cbn in Hlive. by apply negb_true_iff.
Qed.

Lemma this_row r : r ∈ task_runs db → tr_JobRunID r = R → tr_TaskID r = t → rowof R db t = Some r.
Proof using Hdb. intros Hr E1 E2. apply rowof_unique; [apply Hdb|done|]. unfold task_key. by rewrite E1, E2. Qed.

Lemma complete_ok now result output branches : O t = taskStatusFromResult result →
  (taskStatusFromResult result = TaskStatusSucceeded → branches_answer true t branches db) →
  succeeds (completeTask uuid_String now R t result "" false output branches) db
    (λ ks db', tight db' ∧ completes t (taskStatusFromResult result) ks db db' ∧ (O t ≠ TaskStatusSucceeded → ks = [])).
Proof using HP HO Hdb Ht Hlive.
  intros HOt Hb. unfold completeTask. cbv zeta. remember (taskStatusFromResult result) as st eqn:Est. apply succeeds_bind, succeeds_query.
  destruct row_live as (r & Hr & Hterm). pose proof (rowof_key _ _ _ _ Hr) as [Hin Hkey].
  assert (first (select (claim_key R t "" false) (task_runs db)) = Some r) as ->.
  { rewrite <- Hr. unfold rowof. f_equal. unfold select. apply List.filter_ext. intros x. unfold claim_key. by rewrite andb_true_r. }
  rewrite Hterm. assert (IsTerminal st = true ∧ norm st = st ∧ (st = TaskStatusSucceeded ∨ st = TaskStatusFailed)) as (Hst & Hn & Hcase).
  { subst st. unfold taskStatusFromResult. destruct (_ || _); by auto. }
  apply succeeds_bind, (status_set (λ _, 0%nat) _ _ _ t st); [done|done|done| |by rewrite Hst, Hn|].
  { split; [apply claim_selects|]. intros x. unfold result_columns. destruct (bool_decide (output = ∅)), branches, (st =s TaskStatusFailed); split_and!; reflexivity. }
  rewrite Hst. intros db1 Hdb1 Hon Hcat. cbn [andb]. destruct (st =s TaskStatusFailed) eqn:Ef.
  - apply str_eqb_eq in Ef. apply succeeds_bind, (event_recorded _ _ Hdb1); [done|]. intros e. apply succeeds_ret.
    split; [by eapply tight_of, events_ok, Hdb1|]. split; [|done]. apply (completes_of t st [] db db1); [done|done|].
    split_and!; [exact (skips_nil db1)|intros k Hk; by apply elem_of_nil in Hk|]. rewrite HOt, Ef. done.
  - assert (st = TaskStatusSucceeded) as Es by (destruct Hcase as [?| ->]; done).
    eapply succeeds_mono; [|apply (advanced (λ _, 0%nat)); [exact Hdb1|done|by rewrite HOt| |]].
    + intros ks db' HQ. exact HQ.
    + apply (branches_same true t branches db); [done|by apply Hb].
    + intros ks db2 Hdb2 Hadv. split; [done|]. split; [by eapply completes_of|]. intros Hns. destruct Hns. by rewrite HOt.
Qed.

Lemma cache_ok now source result output branches : O t = TaskStatusSucceeded → branches_answer false t branches db →
  succeeds (cacheHitTask uuid_String now R t source result "" false output branches) db
    (λ ks db', tight db' ∧ completes t TaskStatusCached ks db db').
Proof using HP HO Hdb Ht Hlive.
  intros HOt Hb. apply succeeds_bind, succeeds_query. destruct row_live as (r & Hr & Hterm).
  assert (first (select (claim_key R t "" false) (task_runs db)) = Some r) as ->.
  { rewrite <- Hr. unfold rowof. f_equal. unfold select. apply List.filter_ext. intros x. unfold claim_key. by rewrite andb_true_r. }
  rewrite Hterm. apply succeeds_bind, (status_set (λ _, 0%nat) _ _ _ t TaskStatusCached); [done|done|done| |done|].
  { split; [apply claim_selects|]. intros x. unfold cache_columns. destruct (bool_decide (output = ∅)), branches; split_and!; reflexivity. }
  intros db1 Hdb1 Hon Hcat. cbn [andb]. eapply succeeds_mono; [|apply (advanced (λ _, 0%nat)); [exact Hdb1|done|done| |]].
  - intros ks db' HQ. exact HQ.
  - by apply (branches_same false t branches db).
  - intros ks db2 Hdb2 Hadv. split; [done|]. by eapply completes_of.
Qed.

Lemma fail_ok now msg : O t = TaskStatusFailed →
  succeeds (FailTask now R t msg) db (λ _ db', tight db' ∧ completes t TaskStatusFailed [] db db').
Proof using HP HO Hdb Ht Hlive.
  intros HOt. apply succeeds_bind, succeeds_query. cbn [andb]. apply succeeds_bind, (status_set (λ _, 0%nat) _ _ _ t TaskStatusFailed); [done|done|done| |done|].
  { split; [apply claim_selects|]. intros x. split_and!; reflexivity. }
  intros db1 Hdb1 Hon _. cbn [andb]. apply (event_recorded _ _ Hdb1); [done|]. intros e. split; [by eapply tight_of, events_ok, Hdb1|].
  apply (completes_of t TaskStatusFailed [] db db1); [done|done|]. split_and!; [exact (skips_nil db1)|intros k Hk; by apply elem_of_nil in Hk|].
  by rewrite HOt.
Qed.

(** Only the status of the task's row changes, to one that is not terminal. *)
Lemma start_ok now runtimeID : succeeds (StartTask now R t runtimeID) db (λ _ db', tight db' ∧ only_status t TaskStatusRunning db db').
Proof using HP Hdb Ht Hlive.
  destruct row_live as (r & Hr & Hterm).
  apply succeeds_bind, (status_set (λ _, 0%nat) _ _ _ t TaskStatusRunning); [done|done|done| |done|].
  { split; [|intros x; split_and!; reflexivity]. intros x Hx E. unfold is_task_run. rewrite E, N.eqb_refl. cbn [andb].
    destruct (N.eqb_spec (tr_TaskID x) t) as [Et|]; [|done]. pose proof (this_row x Hx E Et) as Hx'. rewrite Hr in Hx'. injection Hx' as ->.
    rewrite notTerminal_spec. by rewrite Hterm. }
  intros db1 Hdb1 Hon _. cbn [IsTerminal] in Hdb1. destruct (_ =? 0)%nat; [by apply succeeds_ret|].
  apply (event_recorded _ _ Hdb1); [done|]. intros e. split; [by apply events_ok|exact Hon].
Qed.

Lemma retry_ok attempt : succeeds (RetryTask R t attempt) db (λ _ db', tight db' ∧ only_status t TaskStatusPending db db').
Proof using HP Hdb Ht Hlive.
  apply succeeds_bind, (status_set (λ _, 0%nat) _ _ _ t TaskStatusPending); [done|done|done| |done|].
  { split; [apply claim_selects|]. intros x. split_and!; reflexivity. }
  intros db1 Hdb1 Hon _. cbn [andb]. apply succeeds_bind, (row_found _ _ Hdb1); [done|]. intros r _ _.
  apply succeeds_bind, (run_found _ _ Hdb1). intros jr _. apply succeeds_bind, (batch_stamped _ _ Hdb1).
  { intros e [->|He]%elem_of_cons; [done|]. destruct (_ =? 0); [|by apply elem_of_nil in He]. by apply list_elem_of_singleton in He as ->. }
  intros l. assert (∀ l db', (∃ e, db' = set_execution_events e db1) → succeeds (forTx l AppendTx) db' (λ _ db', ∃ e, db' = set_execution_events e db1)) as Hfor.
  { clear. induction l as [|x l IH]; intros db' (e & ->); [by exists e|]. cbn [forTx]. apply succeeds_bind, succeeds_append, IH.
    exists (execution_events (set_execution_events e db1) ++ [x]). by destruct db1. }
  eapply succeeds_mono; [|apply Hfor; exists (execution_events db1); by destruct db1]. intros [] db2 (e & ->). split; [by apply events_ok|exact Hon].
Qed.
End calls.

Lemma limit_ok db t now after : tight db → t ∈ pl_tasks p → statusof R db t = Some TaskStatusPending →
  succeeds (RateLimitTask now R t after) db (λ _ db', tight db' ∧ only_status t TaskStatusPending db db').
Proof using HP.
  intros Hdb Ht Hst. apply succeeds_bind, (status_set (λ _, 0%nat) _ _ _ t TaskStatusPending); [done|done|by unfold live; rewrite Hst| |done|].
  { split; [|intros x; split_and!; reflexivity]. intros x Hx E. unfold is_task_run. rewrite E, N.eqb_refl. cbn [andb].
    destruct (N.eqb_spec (tr_TaskID x) t) as [Et|]; [|done]. pose proof (this_row db t Hdb x Hx E Et) as Hx'.
    unfold statusof in Hst. rewrite Hx' in Hst. injection Hst as ->. done. }
  intros db1 Hdb1 Hon _. by apply succeeds_ret.
Qed.

(** A skip by the loop; a row that is no longer pending stays as it is. *)
Lemma skip_ok db t now reason : tight db → t ∈ pl_tasks p → O t = TaskStatusSkipped →
  succeeds (SkipTask now R t reason) db (λ _ db', tight db' ∧ statusof R db' t ≠ Some TaskStatusPending ∧
    ∀ x, statusof R db' x = if decide (x = t ∧ statusof R db t = Some TaskStatusPending) then Some TaskStatusSkipped else statusof R db x).
Proof using HP.
  intros Hdb Ht HOt. assert (succeeds (markTaskSkippedTx now R t reason) db (λ b db', tight db' ∧ statusof R db' t ≠ Some TaskStatusPending ∧
    (b = false → rows_ok (λ _, 0%nat) db) ∧
    ∀ x, statusof R db' x = if decide (x = t ∧ statusof R db t = Some TaskStatusPending) then Some TaskStatusSkipped else statusof R db x)) as HM.
  { apply (marked (λ _, 0%nat)); [done|done|done| |].
    - intros db' Hst Hdb' [_ Hsk]. split_and!; [by eapply tight_of| |done|].
      + rewrite Hsk, bool_decide_eq_true_2 by (by apply list_elem_of_singleton). done.
      + intros x. rewrite Hsk. destruct (decide (x = t ∧ _)) as [[-> _]|Hn]; [by rewrite bool_decide_eq_true_2 by (by apply list_elem_of_singleton)|].
        rewrite bool_decide_eq_false_2; [done|]. intros ->%list_elem_of_singleton. by apply Hn.
    - intros db' Hst Hdb' [_ Hsk] _. assert (∀ x, statusof R db' x = statusof R db x) as He by (intros x; by rewrite Hsk, bool_decide_eq_false_2 by apply not_elem_of_nil).
      split_and!; [done|by rewrite He|done|]. intros x. rewrite He. rewrite decide_False; [done|]. by intros [_ ?]. }
  revert HM. unfold markTaskSkippedTx, SkipTask, succeeds, mbind, Tx_bind.
  destruct (UpdateTaskRuns (pending_key R t) (skip_columns now reason) db) as [e|[n db1]] eqn:EU; [done|]. destruct (n =? 0)%nat eqn:En.
  - intros (Hdb1 & H1 & _ & H2). pose proof (event_recorded _ _ Hdb1 TypeTaskSkipped t (λ _ db', tight db' ∧ statusof R db' t ≠ Some TaskStatusPending ∧
      ∀ x, statusof R db' x = if decide (x = t ∧ statusof R db t = Some TaskStatusPending) then Some TaskStatusSkipped else statusof R db x) Ht) as HE.
    apply HE. intros e. split_and!; [by apply events_ok|exact H1|exact H2].
  - destruct (recordTaskEventTx TypeTaskSkipped R t db1) as [e|[[] db2]]; [done|]. intros (H0 & H1 & _ & H2). by split_and!.
Qed.
End completion.
End rows.

(** * The catalog stays *)

Section catalog.
Context (uuid_String : uuid → string) (now : Z) (runID : uuid).

Lemma catalog_events : ignores_events same_catalog.
Proof. done. Qed.

Lemma catalog_update q cols : tx_rel same_catalog (UpdateTaskRuns q cols).
Proof. intros db n db' E. by apply UpdateTaskRuns_spec in E as (_ & -> & _). Qed.
#[local] Hint Resolve catalog_update : tx.
#[local] Hint Extern 1 (tx_rel same_catalog _) =>
  first [apply tx_rel_record|apply tx_rel_ready|apply tx_rel_batch|apply tx_rel_descriptor];
  [typeclasses eauto|apply catalog_events..] : tx.

Lemma classify_catalog updated edges : tx_rel same_catalog (classifySuccessors runID updated edges).
Proof.
  induction edges as [|e edges IH]; cbn [classifySuccessors]; unfold shouldRunTaskTx, predecessorStatusesTx, replayPredecessorRefsTx, firstTask; tx_solve.
Qed.
#[local] Hint Resolve classify_catalog : tx.

Lemma skipLoop_catalog marks queue : tx_rel same_catalog (skipLoop now runID marks queue).
Proof.
  revert queue. induction marks as [|marks IHm]; intros queue; induction queue as [|[t reason] queue IHq]; cbn [skipLoop];
    unfold expandSkipped, taskForEdges, successorEdgesForRunTx, batchDecrementPredecessorsTx, firstTask, markTaskSkippedTx; tx_solve.
Qed.
#[local] Hint Resolve skipLoop_catalog : tx.

Lemma partition_catalog taskID sel edges : tx_rel same_catalog (partitionEdges uuid_String now runID taskID sel edges).
Proof. induction edges as [|e edges IH]; cbn [partitionEdges]; unfold skipTaskAndDescendantsTx; tx_solve. Qed.

Lemma evaluate_catalog updated : tx_rel same_catalog (evaluateSuccessors now runID updated).
Proof.
  induction updated as [|r updated IH]; cbn [evaluateSuccessors];
    unfold skipTaskAndDescendantsTx, firstRun, shouldRunTaskTx, predecessorStatusesTx, replayPredecessorRefsTx, firstTask; tx_solve.
Qed.
#[local] Hint Resolve partition_catalog evaluate_catalog : tx.

Lemma advance_catalog v ty taskID sel : tx_rel same_catalog (advanceTaskTx uuid_String v ty now runID taskID sel).
Proof.
  unfold advanceTaskTx, firstTaskRun, firstRun, taskForEdges, successorEdgesForRunTx, batchDecrementPredecessorsTx, firstTask, branchSelection,
    successorNameMapTx. tx_solve.
Qed.
#[local] Hint Resolve advance_catalog : tx.

Lemma complete_catalog t result cb enf output sel : tx_rel same_catalog (completeTask uuid_String now runID t result cb enf output sel).
Proof. unfold completeTask. tx_solve. Qed.

Lemma cache_catalog t src result cb enf output sel : tx_rel same_catalog (cacheHitTask uuid_String now runID t src result cb enf output sel).
Proof. unfold cacheHitTask. tx_solve. Qed.

Lemma calls_catalog t msg reason rt attempt after : tx_rel same_catalog (StartTask now runID t rt) ∧ tx_rel same_catalog (RetryTask runID t attempt) ∧
  tx_rel same_catalog (FailTask now runID t msg) ∧ tx_rel same_catalog (SkipTask now runID t reason) ∧ tx_rel same_catalog (RateLimitTask now runID t after).
Proof.
  unfold StartTask, RetryTask, retryTask, FailTask, failTask, SkipTask, RateLimitTask, firstTaskRun, firstRun. split_and!; tx_solve.
Qed.
End catalog.
