(* ===== verification/LocalTask.v ===== *)
(** One task in the in-process executor: what its goroutine answers when its store calls
    go through, and that every call of it either leaves the row unfinished or ends the
    task with that answer. *)

From S2P Require Import Prelude TriggerRule Tables Store TxLogic RunState TaskOps RunOps Topology JobGraph SqlAdvance TaskTheorems RateLimit LocalExec LocalRows.

(** * Store calls that go through *)

(** At most eight contention errors before an attempt without one. *)
Definition recovers (faults : nat → option store_error) : Prop :=
  ∃ k, (k ≤ 8)%nat ∧ (∀ i, (i < k)%nat → faults i = Some ErrContention) ∧ faults k = None.

Lemma retried {A} faults (m : Tx A) db Q : recovers faults → succeeds m db Q →
  ∃ x db', withStoreBusyRetry faults m db = (inr x, db') ∧ m db = inr (x, db') ∧ Q x db'.
Proof.
  intros (k & Hk & Hf & Hn) (x & db' & E & HQ)%succeeds_run. exists x, db'. split; [|done]. unfold withStoreBusyRetry.
  rewrite (busyRetryLoop_recovers _ faults 0 m db k); [by rewrite E|exact Hk| |done|by rewrite E]. intros i Hi. apply Hf. lia.
Qed.

Lemma transacted {A} (m : Tx A) db Q : succeeds m db Q → ∃ x db', Transaction None m db = (inr x, db') ∧ m db = inr (x, db') ∧ Q x db'.
Proof. intros (x & db' & E & HQ)%succeeds_run. exists x, db'. unfold Transaction. by rewrite E. Qed.

(** * The answer of a task *)

(** The end of an attempt that executes: its result and branch selections. *)
Definition attemptEnd (tio : TaskIO) (io : AttemptIO) : option (string * list string) :=
  if ti_quarantined tio then None
  else match ai_prepare io, ai_end io, ai_schemaError io with
       | None, inr (result, _, branches), None => Some (result, branches)
       | _, _, _ => None
       end.

(** The first attempt that executes decides; without one the task fails. *)
Fixpoint answerOf (tio : TaskIO) (attempt : Z) (more : nat) : TaskStatus * list string :=
  match attemptEnd tio (ti_attempt tio attempt) with
  | Some (result, branches) => (taskStatusFromResult result, branches)
  | None => match more with O => (TaskStatusFailed, []) | S more => answerOf tio (attempt + 1) more end
  end.

Section answers.
Context (p : Plan) (a : Answers) (O : uuid → TaskStatus) (uuid_String : uuid → string) (error_text : exec_error → string) (cat : DB).
Hypothesis HP : plan_ok p.
Hypothesis HO : solves p a O.

Abbreviation R := (pl_runID p).

(** The surroundings of a task in which its store calls go through, nothing is cancelled
    and its container answers as [a] says; only successful results are in the cache. *)
Record gives (t : uuid) (tio : TaskIO) : Prop := {
  gi_calls : ∀ n, recovers (ai_startFaults (ti_attempt tio n)) ∧ recovers (ai_completeFaults (ti_attempt tio n)) ∧
    ai_failFault (ti_attempt tio n) = None ∧ ai_cancelledInDelay (ti_attempt tio n) = false;
  gi_answer : match ti_cache tio with
    | Some entry => recovers (ce_faults entry) ∧ IsSuccessfulTaskResult (ce_Result entry) = true ∧ an_status a t = TaskStatusSucceeded ∧
        branches_answer p a uuid_String false t (ce_BranchSelections entry) cat
    | None => let ans := answerOf tio 1 (Z.to_nat (ti_retries tio)) in an_status a t = ans.1 ∧
        (ans.1 = TaskStatusSucceeded → branches_answer p a uuid_String true t ans.2 cat)
    end;
}.

(** * The goroutine *)

(** The task [t] ends with a result that carries the skipped tasks. *)
Definition ended (t : uuid) (err : option exec_error) (ks : list uuid) (db db' : DB) : Prop :=
  ∃ st, IsTerminal st = true ∧ norm st = O t ∧ (err = None ↔ O t = TaskStatusSucceeded) ∧ (O t ≠ TaskStatusSucceeded → ks = []) ∧
    completes p a O t st ks db db'.

(** At most [n] calls are left; each leaves the row unfinished or ends the task. *)
Fixpoint good (n : nat) (t : uuid) (proc : Proc) : Prop :=
  match n, proc with
  | S n, Next call => ∀ db, tight p O db → same_catalog cat db → live p db t = true →
      let '(proc', db') := call db in tight p O db' ∧ same_catalog cat db' ∧
        ((∃ st, IsTerminal st = false ∧ only_status p t st db db' ∧ good n t proc') ∨
         (∃ err ks, proc' = Returned (mkTaskResult t err ks) ∧ ended t err ks db db'))
  | _, _ => False
  end.

Lemma good_returned n t r : ¬ good n t (Returned r).
Proof. destruct n; intros []. Qed.

Section task.
Context (t : uuid) (tio : TaskIO).
Hypothesis Ht : t ∈ pl_tasks p.
Hypothesis Hruns : O t = an_status a t.
Hypothesis Hgives : gives t tio.

Lemma good_S n proc : good n t proc → good (S n) t proc.
Proof.
  revert proc. induction n as [|n IH]; [by intros [|]|]. intros [|call]; [done|]. cbn [good]. intros H db H1 H2 H3. specialize (H db H1 H2 H3).
  destruct (call db) as [proc' db']. destruct H as (? & ? & [(st & ? & ? & ?)|?]); (split; [done|]; split; [done|]); [left|by right].
  exists st. split_and!; [done|done|by apply IH].
Qed.

Lemma good_le n m proc : (n ≤ m)%nat → good n t proc → good m t proc.
Proof. induction 1; [done|]. intros. by apply good_S, IHle. Qed.

(** A failed attempt that is not the last, and the last. *)
Lemma failed_good attempt rest e n : (match rest with None => O t = TaskStatusFailed | Some next => good n t next end) →
  good (S n) t (attemptFailed error_text R t tio attempt rest e).
Proof using HP HO Ht Hgives.
  intros Hrest. destruct (gi_calls _ _ Hgives attempt) as (_ & _ & Hf & Hc). unfold attemptFailed. destruct rest as [next|]; cbn [good].
  - intros db H1 H2 H3. unfold storeCall. destruct (Transaction _ _ db) as [r db'] eqn:ET. rewrite Hc, andb_false_r. unfold Transaction in ET.
    assert (db' = db ∨ RetryTask R t (attempt + 1) db = inr ((), db')) as [->|E].
    { destruct (ai_retryFault _); [injection ET as <- <-; by left|]. destruct (RetryTask R t (attempt + 1) db) as [x|[[] d]]; injection ET as <- <-; by auto. }
    + split; [done|]. split; [done|]. left. destruct (statusof R db t) as [s|] eqn:Es; [|unfold live in H3; by rewrite Es in H3].
      exists s. split_and!; [unfold live in H3; rewrite Es in H3; by apply negb_true_iff| |exact Hrest]. intros x. destruct (decide (x = t)) as [->|]; done.
    + pose proof (retry_ok p O HP db t H1 Ht H3 (attempt + 1)) as HR. unfold succeeds in HR. rewrite E in HR. destruct HR as [H4 H5].
      split; [done|]. split; [transitivity db; [done|]; by apply (proj1 (proj2 (calls_catalog 0 R t "" "" "" (attempt + 1) None)) _ _ _ E)|].
      left. exists TaskStatusPending. by split_and!.
  - intros db H1 H2 H3. unfold storeCall. rewrite Hf.
    destruct (transacted _ _ _ (fail_ok p a O HP HO db t H1 Ht H3 (ai_now (ti_attempt tio attempt)) (error_text e) Hrest)) as (x & db' & -> & E & H4 & H5).
    split; [done|]. split; [transitivity db; [done|]; by apply (proj1 (proj2 (proj2 (calls_catalog _ R t _ "" "" 0 None))) _ _ _ E)|].
    right. exists (Some e), []. split; [done|]. exists TaskStatusFailed. rewrite Hrest. by split_and!.
Qed.

Lemma attempt_good attempt rest n :
  match attemptEnd tio (ti_attempt tio attempt) with
  | Some (result, branches) => O t = taskStatusFromResult result ∧ (taskStatusFromResult result = TaskStatusSucceeded → branches_answer p a uuid_String true t branches cat)
  | None => match rest with None => O t = TaskStatusFailed | Some next => good n t next end
  end → good (S (S n)) t (runAttempt uuid_String error_text R t tio attempt rest).
Proof using HP HO Ht Hgives.
  destruct (gi_calls _ _ Hgives attempt) as (Hs & Hcp & _ & _). set (io := ti_attempt tio attempt) in *. unfold attemptEnd, runAttempt. fold io.
  destruct (ti_quarantined tio); [intros H; by apply good_S, failed_good|].
  destruct (ai_prepare io); [intros H; by apply good_S, failed_good|]. intros H db H1 H2 H3. unfold storeCall at 1.
  destruct (retried _ _ _ _ Hs (start_ok p O HP db t H1 Ht H3 (ai_now io) (ai_runtimeID io))) as (x & db1 & -> & E1 & H4 & H5).
  assert (same_catalog cat db1) as Hcat1 by (transitivity db; [done|]; by apply (proj1 (calls_catalog _ R t "" "" _ 0 None) _ _ _ E1)).
  split; [done|]. split; [done|]. left. exists TaskStatusRunning. split; [done|]. split; [done|].
  destruct (ai_end io) as [msg|[[result output] branches]]; [by apply failed_good|].
  destruct (ai_schemaError io); [by apply failed_good|]. destruct H as [HOt Hb]. apply (good_le 1); [lia|].
  intros db2 H6 H7 H8. unfold storeCall.
  destruct (retried _ _ _ _ Hcp (complete_ok p a O HP HO uuid_String db2 t H6 Ht H8 (ai_now io) result output branches HOt
    (λ E, branches_same p a uuid_String true t branches cat db2 H7 (Hb E)))) as (ks & db3 & -> & E2 & H9 & H10 & H11).
  split; [done|]. split; [transitivity db2; [done|]; by apply (complete_catalog _ _ _ _ _ _ _ _ _ _ _ _ E2)|]. right.
  exists (if IsSuccessfulTaskResult result then None else Some (ErrTaskFailed t ("failed with result " +:+ quoted result))), ks.
  split; [done|]. exists (taskStatusFromResult result). unfold IsSuccessfulTaskResult.
  assert (taskStatusFromResult result = TaskStatusSucceeded ∨ taskStatusFromResult result = TaskStatusFailed) as [Es|Es] by (unfold taskStatusFromResult; destruct (_ || _); by auto);
    rewrite Es in H10 |- *; rewrite HOt, Es in H11 |- *; by split_and!.
Qed.

Lemma attempts_good attempt more : let ans := answerOf tio attempt more in O t = ans.1 →
  (ans.1 = TaskStatusSucceeded → branches_answer p a uuid_String true t ans.2 cat) →
  good (2 * S more) t (attempts uuid_String error_text R t tio attempt more).
Proof using HP HO Ht Hgives.
  revert attempt. induction more as [|more IH]; intros attempt; cbn [attempts answerOf]; destruct (attemptEnd tio (ti_attempt tio attempt)) as [[result branches]|] eqn:E;
    cbv zeta; cbn [fst snd]; intros H1 H2.
  - apply (good_le 2); [lia|]. apply attempt_good. by rewrite E.
  - apply (good_le 2); [lia|]. apply attempt_good. by rewrite E.
  - replace (2 * S (S more))%nat with (S (S (2 * S more))) by lia. apply attempt_good. by rewrite E.
  - replace (2 * S (S more))%nat with (S (S (2 * S more))) by lia. apply attempt_good. rewrite E. by apply IH.
Qed.

(** A task needs two calls per attempt, and one for a cache hit. *)
Lemma runTask_good : good (2 * S (Z.to_nat (ti_retries tio))) t (runTask uuid_String error_text R t tio).
Proof using HP HO Ht Hruns Hgives.
  pose proof (gi_answer _ _ Hgives) as HA. unfold runTask. destruct (ti_cache tio) as [entry|].
  - destruct HA as (Hf & Hres & Hst & Hb). apply (good_le 1); [lia|]. intros db H1 H2 H3. unfold storeCall. rewrite Hst in Hruns.
    destruct (retried _ _ _ _ Hf (cache_ok p a O HP HO uuid_String db t H1 Ht H3 (ce_now entry) (ce_source entry) (ce_Result entry) (ce_Output entry)
      (ce_BranchSelections entry) Hruns (branches_same _ _ _ _ _ _ _ _ H2 Hb))) as (ks & db1 & -> & E & H4 & H5).
    split; [done|]. split; [transitivity db; [done|]; by apply (cache_catalog _ _ _ _ _ _ _ _ _ _ _ _ _ E)|].
    right. unfold finishedWith. rewrite Hres. exists None, ks. split; [done|]. exists TaskStatusCached. rewrite Hruns. by split_and!.
  - destruct HA as [H1 H2]. apply attempts_good; [by rewrite Hruns|done].
Qed.
End task.
End answers.
