(* ===== verification/LocalInv.v ===== *)
(** The invariant of the in-process executor's loop, and that receiving a result keeps it:
    the tasks that are processed have the outcome of the run's equations, the counters of
    the others are the predecessors they wait for, and exactly the tasks that wait for
    nothing are queued, deferred or running. *)

From S2P Require Import Prelude TriggerRule Tables Store TxLogic RunState TaskOps RunOps Topology JobGraph SqlAdvance TaskTheorems RateLimit.
From S2P Require Import LocalExec LocalRows LocalTask.

Section inv.
Context (p : Plan) (a : Answers) (O : uuid → TaskStatus) (cat : DB).
Hypothesis HP : plan_ok p.
Hypothesis HO : solves p a O.
Hypothesis Hans : ∀ t, an_status a t ≠ TaskStatusSkipped.

Abbreviation R := (pl_runID p).
Abbreviation edge := (uuid * uuid)%type.

Definition activeIDs (st : ExecState) : list uuid := map fst (ex_active st).

(** Queued, running or deferred. *)
Definition scheduled (st : ExecState) (t : uuid) : Prop := t ∈ ex_queue st ∨ t ∈ activeIDs st ∨ is_Some (ex_deferred st !! t).

(** The predecessors a task waits for: not processed, or processed with a decrement still
    owed to the task. *)
Definition waits (owed : gset edge) (st : ExecState) (t q : uuid) : bool := bool_decide (q ∉ ex_processed st ∨ (q, t) ∈ owed).
Definition waiting (owed : gset edge) (st : ExecState) (t : uuid) : nat := countb (waits owed st t) (preds p t).

(** The edges out of tasks. *)
Definition out (q : uuid) : gset edge := list_to_set (map (pair q) (adjacent p q)).
Definition outs (l : list uuid) : gset edge := ⋃ map out l.

(** A result that waits to be received, with the tasks the store skipped for it. *)
Definition carrier (st : ExecState) (t : uuid) (err : option exec_error) (ks : list uuid) : Prop :=
  (err = None ↔ O t = TaskStatusSucceeded) ∧ (O t ≠ TaskStatusSucceeded → ks = []) ∧
  ∀ k, k ∈ ks → k ∈ pl_tasks p ∧ O k = TaskStatusSkipped ∧ live p (ex_db st) k = false ∧
    (k ∈ adjacent p t ∨ unruled p O k ∧ ∀ q, q ∈ preds p k → q ∈ ex_processed st ∨ q ∈ ks ∨ q = t).

Record inv (owed : gset edge) (carry : list uuid) (st : ExecState) : Prop := {
  iv_db : tight p O (ex_db st);
  iv_cat : same_catalog cat (ex_db st);
  iv_halt : ex_halt st = false ∧ ex_runErr st = None;
  iv_proc : ∀ t, t ∈ ex_processed st → t ∈ pl_tasks p ∧ live p (ex_db st) t = false;
  iv_out : ∀ t, ex_outcomes st !! t = if decide (t ∈ ex_processed st) then Some (O t) else None;
  iv_deg : ∀ t, t ∈ pl_tasks p → ∃ n, ex_indegree st !! t = Some n ∧ (t ∉ ex_processed st → n = Z.of_nat (waiting owed st t)) ∧
    (t ∈ ex_processed st → (∃ q, q ∈ preds p t ∧ q ∉ ex_processed st ∧ O q = TaskStatusSucceeded) → Z.of_nat (waiting ∅ st t) + 1 ≤ n);
  iv_queue : NoDup (ex_queue st) ∧ NoDup (activeIDs st) ∧ ex_inQueue st = list_to_set (ex_queue st);
  iv_apart : (∀ t, t ∈ ex_queue st → t ∉ activeIDs st ∧ ex_deferred st !! t = None) ∧ ∀ t, t ∈ activeIDs st → ex_deferred st !! t = None;
  iv_ready : ∀ t, t ∈ pl_tasks p → t ∉ ex_processed st → waiting owed st t = 0%nat ↔ scheduled st t;
  iv_sched : ∀ t, scheduled st t → t ∈ pl_tasks p ∧ t ∉ ex_processed st ∧ O t = an_status a t;
  iv_pend : ∀ t, t ∈ pl_tasks p → t ∉ ex_processed st → live p (ex_db st) t = true →
    statusof R (ex_db st) t = Some TaskStatusPending ∨ t ∈ activeIDs st;
  iv_live : ∀ t, t ∈ ex_queue st ∨ is_Some (ex_deferred st !! t) → live p (ex_db st) t = true;
  iv_act : ∀ t proc, (t, proc) ∈ ex_active st → live p (ex_db st) t = true ∧ (∃ n, good p a O cat n t proc) ∨
    ∃ err ks, proc = Returned (mkTaskResult t err ks) ∧ live p (ex_db st) t = false ∧ carrier st t err ks;
  iv_dark : ∀ t, t ∈ pl_tasks p → t ∉ ex_processed st → live p (ex_db st) t = false →
    t ∈ activeIDs st ∨ t ∈ carry ∨ ∃ q ks, (q, Returned (mkTaskResult q None ks)) ∈ ex_active st ∧ t ∈ ks;
  iv_carry : ∀ t, t ∈ carry → t ∉ ex_processed st → t ∈ pl_tasks p ∧ O t = TaskStatusSkipped ∧ live p (ex_db st) t = false ∧
    ((∃ q, q ∈ preds p t ∧ (q, t) ∈ owed ∧ O q = TaskStatusSucceeded) ∨
     unruled p O t ∧ ∀ q, q ∈ preds p t → q ∈ ex_processed st ∨ O q ≠ TaskStatusSucceeded);
  iv_excl : ∀ q s, q ∈ pl_tasks p → live p (ex_db st) q = false → O q = TaskStatusSucceeded → s ∈ adjacent p q → s ∈ an_excludes a q →
    live p (ex_db st) s = false;
  iv_term : ex_terminal st = Z.of_nat (size (ex_processed st));
  iv_owed : ∀ q t, (q, t) ∈ owed → q ∈ ex_processed st ∧ t ∈ adjacent p q;
}.

(** * Graph and counts *)

Lemma pred_adjacent q t : q ∈ preds p t ↔ t ∈ adjacent p q.
Proof. apply (go_edges _ (po_graph _ HP)). Qed.

Lemma pred_task q t : q ∈ preds p t → q ∈ pl_tasks p ∧ t ∈ pl_tasks p.
Proof. intros H%pred_adjacent. by destruct (po_closed _ HP q t H). Qed.

Lemma elem_out q x y : (x, y) ∈ out q ↔ x = q ∧ y ∈ adjacent p q.
Proof. unfold out. rewrite elem_of_list_to_set, list_elem_of_fmap. naive_solver. Qed.

Lemma elem_outs l x y : (x, y) ∈ outs l ↔ x ∈ l ∧ y ∈ adjacent p x.
Proof.
  unfold outs. rewrite elem_of_union_list. split.
  - intros (X & (q & -> & Hq)%list_elem_of_fmap & [-> Hy]%elem_out). done.
  - intros [Hx Hy]. exists (out x). split; [apply list_elem_of_fmap; by exists x|]. by apply elem_out.
Qed.

Lemma waiting_ext owed owed' st st' t : (∀ q, q ∈ preds p t → (q ∉ ex_processed st ∨ (q, t) ∈ owed) ↔ (q ∉ ex_processed st' ∨ (q, t) ∈ owed')) →
  waiting owed st t = waiting owed' st' t.
Proof. intros H. apply countb_ext. intros q Hq. unfold waits. by apply bool_decide_ext, H. Qed.

Lemma waiting_le owed owed' st st' t : (∀ q, q ∈ preds p t → q ∉ ex_processed st ∨ (q, t) ∈ owed → q ∉ ex_processed st' ∨ (q, t) ∈ owed') →
  (waiting owed st t ≤ waiting owed' st' t)%nat.
Proof. intros H. apply countb_mono. intros q Hq. unfold waits. rewrite !bool_decide_eq_true. by apply H. Qed.

(** One edge paid. *)
Lemma waiting_pay owed st c s : c ∈ preds p s → c ∈ ex_processed st → (c, s) ∈ owed →
  waiting owed st s = S (waiting (owed ∖ {[(c, s)]}) st s).
Proof.
  intros Hc Hp Ho. unfold waiting. rewrite (countb_clear (waits owed st s) (waits (owed ∖ {[(c, s)]}) st s) c).
  - pose proof (occ_nodup c _ (go_nodup _ (po_graph _ HP) s)) as H1. fold (preds p s) in H1. apply occ_elem in Hc. lia.
  - apply bool_decide_eq_true. by right.
  - apply bool_decide_eq_false. set_solver.
  - intros q Hq. apply bool_decide_ext. assert ((q, s) ≠ (c, s)) by congruence. set_solver.
Qed.

Lemma waiting_zero owed st t : waiting owed st t = 0%nat ↔ ∀ q, q ∈ preds p t → q ∈ ex_processed st ∧ (q, t) ∉ owed.
Proof.
  unfold waiting. rewrite countb_0. apply forall_proper. intros q. apply forall_proper. intros Hq. unfold waits. rewrite bool_decide_eq_false.
  destruct (decide (q ∈ ex_processed st)); tauto.
Qed.

(** The outcomes of finished predecessors are those of the equations. *)
Lemma collected owed carry st t : inv owed carry st → (∀ q, q ∈ preds p t → q ∈ ex_processed st) → satisfied p st t = ruleHolds p O t.
Proof.
  intros HI Hp. unfold satisfied, ruleHolds. f_equal. induction (preds p t) as [|q l IH]; [done|]. cbn [CollectPredecessorStatuses map].
  rewrite (iv_out _ _ _ HI), decide_True by (apply Hp; by apply elem_of_cons; left). f_equal. apply IH. intros. apply Hp. by apply elem_of_cons; right.
Qed.

(** * Single updates *)

(** Debts to processed tasks are void. *)
Lemma drop_inv owed owed' carry st : inv owed carry st → owed' ⊆ owed → (∀ q t, (q, t) ∈ owed → (q, t) ∉ owed' → t ∈ ex_processed st) →
  inv owed' carry st.
Proof.
  intros [] Hsub Hd.
  assert (∀ t, t ∉ ex_processed st → waiting owed' st t = waiting owed st t) as Hw.
  { intros t Ht. apply waiting_ext. intros q _. split; [set_solver|]. intros [?|Hq]; [by left|right]. destruct (decide ((q, t) ∈ owed')); [done|]. naive_solver. }
  split; try done.
  - intros t Ht. destruct (iv_deg0 t Ht) as (n & Hn & H1 & H2). exists n. split_and!; [done| |done]. intros Hp. by rewrite Hw, H1.
  - intros t Ht Hp. by rewrite Hw, iv_ready0.
  - intros t Hc Hp. destruct (iv_carry0 t Hc Hp) as (? & ? & ? & [(q & Hq & Ho & HOq)|?]); split_and!; try done; [left|by right].
    exists q. split_and!; [done| |done]. destruct (decide ((q, t) ∈ owed')); [done|]. naive_solver.
  - intros q t Hq. apply iv_owed0. set_solver.
Qed.

(** The counter of a processed task matters only to a predecessor that is still to succeed. *)
Lemma deg_inv owed carry st s d n : inv owed carry st → s ∈ ex_processed st → d !! s = Some n →
  (∀ t, t ≠ s → d !! t = ex_indegree st !! t) →
  ((∃ q, q ∈ preds p s ∧ q ∉ ex_processed st ∧ O q = TaskStatusSucceeded) → Z.of_nat (waiting ∅ st s) + 1 ≤ n) →
  inv owed carry (set_exindegree d st).
Proof.
  intros [] Hs Hd Hne Hn. split; try done. intros t Ht. change (ex_indegree (set_exindegree d st)) with d. destruct (decide (t = s)) as [->|Hts].
  - exists n. split_and!; [done|by intros []|by intros _].
  - rewrite Hne by done. by apply iv_deg0.
Qed.

(** What a change of the database keeps: the rows of the other tasks. *)
Definition row_ended (t : uuid) (db db' : DB) : Prop :=
  tight p O db' ∧ same_catalog cat db' ∧ live p db' t = false ∧ ∀ x, x ≠ t → statusof R db' x = statusof R db x.

Lemma ended_live t db db' x : row_ended t db db' → x ≠ t → live p db' x = live p db x.
Proof. intros (_ & _ & _ & H) Hx. unfold live. by rewrite H. Qed.

(** A task is marked as skipped: its edges become owed. *)
Lemma mark_inv owed carry st t tk db' : inv owed carry st → t ∈ pl_tasks p → t ∉ ex_processed st → O t = TaskStatusSkipped →
  row_ended t (ex_db st) db' →
  ((∃ q, q ∈ preds p t ∧ (q, t) ∈ owed) ∨ ∀ q, q ∈ preds p t → q ∈ ex_processed st ∨ O q ≠ TaskStatusSucceeded) →
  inv (owed ∪ out t) carry (markSkipped t (set_exstore tk db' st)).
Proof.
  intros HI Ht Hp HOt Hrow Hsur. pose proof HI as [].
  assert (¬ scheduled st t) as Hns by (intros H; apply iv_sched0 in H as (_ & _ & E); destruct (Hans t); congruence).
  assert (∀ x, live p db' x = true → live p (ex_db st) x = true) as Hlive.
  { intros x. destruct (decide (x = t)) as [->|Hx]; [by rewrite (proj1 (proj2 (proj2 Hrow)))|]. by rewrite (ended_live t _ _ x Hrow). }
  assert (∀ x, live p (ex_db st) x = false → live p db' x = false) as Hdead.
  { intros x Hx. destruct (live p db' x) eqn:E; [|done]. apply Hlive in E. congruence. }
  assert (∀ x, scheduled st x → x ≠ t) as Hne by (intros x Hx ->; done).
  assert (∀ x, x ≠ t → waiting (owed ∪ out t) (markSkipped t (set_exstore tk db' st)) x = waiting owed st x) as Hw.
  { intros x Hx. apply waiting_ext. intros q Hq. change (ex_processed (markSkipped t (set_exstore tk db' st))) with ({[t]} ∪ ex_processed st).
    rewrite (elem_of_union owed), elem_out. apply pred_adjacent in Hq. destruct (decide (q = t)) as [->|]; set_solver. }
  assert (∀ err x ks, carrier st x err ks → carrier (markSkipped t (set_exstore tk db' st)) x err ks) as Hcar.
  { intros err x ks (C1 & C2 & C3). split_and!; [done..|]. intros k Hk. destruct (C3 k Hk) as (K1 & K2 & K3 & K4). split_and!; [done|done|by apply Hdead|].
    destruct K4 as [?|[? K4]]; [by left|right]. split; [done|]. intros q Hq. destruct (K4 q Hq) as [?|[?|?]]; [left; cbn; set_solver|auto..]. }
  destruct Hrow as (D1 & D2 & D3 & D4). split.
  - done.
  - done.
  - done.
  - intros x. cbn. rewrite elem_of_union, elem_of_singleton. intros [->|Hx]; [done|]. destruct (iv_proc0 x Hx). split; [done|]. by apply Hdead.
  - intros x. cbn. destruct (decide (x = t)) as [->|Hx]; [rewrite lookup_insert_eq, decide_True by set_solver; by rewrite HOt|].
    rewrite lookup_insert_ne by done. rewrite iv_out0. do 2 case_decide; set_solver.
  - intros x Hx. destruct (iv_deg0 x Hx) as (n & Hn & H1 & H2). exists n. split; [done|]. destruct (decide (x = t)) as [->|Hxt].
    + split; [cbn; set_solver|]. intros _ (q & Hq & Hqp & HOq). rewrite (H1 Hp).
      destruct Hsur as [(c & Hc & Ho)|Hall]; [|exfalso; cbn in Hqp; destruct (Hall q Hq); [set_solver|done]].
      rewrite (waiting_pay owed st c t) by (try done; by apply (iv_owed0 c t)).
      assert (waiting ∅ (markSkipped t (set_exstore tk db' st)) t ≤ waiting (owed ∖ {[(c, t)]}) st t)%nat; [|lia].
      apply waiting_le. cbn. set_solver.
    + rewrite Hw by done. split; [intros Hxp; apply H1; cbn in Hxp; set_solver|]. cbn. intros Hxp (q & Hq & Hqp & HOq).
      assert (Z.of_nat (waiting ∅ st x) + 1 ≤ n) by (apply H2; [set_solver|]; exists q; set_solver).
      assert (waiting ∅ (markSkipped t (set_exstore tk db' st)) x ≤ waiting ∅ st x)%nat; [|lia]. apply waiting_le. cbn. set_solver.
  - destruct iv_queue0 as (Q1 & Q2 & Q3). split_and!; [done|done|]. cbn. rewrite Q3. apply set_eq. intros x.
    rewrite elem_of_difference, elem_of_list_to_set, elem_of_singleton. split; [naive_solver|]. intros Hx. split; [done|]. apply Hne. by left.
  - done.
  - intros x Hx Hxp. cbn in Hxp. rewrite Hw by set_solver. apply iv_ready0; set_solver.
  - intros x Hx. destruct (iv_sched0 x Hx) as (? & ? & ?). split_and!; [done| |done]. cbn. apply Hne in Hx. set_solver.
  - intros x Hx Hxp Hl. cbn in Hxp. assert (x ≠ t) by set_solver. cbn. rewrite D4 by done. apply iv_pend0; [done|set_solver|by apply Hlive].
  - intros x Hx. assert (x ≠ t) by (apply Hne; unfold scheduled; cbn in Hx; tauto). cbn. rewrite (ended_live t (ex_db st)); [by apply iv_live0|by split_and!|done].
  - intros x proc Hx. assert (x ≠ t) as Hxt by (apply Hne; right; left; apply list_elem_of_fmap; by exists (x, proc)).
    destruct (iv_act0 x proc Hx) as [[? ?]|(err & ks & ? & ? & ?)]; [left|right].
    + cbn. rewrite (ended_live t (ex_db st)); [done|by split_and!|done].
    + exists err, ks. split_and!; [done|by apply Hdead|by apply Hcar].
  - intros x Hx Hxp Hl. cbn in Hxp. assert (x ≠ t) by set_solver. apply iv_dark0; [done|set_solver|]. rewrite <- (ended_live t (ex_db st) db'); [done|by split_and!|done].
  - intros x Hx Hxp. cbn in Hxp. destruct (iv_carry0 x Hx) as (? & ? & ? & Hcase); [set_solver|]. split_and!; [done|done|by apply Hdead|].
    destruct Hcase as [(q & Hq & Ho & HOq)|[? Hq]]; [left; exists q; set_solver|right]. split; [done|]. intros q Hin. cbn. destruct (Hq q Hin); [left; set_solver|by right].
  - intros q s Hq Hl HOq Hs Hx. apply Hdead. apply (iv_excl0 q s); try done. destruct (decide (q = t)) as [->|Hqt]; [by rewrite HOt in HOq|].
    rewrite <- (ended_live t (ex_db st) db'); [done|by split_and!|done].
  - cbn. rewrite iv_term0, size_union, size_singleton by set_solver. lia.
  - intros q x. rewrite elem_of_union, elem_out. cbn. intros [H|[-> ?]]; [|set_solver]. destruct (iv_owed0 q x H). set_solver.
Qed.

(** * Paying one edge *)

Section pay.
Context (owed : gset edge) (carry : list uuid) (st : ExecState) (c s : uuid).
Hypothesis HI : inv owed carry st.
Hypothesis Hc : (c, s) ∈ owed.
Hypothesis Hs : s ∉ ex_processed st.
Hypothesis Hfree : O c ≠ TaskStatusSucceeded ∨ carry = [].

Let owed' := owed ∖ {[(c, s)]}.

Lemma paid_pred : c ∈ preds p s ∧ c ∈ ex_processed st ∧ s ∈ pl_tasks p.
Proof. destruct (iv_owed _ _ _ HI c s Hc) as [H1 H2]. split_and!; [by apply pred_adjacent|done|]. by destruct (po_closed _ HP c s H2). Qed.

Lemma paid_idle : ¬ scheduled st s.
Proof.
  destruct paid_pred as (H1 & H2 & H3). intros H%(iv_ready _ _ _ HI s H3 Hs). rewrite waiting_zero in H. by destruct (H c H1).
Qed.

Lemma paid_decrement : decrementIn s st = set_exindegree (<[s := Z.of_nat (waiting owed' st s)]> (ex_indegree st)) st.
Proof.
  destruct paid_pred as (H1 & H2 & H3). destruct (iv_deg _ _ _ HI s H3) as (n & Hn & Hw & _). specialize (Hw Hs).
  rewrite (waiting_pay owed st c s H1 H2 Hc) in Hw. unfold decrementIn, map_get. rewrite Hn. cbv zeta. change (default 0 (Some n)) with n. fold owed' in Hw.
  rewrite (proj2 (Z.ltb_lt 0 n)) by lia. do 3 f_equal. lia.
Qed.

(** A task whose last edge is paid and whose rule holds will run. *)
Lemma paid_runs : waiting owed' st s = 0%nat → satisfied p st s = true → O s = an_status a s ∧ live p (ex_db st) s = true.
Proof.
  destruct paid_pred as (H1 & H2 & H3). intros Hw Hsat. rewrite waiting_zero in Hw.
  rewrite (collected owed carry st s HI) in Hsat by (intros q Hq; by apply Hw).
  assert (live p (ex_db st) s = true) as Hl.
  { destruct (live p (ex_db st) s) eqn:E; [done|exfalso]. destruct (iv_dark _ _ _ HI s H3 Hs E) as [Ha|[Hcar|(q & ks & Hq & Hk)]].
    - apply paid_idle. by right; left.
    - destruct (iv_carry _ _ _ HI s Hcar Hs) as (_ & _ & _ & [(q & Hq & Ho & HOq)|[[_ Hr] _]]); [|congruence].
      destruct Hfree as [Hf| ->]; [|by apply elem_of_nil in Hcar]. apply (proj2 (Hw q Hq)). unfold owed'.
      assert ((q, s) ≠ (c, s)) by (intros [= ->]; done). set_solver.
    - destruct (iv_act _ _ _ HI _ _ Hq) as [[_ (n & Hg)]|(err & ks' & [= <- <-] & _ & (_ & _ & HC))]; [by destruct n|].
      destruct (HC s Hk) as (_ & _ & _ & [Ha|[[_ Hr] _]]); [|congruence]. assert (q ∈ preds p s) as Hp by (by apply pred_adjacent).
      assert (scheduled st q) as Hsch by (right; left; apply list_elem_of_fmap; by eexists (_, _)).
      destruct (iv_sched _ _ _ HI q Hsch) as (_ & Hnp & _). by destruct (Hw q Hp). }
  split; [|done]. rewrite (HO s H3), Hsat, orb_false_r. destruct (excluded p a O s) eqn:E; [|done].
  unfold excluded in E. apply existsb_exists in E as (q & Hq%list_elem_of_In & E). apply andb_true_iff in E as [E1%str_eqb_eq E2%bool_decide_eq_true].
  destruct (pred_task q s Hq) as [Hqt _]. destruct (Hw q Hq) as [Hqp _]. destruct (iv_proc _ _ _ HI q Hqp) as [_ Hql].
  rewrite (iv_excl _ _ _ HI q s) in Hl; try done. by apply pred_adjacent.
Qed.

Lemma paid_unruled : waiting owed' st s = 0%nat → satisfied p st s = false → unruled p O s.
Proof.
  destruct paid_pred as (H1 & H2 & H3). intros Hw Hsat. rewrite waiting_zero in Hw.
  rewrite (collected owed carry st s HI) in Hsat by (intros q Hq; by apply Hw). done.
Qed.

Lemma paid_waiting t : t ≠ s → waiting owed' st t = waiting owed st t.
Proof. intros Ht. apply waiting_ext. intros q _. assert ((q, t) ≠ (c, s)) by congruence. unfold owed'. set_solver. Qed.

(** The queue after a push, up to order. *)
Lemma push_queue st1 : ex_processed st1 = ex_processed st → ex_queue st1 = ex_queue st → ex_inQueue st1 = ex_inQueue st →
  ∃ q, push p s st1 = set_exqueue q ({[s]} ∪ ex_inQueue st1) st1 ∧ q ≡ₚ s :: ex_queue st.
Proof.
  intros E1 E2 E3. destruct (iv_queue _ _ _ HI) as (_ & _ & Hin). unfold push, is_processed, is_queued.
  rewrite E1, E3, Hin, !bool_decide_eq_false_2; [|rewrite elem_of_list_to_set; intros Hq; apply paid_idle; by left|done].
  eexists. split; [reflexivity|]. rewrite sort_stable_perm, E2. by rewrite Permutation_app_comm.
Qed.

Lemma pay_inv : inv owed' carry
  (if decide (waiting owed' st s = 0%nat) then if satisfied p st s then push p s (decrementIn s st) else st else decrementIn s st) ∨
  waiting owed' st s = 0%nat ∧ satisfied p st s = false.
Proof.
  destruct paid_pred as (H1 & H2 & H3). pose proof paid_idle as Hidle. rewrite paid_decrement. set (st1 := set_exindegree _ st).
  assert (∀ t, t ∈ pl_tasks p → ∃ n, ex_indegree st1 !! t = Some n ∧ (t ∉ ex_processed st → n = Z.of_nat (waiting owed' st t)) ∧
    (t ∈ ex_processed st → (∃ q, q ∈ preds p t ∧ q ∉ ex_processed st ∧ O q = TaskStatusSucceeded) → Z.of_nat (waiting ∅ st t) + 1 ≤ n)) as Hdeg.
  { intros t Ht. unfold st1. cbn. destruct (decide (t = s)) as [->|Hts].
    - exists (Z.of_nat (waiting owed' st s)). rewrite lookup_insert_eq. by split_and!.
    - rewrite lookup_insert_ne by done. rewrite paid_waiting by done. by apply (iv_deg _ _ _ HI). }
  assert (∀ t, t ∈ carry → t ∉ ex_processed st → t ∈ pl_tasks p ∧ O t = TaskStatusSkipped ∧ live p (ex_db st) t = false ∧
    ((∃ q, q ∈ preds p t ∧ (q, t) ∈ owed' ∧ O q = TaskStatusSucceeded) ∨
     unruled p O t ∧ ∀ q, q ∈ preds p t → q ∈ ex_processed st ∨ O q ≠ TaskStatusSucceeded)) as Hcar.
  { intros t Ht Htp. destruct (iv_carry _ _ _ HI t Ht Htp) as (? & ? & ? & [(q & Hq & Ho & HOq)|?]); split_and!; try done; [left|by right].
    exists q. split_and!; [done| |done]. destruct Hfree as [Hf| ->]; [|by apply elem_of_nil in Ht]. assert ((q, t) ≠ (c, s)) by (intros [= -> ->]; done). unfold owed'. set_solver. }
  assert (∀ q t, (q, t) ∈ owed' → q ∈ ex_processed st ∧ t ∈ adjacent p q) as Howed by (intros q t Hq; apply (iv_owed _ _ _ HI); unfold owed' in Hq; set_solver).
  destruct (decide (waiting owed' st s = 0%nat)) as [Hz|Hz].
  - destruct (satisfied p st s) eqn:Esat; [left|by right]. destruct (paid_runs Hz Esat) as [HOs Hl].
    destruct (push_queue st1) as (q & -> & Hq); [done..|]. pose proof HI as [].
    assert (∀ t, scheduled (set_exqueue q ({[s]} ∪ ex_inQueue st1) st1) t ↔ t = s ∨ scheduled st t) as Hsch.
    { intros t. unfold scheduled. cbn. rewrite Hq, elem_of_cons. unfold activeIDs. cbn. tauto. }
    split; try done.
    + destruct iv_queue0 as (Q1 & Q2 & Q3). split_and!; [cbn; rewrite Hq; constructor; [|done]; intros ?; apply Hidle; by left|done|].
      cbn. rewrite Q3. apply set_eq. intros t. rewrite elem_of_union, elem_of_singleton, !elem_of_list_to_set, Hq, elem_of_cons. done.
    + destruct iv_apart0 as [A1 A2]. split; [|done]. intros t. cbn. rewrite Hq, elem_of_cons. intros [->|Ht]; [|by apply A1].
      split; [intros ?; apply Hidle; by right; left|]. destruct (ex_deferred st !! s) eqn:E; [|done]. destruct Hidle. right; right. by rewrite E.
    + intros t Ht Htp. rewrite Hsch. destruct (decide (t = s)) as [->|Hts]; [split; [by left|done]|].
      change (waiting owed' (set_exqueue q ({[s]} ∪ ex_inQueue st1) st1) t) with (waiting owed' st t). rewrite paid_waiting, iv_ready0 by done. naive_solver.
    + intros t [->|Ht]%Hsch; [done|by apply iv_sched0].
    + intros t. cbn. rewrite Hq, elem_of_cons. intros [[->|Ht]|Ht]; [done|apply iv_live0; by left|apply iv_live0; by right].
  - left. pose proof HI as []. split; try done. intros t Ht Htp. change (waiting owed' st1 t) with (waiting owed' st t). change (scheduled st1 t) with (scheduled st t).
    destruct (decide (t = s)) as [->|Hts]; [|by rewrite paid_waiting, iv_ready0]. split; [done|]. intros H. by destruct Hidle.
Qed.

Lemma skip_paid io reason : (∀ t, si_fault io t = None) → waiting owed' st s = 0%nat → satisfied p st s = false →
  ∃ db', storeSkip p io s reason (decrementIn s st) = (None, set_exstore (ex_tokens st) db' (decrementIn s st)) ∧ O s = TaskStatusSkipped ∧
    inv (owed' ∪ out s) carry (markSkipped s (set_exstore (ex_tokens st) db' (decrementIn s st))).
Proof.
  intros Hio Hw Hsat. destruct paid_pred as (H1 & H2 & H3). pose proof (paid_unruled Hw Hsat) as Hun.
  pose proof (unruled_skipped p a O HO s Hun) as HOs. rewrite paid_decrement. rewrite waiting_zero in Hw.
  destruct (transacted _ _ _ (skip_ok p O HP (ex_db st) s (si_now io) reason (iv_db _ _ _ HI) H3 HOs)) as ([] & db' & ET & E & D1 & D2 & D3).
  exists db'. unfold storeSkip. cbn [ex_db ex_tokens set_exindegree]. rewrite Hio, ET. split; [done|]. split; [done|].
  set (d := <[s := _]> (ex_indegree st)). change (inv (owed' ∪ out s) carry (set_exindegree d (markSkipped s (set_exstore (ex_tokens st) db' st)))).
  assert (row_ended s (ex_db st) db') as Hrow.
  { split_and!; [done| | |].
    - transitivity (ex_db st); [apply HI|]. by apply (proj1 (proj2 (proj2 (proj2 (calls_catalog _ R s "" reason "" 0 None)))) _ _ _ E).
    - unfold live. rewrite D3 in D2 |- *. case_decide as Hd; [done|]. destruct (statusof R (ex_db st) s) as [x|] eqn:Ex; [|done].
      apply negb_false_iff. destruct (IsTerminal x) eqn:Et; [done|exfalso]. destruct (iv_pend _ _ _ HI s H3 Hs) as [?|?].
      + unfold live. by rewrite Ex, Et.
      + congruence.
      + apply paid_idle. by right; left.
    - intros x Hx. rewrite D3, decide_False; [done|]. by intros [? _]. }
  apply (drop_inv (owed ∪ out s)).
  - apply (deg_inv _ _ _ s d (Z.of_nat (waiting owed' st s))).
    + apply mark_inv; [exact HI|done|done|done|done|]. right. intros q Hq. left. by apply Hw.
    + cbn. set_solver.
    + apply lookup_insert_eq.
    + intros t Ht. unfold d. by rewrite lookup_insert_ne.
    + intros (q & Hq & Hqp & _). exfalso. cbn in Hqp. apply Hqp. apply elem_of_union. right. by apply Hw.
  - unfold owed'. set_solver.
  - intros q t Hq Hn. cbn. assert ((q, t) = (c, s)) as [= -> ->]; [|set_solver]. unfold owed' in Hn. destruct (decide ((q, t) = (c, s))); [done|]. set_solver.
Qed.
End pay.

(** * The cascade in memory *)

(** What propagation leaves: it processes skipped tasks that no debt in [base] protects, and
    does not touch the counters of tasks that were processed. *)
Record grown (base : gset edge) (st st' : ExecState) : Prop := {
  gr_processed : ex_processed st ⊆ ex_processed st';
  gr_new : ∀ t, t ∈ ex_processed st' → t ∉ ex_processed st → O t = TaskStatusSkipped ∧ ∀ q, (q, t) ∉ base;
  gr_degree : ∀ t, t ∈ ex_processed st → ex_indegree st' !! t = ex_indegree st !! t;
  gr_active : ex_active st' = ex_active st;
  gr_err : ex_runErr st' = ex_runErr st;
}.

Lemma grown_refl base st : grown base st st.
Proof. by split. Qed.

Lemma grown_trans base base' st1 st2 st3 : base ⊆ base' → grown base' st1 st2 → grown base st2 st3 → grown base st1 st3.
Proof.
  intros Hb [A1 A2 A3 A4 A5] [B1 B2 B3 B4 B5]. split; [set_solver| | |congruence|congruence].
  - intros t Ht Hn. destruct (decide (t ∈ ex_processed st2)) as [H2|H2]; [|by apply B2]. destruct (A2 t H2 Hn). split; [done|]. set_solver.
  - intros t Ht. rewrite B3 by set_solver. by apply A3.
Qed.

Lemma grown_weaken base base' st st' : base ⊆ base' → grown base' st st' → grown base st st'.
Proof. intros Hb [A1 A2 A3 A4 A5]. split; try done. intros t Ht Hn. destruct (A2 t Ht Hn). split; [done|]. set_solver. Qed.

Definition edges (c : uuid) (l : list uuid) : gset edge := list_to_set (map (pair c) l).

Lemma elem_edges c l x y : (x, y) ∈ edges c l ↔ x = c ∧ y ∈ l.
Proof. unfold edges. rewrite elem_of_list_to_set, list_elem_of_fmap. naive_solver. Qed.

(** Equality of sets of edges, pair by pair. *)
Lemma edge_eq (X Y : gset edge) : (∀ q t, (q, t) ∈ X ↔ (q, t) ∈ Y) → X = Y.
Proof. intros H. apply set_eq. intros [q t]. apply H. Qed.

Definition quiet (io : SkipIO) : Prop := ∀ t, si_fault io t = None.

(** The outcome of a decrement, as the code tests it. *)
Lemma paid_test owed carry st c s : inv owed carry st → (c, s) ∈ owed → s ∉ ex_processed st →
  (∃ n, ex_indegree st !! s = Some n) ∧ satisfied p (decrementIn s st) s = satisfied p st s ∧
  map_get 0 (ex_indegree (decrementIn s st)) s = Z.of_nat (waiting (owed ∖ {[(c, s)]}) st s).
Proof.
  intros HI Hc Hs. destruct (paid_pred owed carry st c s HI Hc) as (_ & _ & Ht). destruct (iv_deg _ _ _ HI s Ht) as (n & Hn & _).
  rewrite (paid_decrement owed carry st c s HI Hc Hs). split_and!; [by exists n|done|]. unfold map_get. cbn. by rewrite lookup_insert_eq.
Qed.

Lemma pay_grown owed carry st c s base : inv owed carry st → (c, s) ∈ owed → s ∉ ex_processed st →
  grown base st (decrementIn s st) ∧ grown base st (push p s (decrementIn s st)) ∧
  ex_processed (decrementIn s st) = ex_processed st ∧ ex_processed (push p s (decrementIn s st)) = ex_processed st.
Proof.
  intros HI Hc Hs. rewrite (paid_decrement owed carry st c s HI Hc Hs).
  assert (∀ st', ex_processed st' = ex_processed st → ex_indegree st' = <[s := Z.of_nat (waiting (owed ∖ {[(c, s)]}) st s)]> (ex_indegree st) →
            ex_active st' = ex_active st → ex_runErr st' = ex_runErr st → grown base st st') as HG.
  { intros st' E1 E2 E3 E4. split; [by rewrite E1| |by intros t Ht; rewrite E2, lookup_insert_ne by (by intros ->)|done|done].
    intros t. rewrite E1. by intros. }
  split_and!; [by apply HG|apply HG; unfold push; by destruct (_ || _)|done|unfold push; by destruct (_ || _)].
Qed.

Lemma propagateEach_inv io carry cur : quiet io → O cur ≠ TaskStatusSucceeded ∨ carry = [] →
  ∀ succs queue seen owed st, inv owed carry st → NoDup succs → (∀ s, s ∈ succs → (cur, s) ∈ owed) → seen ⊆ ex_processed st →
  ∃ new seen' st', propagateEach p io succs queue seen st = (None, queue ++ new, seen', st') ∧
    inv ((owed ∖ edges cur succs) ∪ outs new) carry st' ∧ seen' ⊆ ex_processed st' ∧ grown (owed ∖ edges cur succs) st st' ∧
    ex_processed st' = list_to_set new ∪ ex_processed st ∧ NoDup new ∧ ∀ n, n ∈ new → n ∉ ex_processed st ∧ O n = TaskStatusSkipped.
Proof.
  intros Hio Hfree. induction succs as [|s l IH]; intros queue seen owed st HI Hnd Hin Hseen; cbn [propagateEach].
  { exists [], seen, st. rewrite app_nil_r. assert (owed ∖ edges cur [] ∪ outs [] = owed) as -> by (unfold edges, outs; set_solver).
    split_and!; [done|done|done|apply grown_refl|set_solver|constructor|intros n Hn; by apply elem_of_nil in Hn]. }
  apply NoDup_cons in Hnd as [Hsl Hnd]. assert ((cur, s) ∈ owed) as Hc by (apply Hin; by apply elem_of_cons; left).
  assert (owed ∖ edges cur (s :: l) = (owed ∖ {[(cur, s)]}) ∖ edges cur l) as Eset.
  { apply edge_eq. intros q t. rewrite !elem_of_difference, elem_of_singleton, !elem_edges, elem_of_cons. naive_solver. }
  assert (∀ x, x ∈ l → (cur, x) ∈ owed ∖ {[(cur, s)]}) as Hl'.
  { intros x Hx. apply elem_of_difference. split; [apply Hin; by apply elem_of_cons; right|]. rewrite elem_of_singleton. intros [= ->]. done. }
  assert (∀ st1, inv (owed ∖ {[(cur, s)]}) carry st1 → grown (owed ∖ edges cur (s :: l)) st st1 → ex_processed st1 = ex_processed st →
    ∃ new seen' st', propagateEach p io l queue seen st1 = (None, queue ++ new, seen', st') ∧
    inv ((owed ∖ edges cur (s :: l)) ∪ outs new) carry st' ∧ seen' ⊆ ex_processed st' ∧ grown (owed ∖ edges cur (s :: l)) st st' ∧
    ex_processed st' = list_to_set new ∪ ex_processed st ∧ NoDup new ∧ ∀ n, n ∈ new → n ∉ ex_processed st ∧ O n = TaskStatusSkipped) as HS.
  { intros st1 HI1 Hg E1. destruct (IH queue seen _ st1 HI1 Hnd Hl') as (new & seen' & st' & EQ & J1 & J2 & J3 & J4 & J5 & J6); [by rewrite E1|].
    exists new, seen', st'. rewrite E1 in J4, J6. rewrite <- Eset in J1, J3. split_and!; try done. by eapply grown_trans. }
  unfold is_processed. destruct (bool_decide (s ∈ ex_processed st)) eqn:Ep.
  { apply bool_decide_eq_true in Ep. apply HS; [|apply grown_refl|done]. apply (drop_inv owed); [done|set_solver|]. intros q t Hq Hn.
    assert ((q, t) = (cur, s)) as [= -> ->]; [|done]. destruct (decide ((q, t) = (cur, s))); [done|]. set_solver. }
  apply bool_decide_eq_false in Ep. destruct (paid_test owed carry st cur s HI Hc Ep) as ((n & ->) & Esat & Edeg). rewrite Edeg, Esat.
  destruct (pay_grown owed carry st cur s (owed ∖ edges cur (s :: l)) HI Hc Ep) as (G1 & G2 & E1 & E2).
  pose proof (pay_inv owed carry st cur s HI Hc Ep Hfree) as HPay. set (w := waiting (owed ∖ {[(cur, s)]}) st s) in *.
  destruct (decide (w = 0%nat)) as [Hw|Hw].
  - rewrite Hw. cbn [negb Z.eqb Z.of_nat]. destruct (satisfied p st s) eqn:Es.
    + destruct HPay as [HPay|[_ ?]]; [|done]. by apply HS.
    + destruct (skip_paid owed carry st cur s HI Hc Ep Hfree io (ruleUnsatisfied (pl_rule p s)) Hio Hw Es) as (db' & -> & HOs & HI').
      set (st3 := markSkipped s _) in *. assert (ex_processed st3 = {[s]} ∪ ex_processed st) as E3 by (unfold st3; cbn; by rewrite E1).
      rewrite bool_decide_eq_false_2 by set_solver.
      destruct (IH (queue ++ [s]) ({[s]} ∪ seen) _ st3 HI' Hnd) as (new & seen' & st' & -> & J1 & J2 & J3 & J4 & J5 & J6); [set_solver|set_solver|].
      assert (s ≠ cur) as Hne by (intros ->; apply Ep; by apply (iv_owed _ _ _ HI cur cur)).
      exists (s :: new), seen', st'. rewrite <- app_assoc. split; [done|].
      assert ((owed ∖ {[(cur, s)]} ∪ out s) ∖ edges cur l = (owed ∖ edges cur (s :: l)) ∪ out s) as Eo.
      { apply edge_eq. intros q t. rewrite Eset, !elem_of_difference, !elem_of_union, !elem_of_difference, elem_of_singleton, elem_out, !elem_edges. naive_solver. }
      rewrite Eo in J1, J3. split_and!.
      * assert (owed ∖ edges cur (s :: l) ∪ outs (s :: new) = owed ∖ edges cur (s :: l) ∪ out s ∪ outs new) as ->; [|done]. unfold outs. cbn. by rewrite assoc_L by apply _.
      * done.
      * apply (grown_trans _ (owed ∖ edges cur (s :: l)) st st3 st'); [done| |eapply grown_weaken; [|exact J3]; set_solver].
        split; [set_solver| | | |].
        -- intros t. rewrite E3. intros Ht Hn. assert (t = s) as -> by set_solver. split; [done|]. intros q. rewrite Eset.
           rewrite !elem_of_difference, elem_of_singleton. intros [[Hq Hne'] _]. unfold w in Hw. rewrite waiting_zero in Hw. destruct (iv_owed _ _ _ HI q s Hq) as [_ Ha].
           destruct (Hw q) as [_ Hno]; [by apply pred_adjacent|]. apply Hno. set_solver.
        -- intros t Ht. unfold st3. cbn. rewrite (gr_degree _ _ _ G1 t Ht). done.
        -- unfold st3. cbn. apply (gr_active _ _ _ G1).
        -- unfold st3. cbn. apply (gr_err _ _ _ G1).
      * rewrite J4, E3. cbn. set_solver.
      * constructor; [|done]. intros Hn. apply (J6 s Hn). rewrite E3. set_solver.
      * intros n' [->|Hn']%elem_of_cons; [done|]. destruct (J6 n' Hn'). split; [set_solver|done].
  - rewrite (proj2 (Z.eqb_neq _ _)) by lia. cbn [negb]. destruct HPay as [HPay|[? _]]; [|done]. by apply HS.
Qed.

(** The tasks not processed yet. *)
Definition remaining (st : ExecState) : gset uuid := list_to_set (pl_tasks p) ∖ ex_processed st.

Lemma remaining_grown new st st' : ex_processed st' = list_to_set new ∪ ex_processed st → NoDup new →
  (∀ n, n ∈ new → n ∉ ex_processed st ∧ n ∈ pl_tasks p) → (size (remaining st) = length new + size (remaining st'))%nat.
Proof.
  intros E Hnd Hn. assert (remaining st = list_to_set new ∪ remaining st') as ->.
  { unfold remaining. rewrite E. apply set_eq. intros t. rewrite elem_of_union, !elem_of_difference, elem_of_union, !elem_of_list_to_set.
    destruct (decide (t ∈ new)) as [Ht|]; [|tauto]. specialize (Hn t Ht). tauto. }
  rewrite size_union by (unfold remaining; rewrite E; set_solver). by rewrite size_list_to_set.
Qed.

Lemma outs_app l k : outs (l ++ k) = outs l ∪ outs k.
Proof. apply edge_eq. intros q t. rewrite elem_of_union, !elem_outs, elem_of_app. tauto. Qed.

Lemma propagateLoop_inv io carry : quiet io → ∀ fuel queue seen base st, inv (base ∪ outs queue) carry st → NoDup queue →
  (∀ n, n ∈ queue → n ∈ ex_processed st ∧ O n = TaskStatusSkipped) → (∀ q t, (q, t) ∈ base → q ∉ queue) → seen ⊆ ex_processed st →
  (length queue + size (remaining st) ≤ fuel)%nat →
  ∃ st', propagateLoop fuel p io queue seen st = (None, st') ∧ inv base carry st' ∧ grown base st st'.
Proof.
  intros Hio. induction fuel as [|fuel IH]; intros [|cur queue] seen base st HI Hnd Hq Hb Hseen Hf; cbn [propagateLoop]; try (cbn in Hf; lia).
  1,2: exists st; assert (base ∪ outs [] = base) as E by (unfold outs; set_solver); rewrite E in HI; (split_and!; [done|done|apply grown_refl]).
  apply NoDup_cons in Hnd as [Hcur Hnd]. destruct (Hq cur) as [Hcp HOc]; [by apply elem_of_cons; left|].
  assert (O cur ≠ TaskStatusSucceeded) as Hns by (by rewrite HOc).
  assert (base ∪ outs (cur :: queue) = base ∪ outs queue ∪ out cur) as Eo by (unfold outs; cbn; set_solver).
  destruct (propagateEach_inv io carry cur Hio (or_introl Hns) (adjacent p cur) queue seen _ st HI (po_targets _ HP cur))
    as (new & seen' & st1 & -> & J1 & J2 & J3 & J4 & J5 & J6); [|done|].
  { intros s Hs. rewrite Eo. apply elem_of_union. right. by apply elem_out. }
  assert ((base ∪ outs (cur :: queue)) ∖ edges cur (adjacent p cur) = base ∪ outs queue) as Ed.
  { apply edge_eq. intros q t. rewrite elem_of_difference, !elem_of_union, !elem_outs, elem_edges, elem_of_cons. specialize (Hb q t). split.
    - intros [[?|[[->|?] ?]] ?]; tauto.
    - intros [H|[H H']]; [|split; [tauto|]; by intros [-> _]]. split; [by left|]. intros [-> _]. apply (Hb H). by apply elem_of_cons; left. }
  rewrite Ed in J1, J3. destruct (IH (queue ++ new) seen' base st1) as (st' & -> & K1 & K2).
  - by rewrite outs_app, (assoc_L (∪)).
  - apply NoDup_app. split_and!; [done| |done]. intros n Hn Hn'. destruct (J6 n Hn') as [[] _]. apply Hq. by apply elem_of_cons; right.
  - intros n [Hn|Hn]%elem_of_app; [|destruct (J6 n Hn); rewrite J4; set_solver]. destruct (Hq n); [by apply elem_of_cons; right|]. rewrite J4. set_solver.
  - intros q t Hqt [Hn|Hn]%elem_of_app; [apply (Hb q t Hqt); by apply elem_of_cons; right|]. destruct (J6 q Hn) as [[] _].
    apply (iv_owed _ _ _ HI q t). set_solver.
  - done.
  - rewrite length_app. pose proof (remaining_grown new st st1 J4 J5). cbn in Hf. rewrite H in Hf; [lia|]. intros n Hn. destruct (J6 n Hn). split; [done|].
    apply (iv_proc _ _ _ J1). rewrite J4. set_solver.
  - exists st'. split_and!; [done|done|]. eapply grown_trans; [|exact J3|exact K2]. set_solver.
Qed.

(** A skipped task whose edges are owed: propagation pays them and the edges of every task
    it skips in turn, within its fuel. *)
Lemma propagate_inv io carry base start st : quiet io → inv (base ∪ out start) carry st → start ∈ ex_processed st → O start = TaskStatusSkipped →
  (∀ q t, (q, t) ∈ base → q ≠ start) → ∃ st', propagateOrHalt p io start st = (false, st') ∧ inv base carry st' ∧ grown base st st'.
Proof.
  intros Hio HI Hp HOs Hb. unfold propagateOrHalt, propagateSkipped.
  destruct (propagateLoop_inv io carry Hio (S (size (dom (g_adjacency (pl_graph p))))) [start] {[start]} base st) as (st' & -> & K1 & K2).
  - assert (outs [start] = out start) as -> by (unfold outs; cbn; set_solver). done.
  - apply NoDup_singleton.
  - by intros n ->%list_elem_of_singleton.
  - intros q t Hq ->%list_elem_of_singleton. by apply (Hb _ _ Hq).
  - set_solver.
  - rewrite (po_nodes _ HP). cbn. apply le_n_S, subseteq_size. unfold remaining. set_solver.
  - by exists st'.
Qed.
End inv.
