(* ===== verification/LocalLoop.v ===== *)
(** The results of the in-process executor: receiving a success keeps the invariant of the
    loop, and a failure under the halt policy stops it with an error. *)

From S2P Require Import Prelude TriggerRule Tables Store TxLogic RunState TaskOps RunOps Topology JobGraph SqlAdvance TaskTheorems RateLimit.
From S2P Require Import LocalExec LocalRows LocalTask LocalInv.

(** * Lists of goroutines *)

Lemma active_delete (l : list (uuid * Proc)) (i : nat) t pr : NoDup (map fst l) → l !! i = Some (t, pr) →
  NoDup (map fst (delete i l)) ∧ ∀ y, y ∈ delete i l ↔ y ∈ l ∧ y.1 ≠ t.
Proof.
  intros Hnd Hi. pose proof (delete_Permutation l i (t, pr) Hi) as Hperm. set (d := delete i l) in *. clearbody d. rewrite Hperm in Hnd. cbn in Hnd. apply NoDup_cons in Hnd as [Hn Hnd].
  split; [done|]. intros y. rewrite Hperm, elem_of_cons. split; [|naive_solver]. intros Hy. split; [by right|]. intros E. apply Hn.
  apply list_elem_of_fmap. exists y. by rewrite E.
Qed.

Lemma active_unique (l : list (uuid * Proc)) t pr pr' : NoDup (map fst l) → (t, pr) ∈ l → (t, pr') ∈ l → pr = pr'.
Proof. intros Hnd H1 H2. by injection (NoDup_map_eq fst l (t, pr) (t, pr') Hnd H1 H2 eq_refl). Qed.

Section results.
Context (p : Plan) (a : Answers) (O : uuid → TaskStatus) (uuid_String : uuid → string) (error_text : exec_error → string) (cat : DB).
Hypothesis HP : plan_ok p.
Hypothesis HO : solves p a O.
Hypothesis Hans : ∀ t, an_status a t ≠ TaskStatusSkipped.

Abbreviation R := (pl_runID p).
Abbreviation inv := (inv p a O cat).
Abbreviation out := (out p).
Abbreviation waiting := (waiting p).
Abbreviation carrier := (carrier p O).
Abbreviation edge := (uuid * uuid)%type.

(** * A result leaves the channel *)

Lemma carrier_grows st st' t err ks : carrier st t err ks → ex_processed st ⊆ ex_processed st' → ex_db st' = ex_db st → carrier st' t err ks.
Proof.
  intros (C1 & C2 & C3) Hp Edb. split_and!; [done..|]. intros k Hk. rewrite Edb. destruct (C3 k Hk) as (? & ? & ? & [?|[? Hq]]); split_and!; try done; [by left|right].
  split; [done|]. intros q Hin. destruct (Hq q Hin) as [?|?]; [left; set_solver|by right].
Qed.

Section received.
Context (st : ExecState) (i : nat) (t : uuid) (result : taskResult).
Hypothesis HI : inv ∅ [] st.
Hypothesis Hi : ex_active st !! i = Some (t, Returned result).

Lemma received_task : t ∈ activeIDs st ∧ t ∈ pl_tasks p ∧ t ∉ ex_processed st ∧ ∀ q, q ∈ preds p t → q ∈ ex_processed st.
Proof.
  assert (t ∈ activeIDs st) as Ha by (apply list_elem_of_fmap; exists (t, Returned result); split; [done|]; by eapply list_elem_of_lookup_2).
  destruct (iv_sched _ _ _ _ _ _ _ HI t) as (H1 & H2 & _); [by right; left|]. split_and!; [done..|].
  assert (waiting ∅ st t = 0%nat) as Hw by (apply (iv_ready _ _ _ _ _ _ _ HI t H1 H2); by right; left). intros q Hq.
  by apply (proj1 (waiting_zero p ∅ st t) Hw q Hq).
Qed.

Lemma received_carrier : ∃ err ks, result = mkTaskResult t err ks ∧ live p (ex_db st) t = false ∧ carrier st t err ks.
Proof.
  destruct (iv_act _ _ _ _ _ _ _ HI t (Returned result)) as [[_ ([|n] & Hg)]|(err & ks & [= ->] & ? & ?)]; [by eapply list_elem_of_lookup_2|done|done|].
  by exists err, ks.
Qed.

Definition receivedState : ExecState := setOutcome t TaskStatusSucceeded (markProcessed t (set_exactive (delete i (ex_active st)) st)).

Lemma received_active : NoDup (activeIDs receivedState) ∧ (∀ y, y ∈ ex_active receivedState ↔ y ∈ ex_active st ∧ y.1 ≠ t) ∧
  (∀ x, x ∈ activeIDs receivedState ↔ x ∈ activeIDs st ∧ x ≠ t) ∧ ∀ x, scheduled receivedState x ↔ scheduled st x ∧ x ≠ t.
Proof.
  destruct (active_delete (ex_active st) i t (Returned result)) as [H1 H2]; [apply HI|done|].
  assert (∀ x, x ∈ activeIDs receivedState ↔ x ∈ activeIDs st ∧ x ≠ t) as H3.
  { intros x. unfold activeIDs, receivedState. cbn. rewrite !list_elem_of_fmap. split.
    - intros (y & -> & [Hy Hne]%H2). split; [by exists y|done].
    - intros [(y & -> & Hy) Hne]. exists y. split; [done|]. by apply H2. }
  split_and!; [done|done|done|]. destruct received_task as (Ht & _). destruct (iv_apart _ _ _ _ _ _ _ HI) as [A1 A2]. specialize (A2 t Ht).
  intros x. unfold scheduled. rewrite H3. cbn. split.
  - intros [Hq|[[Ha Hx]|Hd]]; (split; [by auto|]); [|done|].
    + intros ->. by destruct (A1 t Hq).
    + intros ->. rewrite A2 in Hd. by destruct Hd.
  - tauto.
Qed.

Lemma received_waiting x : waiting (out t) receivedState x = waiting ∅ st x.
Proof.
  apply waiting_ext. intros q Hq. apply (pred_adjacent p HP) in Hq. unfold receivedState. cbn. rewrite elem_out.
  destruct received_task as (_ & _ & Hn & _). destruct (decide (q = t)) as [->|]; set_solver.
Qed.

Lemma received_inv err ks : result = mkTaskResult t err ks → O t = TaskStatusSucceeded → inv (out t) ks receivedState.
Proof.
  intros Er HOt. destruct received_task as (Ha & Ht & Hp & Hpreds). destruct received_carrier as (err' & ks' & Er' & Hdead & HC).
  rewrite Er in Er'. injection Er' as <- <-. destruct received_active as (A1 & A2 & A3 & A4). pose proof received_waiting as Hw. pose proof HI as [].
  assert (ex_processed receivedState = {[t]} ∪ ex_processed st) as Ep by done.
  assert (∀ x, x ∉ ex_processed receivedState → x ≠ t ∧ x ∉ ex_processed st) as Hnp by (intros x; rewrite Ep; set_solver). split.
  - done.
  - done.
  - done.
  - intros x. rewrite Ep. intros Hx. destruct (decide (x = t)) as [->|]; [done|]. apply iv_proc. set_solver.
  - intros x. rewrite Ep. unfold receivedState. cbn. destruct (decide (x = t)) as [->|Hx]; [rewrite lookup_insert_eq, decide_True by set_solver; by rewrite HOt|].
    rewrite lookup_insert_ne by done. rewrite iv_out. do 2 case_decide; set_solver.
  - intros x Hx. destruct (iv_deg x Hx) as (n & Hn & H1 & H2). exists n. rewrite Hw. split_and!; [done|by intros [_ ?]%Hnp; apply H1|].
    rewrite Ep. intros Hxp (q & Hq & Hqp & HOq). destruct (decide (x = t)) as [->|Hxt]; [exfalso; specialize (Hpreds q Hq); set_solver|].
    assert (Z.of_nat (waiting ∅ st x) + 1 ≤ n) by (apply H2; [set_solver|]; exists q; set_solver).
    assert (waiting ∅ receivedState x ≤ waiting ∅ st x)%nat; [|lia]. apply waiting_le. rewrite Ep. set_solver.
  - by destruct iv_queue as (? & _ & ?).
  - destruct iv_apart as [B1 B2]. split; [intros x Hx; rewrite A3; destruct (B1 x Hx); by split; [intros []|]|]. intros x [Hx _]%A3. by apply B2.
  - intros x Hx [Hxt Hxp]%Hnp. rewrite Hw, A4. rewrite iv_ready by done. by split; [|intros []].
  - intros x [Hx Hxt]%A4. destruct (iv_sched x Hx) as (? & ? & ?). split_and!; [done| |done]. rewrite Ep. set_solver.
  - intros x Hx [Hxt Hxp]%Hnp Hl. destruct (iv_pend x Hx Hxp Hl); [by left|right]. by apply A3.
  - done.
  - intros x proc [Hx _]%A2. destruct (iv_act x proc Hx) as [?|(err' & ks' & ? & ? & ?)]; [by left|right]. exists err', ks'. split_and!; [done|done|].
    eapply carrier_grows; [done|rewrite Ep; set_solver|done].
  - intros x Hx [Hxt Hxp]%Hnp Hl. destruct (iv_dark x Hx Hxp Hl) as [?|[?%elem_of_nil|(q & ks' & Hq & Hk)]]; [left; by apply A3|done|right].
    destruct (decide (q = t)) as [->|Hqt]; [left|right; exists q, ks'; split; [|done]; by apply A2].
    pose proof (list_elem_of_lookup_2 _ _ _ Hi) as Hin.
    pose proof (active_unique (ex_active st) t _ _ (proj1 (proj2 iv_queue)) Hin Hq) as [= E]. rewrite Er in E. by injection E as -> ->.
  - intros k Hk [Hkt Hkp]%Hnp. destruct HC as (_ & _ & HC). destruct (HC k Hk) as (K1 & K2 & K3 & K4). split_and!; [done..|].
    destruct K4 as [Hadj|[Hun Hq]]; [left; exists t; split_and!; [by apply pred_adjacent|by apply elem_out|done]|right]. split; [done|]. intros q Hin.
    destruct (Hq q Hin) as [?|[Hqk| ->]]; [left; rewrite Ep; set_solver| |left; rewrite Ep; set_solver]. right. destruct (HC q Hqk) as (_ & E & _). by rewrite E.
  - done.
  - rewrite Ep. unfold receivedState. cbn. rewrite iv_term, size_union, size_singleton by set_solver. lia.
  - intros q x [-> Hx]%elem_out. rewrite Ep. split; [set_solver|done].
Qed.
End received.

(** * The tasks the store skipped *)

Lemma store_same st : set_exstore (ex_tokens st) (ex_db st) st = st.
Proof. by destruct st. Qed.

(** A task of the carry is marked. *)
Lemma carried_inv owed carry st k : inv owed carry st → k ∈ carry → k ∉ ex_processed st → inv (owed ∪ out k) carry (markSkipped k st).
Proof.
  intros HI Hk Hkp. destruct (iv_carry _ _ _ _ _ _ _ HI k Hk Hkp) as (K1 & K2 & K3 & K4). rewrite <- (store_same st).
  apply (mark_inv p a O cat HP HO Hans); [done|done|done|done| |].
  - split_and!; [apply HI|apply HI|done|done].
  - destruct K4 as [(q & Hq & Ho & _)|[_ Hq]]; [left; by exists q|by right].
Qed.

(** What applying the skipped tasks leaves. *)
Record applied (t : uuid) (ks : list uuid) (st st' : ExecState) : Prop := {
  ap_processed : ex_processed st ⊆ ex_processed st';
  ap_new : ∀ x, x ∈ ex_processed st' → x ∉ ex_processed st → x ∈ ks ∨ x ∉ adjacent p t;
  ap_degree : ∀ x, x ∈ ex_processed st → ex_indegree st' !! x = ex_indegree st !! x;
  ap_active : ex_active st' = ex_active st;
}.

Lemma applied_trans t ks st1 st2 st3 : applied t ks st1 st2 → applied t ks st2 st3 → applied t ks st1 st3.
Proof.
  intros [A1 A2 A3 A4] [B1 B2 B3 B4]. split; [set_solver| | |congruence].
  - intros x Hx Hn. destruct (decide (x ∈ ex_processed st2)); by auto.
  - intros x Hx. rewrite B3 by set_solver. by apply A3.
Qed.

Lemma applySkipped_inv io t ks : quiet io → O t = TaskStatusSucceeded → ∀ l st, l ⊆ ks → inv (out t) ks st →
  (∀ k, k ∈ ks → k ∈ l ∨ k ∈ ex_processed st) → ∃ st', applySkipped p io l st = st' ∧ inv (out t) ks st' ∧ (∀ k, k ∈ ks → k ∈ ex_processed st') ∧ applied t ks st st'.
Proof.
  intros Hio HOt. induction l as [|k l IH]; intros st Hl HI Hks; cbn [applySkipped].
  { exists st. split_and!; [done|done| |by split]. intros k Hk. destruct (Hks k Hk) as [H|H]; [by apply elem_of_nil in H|done]. }
  unfold is_processed. destruct (bool_decide (k ∈ ex_processed st)) eqn:Ek.
  { apply bool_decide_eq_true in Ek. apply IH; [set_solver|done|]. intros x Hx. destruct (Hks x Hx) as [[->|?]%elem_of_cons|?]; by auto. }
  apply bool_decide_eq_false in Ek. assert (k ∈ ks) as Hk by (apply Hl; by apply elem_of_cons; left).
  pose proof (carried_inv _ _ _ k HI Hk Ek) as HI1. destruct (iv_carry _ _ _ _ _ _ _ HI k Hk Ek) as (_ & HOk & _).
  assert (ex_processed (markSkipped k st) = {[k]} ∪ ex_processed st) as Ep by done.
  destruct (propagate_inv p a O cat HP HO Hans io ks (out t) k (markSkipped k st) Hio HI1) as (st2 & -> & HI2 & [G1 G2 G3 G4 G5]).
  { rewrite Ep. set_solver. }
  { done. }
  { intros q x [-> _]%elem_out ->. by rewrite HOt in HOk. }
  destruct (IH st2) as (st' & -> & K1 & K2 & K3); [set_solver|done| |].
  { intros x Hx. destruct (Hks x Hx) as [[->|?]%elem_of_cons|?]; [right; apply G1; rewrite Ep; set_solver|by left|right; apply G1; rewrite Ep; set_solver]. }
  exists st'. split_and!; [done|done|done|]. apply (applied_trans _ _ _ st2); [|done]. split.
  - etransitivity; [|exact G1]. rewrite Ep. set_solver.
  - intros x Hx Hn. destruct (decide (x = k)) as [->|Hxk]; [by left|right]. destruct (G2 x Hx) as [_ H]; [rewrite Ep; set_solver|].
    intros Hadj. apply (H t). by apply elem_out.
  - intros x Hx. rewrite G3 by (rewrite Ep; set_solver). done.
  - by rewrite G4.
Qed.

(** Without unprocessed tasks in the carry it is empty. *)
Lemma carry_done owed ks st : inv owed ks st → (∀ k, k ∈ ks → k ∈ ex_processed st) → inv owed [] st.
Proof.
  intros [] H. split; try done.
  - intros t Ht Hp Hl. destruct (iv_dark t Ht Hp Hl) as [?|[Hk|?]]; [by left|by destruct (Hp (H t Hk))|by right; right].
  - intros t Hk. by apply elem_of_nil in Hk.
Qed.

(** * The successors of a success *)

(** The counter of a successor that was skipped before stays above zero. *)
Definition late (st : ExecState) (s : uuid) : Prop := ∃ n, ex_indegree st !! s = Some n ∧ Z.of_nat (waiting ∅ st s) + 2 ≤ n.

Lemma late_grown t l st st' s : grown O (edges t l) st st' → s ∈ l → (s ∈ ex_processed st → late st s) → s ∈ ex_processed st' → late st' s.
Proof.
  intros [G1 G2 G3 G4 G5] Hs Hl Hp. destruct (decide (s ∈ ex_processed st)) as [H0|H0].
  - destruct (Hl H0) as (n & Hn & Hw). exists n. rewrite G3 by done. split; [done|].
    assert (waiting ∅ st' s ≤ waiting ∅ st s)%nat; [|lia]. apply waiting_le. set_solver.
  - destruct (G2 s Hp H0) as [_ H]. destruct (H t). by apply elem_edges.
Qed.

(** The last debt of a task is paid and its rule fails: it is skipped, and nothing else. *)
Lemma skip_grown owed carry st c s db' : inv owed carry st → (c, s) ∈ owed → s ∉ ex_processed st → waiting (owed ∖ {[(c, s)]}) st s = 0%nat →
  O s = TaskStatusSkipped → grown O (owed ∖ {[(c, s)]}) st (markSkipped s (set_exstore (ex_tokens st) db' (decrementIn s st))).
Proof.
  intros HI Hc Hs Hw HOs. destruct (pay_grown p a O cat HP HO Hans owed carry st c s (owed ∖ {[(c, s)]}) HI Hc Hs) as (G1 & _ & E1 & _).
  set (st3 := markSkipped s _). assert (ex_processed st3 = {[s]} ∪ ex_processed st) as E3 by (unfold st3; cbn; by rewrite E1).
  split.
  - set_solver.
  - intros t. rewrite E3. intros Ht Hn. assert (t = s) as -> by set_solver. split; [done|]. intros q Hq. rewrite waiting_zero in Hw.
    destruct (iv_owed _ _ _ _ _ _ _ HI q s) as [_ Ha]; [set_solver|]. by destruct (Hw q (proj2 (pred_adjacent p HP q s) Ha)).
  - intros t Ht. unfold st3. cbn. apply (gr_degree _ _ _ _ G1 t Ht).
  - apply (gr_active _ _ _ _ G1).
  - apply (gr_err _ _ _ _ G1).
Qed.

(** One successor: its debt is paid, and the loop goes on. *)
Lemma settle_one io t s l st : quiet io → s ∉ l → inv (edges t (s :: l)) [] st → (s ∈ ex_processed st → late st s) →
  ∃ st', settleSuccessor p io s st = (false, st') ∧ inv (edges t l) [] st' ∧ (∀ x, x ∈ l → (x ∈ ex_processed st → late st x) → x ∈ ex_processed st' → late st' x) ∧
    ex_active st' = ex_active st ∧ ex_processed st ⊆ ex_processed st'.
Proof.
  intros Hio Hsl HI Hlate. assert ((t, s) ∈ edges t (s :: l)) as Hc by (apply elem_edges; split; [done|by apply elem_of_cons; left]).
  assert (edges t (s :: l) ∖ {[(t, s)]} = edges t l) as Ee.
  { apply edge_eq. intros q x. rewrite elem_of_difference, elem_of_singleton, !elem_edges, elem_of_cons. naive_solver. }
  destruct (iv_owed _ _ _ _ _ _ _ HI t s Hc) as [Htp Hadj]. unfold settleSuccessor. destruct (decide (s ∈ ex_processed st)) as [Hs|Hs].
  - destruct (Hlate Hs) as (n & Hn & Hw). assert (decrementIn s st = set_exindegree (<[s := n - 1]> (ex_indegree st)) st) as ->.
    { unfold decrementIn, map_get. rewrite Hn. cbv zeta. change (default 0 (Some n)) with n. by rewrite (proj2 (Z.ltb_lt 0 n)) by lia. }
    unfold map_get. cbn [ex_indegree set_exindegree]. rewrite lookup_insert_eq. change (default 0 (Some (n - 1))) with (n - 1). rewrite (proj2 (Z.eqb_neq _ _)) by lia. cbn [negb].
    eexists. split; [reflexivity|]. split_and!.
    + apply (drop_inv p a O cat HP HO Hans (edges t (s :: l))); [|rewrite <- Ee; set_solver|].
      * apply (deg_inv p a O cat _ _ _ s _ (n - 1)); [done|done|apply lookup_insert_eq|intros x Hx; by rewrite lookup_insert_ne|]. lia.
      * intros q x Hq Hn'. cbn. rewrite elem_edges in Hq, Hn'. rewrite elem_of_cons in Hq. destruct Hq as [-> [->|?]]; [done|]. by destruct Hn'.
    + intros x Hx Hl Hxp. destruct (Hl Hxp) as (m & Hm & ?). exists m. cbn. rewrite lookup_insert_ne; [done|]. by intros ->.
    + done.
    + done.
  - destruct (paid_test p a O cat HP HO Hans (edges t (s :: l)) [] st t s HI Hc Hs) as (_ & Esat & Edeg). rewrite Edeg, Esat, Ee.
    destruct (pay_grown p a O cat HP HO Hans (edges t (s :: l)) [] st t s (edges t l) HI Hc Hs) as (G1 & G2 & E1 & E2).
    pose proof (pay_inv p a O cat HP HO Hans (edges t (s :: l)) [] st t s HI Hc Hs (or_intror eq_refl)) as HPay. rewrite Ee in HPay.
    destruct (decide (waiting (edges t l) st s = 0%nat)) as [Hw|Hw].
    2:{ rewrite (proj2 (Z.eqb_neq _ _)) by lia. cbn [negb]. destruct HPay as [HPay|[? _]]; [|done]. eexists. split; [reflexivity|].
        split_and!; [done|intros x Hx; by apply (late_grown t l)|apply G1|apply G1]. }
    rewrite Hw. cbn [negb Z.eqb Z.of_nat]. destruct (satisfied p st s) eqn:Es.
    { destruct HPay as [HPay|[_ ?]]; [|done]. eexists. split; [reflexivity|]. split_and!; [done|intros x Hx; by apply (late_grown t l)|apply G2|apply G2]. }
    assert (waiting (edges t (s :: l) ∖ {[(t, s)]}) st s = 0%nat) as Hw' by (by rewrite Ee).
    destruct (skip_paid p a O cat HP HO Hans (edges t (s :: l)) [] st t s HI Hc Hs (or_intror eq_refl) io (ruleUnsatisfied (pl_rule p s)) Hio Hw' Es)
      as (db' & -> & HOs & HI').
    pose proof (skip_grown _ _ _ _ _ db' HI Hc Hs Hw' HOs) as G3. rewrite Ee in HI', G3.
    destruct (propagate_inv p a O cat HP HO Hans io [] (edges t l) s _ Hio HI') as (st' & -> & HI2 & G4).
    + cbn. set_solver.
    + done.
    + intros q x [-> _]%elem_edges ->. done.
    + assert (grown O (edges t l) st st') as G5 by (by apply (grown_trans p a O HP HO Hans _ (edges t l) _ _ _ (reflexivity _) G3 G4)). exists st'. split; [done|].
      split_and!; [done|intros x Hx; by apply (late_grown t l)|apply G5|apply G5].
Qed.

Lemma settleAll_inv io t (ks : list uuid) : quiet io → ∀ l st, NoDup l → inv (edges t l) [] st → (∀ k, k ∈ ks → k ∈ ex_processed st) →
  (∀ s, s ∈ l → s ∉ ks → s ∈ ex_processed st → late st s) →
  ∃ st', settleAll p io (λ _ s, bool_decide (s ∈ ks)) l st = st' ∧ inv ∅ [] st' ∧ ex_active st' = ex_active st.
Proof.
  intros Hio. induction l as [|s l IH]; intros st Hnd HI Hks Hlate; cbn [settleAll].
  { exists st. by split_and!. }
  apply NoDup_cons in Hnd as [Hsl Hnd]. case_bool_decide as Hs.
  - apply IH; [done| |done|].
    + apply (drop_inv p a O cat HP HO Hans (edges t (s :: l))); [done| |].
      * intros [q x]. rewrite !elem_edges, elem_of_cons. tauto.
      * intros q x. rewrite !elem_edges, elem_of_cons. intros [-> [->|?]] Hn; [by apply Hks|]. by destruct Hn.
    + intros x Hx. apply Hlate. by apply elem_of_cons; right.
  - assert ((t, s) ∈ edges t (s :: l)) as Hc by (apply elem_edges; split; [done|by apply elem_of_cons; left]).
    destruct (iv_owed _ _ _ _ _ _ _ HI t s Hc) as [_ Hadj]. destruct (po_closed _ HP t s Hadj) as [Hst _].
    destruct (iv_deg _ _ _ _ _ _ _ HI s Hst) as (n & -> & _).
    destruct (settle_one io t s l st Hio Hsl HI) as (st1 & -> & HI1 & Hl1 & Ea & Hp); [apply Hlate; [by apply elem_of_cons; left|done]|].
    destruct (IH st1 Hnd HI1) as (st' & -> & H1 & H2); [intros k Hk; by apply Hp, Hks| |].
    + intros x Hx Hxk. apply Hl1; [done|]. apply Hlate; [by apply elem_of_cons; right|done].
    + exists st'. split_and!; [done|done|congruence].
Qed.

(** * A result is handled *)

Lemma success_inv io st i t result : quiet io → inv ∅ [] st → ex_active st !! i = Some (t, Returned result) → O t = TaskStatusSucceeded →
  ∃ st', handleResult uuid_String p io result (set_exactive (delete i (ex_active st)) st) = st' ∧ inv ∅ [] st' ∧ ex_active st' = delete i (ex_active st).
Proof.
  intros Hio HI Hi HOt. destruct (received_task st i t result HI Hi) as (Ha & Ht & Hp & Hpreds).
  destruct (received_carrier st i t result HI Hi) as (err' & ks & -> & Hdead & HC). pose proof HC as (C1 & _ & C3). rewrite (proj2 C1 HOt) in *.
  pose proof (received_inv st i t _ HI Hi None ks eq_refl HOt) as HI1. unfold handleResult, is_processed. cbn [rs_id rs_err rs_skipped ex_processed set_exactive].
  rewrite bool_decide_eq_false_2 by done. unfold handleSuccess. fold (receivedState st i t) in *.
  destruct (applySkipped_inv io t ks Hio HOt ks _ (reflexivity _) HI1) as (st2 & -> & HI2 & Hks & [P1 P2 P3 P4]); [by left|].
  rewrite (proj1 (iv_halt _ _ _ _ _ _ _ HI2)). pose proof (carry_done _ _ _ HI2 Hks) as HI3.
  destruct (settleAll_inv io t ks Hio (adjacent p t) st2 (po_targets _ HP t) HI3 Hks) as (st' & -> & HI4 & E4).
  - intros s Hs Hsk Hsp. destruct (po_closed _ HP t s Hs) as [Hst _]. assert (t ∈ preds p s) as Hpr by (by apply pred_adjacent).
    assert (s ∈ ex_processed (receivedState st i t)) as Hsr by (destruct (decide (s ∈ ex_processed (receivedState st i t))); [done|]; by destruct (P2 s Hsp)).
    assert (s ≠ t) as Hne. { intros ->. by apply Hp, Hpreds. }
    assert (s ∈ ex_processed st) as Hs0 by (unfold receivedState in Hsr; cbn in Hsr; set_solver).
    destruct (iv_deg _ _ _ _ _ _ _ HI s Hst) as (n & Hn & _ & Hn2). exists n. rewrite P3 by done. split; [done|].
    assert (Z.of_nat (waiting ∅ st s) + 1 ≤ n) by (apply Hn2; [done|]; by exists t).
    assert (S (waiting ∅ st2 s) ≤ waiting ∅ st s)%nat; [|lia]. rewrite <- (received_waiting st i t _ HI Hi s).
    rewrite (waiting_pay p a O HP HO Hans (out t) _ t s); [|done|unfold receivedState; cbn; set_solver|by apply elem_out].
    apply le_n_S, waiting_le. set_solver.
  - exists st'. split_and!; [done|done|]. rewrite E4, P4. done.
Qed.

(** * Stopping *)

Definition stopped (st : ExecState) : Prop := ex_halt st = true ∧ is_Some (ex_runErr st).

Lemma failure_stops io st result : pl_continueOnFailure p = false → rs_err result ≠ None → rs_id result ∉ ex_processed st →
  stopped (handleResult uuid_String p io result st).
Proof.
  intros Hpol He Hp. unfold handleResult, is_processed. rewrite bool_decide_eq_false_2 by done. destruct (rs_err result) as [e|]; [|done].
  unfold handleFailure. rewrite Hpol. cbn. split; [done|]. by destruct (ex_runErr st).
Qed.

Lemma halt_stops e st : stopped (haltWith e st).
Proof. split; [done|]. cbn. by destruct (ex_runErr st). Qed.
End results.
