(* ===== verification/LocalSystem.v ===== *)
(** The in-process executor as a system: the loop dispatches, waits and receives while the
    goroutines make their store calls. Every step keeps the invariant of the loop or stops
    the loop with an error. *)

From S2P Require Import Prelude TriggerRule Tables Store TxLogic RunState TaskOps RunOps Topology JobGraph SqlAdvance TaskTheorems RateLimit.
From S2P Require Import LocalExec LocalRows LocalTask LocalInv LocalLoop.

(** * A stopped loop stays stopped *)

Section stops.
Context (p : Plan).

(** The goroutines and the deferred tasks are as they were, and progress is kept. *)
Definition extends (st st' : ExecState) : Prop :=
  ex_active st' = ex_active st ∧ ex_deferred st' = ex_deferred st ∧ ex_processed st ⊆ ex_processed st'.

(** Halt and error are as they were, too. *)
Definition keeps (st st' : ExecState) : Prop := (ex_halt st' = ex_halt st ∧ ex_runErr st' = ex_runErr st) ∧ extends st st'.

Lemma extends_trans st1 st2 st3 : extends st1 st2 → extends st2 st3 → extends st1 st3.
Proof. intros (? & ? & ?) (? & ? & ?). split_and!; [congruence..|set_solver]. Qed.

Lemma keeps_refl st : keeps st st.
Proof. unfold keeps, extends. by split_and!. Qed.

Lemma mark_keeps id st : keeps st (markSkipped id st).
Proof. unfold keeps, extends. split_and!; [done..|]. cbn. set_solver. Qed.

Lemma push_keeps id st : keeps st (push p id st).
Proof. unfold push. destruct (_ || _); [apply keeps_refl|]. unfold keeps, extends. by split_and!. Qed.

Lemma decrement_keeps id st : keeps st (decrementIn id st).
Proof. unfold decrementIn. cbv zeta. destruct (0 <? _); [|apply keeps_refl]. unfold keeps, extends. by split_and!. Qed.

Lemma skip_keeps io id reason st e st' : storeSkip p io id reason st = (e, st') → keeps st st'.
Proof. unfold storeSkip. by destruct (Transaction _ _ _) as [[|] ?]; intros [= _ <-]; unfold keeps, extends; split_and!. Qed.

Lemma keeps_trans st1 st2 st3 : keeps st1 st2 → keeps st2 st3 → keeps st1 st3.
Proof. intros [[? ?] ?] [[? ?] ?]. split; [split; congruence|by eapply extends_trans]. Qed.

Lemma keeps_stopped st st' : keeps st st' → stopped st → stopped st'.
Proof. unfold stopped. by intros [[-> ->] _]. Qed.

Lemma propagateEach_keeps io succs queue seen st : keeps st (propagateEach p io succs queue seen st).2.
Proof.
  revert queue seen st. induction succs as [|s l IH]; intros queue seen st; cbn [propagateEach]; [apply keeps_refl|].
  destruct (is_processed st s); [apply IH|]. destruct (ex_indegree st !! s); [|apply IH].
  pose proof (decrement_keeps s st) as Hd. set (st1 := decrementIn s st) in *. clearbody st1.
  destruct (negb _); [eapply keeps_trans; [exact Hd|apply IH]|].
  destruct (satisfied p st1 s); [eapply keeps_trans; [|apply IH]; eapply keeps_trans; [exact Hd|apply push_keeps]|].
  destruct (storeSkip _ _ _ _ st1) as [[e|] st2] eqn:E; apply skip_keeps in E; [by eapply keeps_trans|].
  assert (keeps st (markSkipped s st2)) by (eapply keeps_trans; [|apply mark_keeps]; by eapply keeps_trans).
  destruct (bool_decide _); eapply keeps_trans; try done; apply IH.
Qed.

Lemma propagateLoop_keeps io fuel queue seen st : keeps st (propagateLoop fuel p io queue seen st).2.
Proof.
  revert queue seen st. induction fuel as [|fuel IH]; intros [|cur queue] seen st; cbn [propagateLoop]; try apply keeps_refl.
  pose proof (propagateEach_keeps io (adjacent p cur) queue seen st) as H. destruct (propagateEach _ _ _ _ _ _) as [[[[e|] q] s] st1]; [done|].
  by eapply keeps_trans.
Qed.

Lemma propagateOrHalt_extends io id st : extends st (propagateOrHalt p io id st).2.
Proof.
  unfold propagateOrHalt, propagateSkipped. pose proof (propagateLoop_keeps io (S (size (dom (g_adjacency (pl_graph p))))) [id] {[id]} st) as [_ HK].
  by destruct (propagateLoop _ _ _ _ _ _) as [[e|] st1].
Qed.

Lemma applySkipped_extends io l st : extends st (applySkipped p io l st).
Proof.
  revert st. induction l as [|k l IH]; intros st; cbn [applySkipped]; [apply keeps_refl|]. destruct (is_processed st k); [by apply IH|].
  pose proof (propagateOrHalt_extends io k (markSkipped k st)) as HS. pose proof (extends_trans _ _ _ (proj2 (mark_keeps k st)) HS) as H.
  destruct (propagateOrHalt _ _ _ _) as [[|] st1]; [done|]. eapply extends_trans; [exact H|apply IH].
Qed.

Lemma settleSuccessor_extends io s st : extends st (settleSuccessor p io s st).2.
Proof.
  unfold settleSuccessor. pose proof (proj2 (decrement_keeps s st)) as Hd. set (st1 := decrementIn s st) in *. clearbody st1.
  destruct (negb _); [done|]. destruct (satisfied p st1 s); [eapply extends_trans; [exact Hd|apply push_keeps]|].
  destruct (storeSkip _ _ _ _ st1) as [[e|] st2] eqn:E; apply skip_keeps in E as [_ E]; [by eapply extends_trans|].
  eapply extends_trans; [|apply propagateOrHalt_extends]. eapply extends_trans; [|apply mark_keeps]. by eapply extends_trans.
Qed.

Lemma settleAll_extends io skip l st : extends st (settleAll p io skip l st).
Proof.
  revert st. induction l as [|s l IH]; intros st; cbn [settleAll]; [apply keeps_refl|]. destruct (skip st s); [apply IH|].
  destruct (ex_indegree st !! s); [|apply IH]. pose proof (settleSuccessor_extends io s st) as H.
  destruct (settleSuccessor p io s st) as [[|] st1]; [done|]. eapply extends_trans; [exact H|apply IH].
Qed.

Lemma propagateOrHalt_stopped io id st : stopped st → stopped (propagateOrHalt p io id st).2.
Proof.
  intros H. unfold propagateOrHalt, propagateSkipped. pose proof (propagateLoop_keeps io (S (size (dom (g_adjacency (pl_graph p))))) [id] {[id]} st) as HK.
  destruct (propagateLoop _ _ _ _ _ _) as [[e|] st1]; [apply halt_stops|by eapply keeps_stopped].
Qed.

Lemma applySkipped_stopped io l st : stopped st → stopped (applySkipped p io l st).
Proof.
  revert st. induction l as [|k l IH]; intros st H; cbn [applySkipped]; [done|]. destruct (is_processed st k); [by apply IH|].
  pose proof (propagateOrHalt_stopped io k (markSkipped k st) H) as HS. destruct (propagateOrHalt _ _ _ _) as [[|] st1]; [done|by apply IH].
Qed.

Context (uuid_String : uuid → string) (error_text : exec_error → string).
Hypothesis Hhalt : pl_continueOnFailure p = false.

Lemma handleResult_stopped io result st : stopped st → stopped (handleResult uuid_String p io result st).
Proof.
  intros H. unfold handleResult. destruct (is_processed st (rs_id result)); [done|]. destruct (rs_err result) as [e|].
  - unfold handleFailure. rewrite Hhalt. cbn. split; [done|]. by destruct (ex_runErr st).
  - unfold handleSuccess. set (st1 := setOutcome _ _ _). assert (stopped st1) as H1 by done. clearbody st1.
    pose proof (applySkipped_stopped io (rs_skipped result) st1 H1) as H2. by rewrite (proj1 H2).
Qed.

Lemma await_stopped w st ph st' : stopped st → await uuid_String p w st = Some (ph, st') → stopped st'.
Proof.
  intros H. unfold await. rewrite (proj1 H).
  assert (∀ id, (st ← receive uuid_String p (wa_skip w) id st; Some (LoopTop, st)) = Some (ph, st') → stopped st') as Hrec.
  { intros id. unfold receive. destruct (list_find _ _) as [[i [x [r|]]]|]; [|done|done]. cbn. intros [= _ <-]. by apply handleResult_stopped. }
  destruct (_ && _); destruct (bool_decide (ex_active st = [])); try (by intros [= _ <-]); destruct (wa_arrival w) as [id| |]; try done; by intros [= _ <-] || apply Hrec.
Qed.

Lemma top_stopped now order st : stopped st → stopped (topStep p now order st).2.
Proof. intros H. unfold topStep. destruct (negb _); [done|]. by rewrite (proj1 H). Qed.

Lemma dispatch_stopped io st : stopped st → stopped (dispatchStep uuid_String error_text p io st).2.
Proof. intros H. unfold dispatchStep. destruct (ex_queue st); [done|]. by rewrite (proj1 H). Qed.
End stops.

Section system.
Context (p : Plan) (a : Answers) (O : uuid → TaskStatus) (uuid_String : uuid → string) (error_text : exec_error → string) (cat : DB).
Hypothesis HP : plan_ok p.
Hypothesis HO : solves p a O.
Hypothesis Hans : ∀ t, an_status a t ≠ TaskStatusSkipped.

Abbreviation R := (pl_runID p).
Abbreviation inv := (inv p a O cat ∅ []).
Abbreviation carrier := (carrier p O).
Abbreviation gives := (gives p a uuid_String cat).

(** * Changes of the schedule *)

(** Progress is the same, the schedule and the rows may have moved. *)
Record rescheduled (st st' : ExecState) : Prop := {
  re_progress : ex_processed st' = ex_processed st ∧ ex_outcomes st' = ex_outcomes st ∧ ex_indegree st' = ex_indegree st ∧
    ex_terminal st' = ex_terminal st ∧ ex_halt st' = ex_halt st ∧ ex_runErr st' = ex_runErr st;
  re_db : tight p O (ex_db st') ∧ same_catalog cat (ex_db st');
  re_live : ∀ x, live p (ex_db st') x = live p (ex_db st) x;
  re_pending : ∀ x, statusof R (ex_db st) x = Some TaskStatusPending → x ∉ activeIDs st' → statusof R (ex_db st') x = Some TaskStatusPending;
  re_queue : NoDup (ex_queue st') ∧ NoDup (activeIDs st') ∧ ex_inQueue st' = list_to_set (ex_queue st');
  re_apart : (∀ t, t ∈ ex_queue st' → t ∉ activeIDs st' ∧ ex_deferred st' !! t = None) ∧ ∀ t, t ∈ activeIDs st' → ex_deferred st' !! t = None;
  re_sched : ∀ x, scheduled st' x ↔ scheduled st x;
  re_kept : ∀ x, x ∈ activeIDs st → x ∈ activeIDs st';
  re_active : ∀ x proc, (x, proc) ∈ ex_active st' → (x, proc) ∈ ex_active st ∨ live p (ex_db st) x = true ∧ ∃ n, good p a O cat n x proc;
  re_returned : ∀ x r, (x, Returned r) ∈ ex_active st → (x, Returned r) ∈ ex_active st';
}.

Lemma rescheduled_inv st st' : rescheduled st st' → inv st → inv st'.
Proof.
  intros [(E1 & E2 & E3 & E4 & E5 & E6) [D1 D2] Hl Hpd Hq Hap Hs Hk Hact Hret] [].
  assert (∀ owed t, waiting p owed st' t = waiting p owed st t) as Hw by (intros owed t; apply waiting_ext; by rewrite E1).
  split; rewrite ?E1, ?E2, ?E3, ?E4, ?E5, ?E6; try done.
  - intros t Ht. rewrite Hl. by apply iv_proc.
  - intros t Ht. rewrite !Hw. by apply iv_deg.
  - intros t Ht Hp. rewrite Hw, Hs. by apply iv_ready.
  - intros t Ht. by apply iv_sched, Hs.
  - intros t Ht Hp. rewrite Hl. intros Hlt. destruct (decide (t ∈ activeIDs st')) as [|Hn]; [by right|left]. apply Hpd; [|done].
    destruct (iv_pend t Ht Hp Hlt) as [|Ha]; [done|]. by apply Hk in Ha.
  - intros t Ht. rewrite Hl. assert (scheduled st t) as [Hsq|[Ha|Hd]] by (apply Hs; unfold scheduled; tauto); [by apply iv_live; left| |by apply iv_live; right].
    apply Hk in Ha. destruct Ht as [Ht|Ht]; [by destruct (proj1 Hap t Ht)|]. rewrite (proj2 Hap t Ha) in Ht. by destruct Ht.
  - intros t proc Hin. rewrite Hl. destruct (Hact t proc Hin) as [Hin'|?]; [|by left].
    destruct (iv_act t proc Hin') as [?|(err & ks & ? & ? & (C1 & C2 & C3))]; [by left|right]. exists err, ks. split_and!; [done|done|]. split_and!; [done..|].
    intros k Hk'. rewrite Hl, E1. by apply C3.
  - intros t Ht Hp. rewrite Hl. intros Hlt. destruct (iv_dark t Ht Hp Hlt) as [?|[?%elem_of_nil|(q & ks & Hin & ?)]]; [left; by apply Hk|done|].
    right; right. exists q, ks. split; [|done]. by apply Hret.
  - intros t Ht. by apply elem_of_nil in Ht.
  - intros q s Hq' HLq. rewrite Hl in HLq |- *. by apply iv_excl.
Qed.

(** A deferred task becomes due. *)
Lemma due_inv st id t : inv st → ex_deferred st !! id = Some t → inv (push p id (set_exdeferred (delete id (ex_deferred st)) st)).
Proof.
  intros HI Hd. pose proof HI as []. assert (scheduled st id) as Hs by (right; right; by rewrite Hd).
  destruct (iv_sched id Hs) as (Ht & Hp & _). destruct iv_queue as (Q1 & Q2 & Q3). destruct iv_apart as [A1 A2].
  assert (id ∉ ex_queue st) as Hnq. { intros Hq. destruct (A1 id Hq) as [_ E]. by rewrite Hd in E. }
  assert (id ∉ activeIDs st) as Hna. { intros Hq. by rewrite (A2 id Hq) in Hd. }
  unfold push, is_processed, is_queued. cbn [ex_processed ex_inQueue set_exdeferred ex_queue].
  rewrite Q3, !bool_decide_eq_false_2 by (rewrite ?elem_of_list_to_set; done). cbn [orb].
  set (q := sort_stable _ _). assert (q ≡ₚ id :: ex_queue st) as Hq by (unfold q; by rewrite sort_stable_perm, Permutation_app_comm).
  clearbody q. apply (rescheduled_inv st); [|done]. split; cbn; try done.
  - split_and!; [rewrite Hq; by constructor|done|]. apply set_eq. intros x. rewrite elem_of_union, elem_of_singleton, !elem_of_list_to_set, Hq, elem_of_cons. done.
  - split; [intros x; rewrite Hq, elem_of_cons; intros [->|Hx]|intros x Hx].
    + split; [done|apply lookup_delete_eq].
    + destruct (A1 x Hx). split; [done|]. rewrite lookup_delete_ne; [done|]. by intros ->.
    + rewrite lookup_delete_ne; [by apply A2|]. by intros ->.
  - intros x. unfold scheduled, activeIDs. cbn. rewrite Hq, elem_of_cons. destruct (decide (x = id)) as [->|Hx]; [|rewrite lookup_delete_ne by done; naive_solver].
    split; intros _; [exact Hs|by left; left].
  - intros x proc Hin. by left.
Qed.

Lemma moveDue_inv now order st : inv st → inv (moveDue p now order st).2 ∧ ex_active (moveDue p now order st).2 = ex_active st.
Proof.
  revert st. induction order as [|id order IH]; intros st HI; cbn [moveDue]; [done|]. destruct (ex_deferred st !! id) as [t|] eqn:E; [|by apply IH].
  destruct (now <? t); [by apply IH|]. cbn [snd]. destruct (IH _ (due_inv st id t HI E)) as [H1 ->]. split; [done|]. unfold push. by destruct (_ || _).
Qed.

(** * Dispatch *)

(** The head of the queue is taken out and dispatched. *)
Section popped.
Context (st : ExecState) (t : uuid) (queue : list uuid).
Hypothesis HI : inv st.
Hypothesis Hq : ex_queue st = t :: queue.

Lemma popped_task : t ∈ pl_tasks p ∧ t ∉ ex_processed st ∧ O t = an_status a t ∧ live p (ex_db st) t = true ∧ t ∉ activeIDs st ∧
  ex_deferred st !! t = None ∧ t ∉ queue ∧ NoDup queue ∧ statusof R (ex_db st) t = Some TaskStatusPending.
Proof.
  pose proof HI as []. assert (t ∈ ex_queue st) as Hin by (rewrite Hq; by apply elem_of_cons; left).
  destruct (iv_sched t) as (H1 & H2 & H3); [by left|]. destruct (proj1 iv_apart t Hin) as [H4 H5]. destruct iv_queue as (Q & _). rewrite Hq in Q.
  apply NoDup_cons in Q as [Q1 Q2]. assert (live p (ex_db st) t = true) as Hl by (apply iv_live; by left). split_and!; try done.
  by destruct (iv_pend t H1 H2 Hl).
Qed.

Lemma popped_parts : list_to_set (t :: queue) ∖ {[t]} = (list_to_set queue : gset uuid) ∧ NoDup (activeIDs st) ∧
  ex_inQueue st = list_to_set (t :: queue) ∧ (∀ x, x ∈ queue → x ∉ activeIDs st ∧ ex_deferred st !! x = None ∧ x ≠ t) ∧
  ∀ x, x ∈ activeIDs st → ex_deferred st !! x = None.
Proof.
  destruct popped_task as (_ & _ & _ & _ & _ & _ & Hn & _). pose proof HI as []. destruct iv_queue as (_ & ? & E). rewrite Hq in E. destruct iv_apart as [A1 A2].
  split_and!; [set_solver|done|done| |done]. intros x Hx. destruct (A1 x) as [? ?]; [rewrite Hq; by apply elem_of_cons; right|]. split_and!; try done. by intros ->.
Qed.

Lemma run_inv tk proc n : good p a O cat n t proc →
  inv (set_exactive (ex_active st ++ [(t, proc)]) (set_exstore tk (ex_db st) (set_exqueue queue (ex_inQueue st ∖ {[t]}) st))).
Proof.
  intros Hg. destruct popped_task as (H1 & H2 & H3 & H4 & H5 & H6 & H7 & H8 & H9). destruct popped_parts as (P1 & P2 & P3 & P4 & P5).
  assert (∀ x, x ∈ map fst (ex_active st ++ [(t, proc)]) ↔ x ∈ activeIDs st ∨ x = t) as Ha.
  { intros x. rewrite map_app, elem_of_app. cbn. rewrite list_elem_of_singleton. done. }
  apply (rescheduled_inv st); [|done]. split; cbn; try done.
  - split; apply HI.
  - split_and!; [done| |by rewrite P3, P1]. unfold activeIDs. cbn. rewrite map_app. apply NoDup_app. split_and!; [done| |apply NoDup_singleton].
    intros x Hx. cbn. rewrite list_elem_of_singleton. by intros ->.
  - split; [intros x Hx|intros x]; unfold activeIDs; cbn; rewrite Ha.
    + destruct (P4 x Hx) as (? & ? & ?). split; [|done]. by intros [?|?].
    + intros [?| ->]; [by apply P5|done].
  - intros x. unfold scheduled, activeIDs. cbn. rewrite Ha, Hq, elem_of_cons. unfold activeIDs. tauto.
  - intros x Hx. apply Ha. by left.
  - intros x pr [Hx|Hx]%elem_of_app; [by left|]. apply list_elem_of_singleton in Hx as [= -> ->]. right. split; [done|by exists n].
  - intros x r Hx. apply elem_of_app. by left.
Qed.

Lemma defer_inv tk db' after : tight p O db' → same_catalog cat db' → only_status p t TaskStatusPending (ex_db st) db' →
  inv (set_exdeferred (<[t := after]> (ex_deferred st)) (set_exstore tk db' (set_exqueue queue (ex_inQueue st ∖ {[t]}) st))).
Proof.
  intros D1 D2 D3. destruct popped_task as (H1 & H2 & H3 & H4 & H5 & H6 & H7 & H8 & H9). destruct popped_parts as (P1 & P2 & P3 & P4 & P5).
  apply (rescheduled_inv st); [|done]. split; cbn; try done.
  - intros x. unfold live. rewrite D3. destruct (decide (x = t)) as [->|]; [|done]. by rewrite H9.
  - intros x Hx _. rewrite D3. by destruct (decide (x = t)).
  - split_and!; [done|done|]. by rewrite P3, P1.
  - split; [intros x Hx|intros x Hx]; (rewrite lookup_insert_ne; [|by intros ->; try done; destruct (P4 _ Hx) as (_ & _ & ?)]).
    + by destruct (P4 x Hx) as (? & ? & ?).
    + by apply P5.
  - intros x. unfold scheduled, activeIDs. cbn. rewrite Hq, elem_of_cons. destruct (decide (x = t)) as [->|Hx]; [|rewrite lookup_insert_ne by done; naive_solver].
    rewrite lookup_insert_eq. split; intros _; [by left; left|by right; right].
  - intros x pr Hx. by left.
Qed.
End popped.

Lemma dispatch_inv io st t queue : inv st → ex_queue st = t :: queue → gives t (di_task io) →
  match dispatch uuid_String error_text p io t (set_exqueue queue (ex_inQueue st ∖ {[t]}) st) with
  | (Some _, _) => True
  | (None, st') => inv st' ∧ ex_queue st' = queue
  end.
Proof.
  intros HI Hq Hg. destruct (popped_task st t queue HI Hq) as (H1 & H2 & H3 & H4 & H5 & H6 & H7 & H8 & H9).
  pose proof (runTask_good p a O uuid_String error_text cat HP HO t (di_task io) H1 H3 Hg) as Hgood.
  assert (∀ tk, inv (set_exactive (ex_active st ++ [(t, runTask uuid_String error_text R t (di_task io))])
    (set_exstore tk (ex_db st) (set_exqueue queue (ex_inQueue st ∖ {[t]}) st)))) as Hrun by (intros tk; by eapply run_inv).
  unfold dispatch, acquireTaskRateLimit. destruct (di_rule io) as [|[rule|]]; [done| |].
  2:{ destruct (di_submitted io); [|done]. split; [apply (Hrun (ex_tokens st))|done]. }
  cbn [ex_tokens set_exqueue ex_db]. destruct (Acquire _ _ _ _ _ _) as [[e|[|]] tokens]; [done| |].
  { destruct (di_submitted io); [|done]. split; [apply (Hrun tokens)|done]. }
  destruct (withStoreBusyRetry _ _ _) as [[e|x] db'] eqn:E; [done|]. apply busyRetryLoop_atomic in E.
  pose proof (limit_ok p O HP (ex_db st) t (di_now io) (Some (di_now io + RetryAfter (di_now io) (ru_Window rule))) (iv_db _ _ _ _ _ _ _ HI) H1 H9) as HL.
  unfold succeeds in HL. rewrite E in HL. destruct HL as [L1 L2]. split; [|done].
  apply (defer_inv st t queue HI Hq tokens db'); [done| |done]. transitivity (ex_db st); [apply HI|].
  by apply (proj2 (proj2 (proj2 (proj2 (calls_catalog _ R t "" "" "" 0 _)))) _ _ _ E).
Qed.

(** A pass of the inner loop: the executor stops, or the pass dispatches, or the queue is
    empty or the pool full. *)
Lemma dispatchStep_inv io st : (∀ t, t ∈ pl_tasks p → gives t (di_task (io t))) → inv st → let r := dispatchStep uuid_String error_text p io st in
  stopped r.2 ∨ inv r.2 ∧ (r.1 = Waiting → ex_queue r.2 = [] ∨ ex_active r.2 ≠ []) ∧ r.1 ≠ Exited.
Proof.
  intros Hg HI. unfold dispatchStep. destruct (ex_queue st) as [|t queue] eqn:Hq; [right; split_and!; by auto|]. rewrite (proj1 (iv_halt _ _ _ _ _ _ _ HI)). cbn [orb].
  destruct (Z.of_nat (length (ex_active st)) <? pl_maxParallel p) eqn:Em; cbn [negb].
  2:{ right. split_and!; [done|intros _; right|done]. apply Z.ltb_ge in Em. pose proof (po_parallel _ HP). cbn. by destruct (ex_active st); [cbn in Em; lia|]. }
  destruct (popped_task st t queue HI Hq) as (Ht & Hp & _). unfold is_processed. cbn [ex_processed set_exqueue]. rewrite bool_decide_eq_false_2 by done.
  pose proof (dispatch_inv (io t) st t queue HI Hq (Hg t Ht)) as HD. destruct (dispatch _ _ _ _ _ _) as [[e|] st1]; [left; apply halt_stops|].
  destruct HD as (HI1 & _). by right.
Qed.

(** * A store call *)

Section call.
Context (st : ExecState) (i : nat) (t : uuid) (call : DB → Proc * DB) (proc : Proc) (db : DB).
Hypothesis HI : inv st.
Hypothesis Hi : ex_active st !! i = Some (t, Next call).
Hypothesis Hcall : call (ex_db st) = (proc, db).

Definition called : ExecState := set_exactive (<[i := (t, proc)]> (ex_active st)) (set_exstore (ex_tokens st) db st).

Lemma called_facts : t ∈ activeIDs st ∧ t ∈ pl_tasks p ∧ t ∉ ex_processed st ∧ live p (ex_db st) t = true ∧ tight p O db ∧ same_catalog cat db ∧
  ((∃ s n, IsTerminal s = false ∧ only_status p t s (ex_db st) db ∧ good p a O cat n t proc) ∨
   (∃ err ks, proc = Returned (mkTaskResult t err ks) ∧ ended p a O t err ks (ex_db st) db)).
Proof.
  pose proof HI as []. assert (t ∈ activeIDs st) as Ha by (apply list_elem_of_fmap; exists (t, Next call); split; [done|]; by eapply list_elem_of_lookup_2).
  destruct (iv_sched t) as (H1 & H2 & _); [by right; left|].
  destruct (iv_act t (Next call)) as [[Hl ([|n] & Hg)]|(err & ks & [=] & _)]; [by eapply list_elem_of_lookup_2|done|].
  specialize (Hg (ex_db st) iv_db iv_cat Hl). rewrite Hcall in Hg. destruct Hg as (G1 & G2 & G3). split_and!; try done.
  destruct G3 as [(s & ? & ? & ?)|?]; [left; by exists s, n|by right].
Qed.

Lemma called_ids : activeIDs called = activeIDs st.
Proof. unfold activeIDs, called. cbn. rewrite list_fmap_insert. cbn. apply list_insert_id. by rewrite list_lookup_fmap, Hi. Qed.

Lemma called_active x pr : (x, pr) ∈ ex_active called ↔ (x, pr) = (t, proc) ∨ (x, pr) ∈ ex_active st ∧ x ≠ t.
Proof.
  unfold called. cbn. pose proof (lookup_lt_Some _ _ _ Hi) as Hlt. rewrite list_elem_of_lookup. split.
  - intros (j & Hj). destruct (decide (j = i)) as [->|Hji]; [rewrite list_lookup_insert_eq in Hj by done; left; by injection Hj as -> ->|].
    rewrite list_lookup_insert_ne in Hj by done. right. split; [by eapply list_elem_of_lookup_2|]. intros ->. apply Hji.
    eapply (NoDup_lookup (map fst (ex_active st))); [apply HI| |]; rewrite list_lookup_fmap; [by rewrite Hj|by rewrite Hi].
  - intros [[= -> ->]|[(j & Hj)%list_elem_of_lookup Hx]]; [exists i; by rewrite list_lookup_insert_eq|]. exists j.
    rewrite list_lookup_insert_ne; [done|]. intros <-. rewrite Hi in Hj. by injection Hj as ->.
Qed.

(** A call that leaves the row unfinished. *)
Lemma running_inv s n : IsTerminal s = false → only_status p t s (ex_db st) db → good p a O cat n t proc → inv called.
Proof.
  intros Hs Hon Hg. destruct called_facts as (Ha & Ht & Hp & Hl & Htight & Hcat & _). pose proof HI as []. apply (rescheduled_inv st); [|done].
  assert (∀ x, x ≠ t → statusof R db x = statusof R (ex_db st) x) as Hst by (intros x Hx; by rewrite Hon, decide_False).
  split; rewrite ?called_ids; try done.
  - intros x. cbn. destruct (decide (x = t)) as [->|Hx]; [|unfold live; by rewrite Hst]. rewrite Hl. unfold live. rewrite Hon, decide_True by done. by rewrite Hs.
  - intros x Hx Hn. cbn. rewrite Hst; [done|]. by intros ->.
  - intros x. unfold scheduled. by rewrite called_ids.
  - intros x pr [[= -> ->]|[Hx _]]%called_active; [right|by left]. split; [done|by exists n].
  - intros x r Hx. apply called_active. right. split; [done|]. intros ->.
    pose proof (active_unique (ex_active st) t _ _ (proj1 (proj2 iv_queue)) Hx (list_elem_of_lookup_2 _ _ _ Hi)) as [=].
Qed.

(** Prompt delivery: no result waits when the call is made. *)
Hypothesis Hprompt : ∀ x r, (x, Returned r) ∉ ex_active st.

Lemma dead_processed x : x ∈ pl_tasks p → live p (ex_db st) x = false → x ∈ ex_processed st.
Proof.
  intros Hx Hl. pose proof HI as []. destruct (decide (x ∈ ex_processed st)) as [|Hn]; [done|exfalso].
  destruct (iv_dark x Hx Hn Hl) as [Ha|[?%elem_of_nil|(q & ks & Hq & _)]]; [|done|by apply Hprompt in Hq].
  apply list_elem_of_fmap in Ha as ([y pr] & -> & Ha). destruct (iv_act y pr Ha) as [[Hl' _]|(err & ks & -> & _)]; [cbn in Hl; congruence|by apply Hprompt in Ha].
Qed.

Lemma ended_inv err ks : proc = Returned (mkTaskResult t err ks) → ended p a O t err ks (ex_db st) db → inv called.
Proof.
  intros Eproc (s & Hs & Hnorm & Herr & Hks & (S1 & S2 & S3 & S4)). destruct called_facts as (Ha & Ht & Hp & Hl & Htight & Hcat & _). pose proof HI as [].
  assert (∀ k, k ∈ ks → O k = TaskStatusSkipped) as HOk.
  { intros k Hk. destruct (S3 k Hk) as [_ [(H1 & H2 & H3)|[H1 _]]]; [by apply (excluded_skipped p a O HP HO t)|by apply (unruled_skipped p a O HO)]. }
  assert (∀ x, scheduled st x → x ∉ ks) as Hns. { intros x Hx Hk. destruct (iv_sched x Hx) as (_ & _ & E). rewrite (HOk x Hk) in E. by destruct (Hans x). }
  assert (∀ x, live p db x = if decide (x = t) then false else if bool_decide (x ∈ ks) then false else live p (ex_db st) x) as HL.
  { intros x. unfold live. rewrite S1. destruct (decide (x = t)); [by rewrite Hs|]. by case_bool_decide. }
  assert (∀ x, live p (ex_db st) x = false → live p db x = false) as Hdead.
  { intros x Hx. rewrite HL. destruct (decide (x = t)); [done|]. by case_bool_decide. }
  assert (∀ x, scheduled called x ↔ scheduled st x) as Hsch by (intros x; unfold scheduled; by rewrite called_ids).
  split; try done.
  - intros x Hx. destruct (iv_proc x Hx). split; [done|]. by apply Hdead.
  - by rewrite called_ids.
  - by rewrite called_ids.
  - intros x Hx Hxp. rewrite Hsch. by apply iv_ready.
  - intros x Hx%Hsch. by apply iv_sched.
  - intros x Hx Hxp. rewrite called_ids. cbn. rewrite HL. destruct (decide (x = t)) as [->|Hxt]; [done|]. case_bool_decide as Hk; [done|]. intros Hlx.
    rewrite S1, decide_False, bool_decide_eq_false_2 by done. by apply iv_pend.
  - intros x Hx. cbn. rewrite HL, decide_False, bool_decide_eq_false_2; [by apply iv_live|apply Hns; unfold scheduled; cbn in Hx; tauto|].
    intros ->. cbn in Hx. destruct Hx as [Hx|Hx]; [by destruct (proj1 iv_apart t Hx)|]. rewrite (proj2 iv_apart t Ha) in Hx. by destruct Hx.
  - intros x pr [[= -> ->]|[Hx Hxt]]%called_active.
    + right. exists err, ks. split_and!; [done|cbn; by rewrite HL, decide_True|]. split_and!; [done|done|]. intros k Hk. destruct (S3 k Hk) as [Hkt Hcase].
      split_and!; [done|by apply HOk|cbn; rewrite HL, bool_decide_eq_true_2 by done; by destruct (decide _)|]. destruct Hcase as [(? & _)|[Hun Hq]]; [by left|right].
      split; [done|]. intros q Hin. specialize (Hq q Hin). rewrite HL in Hq. destruct (decide (q = t)) as [->|]; [by auto|]. case_bool_decide; [by auto|].
      left. apply dead_processed; [|done]. by apply (pred_task p HP q k).
    + left. destruct (iv_act x pr Hx) as [[Hlx ?]|(err' & ks' & -> & _)]; [|by apply Hprompt in Hx]. split; [|done]. cbn.
      rewrite HL, decide_False, bool_decide_eq_false_2; [done| |done]. apply Hns. right; left. apply list_elem_of_fmap. by exists (x, pr).
  - intros x Hx Hxp Hlx. rewrite called_ids. cbn in Hlx. rewrite HL in Hlx. destruct (decide (x = t)) as [->|Hxt]; [by left|]. case_bool_decide as Hk.
    + right; right. exists t, ks. split; [|done]. apply called_active. left. rewrite Eproc. do 3 f_equal. symmetry. apply Herr.
      destruct (decide (O t = TaskStatusSucceeded)); [done|]. rewrite Hks in Hk by done. by apply elem_of_nil in Hk.
    + by destruct (Hxp (dead_processed x Hx Hlx)).
  - intros x Hx. by apply elem_of_nil in Hx.
  - intros q x Hq Hlq HOq Hadj Hx. cbn in Hlq |- *. destruct (decide (q = t)) as [->|Hqt].
    + pose proof (excluded_skipped p a O HP HO t x Hadj HOq Hx) as HOx. pose proof (S4 HOq x Hadj Hx) as Hnp. rewrite S1 in Hnp.
      destruct (live p db x) eqn:El; [exfalso|done]. rewrite HL in El. destruct (decide (x = t)) as [->|Hxt]; [done|]. case_bool_decide as Hk; [done|].
      destruct (po_closed _ HP t x Hadj) as [Hxt' _].
      assert (x ∉ ex_processed st) as Hxp. { intros Hxp. destruct (iv_proc x Hxp) as [_ E]. congruence. }
      destruct (iv_pend x Hxt' Hxp El) as [?|Hxa]; [done|]. destruct (iv_sched x) as (_ & _ & E); [by right; left|]. rewrite HOx in E. by destruct (Hans x).
    + apply Hdead. apply (iv_excl q x); try done. rewrite HL, decide_False in Hlq by done. case_bool_decide as Hk; [|done].
      exfalso. rewrite (HOk q Hk) in HOq. done.
Qed.

Lemma call_inv : inv called.
Proof.
  destruct called_facts as (_ & _ & _ & _ & _ & _ & [(s & n & H1 & H2 & H3)|(err & ks & H1 & H2)]); [by eapply running_inv|by eapply ended_inv].
Qed.
End call.

(** * A turn of the loop *)

Hypothesis Hhalt : pl_continueOnFailure p = false.

Lemma receive_inv io id st st' : quiet io → inv st → receive uuid_String p io id st = Some st' → stopped st' ∨ inv st'.
Proof.
  intros Hio HI. unfold receive. destruct (list_find _ _) as [[i [t pr]]|] eqn:E; [|done]. cbn. apply list_find_Some in E as (Hi & _ & _).
  destruct pr as [result|]; [|done]. intros [= <-]. destruct (decide (O t = TaskStatusSucceeded)) as [HOt|HOt].
  - right. by destruct (success_inv p a O uuid_String cat HP HO Hans io st i t result Hio HI Hi HOt) as (st' & -> & ? & _).
  - left. destruct (received_task p a O cat st i t result HI Hi) as (_ & _ & Hp & _).
    destruct (received_carrier p a O cat st i t result HI Hi) as (err & ks & -> & _ & [C1 _]). apply failure_stops; [done| |done]. cbn. by rewrite C1.
Qed.

(** Nothing is left to do. *)
Definition finished (st : ExecState) : Prop := ex_queue st = [] ∧ ex_deferred st = ∅ ∧ ex_active st = [].

Lemma await_inv w st ph st' : quiet (wa_skip w) → inv st → (ex_queue st = [] ∨ ex_active st ≠ []) →
  await uuid_String p w st = Some (ph, st') → stopped st' ∨ inv st' ∧ (ph = Exited ∧ finished st' ∨ ph = LoopTop).
Proof.
  intros Hio HI Hne. unfold await. rewrite (proj1 (iv_halt _ _ _ _ _ _ _ HI)).
  assert (∀ id, (st ← receive uuid_String p (wa_skip w) id st; Some (LoopTop, st)) = Some (ph, st') →
    stopped st' ∨ inv st' ∧ (ph = Exited ∧ finished st' ∨ ph = LoopTop)) as Hrec.
  { intros id. destruct (receive _ _ _ _ st) as [st1|] eqn:E; [|done]. cbn. intros [= <- <-]. destruct (receive_inv _ id st st1 Hio HI E); by auto. }
  destruct (bool_decide (ex_queue st = []) && negb (bool_decide (ex_deferred st = ∅))) eqn:Ew.
  - destruct (nextDeferredAt st) as [next|]; [|by intros [= <- <-]; auto]. destruct (next <=? wa_now w); [by intros [= <- <-]; auto|].
    destruct (wa_arrival w) as [id| |]; [destruct (bool_decide (ex_active st = [])); [done|apply Hrec]|by intros [= <- <-]; auto|].
    intros [= <- <-]. left. by split.
  - destruct (bool_decide (ex_active st = [])) eqn:Ei; [|destruct (wa_arrival w) as [id| |]; [apply Hrec|done|done]].
    apply bool_decide_eq_true in Ei. intros [= <- <-]. right. split; [done|left]. split; [done|]. destruct Hne as [Hq|]; [|done].
    rewrite bool_decide_eq_true_2 in Ew by done. cbn in Ew. by apply negb_false_iff, bool_decide_eq_true in Ew.
Qed.

Lemma top_inv now order st : inv st → let r := topStep p now order st in inv r.2 ∧ (r.1 = LoopTop ∨ r.1 = Dispatching ∨ r.1 = Exited ∧ finished r.2).
Proof.
  intros HI. unfold topStep. rewrite (proj1 (iv_halt _ _ _ _ _ _ _ HI)). destruct (negb (loopCondition st)) eqn:El.
  - split; [done|]. right; right. split; [done|]. unfold loopCondition in El. rewrite (proj1 (iv_halt _ _ _ _ _ _ _ HI)) in El. cbn in El.
    apply negb_true_iff, orb_false_iff in El as [El E3]. apply orb_false_iff in El as [E1 E2]. apply negb_false_iff, bool_decide_eq_true in E1, E2, E3. by split_and!.
  - destruct (moveDue_inv now order st HI) as [HI1 _]. destruct (moveDue p now order st) as [[|] st1]; cbn in *; by auto.
Qed.

(** * Steps of the system *)

(** Steps in which skips go through, dispatched tasks answer, and a goroutine makes a store
    call only while no result waits to be received. *)
Inductive calm_step : phase * ExecState → phase * ExecState → Prop :=
| calm_top now order st : order ≡ₚ (map_to_list (ex_deferred st)).*1 → calm_step (LoopTop, st) (topStep p now order st)
| calm_dispatch io st : (∀ t, t ∈ pl_tasks p → gives t (di_task (io t))) → calm_step (Dispatching, st) (dispatchStep uuid_String error_text p io st)
| calm_wait w st r : quiet (wa_skip w) → await uuid_String p w st = Some r → calm_step (Waiting, st) r
| calm_call (i : nat) id call ph st proc db : (∀ x r, (x, Returned r) ∉ ex_active st) →
    ex_active st !! i = Some (id, Next call) → call (ex_db st) = (proc, db) →
    calm_step (ph, st) (ph, set_exactive (<[i := (id, proc)]> (ex_active st)) (set_exstore (ex_tokens st) db st)).

Lemma calm_sys s s' : calm_step s s' → sys_step uuid_String error_text p s s'.
Proof. destruct 1; by econstructor. Qed.

(** The invariant of the system. *)
Definition sound (s : phase * ExecState) : Prop :=
  stopped s.2 ∨ inv s.2 ∧ match s.1 with Waiting => ex_queue s.2 = [] ∨ ex_active s.2 ≠ [] | Exited => finished s.2 | _ => True end.

Lemma calm_sound s s' : calm_step s s' → sound s → sound s'.
Proof.
  intros [now order st _|io st Hg|w st [ph st'] Hio E|i id call ph st proc db Hpr Hi Hc] [H|[HI Hph]]; cbn in *.
  - left. by apply top_stopped.
  - right. destruct (top_inv now order st HI) as [H1 H2]. split; [done|]. by destruct H2 as [-> |[-> |[-> ?]]].
  - left. by apply dispatch_stopped.
  - destruct (dispatchStep_inv io st Hg HI) as [?|(H1 & H2 & H3)]; [by left|right]. split; [done|]. destruct (_.1); by auto.
  - left. by eapply await_stopped.
  - destruct (await_inv w st ph st' Hio HI Hph E) as [?|(H1 & [[-> ?]| ->])]; [by left|by right..].
  - by left.
  - right. split; [by apply (call_inv st i id call proc db)|]. destruct ph; try done.
    + destruct Hph as [?|Hne]; [by left|right]. cbn. intros E. apply Hne. by apply (f_equal length) in E; rewrite length_insert in E; apply length_zero_iff_nil.
    + destruct Hph as (_ & _ & E). by rewrite E in Hi.
Qed.

Lemma reach_sound s s' : rtc calm_step s s' → sound s → sound s'.
Proof. induction 1; [done|]. intros. by eauto using calm_sound. Qed.
End system.
