(* ===== verification/LocalRun.v ===== *)
(** A run in the in-process executor from start to end: the outcome of every task is the
    solution of the run's equations, and without failures the loop ends by itself. *)

From S2P Require Import Prelude TriggerRule Tables Store TxLogic RunState TaskOps RunOps Topology JobGraph SqlAdvance TaskTheorems RateLimit.
From S2P Require Import Register LocalExec LocalRows LocalTask LocalInv LocalLoop LocalSystem.

(** * Sources of the graph *)

(** A set of tasks that misses some task misses one whose predecessors it has. *)
Lemma frontier p (done : gset uuid) t : plan_ok p → t ∈ pl_tasks p → t ∉ done →
  ∃ x, x ∈ pl_tasks p ∧ x ∉ done ∧ ∀ q, q ∈ preds p x → q ∈ done.
Proof.
  intros HP. destruct (po_acyclic _ HP) as [rank Hr]. remember (rank t) as n eqn:En. revert t En. induction (lt_wf n) as [n _ IH]. intros t -> Ht Hd.
  destruct (decide (Exists (λ q, q ∉ done) (preds p t))) as [Hex|Hex].
  - apply Exists_exists in Hex as (q & Hq & Hqd). apply (IH (rank q) (Hr q t Hq) q eq_refl); [by apply (pred_task p HP q t)|done].
  - exists t. split_and!; [done|done|]. intros q Hq. destruct (decide (q ∈ done)); [done|]. destruct Hex. apply Exists_exists. by exists q.
Qed.

Section start.
Context (p : Plan) (a : Answers) (O : uuid → TaskStatus) (tokens : list RateLimitToken) (db : DB).
Hypothesis HP : plan_ok p.
Hypothesis HO : solves p a O.

Abbreviation R := (pl_runID p).

(** The database of a run that was registered and not started. *)
Record fresh : Prop := {
  fr_unique : rows_unique db;
  fr_catalog : catalog_ok p db;
  fr_row : ∀ t, t ∈ pl_tasks p → ∃ r, rowof R db t = Some r ∧ tr_Quarantine r = false ∧ tr_Status r = TaskStatusPending ∧
    tr_OutstandingPredecessors r = Z.of_nat (length (preds p t));
  fr_rows : ∀ r, r ∈ task_runs db → tr_JobRunID r = R → tr_TaskID r ∈ pl_tasks p;
}.
Hypothesis Hfresh : fresh.

Lemma fresh_pending t : t ∈ pl_tasks p → statusof R db t = Some TaskStatusPending ∧ live p db t = true.
Proof.
  intros Ht. destruct (fr_row Hfresh t Ht) as (r & Hr & _ & Hs & _). assert (statusof R db t = Some TaskStatusPending) as E by (unfold statusof; rewrite Hr; cbn; by rewrite Hs).
  split; [done|]. unfold live. by rewrite E.
Qed.

Lemma fresh_tight : tight p O db.
Proof.
  split; [apply Hfresh|apply Hfresh| | |].
  - intros t Ht. destruct (fr_row Hfresh t Ht) as (r & ? & ? & _). by exists r.
  - intros t s Ht. rewrite (proj1 (fresh_pending t Ht)). by intros [= <-].
  - intros t r Ht Hr. destruct (fr_row Hfresh t Ht) as (r' & Hr' & _ & _ & E). rewrite Hr in Hr'. injection Hr' as <-. rewrite E.
    pose proof (countb_le (live p db) (preds p t)). unfold liveCount. lia.
Qed.

Let rows := select (λ r, (tr_JobRunID r =? R)%N) (task_runs db).

Lemma run_row r : r ∈ rows → tr_TaskID r ∈ pl_tasks p ∧ rowof R db (tr_TaskID r) = Some r.
Proof.
  intros [Hr E%N.eqb_eq]%select_elem. split; [by apply (fr_rows Hfresh)|]. apply rowof_unique; [apply Hfresh|done|]. unfold task_key. by rewrite E.
Qed.

Lemma task_row t : t ∈ pl_tasks p → ∃ r, r ∈ rows ∧ tr_TaskID r = t.
Proof.
  intros Ht. destruct (fr_row Hfresh t Ht) as (r & Hr & _). apply rowof_key in Hr as [Hr [= E1 E2]]. exists r. split; [|done].
  apply select_elem. split; [done|]. by apply N.eqb_eq.
Qed.

(** Pending rows only set their counters. *)
Lemma loadTasks_pending l st : (∀ r, r ∈ l → r ∈ rows) → ∃ d, loadTasks l st = inr (set_exindegree d st) ∧
  ∀ t, d !! t = if decide (t ∈ map tr_TaskID l) then Some (Z.of_nat (length (preds p t))) else ex_indegree st !! t.
Proof.
  revert st. induction l as [|r l IH]; intros st Hl; cbn [loadTasks].
  { exists (ex_indegree st). split; [by destruct st|]. intros t. by rewrite decide_False by apply not_elem_of_nil. }
  destruct (run_row r) as [Ht Hr]; [apply Hl; by apply elem_of_cons; left|]. destruct (fr_row Hfresh _ Ht) as (r' & Hr' & _ & Hs & Hn).
  rewrite Hr in Hr'. injection Hr' as <-. rewrite Hs, Hn. cbn [orb].
  destruct (IH (set_exindegree (<[tr_TaskID r := Z.of_nat (length (preds p (tr_TaskID r)))]> (ex_indegree st)) st)) as (d & E & Hd);
    [intros; apply Hl; by apply elem_of_cons; right|].
  exists d. split; [exact E|]. intros t. rewrite Hd. cbn [map ex_indegree set_exindegree]. destruct (decide (t = tr_TaskID r)) as [->|Hne].
  - rewrite (decide_True (P := tr_TaskID r ∈ tr_TaskID r :: _)) by (by apply elem_of_cons; left). case_decide; [done|apply lookup_insert_eq].
  - rewrite lookup_insert_ne by done. apply decide_ext. rewrite elem_of_cons. naive_solver.
Qed.

Lemma pushReady_queue l st : ex_processed st = ∅ → NoDup (ex_queue st) → ex_inQueue st = list_to_set (ex_queue st) →
  ∃ q, pushReadyTasks p l st = set_exqueue q (list_to_set q) st ∧ NoDup q ∧
    ∀ t, t ∈ q ↔ t ∈ ex_queue st ∨ t ∈ map tr_TaskID l ∧ map_get 0 (ex_indegree st) t = 0.
Proof.
  revert st. induction l as [|r l IH]; intros st Hp Hnd Hin.
  { exists (ex_queue st). split_and!; [rewrite <- Hin; by destruct st|done|]. intros t. split; [by left|]. intros [?|[?%elem_of_nil _]]; done. }
  change (pushReadyTasks p (r :: l) st) with (pushReadyTasks p l (if is_processed st (tr_TaskID r) then st
    else if map_get 0 (ex_indegree st) (tr_TaskID r) =? 0 then push p (tr_TaskID r) st else st)).
  unfold is_processed at 1. rewrite Hp, bool_decide_eq_false_2 by apply not_elem_of_empty.
  destruct (map_get 0 (ex_indegree st) (tr_TaskID r) =? 0) eqn:E0.
  2:{ apply Z.eqb_neq in E0. destruct (IH st Hp Hnd Hin) as (q & -> & Hq & Hel). exists q. split_and!; [done|done|]. intros t. rewrite Hel. cbn [map]. rewrite elem_of_cons.
      naive_solver. }
  apply Z.eqb_eq in E0. unfold push, is_processed, is_queued. rewrite Hp, bool_decide_eq_false_2 by apply not_elem_of_empty. cbn [orb]. rewrite Hin.
  case_bool_decide as Hq.
  { rewrite elem_of_list_to_set in Hq. destruct (IH st Hp Hnd Hin) as (q & -> & Hnq & Hel). exists q. split_and!; [done|done|]. intros t. rewrite Hel. cbn [map]. rewrite elem_of_cons.
    naive_solver. }
  rewrite elem_of_list_to_set in Hq. set (q1 := sort_stable _ _). assert (q1 ≡ₚ tr_TaskID r :: ex_queue st) as Hq1 by (unfold q1; by rewrite sort_stable_perm, Permutation_app_comm).
  clearbody q1. destruct (IH (set_exqueue q1 ({[tr_TaskID r]} ∪ list_to_set (ex_queue st)) st)) as (q & -> & Hnq & Hel).
  - done.
  - cbn. rewrite Hq1. by constructor.
  - cbn. apply set_eq. intros x. rewrite elem_of_union, elem_of_singleton, !elem_of_list_to_set, Hq1, elem_of_cons. done.
  - exists q. split_and!; [done|done|]. intros t. rewrite Hel. cbn. rewrite Hq1, !elem_of_cons. naive_solver.
Qed.

Lemma source_runs t : t ∈ pl_tasks p → preds p t = [] → O t = an_status a t.
Proof.
  intros Ht E. rewrite (HO t Ht). unfold excluded, ruleHolds. rewrite E. cbn [existsb map].
  assert (SatisfiesTriggerRule (pl_rule p t) [] = true) as ->; [|done]. apply trigger_rule_spec. unfold rule_meaning.
  repeat case_match; try (by left); intros s Hs; by apply elem_of_nil in Hs.
Qed.

(** A fresh run starts, in a state that satisfies the invariant of the loop. *)
Lemma start_inv : ∃ st, startExec p tokens db = inr st ∧ inv p a O db ∅ [] st ∧ ex_deferred st = ∅ ∧ ex_active st = [] ∧ ex_processed st = ∅.
Proof.
  unfold startExec. fold rows. set (st0 := mkExec _ _ _ _ _ _ _ _ _ _ _ _). destruct (loadTasks_pending rows st0) as (d & -> & Hd); [done|].
  assert (∀ t, t ∈ pl_tasks p ↔ t ∈ map tr_TaskID rows) as Hids.
  { intros t. rewrite list_elem_of_fmap. split; [intros Ht; destruct (task_row t Ht) as (r & ? & <-); by exists r|]. intros (r & -> & Hr). by apply run_row. }
  destruct (pushReady_queue rows (set_exindegree d st0)) as (q & -> & Hnq & Hq); [done|constructor|done|]. cbn [ex_queue ex_indegree set_exindegree st0] in Hq.
  assert (∀ t, t ∈ pl_tasks p → d !! t = Some (Z.of_nat (length (preds p t)))) as Hdeg by (intros t Ht; rewrite Hd, decide_True; [done|by apply Hids]).
  assert (∀ t, t ∈ q ↔ t ∈ pl_tasks p ∧ preds p t = []) as Hsrc.
  { intros t. rewrite Hq, <- Hids. split.
    - intros [?%elem_of_nil|[Ht E]]; [done|]. split; [done|]. unfold map_get in E. rewrite (Hdeg t Ht) in E. change (Z.of_nat (length (preds p t)) = 0) in E.
      destruct (preds p t); [done|cbn in E; lia].
    - intros [Ht E]. right. split; [done|]. unfold map_get. by rewrite (Hdeg t Ht), E. }
  set (st := set_exqueue q (list_to_set q) (set_exindegree d st0)).
  assert (bool_decide (ex_queue st = []) && (ex_terminal st <? Z.of_nat (length (pl_tasks p))) = false) as ->.
  { case_bool_decide as E; [|done]. apply Z.ltb_ge. cbn in *. destruct (pl_tasks p) as [|t l] eqn:El; [cbn; lia|exfalso].
    destruct (frontier p ∅ t HP) as (x & Hx & _ & Hpx); [rewrite El; by apply elem_of_cons; left|apply not_elem_of_empty|].
    assert (x ∈ q) as Hxq. { apply Hsrc. rewrite <- El. split; [done|]. destruct (preds p x) as [|y k]; [done|]. exfalso. apply (not_elem_of_empty (C := gset uuid) y), Hpx. by apply elem_of_cons; left. }
    rewrite E in Hxq. by apply elem_of_nil in Hxq. }
  exists st. split; [done|]. split; [|done].
  assert (∀ t, waiting p ∅ st t = length (preds p t)) as Hw.
  { intros t. unfold waiting, countb. f_equal. apply List.forallb_filter_id, forallb_forall. intros x _. apply bool_decide_eq_true. left. apply not_elem_of_empty. }
  assert (∀ t, scheduled st t ↔ t ∈ q) as Hsch.
  { intros t. unfold scheduled. cbn. rewrite lookup_empty. split; [|by left]. intros [?|[?%elem_of_nil|[? [=]]]]; done. }
  split; try done.
  - apply fresh_tight.
  - intros t Ht. cbn in *. rewrite (Hdeg t Ht). eexists. split; [reflexivity|]. split; [by rewrite Hw|]. intros Hp. by destruct (not_elem_of_empty t Hp).
  - split_and!; [done|constructor|done].
  - split; [intros t _|intros t Ht; by apply elem_of_nil in Ht]. split; [apply not_elem_of_nil|apply lookup_empty].
  - intros t Ht _. rewrite Hw, Hsch, Hsrc. split; [intros E; split; [done|]; by apply length_zero_iff_nil|]. by intros [_ ->].
  - intros t [Ht E]%Hsch%Hsrc. split_and!; [done|apply not_elem_of_empty|by apply source_runs].
  - intros t Ht _ _. left. by apply fresh_pending.
  - intros t [[Ht _]%Hsrc|Ht]; [by apply fresh_pending|]. cbn in Ht. rewrite lookup_empty in Ht. by destruct Ht.
  - intros t proc Ht. by apply elem_of_nil in Ht.
  - intros t Ht _ E. cbn in E. by rewrite (proj2 (fresh_pending t Ht)) in E.
  - intros t Ht. by apply elem_of_nil in Ht.
  - intros x s Hx E. cbn in E. by rewrite (proj2 (fresh_pending x Hx)) in E.
Qed.
End start.

(** * The end *)

(** Nothing scheduled means nothing unprocessed. *)
Lemma finished_all p a O cat st : plan_ok p → inv p a O cat ∅ [] st → finished st → ∀ t, t ∈ pl_tasks p → t ∈ ex_processed st.
Proof.
  intros HP HI (Hq & Hd & Ha) t Ht. destruct (decide (t ∈ ex_processed st)) as [|Hn]; [done|exfalso].
  destruct (frontier p (ex_processed st) t HP Ht Hn) as (x & Hx & Hxp & Hpx).
  assert (scheduled st x) as Hs.
  { apply (iv_ready _ _ _ _ _ _ _ HI x Hx Hxp). apply waiting_zero. intros q Hin. split; [by apply Hpx|apply not_elem_of_empty]. }
  unfold scheduled, activeIDs in Hs. rewrite Hq, Hd, Ha, lookup_empty in Hs. destruct Hs as [?%elem_of_nil|[?%elem_of_nil|[? [=]]]]; done.
Qed.

Lemma finished_outcome p a O cat st : plan_ok p → inv p a O cat ∅ [] st → finished st →
  runReturn p st = None ∧ ∀ t, t ∈ pl_tasks p → ex_outcomes st !! t = Some (O t) ∧
    ∃ s, statusof (pl_runID p) (ex_db st) t = Some s ∧ IsTerminal s = true ∧ norm s = O t.
Proof.
  intros HP HI Hf. pose proof (finished_all p a O cat st HP HI Hf) as Hall. pose proof HI as []. split.
  - unfold runReturn. rewrite (proj2 iv_halt), iv_term. assert (ex_processed st = list_to_set (pl_tasks p)) as ->.
    { apply set_eq. intros t. rewrite elem_of_list_to_set. split; [apply iv_proc|apply Hall]. }
    rewrite size_list_to_set by apply HP. by rewrite Z.eqb_refl.
  - intros t Ht. specialize (Hall t Ht). split; [by rewrite iv_out, decide_True|]. destruct (ro_rows _ _ _ _ iv_db t Ht) as (r & Hr & _).
    destruct (iv_proc t Hall) as [_ Hl]. assert (statusof (pl_runID p) (ex_db st) t = Some (tr_Status r)) as E by (unfold statusof; by rewrite Hr).
    exists (tr_Status r). unfold live in Hl. rewrite E in Hl. apply negb_false_iff in Hl. split_and!; [done|done|]. by apply (ro_status _ _ _ _ iv_db).
Qed.

(** C4: Under the halt policy (the default), take a fresh run (a pending row per task with
    the counter of its predecessors, no other row, a consistent catalog) of an acyclic plan
    whose containers do not answer skipped. It starts, and when its loop ends after steps
    in which the store's skips go through, every task that is dispatched gives its answer
    (its store calls recover within their retries, it is not cancelled while it waits for a
    retry, and its container or its cache entry answers as given) and no task's store call
    overtakes a result that waits, then the run either returns the error that stopped it,
    or every task has in memory and in its row the status that the run's equations give:
    skipped when a successful branch excludes it or its trigger rule fails on its
    predecessors, and its container's answer otherwise. The error for unresolved tasks
    never occurs. *)
Theorem local_run_outcome p a O uuid_String error_text tokens db :
  plan_ok p → solves p a O → (∀ t, an_status a t ≠ TaskStatusSkipped) → pl_continueOnFailure p = false → fresh p db →
  ∃ st0, startExec p tokens db = inr st0 ∧
    ∀ st, rtc (calm_step p a uuid_String error_text db) (LoopTop, st0) (Exited, st) →
      match runReturn p st with
      | Some e => ex_runErr st = Some e
      | None => ∀ t, t ∈ pl_tasks p → ex_outcomes st !! t = Some (O t) ∧
          ∃ s, statusof (pl_runID p) (ex_db st) t = Some s ∧ IsTerminal s = true ∧ norm s = O t
      end.
Proof.
  intros HP HO Hans Hpol Hfresh. destruct (start_inv p a O tokens db HP HO Hfresh) as (st0 & E & HI & _). exists st0. split; [done|]. intros st Hreach.
  destruct (reach_sound p a O uuid_String error_text db HP HO Hans Hpol _ _ Hreach) as [[_ [e He]]|[HI' Hf]].
  - by right.
  - cbn in He. unfold runReturn. by rewrite He.
  - destruct (finished_outcome p a O db st HP HI' Hf) as [-> H]. exact H.
Qed.

(** * Termination *)

Section termination.
Context (p : Plan) (a : Answers) (O : uuid → TaskStatus) (uuid_String : uuid → string) (error_text : exec_error → string) (cat : DB).
Context (tio : uuid → TaskIO) (retries : nat).
Hypothesis HP : plan_ok p.
Hypothesis HO : solves p a O.
Hypothesis Hans : ∀ t, an_status a t ≠ TaskStatusSkipped.
Hypothesis Hgood : ∀ t, t ∈ pl_tasks p → O t = TaskStatusSucceeded ∨ O t = TaskStatusSkipped.
Hypothesis Htio : ∀ t, t ∈ pl_tasks p → gives p a uuid_String cat t (tio t) ∧ (Z.to_nat (ti_retries (tio t)) ≤ retries)%nat.

Abbreviation inv := (inv p a O cat ∅ []).

(** Calm steps of a run without rate limits whose pool takes every task. *)
Inductive smooth_step : phase * ExecState → phase * ExecState → Prop :=
| smooth_top now order st : order ≡ₚ (map_to_list (ex_deferred st)).*1 → smooth_step (LoopTop, st) (topStep p now order st)
| smooth_dispatch now faults st :
    smooth_step (Dispatching, st) (dispatchStep uuid_String error_text p (λ t, mkDispatchIO (inr None) now faults true (tio t)) st)
| smooth_wait w st r : quiet (wa_skip w) → await uuid_String p w st = Some r → smooth_step (Waiting, st) r
| smooth_call (i : nat) id call ph st proc db : (∀ x r, (x, Returned r) ∉ ex_active st) →
    ex_active st !! i = Some (id, Next call) → call (ex_db st) = (proc, db) →
    smooth_step (ph, st) (ph, set_exactive (<[i := (id, proc)]> (ex_active st)) (set_exstore (ex_tokens st) db st)).

(** The steps a task still needs at most, with [calls] left for one that runs. *)
Definition weight (calls : uuid → nat) (st : ExecState) (t : uuid) : nat :=
  if decide (t ∈ ex_processed st) then 0 else if decide (t ∈ activeIDs st) then calls t + 3 else 2 * S retries + 4.

Definition phaseWeight (ph : phase) : nat := match ph with LoopTop => 3 | Dispatching => 2 | Waiting => 1 | Exited => 0 end.

Definition measure (calls : uuid → nat) (s : phase * ExecState) : nat :=
  (phaseWeight s.1 + sum_list_with (weight calls s.2) (pl_tasks p))%nat.

Definition callsLeft (calls : uuid → nat) (st : ExecState) : Prop :=
  ∀ t proc, (t, proc) ∈ ex_active st → (∃ r, proc = Returned r) ∨ good p a O cat (calls t) t proc.

Record smooth (calls : uuid → nat) (s : phase * ExecState) : Prop := {
  sm_inv : inv s.2;
  sm_phase : match s.1 with Waiting => ex_queue s.2 = [] ∨ ex_active s.2 ≠ [] | Exited => finished s.2 | _ => True end;
  sm_deferred : ex_deferred s.2 = ∅;
  sm_calls : callsLeft calls s.2;
}.

Lemma sum_drop (w w' : uuid → nat) (l : list uuid) t d : t ∈ l → (∀ x, x ∈ l → w' x ≤ w x)%nat → (w' t + d ≤ w t)%nat →
  (sum_list_with w' l + d ≤ sum_list_with w l)%nat.
Proof.
  intros Ht Hle Hd. induction l as [|x l IH]; [by apply elem_of_nil in Ht|]. cbn.
  assert (w' x ≤ w x)%nat by (apply Hle; by apply elem_of_cons; left).
  assert (∀ y, y ∈ l → w' y ≤ w y)%nat as Hl by (intros; apply Hle; by apply elem_of_cons; right).
  assert (sum_list_with w' l ≤ sum_list_with w l)%nat. { clear -Hl. induction l as [|y l IH]; [done|]. cbn. pose proof (Hl y). rewrite elem_of_cons in H.
    assert (∀ z, z ∈ l → w' z ≤ w z)%nat by (intros; apply Hl; by apply elem_of_cons; right). specialize (IH H0). specialize (H (or_introl eq_refl)). lia. }
  apply elem_of_cons in Ht as [<-|Ht]; [lia|]. specialize (IH Ht Hl). lia.
Qed.

Lemma smooth_top_ok calls st now order : smooth calls (LoopTop, st) → order ≡ₚ (map_to_list (ex_deferred st)).*1 →
  smooth calls (topStep p now order st) ∧ (measure calls (topStep p now order st) < measure calls (LoopTop, st))%nat.
Proof.
  intros [HI _ Hd Hc] Ho. cbn in *. rewrite Hd, map_to_list_empty in Ho. apply Permutation_nil_r in Ho as ->.
  destruct (top_inv p a O uuid_String cat now [] st HI) as [H1 H2]. unfold topStep in *. rewrite (proj1 (iv_halt _ _ _ _ _ _ _ HI)) in *. cbn [moveDue] in *.
  destruct (negb (loopCondition st)); (split; [|unfold measure; cbn; lia]).
  - split; [done| |done|done]. by destruct H2 as [[=]|[[=]|[_ ?]]].
  - by split.
Qed.

Lemma smooth_dispatch_ok calls st now faults : smooth calls (Dispatching, st) →
  let s' := dispatchStep uuid_String error_text p (λ t, mkDispatchIO (inr None) now faults true (tio t)) st in
  ∃ calls', smooth calls' s' ∧ (measure calls' s' < measure calls (Dispatching, st))%nat.
Proof.
  intros [HI _ Hd Hc]. cbn in *. unfold dispatchStep. destruct (ex_queue st) as [|t queue] eqn:Hq.
  { exists calls. split; [|unfold measure; cbn; lia]. split; [done|by left|done|done]. }
  rewrite (proj1 (iv_halt _ _ _ _ _ _ _ HI)). cbn [orb]. destruct (Z.of_nat (length (ex_active st)) <? pl_maxParallel p) eqn:Em; cbn [negb].
  2:{ exists calls. split; [|unfold measure; cbn; lia]. split; [done| |done|done]. cbn. right. apply Z.ltb_ge in Em. pose proof (po_parallel _ HP).
      by destruct (ex_active st); [cbn in Em; lia|]. }
  destruct (popped_task p a O cat st t queue HI Hq) as (Ht & Hp & HOt & _ & Hna & _). unfold is_processed. cbn [ex_processed set_exqueue].
  rewrite bool_decide_eq_false_2 by done. unfold dispatch, acquireTaskRateLimit. cbn [di_rule di_submitted di_task].
  pose proof (runTask_good p a O uuid_String error_text cat HP HO t (tio t) Ht HOt (proj1 (Htio t Ht))) as Hg. destruct (Htio t Ht) as [_ Hr].
  set (n := (2 * S (Z.to_nat (ti_retries (tio t))))%nat) in *. exists (λ x, if decide (x = t) then n else calls x).
  pose proof (run_inv p a O uuid_String cat HP HO Hans st t queue HI Hq (ex_tokens st) _ n Hg) as HI'. split.
  - split; [exact HI'|done|done|]. intros x proc [Hx|Hx]%elem_of_app.
    + assert (x ≠ t) by (intros ->; apply Hna, list_elem_of_fmap; by exists (t, proc)). rewrite decide_False by done. by apply Hc.
    + apply list_elem_of_singleton in Hx as [= -> ->]. right. by rewrite decide_True.
  - unfold measure. cbn [fst snd phaseWeight]. enough (∀ w w' : nat, (w' + 1 ≤ w)%nat → (2 + w' < 2 + w)%nat) as He; [apply He|lia].
    apply (sum_drop _ _ _ t); [done| |].
    + intros x _. unfold weight, activeIDs. cbn. rewrite map_app. destruct (decide (x ∈ ex_processed st)); [done|]. destruct (decide (x = t)) as [->|Hx].
      * rewrite decide_True by (apply elem_of_app; right; by apply list_elem_of_singleton). rewrite decide_False by done. lia.
      * apply Nat.eq_le_incl, decide_ext. rewrite elem_of_app. cbn. rewrite list_elem_of_singleton. naive_solver.
    + unfold weight, activeIDs. cbn. rewrite map_app. rewrite !(decide_False (P := t ∈ ex_processed st)) by done.
      rewrite decide_True by (apply elem_of_app; right; by apply list_elem_of_singleton).
      rewrite (decide_True (P := t = t)) by done. rewrite (decide_False (P := t ∈ map fst (ex_active st))) by done. lia.
Qed.
(** The running tasks succeed. *)
Lemma running_succeeds st t : inv st → t ∈ activeIDs st → O t = TaskStatusSucceeded.
Proof.
  intros HI Ha. destruct (iv_sched _ _ _ _ _ _ _ HI t) as (Ht & _ & E); [by right; left|]. destruct (Hgood t Ht) as [|E']; [done|].
  rewrite E' in E. by destruct (Hans t).
Qed.

Lemma receive_ok calls w st r id : smooth calls (Waiting, st) → quiet (wa_skip w) →
  (st ← receive uuid_String p (wa_skip w) id st; Some (LoopTop, st)) = Some r → smooth calls r ∧ (measure calls r < measure calls (Waiting, st))%nat.
Proof.
  intros [HI _ Hd Hc] Hio. cbn in *. unfold receive. destruct (list_find _ _) as [[i [t pr]]|] eqn:E; [|done]. cbn. apply list_find_Some in E as (Hi & _ & _).
  destruct pr as [result|]; [|done]. intros [= <-]. destruct (received_task p a O cat st i t result HI Hi) as (Ha & Ht & Hp & _).
  pose proof (running_succeeds st t HI Ha) as HOt.
  destruct (success_inv p a O uuid_String cat HP HO Hans (wa_skip w) st i t result Hio HI Hi HOt) as (st' & E & HI' & Ea).
  destruct (received_carrier p a O cat st i t result HI Hi) as (err & ks & -> & _ & (C1 & _)). rewrite (proj2 C1 HOt) in E, Hi.
  assert (ex_deferred st' = ex_deferred st ∧ {[t]} ∪ ex_processed st ⊆ ex_processed st') as [Ed Ep].
  { unfold handleResult, is_processed in E. cbn [rs_id rs_err rs_skipped ex_processed set_exactive] in E. rewrite bool_decide_eq_false_2 in E by done.
    unfold handleSuccess in E. fold (receivedState st i t) in E. pose proof (applySkipped_extends p (wa_skip w) ks (receivedState st i t)) as (_ & E2 & E3).
    destruct (ex_halt _).
    - rewrite E in E2, E3. by split; [rewrite E2|].
    - destruct (settleAll_extends p (wa_skip w) (λ _ s, bool_decide (s ∈ ks)) (adjacent p t) (applySkipped p (wa_skip w) ks (receivedState st i t))) as (_ & E5 & E6).
      rewrite E in E5, E6. split; [by rewrite E5, E2|]. etransitivity; [exact E3|exact E6]. }
  rewrite (proj2 C1 HOt), E. destruct (active_delete (ex_active st) i t _ (proj1 (proj2 (iv_queue _ _ _ _ _ _ _ HI))) Hi) as [_ Hdel].
  assert (∀ x, x ∈ activeIDs st' → x ∈ activeIDs st) as Hsub.
  { intros x. unfold activeIDs. rewrite Ea, !list_elem_of_fmap. intros (y & -> & [Hy _]%Hdel). by exists y. }
  split.
  - split; [done|done|cbn; by rewrite Ed|]. intros x proc. cbn. rewrite Ea. intros [Hx _]%Hdel. by apply Hc.
  - unfold measure. cbn [fst snd phaseWeight]. enough (∀ v v' : nat, (v' + 3 ≤ v)%nat → (3 + v' < 1 + v)%nat) as He; [apply He|lia].
    apply (sum_drop _ _ _ t); [done| |].
    + intros x Hx. unfold weight. destruct (decide (x ∈ ex_processed st)) as [Hxp|Hxp]; [rewrite decide_True by set_solver; lia|].
      destruct (decide (x ∈ ex_processed st')) as [|Hxp']; [lia|]. assert (x ≠ t) as Hxt by set_solver.
      assert (x ∈ activeIDs st → x ∈ activeIDs st') as Hback.
      { unfold activeIDs. rewrite Ea, !list_elem_of_fmap. intros (y & -> & Hy). exists y. split; [done|]. by apply Hdel. }
      do 2 case_decide; try done; naive_solver.
    + unfold weight. rewrite (decide_True (P := t ∈ ex_processed st')) by set_solver. rewrite decide_False, decide_True by done. lia.
Qed.

Lemma smooth_wait_ok calls w st r : smooth calls (Waiting, st) → quiet (wa_skip w) → await uuid_String p w st = Some r →
  smooth calls r ∧ (measure calls r < measure calls (Waiting, st))%nat.
Proof.
  intros Hs Hio. pose proof Hs as [HI Hph Hd Hc]. cbn in *. unfold await. rewrite Hd, (proj1 (iv_halt _ _ _ _ _ _ _ HI)).
  rewrite (bool_decide_eq_true_2 (∅ = ∅)) by done. rewrite andb_false_r. destruct (bool_decide (ex_active st = [])) eqn:Ei.
  - intros [= <-]. apply bool_decide_eq_true in Ei. split; [|unfold measure; cbn; lia]. split; [done| |done|done]. cbn. destruct Hph as [?|?]; [|done]. by split_and!.
  - destruct (wa_arrival w) as [id| |]; [|done|done]. by apply receive_ok.
Qed.

Lemma smooth_call_ok calls (i : nat) id call ph st proc db : smooth calls (ph, st) → (∀ x r, (x, Returned r) ∉ ex_active st) →
  ex_active st !! i = Some (id, Next call) → call (ex_db st) = (proc, db) →
  let s' := (ph, set_exactive (<[i := (id, proc)]> (ex_active st)) (set_exstore (ex_tokens st) db st)) in
  ∃ calls', smooth calls' s' ∧ (measure calls' s' < measure calls (ph, st))%nat.
Proof.
  intros [HI Hph Hd Hc] Hpr Hi Hcall. cbn in *. fold (called st i id proc db). set (st' := called st i id proc db).
  pose proof (call_inv p a O uuid_String cat HP HO Hans st i id call proc db HI Hi Hcall Hpr) as HI'. pose proof (called_ids st i id call proc db Hi) as Eids.
  destruct (called_facts p a O cat st i id call proc db HI Hi Hcall) as (Ha & Ht & Hp & Hl & _).
  assert (∃ n, (n + 1 ≤ calls id)%nat ∧ ((∃ r, proc = Returned r) ∨ good p a O cat n id proc)) as (n & Hn & Hg).
  { destruct (Hc id (Next call)) as [[r [=]]|Hg]; [by eapply list_elem_of_lookup_2|]. destruct (calls id) as [|n]; [done|]. exists n. split; [lia|].
    specialize (Hg (ex_db st) (iv_db _ _ _ _ _ _ _ HI) (iv_cat _ _ _ _ _ _ _ HI) Hl). rewrite Hcall in Hg.
    destruct Hg as (_ & _ & [(s & _ & _ & ?)|(err & ks & -> & _)]); [by right|left; by eexists]. }
  exists (λ x, if decide (x = id) then n else calls x). split.
  - split; [exact HI'| |done|].
    + cbn. destruct ph; try done; [destruct Hph as [?|Hne]; [by left|right]|].
      * intros E. apply Hne. apply (f_equal length) in E. unfold st', called in E. cbn in E. rewrite length_insert in E. by apply length_zero_iff_nil.
      * destruct Hph as (_ & _ & E). by rewrite E in Hi.
    + intros x pr Hx. apply (called_active p a O cat st i id call proc db HI Hi Hcall) in Hx as [[= -> ->]|[Hx Hne]]; [by rewrite decide_True|].
      rewrite decide_False by done. by apply Hc.
  - unfold measure. cbn [fst snd]. enough (∀ v v' : nat, (v' + 1 ≤ v)%nat → (phaseWeight ph + v' < phaseWeight ph + v)%nat) as He; [apply He|lia].
    assert (∀ x, weight (λ x, if decide (x = id) then n else calls x) st' x =
      if decide (x ∈ ex_processed st) then 0%nat else if decide (x ∈ activeIDs st) then ((if decide (x = id) then n else calls x) + 3)%nat else (2 * S retries + 4)%nat) as Hw.
    { intros x. unfold weight, st'. by rewrite Eids. }
    apply (sum_drop _ _ _ id); [done| |].
    + intros x _. rewrite Hw. unfold weight. destruct (decide (x ∈ ex_processed st)); [done|]. destruct (decide (x ∈ activeIDs st)); [|done]. destruct (decide (x = id)) as [->|]; lia.
    + rewrite Hw. unfold weight. rewrite !(decide_False (P := id ∈ ex_processed st)), !(decide_True (P := id ∈ activeIDs st)), decide_True by done. lia.
Qed.

Lemma smooth_step_ok calls s s' : smooth_step s s' → smooth calls s → ∃ calls', smooth calls' s' ∧ (measure calls' s' < measure calls s)%nat.
Proof.
  intros [now order st Ho|now faults st|w st r Hio E|i id call ph st proc db Hpr Hi Hcall] Hs.
  - exists calls. by apply smooth_top_ok.
  - by apply smooth_dispatch_ok.
  - exists calls. by apply smooth_wait_ok with w.
  - by apply smooth_call_ok with call.
Qed.

Lemma smooth_bound n calls s s' : nsteps smooth_step n s s' → smooth calls s → (n ≤ measure calls s)%nat ∧ ∃ calls', smooth calls' s'.
Proof.
  intros H. revert calls. induction H as [s|n s s1 s' Hs _ IH]; intros calls Hsm; [split; [lia|by exists calls]|].
  destruct (smooth_step_ok calls s s1 Hs Hsm) as (calls1 & Hsm1 & Hlt). destruct (IH calls1 Hsm1) as [Hn ?]. split; [lia|done].
Qed.

(** The system is never stuck before the loop ends. *)
Lemma smooth_progress calls s : smooth calls s → s.1 ≠ Exited → ∃ s', smooth_step s s'.
Proof.
  destruct s as [[] st]; intros [HI Hph Hd Hc] Hne; cbn in *; [eexists; by apply (smooth_top 0)|eexists; apply (smooth_dispatch 0 (λ _, None))| |done].
  destruct (ex_active st) as [|[x0 pr0] l] eqn:Ea.
  { eexists. apply (smooth_wait (mkWaitIO 0 TimerFired (mkSkipIO 0 (λ _, None)))); [by intros t|]. unfold await. cbn.
    rewrite Ea, Hd, (bool_decide_eq_true_2 (∅ = ∅)) by done. by rewrite andb_false_r, bool_decide_eq_true_2. }
  destruct (existsb (λ g : uuid * Proc, match g.2 with Returned _ => true | Next _ => false end) (ex_active st)) eqn:Hex.
  - apply existsb_exists in Hex as ([x [r|]] & Hx%list_elem_of_In & Hr); [|done]. destruct (list_find (λ g : uuid * Proc, g.1 = x) (ex_active st)) as [[i g]|] eqn:Ef.
    2:{ apply list_find_None in Ef. rewrite Forall_forall in Ef. by destruct (Ef _ Hx). }
    assert (g = (x, Returned r)) as ->.
    { apply list_find_Some in Ef as (Hi & E & _). destruct g as [y pr]. cbn in E. subst y. f_equal. eapply active_unique; [|by eapply list_elem_of_lookup_2|exact Hx]. apply HI. }
    eexists. apply (smooth_wait (mkWaitIO 0 (ResultOf x) (mkSkipIO 0 (λ _, None)))); [by intros t|]. unfold await. cbn [wa_arrival wa_skip].
    rewrite Hd, (bool_decide_eq_true_2 (∅ = ∅)), andb_false_r by done. rewrite bool_decide_eq_false_2 by (by rewrite Ea). unfold receive. rewrite Ef. reflexivity.
  - assert (∀ x r, (x, Returned r) ∉ ex_active st) as Hpr.
    { intros x r Hx%list_elem_of_In. apply not_true_iff_false in Hex. apply Hex, existsb_exists. by exists (x, Returned r). }
    destruct pr0 as [r|call]; [destruct (Hpr x0 r); rewrite Ea; by apply elem_of_cons; left|]. destruct (call (ex_db st)) as [proc db] eqn:Ecall.
    eexists. apply (smooth_call 0 x0 call _ st proc db); [done|by rewrite Ea|done].
Qed.
End termination.

(** C5: A fresh run of an acyclic plan whose tasks succeed when they run ends by itself,
    under either policy: when the pool accepts every task, no task has a rate limit, a
    result is received before another store call is made, the store's calls recover within
    their retries and a task has at most [retries] retries, the system of loop and
    goroutines is never stuck before the loop ends, takes at most
    3 + n * (2 * retries + 6) steps for n tasks, and at the end the run returns without an
    error and every task has the status of the run's equations. *)
Theorem local_run_terminates p a O uuid_String error_text tokens db tio retries :
  plan_ok p → solves p a O → (∀ t, an_status a t ≠ TaskStatusSkipped) → fresh p db →
  (∀ t, t ∈ pl_tasks p → O t = TaskStatusSucceeded ∨ O t = TaskStatusSkipped) →
  (∀ t, t ∈ pl_tasks p → gives p a uuid_String db t (tio t) ∧ (Z.to_nat (ti_retries (tio t)) ≤ retries)%nat) →
  ∃ st0, startExec p tokens db = inr st0 ∧
    ∀ n s, nsteps (smooth_step p uuid_String error_text tio) n (LoopTop, st0) s →
      (n ≤ 3 + length (pl_tasks p) * (2 * retries + 6))%nat ∧
      match s with
      | (Exited, st) => runReturn p st = None ∧ ∀ t, t ∈ pl_tasks p → ex_outcomes st !! t = Some (O t) ∧
          ∃ x, statusof (pl_runID p) (ex_db st) t = Some x ∧ IsTerminal x = true ∧ norm x = O t
      | _ => ∃ s', smooth_step p uuid_String error_text tio s s'
      end.
Proof.
  intros HP HO Hans Hfresh Hgood Htio. destruct (start_inv p a O tokens db HP HO Hfresh) as (st0 & E & HI & Hd & Ha & Hp). exists st0. split; [done|].
  assert (smooth p a O db (λ _, 0%nat) (LoopTop, st0)) as Hs0.
  { split; [done|done|done|]. intros t proc Ht. cbn in Ht. rewrite Ha in Ht. by apply elem_of_nil in Ht. }
  intros n s Hn. destruct (smooth_bound p a O uuid_String error_text db tio retries HP HO Hans Hgood Htio n _ _ s Hn Hs0) as [Hle (calls & Hs)]. split.
  - unfold measure in Hle. cbn [fst snd phaseWeight] in Hle.
    assert (sum_list_with (weight retries (λ _, 0%nat) st0) (pl_tasks p) ≤ length (pl_tasks p) * (2 * retries + 6))%nat; [|lia].
    clear -Hp Ha. induction (pl_tasks p) as [|t l IH]; [done|]. cbn. unfold weight at 1, activeIDs. rewrite Hp, Ha.
    rewrite !decide_False by (apply not_elem_of_empty || apply not_elem_of_nil). lia.
  - destruct s as [[] st]; try (by eapply smooth_progress). apply (finished_outcome p a O db); [done|apply Hs|apply Hs].
Qed.

(** * A branch and a join *)

(** [pick] chooses between [left] and [right]; [join] wants one success. The rows are those
    of the registration, the graph is the one the executor builds. *)
Definition pick_db : DB :=
  mkDB [] [mkTask 1 7 "pick" 0 "branch" "" 0 ∅; mkTask 2 7 "left" 1 "task" "" 0 ∅; mkTask 3 7 "right" 2 "task" "" 0 ∅;
           mkTask 4 7 "join" 3 "task" TriggerRuleOneSuccess 0 ∅]
    [mkTaskEdge 7 1 2; mkTaskEdge 7 1 3; mkTaskEdge 7 2 4; mkTaskEdge 7 3 4]
    [mkJobRun 100 7 None 0 "running" 2 BlobEmpty "" false 0 None] [] [] [] [] [].

Definition pick_start : DB := (RegisterTasks (λ _, None) reg_fresh 5 100 (jobInputs reg_atoms 7 pick_db) pick_db).2.

Definition pick_rule (t : uuid) : string := if (t =? 4)%N then TriggerRuleOneSuccess else TriggerRuleAllSuccess.
Definition pick_plan : Plan := mkPlan 100 [1; 2; 3; 4]%N (jobGraphOf 7 pick_db) pick_rule 2 false.

Definition pick_answers : Answers := mkAnswers (λ _, TaskStatusSucceeded) (λ t, if (t =? 1)%N then [3%N] else []).
Definition pick_outcome (t : uuid) : TaskStatus := if (t =? 3)%N then TaskStatusSkipped else TaskStatusSucceeded.

(** The second attempt of a task executes; the first one fails to start its container. *)
Definition pick_attempt (t : uuid) (n : Z) : AttemptIO :=
  mkAttemptIO 10 (if n =? 1 then Some "no image" else None) "rt" (λ _, None)
    (inr ("success", ∅, if (t =? 1)%N then ["left"] else [])) None (λ i, if (i <? 3)%nat then Some ErrContention else None) None None false.
Definition pick_task (t : uuid) : TaskIO := mkTaskIO false 1 0 false None (pick_attempt t).

Definition show (t : uuid) : string := "".
Definition show_error (e : exec_error) : string := "error".

Ltac each H := repeat (apply elem_of_cons in H as [->|H]); [..|by apply elem_of_nil in H].

Lemma pick_plan_ok : plan_ok pick_plan.
Proof.
  assert (∀ t, t ∈ [1; 2; 3; 4]%N ∨ adjacent pick_plan t = []) as Hdom.
  { intros t. destruct (g_adjacency (jobGraphOf 7 pick_db) !! t) eqn:E; [left|right; change (default [] (g_adjacency (jobGraphOf 7 pick_db) !! t) = []); by rewrite E].
    apply elem_of_dom_2 in E. assert (dom (g_adjacency (jobGraphOf 7 pick_db)) = list_to_set [1; 2; 3; 4]%N) as E' by (vm_compute; reflexivity).
    rewrite E' in E. by apply elem_of_list_to_set in E. }
  split.
  - apply buildGraph_ok.
  - decide_vm.
  - intros t. destruct (Hdom t) as [Ht|E]; [each Ht; decide_vm|rewrite E; constructor].
  - intros t s Hs. destruct (Hdom t) as [Ht|E]; [|rewrite E in Hs; by apply elem_of_nil in Hs]. split; [|done].
    each Ht; vm_compute in Hs; each Hs; decide_vm.
  - intros t Ht. cbn in Ht. each Ht; vm_compute; by eexists.
  - vm_compute. reflexivity.
  - exists N.to_nat. intros q t Hq. apply (go_edges _ (buildGraph_ok _ _)) in Hq. change (t ∈ adjacent pick_plan q) in Hq.
    destruct (Hdom q) as [Ht|E]; [|rewrite E in Hq; by apply elem_of_nil in Hq]. each Ht; vm_compute in Hq; each Hq; vm_compute; lia.
  - vm_compute. reflexivity.
Qed.

Lemma pick_solves : solves pick_plan pick_answers pick_outcome.
Proof. intros t Ht. change (t ∈ [1; 2; 3; 4]%N) in Ht. each Ht; vm_compute; reflexivity. Qed.

Lemma pick_fresh : fresh pick_plan pick_start.
Proof.
  split.
  - unfold rows_unique. decide_vm.
  - split.
    + eexists. split; [vm_compute; reflexivity|done].
    + intros t Ht. change (t ∈ [1; 2; 3; 4]%N) in Ht. each Ht; (eexists; split_and!; [vm_compute; reflexivity|vm_compute; reflexivity|decide_vm|vm_compute; done]).
    + intros t Ht. change (t ∈ [1; 2; 3; 4]%N) in Ht. right. each Ht; vm_compute; done.
  - intros t Ht. change (t ∈ [1; 2; 3; 4]%N) in Ht. each Ht; (eexists; split_and!; vm_compute; reflexivity).
  - intros r Hr _. assert (map tr_TaskID (task_runs pick_start) = [1; 2; 3; 4]%N) as E by (vm_compute; reflexivity).
    change (tr_TaskID r ∈ [1; 2; 3; 4]%N). rewrite <- E. apply list_elem_of_fmap. by exists r.
Qed.

Lemma pick_gives t : t ∈ pl_tasks pick_plan → gives pick_plan pick_answers show pick_start t (pick_task t) ∧ (Z.to_nat (ti_retries (pick_task t)) ≤ 1)%nat.
Proof.
  intros Ht. split; [|done]. split.
  - intros n. cbn. split_and!; [exists 0%nat|exists 3%nat|done|done]; (split_and!; [lia| |done]); [lia|].
    intros i Hi. by destruct i as [|[|[|i]]]; [..|lia].
  - change (t ∈ [1; 2; 3; 4]%N) in Ht. each Ht; (split; [vm_compute; reflexivity|intros _; eexists _, _; split_and!; [vm_compute; reflexivity|vm_compute; reflexivity|]; intros s Hs; vm_compute in Hs; each Hs; decide_vm]).
Qed.

Lemma local_run_outcome_witness : ∃ st0, startExec pick_plan [] pick_start = inr st0 ∧
  ∀ st, rtc (calm_step pick_plan pick_answers show show_error pick_start) (LoopTop, st0) (Exited, st) →
    runReturn pick_plan st = None → ex_outcomes st !! 3%N = Some TaskStatusSkipped ∧ ex_outcomes st !! 4%N = Some TaskStatusSucceeded.
Proof.
  destruct (local_run_outcome pick_plan pick_answers pick_outcome show show_error [] pick_start pick_plan_ok pick_solves) as (st0 & E & H); [done|reflexivity|apply pick_fresh|].
  exists st0. split; [done|]. intros st Hr Hn. specialize (H st Hr). rewrite Hn in H. split; [apply (H 3%N)|apply (H 4%N)]; decide_vm.
Defined.

Lemma local_run_terminates_witness : ∃ st0, startExec pick_plan [] pick_start = inr st0 ∧
  ∀ n s, nsteps (smooth_step pick_plan show show_error pick_task) n (LoopTop, st0) s → (n ≤ 35)%nat ∧
    (s.1 = Exited → runReturn pick_plan s.2 = None).
Proof.
  destruct (local_run_terminates pick_plan pick_answers pick_outcome show show_error [] pick_start pick_task 1 pick_plan_ok pick_solves)
    as (st0 & E & H); [done|apply pick_fresh| |apply pick_gives|].
  - intros t Ht. change (t ∈ [1; 2; 3; 4]%N) in Ht. each Ht; vm_compute; by auto.
  - exists st0. split; [done|]. intros n s Hn. destruct (H n s Hn) as [Hle Hs]. split; [exact Hle|]. destruct s as [ph st]. cbn. intros ->. apply Hs.
Defined.
