(* ===== verification/LocalModes.v ===== *)
(** The execution modes of a run agree: the in-process executor, which advances rows by
    SQL while its loop keeps counters, and the run owner, which advances a topology in
    memory, give every task of a job the same outcome. *)

From S2P Require Import Prelude TriggerRule Tables Store TxLogic RunState RunStateInv TaskOps RunOps Topology JobGraph SqlAdvance TaskTheorems RateLimit.
From S2P Require Import OwnerRun OwnerTheorems Register LocalExec LocalRows LocalTask LocalInv LocalLoop LocalSystem LocalRun.

(** * The plan of the catalog *)

Definition catalogRule (db : DB) (t : uuid) : string :=
  match first (select (λ x, (t_ID x =? t)%N) (tasks_tbl db)) with
  | Some task => normalizedTriggerRule (t_TriggerRule task)
  | None => ""
  end.

(** A catalog whose identifiers, edges and positions are unique. *)
Record catalog_wf (db : DB) (jobID : uuid) : Prop := {
  cw_ids : NoDup (map t_ID (tasks_tbl db));
  cw_edges : ∀ t, t ∈ tasks_tbl db → edges_consistent db t;
  cw_pairs : NoDup (map (λ e, (e_FromTaskID e, e_ToTaskID e)) (task_edges db));
  cw_places : NoDup (map (λ t, (t_Position t, t_CreatedAt t)) (select (λ t, (t_JobID t =? jobID)%N) (tasks_tbl db)));
}.

(** * Rules and tasks of the loaded topology *)

Lemma addEdges_rules t l : TriggerRule (fold_left addEdges l t) = TriggerRule t ∧ Order (fold_left addEdges l t) = Order t.
Proof.
  revert t. induction l as [|[from tos] l IH]; intros t; [done|]. simpl. destruct (IH (addEdges t (from, tos))) as [-> ->].
  unfold addEdges. simpl. clear IH. revert t. induction tos as [|to tos IH]; intros t; [done|]. simpl.
  destruct (IH (addEdge from t to)) as [-> ->]. unfold addEdge. by destruct (Order t !! to).
Qed.

Lemma addTasks_rule t idx l id rule : NoDup (map fst l) → (id, rule) ∈ l → TriggerRule (addTasks t idx l) !! id = Some rule.
Proof.
  assert (∀ l t idx, id ∉ map fst l → TriggerRule (addTasks t idx l) !! id = TriggerRule t !! id) as Hout.
  { clear. induction l as [|[i r] l IH]; intros t idx Hn; [done|]. simpl in *. rewrite IH by set_solver. simpl.
    rewrite lookup_insert_ne; [done|set_solver]. }
  revert t idx. induction l as [|[i r] l IH]; intros t idx Hnd Hin; [set_solver|]. simpl in *.
  inversion Hnd as [|? ? Hni Hnd']; subst. apply elem_of_cons in Hin as [[= <- <-]|Hin]; [|by apply IH].
  rewrite Hout by done. simpl. by rewrite lookup_insert_eq.
Qed.

Section loaded.
Context (db : DB) (runID : uuid) (jobRun : JobRun) (T : RunTopology).
Hypothesis run_found : findRun db runID = Some jobRun.
Hypothesis not_replayed : jr_Quarantine jobRun = false.
Hypothesis wf : catalog_wf db (jr_JobID jobRun).
Hypothesis loaded : LoadRunTopology db runID = inr T.

Lemma loaded_topology : T = buildTopology (map (λ t, (t_ID t, normalizedTriggerRule (t_TriggerRule t))) (jobTasks (jr_JobID jobRun) db))
  (map (λ t, (t_ID t, map e_ToTaskID (successorEdgesTx db t))) (jobTasks (jr_JobID jobRun) db)).
Proof using run_found not_replayed loaded. unfold LoadRunTopology in loaded. rewrite run_found, not_replayed in loaded. by injection loaded. Qed.

Lemma loaded_tasks t : t ∈ dom (Order T) ↔ t ∈ map t_ID (jobTasks (jr_JobID jobRun) db).
Proof using run_found not_replayed wf loaded.
  rewrite loaded_topology. unfold buildTopology. destruct (addEdges_rules (addTasks emptyTopology 0
    (map (λ t, (t_ID t, normalizedTriggerRule (t_TriggerRule t))) (jobTasks (jr_JobID jobRun) db)))
    (map (λ t, (t_ID t, map e_ToTaskID (successorEdgesTx db t))) (jobTasks (jr_JobID jobRun) db))) as [_ ->].
  rewrite addTasks_dom, map_map. simpl. set_solver.
Qed.

Lemma loaded_rule t : t ∈ map t_ID (jobTasks (jr_JobID jobRun) db) → rule_of T t = catalogRule db t.
Proof using run_found not_replayed wf loaded.
  intros (task & -> & Ht)%list_elem_of_fmap. unfold catalogRule, rule_of, map_get.
  rewrite (first_unique t_ID (tasks_tbl db) task); [|apply wf|by eapply jobTasks_elem].
  rewrite loaded_topology. unfold buildTopology. destruct (addEdges_rules (addTasks emptyTopology 0
    (map (λ t, (t_ID t, normalizedTriggerRule (t_TriggerRule t))) (jobTasks (jr_JobID jobRun) db)))
    (map (λ t, (t_ID t, map e_ToTaskID (successorEdgesTx db t))) (jobTasks (jr_JobID jobRun) db))) as [-> _].
  rewrite (addTasks_rule _ _ _ _ (normalizedTriggerRule (t_TriggerRule task))); [done| |].
  - rewrite map_map. by apply jobTasks_ids, wf.
  - apply list_elem_of_fmap. by exists task.
Qed.

Lemma loaded_preds p t : pl_graph p = jobGraphOf (jr_JobID jobRun) db → preds p t ≡ₚ predecessors_of T t.
Proof using run_found not_replayed wf loaded.
  intros E. destruct wf as [W1 W2 W3 W4]. unfold preds. rewrite E.
  by destruct (graph_agrees db runID jobRun T run_found not_replayed W1 W2 W3 W4 loaded t) as [HP _].
Qed.
End loaded.

(** * The equations of both modes *)

Lemma rule_perm rule l l' : l ≡ₚ l' → SatisfiesTriggerRule rule l = SatisfiesTriggerRule rule l'.
Proof.
  intros HP. apply eq_true_iff_eq. rewrite !trigger_rule_spec. unfold rule_meaning.
  assert (l = [] ↔ l' = []) as Hnil by (split; intros ->; [by apply Permutation_nil|by apply Permutation_nil_r in HP]).
  repeat case_match; rewrite ?Hnil; setoid_rewrite HP; done.
Qed.

(** A worker that answers without branch decisions, as the in-process executor sees it. *)
Definition plain_answers (f : uuid → TaskStatus) : Answers := mkAnswers f (λ _, []).

Lemma plain_excludes p f O t : excluded p (plain_answers f) O t = false.
Proof.
  unfold excluded. induction (preds p t) as [|q l IH]; [done|]. cbn [existsb]. rewrite IH, orb_false_r. apply andb_false_r.
Qed.

Lemma owner_solves db runID jobRun T p f rs :
  findRun db runID = Some jobRun → jr_Quarantine jobRun = false → catalog_wf db (jr_JobID jobRun) → LoadRunTopology db runID = inr T →
  pl_tasks p = map t_ID (jobTasks (jr_JobID jobRun) db) → pl_graph p = jobGraphOf (jr_JobID jobRun) db → catalog_ok p db →
  (∀ u, IsTerminal (f u) = true) → worker_run f T rs → IsComplete rs = true →
  solves p (plain_answers f) (λ t, default TaskStatusPending (status_at rs t)) ∧ ∀ t, t ∈ pl_tasks p → is_Some (status_at rs t).
Proof.
  intros Hj Hq Hwf HT Etasks Egraph Hcat Hf HR Hc. pose proof (LoadRunTopology_wf _ _ _ HT) as W.
  assert (∀ t, t ∈ pl_tasks p ↔ t ∈ dom (Order T)) as Htask by (intros t; rewrite Etasks; by rewrite (loaded_tasks db runID jobRun T)).
  assert (∀ t, t ∈ pl_tasks p → is_Some (status_at rs t)) as Hsome.
  { intros t Ht%Htask. rewrite (finished_equation f T rs t W Hf HR Hc Ht). by eexists. }
  split; [|done]. intros t Ht. rewrite plain_excludes. cbn [orb an_status plain_answers].
  rewrite (finished_equation f T rs t W Hf HR Hc) by by apply Htask. cbn [default from_option]. unfold ruleHolds.
  rewrite (loaded_rule db runID jobRun T) by (done || by rewrite <- Etasks).
  destruct (ca_task _ _ Hcat t Ht) as (task & Efirst & Erule & _). unfold catalogRule. rewrite Efirst, Erule.
  pose proof (loaded_preds db runID jobRun T Hj Hq Hwf HT p t Egraph) as HP.
  rewrite (rule_perm _ (omap (status_at rs) (predecessors_of T t)) (map (λ t, default TaskStatusPending (status_at rs t)) (preds p t))); [by destruct (SatisfiesTriggerRule _ _)|].
  rewrite <- HP. assert (∀ q, q ∈ preds p t → is_Some (status_at rs q)) as Hp.
  { intros q Hqt. rewrite HP in Hqt. apply Hsome, Htask. by apply (tw_closed _ W) in Hqt as [? _]. }
  clear -Hp. induction (preds p t) as [|q l IH]; [done|]. cbn. destruct (Hp q) as [s Es]; [by left|]. rewrite Es. cbn.
  rewrite IH; [done|]. intros q' Hq'. apply Hp. by right.
Qed.

(** C40: the execution modes agree. Take a run that is not quarantined, over a catalog with
    unique task identifiers, unique edges consistent with their tasks, and tasks that
    differ in position or creation time, whose rows are fresh, and the acyclic plan that
    [Run] builds from the catalog, under the halt policy. Let the containers answer by
    [f], without branch decisions, with terminal statuses other than skipped. Then the
    run owner, on the topology it loads, in whatever order tasks are dispatched, reported
    and requeued, and the in-process executor, in whatever interleaving of its loop and
    its goroutines (in which each task gives its answer, skips in the store succeed and no
    store call overtakes a waiting result), give every task the same outcome whenever the
    owner's run is complete and the executor's run returns no error; the row the executor
    leaves has that status too, a cached result counting as a success. *)
Theorem modes_agree db jobRun T p f rs uuid_String error_text tokens :
  findRun db (pl_runID p) = Some jobRun → jr_Quarantine jobRun = false → catalog_wf db (jr_JobID jobRun) →
  pl_tasks p = map t_ID (jobTasks (jr_JobID jobRun) db) → pl_graph p = jobGraphOf (jr_JobID jobRun) db →
  plan_ok p → pl_continueOnFailure p = false → fresh p db →
  (∀ u, IsTerminal (f u) = true ∧ f u ≠ TaskStatusSkipped) →
  LoadRunTopology db (pl_runID p) = inr T → worker_run f T rs → IsComplete rs = true →
  ∃ st0, startExec p tokens db = inr st0 ∧
    ∀ st, rtc (calm_step p (plain_answers f) uuid_String error_text db) (LoopTop, st0) (Exited, st) → runReturn p st = None →
      ∀ t, t ∈ pl_tasks p → ex_outcomes st !! t = status_at rs t ∧
        ∃ s, statusof (pl_runID p) (ex_db st) t = Some s ∧ status_at rs t = Some (norm s).
Proof.
  intros Hj Hq Hwf Etasks Egraph HP Hpol Hfresh Hf HT HR Hc.
  destruct (owner_solves db (pl_runID p) jobRun T p f rs) as [HO Hsome]; [done..|apply Hfresh|intros u; apply Hf|done|done|].
  destruct (start_inv p (plain_answers f) _ tokens db HP HO Hfresh) as (st0 & E & HI & _). exists st0. split; [done|].
  intros st Hreach Hret t Ht. destruct (Hsome t Ht) as [x Hx].
  destruct (reach_sound p (plain_answers f) _ uuid_String error_text db HP HO (λ u, proj2 (Hf u)) Hpol _ _ Hreach) as [[_ [e He]]|[HI' Hfin]].
  - by right.
  - cbn in He. unfold runReturn in Hret. by rewrite He in Hret.
  - destruct (finished_outcome _ _ _ db st HP HI' Hfin) as [_ H]. destruct (H t Ht) as [Ho (s & Hs & _ & Hn)].
    rewrite Hx in Ho, Hn |- *. cbn in Ho, Hn. split; [done|]. exists s. by rewrite Hn.
Qed.

(** * A diamond in both modes *)

Definition pick_topology : RunTopology :=
  match LoadRunTopology pick_start 100 with inr T => T | inl _ => emptyTopology end.

Lemma pick_loads : LoadRunTopology pick_start 100 = inr pick_topology.
Proof. vm_compute. reflexivity. Qed.

Lemma pick_catalog : catalog_wf pick_start 7.
Proof.
  split; [decide_vm| |decide_vm|decide_vm]. intros t Ht e He _. assert (tasks_tbl pick_start = tasks_tbl pick_db) as E by (vm_compute; reflexivity).
  assert (task_edges pick_start = task_edges pick_db) as E' by (vm_compute; reflexivity). rewrite E in Ht. rewrite E' in He.
  cbn in Ht, He. each Ht; each He; done.
Qed.

(** The owner serves the right side first. *)
Definition pick_owner_start : RunState :=
  NewRunState (elements (dom (Order pick_topology))) (elements (dom (Order pick_topology))) pick_topology 0.

Definition pick_owner : RunState :=
  default pick_owner_start (sched_run (λ _, TaskStatusSucceeded)
    [SDispatch 1; SReport 1; SDispatch 3; SDispatch 2; SReport 3; SReport 2; SDispatch 4; SReport 4]%N pick_owner_start).

Lemma pick_owner_run : worker_run (λ _, TaskStatusSucceeded) pick_topology pick_owner ∧ IsComplete pick_owner = true.
Proof.
  split; [|vm_compute; reflexivity]. exists (elements (dom (Order pick_topology))), (elements (dom (Order pick_topology))), 0.
  split; [apply key_order_elements|]. split; [apply key_order_elements|]. unfold pick_owner. fold pick_owner_start.
  destruct (sched_run _ _ pick_owner_start) as [rs|] eqn:E; [by apply sched_steps in E|apply rtc_refl].
Qed.

Lemma modes_agree_witness : ∃ st0, startExec pick_plan [] pick_start = inr st0 ∧
  ∀ st, rtc (calm_step pick_plan (plain_answers (λ _, TaskStatusSucceeded)) show show_error pick_start) (LoopTop, st0) (Exited, st) →
    runReturn pick_plan st = None → ex_outcomes st !! 3%N = status_at pick_owner 3.
Proof.
  destruct pick_owner_run as [H1 H2].
  destruct (modes_agree pick_start (mkJobRun 100 7 None 0 "running" 2 BlobEmpty "" false 0 None) pick_topology pick_plan
    (λ _, TaskStatusSucceeded) pick_owner show show_error []) as (st0 & E & H);
    [vm_compute; reflexivity|reflexivity|exact pick_catalog|vm_compute; reflexivity|vm_compute; reflexivity|exact pick_plan_ok|reflexivity
    |exact pick_fresh|intros u; split; [reflexivity|discriminate]|exact pick_loads|exact H1|exact H2|].
  exists st0. split; [exact E|]. intros st Hr Hn. apply (H st Hr Hn 3%N). decide_vm.
Defined.
