(* ===== verification/LocalFindings.v ===== *)
(** Divergences of the in-process executor, each by a schedule of a concrete run: a task the
    loop has skipped is skipped again when a late predecessor succeeds, so that its successors
    are counted down twice, and a run that returns the error of unresolved tasks is recorded
    as succeeded. *)

From S2P Require Import Prelude TriggerRule Tables Store RunState TaskOps RunOps Topology JobGraph SqlAdvance RateLimit.
From S2P Require Import Register LocalExec LocalRows LocalTask LocalSystem LocalRun.

(** * Schedules *)

(** One step of the system, chosen by a schedule. *)
Inductive choice : Type := Top | Dispatch | Receive (id : uuid) | Call (id : uuid).

Section schedule.
Context (p : Plan) (tio : uuid → TaskIO).

Definition choose (c : choice) (s : phase * ExecState) : option (phase * ExecState) :=
  match c, s with
  | Top, (LoopTop, st) => Some (topStep p 20 (map_to_list (ex_deferred st)).*1 st)
  | Dispatch, (Dispatching, st) => Some (dispatchStep show show_error p (λ t, mkDispatchIO (inr None) 20 (λ _, None) true (tio t)) st)
  | Receive id, (Waiting, st) => await show p (mkWaitIO 20 (ResultOf id) (mkSkipIO 20 (λ _, None))) st
  | Call id, (ph, st) =>
      match list_find (λ g : uuid * Proc, g.1 = id) (ex_active st) with
      | Some (i, (_, Next call)) =>
          let '(proc, db) := call (ex_db st) in Some (ph, set_exactive (<[i := (id, proc)]> (ex_active st)) (set_exstore (ex_tokens st) db st))
      | _ => None
      end
  | _, _ => None
  end.

Fixpoint schedule (cs : list choice) (s : phase * ExecState) : option (phase * ExecState) :=
  match cs with
  | [] => Some s
  | c :: cs => s ← choose c s; schedule cs s
  end.

Lemma choose_step c s s' : choose c s = Some s' → sys_step show show_error p s s'.
Proof.
  destruct c as [| |id|id], s as [[] st]; cbn; try done.
  1: intros [= <-]; by apply step_top.
  1: intros [= <-]; by apply step_dispatch.
  1: intros E; by eapply step_wait.
  all: destruct (list_find _ _) as [[i [x [r|call]]]|] eqn:Ef; try done; apply list_find_Some in Ef as (Hi & Ex & _); cbn in Ex; subst x;
    destruct (call (ex_db st)) as [proc db] eqn:Ec; intros [= <-]; by eapply step_call.
Qed.

Lemma schedule_reach cs s s' : schedule cs s = Some s' → rtc (sys_step show show_error p) s s'.
Proof.
  revert s. induction cs as [|c cs IH]; intros s; cbn; [by intros [= ->]|]. destruct (choose c s) as [s1|] eqn:E; [|done]. cbn. intros H.
  eapply rtc_l; [by eapply choose_step|by apply IH].
Qed.

(** A schedule from the start of a run reaches a state with a property. *)
Definition reaches (db : DB) (cs : list choice) (P : phase → ExecState → bool) : bool :=
  match startExec p [] db with
  | inl _ => false
  | inr st => match schedule cs (LoopTop, st) with Some (ph, st) => P ph st | None => false end
  end.

Lemma reaches_state db cs P : reaches db cs P = true →
  ∃ st0 ph st, startExec p [] db = inr st0 ∧ rtc (sys_step show show_error p) (LoopTop, st0) (ph, st) ∧ P ph st = true.
Proof.
  unfold reaches. destruct (startExec p [] db) as [|st0]; [done|]. destruct (schedule cs (LoopTop, st0)) as [[ph st]|] eqn:E; [|done].
  intros H. exists st0, ph, st. split_and!; [done|by eapply schedule_reach|done].
Qed.
End schedule.

(** The container of a task answers with a result. *)
Definition answering (results : uuid → string) (t : uuid) : TaskIO :=
  mkTaskIO false 0 0 false None (λ _, mkAttemptIO 10 None "rt" (λ _, None) (inr (results t, ∅, [])) None (λ _, None) None None false).

(** A task in flight: its goroutine has been started and its row is not finished. *)
Definition in_flight (p : Plan) (st : ExecState) (t : uuid) : bool :=
  bool_decide (t ∈ map fst (ex_active st)) && live p (ex_db st) t.

(** * A skip ahead of time *)

(** 1 -> 2 -> 3 <- 4, 3 -> 6 <- 5: task 6 waits for all its predecessors to be done. *)
Definition ahead_db : DB :=
  mkDB [] [mkTask 1 7 "a" 0 "task" "" 0 ∅; mkTask 2 7 "y" 1 "task" "" 0 ∅; mkTask 3 7 "x" 2 "task" "" 0 ∅; mkTask 4 7 "z" 3 "task" "" 0 ∅;
           mkTask 5 7 "v" 4 "task" "" 0 ∅; mkTask 6 7 "w" 5 "task" TriggerRuleAllDone 0 ∅]
    [mkTaskEdge 7 1 2; mkTaskEdge 7 2 3; mkTaskEdge 7 4 3; mkTaskEdge 7 3 6; mkTaskEdge 7 5 6]
    [mkJobRun 100 7 None 0 "running" 2 BlobEmpty "" false 0 None] [] [] [] [] [].
Definition ahead_start : DB := (RegisterTasks (λ _, None) reg_fresh 5 100 (jobInputs reg_atoms 7 ahead_db) ahead_db).2.
Definition ahead_plan : Plan :=
  mkPlan 100 [1; 2; 3; 4; 5; 6]%N (jobGraphOf 7 ahead_db) (λ t, if (t =? 6)%N then TriggerRuleAllDone else TriggerRuleAllSuccess) 3 true.
Definition ahead_result (t : uuid) : string := if (t =? 1)%N then "failure" else "success".

Definition ahead_schedule : list choice :=
  [Top; Dispatch; Dispatch; Dispatch; Dispatch; Call 1; Call 1; Receive 1; Top; Dispatch; Call 5; Call 4; Call 4; Receive 4; Top; Dispatch].

(** Under the continue policy, with every result received before the next store call, a
    task can start while a predecessor of its all-done rule still runs: the failure of task 1
    skips task 3 ahead of its predecessor 4, the success of 4 skips 3 once more (the loop over
    the successors of a success has no test of processed tasks) and counts the successor 6 of
    3 down twice, and four processed tasks count as five. *)
Lemma early_start_after_skip : ∃ st0 ph st, startExec ahead_plan [] ahead_start = inr st0 ∧
  rtc (sys_step show show_error ahead_plan) (LoopTop, st0) (ph, st) ∧
  5%N ∈ preds ahead_plan 6 ∧ in_flight ahead_plan st 6 = true ∧ in_flight ahead_plan st 5 = true ∧
  ex_terminal st = 5 ∧ size (ex_processed st) = 4%nat.
Proof.
  destruct (reaches_state ahead_plan (answering ahead_result) ahead_start ahead_schedule (λ _ st,
    in_flight ahead_plan st 6 && in_flight ahead_plan st 5 && (ex_terminal st =? 5) && (size (ex_processed st) =? 4)%nat)) as (st0 & ph & st & H1 & H2 & H3).
  - vm_compute. reflexivity.
  - apply andb_true_iff in H3 as [H3 H6%Nat.eqb_eq]. apply andb_true_iff in H3 as [H3 H5%Z.eqb_eq]. apply andb_true_iff in H3 as [H3 H4].
    exists st0, ph, st. split; [exact H1|]. split; [exact H2|]. split; [decide_vm|]. split; [exact H3|]. split; [exact H4|]. split; [exact H5|exact H6].
Qed.

(** * A result that waits *)

(** 1 -> 2 -> 4 <- 3, 4 -> 6 <- 5: task 2 runs when 1 fails, 6 when 4 and 5 are done. *)
Definition waits_db : DB :=
  mkDB [] [mkTask 1 7 "z" 0 "task" "" 0 ∅; mkTask 2 7 "m" 1 "task" TriggerRuleAllFailed 0 ∅; mkTask 3 7 "q" 2 "task" "" 0 ∅; mkTask 4 7 "s" 3 "task" "" 0 ∅;
           mkTask 5 7 "v" 4 "task" "" 0 ∅; mkTask 6 7 "w" 5 "task" TriggerRuleAllDone 0 ∅]
    [mkTaskEdge 7 1 2; mkTaskEdge 7 2 4; mkTaskEdge 7 3 4; mkTaskEdge 7 4 6; mkTaskEdge 7 5 6]
    [mkJobRun 100 7 None 0 StatusRunning 2 BlobEmpty "" false 0 None] [] [] [] [] [].
Definition waits_start : DB := (RegisterTasks (λ _, None) reg_fresh 5 100 (jobInputs reg_atoms 7 waits_db) waits_db).2.
Definition waits_rule (t : uuid) : string :=
  if (t =? 2)%N then TriggerRuleAllFailed else if (t =? 6)%N then TriggerRuleAllDone else TriggerRuleAllSuccess.
Definition waits_plan : Plan := mkPlan 100 [1; 2; 3; 4; 5; 6]%N (jobGraphOf 7 waits_db) waits_rule 3 false.

Definition waits_schedule : list choice :=
  [Top; Dispatch; Dispatch; Dispatch; Dispatch; Call 1; Call 3; Call 5; Call 3; Call 1; Receive 1; Top; Dispatch; Receive 3; Top; Dispatch; Dispatch].

Definition waits_twice : list choice := waits_schedule ++ [Call 6; Call 6; Call 5; Receive 5; Top; Dispatch].

(** Under the halt policy and without a failure, results received in another order than
    their tasks were completed make a task run twice: the completion of task 1 skips 2 and 4,
    the result of task 3 was stored before and is received after it, so that task 4 is
    skipped once more and task 6 starts while its predecessor 5 still runs; when 5 ends, 6 is
    dispatched again although its row has succeeded. *)
Lemma late_result_runs_task_twice : ∃ st0 ph st, startExec waits_plan [] waits_start = inr st0 ∧
  rtc (sys_step show show_error waits_plan) (LoopTop, st0) (ph, st) ∧
  map fst (ex_active st) = [6; 6]%N ∧ statusof 100 (ex_db st) 6 = Some TaskStatusSucceeded ∧ ex_runErr st = None.
Proof.
  destruct (reaches_state waits_plan (answering (λ _, "success")) waits_start waits_twice (λ _ st,
    bool_decide (map fst (ex_active st) = [6; 6]%N) && bool_decide (statusof 100 (ex_db st) 6 = Some TaskStatusSucceeded) &&
    match ex_runErr st with None => true | _ => false end)) as (st0 & ph & st & H1 & H2 & H3).
  - vm_compute. reflexivity.
  - apply andb_true_iff in H3 as [H3 H5]. apply andb_true_iff in H3 as [H3%bool_decide_eq_true H4%bool_decide_eq_true].
    exists st0, ph, st. split; [exact H1|]. split; [exact H2|]. split; [exact H3|]. split; [exact H4|].
    destruct (ex_runErr st); [discriminate|reflexivity].
Qed.

Definition waits_end : list choice :=
  waits_schedule ++ [Call 6; Call 6; Receive 6; Top; Dispatch; Call 5; Receive 5; Top].

(** When such a run ends, every task is done and none failed, and the run returns the error
    of unresolved tasks (seven of six), while the deferred completion reads the error
    variable, which is unset, and records the run as succeeded. *)
Lemma unresolved_run_recorded_succeeded : ∃ st0 st db, startExec waits_plan [] waits_start = inr st0 ∧
  rtc (sys_step show show_error waits_plan) (LoopTop, st0) (Exited, st) ∧
  runReturn waits_plan st = Some (ErrUnresolved 7 6) ∧
  completeRun show_error waits_plan (λ _, None) 90 st = (inr (), db) ∧ map jr_Status (job_runs db) = [StatusSucceeded].
Proof.
  destruct (reaches_state waits_plan (answering (λ _, "success")) waits_start waits_end (λ ph st,
    match ph, runReturn waits_plan st, completeRun show_error waits_plan (λ _, None) 90 st with
    | Exited, Some (ErrUnresolved 7 6), (inr _, db) => bool_decide (map jr_Status (job_runs db) = [StatusSucceeded])
    | _, _, _ => false
    end)) as (st0 & ph & st & H1 & H2 & H3).
  - vm_compute. reflexivity.
  - destruct ph; try discriminate H3. destruct (runReturn waits_plan st) as [e|] eqn:E1; [|discriminate H3].
    destruct (completeRun show_error waits_plan (λ _, None) 90 st) as [[e'|[]] db] eqn:E2; [by repeat case_match|].
    assert (e = ErrUnresolved 7 6 ∧ map jr_Status (job_runs db) = [StatusSucceeded]) as [-> H4].
    { clear H1 H2. repeat (case_match; try discriminate H3). subst. split; [reflexivity|]. by apply bool_decide_eq_true in H3. }
    exists st0, st, db. split; [exact H1|]. split; [exact H2|]. split; [exact E1|]. split; [exact E2|exact H4].
Qed.
