(* ===== verification/Dispatch.v ===== *)
(** The dispatch protocol (internal/dispatch/dispatch.go): the handlers of
    [/internal/dispatch] on a worker and [/internal/complete] on the run's owner,
    and the worker's inbound buffer (internal/worker/worker.go).

    A request is given by its method, its Authorization header and its decoded body
    ([None] is a body that does not parse). SHA-256 is an argument. The handlers run
    to completion one after the other; [faults] are the database errors of the
    successive attempts of a wrapped transaction. Metrics, logs and the text of the
    messages are left out, the reason labels are kept. *)

From S2P Require Import Prelude TriggerRule Tables Store RunState TaskOps Leases SqlAdvance Recovery.
From S2P Require Import Checkpoints OwnerManager.

(** * The worker's inbound buffer *)

Record InboundDispatch := mkInboundDispatch {
  id_Task : option TaskRun;
  id_OwnerBaseURL : string;
  id_OwnerGeneration : Z;
  id_Attempt : Z;
  id_WorkerNode : string;
}.

Inductive submit_error : Type := ErrInboundFull | ErrWorkerNotAccepting | ErrNilTask.

(** What the handler relies on: a rejected submission changes nothing, an accepted
    one is queued behind the others. *)
Class WorkerSubmitter (W : Type) := {
  SubmitDispatched : InboundDispatch → W → option submit_error * W;
  inbox : W → list InboundDispatch;
  submit_rejected : ∀ d w e w', SubmitDispatched d w = (Some e, w') → w' = w;
  submit_accepted : ∀ d w w', SubmitDispatched d w = (None, w') → inbox w' = inbox w ++ [d];
}.

(** [w.inbound]: nil until [WithInboundDispatch], then a buffered channel. *)
Record Worker := mkWorker { wk_inbound : option (nat * list InboundDispatch) }.

Definition WithInboundDispatch (poolCap : nat) (w : Worker) : Worker :=
  mkWorker (Some (if (1 <? poolCap)%nat then poolCap else 1%nat, [])).

Definition workerSubmit (d : InboundDispatch) (w : Worker) : option submit_error * Worker :=
  match wk_inbound w with
  | None => (Some ErrWorkerNotAccepting, w)
  | Some (size, buffer) =>
      match id_Task d with
      | None => (Some ErrNilTask, w)
      | Some _ =>
          if (length buffer <? size)%nat
          then (None, mkWorker (Some (size, buffer ++ [d])))
          else (Some ErrInboundFull, w)
      end
  end.

Definition workerInbox (w : Worker) : list InboundDispatch :=
  match wk_inbound w with None => [] | Some (_, buffer) => buffer end.

#[export] Instance Worker_submitter : WorkerSubmitter Worker.
Proof.
  refine {| SubmitDispatched := workerSubmit; inbox := workerInbox |}.
  - intros d w e w'. unfold workerSubmit. repeat case_match; intros; by simplify_eq.
  - intros d w w'. unfold workerSubmit, workerInbox. repeat case_match; intros; by simplify_eq/=.
Defined.

(** * Requests and responses *)

Definition ReasonStaleGeneration : string := "stale_generation".
Definition ReasonWrongWorker : string := "wrong_worker".
Definition ReasonInvalidStatus : string := "invalid_status".
Definition ReasonTaskNotRunning : string := "task_not_running".
Definition ReasonNotOwner : string := "not_owner".
Definition ReasonMissingRun : string := "missing_run".
Definition ReasonMalformed : string := "malformed".
Definition ReasonContention : string := "contention".

Record DispatchRequest := mkDispatchRequest {
  dr_RunID : uuid;
  dr_TaskID : uuid;
  dr_OwnerGeneration : Z;
  dr_Attempt : Z;
  dr_WorkerNode : string;
  dr_OwnerBaseURL : string;
  dr_Deadline : Z;
}.

Record CompleteRequest := mkCompleteRequest {
  cq_RunID : uuid;
  cq_TaskID : uuid;
  cq_OwnerGeneration : Z;
  cq_Attempt : Z;
  cq_WorkerNode : string;
  cq_Status : string;
  cq_Result : string;
  cq_Outputs : gmap string string;
  cq_BranchSelections : list string;
  cq_Error : string;
}.

(** Status code and reason label. *)
Record Response := mkResponse { rs_Code : Z; rs_Reason : string }.

Definition StatusOK : Z := 200.
Definition StatusAccepted : Z := 202.
Definition StatusBadRequest : Z := 400.
Definition StatusUnauthorized : Z := 401.
Definition StatusMethodNotAllowed : Z := 405.
Definition StatusConflict : Z := 409.
Definition StatusServiceUnavailable : Z := 503.

Definition conflict (reason : string) : Response := mkResponse StatusConflict reason.

Definition ValidCompleteStatuses (status : string) : bool :=
  bool_decide (status ∈ [TaskStatusSucceeded; TaskStatusFailed; TaskStatusCached]).

(** The parts of the handler both endpoints read; [ownerManager != nil] is
    [h_InMemory] for the dispatch endpoint. *)
Record Handler := mkHandler { h_nodeID : string; h_token : string; h_InMemory : bool }.

Definition bearer_prefix : string := "bearer ".

Section handlers.
Context (sha256 : string → string).

Definition authorized (h : Handler) (header : string) : bool :=
  if h_token h =s "" then false
  else
    let auth := TrimSpace header in
    if ToLower (String.substring 0 7 auth) =s bearer_prefix
    then sha256 (TrimSpace (String.substring 7 (String.length auth) auth)) =s sha256 (h_token h)
    else false.

(** * [HandleDispatch] *)

(** The claim TTL derived from the deadline: at least thirty seconds ahead, or five
    minutes. *)
Definition claimTTL (now deadline : Z) : Z :=
  let ttl := deadline - now in
  if ttl <? 30 * second then 300 * second else ttl.

(** A failed rollback is only logged. *)
Definition rollbackClaim (faults : nat → option store_error) (h : Handler) (req : DispatchRequest) (db : DB) : DB :=
  (withStoreBusyRetry faults
     (ReleaseTaskClaim (dr_RunID req) (dr_TaskID req) (h_nodeID h) (dr_OwnerGeneration req)) db).2.

Definition HandleDispatch {W} `{WorkerSubmitter W} (now : Z) (faults faults2 : nat → option store_error)
    (h : Handler) (method header : string) (body : option DispatchRequest) (submitter : option W) (db : DB)
    : Response * (option W * DB) :=
  if negb (method =s "POST") then (mkResponse StatusMethodNotAllowed "", (submitter, db))
  else if negb (authorized h header) then (mkResponse StatusUnauthorized "", (submitter, db))
  else match body with
  | None => (mkResponse StatusBadRequest ReasonMalformed, (submitter, db))
  | Some req =>
      if negb (dr_WorkerNode req =s h_nodeID h) then (conflict ReasonWrongWorker, (submitter, db))
      else match submitter with
      | None => (conflict ReasonTaskNotRunning, (submitter, db))
      | Some worker =>
          match withStoreBusyRetry faults
                  (ClaimTaskForDispatch now (dr_RunID req) (dr_TaskID req) (h_nodeID h) (dr_OwnerGeneration req)
                     (claimTTL now (dr_Deadline req)) (h_InMemory h)) db with
          | (inl _, db) => (conflict ReasonTaskNotRunning, (submitter, db))
          | (inr _, db) =>
              match LoadDispatchedTaskRun (dr_RunID req) (dr_TaskID req) (h_nodeID h) db with
              | inl _ => (conflict ReasonTaskNotRunning, (submitter, rollbackClaim faults2 h req db))
              | inr taskRun =>
                  match SubmitDispatched (mkInboundDispatch (Some taskRun) (dr_OwnerBaseURL req)
                          (dr_OwnerGeneration req) (dr_Attempt req) (h_nodeID h)) worker with
                  | (Some _, worker) => (conflict ReasonTaskNotRunning, (Some worker, rollbackClaim faults2 h req db))
                  | (None, worker) => (mkResponse StatusAccepted "", (Some worker, db))
                  end
              end
          end
      end
  end.

(** * [HandleComplete] *)

(** [dqlite.IsContentionError] on the store's errors. *)
Definition IsContentionError (e : store_error) : bool := isStoreContentionErr e.

Context (uuid_String : uuid → string).

(** The response to an error of the store: [ErrTaskClaimMismatch] is a wrong worker,
    contention asks for a retry, anything else is a rejection. *)
Definition applyResponse (r : store_error + ()) : Response :=
  match r with
  | inr _ => mkResponse StatusOK ""
  | inl ErrTaskClaimMismatch => conflict ReasonWrongWorker
  | inl e => if IsContentionError e then mkResponse StatusServiceUnavailable ReasonContention
             else conflict ReasonTaskNotRunning
  end.

Definition discard {A B} (p : (store_error + A) * B) : (store_error + ()) * B :=
  (match p.1 with inl e => inl e | inr _ => inr () end, p.2).

(** The SQL path: the switch on the status. The failure write is one transaction
    without the contention retry. *)
Definition completeSQL (now : Z) (faults : nat → option store_error) (req : CompleteRequest) (db : DB)
    : (store_error + ()) * DB :=
  if cq_Status req =s TaskStatusSucceeded then
    discard (withStoreBusyRetry faults
      (completeTask uuid_String now (cq_RunID req) (cq_TaskID req) (cq_Result req) (cq_WorkerNode req) true
         (cq_Outputs req) (cq_BranchSelections req)) db)
  else if cq_Status req =s TaskStatusFailed then
    Transaction (faults 0%nat)
      (FailTaskClaimed now (cq_RunID req) (cq_TaskID req) (cq_Error req) (cq_WorkerNode req)) db
  else if cq_Status req =s TaskStatusCached then
    discard (withStoreBusyRetry faults
      (cacheHitTask uuid_String now (cq_RunID req) (cq_TaskID req) (mkCacheHitSource (cq_RunID req) 0 None)
         (cq_Result req) (cq_WorkerNode req) true (cq_Outputs req) (cq_BranchSelections req)) db)
  else (inr (), db).

(** [m = None] is a handler without an owner manager. *)
Definition HandleComplete (now : Z) (mf : complete_faults) (h : Handler)
    (method header : string) (body : option CompleteRequest) (m : option OwnerManager) (db : DB)
    : Response * (option OwnerManager * DB) :=
  if negb (method =s "POST") then (mkResponse StatusMethodNotAllowed "", (m, db))
  else if negb (authorized h header) then (mkResponse StatusUnauthorized "", (m, db))
  else match body with
  | None => (mkResponse StatusBadRequest ReasonMalformed, (m, db))
  | Some req =>
      if negb (ValidCompleteStatuses (cq_Status req)) then (conflict ReasonInvalidStatus, (m, db))
      else match GetLease (cq_RunID req) db with
      | inl _ => (conflict ReasonMissingRun, (m, db))
      | inr lease =>
          if negb (rl_OwnerNode lease =s h_nodeID h) || (rl_LeaseExpiresAt lease <? now)
          then (conflict ReasonNotOwner, (m, db))
          else if negb (rl_Generation lease =? cq_OwnerGeneration req)
          then (conflict ReasonStaleGeneration, (m, db))
          else
            let sql m db := let '(r, db) := completeSQL now (mf_write mf) req db in (applyResponse r, (m, db)) in
            match m with
            | None => sql None db
            | Some om =>
                match ManagerComplete uuid_String mf now (cq_RunID req) (cq_TaskID req) (cq_Status req)
                        (cq_Result req) (cq_Error req) (cq_WorkerNode req) (cq_Outputs req)
                        (cq_BranchSelections req) om db with
                | (inl e, (om, db)) =>
                    (if IsContentionError e then mkResponse StatusServiceUnavailable ReasonContention
                     else applyResponse (inl e), (Some om, db))
                | (inr res, (om, db)) =>
                    if co_Owned res then (mkResponse StatusOK "", (Some om, db)) else sql (Some om) db
                end
            end
      end
  end.
End handlers.
