(* ===== verification/DispatchLoop.v ===== *)
(** The owner's dispatch loop (internal/dispatch/loop.go): failover sweep, peer
    rotation with benching, rate limits, and the posts that push ready tasks to the
    workers. Together with [Dispatch] this is one side of the cluster: a post runs the
    handler of the addressed node on the shared database.

    The goroutines that post concurrently are run in the order the loop starts them,
    with one clock reading per sweep. The environment chooses for every post whether
    request and reply arrive and which database errors occur ([post_env]); it gives
    the discovered peers and the order of Go's map iteration. The construction of a
    URL from a node address is the configured [PeerBaseURL]. Tasks are limited by
    [rules], the outcome of [ratelimit.RuleForTask] per task ([None]: no limiter). *)

From S2P Require Import Prelude TriggerRule Tables Store RunState TaskOps Leases SqlAdvance Recovery.
From S2P Require Import Checkpoints OwnerManager RateLimit Dispatch.

Record peer := mkPeer { p_nodeID : string; p_baseURL : string }.

Record DispatchLoopConfig := mkDispatchLoopConfig {
  dc_NodeID : string;
  dc_Token : string;
  dc_BatchSize : Z;
  dc_Deadline : Z;
  dc_LeaseTTL : Z;
  dc_PeerBaseURL : string → string;
}.

Record DispatchLoop := mkDispatchLoop {
  dl_cfg : DispatchLoopConfig;
  dl_counter : Z;
  dl_ownerBaseURL : string;
  dl_benchedPeers : gmap string Z;
  dl_rateLimitDelays : gmap uuid (gmap uuid Z);
}.

Definition set_counter c l :=
  mkDispatchLoop (dl_cfg l) c (dl_ownerBaseURL l) (dl_benchedPeers l) (dl_rateLimitDelays l).
Definition set_benched b l :=
  mkDispatchLoop (dl_cfg l) (dl_counter l) (dl_ownerBaseURL l) b (dl_rateLimitDelays l).
Definition set_delays d l :=
  mkDispatchLoop (dl_cfg l) (dl_counter l) (dl_ownerBaseURL l) (dl_benchedPeers l) d.

Definition peerBenchCooldown : Z := 10 * second.

Definition NewDispatchLoop (cfg : DispatchLoopConfig) : DispatchLoop :=
  let cfg := mkDispatchLoopConfig (dc_NodeID cfg) (dc_Token cfg)
               (if dc_BatchSize cfg <=? 0 then 64 else dc_BatchSize cfg)
               (if dc_Deadline cfg <=? 0 then 300 * second else dc_Deadline cfg)
               (dc_LeaseTTL cfg) (dc_PeerBaseURL cfg) in
  mkDispatchLoop cfg 0 (dc_PeerBaseURL cfg (dc_NodeID cfg)) ∅ ∅.

(** * Peers *)

Definition HasPrefixAt (s : string) : bool :=
  match s with String "@" _ => true | _ => false end.

(** The [add] closure of [buildPeers]; the seen set holds the identities of [out]. *)
Definition addPeer (baseURL : string → string) (out : list peer) (addr : string) : list peer :=
  let canonical := TrimSpace addr in
  if (canonical =s "") || HasPrefixAt canonical then out
  else if bool_decide (canonical ∈ map p_nodeID out) then out
  else if baseURL canonical =s "" then out
  else out ++ [mkPeer canonical (baseURL canonical)].

Definition buildPeers (rawPeers : list string) (l : DispatchLoop) : list peer :=
  addPeer (dc_PeerBaseURL (dl_cfg l))
    (fold_left (addPeer (dc_PeerBaseURL (dl_cfg l))) rawPeers []) (dc_NodeID (dl_cfg l)).

Definition benchPeer (now : Z) (nodeID : string) (l : DispatchLoop) : DispatchLoop :=
  if nodeID =s dc_NodeID (dl_cfg l) then l
  else set_benched (<[nodeID := now + peerBenchCooldown]> (dl_benchedPeers l)) l.

Definition healthyPeers (now : Z) (peers : list peer) (l : DispatchLoop) : list peer * DispatchLoop :=
  let benched := filter (λ kv, now < kv.2) (dl_benchedPeers l) in
  let out := List.filter (λ p, negb (bool_decide (is_Some (benched !! p_nodeID p)))) peers in
  (match out with [] => peers | _ => out end, set_benched benched l).

(** * Rate limit delays of the in-memory mode *)

(** [None] is the zero time. *)
Definition rememberRateLimitDelay (runID taskID : uuid) (retryAfter : option Z) (l : DispatchLoop) : DispatchLoop :=
  match retryAfter with
  | None => l
  | Some t =>
      set_delays (<[runID := <[taskID := t]> (default ∅ (dl_rateLimitDelays l !! runID))]> (dl_rateLimitDelays l)) l
  end.

Definition rateLimitDelayed (runID taskID : uuid) (now : Z) (l : DispatchLoop) : bool * DispatchLoop :=
  match dl_rateLimitDelays l !! runID with
  | None => (false, l)
  | Some tasks =>
      match tasks !! taskID with
      | None => (false, l)
      | Some retryAfter =>
          if now <? retryAfter then (true, l)
          else
            let tasks := delete taskID tasks in
            (false, set_delays (if bool_decide (tasks = ∅) then delete runID (dl_rateLimitDelays l)
                                else <[runID := tasks]> (dl_rateLimitDelays l)) l)
      end
  end.

(** The filtering loop of [dispatchRunInMemory]. *)
Fixpoint filterDelayed (runID : uuid) (now : Z) (ready : list DispatchableTask) (l : DispatchLoop)
    : list DispatchableTask * DispatchLoop :=
  match ready with
  | [] => ([], l)
  | dt :: ready' =>
      let '(delayed, l) := rateLimitDelayed runID (dt_TaskID dt) now l in
      let '(out, l) := filterDelayed runID now ready' l in
      (if delayed then out else dt :: out, l)
  end.

(** * The world the loop acts on *)

Record Node := mkNode { nd_handler : Handler; nd_worker : option Worker }.

(** The database, the nodes by the base URL they listen on, the limiter's table. *)
Record World := mkWorld {
  wd_db : DB;
  wd_nodes : gmap string Node;
  wd_tokens : list RateLimitToken;
}.

Definition set_db db w := mkWorld db (wd_nodes w) (wd_tokens w).

Inductive delivery : Type := Delivered | RequestLost | ReplyLost.

Record post_env := mkPostEnv {
  pe_delivery : delivery;
  pe_faults : nat → option store_error;
  pe_faults2 : nat → option store_error;
  pe_limitFaults : nat → option store_error;
}.

(** Of one run in one sweep: its posts, and its recovery when the node does not track it. *)
Record run_env := mkRunEnv { re_posts : nat → post_env; re_recover : recover_faults }.

Record LoopState := mkLoopState { ls_loop : DispatchLoop; ls_manager : option OwnerManager; ls_world : World }.

Section loop.
Context (sha256 : string → string).
Context (rules : option (uuid → uuid → limit_error + option Rule)).

(** [None] is a network error; otherwise whether the worker accepted. *)
Definition PostDispatch (now : Z) (env : post_env) (baseURL token : string) (req : DispatchRequest) (w : World)
    : option bool * World :=
  match wd_nodes w !! baseURL, pe_delivery env with
  | None, _ => (None, w)
  | _, RequestLost => (None, w)
  | Some node, d =>
      let '(resp, (worker, db)) :=
        HandleDispatch sha256 now (pe_faults env) (pe_faults2 env) (nd_handler node) "POST" ("Bearer " +:+ token)
          (Some req) (nd_worker node) (wd_db w) in
      let w := mkWorld db (<[baseURL := mkNode (nd_handler node) worker]> (wd_nodes w)) (wd_tokens w) in
      (match d with ReplyLost => None | _ => Some (rs_Code resp =? StatusAccepted) end, w)
  end.

(** The task may be posted: no rule, or tokens acquired; otherwise it is delayed. *)
Definition acquireRateLimit (now : Z) (env : post_env) (runID taskID : uuid) (s : LoopState) : bool * LoopState :=
  match rules with
  | None => (true, s)
  | Some rules =>
      match rules runID taskID with
      | inl _ => (false, s)
      | inr None => (true, s)
      | inr (Some rule) =>
          let w := ls_world s in
          let '(acquired, tokens) := Acquire now (ru_Resource rule) (ru_Units rule) (ru_Limit rule) (ru_Window rule)
                                       (wd_tokens w) in
          let w := mkWorld (wd_db w) (wd_nodes w) tokens in
          match acquired with
          | inl _ => (false, mkLoopState (ls_loop s) (ls_manager s) w)
          | inr true => (true, mkLoopState (ls_loop s) (ls_manager s) w)
          | inr false =>
              let retryAfter := now + RetryAfter now (ru_Window rule) in
              match withStoreBusyRetry (pe_limitFaults env) (RateLimitTask now runID taskID (Some retryAfter)) (wd_db w) with
              | (inl _, db) => (false, mkLoopState (ls_loop s) (ls_manager s) (set_db db w))
              | (inr _, db) =>
                  (false, mkLoopState
                            (match ls_manager s with
                             | Some _ => rememberRateLimitDelay runID taskID (Some retryAfter) (ls_loop s)
                             | None => ls_loop s
                             end) (ls_manager s) (set_db db w))
              end
          end
      end
  end.

Definition postOne (now : Z) (env : post_env) (runID : uuid) (p : peer) (req : DispatchRequest) (s : LoopState) : LoopState :=
  let cfg := dl_cfg (ls_loop s) in
  let '(accepted, w) := PostDispatch now env (p_baseURL p) (dc_Token cfg) req (ls_world s) in
  match accepted with
  | None => mkLoopState (benchPeer now (p_nodeID p) (ls_loop s)) (ls_manager s) w
  | Some false => mkLoopState (ls_loop s) (ls_manager s) w
  | Some true =>
      let leaseMs := (now + dc_Deadline cfg) / 1000000 in
      mkLoopState (ls_loop s)
        (ManagerMarkDispatched runID (dr_TaskID req) (p_nodeID p) (dr_Attempt req) leaseMs <$> ls_manager s) w
  end.

(** [l.counter.Add(1) - 1] on a uint64. *)
Definition nextIndex (l : DispatchLoop) : Z * DispatchLoop :=
  (dl_counter l, set_counter ((dl_counter l + 1) mod 2 ^ 64) l).

(** [peers[idx % len(peers)]]; [p0] is the first peer. *)
Definition pickPeer (p0 : peer) (peers : list peer) (idx : Z) : peer :=
  nth (Z.to_nat (idx mod Z.of_nat (length peers))) peers p0.

Definition dispatchOne (now : Z) (env : post_env) (runID : uuid) (generation : Z) (p0 : peer) (peers : list peer)
    (dt : DispatchableTask) (s : LoopState) : LoopState :=
  let '(idx, l) := nextIndex (ls_loop s) in
  let s := mkLoopState l (ls_manager s) (ls_world s) in
  let p := pickPeer p0 peers idx in
  let req := mkDispatchRequest runID (dt_TaskID dt) generation (dt_Attempt dt) (p_nodeID p) (dl_ownerBaseURL l)
               (now + dc_Deadline (dl_cfg l)) in
  let '(ok, s) := acquireRateLimit now env runID (dt_TaskID dt) s in
  if ok then postOne now env runID p req s else s.

Fixpoint dispatchTasks (now : Z) (env : nat → post_env) (runID : uuid) (generation : Z) (p0 : peer)
    (peers : list peer) (tasks : list DispatchableTask) (s : LoopState) : LoopState :=
  match tasks with
  | [] => s
  | dt :: tasks' =>
      dispatchTasks now env runID generation p0 peers tasks'
        (dispatchOne now (env (length tasks')) runID generation p0 peers dt s)
  end.

Context (uuid_String : uuid → string) (uuid_Parse : string → option uuid).
Context (iter1 iter2 : RunTopology → list uuid) (iter3 : RunState → list uuid).

Definition dispatchRunInMemory (now : Z) (env : run_env) (runID : uuid) (generation : Z) (p0 : peer)
    (peers : list peer) (m : OwnerManager) (s : LoopState) : LoopState :=
  let dispatch m s :=
    match ReadyForDispatch runID m with
    | [] => s
    | ready =>
        let '(ready, l) := filterDelayed runID now ready (ls_loop s) in
        let s := mkLoopState l (ls_manager s) (ls_world s) in
        dispatchTasks now (re_posts env) runID generation p0 peers (take (Z.to_nat (dc_BatchSize (dl_cfg l))) ready) s
    end in
  if Owns runID m then dispatch m s
  else match Recover uuid_String uuid_Parse iter1 iter2 iter3 (re_recover env) now runID generation m (wd_db (ls_world s)) with
       | (inl _, (m, db)) => mkLoopState (ls_loop s) (Some m) (set_db db (ls_world s))
       | (inr _, (m, db)) => dispatch m (mkLoopState (ls_loop s) (Some m) (set_db db (ls_world s)))
       end.

Definition dispatchRun (now : Z) (env : run_env) (p0 : peer) (peers : list peer) (s : LoopState)
    (run : uuid * Z) : LoopState :=
  let '(runID, generation) := run in
  match ls_manager s with
  | Some m => dispatchRunInMemory now env runID generation p0 peers m s
  | None =>
      let tasks := PendingTasksForDispatch now runID (dc_BatchSize (dl_cfg (ls_loop s))) (wd_db (ls_world s)) in
      dispatchTasks now (re_posts env) runID generation p0 peers
        (map (λ r, mkDispatchableTask (tr_TaskID r) (tr_Attempt r)) tasks) s
  end.

(** One sweep: [rawPeers] are the discovered peers ([None]: discovery failed), [iter]
    the order of the iteration over the owned runs. *)
Definition tick (now : Z) (env : uuid → run_env) (takeFault : option store_error) (rawPeers : option (list string))
    (iter : gmap uuid Z → list (uuid * Z)) (s : LoopState) : LoopState :=
  let cfg := dl_cfg (ls_loop s) in
  let s := match ls_manager s with
           | Some _ =>
               mkLoopState (ls_loop s) (ls_manager s)
                 (set_db (Transaction takeFault (AcquireExpiredLeases now (dc_NodeID cfg) (dc_LeaseTTL cfg))
                            (wd_db (ls_world s))).2 (ls_world s))
           | None => s
           end in
  match rawPeers with
  | None => s
  | Some rawPeers =>
      match buildPeers rawPeers (ls_loop s) with
      | [] => s
      | all =>
          let '(peers, l) := healthyPeers now all (ls_loop s) in
          let s := mkLoopState l (ls_manager s) (ls_world s) in
          match peers with
          | [] => s
          | p0 :: _ =>
              fold_left (λ s run, dispatchRun now (env run.1) p0 peers s run)
                (iter (OwnedRunsWithGenerations now (dc_NodeID cfg) (wd_db (ls_world s)))) s
          end
      end
  end.
End loop.
