(* ===== verification/Cluster.v ===== *)
(** The cluster as one system: the owner's sweeps over its dispatch loop, the
    handlers of the workers and of the owner, and takeovers, each running the code of
    [Dispatch], [DispatchLoop] and [OwnerManager] on the shared database. Every step
    of the cluster is a sequence of steps of the system of [Durable], so the safety of
    that system is the safety of the protocol. *)

From S2P Require Import Prelude TriggerRule Tables Store TxLogic RunState RunStateInv TaskOps Leases RunOps.
From S2P Require Import OwnerSteps Topology SqlAdvance TaskTheorems OwnerRun OwnerTheorems Recovery Replay.
From S2P Require Import Checkpoints OwnerManager Durable RateLimit Dispatch DispatchLoop.

Lemma remove_first_other x y l : y ∈ l → y ≠ x → y ∈ remove_first x l.
Proof.
  induction l as [|z l IH]; intros Hy Hne; [by apply elem_of_nil in Hy|]. simpl. apply elem_of_cons in Hy as [->|Hy].
  - destruct (N.eqb_spec z x); [done|]. by apply elem_of_cons; left.
  - destruct (z =? x)%N; [done|]. apply elem_of_cons. right. by apply IH.
Qed.

Lemma mark_ready_other run x y w at_ le m : y ∈ Ready run m → y ≠ x →
  y ∈ Ready run (ManagerMarkDispatched run x w at_ le m).
Proof.
  unfold Ready, ManagerMarkDispatched. destruct (get run m) as [or|] eqn:E; [|by intros Hy%elem_of_nil]. intros Hy Hne.
  unfold get in *. simpl. rewrite lookup_insert_eq. simpl. unfold ReadyTasks, MarkDispatched, removeReady in *.
  repeat case_match; simpl; try done. by apply remove_first_other.
Qed.

Section cluster.
Context (sha256 : string → string) (rules : option (uuid → uuid → limit_error + option Rule)).
Context (uuid_String : uuid → string) (uuid_Parse : string → option uuid).
Context (iter1 iter2 : RunTopology → list uuid) (iter3 : RunState → list uuid).
Context (run : uuid) (t0 : RunTopology).

Abbreviation steps := (rtc (sys_step uuid_String uuid_Parse iter1 iter2 iter3 run t0)).

(** * Handlers and posts as steps *)

Lemma tx_steps op m db db' : worker_tx run op db = inr ((), db') → steps (m, db) (m, db').
Proof. intros H. by apply rtc_once, (ss_worker _ _ _ _ _ _ _ op). Qed.

Lemma retry_steps faults op m db r db' : withStoreBusyRetry faults (worker_tx run op) db = (r, db') →
  steps (m, db) (m, db').
Proof.
  intros E. apply busyRetryLoop_atomic in E. destruct r as [e|[]]; [by rewrite E|]. by eapply tx_steps.
Qed.

Lemma rollback_steps faults h req m db : dr_RunID req = run →
  steps (m, db) (m, rollbackClaim faults h req db).
Proof.
  intros Hr. unfold rollbackClaim. rewrite Hr. destruct (withStoreBusyRetry _ _ db) as [r db'] eqn:E. simpl.
  by eapply (retry_steps faults (OpReleased (dr_TaskID req) (h_nodeID h) (dr_OwnerGeneration req))).
Qed.

Lemma HandleDispatch_steps {W} `{WorkerSubmitter W} now f f2 h method header req sub db resp sub' db' m :
  dr_RunID req = run →
  HandleDispatch sha256 now f f2 h method header (Some req) sub db = (resp, (sub', db')) → steps (m, db) (m, db').
Proof.
  intros Hr. unfold HandleDispatch. repeat (destruct (negb _); [intros; by simplify_eq|]).
  destruct sub as [worker|]; [|intros; by simplify_eq].
  destruct (withStoreBusyRetry _ _ db) as [r db1] eqn:E. rewrite Hr in E.
  apply (retry_steps f (OpClaimed now (dr_TaskID req) (h_nodeID h) (dr_OwnerGeneration req)
    (claimTTL now (dr_Deadline req)) (h_InMemory h)) m) in E.
  destruct r; [intros; by simplify_eq|]. pose proof (rollback_steps f2 h req m db1 Hr) as HR.
  destruct (LoadDispatchedTaskRun _ _ _ db1); [intros; simplify_eq; by etransitivity|].
  destruct (SubmitDispatched _ worker) as [[e|] w']; intros; simplify_eq; [by etransitivity|done].
Qed.

Lemma PostDispatch_steps now env url token req w a w' m : dr_RunID req = run →
  PostDispatch sha256 now env url token req w = (a, w') → steps (m, wd_db w) (m, wd_db w').
Proof.
  intros Hr. unfold PostDispatch. destruct (wd_nodes w !! url) as [node|]; [|intros; by simplify_eq].
  destruct (pe_delivery env); [|intros; by simplify_eq|];
    destruct (HandleDispatch _ _ _ _ _ _ _ _ _ _) as [resp [sub db]] eqn:E; intros [= <- <-]; simpl;
    by eapply HandleDispatch_steps.
Qed.

Lemma acquireRateLimit_steps now env x s b s' m : acquireRateLimit rules now env run x s = (b, s') →
  steps (m, wd_db (ls_world s)) (m, wd_db (ls_world s')) ∧ ls_manager s' = ls_manager s.
Proof.
  unfold acquireRateLimit. destruct rules as [rs|]; [|intros; by simplify_eq].
  destruct (rs run x) as [e|[rule|]]; [intros; by simplify_eq| |intros; by simplify_eq].
  destruct (Acquire _ _ _ _ _ _) as [[e|[]] tokens]; [intros; by simplify_eq/=..|].
  destruct (withStoreBusyRetry _ _ _) as [r db1] eqn:E.
  apply (retry_steps _ (OpRateLimited now x (Some (now + RetryAfter now (ru_Window rule)))) m) in E.
  destruct r; intros; by simplify_eq/=.
Qed.

(** A post of a queued task, and what stays queued. *)
Lemma postOne_steps now env p req s m : dr_RunID req = run → ls_manager s = Some m → dr_TaskID req ∈ Ready run m →
  ∃ m', ls_manager (postOne sha256 now env run p req s) = Some m' ∧
    steps (m, wd_db (ls_world s)) (m', wd_db (ls_world (postOne sha256 now env run p req s))) ∧
    ∀ y, y ∈ Ready run m → y ≠ dr_TaskID req → y ∈ Ready run m'.
Proof.
  intros Hr Hm Hx. unfold postOne. destruct (PostDispatch _ _ _ _ _ _ _) as [a w] eqn:E.
  apply (PostDispatch_steps _ _ _ _ _ _ _ _ m Hr) in E. destruct a as [[]|]; [|by exists m..].
  simpl. rewrite Hm. simpl. eexists. split; [done|]. split; [|intros y; apply mark_ready_other].
  eapply rtc_r; [exact E|]. apply ss_mark. intros or Hg. left. unfold Ready in Hx. by rewrite Hg in Hx.
Qed.

Lemma dispatchOne_steps now env gen p0 peers dt s m : ls_manager s = Some m → dt_TaskID dt ∈ Ready run m →
  let s' := dispatchOne sha256 rules now env run gen p0 peers dt s in
  ∃ m', ls_manager s' = Some m' ∧ steps (m, wd_db (ls_world s)) (m', wd_db (ls_world s')) ∧
    ∀ y, y ∈ Ready run m → y ≠ dt_TaskID dt → y ∈ Ready run m'.
Proof.
  intros Hm Hx. unfold dispatchOne, nextIndex. cbv zeta. destruct (acquireRateLimit _ _ _ _ _ _) as [ok s1] eqn:E.
  apply (acquireRateLimit_steps _ _ _ _ _ _ m) in E as [E Em]. simpl in E, Em. rewrite Hm in Em.
  destruct ok; [|by exists m].
  match goal with |- context [postOne _ _ _ _ ?p ?req _] => destruct (postOne_steps now env p req s1 m eq_refl Em Hx) as (m' & H1 & H2 & H3) end.
  exists m'. split; [done|]. split; [by etransitivity|done].
Qed.

Lemma dispatchTasks_steps now env gen p0 peers tasks s m : ls_manager s = Some m → NoDup (map dt_TaskID tasks) →
  (∀ dt, dt ∈ tasks → dt_TaskID dt ∈ Ready run m) →
  let s' := dispatchTasks sha256 rules now env run gen p0 peers tasks s in
  ∃ m', ls_manager s' = Some m' ∧ steps (m, wd_db (ls_world s)) (m', wd_db (ls_world s')).
Proof.
  revert s m. induction tasks as [|dt tasks IH]; intros s m Hm Hnd Hx; [by exists m|]. cbn [dispatchTasks].
  inversion Hnd as [|? ? Hn Hnd']; subst.
  destruct (dispatchOne_steps now (env (length tasks)) gen p0 peers dt s m Hm) as (m1 & H1 & H2 & H3);
    [apply Hx; by apply elem_of_cons; left|].
  destruct (IH _ m1 H1 Hnd') as (m2 & H4 & H5).
  - intros dt' Hdt'. apply H3; [apply Hx; by apply elem_of_cons; right|]. intros E. apply Hn. simpl. rewrite <- E.
    by apply list_elem_of_In, in_map, list_elem_of_In.
  - exists m2. split; [done|]. by etransitivity.
Qed.
(** * Sweeps *)

Lemma ready_dispatchable m : map dt_TaskID (ReadyForDispatch run m) = Ready run m.
Proof. unfold ReadyForDispatch, Ready. destruct (get run m); [|done]. rewrite map_map. simpl. by rewrite map_id. Qed.

Lemma filterDelayed_sublist now ready l out l' : filterDelayed run now ready l = (out, l') → out `sublist_of` ready.
Proof.
  revert l out l'. induction ready as [|dt ready IH]; intros l out l'; simpl; [intros; by simplify_eq|].
  destruct (rateLimitDelayed _ _ _ l) as [b l1]. destruct (filterDelayed run now ready l1) as [o l2] eqn:E.
  intros; simplify_eq. apply IH in E. destruct b; by constructor.
Qed.

Abbreviation sweep := (dispatchRunInMemory sha256 rules uuid_String uuid_Parse iter1 iter2 iter3).

(** The posts of a sweep, from a manager whose queue has no duplicates. *)
Lemma sweep_owned now env gen p0 peers m l w : Owns run m = true → NoDup (Ready run m) →
  ∃ m', ls_manager (sweep now env run gen p0 peers m (mkLoopState l (Some m) w)) = Some m' ∧
    steps (m, wd_db w) (m', wd_db (ls_world (sweep now env run gen p0 peers m (mkLoopState l (Some m) w)))).
Proof.
  intros Ho Hnd. unfold dispatchRunInMemory. rewrite Ho. rewrite <- ready_dispatchable in Hnd.
  destruct (ReadyForDispatch run m) as [|dt0 ready0] eqn:Er; [by exists m|]. rewrite <- Er in *.
  cbn [ls_loop ls_manager ls_world]. destruct (filterDelayed _ _ _ l) as [ready l1] eqn:Ef.
  apply filterDelayed_sublist in Ef. set (tasks := take _ ready).
  assert (tasks `sublist_of` ReadyForDispatch run m) as Hs by (etransitivity; [apply sublist_take|done]).
  apply (dispatchTasks_steps now (re_posts env) gen p0 peers tasks (mkLoopState l1 (Some m) w) m eq_refl).
  - eapply sublist_NoDup; [exact Hnd|]. by apply fmap_sublist.
  - intros dt Hdt. rewrite <- ready_dispatchable. apply list_elem_of_In, in_map, list_elem_of_In.
    by eapply elem_of_sublist.
Qed.

Context (uuid_Parse_String : ∀ u, uuid_Parse (uuid_String u) = Some u).
Context (Hiter1 : ∀ t, key_order (iter1 t) (Order t)) (Hiter2 : ∀ t, key_order (iter2 t) (Order t)).
Context (Hiter3 : ∀ rs, key_order (iter3 rs) (tasks rs)).

Abbreviation at_state := (at_state uuid_String iter1 iter2 run t0).

Lemma at_state_nodup m db rs : at_state (m, db) rs → NoDup (Ready run m).
Proof.
  intros (_ & HS & HT). unfold Ready. destruct (get run m) as [or|] eqn:E; [|constructor].
  destruct (HT or E) as [-> _]. apply stored_inv in HS as [B _]. apply B.
Qed.

(** A sweep by the tracking node, or by a node that recovers the run first. *)
Lemma sweep_steps now env gen p0 peers m m0 l w rs : at_state (m, wd_db w) rs →
  (m0 = m ∧ Owns run m = true) ∨ (get run m0 = None ∧ LoadRunTopology (wd_db w) run = inr t0) →
  let s' := sweep now env run gen p0 peers m0 (mkLoopState l (Some m0) w) in
  ∃ m', ls_manager s' = Some m' ∧ steps (m, wd_db w) (m', wd_db (ls_world s')).
Proof using uuid_Parse_String Hiter3.
  intros HA [[-> Ho]|[Hg HL]]; cbv zeta; [apply sweep_owned; [done|by eapply at_state_nodup]|].
  assert (Owns run m0 = false) as Ho by (unfold Owns; rewrite Hg; by apply bool_decide_eq_false_2; intros [? ?]).
  unfold dispatchRunInMemory at 1 2. rewrite Ho. cbn [ls_world].
  destruct (Recover _ _ _ _ _ _ _ _ _ _ _) as [[e|res] [m1 db1]] eqn:ER.
  { assert (m1 = m0 ∧ db1 = wd_db w) as [-> ->] by (revert ER; unfold Recover; repeat case_match; intros; by simplify_eq).
    exists m0. split; [done|]. by apply rtc_once, ss_lost. }
  destruct (takeover_at _ _ uuid_Parse_String _ _ _ Hiter3 _ _ _ _ _ _ _ _ _ _ _ HA HL Hg ER) as (rs1 & HA1 & _ & Hs1 & _).
  cbn [fst] in Hs1. assert (Owns run m1 = true) as Ho1 by (by apply bool_decide_eq_true_2).
  destruct (sweep_owned now env gen p0 peers m1 l (set_db db1 w) Ho1 (at_state_nodup _ _ _ HA1)) as (m' & H1 & H2).
  unfold dispatchRunInMemory in H1, H2. rewrite Ho1 in H1, H2. exists m'. split; [exact H1|].
  eapply rtc_l; [|exact H2]. by eapply ss_takeover.
Qed.

(** * The cluster *)

(** Who tracks the run, and the world. *)
Definition cluster : Type := OwnerManager * World.

(** The owner disappears; a sweep of the dispatch loop of the tracking node; the first sweep of a node that
    does not track the run (a fresh run, or a takeover after the owner died or lost
    the lease) while the stored topology is the one the run started with; a report
    of an unfinished task that the owner answers with 200; a worker starting a task it
    claimed; and whatever else changes on other nodes (buffers, limiter tokens). *)
Inductive cluster_step : cluster → cluster → Prop :=
| cs_sweep now env gen p0 peers l m w s' m' : Owns run m = true →
    sweep now env run gen p0 peers m (mkLoopState l (Some m) w) = s' → ls_manager s' = Some m' →
    cluster_step (m, w) (m', ls_world s')
| cs_takeover now env gen p0 peers l m m0 w s' m' : get run m0 = None → LoadRunTopology (wd_db w) run = inr t0 →
    sweep now env run gen p0 peers m0 (mkLoopState l (Some m0) w) = s' → ls_manager s' = Some m' →
    cluster_step (m, w) (m', ls_world s')
| cs_complete now mf h method header req or m w m' db' reason :
    cq_RunID req = run → get run m = Some or → live_at (or_state or) (cq_TaskID req) = true →
    HandleComplete sha256 uuid_String now mf h method header (Some req) (Some m) (wd_db w) =
      (mkResponse StatusOK reason, (Some m', db')) →
    cluster_step (m, w) (m', set_db db' w)
| cs_start now task runtimeID worker m w db' : StartTaskClaimed now run task runtimeID worker (wd_db w) = inr ((), db') →
    cluster_step (m, w) (m, set_db db' w)
| cs_crash m m0 w : get run m0 = None → cluster_step (m, w) (m0, w)
| cs_other nodes tokens m w : cluster_step (m, w) (m, mkWorld (wd_db w) nodes tokens).

Definition project (c : cluster) : OwnerManager * DB := (c.1, wd_db c.2).

Lemma HandleComplete_steps now mf h method header req or m db m' db' reason :
  cq_RunID req = run → get run m = Some or → live_at (or_state or) (cq_TaskID req) = true →
  HandleComplete sha256 uuid_String now mf h method header (Some req) (Some m) db =
    (mkResponse StatusOK reason, (Some m', db')) → steps (m, db) (m', db').
Proof.
  intros Hr Hg Hx. unfold HandleComplete. destruct (negb (method =s "POST")); [done|].
  destruct (negb (authorized _ _ _)); [done|]. destruct (ValidCompleteStatuses (cq_Status req)) eqn:Es; [|done]. simpl.
  destruct (GetLease _ _) as [|lease]; [done|]. destruct (_ || _); [done|]. destruct (negb _); [done|]. rewrite Hr.
  destruct (ManagerComplete _ _ _ _ _ _ _ _ _ _ _ _ _) as [[e|res] [m1 db1]] eqn:EM.
  { destruct (IsContentionError e) eqn:Ec; [done|]. destruct e; simpl; rewrite ?Ec; done. }
  assert (co_Owned res = true) as ->.
  { revert EM. unfold ManagerComplete. rewrite Hg. repeat case_match; intros; by simplify_eq. }
  intros [= _ <- <-]. apply rtc_once. eapply ss_complete; [exact Hg|exact Hx| |exact EM].
  unfold ValidCompleteStatuses in Es. apply bool_decide_eq_true in Es.
  repeat (apply elem_of_cons in Es as [->|Es]; [done|]). by apply elem_of_nil in Es.
Qed.

Lemma cluster_refines c c' rs : at_state (project c) rs → cluster_step c c' → steps (project c) (project c').
Proof using uuid_Parse_String Hiter3.
  intros HA Hs. destruct Hs as [now env gen p0 peers l m w s' m' Ho <- Hm|now env gen p0 peers l m m0 w s' m' Hg HL <- Hm|
    now mf h method header req or m w m' db' reason Hr Hg Hx HC|now task rt wk m w db' HC|m m0 w Hg|nodes tokens m w].
  - destruct (sweep_steps now env gen p0 peers m m l w rs HA) as (m1 & H1 & H2); [by left|]. unfold project. simpl in *.
    rewrite H1 in Hm. by simplify_eq.
  - destruct (sweep_steps now env gen p0 peers m m0 l w rs HA) as (m1 & H1 & H2); [by right|]. unfold project. simpl in *.
    rewrite H1 in Hm. by simplify_eq.
  - by eapply HandleComplete_steps.
  - by apply (tx_steps (OpStarted now task rt wk)).
  - by apply rtc_once, ss_lost.
  - done.
Qed.

Lemma cluster_execution c c' rs : at_state (project c) rs → rtc cluster_step c c' →
  steps (project c) (project c') ∧ ∃ rs', at_state (project c') rs'.
Proof using uuid_Parse_String Hiter3.
  intros HA Hs. revert rs HA. induction Hs as [c|c c1 c2 H1 H2 IH]; intros rs HA; [split; [done|by exists rs]|].
  pose proof (cluster_refines c c1 rs HA H1) as S1.
  destruct (steps_at _ _ uuid_Parse_String _ _ _ Hiter3 _ _ _ _ _ HA S1) as (rs1 & HA1 & _).
  destruct (IH rs1 HA1) as [S2 HA2]. split; [by etransitivity|done].
Qed.

(** C1: finished work survives crashes. Take a freshly registered run and a cluster in
    which at most one node at a time tracks it, and any interleaving of: the owner's
    dispatch sweeps, under any network and database failures; workers starting tasks they
    claimed; completion reports that the owner answers with 200 for a task that is
    unfinished in its memory, with their checkpoints (each of whose writes may fail) and
    the finalization of the run; crashes that lose the owner's memory; and takeovers by
    nodes that rebuild the run from the database while the stored topology is the initial
    one (a failed read makes the takeover fail, the reset of tasks in flight is best
    effort). Then a task row once terminal keeps its status for ever, and whenever a node
    tracks the run, its in-memory state satisfies the owner's invariant and agrees with
    the rows on which tasks are finished and how. Reports for finished tasks and reports
    refused because the write of the row failed are not steps. *)
Theorem finished_work_survives_crashes m0 w0 c1 c2 :
  registered run t0 (wd_db w0) → get run m0 = None →
  rtc cluster_step (m0, w0) c1 → rtc cluster_step c1 c2 →
  (∀ r, r ∈ task_runs (wd_db c1.2) → tr_JobRunID r = run → IsTerminal (tr_Status r) = true →
     ∃ r', r' ∈ task_runs (wd_db c2.2) ∧ task_key r' = task_key r ∧ tr_Status r' = tr_Status r) ∧
  (∀ or, get run c2.1 = Some or → owner_inv (or_state or) ∧
     ∀ r, r ∈ task_runs (wd_db c2.2) → tr_JobRunID r = run →
       IsTerminal (tr_Status r) = terminal_at (or_state or) (tr_TaskID r) ∧
       (IsTerminal (tr_Status r) = true → status_at (or_state or) (tr_TaskID r) = Some (tr_Status r))).
Proof using uuid_Parse_String Hiter1 Hiter2 Hiter3.
  intros HR Hg H1 H2. pose proof (registered_at uuid_String iter1 iter2 Hiter1 Hiter2 run t0 _ _ HR Hg) as HA.
  destruct (cluster_execution (m0, w0) _ _ HA H1) as [S1 (rs1 & HA1)]. destruct (cluster_execution _ _ _ HA1 H2) as [S2 _].
  exact (system_safe _ _ uuid_Parse_String _ _ _ Hiter3 _ _ _ _ _ _ HA S1 S2).
Qed.
End cluster.

(** * An execution *)

(** The owner n1 recovers the fresh run and pushes task 1 to worker-a; the worker
    reports its failure, which readies task 2; n2 takes the run over. *)
Definition demo_token : string := "token".

Definition demo_worker (id : string) : Node :=
  mkNode (mkHandler id demo_token true) (Some (WithInboundDispatch 2 (mkWorker None))).

Definition demo_url (id : string) : string := "http://" +:+ id.

Definition demo_lease : RunLease := mkRunLease 100 "n1" 0 (100 * second) 1.

Definition demo_world : World :=
  mkWorld (set_run_leases [demo_lease] sql_start) {[demo_url "worker-a" := demo_worker "worker-a"]} [].

Definition demo_loop (node : string) : DispatchLoop :=
  NewDispatchLoop (mkDispatchLoopConfig node demo_token 0 0 (30 * second) demo_url).

(** The database loses every checkpoint a recovery writes. *)
Definition demo_env : run_env :=
  mkRunEnv (λ _, mkPostEnv Delivered (λ _, None) (λ _, None) (λ _, None))
    (mkRecoverFaults None None None None (mkCheckpointFaults (λ _, Some ErrContention) None (λ _, None))).

Definition demo_peer : peer := mkPeer "worker-a" (demo_url "worker-a").

Definition demo_sha (s : string) : string := s.

Definition demo_sweep (now : Z) (node : string) (gen : Z) (m : OwnerManager) (w : World) : LoopState :=
  dispatchRunInMemory demo_sha None demo_String demo_Parse topo_order topo_order map_order now demo_env 100 gen
    demo_peer [demo_peer] m (mkLoopState (demo_loop node) (Some m) w).

Definition cluster_of (s : LoopState) : cluster := (default (NewOwnerManager demo_cfg) (ls_manager s), ls_world s).

Definition demo_sweep1 : LoopState := demo_sweep 1 "n1" 1 (NewOwnerManager demo_cfg) demo_world.

Definition demo_report : CompleteRequest :=
  mkCompleteRequest 100 1 1 1 "worker-a" TaskStatusFailed "failure" ∅ [] "".

Definition demo_reply : Response * (option OwnerManager * DB) :=
  HandleComplete demo_sha demo_String 2 no_complete_faults (mkHandler "n1" demo_token true) "POST" "Bearer token"
    (Some demo_report) (Some (cluster_of demo_sweep1).1) (wd_db (ls_world demo_sweep1)).

Definition demo_reported : cluster :=
  (default (NewOwnerManager demo_cfg) demo_reply.2.1, set_db demo_reply.2.2 (ls_world demo_sweep1)).

Definition demo_sweep2 : LoopState := demo_sweep (40 * second) "n2" 2 (NewOwnerManager demo_cfg) demo_reported.2.

Abbreviation demo_step :=
  (cluster_step demo_sha None demo_String demo_Parse topo_order topo_order map_order 100 sql_topo).

Lemma demo_first : demo_step (NewOwnerManager demo_cfg, demo_world) (cluster_of demo_sweep1).
Proof.
  eapply (cs_takeover _ _ _ _ _ _ _ _ _ 1 demo_env 1 demo_peer [demo_peer] (demo_loop "n1") _ (NewOwnerManager demo_cfg)
    demo_world demo_sweep1); [reflexivity|vm_compute; reflexivity|reflexivity|vm_compute; reflexivity].
Qed.

Lemma demo_complete : demo_step (cluster_of demo_sweep1) demo_reported.
Proof.
  eapply (cs_complete _ _ _ _ _ _ _ _ _ 2 no_complete_faults (mkHandler "n1" demo_token true) "POST" "Bearer token"
    demo_report (default (mkOwnedRun demo_start (NewCheckpointWriter 0 100 demo_cfg) 0) (get 100 (cluster_of demo_sweep1).1)) _ _ _ _ "");
    vm_compute; reflexivity.
Qed.

Lemma demo_takeover : demo_step demo_reported (cluster_of demo_sweep2).
Proof.
  eapply (cs_takeover _ _ _ _ _ _ _ _ _ (40 * second) demo_env 2 demo_peer [demo_peer] (demo_loop "n2") _
    (NewOwnerManager demo_cfg) _ demo_sweep2); [reflexivity|vm_compute; reflexivity|reflexivity|vm_compute; reflexivity].
Qed.

Lemma demo_registered : registered 100 sql_topo (wd_db demo_world).
Proof. destruct sql_registered as [H1 H2 H3 H4 H5]. split; [vm_compute; reflexivity|done..]. Qed.

Lemma finished_work_survives_crashes_witness :
  ∃ r', r' ∈ task_runs (wd_db (ls_world demo_sweep2)) ∧ task_key r' = (100, 1)%N ∧ tr_Status r' = TaskStatusFailed.
Proof.
  destruct (finished_work_survives_crashes demo_sha None demo_String demo_Parse topo_order topo_order map_order 100 sql_topo
    demo_codec (λ t, key_order_elements _) (λ t, key_order_elements _) (λ r, key_order_elements _)
    (NewOwnerManager demo_cfg) demo_world demo_reported (cluster_of demo_sweep2)) as [H _].
  - exact demo_registered.
  - reflexivity.
  - eapply rtc_l; [exact demo_first|]. apply rtc_once, demo_complete.
  - apply rtc_once, demo_takeover.
  - set (r := default (sql_row 1 TaskStatusPending "" 0) (task_runs (wd_db demo_reported.2) !! 0%nat)).
    destruct (H r) as (r' & H1 & H2 & H3).
    + apply (list_elem_of_lookup_2 _ 0). vm_compute. reflexivity.
    + vm_compute. reflexivity.
    + vm_compute. reflexivity.
    + exists r'. split; [exact H1|]. rewrite H2, H3. split; vm_compute; reflexivity.
Defined.

(** After the takeover task 2 runs on the worker. *)
Example demo_outcome : map (λ r, (tr_TaskID r, tr_Status r, tr_ClaimedBy r)) (task_runs (wd_db (ls_world demo_sweep2))) =
  [(1%N, TaskStatusFailed, "worker-a"); (2%N, TaskStatusRunning, "worker-a"); (3%N, TaskStatusPending, "")].
Proof. vm_compute. reflexivity. Qed.
