(* ===== verification/DispatchTheorems.v ===== *)
(** Theorems on the dispatch protocol: the fences of the completion endpoint, the
    all-or-nothing acceptance of a dispatch, and the peer rotation of the loop. *)

From S2P Require Import Prelude TriggerRule Tables Store TxLogic RunState TaskOps Leases SqlAdvance TaskTheorems.
From S2P Require Import Recovery Checkpoints OwnerManager RateLimit Dispatch DispatchLoop.

(** * The completion endpoint *)

(** C13: completions are fenced. A report changes the owner's memory or the database, or
    is answered with 200, only if it is an authorized POST with a status a worker may
    report, the run's lease names this node and has not expired, and the report carries
    the lease's generation; every other report is refused and has no effect. *)
Theorem complete_fenced sha256 us now f h method header body m db :
  match HandleComplete sha256 us now f h method header body m db with
  | (resp, s') =>
      (s' = (m, db) ∧ rs_Code resp ≠ StatusOK) ∨
      ∃ req lease, body = Some req ∧ method = "POST" ∧ authorized sha256 h header = true ∧
        cq_Status req ∈ [TaskStatusSucceeded; TaskStatusFailed; TaskStatusCached] ∧
        GetLease (cq_RunID req) db = inr lease ∧ rl_OwnerNode lease = h_nodeID h ∧
        now ≤ rl_LeaseExpiresAt lease ∧ rl_Generation lease = cq_OwnerGeneration req
  end.
Proof.
  unfold HandleComplete. destruct (method =s "POST") eqn:Em; [|by left]. simpl.
  destruct (authorized sha256 h header) eqn:Ea; [|by left]. simpl. destruct body as [req|]; [|by left].
  destruct (ValidCompleteStatuses (cq_Status req)) eqn:Es; [|by left]. simpl.
  destruct (GetLease (cq_RunID req) db) as [e|lease] eqn:Eg; [by left|].
  destruct (rl_OwnerNode lease =s h_nodeID h) eqn:Eo; [|by left]. simpl.
  destruct (Z.ltb_spec (rl_LeaseExpiresAt lease) now) as [|He]; [by left|].
  destruct (Z.eqb_spec (rl_Generation lease) (cq_OwnerGeneration req)) as [Egen|]; [|by left]. simpl.
  assert (∃ req0 lease0, Some req = Some req0 ∧ method = "POST" ∧ true = true ∧
        cq_Status req0 ∈ [TaskStatusSucceeded; TaskStatusFailed; TaskStatusCached] ∧
        GetLease (cq_RunID req0) db = inr lease0 ∧ rl_OwnerNode lease0 = h_nodeID h ∧
        now ≤ rl_LeaseExpiresAt lease0 ∧ rl_Generation lease0 = cq_OwnerGeneration req0) as H.
  { exists req, lease. unfold str_eqb, ValidCompleteStatuses in *.
    apply bool_decide_eq_true in Em, Es, Eo. done. }
  destruct (match m with Some _ => _ | None => _ end) as [resp s']. by right.
Qed.

(** * The dispatch endpoint *)

Definition same_claim (r r' : TaskRun) : Prop :=
  task_key r' = task_key r ∧ tr_Status r' = tr_Status r ∧ tr_ClaimedBy r' = tr_ClaimedBy r.

(** Rolling a claim back gives every row its status and holder again. *)
Lemma rollback_restores now run task w gen ttl b db db1 db2 : rows_unique db →
  ClaimTaskForDispatch now run task w gen ttl b db = inr ((), db1) →
  ReleaseTaskClaim run task w gen db1 = inr ((), db2) →
  ∀ (i : nat) r, task_runs db !! i = Some r → ∃ r', task_runs db2 !! i = Some r' ∧ same_claim r r'.
Proof.
  intros Hu HC HR i r Hi. destruct (claim_spec _ _ _ _ _ _ _ _ _ _ HC) as ((r0 & Hin & Hk & Hc) & _ & HU).
  specialize (HU i). rewrite Hi in HU. cbn [fmap option_fmap option_map] in HU.
  unfold ReleaseTaskClaim in HR. apply bind_inr in HR as (n & db3 & HR & [_ ->]%ret_inr).
  apply UpdateTaskRuns_spec in HR as (_ & _ & HR). specialize (HR i). rewrite HU in HR. cbn [fmap option_fmap option_map] in HR.
  eexists. split; [exact HR|]. destruct (is_task_run run task r) eqn:Ek.
  - assert (r = r0) as ->.
    { apply is_task_run_key in Ek. apply list_elem_of_lookup in Hin as [j Hj].
      assert (i = j) as -> by (eapply rows_unique_eq; [exact Hu|exact Hi|exact Hj|congruence]). congruence. }
    rewrite Hc. cbn [andb]. unfold claimable in Hc. bool_prop.
    set (r1 := Updates _ r0). assert (is_task_run run task r1 && is_claimed w r1 && (tr_Status r1 =s TaskStatusRunning) &&
      ((tr_OwnerGeneration r1 =? gen) || (tr_OwnerGeneration r1 =? 0)) = true) as ->.
    { unfold r1, is_claimed, is_task_run in *. cbn. rewrite Ek, Z.eqb_refl. unfold str_eqb. by rewrite bool_decide_eq_true_2. }
    by repeat split.
  - cbn [andb]. rewrite Ek. by repeat split.
Qed.

Lemma loaded_row run task w db r i r' : rows_unique db → LoadDispatchedTaskRun run task w db = inr r →
  task_runs db !! i = Some r' → task_key r' = (run, task) → r = r'.
Proof.
  intros Hu HL Hi Hk. unfold LoadDispatchedTaskRun in HL. destruct (first _) as [x|] eqn:E; [|done].
  injection HL as ->. apply head_Some_elem_of, select_elem in E as [Hin Hp]. bool_prop.
  apply list_elem_of_lookup in Hin as [j Hj].
  assert (i = j) as -> by (eapply rows_unique_eq; [exact Hu|exact Hi|exact Hj|]; rewrite Hk; symmetry; by apply is_task_run_key).
  congruence.
Qed.

Lemma unchanged_claims db : ∀ (i : nat) r, task_runs db !! i = Some r → ∃ r', task_runs db !! i = Some r' ∧ same_claim r r'.
Proof. intros i r Hi. by exists r. Qed.

(** The rollback after a claim restores the rows, or its first attempt failed and it
    changed nothing. *)
Lemma rollback_outcome f2 now h req ttl b db db1 : rows_unique db →
  ClaimTaskForDispatch now (dr_RunID req) (dr_TaskID req) (h_nodeID h) (dr_OwnerGeneration req) ttl b db = inr ((), db1) →
  (∀ (i : nat) r, task_runs db !! i = Some r → ∃ r', task_runs (rollbackClaim f2 h req db1) !! i = Some r' ∧ same_claim r r') ∨
  (is_Some (f2 0%nat) ∧ rollbackClaim f2 h req db1 = db1).
Proof.
  intros Hu EC. unfold rollbackClaim. destruct (withStoreBusyRetry f2 _ db1) as [r db2] eqn:E. cbn [snd].
  pose proof (busyRetryLoop_atomic _ _ _ _ _ _ _ E) as HA. destruct r as [e|[]]; [right|left; by eapply rollback_restores].
  split; [|done]. destruct (f2 0%nat) as [e0|] eqn:E0; [by eexists|]. revert E. unfold withStoreBusyRetry. cbn [length storeBusyRetryBackoffs].
  unfold busyRetryLoop at 1. unfold Transaction at 1. rewrite E0.
  destruct (ReleaseTaskClaim _ _ _ _ db1) as [e1|[[] db3]] eqn:ER; done.
Qed.

(** What a claim makes of the rows: one pending, unclaimed row of the task runs
    under the node and the generation, the others are as before. *)
Definition claimed_for (h : Handler) (req : DispatchRequest) (db db' : DB) (i : nat) (r' : TaskRun) : Prop :=
  ∃ r, task_runs db !! i = Some r ∧ task_runs db' !! i = Some r' ∧ task_key r = (dr_RunID req, dr_TaskID req) ∧
    tr_Status r = TaskStatusPending ∧ tr_ClaimedBy r = "" ∧ tr_Status r' = TaskStatusRunning ∧
    tr_ClaimedBy r' = h_nodeID h ∧ tr_OwnerGeneration r' = dr_OwnerGeneration req ∧
    ∀ j : nat, j ≠ i → task_runs db' !! j = task_runs db !! j.

Lemma claim_claimed now h req ttl b db db1 : rows_unique db →
  ClaimTaskForDispatch now (dr_RunID req) (dr_TaskID req) (h_nodeID h) (dr_OwnerGeneration req) ttl b db = inr ((), db1) →
  ∃ i r', claimed_for h req db db1 i r' ∧ task_key r' = (dr_RunID req, dr_TaskID req).
Proof.
  intros Hu EC. destruct (claim_spec _ _ _ _ _ _ _ _ _ _ EC) as ((r & Hin & Hk & Hc) & HK & HU).
  apply list_elem_of_lookup in Hin as [i Hi]. pose proof (HU i) as Hi'. rewrite Hi in Hi'.
  cbn [fmap option_fmap option_map] in Hi'. pose proof (proj2 (is_task_run_key _ _ r) Hk) as Hk'.
  rewrite Hk', Hc in Hi'. cbn [andb] in Hi'. unfold claimable in Hc. bool_prop.
  eexists i, _. split; [exists r; split; [exact Hi|]; split; [exact Hi'|]; repeat (split; [done|])|done].
  intros j Hj. rewrite (HU j). destruct (task_runs db !! j) as [rj|] eqn:Ej; [|done].
  cbn [fmap option_fmap option_map]. destruct (is_task_run (dr_RunID req) (dr_TaskID req) rj) eqn:Ekj; [|done].
  destruct Hj. apply is_task_run_key in Ekj. eapply rows_unique_eq; [exact Hu|exact Ej|exact Hi|congruence].
Qed.

(** C20: a dispatch is accepted as a whole or not at all, whatever errors the database
    raises ([f] at the claim, [f2] at the rollback). A 202 means that the pending,
    unclaimed row of the task became running under this node and the owner's generation,
    no other row changed, and exactly this row was queued for the local worker. With any
    other answer the worker's buffer is as before, and so are the status and holder of
    every row, a claim made in between being rolled back; unless the rollback itself met
    a database error and had no effect, in which case just that row stays claimed. *)
Theorem dispatch_all_or_nothing {W} `{WorkerSubmitter W} sha256 now f f2 h method header body sub db resp sub' db' :
  rows_unique db →
  HandleDispatch sha256 now f f2 h method header body sub db = (resp, (sub', db')) →
  (rs_Code resp = StatusAccepted ∧ ∃ req w w' i r', body = Some req ∧ sub = Some w ∧ sub' = Some w' ∧
     claimed_for h req db db' i r' ∧
     inbox w' = inbox w ++ [mkInboundDispatch (Some r') (dr_OwnerBaseURL req) (dr_OwnerGeneration req)
                              (dr_Attempt req) (h_nodeID h)]) ∨
  (rs_Code resp ≠ StatusAccepted ∧ sub' = sub ∧
   ((∀ (i : nat) r, task_runs db !! i = Some r → ∃ r', task_runs db' !! i = Some r' ∧ same_claim r r') ∨
    (is_Some (f2 0%nat) ∧ ∃ req i r', body = Some req ∧ claimed_for h req db db' i r'))).
Proof.
  intros Hu. pose proof (unchanged_claims db) as H0. unfold HandleDispatch.
  destruct (negb _); [intros [= <- <- <-]; by right; auto|]. destruct (negb _); [intros [= <- <- <-]; by right; auto|].
  destruct body as [req|]; [|intros [= <- <- <-]; by right; auto]. destruct (negb _); [intros [= <- <- <-]; by right; auto|].
  destruct sub as [w|]; [|intros [= <- <- <-]; by right; auto].
  destruct (withStoreBusyRetry f _ db) as [[e|[]] db1] eqn:EC; apply busyRetryLoop_atomic in EC.
  { intros [= <- <- <-]. rewrite EC. by right; auto. }
  destruct (claim_claimed _ _ _ _ _ _ _ Hu EC) as (i & r' & HC & Hk).
  assert (∀ db2, rollbackClaim f2 h req db1 = db2 →
    (∀ (i : nat) r, task_runs db !! i = Some r → ∃ r', task_runs db2 !! i = Some r' ∧ same_claim r r') ∨
    (is_Some (f2 0%nat) ∧ ∃ req0 i r', Some req = Some req0 ∧ claimed_for h req0 db db2 i r')) as HR.
  { intros db2 <-. destruct (rollback_outcome f2 _ _ _ _ _ _ _ Hu EC) as [?|[Hf ->]]; [by left|right].
    split; [done|]. by exists req, i, r'. }
  destruct (LoadDispatchedTaskRun _ _ _ db1) as [e|row] eqn:EL.
  { intros [= <- <- <-]. right. split; [done|]. split; [done|]. by apply HR. }
  destruct (SubmitDispatched _ w) as [[e|] w1] eqn:ES; intros [= <- <- <-].
  { right. split; [done|]. split; [by rewrite (submit_rejected _ _ _ _ ES)|]. by apply HR. }
  left. split; [done|]. exists req, w, w1, i, r'. repeat (split; [done|]).
  destruct (claim_spec _ _ _ _ _ _ _ _ _ _ EC) as (_ & HK & _). destruct HC as (r & _ & Hi' & _).
  pose proof (loaded_row _ _ _ db1 row i r' (same_keys_unique _ _ HK Hu) EL Hi' Hk) as ->.
  by apply submit_accepted in ES.
Qed.

Lemma dispatch_all_or_nothing_witness :
  ∃ resp w' db', HandleDispatch (λ s, s) 5 (λ _, None) (λ _, None) (mkHandler "w1" "t" false) "POST" "bearer t"
    (Some (mkDispatchRequest 100 1 2 1 "w1" "http://n1" 0)) (Some (WithInboundDispatch 1 (mkWorker None))) sql_start =
    (resp, (Some w', db')) ∧ rs_Code resp = StatusAccepted ∧ length (inbox w') = 1%nat.
Proof.
  destruct (HandleDispatch (λ s, s) 5 (λ _, None) (λ _, None) (mkHandler "w1" "t" false) "POST" "bearer t"
    (Some (mkDispatchRequest 100 1 2 1 "w1" "http://n1" 0)) (Some (WithInboundDispatch 1 (mkWorker None))) sql_start)
    as [resp [sub' db']] eqn:E.
  destruct (dispatch_all_or_nothing _ _ _ _ _ _ _ _ _ _ _ _ _ sql_start_unique E) as
    [(Hc & req & w & w' & i & r' & H1 & H2 & -> & _ & Hi)|(Hc & _)].
  - eexists _, _, _. split; [reflexivity|]. split; [exact Hc|]. injection H2 as <-. by rewrite Hi.
  - exfalso. apply Hc. apply (f_equal (λ p, rs_Code p.1)) in E. simpl in E. rewrite <- E. vm_compute. reflexivity.
Defined.

(** * Peers *)

Section peers.
Context (baseURL : string → string).

(** An address the loop can post to. *)
Definition usable (addr : string) : Prop :=
  TrimSpace addr = addr ∧ addr ≠ "" ∧ HasPrefixAt addr = false ∧ baseURL addr ≠ "".

Lemma addPeer_cases out addr : addPeer baseURL out addr = out ∨
  (TrimSpace addr ∉ map p_nodeID out ∧ addPeer baseURL out addr = out ++ [mkPeer (TrimSpace addr) (baseURL (TrimSpace addr))]).
Proof.
  unfold addPeer. destruct (_ || _); [by left|]. case_bool_decide as Hin; [by left|].
  destruct (_ =s ""); [by left|]. by right.
Qed.

Lemma addPeer_nodup out addr : NoDup (map p_nodeID out) → NoDup (map p_nodeID (addPeer baseURL out addr)).
Proof.
  intros Hnd. destruct (addPeer_cases out addr) as [->|[Hn ->]]; [done|]. rewrite map_app. apply NoDup_app.
  split; [done|]. split; [|apply NoDup_singleton]. intros x Hx ->%list_elem_of_singleton. done.
Qed.

Lemma addPeer_urls out addr : (∀ p, p ∈ out → p_baseURL p = baseURL (p_nodeID p)) →
  ∀ p, p ∈ addPeer baseURL out addr → p_baseURL p = baseURL (p_nodeID p).
Proof.
  intros H p. destruct (addPeer_cases out addr) as [->|[_ ->]]; [by apply H|].
  intros [Hp| ->%list_elem_of_singleton]%elem_of_app; [by apply H|done].
Qed.

Lemma addPeer_self out addr : usable addr → (∀ p, p ∈ out → p_baseURL p = baseURL (p_nodeID p)) →
  mkPeer addr (baseURL addr) ∈ addPeer baseURL out addr.
Proof.
  intros (Ht & He & Hp & Hb) Hu. unfold addPeer. rewrite Ht, Hp. unfold str_eqb.
  rewrite (bool_decide_eq_false_2 (addr = "")) by done. simpl. case_bool_decide as Hin.
  - apply list_elem_of_In, in_map_iff in Hin as (p & Hid & Hin%list_elem_of_In). destruct p as [id url]. simpl in Hid. subst id.
    pose proof (Hu _ Hin) as Hurl. simpl in Hurl. by subst url.
  - rewrite bool_decide_eq_false_2 by done. apply elem_of_app. right. by apply list_elem_of_singleton.
Qed.

Lemma addPeers_ok raw out : NoDup (map p_nodeID out) → (∀ p, p ∈ out → p_baseURL p = baseURL (p_nodeID p)) →
  NoDup (map p_nodeID (fold_left (addPeer baseURL) raw out)) ∧
  ∀ p, p ∈ fold_left (addPeer baseURL) raw out → p_baseURL p = baseURL (p_nodeID p).
Proof.
  revert out. induction raw as [|a raw IH]; intros out Hn Hu; [done|]. simpl. apply IH; [by apply addPeer_nodup|by apply addPeer_urls].
Qed.
End peers.

Lemma buildPeers_ok raw l : NoDup (map p_nodeID (buildPeers raw l)) ∧
  (usable (dc_PeerBaseURL (dl_cfg l)) (dc_NodeID (dl_cfg l)) →
   mkPeer (dc_NodeID (dl_cfg l)) (dc_PeerBaseURL (dl_cfg l) (dc_NodeID (dl_cfg l))) ∈ buildPeers raw l).
Proof.
  unfold buildPeers. destruct (addPeers_ok (dc_PeerBaseURL (dl_cfg l)) raw []) as [H1 H2];
    [constructor|intros p Hp; by apply elem_of_nil in Hp|].
  split; [by apply addPeer_nodup|]. intros Hs. by apply addPeer_self.
Qed.

(** The node itself is never benched. *)
Definition self_ok (cfg : DispatchLoopConfig) (s : LoopState) : Prop :=
  dl_cfg (ls_loop s) = cfg ∧ dl_benchedPeers (ls_loop s) !! dc_NodeID cfg = None.

Lemma healthy_self cfg now peers l m w : self_ok cfg (mkLoopState l m w) →
  self_ok cfg (mkLoopState (healthyPeers now peers l).2 m w).
Proof.
  intros [H1 H2]. split; [done|]. simpl in *. apply map_lookup_filter_None_2. by left.
Qed.

Section ticks.
Context (sha256 : string → string) (rules : option (uuid → uuid → limit_error + option Rule)).
Context (us : uuid → string) (up : string → option uuid).
Context (i1 i2 : RunTopology → list uuid) (i3 : RunState → list uuid).

Lemma dispatchOne_self cfg now env run gen p0 peers dt s : self_ok cfg s →
  self_ok cfg (dispatchOne sha256 rules now env run gen p0 peers dt s).
Proof.
  intros [H1 H2]. unfold dispatchOne, nextIndex. cbv zeta.
  destruct (acquireRateLimit _ _ _ _ _ _) as [ok s1] eqn:E.
  assert (self_ok cfg s1) as [H3 H4].
  { revert E. unfold acquireRateLimit. repeat case_match; intros; simplify_eq; by split. }
  destruct ok; [|done]. unfold postOne. destruct (PostDispatch _ _ _ _ _ _ _) as [[[]|] w]; [by split..|].
  unfold benchPeer. destruct (_ =s _) eqn:Ep; [by split|]. split; [done|]. simpl. rewrite lookup_insert_ne; [done|].
  unfold str_eqb in Ep. apply bool_decide_eq_false in Ep. congruence.
Qed.

Lemma dispatchTasks_self cfg now env run gen p0 peers tasks s : self_ok cfg s →
  self_ok cfg (dispatchTasks sha256 rules now env run gen p0 peers tasks s).
Proof. revert s. induction tasks as [|dt tasks IH]; intros s Hs; [done|]. simpl. by apply IH, dispatchOne_self. Qed.

Lemma filterDelayed_self cfg run now ready l m w : self_ok cfg (mkLoopState l m w) →
  self_ok cfg (mkLoopState (filterDelayed run now ready l).2 m w).
Proof.
  revert l. induction ready as [|dt ready IH]; intros l Hl; [done|]. simpl.
  destruct (rateLimitDelayed run (dt_TaskID dt) now l) as [b l1] eqn:E.
  assert (self_ok cfg (mkLoopState l1 m w)) as H1.
  { revert E. unfold rateLimitDelayed. repeat case_match; intros; simplify_eq; done. }
  specialize (IH l1 H1). by destruct (filterDelayed run now ready l1).
Qed.

Lemma dispatchRun_self cfg now env p0 peers s run : self_ok cfg s →
  self_ok cfg (dispatchRun sha256 rules us up i1 i2 i3 now env p0 peers s run).
Proof.
  intros Hs. destruct run as [run gen]. unfold dispatchRun. destruct (ls_manager s) as [m|] eqn:Em; [|by apply dispatchTasks_self].
  assert (∀ m0 s0, self_ok cfg s0 → self_ok cfg (match ReadyForDispatch run m0 with
    | [] => s0
    | (_ :: _) as ready => let '(ready0, l) := filterDelayed run now ready (ls_loop s0) in
        dispatchTasks sha256 rules now (re_posts env) run gen p0 peers (take (Z.to_nat (dc_BatchSize (dl_cfg l))) ready0)
          (mkLoopState l (ls_manager s0) (ls_world s0)) end)) as HD.
  { intros m0 s0 H0. destruct (ReadyForDispatch run m0) as [|dt ready]; [done|].
    pose proof (filterDelayed_self cfg run now (dt :: ready) (ls_loop s0) (ls_manager s0) (ls_world s0)) as HF.
    destruct (filterDelayed run now (dt :: ready) (ls_loop s0)) as [r l]. apply dispatchTasks_self. apply HF. by destruct s0. }
  unfold dispatchRunInMemory. destruct (Owns run m); [by apply HD|].
  destruct (Recover _ _ _ _ _ _ _ _ _ _ _) as [[e|res] [m1 db1]]; [done|]. by apply HD.
Qed.

Lemma tick_self cfg now env fault raw iter s : self_ok cfg s →
  self_ok cfg (tick sha256 rules us up i1 i2 i3 now env fault raw iter s).
Proof.
  intros Hs. unfold tick. cbv zeta. set (s1 := match ls_manager s with Some _ => _ | None => _ end).
  assert (self_ok cfg s1) as H1 by (subst s1; by destruct (ls_manager s)).
  destruct raw as [raw|]; [|done]. destruct (buildPeers raw (ls_loop s1)) as [|p ps]; [done|].
  pose proof (healthy_self cfg now (p :: ps) (ls_loop s1) (ls_manager s1) (ls_world s1)) as HH.
  destruct (healthyPeers now (p :: ps) (ls_loop s1)) as [peers l]. cbn [snd] in HH.
  assert (self_ok cfg (mkLoopState l (ls_manager s1) (ls_world s1))) as H2 by (apply HH; by destruct s1).
  destruct peers as [|p0 peers]; [done|]. generalize (iter (OwnedRunsWithGenerations now (dc_NodeID (dl_cfg (ls_loop s)))
    (wd_db (ls_world (mkLoopState l (ls_manager s1) (ls_world s1)))))). intros runs. revert H2.
  generalize (mkLoopState l (ls_manager s1) (ls_world s1)). induction runs as [|r runs IH]; intros s2 H2; [done|].
  simpl. by apply IH, dispatchRun_self.
Qed.

(** A loop after any number of sweeps, with changes to the rest of the state between. *)
Inductive loop_reachable (cfg : DispatchLoopConfig) : LoopState → Prop :=
| lr_new m w : loop_reachable cfg (mkLoopState (NewDispatchLoop cfg) m w)
| lr_tick now env fault raw iter s : loop_reachable cfg s →
    loop_reachable cfg (tick sha256 rules us up i1 i2 i3 now env fault raw iter s)
| lr_other m w s : loop_reachable cfg s → loop_reachable cfg (mkLoopState (ls_loop s) m w).

Lemma reachable_self cfg s : loop_reachable cfg s → self_ok (dl_cfg (NewDispatchLoop cfg)) s.
Proof.
  induction 1 as [m w|now env fault raw iter s _ IH|m w s _ IH]; [|by apply tick_self|done]. split; [done|]. apply lookup_empty.
Qed.

(** The loop always has someone to dispatch to and never waits on a dead node. In
    every state of the loop, whatever peers are discovered, the rotation of a sweep has
    no duplicates, contains the node itself, and is exactly the discovered peers whose
    bench of ten seconds after a network error has passed or never was. *)
Lemma peers_available cfg s now raw :
  loop_reachable cfg s → usable (dc_PeerBaseURL cfg) (dc_NodeID cfg) →
  let peers := (healthyPeers now (buildPeers raw (ls_loop s)) (ls_loop s)).1 in
  NoDup (map p_nodeID peers) ∧ mkPeer (dc_NodeID cfg) (dc_PeerBaseURL cfg (dc_NodeID cfg)) ∈ peers ∧
  ∀ p, p ∈ peers ↔ p ∈ buildPeers raw (ls_loop s) ∧
    ∀ t, dl_benchedPeers (ls_loop s) !! p_nodeID p = Some t → t ≤ now.
Proof.
  intros [H1 H2]%reachable_self Hs. destruct (buildPeers_ok raw (ls_loop s)) as [Hnd Hself]. rewrite H1 in Hself.
  cbn [dl_cfg NewDispatchLoop dc_NodeID dc_PeerBaseURL] in *. specialize (Hself Hs). unfold healthyPeers. cbn [fst].
  set (all := buildPeers raw (ls_loop s)) in *. set (out := List.filter _ all).
  assert (∀ p, p ∈ out ↔ p ∈ all ∧ ∀ t, dl_benchedPeers (ls_loop s) !! p_nodeID p = Some t → t ≤ now) as Hout.
  { intros p. unfold out. rewrite !list_elem_of_In, List.filter_In. rewrite negb_true_iff, bool_decide_eq_false.
    rewrite <- eq_None_not_Some, map_lookup_filter_None. apply and_iff_compat_l. split.
    - intros [E|E] t Ht; [congruence|]. specialize (E t Ht). simpl in E. lia.
    - intros E. right. intros t Ht. specialize (E t Ht). simpl. lia. }
  assert (mkPeer (dc_NodeID cfg) (dc_PeerBaseURL cfg (dc_NodeID cfg)) ∈ out) as Hin.
  { apply Hout. split; [done|]. intros t Ht. simpl in Ht. congruence. }
  destruct out as [|p ps] eqn:Eo; [by apply elem_of_nil in Hin|]. rewrite <- Eo in *. split; [|by split].
  subst out. clear -Hnd. induction all as [|q all IH]; [constructor|]. inversion Hnd as [|? ? Hq Hnd']; subst. simpl.
  destruct (negb _); [|by apply IH]. simpl. constructor; [|by apply IH].
  intros (q' & He & [Hq' _]%List.filter_In)%list_elem_of_In%in_map_iff. apply Hq, list_elem_of_In, in_map_iff. by exists q'.
Qed.
End ticks.

(** A loop whose peer "b" was unreachable at time 3: it is out of the rotation at time
    4 and back after the cooldown. *)
Definition bench_loop : DispatchLoop := NewDispatchLoop (mkDispatchLoopConfig "a" "t" 0 0 0 (λ s, "http://" +:+ s)).

Lemma peers_available_witness :
  ∃ s, loop_reachable (λ s, s) None (λ _, "") (λ _, None) (λ _, []) (λ _, []) (λ _, [])
         (mkDispatchLoopConfig "a" "t" 0 0 0 (λ s, "http://" +:+ s)) s ∧
    map p_nodeID (healthyPeers 4 (buildPeers ["b"; " a "; "b"; ""; "@x"] (ls_loop s)) (ls_loop s)).1 = ["b"; "a"] ∧
    NoDup (map p_nodeID (healthyPeers 4 (buildPeers ["b"; " a "; "b"; ""; "@x"] (ls_loop s)) (ls_loop s)).1).
Proof.
  eexists (mkLoopState bench_loop None (mkWorld sql_start ∅ [])).
  split; [constructor|]. split; [vm_compute; reflexivity|].
  apply (peers_available (λ s, s) None (λ _, "") (λ _, None) (λ _, []) (λ _, []) (λ _, [])
    (mkDispatchLoopConfig "a" "t" 0 0 0 (λ s, "http://" +:+ s))); [constructor|]. repeat split; discriminate.
Defined.

Example bench_skips_peer :
  let l := benchPeer 3 "b" bench_loop in
  (map p_nodeID (healthyPeers 4 (buildPeers ["b"; "c"] l) l).1,
   map p_nodeID (healthyPeers (3 + peerBenchCooldown) (buildPeers ["b"; "c"] l) l).1) = (["c"; "a"], ["b"; "c"; "a"]).
Proof. vm_compute. reflexivity. Qed.

(** The peers of [k] successive dispatches. *)
Fixpoint picks (k : nat) (p0 : peer) (peers : list peer) (l : DispatchLoop) : list peer :=
  match k with
  | O => []
  | S k => let '(idx, l) := nextIndex l in pickPeer p0 peers idx :: picks k p0 peers l
  end.

Lemma picks_lookup k p0 peers l (i : nat) : 0 ≤ dl_counter l → dl_counter l + Z.of_nat k ≤ 2 ^ 64 → (i < k)%nat →
  picks k p0 peers l !! i = Some (pickPeer p0 peers (dl_counter l + Z.of_nat i)).
Proof.
  revert l i. induction k as [|k IH]; intros l i H0 H1 Hi; [lia|]. cbn [picks nextIndex]. destruct i as [|i]; simpl.
  - by rewrite Z.add_0_r.
  - destruct k as [|k]; [lia|]. rewrite Z.mod_small in * by lia. rewrite IH; simpl; [|lia..]. do 2 f_equal. lia.
Qed.

Lemma picks_length k p0 peers l : length (picks k p0 peers l) = k.
Proof. revert l. induction k as [|k IH]; intros l; [done|]. simpl. by rewrite IH. Qed.

Lemma pick_lookup p0 peers idx : peers ≠ [] →
  peers !! Z.to_nat (idx mod Z.of_nat (length peers)) = Some (pickPeer p0 peers idx).
Proof.
  intros Hne. unfold pickPeer. assert (0 < length peers)%nat by (destruct peers; simpl; [done|lia]).
  pose proof (Z.mod_pos_bound idx (Z.of_nat (length peers))) as Hb. rewrite nth_lookup.
  destruct (lookup_lt_is_Some_2 peers (Z.to_nat (idx mod Z.of_nat (length peers)))) as [p Hp]; [lia|]. by rewrite Hp.
Qed.

(** The rotation is fair: as many successive dispatches as there are peers go to
    every peer exactly once (as long as the 64-bit counter does not wrap between). *)
Lemma round_robin_fair p0 peers l :
  0 ≤ dl_counter l → dl_counter l + Z.of_nat (length peers) ≤ 2 ^ 64 → picks (length peers) p0 peers l ≡ₚ peers.
Proof.
  intros H0 H1. destruct (decide (length peers = 0)%nat) as [->%nil_length_inv|Hne]; [done|].
  assert (peers ≠ []) as Hn by (by intros ->). set (n := length peers) in *. set (c := dl_counter l) in *.
  set (r := Z.to_nat (c mod Z.of_nat n)). pose proof (Z.mod_pos_bound c (Z.of_nat n)) as Hb.
  assert (picks n p0 peers l = drop r peers ++ take r peers) as ->.
  2:{ rewrite Permutation_app_comm. by rewrite take_drop. }
  apply list_eq_same_length with n; [rewrite length_app, length_drop, length_take; lia|by rewrite picks_length|].
  intros i x y Hi Hx Hy. rewrite picks_lookup in Hx by lia. fold c in Hx. injection Hx as <-.
  pose proof (pick_lookup p0 peers (c + Z.of_nat i) Hn) as Hp. fold n in Hp.
  assert (peers !! Z.to_nat ((c + Z.of_nat i) mod Z.of_nat n) = Some y) as Hy'; [|congruence].
  assert ((c + Z.of_nat i) mod Z.of_nat n = if (Z.of_nat r + Z.of_nat i <? Z.of_nat n) then Z.of_nat r + Z.of_nat i else Z.of_nat r + Z.of_nat i - Z.of_nat n) as ->.
  { rewrite Z.add_mod by lia. rewrite (Z.mod_small (Z.of_nat i)) by lia. replace (c mod Z.of_nat n) with (Z.of_nat r) by lia.
    destruct (Z.ltb_spec (Z.of_nat r + Z.of_nat i) (Z.of_nat n)); [by apply Z.mod_small; lia|].
    replace (Z.of_nat r + Z.of_nat i) with (Z.of_nat r + Z.of_nat i - Z.of_nat n + 1 * Z.of_nat n) at 1 by lia.
    rewrite Z.mod_add by lia. apply Z.mod_small. lia. }
  destruct (Z.ltb_spec (Z.of_nat r + Z.of_nat i) (Z.of_nat n)) as [Hlt|Hge].
  - rewrite lookup_app_l in Hy by (rewrite length_drop; lia). rewrite lookup_drop in Hy. rewrite <- Hy. f_equal. lia.
  - rewrite lookup_app_r, length_drop in Hy by (rewrite length_drop; lia). rewrite lookup_take_lt in Hy by lia.
    rewrite <- Hy. f_equal. lia.
Qed.

Lemma round_robin_fair_witness :
  picks 3 (mkPeer "a" "") [mkPeer "a" ""; mkPeer "b" ""; mkPeer "c" ""] (set_counter 7 bench_loop) =
    [mkPeer "b" ""; mkPeer "c" ""; mkPeer "a" ""] ∧
  picks 3 (mkPeer "a" "") [mkPeer "a" ""; mkPeer "b" ""; mkPeer "c" ""] (set_counter 7 bench_loop) ≡ₚ
    [mkPeer "a" ""; mkPeer "b" ""; mkPeer "c" ""].
Proof.
  split; [reflexivity|].
  apply (round_robin_fair (mkPeer "a" "") [mkPeer "a" ""; mkPeer "b" ""; mkPeer "c" ""] (set_counter 7 bench_loop)); simpl; lia.
Defined.
