(* ===== verification/Findings.v ===== *)
(** Behaviours of the code that its comments or its other execution mode
    contradict, as theorems: a repeated completion report erases the row's place in
    the recovery order, the two advancement paths disagree on a branch task that
    selects nothing, an owner that loses and regains its lease never notices, two kinds of
    job definition that validation accepts cannot be applied or never finish, a job that
    is revived evades the check for trigger cycles, and an HTTP trigger whose declared
    path is a bare slash cannot be reached. *)

From S2P Require Import JobDef StepGraph StepTheorems Validate RuntimeSpec Importer TriggerChain ChainTheorems EventTrigger.
From S2P Require Import Prelude TriggerRule Tables Store TxLogic RunState TaskOps RunOps RunStateInv Advance.
From S2P Require Import OwnerSteps Topology SqlAdvance TaskTheorems OwnerRun OwnerTheorems Recovery Replay.
From S2P Require Import Checkpoints OwnerManager Durable Leases RateLimit Dispatch DispatchLoop Cluster.

(** The finalization leaves the task rows alone. *)
Lemma Complete_rows faults now run res db : task_runs (Complete faults now run res db).2 = task_runs db.
Proof.
  assert (tx_rel same_rows (completeRunTx now run res)) as H.
  { unfold completeRunTx, run_event, firstRun. tx_solve; try (apply tx_rel_append, same_rows_events).
    intros db1 n db2 E. unfold UpdateJobRuns, Exec in E. destruct (update_where _ _ _). by simplify_eq/=. }
  unfold Complete. destruct (withStoreBusyRetry _ _ db) as [r db'] eqn:E. apply busyRetryLoop_atomic in E.
  assert (task_runs db' = task_runs db); [|by repeat case_match; simplify_eq/=].
  destruct r; [by rewrite E|by eapply H].
Qed.

Lemma finalize_rows us mf now run b m db : task_runs (finalizeRun us mf now run b m db).2 = task_runs db.
Proof.
  unfold finalizeRun, Drop. cbv zeta. set (runErr := if b then _ else _).
  destruct (get run m) as [or|]; [|apply Complete_rows].
  pose proof (Force_rows us (mf_drop mf) now (or_state or) (or_gen or) (or_writer or)
    (Complete (mf_finalize mf) now run runErr db).2) as E.
  destruct (Force us now (or_state or) (or_gen or) (or_writer or) _) as [[e w] db1]. simpl in *.
  rewrite E. apply Complete_rows.
Qed.

(** C39: a completion report of an already finished task (as after a lost response or a
    contention error the worker was told to retry), when it is accepted and carries no
    branch decision, rewrites the task's row with the reported status and sequence number
    0, so that no recovery from any snapshot reads the row again. *)
Theorem repeated_report_hides_row us mf now run x s result errMsg cb output or m db co m' db' r' :
  rows_unique db → get run m = Some or → live_at (or_state or) x = false →
  ManagerComplete us mf now run x s result errMsg cb output [] m db = (inr co, (m', db')) →
  r' ∈ task_runs db' → task_key r' = (run, x) →
  tr_Status r' = s ∧ tr_TerminalSequence r' = 0 ∧ ∀ n, 0 ≤ n → r' ∉ TerminalTaskRunsSince run n db'.
Proof.
  intros Hu Hg Hx HE Hr' Hk. revert HE. unfold ManagerComplete. rewrite Hg. cbn [branchSkipsOf].
  rewrite ApplyCompletion_noop by done. cbn [cr_TerminalSequence cr_Skipped cr_Complete cr_Ready].
  destruct (withStoreBusyRetry _ _ db) as [[e|[]] db1] eqn:EC; [done|]. apply busyRetryLoop_atomic in EC.
  apply CompleteTaskOwner_rows in EC as [_ F]; [|done|constructor|by apply not_elem_of_nil].
  destruct (Maybe us now (or_state or) (or_gen or) (or_writer or) db1) as [[e w] db2] eqn:EM.
  pose proof (Maybe_rows us (mf_maybe mf) now (or_state or) (or_gen or) (or_writer or) db1) as Er. rewrite EM in Er. simpl in Er.
  set (m2 := set_runs _ _). intros HE.
  assert (task_runs db' = task_runs db1) as Erow.
  { rewrite <- Er. destruct (IsComplete (or_state or)).
    - pose proof (finalize_rows us mf now run (HasFailures (or_state or)) m2 db2) as Ef.
      destruct (finalizeRun _ _ _ _ _ m2 db2) as [m3 db3]. by simplify_eq.
    - by simplify_eq. }
  rewrite Erow in Hr'. destruct (Forall2_elem_r _ _ _ _ F Hr') as (r & Hr & K & X & _).
  destruct X as [E1 E2]; [congruence|]. split; [done|]. split; [done|].
  intros n Hn (_ & _ & Hlt & _)%tail_elem. lia.
Qed.

(** In the run of [failed_sys] the worker repeats its report: the row is hidden,
    and a takeover runs the finished task a second time. *)
Definition repeated :=
  ManagerComplete demo_String no_complete_faults 3 100 1 TaskStatusFailed "failure" "" "worker-a" ∅ []
    failed_sys.1 failed_sys.2.

Lemma repeated_report_hides_row_witness : ∃ r',
  r' ∈ task_runs repeated.2.2 ∧ tr_TerminalSequence r' = 0 ∧
  Ready 100 (Recover demo_String demo_Parse topo_order topo_order map_order no_recover_faults 40 100 2 (NewOwnerManager demo_cfg)
               repeated.2.2).2.1 = [1%N].
Proof.
  set (r' := default (sql_row 1 TaskStatusPending "" 0) (task_runs repeated.2.2 !! 0%nat)).
  assert (r' ∈ task_runs repeated.2.2) as Hin by (apply (list_elem_of_lookup_2 _ 0); vm_compute; reflexivity).
  exists r'. split; [done|]. split; [|vm_compute; reflexivity].
  refine (proj1 (proj2 (repeated_report_hides_row demo_String no_complete_faults 3 100 1 TaskStatusFailed
    "failure" "" "worker-a" ∅ (default (mkOwnedRun demo_start (NewCheckpointWriter 0 100 demo_cfg) 0) (get 100 failed_sys.1))
    failed_sys.1 failed_sys.2 (mkCompleteResult [] false true) repeated.2.1 repeated.2.2 r' _ _ _ _ Hin _))).
  - unfold rows_unique. decide_vm.
  - vm_compute. reflexivity.
  - vm_compute. reflexivity.
  - vm_compute. reflexivity.
  - vm_compute. reflexivity.
Defined.

(** A branch task 1 with successors 2 and 3, claimed by a worker. *)
Definition branch_db : DB :=
  mkDB [] [mkTask 1 7 "pick" 0 "branch" "" 0 ∅; mkTask 2 7 "left" 1 "task" "" 0 ∅; mkTask 3 7 "right" 2 "task" "" 0 ∅]
    [mkTaskEdge 7 1 2; mkTaskEdge 7 1 3]
    [mkJobRun 100 7 None 0 "running" 2 BlobEmpty "" false 0 None]
    [sql_row 1 TaskStatusRunning "worker-a" 0; sql_row 2 TaskStatusPending "" 1; sql_row 3 TaskStatusPending "" 1]
    [] [] [] [].

(** A branch task that selects nothing ends differently in the two execution
    modes: the SQL path skips every successor, the in-memory owner makes every
    successor ready. *)
Lemma empty_branch_diverges :
  (∃ skipped db', completeTask demo_String 1 100 1 "success" "worker-a" true ∅ [] branch_db = inr (skipped, db') ∧
     skipped = [2; 3]%N ∧
     map tr_Status (task_runs db') = [TaskStatusSucceeded; TaskStatusSkipped; TaskStatusSkipped]) ∧
  (ManagerComplete demo_String no_complete_faults 1 100 1 TaskStatusSucceeded "success" "" "worker-a" ∅ []
     (Adopt topo_order topo_order None 0 100 1 (NewOwnerManager demo_cfg) branch_db).2 branch_db).1 =
    inr (mkCompleteResult [2; 3]%N false true).
Proof. split; [eexists _, _; split; [vm_compute; reflexivity|split; vm_compute; reflexivity]|vm_compute; reflexivity]. Qed.

(** A node with an empty in-memory queue dispatches nothing, whatever the database
    says. *)
Lemma sweep_idle sha rules us up i1 i2 i3 now env run gen p0 peers m l w : Owns run m = true → Ready run m = [] →
  dispatchRunInMemory sha rules us up i1 i2 i3 now env run gen p0 peers m (mkLoopState l (Some m) w) =
    mkLoopState l (Some m) w.
Proof.
  intros Ho Hr. unfold dispatchRunInMemory. rewrite Ho. assert (ReadyForDispatch run m = []) as ->; [|done].
  rewrite <- ready_dispatchable in Hr. by apply map_eq_nil in Hr.
Qed.

(** The owner n1 pushes task 1 to a worker and loses its lease at 100 s; n2 takes the
    run over, dispatches task 1 again and receives its report, which readies task 2;
    n2 falls silent, and n1 takes the expired lease back at 200 s. *)
Definition demo_tick (now : Z) (s : LoopState) : LoopState :=
  tick demo_sha None demo_String demo_Parse topo_order topo_order map_order now (λ _, demo_env) None (Some ["worker-a"])
    map_to_list s.

Definition first_owner : LoopState := demo_tick 1 (mkLoopState (demo_loop "n1") (Some (NewOwnerManager demo_cfg)) demo_world).

Definition second_owner : LoopState :=
  demo_tick (101 * second) (mkLoopState (demo_loop "n2") (Some (NewOwnerManager demo_cfg)) (ls_world first_owner)).

Definition second_report : Response * (option OwnerManager * DB) :=
  HandleComplete demo_sha demo_String (102 * second) no_complete_faults (mkHandler "n2" demo_token true) "POST"
    "Bearer token" (Some (mkCompleteRequest 100 1 2 2 "worker-a" TaskStatusFailed "failure" ∅ [] ""))
    (ls_manager second_owner) (wd_db (ls_world second_owner)).

Definition back_again : LoopState :=
  demo_tick (200 * second)
    (mkLoopState (ls_loop first_owner) (ls_manager first_owner) (set_db second_report.2.2 (ls_world second_owner))).

Definition back_manager : OwnerManager := default (NewOwnerManager demo_cfg) (ls_manager back_again).

(** A node that regains a lease resumes from the memory it had when it lost it:
    nothing drops the tracked state on lease loss, and a sweep recovers only runs it
    does not track. After the handover from n1 to n2 and back, n1 owns the run, the row
    of task 1 is finished and task 2 is dispatchable for n2, yet n1 still has task 1 in
    flight and nothing queued, and none of its later sweeps dispatches anything. *)
Lemma regained_lease_stalls_run :
  IsOwner (200 * second) "n1" 100 (wd_db (ls_world back_again)) = true ∧
  rs_Code second_report.1 = StatusOK ∧ (Ready 100 <$> second_report.2.1) = Some [2%N] ∧
  map tr_Status (task_runs (wd_db (ls_world back_again))) = [TaskStatusFailed; TaskStatusPending; TaskStatusPending] ∧
  ls_manager back_again = Some back_manager ∧
  ∀ now env gen p0 peers l w,
    dispatchRunInMemory demo_sha None demo_String demo_Parse topo_order topo_order map_order now env 100 gen p0 peers
      back_manager (mkLoopState l (Some back_manager) w) = mkLoopState l (Some back_manager) w.
Proof.
  split; [vm_compute; reflexivity|]. split; [vm_compute; reflexivity|]. split; [vm_compute; reflexivity|].
  split; [vm_compute; reflexivity|]. split; [vm_compute; reflexivity|]. intros. apply sweep_idle; vm_compute; reflexivity.
Qed.

(** * Job definitions *)

(** A one-branch job whose branch step has only a blank entry in [next], and a job
    whose only step asks for more units than its limit grants in a window. *)
Definition blank_branch : Definition_ :=
  mkDefinition "v1" "Job" (mkMetadata "pick" "" None [] "" false None None "" ∅ None) (mkTrigger "cron" None []) [] []
    [mkStep "pick" StepTypeBranch EngineDocker "img" [] [" "] [] 0 0 false "" false (mkContainerSpec ∅ "" [] [] None)
       [] "" ∅ None None None None [] None ∅].

Definition oversized : Definition_ :=
  mkDefinition "v1" "Job" (mkMetadata "bulk" "" None [mkRateLimit "api" 10 "1m"] "" false None None "" ∅ None)
    (mkTrigger "cron" None []) [] []
    [mkStep "load" StepTypeTask EngineDocker "img" [] [] [] 0 0 false "" false (mkContainerSpec ∅ "" [] [] None)
       [] "" ∅ None None (Some (mkStepRateLimit "api" 11)) None [] None ∅].

(** A definition can pass [Validate] once and fail it the second time, and the apply
    path of the server validates twice: the rule that a branch step names a successor
    counts blank entries, which the same pass then removes from the step. *)
Lemma blank_branch_validates_once now Marshal map_order registries faults runs opts c : ∃ d e,
  Validate demo_parse demo_compile false canonical_order blank_branch = inr d ∧
  ApplyWithOptions now Marshal demo_parse demo_compile false canonical_order map_order registries faults runs d opts c =
    (Some (inl (ErrDefinition e)), c).
Proof.
  destruct (Validate demo_parse demo_compile false canonical_order blank_branch) as [e|d] eqn:Ed;
    [vm_compute in Ed; discriminate Ed|].
  destruct (Validate demo_parse demo_compile false canonical_order d) as [e|d'] eqn:Ee.
  - exists d, e. split; [done|]. unfold ApplyWithOptions. by rewrite Ee.
  - vm_compute in Ed. injection Ed as <-. vm_compute in Ee. discriminate Ee.
Qed.

(** Validation accepts a step that asks for more units than its resource grants in a
    window; the rule it resolves to is refused at every instant and whatever was consumed
    so far, so the task is put off for ever. *)
Lemma oversized_units_never_granted : ∃ d s rl rule,
  Validate demo_parse demo_compile false canonical_order oversized = inr d ∧ def_Steps d = [s] ∧
  s_RateLimit s = Some rl ∧
  RuleFromRateLimits demo_parse "bulk" (md_RateLimits (def_Metadata d)) (srl_Resource rl) (srl_Units rl) = inr (Some rule) ∧
  ∀ now tbl, Acquire now (ru_Resource rule) (ru_Units rule) (ru_Limit rule) (ru_Window rule) tbl = (inr false, tbl).
Proof.
  eexists _, _, _, _. split; [vm_compute; reflexivity|]. split; [reflexivity|]. split; [reflexivity|].
  split; [vm_compute; reflexivity|]. intros now tbl. reflexivity.
Qed.

(** The jobs the trigger chain check sees: those not soft deleted. *)
Definition live_jobs (c : Catalog) : list (uuid * string) :=
  map (λ j, (jb_ID j, jb_Alias j)) (select (λ j, negb (jb_Deleted j)) (c_jobs c)).

Definition retired_catalog : Catalog :=
  mkCatalog [mkJobRow 1 "extract" 0 "" BlobEmpty BlobEmpty "" false false "" true;
             mkJobRow 2 "transform" 0 "" BlobEmpty BlobEmpty "" false false "" false] [] [] [] [] [] 3.

Definition transform_row : ChainRow :=
  mkChainRow 2 "transform" "event" (BlobJson (JObj (event_config [("job_id", JStr (demo_uuid_text 1))]))).

(** [extract] comes back as a job that follows [transform]. *)
Definition revived : Definition_ :=
  mkDefinition "v1" "Job" (mkMetadata "extract" "" None [] "" false None None "" ∅ None)
    (mkTrigger "event" (Some (event_config [("job_alias", JStr "transform")])) []) [] []
    [mkStep "pull" StepTypeTask EngineDocker "img" [] [] [] 0 0 false "" false (mkContainerSpec ∅ "" [] [] None)
       [] "" ∅ None None None None [] None ∅].

(** The event of a completed run of a job reaches the trigger with this configuration. *)
Definition reaches (lookup : uuid → string) (source : uuid) (cfg : object) : Prop :=
  ∃ patterns, parseEvents cfg = Some patterns ∧
    triggerMatches (λ _, "") (λ _, "") patterns
      (lifecycleIngestedEvent demo_uuid_text (λ _, "") (λ _, "") lookup
         (mkLifecycleEvent TypeRunCompleted 7 source 50 uuid_Nil None None)) = true.

(** The trigger chain check does not see a job the apply revives. It reads the live
    jobs only, while the apply finds a soft-deleted job of the same alias and restores it
    under its old identifier: a batch that brings [extract] back after [transform] is
    accepted although the trigger of [transform] names that identifier, and the two jobs
    then start each other. The same check on the stored result is a refusal. *)
Lemma revived_job_evades_cycle_check : ∃ job c',
  ValidateTriggerChains demo_uuid_text (live_jobs retired_catalog) [transform_row] [revived] = inr () ∧
  ApplyWithOptions 0 (λ _, "{}") demo_parse demo_compile false canonical_order (λ l, l) (λ _, inr ()) (λ _, false) []
    revived None retired_catalog = (Some (inr job), c') ∧
  live_jobs c' = [(1%N, "extract"); (2%N, "transform")] ∧ jb_ID job = 1%N ∧
  reaches chain_lookup 1 (event_config [("job_id", JStr (demo_uuid_text 1))]) ∧
  reaches chain_lookup 2 (event_config [("job_alias", JStr "transform")]) ∧
  ValidateTriggerChains demo_uuid_text (live_jobs c') [transform_row] [revived] =
    inl (ErrTriggerChainCycle ["extract"; "transform"; "extract"]).
Proof.
  eexists _, _. split; [vm_compute; reflexivity|]. split; [vm_compute; reflexivity|]. split; [vm_compute; reflexivity|].
  split; [vm_compute; reflexivity|]. split; [eexists; split; [reflexivity|vm_compute; reflexivity]|].
  split; [eexists; split; [reflexivity|vm_compute; reflexivity]|]. vm_compute. reflexivity.
Qed.

(** A webhook whose path is only the prefix of all webhook paths. *)
Definition bare_hook : Definition_ :=
  mkDefinition "v1" "Job" (mkMetadata "hook" "" None [] "" false None None "" ∅ None)
    (mkTrigger "http" (Some [("path", JStr "/v1/hooks")]) []) [] []
    [mkStep "pull" StepTypeTask EngineDocker "img" [] [] [] 0 0 false "" false (mkContainerSpec ∅ "" [] [] None)
       [] "" ∅ None None None None [] None ∅].

(** An HTTP trigger can validate and be applied although no request reaches it.
    Validation requires a path that is not empty, but normalizes it differently from the
    lookup of webhooks: the path "/v1/hooks" passes, is stored as the empty path, and no
    request path ever finds the trigger. *)
Lemma bare_hook_unreachable : ∃ def job c' row,
  Validate demo_parse demo_compile false canonical_order bare_hook = inr def ∧
  ApplyWithOptions 0 (λ _, "{}") demo_parse demo_compile false canonical_order (λ l, l) (λ _, inr ()) (λ _, false) []
    bare_hook None (mkCatalog [] [] [] [] [] [] 1) = (Some (inr job), c') ∧
  row ∈ c_triggers c' ∧ tgr_ID row = jb_TriggerID job ∧ tgr_Deleted row = false ∧ tgr_Type row = TriggerHTTP ∧
  ∀ path, row ∉ ListByPath path c'.
Proof.
  eexists _, _, _, _. split; [vm_compute; reflexivity|]. split; [vm_compute; reflexivity|]. split; [left|].
  split; [reflexivity|]. split; [reflexivity|]. split; [reflexivity|]. intros path. unfold ListByPath. cbv zeta.
  destruct (NormalizedTriggerPath path =s "") eqn:E; [intros H; by apply elem_of_nil in H|].
  intros [_ H]%select_elem. simpl in H. apply andb_true_iff in H as [H _]. apply str_eqb_eq in H. rewrite <- H in E. done.
Qed.
