(* ===== verification/SchemaCompat.v ===== *)
(** Comparison of JSON Schemas for cross-job contracts (pkg/jobdef/schemacompat):
    [Compare] grades the change from one schema to another, [Satisfies] checks a
    producer's schema against what a consumer requires.

    A schema is a [map[string]any]: the values are the Go values that decoding YAML
    and JSON gives, with [[]any] and [[]string] kept apart as the code does. A map is
    a list of pairs read by key; every loop of the code runs over sorted keys. The
    functions that append to [*findings] return what they append. The recursion
    follows the nesting of [properties]: its fuel is the depth of the schema. *)

From Stdlib Require Import SpecFloat.
From stdpp Require Import pretty.
From S2P Require Import Prelude Tables JobDef StepGraph.

(** * Go values *)

(** [AInt] stands for every integer type, [AFloat] for float64 and, widened
    exactly, float32; [ANumber] is a [json.Number]. [ANilSlice] and [ANilMap] are a
    nil slice and a nil map in an interface: empty to every read, not equal to nil,
    and encoded as null. *)
Inductive any : Type :=
| ANil
| ABool (b : bool)
| AStr (s : string)
| AInt (z : Z)
| AFloat (f : spec_float)
| ANumber (text : string)
| ANilSlice
| ASlice (l : list any)
| AStrings (l : list string)
| ANilMap
| AMap (m : list (string * any)).

Abbreviation goMap := (list (string * any)).

(** [m[k]]: nil when the key is absent. *)
Definition at_key (m : goMap) (k : string) : any := default ANil (get k m).

(** [_, ok := m[k]] *)
Definition has_key (m : goMap) (k : string) : bool := if get k m then true else false.

(** [v.(map[string]any)] and [v.([]any)] *)
Definition as_map (v : any) : option goMap := match v with AMap m => Some m | ANilMap => Some [] | _ => None end.
Definition as_slice (v : any) : option (list any) := match v with ASlice l => Some l | ANilSlice => Some [] | _ => None end.

(** Nesting depth of maps in maps. *)
Fixpoint depth (v : any) : nat :=
  match v with
  | ANilMap => 1%nat
  | AMap m => S (fold_right (λ e n, Nat.max (depth e.2) n) 0%nat m)
  | _ => 0%nat
  end.

Definition sortStrings (l : list string) : list string := sort_stable str_less l.
Definition sortedKeys (values : goMap) : list string := sortStrings (elements (list_to_set (map fst values) : gset string)).
Definition sortedSetKeys (values : gset string) : list string := sortStrings (elements values).

(** * Text of values: encoding/json, fmt and the JSON Schema compiler *)

(** The parts of the libraries whose text or verdict the code only passes on: the
    encoding of strings, floats and [json.Number]s, the text of an encoding error,
    [%#v], [json.Number.Float64], and the steps of the schema compiler, each with
    its error text. *)
Class SchemaLib := {
  encodeString : string → string;
  encodeFloat : spec_float → option string;
  encodeNumber : string → option string;
  marshalError : any → string;
  goSyntax : any → string;
  numberFloat64 : string → option spec_float;
  schemaDoc : Type;
  UnmarshalJSON : string → string + schemaDoc;
  AddResource : schemaDoc → option string;
  Compile : schemaDoc → option string;
}.

(** [json.Marshal]: the keys of an object in sorted order. *)
Fixpoint Marshal `{SchemaLib} (v : any) : option string :=
  match v with
  | ANil => Some "null"
  | ABool b => Some (if b then "true" else "false")
  | AStr s => Some (encodeString s)
  | AInt z => Some (pretty z)
  | AFloat f => encodeFloat f
  | ANumber t => encodeNumber t
  | ANilSlice => Some "null"
  | ANilMap => Some "null"
  | ASlice l => texts ← mapM Marshal l; Some ("[" +:+ String.concat "," texts +:+ "]")
  | AStrings l => Some ("[" +:+ String.concat "," (map encodeString l) +:+ "]")
  | AMap m =>
      members ← mapM (λ e, text ← Marshal e.2; Some (e.1, encodeString e.1 +:+ ":" +:+ text)) m;
      Some ("{" +:+ String.concat "," (map snd (sort_stable (λ a b, str_less a.1 b.1) members)) +:+ "}")
  end.

Definition canonicalJSON `{SchemaLib} (value : any) : string :=
  match Marshal value with
  | None => goSyntax value
  | Some data => data
  end.

(** * Findings *)

Definition VerdictBreaking : string := "breaking".
Definition VerdictCompatible : string := "compatible".
Definition VerdictUnknown : string := "unknown".

Definition FindingKindRequiredRemoved : string := "required_removed".
Definition FindingKindTypeNarrowed : string := "type_narrowed".
Definition FindingKindTypeWidened : string := "type_widened".
Definition FindingKindEnumValuesRemoved : string := "enum_values_removed".
Definition FindingKindEnumValuesAdded : string := "enum_values_added".
Definition FindingKindOptionalPropertyAdded : string := "optional_property_added".
Definition FindingKindAdditionalPropertiesTightened : string := "additional_properties_tightened".
Definition FindingKindConstraintRelaxed : string := "constraint_relaxed".
Definition FindingKindUnknownConstruct : string := "unknown_construct".
Definition FindingKindInvalidSchema : string := "invalid_schema".
Definition FindingKindRequirementUnsatisfied : string := "requirement_unsatisfied".
Definition FindingKindRequirementTypeMismatch : string := "requirement_type_mismatch".
Definition FindingKindRequirementUnknown : string := "requirement_unknown".

Record Finding := mkFinding {
  f_Kind : string;
  f_Path : string;
  f_Key : string;
  f_Detail : string;
  f_Verdict : string;
}.

Definition schemaPath : Type := list string.

(** [schemaPath.string] *)
Definition pathString (p : schemaPath) : string := String.concat "." p.

(** [schemaPath.key]: what follows the last [properties] that is not the last part. *)
Fixpoint lastProperty (p : schemaPath) : option string :=
  match p with
  | [] => None
  | a :: p' =>
      match p' with
      | [] => None
      | b :: _ =>
          match lastProperty p' with
          | Some k => Some k
          | None => if a =s "properties" then Some b else None
          end
      end
  end.
Definition pathKey (p : schemaPath) : string := default "" (lastProperty p).

Definition finding (kind : string) (path : schemaPath) (verdict detail : string) : Finding :=
  mkFinding kind (pathString path) (pathKey path) detail verdict.

(** * Reading a schema *)

Definition schemaProperties (schema : goMap) : goMap := default [] (as_map (at_key schema "properties")).

Definition as_string (v : any) : option string := match v with AStr s => Some s | _ => None end.

Definition stringSlice (raw : any) : option (list string) :=
  match as_slice raw with
  | Some l => mapM as_string l
  | None => match raw with AStrings l => Some l | _ => None end
  end.

Definition requiredSet (schema : goMap) : gset string :=
  match stringSlice (at_key schema "required") with
  | None => ∅
  | Some values => list_to_set values
  end.

Definition typeSet : Type := gset string.

Definition schemaTypes (raw : any) : option typeSet :=
  match as_slice raw with
  | Some l => list_to_set <$> mapM as_string l
  | None =>
      match raw with
      | AStr v => Some {[ v ]}
      | AStrings l => Some (list_to_set l)
      | _ => None
      end
  end.

(** [range] over a set whose order does not matter to the result. *)
Definition typeSetsEqual (a b : typeSet) : bool :=
  (size a =? size b)%nat && forallb (λ item, bool_decide (item ∈ b)) (elements a).

Definition hasType (types : typeSet) (item : string) : bool := bool_decide (item ∈ types).

Definition typeSetAllows (allowed : typeSet) (item : string) : bool :=
  if bool_decide (item ∈ allowed) then true
  else (item =s "integer") && hasType allowed "number".

Definition typeSetAllowsAll (allowed required : typeSet) : bool :=
  forallb (typeSetAllows allowed) (elements required).

Definition formatTypes (types : typeSet) : string := String.concat "|" (sortStrings (elements types)).

Definition additionalPropertiesFalse (schema : goMap) : bool :=
  match at_key schema "additionalProperties" with ABool value => negb value | _ => false end.

Definition enumValues `{SchemaLib} (raw : any) : option (list string) :=
  match as_slice raw with
  | Some values => Some (sortStrings (map canonicalJSON values))
  | None =>
      match raw with
      | AStrings values => Some (sortStrings (map (λ s, canonicalJSON (AStr s)) values))
      | _ => None
      end
  end.

Definition enumDifference (a b : list string) : list string :=
  sortStrings (List.filter (λ item, negb (bool_decide (item ∈ b))) a).

Definition formatEnumValues (values : list string) : string :=
  match values with
  | [] => ""
  | _ => String.concat ", " (sortStrings values)
  end.

(** * Keywords *)

Definition unsupportedKeywords : list string :=
  ["$ref"; "allOf"; "anyOf"; "oneOf"; "not"; "if"; "then"; "else"; "patternProperties"; "dependentSchemas"].

Definition supportedKeywords : list string :=
  ["$comment"; "$id"; "$schema"; "additionalProperties"; "default"; "deprecated"; "description"; "enum"; "examples";
   "properties"; "readOnly"; "required"; "title"; "type"; "writeOnly"].

Inductive constraintDirection : Type :=
| lowerBoundConstraint
| upperBoundConstraint
| removalOnlyConstraint
| boolFalseRelaxesConstraint.

Definition relaxableConstraintKeywords : list (string * constraintDirection) :=
  [("exclusiveMaximum", upperBoundConstraint); ("exclusiveMinimum", lowerBoundConstraint);
   ("format", removalOnlyConstraint); ("maxItems", upperBoundConstraint); ("maxLength", upperBoundConstraint);
   ("maxProperties", upperBoundConstraint); ("maximum", upperBoundConstraint); ("minItems", lowerBoundConstraint);
   ("minLength", lowerBoundConstraint); ("minProperties", lowerBoundConstraint); ("minimum", lowerBoundConstraint);
   ("multipleOf", removalOnlyConstraint); ("pattern", removalOnlyConstraint);
   ("uniqueItems", boolFalseRelaxesConstraint)].

Definition sortedConstraintKeys : list string := sortStrings (map fst relaxableConstraintKeywords).

Definition outside (key : string) : string :=
  "keyword " +:+ quoted key +:+ " is outside Caesium's compatibility subset; cannot prove compatibility".

Fixpoint scanUnsupported (fuel : nat) (path : schemaPath) (schema : goMap) (allowConstraints : bool) : list Finding :=
  match fuel with
  | O => []
  | S fuel =>
      concat (map (λ key,
        let value := at_key schema key in
        let keyPath := path ++ [key] in
        if bool_decide (key ∈ unsupportedKeywords) then
          [finding FindingKindUnknownConstruct keyPath VerdictUnknown (outside key)]
        else if negb (bool_decide (key ∈ supportedKeywords)) then
          if (if get key relaxableConstraintKeywords then true else false) && allowConstraints then []
          else [finding FindingKindUnknownConstruct keyPath VerdictUnknown (outside key)]
        else if key =s "additionalProperties" then
          match value with
          | ANil => []
          | ABool _ => []
          | _ => [finding FindingKindUnknownConstruct keyPath VerdictUnknown
                    "schema-valued additionalProperties is outside Caesium's compatibility subset; cannot prove compatibility"]
          end
        else if key =s "properties" then
          match as_map value with
          | Some props =>
              concat (map (λ propName,
                let propPath := path ++ ["properties"; propName] in
                match as_map (at_key props propName) with
                | Some propSchema => scanUnsupported fuel propPath propSchema allowConstraints
                | None => [finding FindingKindUnknownConstruct propPath VerdictUnknown
                          "property schema is outside Caesium's compatibility subset; cannot prove compatibility"]
                end) (sortedKeys props))
          | None => [finding FindingKindUnknownConstruct keyPath VerdictUnknown
                    "properties must be an object for Caesium's compatibility subset; cannot prove compatibility"]
          end
        else []) (sortedKeys schema))
  end.

Definition validateSchema `{SchemaLib} (label : string) (schema : goMap) : list Finding :=
  match Marshal (AMap schema) with
  | None => [finding FindingKindInvalidSchema [] VerdictUnknown
               (label +:+ " cannot be marshaled: " +:+ marshalError (AMap schema))]
  | Some data =>
      match UnmarshalJSON data with
      | inl err => [finding FindingKindInvalidSchema [] VerdictUnknown
                      (label +:+ " cannot be decoded as JSON Schema: " +:+ err)]
      | inr doc =>
          match AddResource doc with
          | Some err => [finding FindingKindInvalidSchema [] VerdictUnknown
                           (label +:+ " cannot be added to JSON Schema compiler: " +:+ err)]
          | None =>
              match Compile doc with
              | Some err => [finding FindingKindInvalidSchema [] VerdictUnknown
                               (label +:+ " does not compile as JSON Schema: " +:+ err)]
              | None => []
              end
          end
      end
  end.

(** * Compare *)

Definition compareRequired (path : schemaPath) (oldSchema newSchema : goMap) : list Finding :=
  let oldRequired := requiredSet oldSchema in
  let newRequired := requiredSet newSchema in
  let oldProps := schemaProperties oldSchema in
  let newProps := schemaProperties newSchema in
  concat (map (λ key,
    let propPath := path ++ ["properties"; key] in
    if has_key oldProps key && negb (has_key newProps key) then
      [finding FindingKindRequiredRemoved propPath VerdictBreaking
         ("required field " +:+ quoted key +:+ " was removed from properties")]
    else if negb (bool_decide (key ∈ newRequired)) then
      [finding FindingKindRequiredRemoved propPath VerdictBreaking
         ("required field " +:+ quoted key +:+ " is no longer required")]
    else []) (sortedSetKeys oldRequired)).

Definition compareTypes (path : schemaPath) (oldSchema newSchema : goMap) : list Finding :=
  let typePath := path ++ ["type"] in
  match schemaTypes (at_key oldSchema "type"), schemaTypes (at_key newSchema "type") with
  | None, None => []
  | Some _, None =>
      [finding FindingKindConstraintRelaxed typePath VerdictCompatible
         "type constraint removed; new schema accepts all previously valid types"]
  | None, Some newTypes =>
      [finding FindingKindTypeNarrowed typePath VerdictBreaking ("type constraint added: " +:+ formatTypes newTypes)]
  | Some oldTypes, Some newTypes =>
      if typeSetsEqual oldTypes newTypes then []
      else if typeSetAllowsAll newTypes oldTypes then
        [finding FindingKindTypeWidened typePath VerdictCompatible
           ("type widened from " +:+ formatTypes oldTypes +:+ " to " +:+ formatTypes newTypes)]
      else
        [finding FindingKindTypeNarrowed typePath VerdictBreaking
           ("type narrowed or changed from " +:+ formatTypes oldTypes +:+ " to " +:+ formatTypes newTypes)]
  end.

Definition compareEnums `{SchemaLib} (path : schemaPath) (oldSchema newSchema : goMap) : list Finding :=
  let enumPath := path ++ ["enum"] in
  match enumValues (at_key oldSchema "enum"), enumValues (at_key newSchema "enum") with
  | Some oldEnum, Some newEnum =>
      let removed := enumDifference oldEnum newEnum in
      let added := enumDifference newEnum oldEnum in
      (if (0 <? length removed)%nat then
         [finding FindingKindEnumValuesRemoved enumPath VerdictBreaking ("enum values removed: " +:+ formatEnumValues removed)]
       else []) ++
      (if (0 <? length added)%nat then
         [finding FindingKindEnumValuesAdded enumPath VerdictCompatible ("enum values added: " +:+ formatEnumValues added)]
       else [])
  | Some _, None => [finding FindingKindConstraintRelaxed enumPath VerdictCompatible "enum constraint removed"]
  | None, Some newEnum =>
      [finding FindingKindEnumValuesRemoved enumPath VerdictBreaking
         ("enum constraint added; values outside " +:+ formatEnumValues newEnum +:+ " are no longer allowed")]
  | None, None => []
  end.

Definition compareAdditionalProperties (path : schemaPath) (oldSchema newSchema : goMap) : list Finding :=
  let oldFalse := additionalPropertiesFalse oldSchema in
  let newFalse := additionalPropertiesFalse newSchema in
  if oldFalse && negb newFalse then
    [finding FindingKindConstraintRelaxed (path ++ ["additionalProperties"]) VerdictCompatible
       "additionalProperties relaxed from false"]
  else if negb newFalse then []
  else
    let newProps := schemaProperties newSchema in
    let oldProps := schemaProperties oldSchema in
    let oldRequired := requiredSet oldSchema in
    let required := requiredSet newSchema in
    concat (map (λ key,
      if has_key newProps key then []
      else if oldFalse && (bool_decide (key ∈ oldRequired) && negb (has_key oldProps key)) then []
      else [finding FindingKindAdditionalPropertiesTightened (path ++ ["properties"; key]) VerdictBreaking
              ("additionalProperties tightened to false while required field " +:+ quoted key +:+ " is outside properties")])
      (sortedSetKeys required)).

(** [float64(n)]: rounding to the nearest double, ties to even. *)
Definition float64_of_int (z : Z) : spec_float := binary_normalize 53 1024 z 0 false.

Definition numericValue `{SchemaLib} (value : any) : option spec_float :=
  match value with
  | AFloat v => Some v
  | AInt v => Some (float64_of_int v)
  | ANumber v => numberFloat64 v
  | _ => None
  end.

Definition constraintValuesEqual `{SchemaLib} (a b : any) : bool := canonicalJSON a =s canonicalJSON b.

Definition constraintRelaxed `{SchemaLib} (direction : constraintDirection) (oldValue newValue : any) : bool :=
  match direction with
  | lowerBoundConstraint =>
      match numericValue oldValue, numericValue newValue with
      | Some oldNumber, Some newNumber => SFleb newNumber oldNumber
      | _, _ => false
      end
  | upperBoundConstraint =>
      match numericValue oldValue, numericValue newValue with
      | Some oldNumber, Some newNumber => SFleb oldNumber newNumber
      | _, _ => false
      end
  | boolFalseRelaxesConstraint =>
      match oldValue, newValue with
      | ABool oldBool, ABool newBool => oldBool && negb newBool
      | _, _ => false
      end
  | removalOnlyConstraint => false
  end.

(** One turn of the loop of [compareRelaxableConstraints]. *)
Definition compareConstraint `{SchemaLib} (path : schemaPath) (oldSchema newSchema : goMap) (key : string) : list Finding :=
  let constraintPath := path ++ [key] in
  match get key oldSchema, get key newSchema with
  | None, None => []
  | Some _, None =>
      [finding FindingKindConstraintRelaxed constraintPath VerdictCompatible ("constraint " +:+ quoted key +:+ " removed")]
  | None, Some _ =>
      [finding FindingKindUnknownConstruct constraintPath VerdictUnknown
         ("constraint " +:+ quoted key +:+ " added; cannot prove compatibility")]
  | Some oldValue, Some newValue =>
      if constraintValuesEqual oldValue newValue then []
      else if constraintRelaxed (default lowerBoundConstraint (get key relaxableConstraintKeywords)) oldValue newValue then
        [finding FindingKindConstraintRelaxed constraintPath VerdictCompatible
           ("constraint " +:+ quoted key +:+ " relaxed from " +:+ canonicalJSON oldValue +:+ " to " +:+ canonicalJSON newValue)]
      else
        [finding FindingKindUnknownConstruct constraintPath VerdictUnknown
           ("constraint " +:+ quoted key +:+ " changed from " +:+ canonicalJSON oldValue +:+ " to " +:+ canonicalJSON newValue
            +:+ "; cannot prove compatibility")]
  end.

Definition compareRelaxableConstraints `{SchemaLib} (path : schemaPath) (oldSchema newSchema : goMap) : list Finding :=
  concat (map (compareConstraint path oldSchema newSchema) sortedConstraintKeys).

Definition compareAddedOptionalProperties (path : schemaPath) (oldSchema newSchema : goMap) : list Finding :=
  let oldProps := schemaProperties oldSchema in
  let newProps := schemaProperties newSchema in
  let newRequired := requiredSet newSchema in
  concat (map (λ key,
    if has_key oldProps key then []
    else if bool_decide (key ∈ newRequired) then []
    else [finding FindingKindOptionalPropertyAdded (path ++ ["properties"; key]) VerdictCompatible
            ("optional property " +:+ quoted key +:+ " added")]) (sortedKeys newProps)).

(** The checks of one schema node. *)
Definition compareNode `{SchemaLib} (path : schemaPath) (oldSchema newSchema : goMap) : list Finding :=
  compareRequired path oldSchema newSchema ++
  compareTypes path oldSchema newSchema ++
  compareEnums path oldSchema newSchema ++
  compareAdditionalProperties path oldSchema newSchema ++
  compareRelaxableConstraints path oldSchema newSchema ++
  compareAddedOptionalProperties path oldSchema newSchema.

Fixpoint compareSchema `{SchemaLib} (fuel : nat) (path : schemaPath) (oldSchema newSchema : goMap) : list Finding :=
  match fuel with
  | O => []
  | S fuel =>
      compareNode path oldSchema newSchema ++
      let oldProps := schemaProperties oldSchema in
      let newProps := schemaProperties newSchema in
      concat (map (λ key,
        match as_map (at_key oldProps key), as_map (at_key newProps key) with
        | Some oldProp, Some newProp => compareSchema fuel (path ++ ["properties"; key]) oldProp newProp
        | _, _ => []
        end) (sortedKeys oldProps))
  end.

(** Fuel for a walk over a schema. *)
Definition schemaFuel (schema : goMap) : nat := depth (AMap schema).

Definition Compare `{SchemaLib} (oldSchema newSchema : goMap) : list Finding :=
  let findings :=
    scanUnsupported (schemaFuel oldSchema) [] oldSchema true ++
    scanUnsupported (schemaFuel newSchema) [] newSchema true in
  let compileFindings :=
    if (length findings =? 0)%nat
    then validateSchema "old schema" oldSchema ++ validateSchema "new schema" newSchema else [] in
  if (0 <? length compileFindings)%nat then compileFindings
  else findings ++ compareSchema (schemaFuel oldSchema) [] oldSchema newSchema.

(** * Satisfies *)

Definition satisfyType (path : schemaPath) (schema requirement : goMap) : list Finding :=
  match schemaTypes (at_key requirement "type") with
  | None => []
  | Some requirementTypes =>
      let typePath := path ++ ["type"] in
      match schemaTypes (at_key schema "type") with
      | None =>
          [finding FindingKindRequirementUnknown typePath VerdictUnknown
             ("consumer requires type " +:+ formatTypes requirementTypes +:+ " but producer type is unspecified")]
      | Some producerTypes =>
          if negb (typeSetAllowsAll requirementTypes producerTypes) then
            [finding FindingKindRequirementTypeMismatch typePath VerdictBreaking
               ("producer type " +:+ formatTypes producerTypes +:+ " does not satisfy consumer type " +:+ formatTypes requirementTypes)]
          else []
      end
  end.

(** The loop over the required keys of [satisfySchema]. *)
Definition satisfyRequired (path : schemaPath) (schema requirement : goMap) : list Finding :=
  let requirementRequired := requiredSet requirement in
  let schemaRequired := requiredSet schema in
  let schemaProps := schemaProperties schema in
  let additionalFalse := additionalPropertiesFalse schema in
  concat (map (λ key,
    let propPath := path ++ ["properties"; key] in
    if additionalFalse && negb (has_key schemaProps key) then
      [finding FindingKindRequirementUnsatisfied propPath VerdictBreaking
         ("required field " +:+ quoted key +:+
          " is not satisfiable because producer additionalProperties is false and the field is outside properties")]
    else if negb (bool_decide (key ∈ schemaRequired)) then
      [finding FindingKindRequirementUnsatisfied propPath VerdictBreaking
         ("consumer requires field " +:+ quoted key +:+ " but producer schema does not require it")]
    else []) (sortedSetKeys requirementRequired)).

Fixpoint satisfySchema (fuel : nat) (path : schemaPath) (schema requirement : goMap) : list Finding :=
  match fuel with
  | O => []
  | S fuel =>
      satisfyType path schema requirement ++
      satisfyRequired path schema requirement ++
      let schemaProps := schemaProperties schema in
      let requirementProps := schemaProperties requirement in
      let additionalFalse := additionalPropertiesFalse schema in
      concat (map (λ key,
        match as_map (at_key requirementProps key) with
        | None => []
        | Some requirementProp =>
            let propPath := path ++ ["properties"; key] in
            match as_map (at_key schemaProps key) with
            | None =>
                match schemaTypes (at_key requirementProp "type") with
                | Some _ =>
                    if negb additionalFalse then
                      [finding FindingKindRequirementUnknown (propPath ++ ["type"]) VerdictUnknown
                         ("consumer requires a type for field " +:+ quoted key +:+ " but producer has no property schema to prove it")]
                    else []
                | None => []
                end
            | Some schemaProp => satisfySchema fuel propPath schemaProp requirementProp
            end
        end) (sortedKeys requirementProps))
  end.

Definition Satisfies `{SchemaLib} (schema requirement : goMap) : list Finding :=
  let findings :=
    scanUnsupported (schemaFuel schema) [] schema true ++
    scanUnsupported (schemaFuel requirement) [] requirement false in
  let compileFindings :=
    if (length findings =? 0)%nat
    then validateSchema "producer schema" schema ++ validateSchema "consumer requirement" requirement else [] in
  if (0 <? length compileFindings)%nat then compileFindings
  else findings ++ satisfySchema (schemaFuel requirement) [] schema requirement.
