(* ===== verification/SchemaTheorems.v ===== *)
(** What the schema comparison guarantees about documents: a validity semantics of
    the JSON Schema keywords the comparison reads, and the soundness of [Satisfies]
    for every producer, consumer and document. *)

From Stdlib Require Import SpecFloat QArith.
From S2P Require Import Prelude Tables JobDef StepGraph SchemaCompat.

#[local] Open Scope Z_scope.

(** * Documents *)

Inductive value : Type :=
| VNull
| VBool (b : bool)
| VNumber (q : QArith_base.Q)
| VString (s : string)
| VArray (l : list value)
| VObject (m : list (string * value)).

(** JSON Schema's types: an integer is a number without fractional part. *)
Definition has_type (t : string) (v : value) : bool :=
  match v with
  | VNull => t =s "null"
  | VBool _ => t =s "boolean"
  | VNumber q => (t =s "number") || ((t =s "integer") && (Qden (Qred q) =? 1)%positive)
  | VString _ => t =s "string"
  | VArray _ => t =s "array"
  | VObject _ => t =s "object"
  end.

Definition admits (types : typeSet) (v : value) : Prop := ∃ t, t ∈ types ∧ has_type t v = true.

(** The types a schema node declares. *)
Definition typesOf (schema : goMap) : option typeSet := schemaTypes (at_key schema "type").

(** The schema of a property, where it is a schema. *)
Definition propSchema (schema : goMap) (k : string) : option goMap := as_map (at_key (schemaProperties schema) k).

(** Validity under [type], [required], [properties] and, when [closed],
    [additionalProperties: false]. A document valid under JSON Schema is valid in
    this sense for every schema that has further keywords as well. *)
Inductive valid (closed : bool) : goMap → value → Prop :=
| valid_node schema v :
    (∀ types, typesOf schema = Some types → admits types v) →
    (∀ o, v = VObject o →
       (∀ k, k ∈ requiredSet schema → is_Some (get k o)) ∧
       (closed = true → additionalPropertiesFalse schema = true →
          ∀ k, is_Some (get k o) → has_key (schemaProperties schema) k = true)) →
    (∀ o k sub p, v = VObject o → get k o = Some sub → propSchema schema k = Some p → valid closed p sub) →
    valid closed schema v.

(** What two schemas both describe: the consumer's types where both declare types,
    its required keys, and the same below every property that both describe. *)
Inductive respects : goMap → goMap → value → Prop :=
| respects_node schema requirement v :
    (∀ types types', typesOf schema = Some types → typesOf requirement = Some types' → admits types' v) →
    (∀ o k, v = VObject o → k ∈ requiredSet requirement → is_Some (get k o)) →
    (∀ o k sub p r, v = VObject o → get k o = Some sub → propSchema schema k = Some p →
       propSchema requirement k = Some r → respects p r sub) →
    respects schema requirement v.

(** A requirement that asks nothing of a document. *)
Definition demands_nothing (r : goMap) : Prop :=
  typesOf r = None ∧ requiredSet r = ∅ ∧ ∀ k, propSchema r k = None.

(** Below every property that the producer leaves undescribed, the requirement
    declares a type or asks nothing. *)
Inductive covered : goMap → goMap → Prop :=
| covered_node schema requirement :
    (∀ k p r, propSchema schema k = Some p → propSchema requirement k = Some r → covered p r) →
    (∀ k r, propSchema schema k = None → propSchema requirement k = Some r → is_Some (typesOf r) ∨ demands_nothing r) →
    covered schema requirement.

(** * Lists of findings *)

Definition breaking (f : Finding) : Prop := f_Verdict f = VerdictBreaking.
Definition no_breaking (l : list Finding) : Prop := ∀ f, f ∈ l → ¬ breaking f.

Lemma no_breaking_app l k : no_breaking (l ++ k) ↔ no_breaking l ∧ no_breaking k.
Proof. unfold no_breaking. setoid_rewrite elem_of_app. naive_solver. Qed.

Lemma elem_of_concat_map {A B} (g : A → list B) (l : list A) b :
  b ∈ concat (map g l) ↔ ∃ a, a ∈ l ∧ b ∈ g a.
Proof.
  rewrite list_elem_of_In, in_concat. setoid_rewrite in_map_iff. setoid_rewrite <- list_elem_of_In.
  naive_solver.
Qed.

Lemma no_breaking_concat {A} (g : A → list Finding) l :
  no_breaking (concat (map g l)) ↔ ∀ a, a ∈ l → no_breaking (g a).
Proof. unfold no_breaking. setoid_rewrite elem_of_concat_map. naive_solver. Qed.

Lemma concat_map_nil {A B} (g : A → list B) (l : list A) :
  concat (map g l) = [] ↔ ∀ a, a ∈ l → g a = [].
Proof.
  induction l as [|a l IH]; simpl; [set_solver|]. rewrite app_nil, IH. set_solver.
Qed.

Lemma sortedSetKeys_elem (s : gset string) k : k ∈ sortedSetKeys s ↔ k ∈ s.
Proof. unfold sortedSetKeys, sortStrings. by rewrite (sort_stable_perm str_less), elem_of_elements. Qed.

Lemma get_has {V} (m : list (string * V)) k : is_Some (get k m) ↔ k ∈ map fst m.
Proof.
  induction m as [|[k' v] m IH]; simpl; [split; [by intros []|set_solver]|].
  destruct (k' =s k) eqn:E; bool_prop; [subst; split; [set_solver|by eexists]|].
  rewrite IH. set_solver.
Qed.

Lemma sortedKeys_elem (m : goMap) k : k ∈ sortedKeys m ↔ is_Some (get k m).
Proof.
  unfold sortedKeys, sortStrings. by rewrite (sort_stable_perm str_less), elem_of_elements, elem_of_list_to_set, get_has.
Qed.

Lemma has_key_get m k : has_key m k = true ↔ is_Some (get k m).
Proof. unfold has_key. destruct (get k m); split; naive_solver. Qed.

Lemma propSchema_has schema k p : propSchema schema k = Some p → is_Some (get k (schemaProperties schema)).
Proof. unfold propSchema, at_key. destruct (get k _); [by eexists|done]. Qed.

Lemma propSchema_key schema k p : propSchema schema k = Some p → k ∈ sortedKeys (schemaProperties schema).
Proof. rewrite sortedKeys_elem. apply propSchema_has. Qed.

(** * Depth: the fuel of the walks is enough *)

Lemma get_depth k (m : goMap) v : get k m = Some v → (S (depth v) ≤ depth (AMap m))%nat.
Proof.
  induction m as [|[k' w] m IH]; simpl; [done|]. destruct (k' =s k); [intros [= ->]; lia|].
  intros H%IH. simpl in H. lia.
Qed.

Lemma as_map_depth m k p : as_map (at_key m k) = Some p → (S (schemaFuel p) ≤ schemaFuel m)%nat.
Proof.
  unfold at_key, schemaFuel. destruct (get k m) as [v|] eqn:E; [|done]. apply get_depth in E.
  destruct v; simpl in *; try done; intros [= <-]; simpl in *; lia.
Qed.

Lemma schemaFuel_prop schema k p : propSchema schema k = Some p → (S (schemaFuel p) ≤ schemaFuel schema)%nat.
Proof.
  unfold propSchema, schemaProperties. intros H%as_map_depth.
  destruct (as_map (at_key schema "properties")) as [props|] eqn:E; [apply as_map_depth in E|]; simpl in *; [lia|].
  unfold schemaFuel in *. simpl in *. lia.
Qed.

Lemma schemaFuel_pos schema : (1 ≤ schemaFuel schema)%nat.
Proof. unfold schemaFuel. simpl. lia. Qed.

(** * Types *)

Lemma has_type_integer v : has_type "integer" v = true → has_type "number" v = true.
Proof. by destruct v. Qed.

Lemma admits_allowed allowed required v :
  typeSetAllowsAll allowed required = true → admits required v → admits allowed v.
Proof.
  unfold typeSetAllowsAll. rewrite forallb_forall. intros H (t & Ht & Hv).
  specialize (H t). rewrite <- list_elem_of_In, elem_of_elements in H. specialize (H Ht).
  unfold typeSetAllows in H. case_bool_decide; [by exists t|]. bool_prop. subst.
  unfold hasType in *. case_bool_decide; [|done]. exists "number". split; [done|]. by apply has_type_integer.
Qed.

(** * One node of [satisfySchema] *)

Lemma satisfyType_sound path schema requirement types types' v :
  no_breaking (satisfyType path schema requirement) →
  typesOf schema = Some types → typesOf requirement = Some types' → admits types v → admits types' v.
Proof.
  unfold satisfyType, typesOf. intros Hnb E E'. rewrite E, E' in Hnb.
  destruct (typeSetAllowsAll types' types) eqn:Ea; [by apply admits_allowed|].
  exfalso. eapply Hnb; [by left|done].
Qed.

Lemma satisfyRequired_sound path schema requirement k :
  no_breaking (satisfyRequired path schema requirement) →
  k ∈ requiredSet requirement → k ∈ requiredSet schema.
Proof.
  unfold satisfyRequired. rewrite no_breaking_concat. intros Hnb Hk%sortedSetKeys_elem. specialize (Hnb k Hk). cbn zeta in Hnb.
  destruct (_ && _); [exfalso; eapply Hnb; [by left|done]|].
  case_bool_decide; [done|]. exfalso; eapply Hnb; [by left|done].
Qed.

(** The recursive call for a property that both schemas describe. *)
Lemma satisfySchema_below fuel path schema requirement k p r :
  propSchema schema k = Some p → propSchema requirement k = Some r →
  ∀ f, f ∈ satisfySchema fuel (path ++ ["properties"; k]) p r → f ∈ satisfySchema (S fuel) path schema requirement.
Proof.
  intros Hp Hr f Hf. simpl. rewrite !elem_of_app. right. right.
  apply elem_of_concat_map. exists k. split; [by eapply propSchema_key|].
  unfold propSchema in Hp, Hr. by rewrite Hr, Hp.
Qed.

(** * Soundness *)

Lemma satisfySchema_respects fuel path schema requirement v :
  (schemaFuel requirement ≤ fuel)%nat → no_breaking (satisfySchema fuel path schema requirement) →
  valid true schema v → respects schema requirement v.
Proof.
  revert path schema requirement v. induction fuel as [|fuel IH]; intros path schema requirement v Hf Hnb Hv.
  { pose proof (schemaFuel_pos requirement). lia. }
  pose proof Hnb as Hnb'. simpl in Hnb'. rewrite !no_breaking_app in Hnb'. destruct Hnb' as (Ht & Hr & _).
  inversion Hv as [schema' v' Vt Vo Vp]; subst. constructor.
  - intros types types' E E'. eapply satisfyType_sound; [done..|]. by apply Vt.
  - intros o k -> Hk. apply (Vo o eq_refl). by eapply satisfyRequired_sound.
  - intros o k sub p r -> Hk Hp Hr'. eapply (IH (path ++ ["properties"; k])).
    + pose proof (schemaFuel_prop _ _ _ Hr'). lia.
    + intros f Hin. apply Hnb. by eapply satisfySchema_below.
    + by eapply Vp.
Qed.

(** A scan without findings found schemas at all properties and scanned them. *)
Lemma scan_clean_props fuel path schema b k : scanUnsupported (S fuel) path schema b = [] →
  has_key (schemaProperties schema) k = true →
  ∃ p, propSchema schema k = Some p ∧ scanUnsupported fuel (path ++ ["properties"; k]) p b = [].
Proof.
  simpl. rewrite concat_map_nil. intros H Hk%has_key_get. unfold schemaProperties in Hk.
  destruct (as_map (at_key schema "properties")) as [props|] eqn:E; [|by destruct Hk]. simpl in Hk.
  specialize (H "properties"). simpl in H. rewrite E, concat_map_nil in H.
  assert ("properties" ∈ sortedKeys schema) as Hin.
  { apply sortedKeys_elem. unfold at_key in E. destruct (get "properties" schema); [by eexists|done]. }
  specialize (H Hin k (proj2 (sortedKeys_elem _ _) Hk)).
  unfold propSchema, schemaProperties. rewrite E. simpl. destruct (as_map (at_key props k)); [|done]. by eexists.
Qed.

(** A property that the producer's closed schema leaves out never occurs. *)
Lemma satisfySchema_missing fuel path schema requirement k r :
  satisfySchema (S fuel) path schema requirement = [] →
  propSchema schema k = None → propSchema requirement k = Some r → is_Some (typesOf r) →
  additionalPropertiesFalse schema = true.
Proof.
  simpl. rewrite !app_nil. intros (_ & _ & H) Hs Hr [types Ht]. rewrite concat_map_nil in H.
  specialize (H k (propSchema_key _ _ _ Hr)). cbn zeta in H.
  unfold propSchema in Hs, Hr. unfold typesOf in Ht. rewrite Hr, Hs, Ht in H.
  by destruct (additionalPropertiesFalse schema).
Qed.

Lemma satisfySchema_below_nil fuel path schema requirement k p r :
  satisfySchema (S fuel) path schema requirement = [] →
  propSchema schema k = Some p → propSchema requirement k = Some r →
  satisfySchema fuel (path ++ ["properties"; k]) p r = [].
Proof.
  intros H Hp Hr. apply elem_of_nil_inv. intros f Hf.
  pose proof (satisfySchema_below _ path _ _ _ _ _ Hp Hr f Hf) as Hin. rewrite H in Hin. set_solver.
Qed.

Lemma nil_no_breaking : no_breaking [].
Proof. intros f Hf. set_solver. Qed.

Lemma demands_nothing_valid r v : demands_nothing r → valid false r v.
Proof.
  intros (Ht & Hr & Hp). constructor.
  - intros types E. congruence.
  - intros o _. rewrite Hr. split; [set_solver|done].
  - intros o k sub p _ _ E. by rewrite Hp in E.
Qed.

Lemma satisfySchema_valid fuel fs path path' schema requirement v :
  (schemaFuel requirement ≤ fuel)%nat → (schemaFuel schema ≤ fs)%nat →
  scanUnsupported fs path' schema true = [] → satisfySchema fuel path schema requirement = [] →
  covered schema requirement → valid true schema v → valid false requirement v.
Proof.
  revert fs path path' schema requirement v.
  induction fuel as [|fuel IH]; intros fs path path' schema requirement v Hf Hfs Hscan Hs Hc Hv.
  { pose proof (schemaFuel_pos requirement). lia. }
  destruct fs as [|fs]; [pose proof (schemaFuel_pos schema); lia|].
  pose proof Hs as Hn. simpl in Hn. rewrite !app_nil in Hn. destruct Hn as (Ht & Hr & _).
  inversion Hv as [schema' v' Vt Vo Vp]; subst. inversion Hc as [s' r' Hin Hout]; subst. constructor.
  - intros types' E'. unfold typesOf in *. destruct (schemaTypes (at_key schema "type")) as [types|] eqn:E.
    + eapply (satisfyType_sound path schema); [rewrite Ht; apply nil_no_breaking|done..|]. by apply Vt.
    + unfold satisfyType in Ht. by rewrite E', E in Ht.
  - intros o ->. split; [|done]. intros k Hk. apply (Vo o eq_refl).
    eapply (satisfyRequired_sound path schema); [rewrite Hr; apply nil_no_breaking|done].
  - intros o k sub r -> Hk Hr'. destruct (propSchema schema k) as [p|] eqn:Hp.
    + destruct (scan_clean_props _ _ _ _ k Hscan) as (p' & Hp' & Hscan').
      { by eapply has_key_get, propSchema_has. }
      rewrite Hp in Hp'. injection Hp' as <-.
      eapply (IH fs (path ++ ["properties"; k])); [| |done| | |by eapply Vp].
      * pose proof (schemaFuel_prop _ _ _ Hr'). lia.
      * pose proof (schemaFuel_prop _ _ _ Hp). lia.
      * by eapply satisfySchema_below_nil.
      * by eapply Hin.
    + destruct (Hout k r Hp Hr') as [Hty|Hno]; [|by apply demands_nothing_valid].
      pose proof (satisfySchema_missing _ _ _ _ _ _ Hs Hp Hr' Hty) as Hclosed.
      destruct (Vo o eq_refl) as [_ Hcl]. specialize (Hcl eq_refl Hclosed k ltac:(by eexists)).
      destruct (scan_clean_props _ _ _ _ k Hscan Hcl) as (p & Hp' & _). congruence.
Qed.

Section soundness.
Context `{SchemaLib}.

Lemma Satisfies_nil schema requirement : Satisfies schema requirement = [] →
  scanUnsupported (schemaFuel schema) [] schema true = [] ∧
  satisfySchema (schemaFuel requirement) [] schema requirement = [].
Proof.
  unfold Satisfies. cbv zeta. destruct (_ <? _)%nat eqn:E; [intros Hc; by rewrite Hc in E|].
  rewrite !app_nil. naive_solver.
Qed.

(** A call that both schemas compile in compares them to the end. *)
Lemma Satisfies_runs schema requirement :
  validateSchema "producer schema" schema = [] → validateSchema "consumer requirement" requirement = [] →
  ∀ f, f ∈ satisfySchema (schemaFuel requirement) [] schema requirement → f ∈ Satisfies schema requirement.
Proof.
  intros Hs Hr f Hf. unfold Satisfies. cbv zeta. rewrite Hs, Hr. simpl.
  destruct (_ =? _)%nat; simpl; rewrite elem_of_app; by right.
Qed.

(** C22: A producer schema for which [Satisfies] reports nothing meets the consumer's
    requirement on every document: whatever is valid under the producer's schema has
    the types and required keys that the requirement asks, at every depth, provided
    the requirement declares a type wherever it asks something of a property that
    the producer leaves undescribed. *)
Theorem satisfies_sound schema requirement v :
  Satisfies schema requirement = [] → covered schema requirement →
  valid true schema v → valid false requirement v.
Proof.
  intros (Hscan & Hs)%Satisfies_nil Hc. by eapply (satisfySchema_valid _ _ [] []).
Qed.

(** Without breaking findings, which is what the contract gate asks, the requirement
    is met wherever both schemas describe the document. *)
Lemma satisfies_respects schema requirement v :
  validateSchema "producer schema" schema = [] → validateSchema "consumer requirement" requirement = [] →
  no_breaking (Satisfies schema requirement) → valid true schema v → respects schema requirement v.
Proof.
  intros Hs Hr Hnb. eapply (satisfySchema_respects _ []); [done|].
  intros f Hf. apply Hnb. by apply Satisfies_runs.
Qed.
End soundness.

(** * A revision without breaking findings keeps its consumers *)

(** A requirement that asks for keys and not for types, of what the schema describes. *)
Inductive asks_keys : goMap → goMap → Prop :=
| asks_keys_node schema r :
    typesOf r = None →
    (∀ k r', propSchema r k = Some r' → ∃ p, propSchema schema k = Some p ∧ asks_keys p r') →
    asks_keys schema r.

Lemma compareRequired_keeps path old new k :
  no_breaking (compareRequired path old new) → k ∈ requiredSet old →
  k ∈ requiredSet new ∧ (has_key (schemaProperties old) k = true → has_key (schemaProperties new) k = true).
Proof.
  unfold compareRequired. rewrite no_breaking_concat. intros Hnb Hk%sortedSetKeys_elem.
  specialize (Hnb k Hk). cbv zeta in Hnb.
  destruct (has_key (schemaProperties old) k), (has_key (schemaProperties new) k); simpl in Hnb;
    try (exfalso; eapply Hnb; [by left|done]);
    (case_bool_decide; [done|]; exfalso; eapply Hnb; [by left|done]).
Qed.

Lemma compareAdditional_keeps path old new k :
  no_breaking (compareAdditionalProperties path old new) → k ∈ requiredSet new →
  additionalPropertiesFalse new = true → has_key (schemaProperties new) k = false →
  additionalPropertiesFalse old = true ∧ has_key (schemaProperties old) k = false.
Proof.
  unfold compareAdditionalProperties. intros Hnb Hk Hf Hp. rewrite Hf, andb_false_r in Hnb. cbv zeta in Hnb. simpl in Hnb.
  rewrite no_breaking_concat in Hnb. apply sortedSetKeys_elem in Hk. specialize (Hnb k Hk). rewrite Hp in Hnb.
  destruct (additionalPropertiesFalse old); simpl in Hnb; [|exfalso; eapply Hnb; [by left|done]].
  split; [done|]. destruct (has_key (schemaProperties old) k); [|done].
  rewrite andb_false_r in Hnb. exfalso; eapply Hnb; [by left|done].
Qed.

Lemma satisfyRequired_closed path schema requirement k :
  no_breaking (satisfyRequired path schema requirement) → k ∈ requiredSet requirement →
  additionalPropertiesFalse schema = true → has_key (schemaProperties schema) k = true.
Proof.
  unfold satisfyRequired. rewrite no_breaking_concat. intros Hnb Hk%sortedSetKeys_elem Hf.
  specialize (Hnb k Hk). cbv zeta in Hnb. rewrite Hf in Hnb.
  destruct (has_key _ k); [done|]. exfalso; eapply Hnb; [by left|done].
Qed.

Section revisions.
Context `{SchemaLib}.

Lemma compareSchema_below fuel path old new k p q :
  propSchema old k = Some p → propSchema new k = Some q →
  ∀ f, f ∈ compareSchema fuel (path ++ ["properties"; k]) p q → f ∈ compareSchema (S fuel) path old new.
Proof.
  intros Hp Hq f Hf. simpl. rewrite elem_of_app. right.
  apply elem_of_concat_map. exists k. split; [by eapply propSchema_key|].
  unfold propSchema in Hp, Hq. by rewrite Hp, Hq.
Qed.

Lemma satisfyRequired_kept path path' path'' old new requirement :
  no_breaking (compareNode path old new) → no_breaking (satisfyRequired path' old requirement) →
  no_breaking (satisfyRequired path'' new requirement).
Proof.
  unfold compareNode. rewrite !no_breaking_app. intros (Hreq & _ & _ & Hadd & _) Hs.
  unfold satisfyRequired. rewrite no_breaking_concat. intros k Hk. apply sortedSetKeys_elem in Hk. cbv zeta.
  pose proof (satisfyRequired_sound _ _ _ _ Hs Hk) as Hold.
  destruct (compareRequired_keeps _ _ _ _ Hreq Hold) as [Hnew Hprop].
  rewrite (bool_decide_eq_true_2 _ Hnew). destruct (additionalPropertiesFalse new) eqn:Hf; [|apply nil_no_breaking].
  destruct (has_key (schemaProperties new) k) eqn:Hk'; [apply nil_no_breaking|].
  destruct (compareAdditional_keeps _ _ _ _ Hadd Hnew Hf Hk') as [Hf' Hn].
  by rewrite (satisfyRequired_closed _ _ _ _ Hs Hk Hf') in Hn.
Qed.

Lemma satisfySchema_kept fo fr path path' path'' old new requirement :
  (schemaFuel old ≤ fo)%nat → no_breaking (compareSchema fo path old new) →
  no_breaking (satisfySchema fr path' old requirement) → asks_keys old requirement →
  no_breaking (satisfySchema fr path'' new requirement).
Proof.
  revert fo path path' path'' old new requirement.
  induction fr as [|fr IH]; intros fo path path' path'' old new requirement Hfo Hcmp Hsat Hask; [apply nil_no_breaking|].
  destruct fo as [|fo]; [pose proof (schemaFuel_pos old); lia|].
  inversion Hask as [s r Ht Hdesc]; subst.
  pose proof Hcmp as Hnode. simpl in Hnode. rewrite no_breaking_app in Hnode. destruct Hnode as [Hnode _].
  pose proof Hsat as Hreq. simpl in Hreq. rewrite !no_breaking_app in Hreq. destruct Hreq as (_ & Hreq & _).
  simpl. rewrite !no_breaking_app. split_and!.
  - unfold satisfyType. unfold typesOf in Ht. rewrite Ht. apply nil_no_breaking.
  - by eapply satisfyRequired_kept.
  - rewrite no_breaking_concat. intros k _. cbv zeta. fold (propSchema requirement k) (propSchema new k).
    destruct (propSchema requirement k) as [r|] eqn:Hr; [|apply nil_no_breaking].
    destruct (Hdesc k r Hr) as (p & Hp & Hask'). inversion Hask' as [s' r' Ht' _]; subst.
    destruct (propSchema new k) as [q|] eqn:Hq.
    + eapply (IH fo (path ++ ["properties"; k]) (path' ++ ["properties"; k]) _ p); [| | |done].
      * pose proof (schemaFuel_prop _ _ _ Hp). lia.
      * intros f Hf. apply Hcmp. by eapply compareSchema_below.
      * intros f Hf. apply Hsat. by eapply satisfySchema_below.
    + unfold typesOf in Ht'. rewrite Ht'. apply nil_no_breaking.
Qed.

Lemma Compare_runs old new :
  validateSchema "old schema" old = [] → validateSchema "new schema" new = [] →
  ∀ f, f ∈ compareSchema (schemaFuel old) [] old new → f ∈ Compare old new.
Proof.
  intros Hs Hr f Hf. unfold Compare. cbv zeta. rewrite Hs, Hr. simpl.
  destruct (_ =? _)%nat; simpl; rewrite elem_of_app; by right.
Qed.

(** The scan for unsupported keywords reports no breaking change. *)
Lemma scan_no_breaking fuel path schema b : no_breaking (scanUnsupported fuel path schema b).
Proof.
  revert path schema. induction fuel as [|fuel IH]; intros path schema; [apply nil_no_breaking|].
  simpl. rewrite no_breaking_concat. intros key _. cbv zeta.
  assert (∀ k p d, no_breaking [finding k p VerdictUnknown d]) as Hone.
  { intros k p d f ->%list_elem_of_singleton. done. }
  repeat case_match; try apply nil_no_breaking; try apply Hone.
  rewrite no_breaking_concat. intros name _. destruct (as_map (at_key _ name)); auto.
Qed.

Lemma validateSchema_no_breaking label schema : no_breaking (validateSchema label schema).
Proof.
  unfold validateSchema. intros f Hf. repeat case_match; try apply list_elem_of_singleton in Hf as ->; try done; set_solver.
Qed.

(** C24: A revision of a producer schema without breaking findings keeps the keys its
    consumers rely on: when the old schema, the new schema and the requirement compile, a
    requirement that asks for keys and not for types, at any depth of what the old schema
    describes, and that the old schema does not break, is not broken by the new one. *)
Theorem compare_keeps_consumers old new requirement :
  validateSchema "old schema" old = [] → validateSchema "new schema" new = [] →
  validateSchema "producer schema" old = [] → validateSchema "consumer requirement" requirement = [] →
  no_breaking (Compare old new) → no_breaking (Satisfies old requirement) → asks_keys old requirement →
  no_breaking (Satisfies new requirement).
Proof.
  intros V1 V2 V3 V4 Hc Hs Ha. unfold Satisfies at 1. cbv zeta. destruct (_ <? _)%nat.
  { destruct (_ =? _)%nat; [rewrite no_breaking_app; split; apply validateSchema_no_breaking|apply nil_no_breaking]. }
  rewrite !no_breaking_app. split_and!; [apply scan_no_breaking..|].
  eapply (satisfySchema_kept (schemaFuel old) _ [] [] [] old); [done| | |done].
  - intros f Hf. apply Hc. by apply Compare_runs.
  - intros f Hf. apply Hs. by apply Satisfies_runs.
Qed.
End revisions.

(** * Checkers for concrete schemas and documents *)

Fixpoint check_valid (fuel : nat) (closed : bool) (schema : goMap) (v : value) : bool :=
  match fuel with
  | O => false
  | S fuel =>
      match typesOf schema with
      | Some types => existsb (λ t, has_type t v) (elements types)
      | None => true
      end &&
      match v with
      | VObject o =>
          forallb (λ k, bool_decide (k ∈ map fst o)) (elements (requiredSet schema)) &&
          (negb closed || negb (additionalPropertiesFalse schema) ||
           forallb (has_key (schemaProperties schema)) (map fst o)) &&
          forallb (λ k, match propSchema schema k, get k o with
                        | Some p, Some sub => check_valid fuel closed p sub
                        | _, _ => true
                        end) (map fst o)
      | _ => true
      end
  end.

Lemma check_valid_sound fuel closed schema v : check_valid fuel closed schema v = true → valid closed schema v.
Proof.
  revert schema v. induction fuel as [|fuel IH]; intros schema v; [done|]. simpl. intros [Ht Ho]%andb_true_iff. constructor.
  - intros types E. rewrite E, existsb_exists in Ht. destruct Ht as (t & Ht & Hv).
    apply list_elem_of_In, elem_of_elements in Ht. by exists t.
  - intros o ->. apply andb_true_iff in Ho as [[Hr Hc]%andb_true_iff _]. rewrite forallb_forall in Hr. split.
    + intros k Hk. apply get_has, (bool_decide_eq_true_1 _), Hr. by apply list_elem_of_In, elem_of_elements.
    + intros -> Hf k Hk. rewrite Hf in Hc. simpl in Hc. rewrite forallb_forall in Hc.
      by apply Hc, list_elem_of_In, get_has.
  - intros o k sub p -> Hk Hp. apply andb_true_iff in Ho as [_ Hsub]. rewrite forallb_forall in Hsub.
    specialize (Hsub k). rewrite Hp, Hk in Hsub. apply IH, Hsub, list_elem_of_In, get_has. by rewrite Hk.
Qed.

Definition asks_nothing (r : goMap) : bool :=
  match typesOf r with Some _ => false | None => true end && bool_decide (requiredSet r = ∅) &&
  forallb (λ k, match propSchema r k with Some _ => false | None => true end) (map fst (schemaProperties r)).

Fixpoint check_covered (fuel : nat) (schema requirement : goMap) : bool :=
  match fuel with
  | O => false
  | S fuel =>
      forallb (λ k,
        match propSchema requirement k with
        | None => true
        | Some r =>
            match propSchema schema k with
            | Some p => check_covered fuel p r
            | None => match typesOf r with Some _ => true | None => asks_nothing r end
            end
        end) (map fst (schemaProperties requirement))
  end.

Lemma propSchema_In schema k p : propSchema schema k = Some p → In k (map fst (schemaProperties schema)).
Proof. intros E. by eapply list_elem_of_In, get_has, propSchema_has. Qed.

Lemma asks_nothing_sound r : asks_nothing r = true → demands_nothing r.
Proof.
  unfold asks_nothing. intros H. bool_prop. rewrite forallb_forall in *. split_and!.
  - by destruct (typesOf r).
  - by apply (bool_decide_eq_true_1 _).
  - intros k. destruct (propSchema r k) as [p|] eqn:E; [|done].
    match goal with H : ∀ _, _ → match _ with _ => _ end = true |- _ => specialize (H k (propSchema_In _ _ _ E)) end.
    by rewrite E in *.
Qed.

Lemma check_covered_sound fuel schema requirement : check_covered fuel schema requirement = true → covered schema requirement.
Proof.
  revert schema requirement. induction fuel as [|fuel IH]; intros schema requirement; [done|]. simpl.
  rewrite forallb_forall. intros H. constructor.
  - intros k p r Hp Hr. specialize (H k (propSchema_In _ _ _ Hr)). rewrite Hr, Hp in H. by apply IH.
  - intros k r Hp Hr. specialize (H k (propSchema_In _ _ _ Hr)). rewrite Hr, Hp in H.
    destruct (typesOf r); [left; by eexists|right; by apply asks_nothing_sound].
Qed.

(** * Concrete schemas *)

(** A library that encodes plain strings and accepts every schema. *)
Definition sampleLib : SchemaLib := {|
  encodeString := quoted;
  encodeFloat := λ _, None;
  encodeNumber := Some;
  marshalError := λ _, "unsupported value";
  goSyntax := λ _, "";
  numberFloat64 := λ _, None;
  schemaDoc := string;
  UnmarshalJSON := inr;
  AddResource := λ _, None;
  Compile := λ _, None;
|}.

Definition typed (t : string) : goMap := [("type", AStr t)].

Definition orderSchema : goMap :=
  [("type", AStr "object"); ("required", ASlice [AStr "id"; AStr "total"]);
   ("properties", AMap [("id", AMap (typed "integer")); ("total", AMap (typed "number"))])].

Definition orderRequirement : goMap :=
  [("type", ASlice [AStr "object"; AStr "null"]); ("required", AStrings ["id"]);
   ("properties", AMap [("id", AMap (typed "number"))])].

Definition order : value := VObject [("id", VNumber 7); ("total", VNumber (3 # 2))].

Lemma satisfies_sound_witness : @Satisfies sampleLib orderSchema orderRequirement = [] ∧ valid false orderRequirement order.
Proof.
  assert (@Satisfies sampleLib orderSchema orderRequirement = []) as E by (vm_compute; reflexivity).
  split; [exact E|]. apply (@satisfies_sound sampleLib orderSchema orderRequirement order E).
  - apply (check_covered_sound 5). vm_compute. reflexivity.
  - apply (check_valid_sound 5). vm_compute. reflexivity.
Defined.

(** A list of findings without a breaking one, decided. *)
Lemma no_breaking_dec l : forallb (λ f, negb (f_Verdict f =s VerdictBreaking)) l = true → no_breaking l.
Proof.
  rewrite forallb_forall. intros H f Hf Hb. apply list_elem_of_In, H, negb_true_iff in Hf.
  unfold breaking in Hb. by rewrite Hb in Hf.
Qed.

Definition orderRevision : goMap :=
  [("type", AStr "object"); ("required", ASlice [AStr "id"; AStr "total"; AStr "day"]);
   ("properties", AMap [("id", AMap (typed "number")); ("total", AMap (typed "number")); ("day", AMap (typed "string"))])].

Definition orderKeys : goMap := [("required", ASlice [AStr "id"]); ("properties", AMap [("total", AMap [])])].

Lemma compare_keeps_consumers_witness :
  @Compare sampleLib orderSchema orderRevision ≠ [] ∧ no_breaking (@Satisfies sampleLib orderRevision orderKeys).
Proof.
  split; [vm_compute; discriminate|].
  apply (@compare_keeps_consumers sampleLib orderSchema orderRevision orderKeys);
    [vm_compute; reflexivity..|apply no_breaking_dec; vm_compute; reflexivity|apply no_breaking_dec; vm_compute; reflexivity|].
  constructor; [reflexivity|]. intros k r Hr. pose proof Hr as Hr'. unfold propSchema, at_key in Hr'. simpl in Hr'.
  destruct ("total" =s k) eqn:E; [|discriminate Hr']. apply str_eqb_eq in E as <-. injection Hr' as <-.
  exists (typed "number"). split; [reflexivity|]. constructor; [reflexivity|].
  intros k r Hk. discriminate Hk.
Defined.

(** * Where the verdicts fall short of their description *)

Definition nestedRequirement : goMap := [("properties", AMap [("a", AMap [("required", ASlice [AStr "x"])])])].

(** A requirement on a property that the producer does not describe goes unnoticed
    when it declares no type: [Satisfies] reports nothing, neither breaking nor
    unknown, although a document valid under the producer's schema violates it. *)
Lemma satisfies_misses_untyped `{SchemaLib} :
  validateSchema "producer schema" [] = [] → validateSchema "consumer requirement" nestedRequirement = [] →
  Satisfies [] nestedRequirement = [] ∧
  ∃ v, valid true [] v ∧ ¬ valid false nestedRequirement v.
Proof.
  intros Hs Hr. split.
  - unfold Satisfies. rewrite Hs, Hr. vm_compute. reflexivity.
  - exists (VObject [("a", VObject [])]). split; [apply (check_valid_sound 5); vm_compute; reflexivity|].
    intros Hv. inversion Hv as [s v _ _ Hp]; subst.
    specialize (Hp _ "a" _ [("required", ASlice [AStr "x"])] eq_refl eq_refl eq_refl).
    inversion Hp as [s v _ Ho _]; subst. destruct (Ho [] eq_refl) as [Hx _].
    destruct (Hx "x") as [? Hx']; [|discriminate Hx']. unfold requiredSet. simpl. set_solver.
Qed.

Lemma satisfies_misses_untyped_witness : @Satisfies sampleLib [] nestedRequirement = [].
Proof. apply (@satisfies_misses_untyped sampleLib); vm_compute; reflexivity. Defined.

(** A wider producer type is graded compatible, and breaks the consumer it satisfied
    before. *)
Lemma widened_type_breaks_consumer :
  no_breaking (@Compare sampleLib (typed "integer") (typed "number")) ∧
  @Satisfies sampleLib (typed "integer") (typed "integer") = [] ∧
  ¬ no_breaking (@Satisfies sampleLib (typed "number") (typed "integer")).
Proof.
  split_and!; [apply no_breaking_dec; vm_compute; reflexivity|vm_compute; reflexivity|].
  intros H. eapply (H (finding FindingKindRequirementTypeMismatch ["type"] VerdictBreaking _)); [|reflexivity].
  vm_compute. left.
Qed.

(** A lower bound raised beyond the precision of float64 is graded as relaxed: the two
    bounds are equal after the conversion. *)
Lemma raised_bound_graded_relaxed :
  map f_Kind (@Compare sampleLib [("minimum", AInt (2 ^ 53))] [("minimum", AInt (2 ^ 53 + 1))]) = [FindingKindConstraintRelaxed].
Proof. vm_compute. reflexivity. Qed.
