(* ===== verification/ContractGraph.v ===== *)
(** The contract graph between jobs (internal/contract/derive.go, graph.go): edges
    declared by produced and consumed datasets, inferred from trigger parameter
    mappings, and observed by lineage, each with the verdict of its findings.

    [DeriveGraph] is a pure function of the loaded jobs. The patterns of triggers and
    their matching are those of TriggerChain.v, which the Go file has a copy of.
    [sort.Slice] is a stable sort; the ranges over Go maps collect keys that are
    sorted before use. Labels other than [team] are carried as they are. *)

From Stdlib Require Import SpecFloat.
From stdpp Require Import pretty.
From S2P Require Import Prelude Tables JobDef StepGraph Validate TriggerChain EventTrigger SchemaCompat.

(** * Data (graph.go) *)

Definition EdgeClassDeclared : string := "declared".
Definition EdgeClassInferred : string := "inferred".
Definition EdgeClassEvidence : string := "evidence".
Definition NodeKindJob : string := "job".
Definition NodeKindDataset : string := "dataset".

Record DatasetRef := mkDatasetRef { dr_Namespace : string; dr_Name : string }.

Record ContractNode := mkContractNode {
  nd_ID : string;
  nd_Kind : string;
  nd_Alias : string;
  nd_Labels : list (string * string);
  nd_Dataset : option DatasetRef;
}.

(** A nil schema is an empty one. *)
Record ContractEdge := mkContractEdge {
  ed_ID : string;
  ed_From : string;
  ed_To : string;
  ed_Class : string;
  ed_Verdict : string;
  ed_Findings : list Finding;
  ed_Dataset : option DatasetRef;
  ed_ProducerSchema : goMap;
  ed_PreviousProducerSchema : goMap;
  ed_ConsumerSchema : goMap;
  ed_LastSeen : option Z;
}.

Record ContractGraph := mkContractGraph { g_Nodes : list ContractNode; g_Edges : list ContractEdge }.

Record ContractProduced := mkContractProduced { pds_Name : string; pds_Schema : goMap; pds_SchemaFrom : string }.
Record ContractConsumed := mkContractConsumed { cds_Name : string; cds_Schema : goMap }.

Record ContractStep := mkContractStep {
  cs_Name : string;
  cs_OutputSchema : goMap;
  cs_Produces : list ContractProduced;
  cs_Consumes : list ContractConsumed;
}.

Record ContractTrigger := mkContractTrigger { ct_Type : string; ct_Configuration : object }.

Record ContractJob := mkContractJob {
  cj_ID : uuid;
  cj_Alias : string;
  cj_Labels : list (string * string);
  cj_Trigger : ContractTrigger;
  cj_Steps : list ContractStep;
  cj_Incoming : bool;
}.

Record EvidenceRecord := mkEvidenceRecord {
  er_ProducerJobAlias : string;
  er_ConsumerJobAlias : string;
  er_Dataset : DatasetRef;
  er_LastSeen : Z;
}.

Record ProducerSchemaRecord := mkProducerSchemaRecord {
  ps_JobAlias : string;
  ps_StepName : string;
  ps_Dataset : DatasetRef;
  ps_Schema : goMap;
  ps_SchemaKnown : bool;
}.

(** * Copies of schemas *)

(** An empty map or slice inside a schema is copied to a nil one. *)
Fixpoint cloneAny (value : any) : any :=
  match value with
  | AMap [] => ANilMap
  | AMap m => AMap (map (λ e, (e.1, cloneAny e.2)) m)
  | ASlice [] => ANilSlice
  | ASlice l => ASlice (map cloneAny l)
  | _ => value
  end.

(** The copy of a schema itself: nil for an empty one, which reads as empty. *)
Definition cloneAnyMap (m : goMap) : goMap := map (λ e, (e.1, cloneAny e.2)) m.

(** * Node and edge identifiers *)

Definition JobNodeID (alias : string) : string := "job:" +:+ TrimSpace alias.

Definition datasetKey (dataset : option DatasetRef) : string :=
  match dataset with
  | None => ""
  | Some d => TrimSpace (dr_Namespace d) +:+ "/" +:+ TrimSpace (dr_Name d)
  end.

Definition datasetNodeID (dataset : DatasetRef) : string := "dataset:" +:+ datasetKey (Some dataset).

Definition edgeID (edge : ContractEdge) : string :=
  let key := ed_Class edge +:+ ":" +:+ ed_From edge +:+ "->" +:+ ed_To edge in
  let key := match ed_Dataset edge with Some _ => key +:+ ":" +:+ datasetKey (ed_Dataset edge) | None => key end in
  "edge:" +:+ key.

(** * Findings of an edge *)

Definition finding_less (a b : Finding) : bool :=
  if f_Path a =s f_Path b then
    if f_Kind a =s f_Kind b then str_less (f_Detail a) (f_Detail b) else str_less (f_Kind a) (f_Kind b)
  else str_less (f_Path a) (f_Path b).

Definition sortedFindings (findings : list Finding) : list Finding := sort_stable finding_less findings.

Definition prefixFindingPath (prefix path : string) : string :=
  let path := TrimSpace path in if path =s "" then prefix else prefix +:+ "." +:+ path.

Definition withPath (f : Finding) (path : string) : Finding :=
  mkFinding (f_Kind f) path (f_Key f) (f_Detail f) (f_Verdict f).

Fixpoint TrimSuffixDot (s : string) : string :=
  match s with
  | EmptyString => ""
  | String c s' => if (s' =s "") && bool_decide (c = "."%char) then "" else String c (TrimSuffixDot s')
  end.

Definition prefixFindings (findings : list Finding) (prefix : string) : list Finding :=
  match findings with
  | [] => []
  | _ =>
      let prefix := TrimSuffixDot (TrimSpace prefix) in
      sortedFindings (map (λ f, if negb (prefix =s "") then withPath f (prefixFindingPath prefix (f_Path f)) else f) findings)
  end.

Fixpoint verdictFrom (verdict : string) (findings : list Finding) : string :=
  match findings with
  | [] => verdict
  | f :: l =>
      if f_Verdict f =s VerdictBreaking then VerdictBreaking
      else verdictFrom (if f_Verdict f =s VerdictUnknown then VerdictUnknown else verdict) l
  end.
Definition verdictForFindings (findings : list Finding) (defaultVerdict : string) : string := verdictFrom defaultVerdict findings.

(** * The builder *)

Record graphBuilder := mkBuilder { gb_nodes : gmap string ContractNode; gb_edges : gmap string ContractEdge }.

Definition newGraphBuilder : graphBuilder := mkBuilder ∅ ∅.

Definition addJob (b : graphBuilder) (alias : string) (labels : list (string * string)) : graphBuilder :=
  let alias := TrimSpace alias in
  if alias =s "" then b
  else
    let id := JobNodeID alias in
    let node := mkContractNode id NodeKindJob alias labels None in
    match gb_nodes b !! id with
    | Some existing =>
        if (length (nd_Labels existing) =? 0)%nat && (0 <? length labels)%nat then
          mkBuilder (<[id := mkContractNode (nd_ID existing) (nd_Kind existing) (nd_Alias existing) labels (nd_Dataset existing)]>
                       (gb_nodes b)) (gb_edges b)
        else b
    | None => mkBuilder (<[id := node]> (gb_nodes b)) (gb_edges b)
    end.

Definition addDataset (b : graphBuilder) (dataset : DatasetRef) : graphBuilder :=
  let dataset := mkDatasetRef (TrimSpace (dr_Namespace dataset)) (TrimSpace (dr_Name dataset)) in
  if (dr_Namespace dataset =s "") && (dr_Name dataset =s "") then b
  else
    let id := datasetNodeID dataset in
    match gb_nodes b !! id with
    | Some _ => b
    | None => mkBuilder (<[id := mkContractNode id NodeKindDataset "" [] (Some dataset)]> (gb_nodes b)) (gb_edges b)
    end.

(** [if len(existing) == 0 && len(incoming) > 0] over a schema. *)
Definition fillSchema (existing incoming : goMap) : goMap :=
  if (length existing =? 0)%nat && (0 <? length incoming)%nat then cloneAnyMap incoming else existing.

Definition mergeEdges (existing incoming : ContractEdge) : ContractEdge :=
  let verdict :=
    if (ed_Verdict incoming =s VerdictBreaking) || (ed_Verdict existing =s "") then ed_Verdict incoming
    else if (ed_Verdict incoming =s VerdictUnknown) && negb (ed_Verdict existing =s VerdictBreaking) then VerdictUnknown
    else ed_Verdict existing in
  mkContractEdge (ed_ID existing) (ed_From existing) (ed_To existing) (ed_Class existing) verdict
    (sortedFindings (ed_Findings existing ++ ed_Findings incoming)) (ed_Dataset existing)
    (fillSchema (ed_ProducerSchema existing) (ed_ProducerSchema incoming))
    (fillSchema (ed_PreviousProducerSchema existing) (ed_PreviousProducerSchema incoming))
    (fillSchema (ed_ConsumerSchema existing) (ed_ConsumerSchema incoming))
    (match ed_LastSeen incoming, ed_LastSeen existing with
     | Some t, None => Some t
     | Some t, Some t' => if t' <? t then Some t else Some t'
     | None, last => last
     end).

Definition withEndpoints (edge : ContractEdge) (id from to : string) : ContractEdge :=
  mkContractEdge id from to (ed_Class edge) (ed_Verdict edge) (ed_Findings edge) (ed_Dataset edge)
    (ed_ProducerSchema edge) (ed_PreviousProducerSchema edge) (ed_ConsumerSchema edge) (ed_LastSeen edge).

Definition builderAddEdge (b : graphBuilder) (edge : ContractEdge) : graphBuilder :=
  if (TrimSpace (ed_From edge) =s "") || (TrimSpace (ed_To edge) =s "") || (ed_Class edge =s "") then b
  else
    let edge := withEndpoints edge (ed_ID edge) (TrimSpace (ed_From edge)) (TrimSpace (ed_To edge)) in
    let edge := withEndpoints edge (edgeID edge) (ed_From edge) (ed_To edge) in
    match gb_edges b !! ed_ID edge with
    | Some existing => mkBuilder (gb_nodes b) (<[ed_ID edge := mergeEdges existing edge]> (gb_edges b))
    | None => mkBuilder (gb_nodes b) (<[ed_ID edge := edge]> (gb_edges b))
    end.

Definition node_less (a b : ContractNode) : bool :=
  if nd_Kind a =s nd_Kind b then str_less (nd_ID a) (nd_ID b) else str_less (nd_Kind a) (nd_Kind b).

Definition edge_less (a b : ContractEdge) : bool :=
  if ed_Class a =s ed_Class b then
    if ed_From a =s ed_From b then
      if ed_To a =s ed_To b then str_less (datasetKey (ed_Dataset a)) (datasetKey (ed_Dataset b))
      else str_less (ed_To a) (ed_To b)
    else str_less (ed_From a) (ed_From b)
  else str_less (ed_Class a) (ed_Class b).

Definition builderGraph (b : graphBuilder) : ContractGraph :=
  mkContractGraph (sort_stable node_less (map snd (map_to_list (gb_nodes b))))
    (sort_stable edge_less (map snd (map_to_list (gb_edges b)))).

(** * Declared edges *)

Record declaredProducer := mkDeclaredProducer {
  dp_job : ContractJob;
  dp_step : ContractStep;
  dp_dataset : DatasetRef;
  dp_schema : goMap;
  dp_schemaKnown : bool;
}.

Record declaredConsumer := mkDeclaredConsumer {
  dc_job : ContractJob;
  dc_step : ContractStep;
  dc_dataset : DatasetRef;
  dc_schema : goMap;
  dc_schemaKnown : bool;
}.

Definition datasetRefFromName (name : string) : DatasetRef := mkDatasetRef "" (TrimSpace name).

Definition resolveProducedDatasetSchema (step : ContractStep) (produced : ContractProduced) : goMap * bool :=
  if (0 <? length (pds_Schema produced))%nat then (cloneAnyMap (pds_Schema produced), true)
  else if (TrimSpace (pds_SchemaFrom produced) =s DatasetSchemaFromOutput) && (0 <? length (cs_OutputSchema step))%nat
  then (cloneAnyMap (cs_OutputSchema step), true)
  else ([], false).

(** The producers and consumers of all datasets, in the order the loops append them. *)
Definition stepProducers (job : ContractJob) (step : ContractStep) : list declaredProducer :=
  omap (λ produced,
    let dataset := datasetRefFromName (pds_Name produced) in
    if dr_Name dataset =s "" then None
    else let '(schema, known) := resolveProducedDatasetSchema step produced in
         Some (mkDeclaredProducer job step dataset schema known)) (cs_Produces step).

Definition stepConsumers (job : ContractJob) (step : ContractStep) : list declaredConsumer :=
  omap (λ consumed,
    let dataset := datasetRefFromName (cds_Name consumed) in
    if dr_Name dataset =s "" then None
    else let schema := cloneAnyMap (cds_Schema consumed) in
         Some (mkDeclaredConsumer job step dataset schema (0 <? length schema)%nat)) (cs_Consumes step).

Definition allProducers (jobs : list ContractJob) : list declaredProducer :=
  concat (map (λ job, concat (map (stepProducers job) (cj_Steps job))) jobs).
Definition allConsumers (jobs : list ContractJob) : list declaredConsumer :=
  concat (map (λ job, concat (map (stepConsumers job) (cj_Steps job))) jobs).

(** [producersByDataset[name]] and [consumersByDataset[name]] *)
Definition producersOf (jobs : list ContractJob) (name : string) : list declaredProducer :=
  List.filter (λ p, dr_Name (dp_dataset p) =s name) (allProducers jobs).
Definition consumersOf (jobs : list ContractJob) (name : string) : list declaredConsumer :=
  List.filter (λ c, dr_Name (dc_dataset c) =s name) (allConsumers jobs).

Definition producer_less (a b : declaredProducer) : bool :=
  if cj_Alias (dp_job a) =s cj_Alias (dp_job b) then
    if cs_Name (dp_step a) =s cs_Name (dp_step b) then str_less (dr_Name (dp_dataset a)) (dr_Name (dp_dataset b))
    else str_less (cs_Name (dp_step a)) (cs_Name (dp_step b))
  else str_less (cj_Alias (dp_job a)) (cj_Alias (dp_job b)).
Definition sortDeclaredProducers : list declaredProducer → list declaredProducer := sort_stable producer_less.

Definition consumer_less (a b : declaredConsumer) : bool :=
  if cj_Alias (dc_job a) =s cj_Alias (dc_job b) then
    if cs_Name (dc_step a) =s cs_Name (dc_step b) then str_less (dr_Name (dc_dataset a)) (dr_Name (dc_dataset b))
    else str_less (cs_Name (dc_step a)) (cs_Name (dc_step b))
  else str_less (cj_Alias (dc_job a)) (cj_Alias (dc_job b)).
Definition sortDeclaredConsumers : list declaredConsumer → list declaredConsumer := sort_stable consumer_less.

Definition producerSchemaKey : Type := string * string * string.
Definition producerSchemaKeyFor (jobAlias stepName : string) (dataset : DatasetRef) : producerSchemaKey :=
  (TrimSpace jobAlias, TrimSpace stepName, TrimSpace (dr_Name dataset)).

Definition previousByKey (records : list ProducerSchemaRecord) : gmap producerSchemaKey ProducerSchemaRecord :=
  fold_left (λ m record,
    let key := producerSchemaKeyFor (ps_JobAlias record) (ps_StepName record) (ps_Dataset record) in
    if (key.1.1 =s "") || (key.2 =s "") then m else <[key := record]> m) records ∅.

Definition declaredProduceFindingPath (dataset : DatasetRef) : string :=
  "datasets.produces." +:+ TrimSpace (dr_Name dataset) +:+ ".schema".
Definition declaredConsumeFindingPath (dataset : DatasetRef) : string :=
  "datasets.consumes." +:+ TrimSpace (dr_Name dataset) +:+ ".schema".

(** [nil] is an empty schema to [Compare] and [Satisfies]. *)
Definition schemaForCompare (schema : goMap) (known : bool) : goMap := if known then schema else [].

Section declared.
Context `{SchemaLib}.

Definition declaredCompareFindings (producer : declaredProducer) (previous : option ProducerSchemaRecord)
    : list Finding * goMap :=
  match (if cj_Incoming (dp_job producer) then previous else None) with
  | Some record =>
      if negb (ps_SchemaKnown record) then
        (prefixFindings
           [mkFinding FindingKindRequirementUnknown "" ""
              ("persisted producer schema for dataset " +:+ quoted (dr_Name (dp_dataset producer)) +:+ " on " +:+
               cj_Alias (dp_job producer) +:+ "/" +:+ cs_Name (dp_step producer) +:+
               " is unavailable; cannot compare old producer schema to the incoming schema") VerdictUnknown]
           (declaredProduceFindingPath (dp_dataset producer)), [])
      else
        let previousSchema := cloneAnyMap (ps_Schema record) in
        (prefixFindings (Compare previousSchema (schemaForCompare (dp_schema producer) (dp_schemaKnown producer)))
           (declaredProduceFindingPath (dp_dataset producer)), previousSchema)
  | None =>
      (prefixFindings [] (declaredProduceFindingPath (dp_dataset producer)),
       if dp_schemaKnown producer then cloneAnyMap (dp_schema producer) else [])
  end.

Definition declaredEdgeFindings (compareFindings : list Finding) (producer : declaredProducer) (consumer : declaredConsumer)
    : list Finding :=
  if negb (dc_schemaKnown consumer) then sortedFindings compareFindings
  else
    let requirementFindings := Satisfies (schemaForCompare (dp_schema producer) (dp_schemaKnown producer)) (dc_schema consumer) in
    sortedFindings
      (prefixFindings requirementFindings (declaredConsumeFindingPath (dc_dataset consumer)) ++
       List.filter (λ f, negb (f_Verdict f =s VerdictBreaking)) compareFindings).

(** The edge of one producer and one consumer. *)
Definition declaredEdge (compare : list Finding * goMap) (producer : declaredProducer) (consumer : declaredConsumer)
    : ContractEdge :=
  let findings := declaredEdgeFindings compare.1 producer consumer in
  mkContractEdge "" (JobNodeID (cj_Alias (dp_job producer))) (JobNodeID (cj_Alias (dc_job consumer))) EdgeClassDeclared
    (verdictForFindings findings VerdictCompatible) findings (Some (dp_dataset producer))
    (cloneAnyMap (dp_schema producer)) (cloneAnyMap compare.2) (cloneAnyMap (dc_schema consumer)) None.

Definition addConsumer (compare : list Finding * goMap) (producer : declaredProducer) (b : graphBuilder)
    (consumer : declaredConsumer) : graphBuilder :=
  if cj_Alias (dp_job producer) =s cj_Alias (dc_job consumer) then b
  else builderAddEdge b (declaredEdge compare producer consumer).

Definition addProducer (previous : gmap producerSchemaKey ProducerSchemaRecord) (consumers : list declaredConsumer)
    (b : graphBuilder) (producer : declaredProducer) : graphBuilder :=
  let b := addDataset b (dp_dataset producer) in
  let compare := declaredCompareFindings producer
    (previous !! producerSchemaKeyFor (cj_Alias (dp_job producer)) (cs_Name (dp_step producer)) (dp_dataset producer)) in
  fold_left (addConsumer compare producer) consumers b.

(** The datasets that are both produced and consumed. *)
Definition datasetNames (jobs : list ContractJob) : list string :=
  sortStrings (List.filter (λ name, (0 <? length (consumersOf jobs name))%nat)
    (elements (list_to_set (map (λ p, dr_Name (dp_dataset p)) (allProducers jobs)) : gset string))).

Definition deriveDeclaredEdges (b : graphBuilder) (jobs : list ContractJob) (previousSchemas : list ProducerSchemaRecord)
    : graphBuilder :=
  let previous := previousByKey previousSchemas in
  fold_left (λ b name,
    fold_left (addProducer previous (sortDeclaredConsumers (consumersOf jobs name)))
      (sortDeclaredProducers (producersOf jobs name)) b) (datasetNames jobs) b.
End declared.

(** * Inferred edges *)

(** The pattern of paths to an output of a task of the event,
    [$.tasks[<digits>].output.<key>], with its two groups. *)
Fixpoint spanDigits (s : string) : string * string :=
  match s with
  | EmptyString => ("", "")
  | String c s' =>
      let n := N_of_ascii c in
      if ((48 <=? n) && (n <=? 57))%N then let '(d, rest) := spanDigits s' in (String c d, rest) else ("", s)
  end.

(** A character of a key: none of dot, white space and brackets. *)
Definition keyChar (c : ascii) : bool :=
  let n := N_of_ascii c in
  negb (bool_decide (c = "."%char) || bool_decide (c = "["%char) || bool_decide (c = "]"%char) ||
        ((9 <=? n) && (n <=? 10))%N || ((12 <=? n) && (n <=? 13))%N || (n =? 32)%N).

Fixpoint allChars (p : ascii → bool) (s : string) : bool :=
  match s with EmptyString => true | String c s => p c && allChars p s end.

Definition eventOutputPath (s : string) : option (string * string) :=
  if negb (String.prefix "$.tasks[" s) then None
  else
    let '(digits, rest) := spanDigits (TrimPrefix "$.tasks[" s) in
    if (digits =s "") || negb (String.prefix "].output." rest) then None
    else
      let key := TrimPrefix "].output." rest in
      if negb (key =s "") && allChars keyChar key then Some (digits, key) else None.

Record outputRef := mkOutputRef { or_paramName : string; or_jsonPath : string; or_stepIndex : Z; or_key : string }.

(** The string values of the mapping; the error for a value that is no string names
    the first one that the range over the map meets. *)
Fixpoint mappingEntries (l : object) : checked (list (string * string)) :=
  match l with
  | [] => mret []
  | (k, JStr v) :: l => rest ← mappingEntries l; mret ((k, v) :: rest)
  | (k, _) :: _ => fail (Errorf "trigger.configuration.paramMapping[%q] must be a string" [Q k])
  end.

Definition paramMapping (cfg : object) : checked (list (string * string)) :=
  match get "paramMapping" cfg with
  | None | Some JNull => mret []
  | Some (JObj mapping) => mappingEntries mapping
  | Some _ => fail (Errorf "trigger.configuration.paramMapping must be a map of string keys and values" [])
  end.

Definition outputParamMappingRefs (cfg : object) : checked (list outputRef) :=
  mapping ← paramMapping cfg;
  mret (omap (λ param,
    let jsonPath := TrimSpace (default "" (get param mapping)) in
    '(digits, key) ← eventOutputPath jsonPath;
    stepIndex ← Atoi digits;
    Some (mkOutputRef param jsonPath stepIndex key)) (sortStrings (map fst mapping))).

Definition outputSchemaHasProperty (outputSchema : goMap) (key : string) : bool :=
  let key := TrimSpace key in
  if (key =s "") || (length outputSchema =? 0)%nat then false
  else match as_map (at_key outputSchema "properties") with
       | None => false
       | Some props => has_key props key
       end.

Definition producerOutputSchemaUnionHasProperty (producer : ContractJob) (key : string) : bool :=
  existsb (λ step, outputSchemaHasProperty (cs_OutputSchema step) key) (cj_Steps producer).

Definition paramMappingFindingPath (paramName : string) : string := "trigger.configuration.paramMapping." +:+ paramName.

Definition inferredFinding (producer : ContractJob) (ref : outputRef) : list Finding :=
  let here := "paramMapping " +:+ quoted (or_paramName ref) +:+ " references " +:+ or_jsonPath ref in
  match (if 0 <=? or_stepIndex ref then cj_Steps producer !! Z.to_nat (or_stepIndex ref) else None) with
  | Some step =>
      if outputSchemaHasProperty (cs_OutputSchema step) (or_key ref) then []
      else [mkFinding FindingKindRequirementUnsatisfied (paramMappingFindingPath (or_paramName ref)) (or_key ref)
              (here +:+ " output key " +:+ quoted (or_key ref) +:+ " from producer " +:+ cj_Alias producer +:+ " step " +:+
               quoted (cs_Name step) +:+ ", but that key is missing from the step outputSchema") VerdictBreaking]
  | None =>
      let where_ := ", but tasks[" +:+ pretty (or_stepIndex ref) +:+ "] cannot be resolved to a producer step in " +:+ cj_Alias producer in
      let '(kind, detail) :=
        if producerOutputSchemaUnionHasProperty producer (or_key ref)
        then (FindingKindRequirementUnknown,
              here +:+ where_ +:+ "; key " +:+ quoted (or_key ref) +:+ " was found in the producer outputSchema union")
        else (FindingKindRequirementUnsatisfied,
              here +:+ where_ +:+ " and key " +:+ quoted (or_key ref) +:+ " is missing from every producer step outputSchema") in
      [mkFinding kind (paramMappingFindingPath (or_paramName ref)) (or_key ref) detail VerdictUnknown]
  end.

Definition inferred_less (a b : Finding) : bool :=
  if f_Path a =s f_Path b then str_less (f_Detail a) (f_Detail b) else str_less (f_Path a) (f_Path b).

Definition inferredFindings (producer : ContractJob) (refs : list outputRef) : list Finding :=
  sort_stable inferred_less (concat (map (inferredFinding producer) refs)).

Definition unknownProducerFindings (producerAlias : string) (consumer : ContractJob) (refs : list outputRef) : list Finding :=
  map (λ ref, mkFinding FindingKindRequirementUnknown (paramMappingFindingPath (or_paramName ref)) (or_key ref)
    ("paramMapping " +:+ quoted (or_paramName ref) +:+ " on " +:+ cj_Alias consumer +:+ " references " +:+ or_jsonPath ref +:+
     " from producer " +:+ producerAlias +:+
     ", but that producer is not present in the merged job set; cannot prove the output key " +:+ quoted (or_key ref) +:+ " exists")
    VerdictUnknown) refs.

(** As in the cycle check, but an identifier that no job has is taken as it is. *)
Definition patternSourceAlias (p : triggerChainPattern) (aliasByJobID : gmap string string) : option string :=
  let sourceAlias := TrimSpace (default "" (get "job_alias" (tp_filter p))) in
  let sourceJobID := TrimSpace (default "" (get "job_id" (tp_filter p))) in
  if (sourceAlias =s "") && (sourceJobID =s "") then None
  else if sourceJobID =s "" then Some sourceAlias
  else
    let resolvedAlias := default "" (aliasByJobID !! sourceJobID) in
    if sourceAlias =s "" then
      if negb (resolvedAlias =s "") then Some resolvedAlias else Some sourceJobID
    else if negb (resolvedAlias =s "") && negb (resolvedAlias =s sourceAlias) then Some ""
    else Some sourceAlias.

Definition addInferredPair (pairs : gset (string * string)) (from to : string) : gset (string * string) :=
  let from := TrimSpace from in
  let to := TrimSpace to in
  if (from =s "") || (to =s "") || (from =s to) then pairs else {[(from, to)]} ∪ pairs.

Section inferred.
Context (uuid_String : uuid → string).

Definition aliasesByJobID (jobs : list ContractJob) : gmap string string :=
  fold_left (λ m job, if (cj_ID job =? uuid_Nil)%N then m else <[uuid_String (cj_ID job) := cj_Alias job]> m) jobs ∅.

Definition jobsByAlias (jobs : list ContractJob) : gmap string ContractJob :=
  fold_left (λ m job, <[cj_Alias job := job]> m) jobs ∅.

Definition wrapDefinition (alias : string) (err : def_error) : def_error := Errorf "definition %s: %w" [Q alias; W err].

(** The pairs of one consumer. *)
Definition consumerPairs (jobs : list ContractJob) (pairs : gset (string * string)) (consumer : ContractJob)
    : checked (gset (string * string)) :=
  if negb (ct_Type (cj_Trigger consumer) =s TriggerEvent) then mret pairs
  else
    outputRefs ← wrap (wrapDefinition (cj_Alias consumer)) (outputParamMappingRefs (ct_Configuration (cj_Trigger consumer)));
    if (length outputRefs =? 0)%nat then mret pairs
    else
      patterns ← wrap (wrapDefinition (cj_Alias consumer)) (triggerChainPatterns (ct_Configuration (cj_Trigger consumer)));
      mret (fold_left (λ pairs pattern,
        if negb (patternCanMatchCaesiumLifecycle pattern) then pairs
        else match patternSourceAlias pattern (aliasesByJobID jobs) with
             | Some sourceAlias => addInferredPair pairs sourceAlias (cj_Alias consumer)
             | None => fold_left (λ pairs alias, addInferredPair pairs alias (cj_Alias consumer))
                         (sortStrings (map cj_Alias jobs)) pairs
             end) patterns pairs).

Fixpoint inferredPairs (jobs consumers : list ContractJob) (pairs : gset (string * string)) : checked (gset (string * string)) :=
  match consumers with
  | [] => mret pairs
  | consumer :: l => pairs ← consumerPairs jobs pairs consumer; inferredPairs jobs l pairs
  end.

Definition inferredEdge (from : string) (consumer : ContractJob) (verdict : string) (findings : list Finding) : ContractEdge :=
  mkContractEdge "" (JobNodeID from) (JobNodeID (cj_Alias consumer)) EdgeClassInferred verdict findings None [] [] [] None.

Definition addPair (jobs : list ContractJob) (b : graphBuilder) (p : string * string) : checked graphBuilder :=
  let zero := mkContractJob uuid_Nil "" [] (mkContractTrigger "" []) [] false in
  let consumer := default zero (jobsByAlias jobs !! p.2) in
  outputRefs ← wrap (wrapDefinition (cj_Alias consumer)) (outputParamMappingRefs (ct_Configuration (cj_Trigger consumer)));
  match jobsByAlias jobs !! p.1 with
  | None =>
      mret (builderAddEdge (addJob b p.1 [])
              (inferredEdge p.1 consumer VerdictUnknown (unknownProducerFindings p.1 consumer outputRefs)))
  | Some producer =>
      let findings := inferredFindings producer outputRefs in
      mret (builderAddEdge b
              (inferredEdge (cj_Alias producer) consumer (verdictForFindings findings VerdictCompatible) findings))
  end.

Fixpoint addInferredEdges (jobs : list ContractJob) (b : graphBuilder) (pairs : list (string * string)) : checked graphBuilder :=
  match pairs with
  | [] => mret b
  | p :: l => b ← addPair jobs b p; addInferredEdges jobs b l
  end.

Definition pair_less (a b : string * string) : bool :=
  if a.1 =s b.1 then str_less a.2 b.2 else str_less a.1 b.1.

Definition deriveInferredEdges (b : graphBuilder) (jobs : list ContractJob) : checked graphBuilder :=
  pairs ← inferredPairs jobs jobs ∅;
  addInferredEdges jobs b (sort_stable pair_less (elements pairs)).

(** * Evidence edges *)

Definition evidence_less (a b : EvidenceRecord) : bool :=
  if er_ProducerJobAlias a =s er_ProducerJobAlias b then
    if er_ConsumerJobAlias a =s er_ConsumerJobAlias b then
      if dr_Namespace (er_Dataset a) =s dr_Namespace (er_Dataset b) then
        if dr_Name (er_Dataset a) =s dr_Name (er_Dataset b) then er_LastSeen a <? er_LastSeen b
        else str_less (dr_Name (er_Dataset a)) (dr_Name (er_Dataset b))
      else str_less (dr_Namespace (er_Dataset a)) (dr_Namespace (er_Dataset b))
    else str_less (er_ConsumerJobAlias a) (er_ConsumerJobAlias b)
  else str_less (er_ProducerJobAlias a) (er_ProducerJobAlias b).
Definition sortEvidence : list EvidenceRecord → list EvidenceRecord := sort_stable evidence_less.

Definition addEvidence (b : graphBuilder) (record : EvidenceRecord) : graphBuilder :=
  let producerAlias := TrimSpace (er_ProducerJobAlias record) in
  let consumerAlias := TrimSpace (er_ConsumerJobAlias record) in
  if (producerAlias =s "") || (consumerAlias =s "") || (producerAlias =s consumerAlias) then b
  else
    let dataset := mkDatasetRef (TrimSpace (dr_Namespace (er_Dataset record))) (TrimSpace (dr_Name (er_Dataset record))) in
    if (dr_Namespace dataset =s "") && (dr_Name dataset =s "") then b
    else
      let b := addDataset (addJob (addJob b producerAlias []) consumerAlias []) dataset in
      builderAddEdge b
        (mkContractEdge "" (JobNodeID producerAlias) (JobNodeID consumerAlias) EdgeClassEvidence VerdictUnknown [] (Some dataset)
           [] [] [] (Some (er_LastSeen record))).

Definition deriveEvidenceEdges (b : graphBuilder) (records : list EvidenceRecord) : graphBuilder :=
  fold_left addEvidence (sortEvidence records) b.

(** * The graph *)

Record DeriveInput := mkDeriveInput {
  di_Jobs : list ContractJob;
  di_Evidence : list EvidenceRecord;
  di_PreviousProducerSchemas : list ProducerSchemaRecord;
}.

Definition sortJobs : list ContractJob → list ContractJob := sort_stable (λ a b, str_less (cj_Alias a) (cj_Alias b)).

Definition withAlias (job : ContractJob) (alias : string) : ContractJob :=
  mkContractJob (cj_ID job) alias (cj_Labels job) (cj_Trigger job) (cj_Steps job) (cj_Incoming job).

(** The loop that trims the aliases, refuses blank and repeated ones and adds the nodes. *)
Fixpoint addJobs (idx : nat) (seenAliases : gset string) (b : graphBuilder) (jobs : list ContractJob)
    : checked (list ContractJob * graphBuilder) :=
  match jobs with
  | [] => mret ([], b)
  | job :: l =>
      let job := withAlias job (TrimSpace (cj_Alias job)) in
      _ ← require (negb (cj_Alias job =s "")) (Errorf "job %d: alias is required" [D idx]);
      _ ← require (bool_decide (cj_Alias job ∉ seenAliases)) (Errorf "duplicate job alias %q" [Q (cj_Alias job)]);
      '(l, b) ← addJobs (S idx) ({[cj_Alias job]} ∪ seenAliases) (addJob b (cj_Alias job) (cj_Labels job)) l;
      mret (job :: l, b)
  end.

Definition DeriveGraph `{SchemaLib} (input : DeriveInput) : checked ContractGraph :=
  '(jobs, b) ← addJobs 0 ∅ newGraphBuilder (sortJobs (di_Jobs input));
  let b := deriveDeclaredEdges b jobs (di_PreviousProducerSchemas input) in
  b ← deriveInferredEdges b jobs;
  mret (builderGraph (deriveEvidenceEdges b (di_Evidence input))).
End inferred.
