(* ===== verification/ContractGate.v ===== *)
(** Enforcement of contracts on an apply (internal/contract/enforce.go): the breaking
    findings of the graph, grouped by producer and subject, are blocked unless an
    unexpired acknowledgement covers the digest of the group.

    The table of acknowledgements is a list of rows. The text of times, the digest
    function, new identifiers, the rows of jobs and failures of the database are
    arguments. Of the payload of an event the consumer and the digest are kept; logging
    and metrics have no effect here. *)

From stdpp Require Import pretty.
From S2P Require Import Prelude Tables JobDef StepGraph Validate TriggerChain SchemaCompat ContractGraph.

Definition EnforcementModeOff : string := "".
Definition EnforcementModeWarn : string := "warn".
Definition EnforcementModeFail : string := "fail".

(** A row of contract_acks (internal/models/contract_ack.go). *)
Record ContractAck := mkContractAck {
  ak_ID : uuid;
  ak_Dataset : string;
  ak_EdgeSetDigest : string;
  ak_Actor : string;
  ak_Reason : string;
  ak_CreatedAt : Z;
  ak_ExpiresAt : Z;
}.

Record ContractFinding := mkContractFinding {
  cf_Subject : string;
  cf_Dataset : string;
  cf_OutputKey : string;
  cf_Producer : string;
  cf_Consumer : string;
  cf_ConsumerTeam : string;
  cf_TeamAttribution : string;
  cf_EdgeClass : string;
  cf_Path : string;
  cf_Detail : string;
  cf_Verdict : string;
  cf_EdgeID : string;
  cf_EdgeSetDigest : string;
  cf_Acknowledged : bool;
  cf_AcknowledgementID : string;
}.

Record breakingGroup := mkBreakingGroup {
  bg_subject : string;
  bg_producer : string;
  bg_findings : list ContractFinding;
  bg_digest : string;
}.

Record AllowBreaking := mkAllowBreaking { ab_Dataset : string; ab_Reason : string; ab_Actor : string }.

Record ContractWarning := mkContractWarning {
  cw_Type : string;
  cw_Message : string;
  cw_Subject : string;
  cw_Dataset : string;
  cw_OutputKey : string;
  cw_Producer : string;
  cw_Consumer : string;
  cw_ConsumerTeam : string;
  cw_EdgeSetDigest : string;
  cw_AcknowledgementID : string;
  cw_DeprecationUntil : Z;
}.

(** The options: [None] for absent aliases puts every finding in scope; the event
    store may be absent. *)
Record EnforceOptions := mkEnforceOptions {
  eo_AllowBreaking : option AllowBreaking;
  eo_DeprecationWindow : Z;
  eo_EventStore : bool;
  eo_IncomingAliases : option (gset string);
  eo_SuppressAckNoMatch : bool;
}.

(** What enforcement returns as an error. *)
Inductive enforce_error : Type :=
| UnsupportedMode (mode : string)
| NegativeWindow
| AckStoreFailed
| ErrInvalidContractAck (dataset : string)
| EnforcementError (message : string) (findings : list ContractFinding).

(** * Findings of the graph *)

(** The pattern of [outputKeyDetailPattern]: the word key, or the words output key, a
    space and a non-empty text in double quotes; the leftmost match gives the text. *)
Fixpoint untilQuote (s : string) : option string :=
  match s with
  | EmptyString => None
  | String c s => if bool_decide (c = "034"%char) then Some "" else String c <$> untilQuote s
  end.

Definition keyAt (s : string) : option string :=
  let opening := "key " +:+ dquote in
  let try_ prefix := if String.prefix prefix s then
                       match untilQuote (TrimPrefix prefix s) with
                       | Some key => if key =s "" then None else Some key
                       | None => None
                       end
                     else None in
  match try_ ("output " +:+ opening) with
  | Some key => Some key
  | None => try_ opening
  end.

Fixpoint findKey (s : string) : option string :=
  match keyAt s with
  | Some key => Some key
  | None => match s with EmptyString => None | String _ s => findKey s end
  end.

Definition outputKeyFromDetail (detail : string) : string :=
  match findKey detail with Some key => TrimSpace key | None => "" end.

Definition outputKeyFromFinding (f : Finding) : string :=
  let key := TrimSpace (f_Key f) in
  if negb (key =s "") then key else outputKeyFromDetail (f_Detail f).

(** The label [team] of a node. *)
Definition teamOf (nodesByID : gmap string ContractNode) (id : string) : string :=
  match nodesByID !! id with
  | Some node => default "" (get "team" (nd_Labels node))
  | None => ""
  end.

Definition contractFindingFromEdge (edge : ContractEdge) (f : Finding) (nodesByID : gmap string ContractNode) : ContractFinding :=
  let producer := TrimPrefix "job:" (TrimSpace (ed_From edge)) in
  let consumer := TrimPrefix "job:" (TrimSpace (ed_To edge)) in
  let consumerTeam := TrimSpace (teamOf nodesByID (ed_To edge)) in
  let teamAttribution := if consumerTeam =s "" then "deferred: metadata.labels.team not set" else "" in
  let dataset := datasetKey (ed_Dataset edge) in
  let outputKey := outputKeyFromFinding f in
  let subject :=
    if dataset =s "" then
      if negb (outputKey =s "") then producer +:+ ".output." +:+ outputKey else producer +:+ ".contract"
    else dataset in
  mkContractFinding subject dataset outputKey producer consumer consumerTeam teamAttribution (ed_Class edge)
    (f_Path f) (f_Detail f) (f_Verdict f) (ed_ID edge) "" false "".

Definition contractFindingInIncomingScope (f : ContractFinding) (incomingAliases : option (gset string)) : bool :=
  match incomingAliases with
  | None => true
  | Some aliases => bool_decide (TrimSpace (cf_Producer f) ∈ aliases) || bool_decide (TrimSpace (cf_Consumer f) ∈ aliases)
  end.

(** The comparison loops over several columns: the first difference decides. *)
Fixpoint columns_less (cmps : list comparison) : bool :=
  match cmps with
  | [] => false
  | Lt :: _ => true
  | Gt :: _ => false
  | Eq :: l => columns_less l
  end.

Definition contract_finding_less (a b : ContractFinding) : bool :=
  columns_less [String.compare (cf_Subject a) (cf_Subject b); String.compare (cf_Producer a) (cf_Producer b);
    String.compare (cf_Consumer a) (cf_Consumer b); String.compare (cf_Path a) (cf_Path b);
    String.compare (cf_Detail a) (cf_Detail b)].
Definition sortContractFindings : list ContractFinding → list ContractFinding := sort_stable contract_finding_less.

(** The findings that block, in the order the loops meet them. *)
Definition edgeContractFindings (nodesByID : gmap string ContractNode) (incomingAliases : option (gset string))
    (edge : ContractEdge) : list ContractFinding :=
  if negb (ed_Verdict edge =s VerdictBreaking) then []
  else
    omap (λ f,
      if negb (f_Verdict f =s VerdictBreaking) then None
      else
        let cf := contractFindingFromEdge edge f nodesByID in
        if contractFindingInIncomingScope cf incomingAliases then Some cf else None) (ed_Findings edge).

Definition NUL : string := String "000"%char EmptyString.
Definition groupKey (cf : ContractFinding) : string := cf_Producer cf +:+ NUL +:+ cf_Subject cf.

Definition addToGroup (grouped : gmap string breakingGroup) (cf : ContractFinding) : gmap string breakingGroup :=
  let group := default (mkBreakingGroup (cf_Subject cf) (cf_Producer cf) [] "") (grouped !! groupKey cf) in
  <[groupKey cf := mkBreakingGroup (bg_subject group) (bg_producer group) (bg_findings group ++ [cf]) (bg_digest group)]> grouped.

Definition withDigest (digest : string) (f : ContractFinding) : ContractFinding :=
  mkContractFinding (cf_Subject f) (cf_Dataset f) (cf_OutputKey f) (cf_Producer f) (cf_Consumer f) (cf_ConsumerTeam f)
    (cf_TeamAttribution f) (cf_EdgeClass f) (cf_Path f) (cf_Detail f) (cf_Verdict f) (cf_EdgeID f) digest
    (cf_Acknowledged f) (cf_AcknowledgementID f).

Definition acknowledge (id : string) (f : ContractFinding) : ContractFinding :=
  mkContractFinding (cf_Subject f) (cf_Dataset f) (cf_OutputKey f) (cf_Producer f) (cf_Consumer f) (cf_ConsumerTeam f)
    (cf_TeamAttribution f) (cf_EdgeClass f) (cf_Path f) (cf_Detail f) (cf_Verdict f) (cf_EdgeID f) (cf_EdgeSetDigest f)
    true id.

(** The columns that the digest covers. *)
Record digestFinding := mkDigestFinding {
  df_EdgeID : string;
  df_EdgeClass : string;
  df_Dataset : string;
  df_OutputKey : string;
  df_Producer : string;
  df_Consumer : string;
  df_Path : string;
  df_Detail : string;
  df_Verdict : string;
}.

Definition digestOfFinding (f : ContractFinding) : digestFinding :=
  mkDigestFinding (cf_EdgeID f) (cf_EdgeClass f) (cf_Dataset f) (cf_OutputKey f) (cf_Producer f) (cf_Consumer f)
    (cf_Path f) (cf_Detail f) (cf_Verdict f).

Definition digest_less (a b : digestFinding) : bool :=
  columns_less [String.compare (df_Producer a) (df_Producer b); String.compare (df_Consumer a) (df_Consumer b);
    String.compare (df_EdgeID a) (df_EdgeID b); String.compare (df_Path a) (df_Path b);
    String.compare (df_Detail a) (df_Detail b)].

Definition displayDatasetName (dataset : string) : string :=
  let dataset := TrimSpace dataset in
  if String.prefix "/" dataset && negb (contains_slash (TrimPrefix "/" dataset)) then TrimPrefix "/" dataset else dataset.

Definition datasetForGroup (group : breakingGroup) : string :=
  match List.find (λ f, negb (TrimSpace (cf_Dataset f) =s "")) (bg_findings group) with
  | Some f => TrimSpace (cf_Dataset f)
  | None => ""
  end.

Definition ackDatasetForGroup (group : breakingGroup) (allow : AllowBreaking) : string :=
  if negb (TrimSpace (ab_Dataset allow) =s "") then TrimSpace (ab_Dataset allow)
  else
    let dataset := displayDatasetName (datasetForGroup group) in
    if negb (dataset =s "") then dataset else bg_subject group.

Definition warningSubjectForGroup (group : breakingGroup) : string :=
  let dataset := displayDatasetName (datasetForGroup group) in
  if negb (dataset =s "") then dataset else bg_subject group.

Definition allowBreakingMatches (allow : AllowBreaking) (group : breakingGroup) : bool :=
  let requested := TrimSpace (ab_Dataset allow) in
  existsb (λ candidate, negb (requested =s "") && (requested =s TrimSpace candidate))
    [bg_subject group; datasetForGroup group; displayDatasetName (datasetForGroup group)].

Definition offendingKeys (findings : list ContractFinding) : list string :=
  sortStrings (elements (list_to_set (List.filter (λ k, negb (k =s "")) (map (λ f, TrimSpace (cf_OutputKey f)) findings)) : gset string)).

Definition contractBreakMessage (findings : list ContractFinding) : string :=
  let parts := map (λ f,
    let team := if negb (cf_ConsumerTeam f =s "") then "team: " +:+ cf_ConsumerTeam f
                else "team attribution deferred: metadata.labels.team not set" in
    let subject :=
      if negb (cf_Dataset f =s "") && negb (cf_OutputKey f =s "")
      then displayDatasetName (cf_Dataset f) +:+ " key " +:+ cf_OutputKey f
      else if negb (cf_OutputKey f =s "") then "output key " +:+ cf_OutputKey f
      else cf_Subject f in
    subject +:+ " from " +:+ cf_Producer f +:+ " consumed by " +:+ cf_Consumer f +:+ " (" +:+ team +:+ ")") findings in
  "contract enforcement blocked " +:+ pretty (length findings) +:+ " breaking finding(s): " +:+ String.concat "; " (sortStrings parts).

Definition warning_less (a b : ContractWarning) : bool :=
  columns_less [String.compare (cw_Subject a) (cw_Subject b); String.compare (cw_Type a) (cw_Type b);
    String.compare (cw_Producer a) (cw_Producer b); String.compare (cw_Consumer a) (cw_Consumer b);
    String.compare (cw_Message a) (cw_Message b)].
Definition sortContractWarnings : list ContractWarning → list ContractWarning := sort_stable warning_less.

Definition normalizeMode (mode : string) : string := ToLower (TrimSpace mode).

(** * Enforcement *)

(** Digest, identifier and time text, new identifiers by digest, which calls of the
    database fail (the lookup of an acknowledgement, its creation, and the appending of
    an event, each by digest), and the rows of live jobs, [None] when they cannot be
    loaded. *)
Class GateEnv := {
  sha256Digest : Z → string → list digestFinding → string;
  ackText : uuid → string;
  timeText : Z → string;
  newAckID : string → uuid;
  lookupFails : string → bool;
  createFails : string → bool;
  consumerJobs : option (list (uuid * string));
  emitFails : string → bool;
}.

Section gate.
Context `{GateEnv}.

Definition edgeSetDigest (subject : string) (findings : list ContractFinding) : string :=
  sha256Digest 2 subject (sort_stable digest_less (map digestOfFinding findings)).

Definition sealGroup (group : breakingGroup) : breakingGroup :=
  let findings := sortContractFindings (bg_findings group) in
  let digest := edgeSetDigest (bg_subject group) findings in
  mkBreakingGroup (bg_subject group) (bg_producer group) (map (withDigest digest) findings) digest.

Definition group_less (a b : breakingGroup) : bool :=
  if bg_subject a =s bg_subject b then str_less (bg_digest a) (bg_digest b) else str_less (bg_subject a) (bg_subject b).

Definition breakingGroupsFromGraph (graph : ContractGraph) (incomingAliases : option (gset string)) : list breakingGroup :=
  let nodesByID : gmap string ContractNode := fold_left (λ m node, <[nd_ID node := node]> m) (g_Nodes graph) ∅ in
  let findings := concat (map (edgeContractFindings nodesByID incomingAliases) (g_Edges graph)) in
  let grouped := fold_left addToGroup findings ∅ in
  sort_stable group_less (map (λ e, sealGroup e.2) (map_to_list grouped)).

(** The unexpired acknowledgement of the digest that expires last. *)
Definition validAckForDigest (acks : list ContractAck) (digest : string) (now : Z) : option ContractAck :=
  first (sort_stable (λ a b, ak_ExpiresAt b <? ak_ExpiresAt a)
    (select (λ a, (ak_EdgeSetDigest a =s digest) && (now <? ak_ExpiresAt a)) acks)).

Definition createContractAck (group : breakingGroup) (allow : AllowBreaking) (window now : Z) : ContractAck :=
  let actor := TrimSpace (ab_Actor allow) in
  mkContractAck (newAckID (bg_digest group)) (ackDatasetForGroup group allow) (bg_digest group)
    (if actor =s "" then "anonymous" else actor) (TrimSpace (ab_Reason allow)) now (now + window).

Definition contractWarning (warningType message : string) (f : ContractFinding) (ack : ContractAck) : ContractWarning :=
  mkContractWarning warningType message (cf_Subject f) (displayDatasetName (cf_Dataset f)) (cf_OutputKey f) (cf_Producer f)
    (cf_Consumer f) (cf_ConsumerTeam f) (cf_EdgeSetDigest f) (ackText (ak_ID ack)) (ak_ExpiresAt ack).

Definition warningsForAcknowledgedGroup (group : breakingGroup) (ack : ContractAck) (incomingAliases : option (gset string))
    : list ContractWarning :=
  let subject := warningSubjectForGroup group in
  map (λ f,
    if bool_decide (cf_Consumer f ∈ default ∅ incomingAliases)
    then contractWarning "deprecated_contract_consumed"
           ("consuming a deprecated contract " +:+ subject +:+ " from " +:+ cf_Producer f +:+ "; migrate before " +:+
            timeText (ak_ExpiresAt ack)) f ack
    else contractWarning "contract_break_acknowledged"
           ("breaking contract " +:+ subject +:+ " from " +:+ cf_Producer f +:+ " is in a deprecation window until " +:+
            timeText (ak_ExpiresAt ack)) f ack) (bg_findings group).

(** [group.findings[0]]: a group is never empty. *)
Definition warningForDeclaredGroup (group : breakingGroup) (ack : ContractAck) : list ContractWarning :=
  match bg_findings group with
  | [] => []
  | f :: _ =>
      let keys := offendingKeys (bg_findings group) in
      let keyDetail := if (0 <? length keys)%nat then " for key(s) " +:+ String.concat ", " keys else "" in
      [contractWarning "contract_break_declared"
         ("contract break declared for " +:+ warningSubjectForGroup group +:+ keyDetail +:+ " from " +:+ bg_producer group +:+
          " until " +:+ timeText (ak_ExpiresAt ack)) f ack]
  end.

(** The consumers that are told of a declared break, with the identifiers of their jobs. *)
Definition contractBreakConsumers (group : breakingGroup) : list (uuid * string) :=
  let aliases := sortStrings (elements (list_to_set
    (List.filter (λ k, negb (k =s "")) (map (λ f, TrimSpace (cf_Consumer f)) (bg_findings group))) : gset string)) in
  let jobs := default [] consumerJobs in
  map (λ alias, (fold_left (λ id job, if job.2 =s alias then job.1 else id) jobs uuid_Nil, alias)) aliases.

(** An event of a declared break. *)
Record ContractEvent := mkContractEvent {
  ce_JobID : uuid;
  ce_Timestamp : Z;
  ce_Consumer : string;
  ce_Digest : string;
}.

(** [None] when an event cannot be appended. *)
Definition emitContractBreakDeclaredEvents (store : bool) (group : breakingGroup) (ack : ContractAck) : option (list ContractEvent) :=
  if negb store then Some []
  else if (0 <? length (contractBreakConsumers group))%nat && emitFails (bg_digest group) then None
  else Some (map (λ consumer, mkContractEvent consumer.1 (ak_CreatedAt ack) consumer.2 (bg_digest group)) (contractBreakConsumers group)).

(** The state of the loop over the groups. *)
Record gateState := mkGateState {
  gs_acks : list ContractAck;
  gs_events : list ContractEvent;
  gs_warnings : list ContractWarning;
  gs_blocked : list ContractFinding;
  gs_allowMatched : bool;
}.

Definition withFindings (group : breakingGroup) (findings : list ContractFinding) : breakingGroup :=
  mkBreakingGroup (bg_subject group) (bg_producer group) findings (bg_digest group).

Definition gateGroup (opts : EnforceOptions) (window now : Z) (st : gateState) (group : breakingGroup) : enforce_error + gateState :=
  let matches := match eo_AllowBreaking opts with Some allow => allowBreakingMatches allow group | None => false end in
  if lookupFails (bg_digest group) then inl AckStoreFailed
  else
    match validAckForDigest (gs_acks st) (bg_digest group) now with
    | Some ack =>
        let group := withFindings group (map (acknowledge (ackText (ak_ID ack))) (bg_findings group)) in
        inr (mkGateState (gs_acks st) (gs_events st)
               (gs_warnings st ++ warningsForAcknowledgedGroup group ack (eo_IncomingAliases opts))
               (gs_blocked st) (gs_allowMatched st || matches))
    | None =>
        match eo_AllowBreaking opts, matches with
        | Some allow, true =>
            if createFails (bg_digest group) then inl AckStoreFailed
            else
              let ack := createContractAck group allow window now in
              let group := withFindings group (map (acknowledge (ackText (ak_ID ack))) (bg_findings group)) in
              match emitContractBreakDeclaredEvents (eo_EventStore opts) group ack with
              | None => inl AckStoreFailed
              | Some events =>
                  inr (mkGateState (gs_acks st ++ [ack]) (gs_events st ++ events)
                         (gs_warnings st ++ warningForDeclaredGroup group ack) (gs_blocked st) true)
              end
        | _, _ =>
            inr (mkGateState (gs_acks st) (gs_events st) (gs_warnings st) (gs_blocked st ++ bg_findings group) (gs_allowMatched st))
        end
    end.

Fixpoint gateGroups (opts : EnforceOptions) (window now : Z) (st : gateState) (groups : list breakingGroup) : enforce_error + gateState :=
  match groups with
  | [] => inr st
  | group :: l =>
      match gateGroup opts window now st group with
      | inl e => inl e
      | inr st => gateGroups opts window now st l
      end
  end.

Definition defaultDeprecationWindow : Z := 14 * 24 * 3600 * 1000000000.

(** The rows of acknowledgements and the events afterwards, and the warnings. *)
Definition EvaluateGraphWithOptions (acks : list ContractAck) (graph : ContractGraph) (mode : string) (now : Z) (opts : EnforceOptions)
    : enforce_error + (list ContractAck * list ContractEvent * list ContractWarning) :=
  let mode := normalizeMode mode in
  if mode =s EnforcementModeOff then inr (acks, [], [])
  else if negb (mode =s EnforcementModeWarn) && negb (mode =s EnforcementModeFail) then inl (UnsupportedMode mode)
  else
    let window := if eo_DeprecationWindow opts =? 0 then defaultDeprecationWindow else eo_DeprecationWindow opts in
    if window <? 0 then inl NegativeWindow
    else
      let groups := breakingGroupsFromGraph graph (eo_IncomingAliases opts) in
      if (length groups =? 0)%nat then inr (acks, [], [])
      else if mode =s EnforcementModeWarn then inr (acks, [], [])
      else
        match gateGroups opts window now (mkGateState acks [] [] [] false) groups with
        | inl e => inl e
        | inr st =>
            if (length (gs_blocked st) =? 0)%nat then
              match eo_AllowBreaking opts with
              | Some allow =>
                  if negb (gs_allowMatched st) && negb (eo_SuppressAckNoMatch opts)
                  then inl (ErrInvalidContractAck (TrimSpace (ab_Dataset allow)))
                  else inr (gs_acks st, gs_events st, sortContractWarnings (gs_warnings st))
              | None => inr (gs_acks st, gs_events st, sortContractWarnings (gs_warnings st))
              end
            else
              let blocked := sortContractFindings (gs_blocked st) in
              inl (EnforcementError (contractBreakMessage blocked) blocked)
        end.
End gate.
