(* ===== verification/ContractTheorems.v ===== *)
(** Theorems on the contract gate: no apply that enforcement lets through in fail mode
    leaves a declared consumer with a broken requirement, unless an unexpired
    acknowledgement covers the break, provided the copied schemas compile and the aliases
    do not contain the separators of edge identifiers. *)

From Stdlib Require Import SpecFloat.
From S2P Require Import Prelude Tables JobDef StepGraph StepTheorems Validate TriggerChain SchemaCompat SchemaTheorems ContractGraph ContractGate.

(** * Strings: where an identifier splits *)

Definition without (c : ascii) (s : string) : bool := allChars (λ d, negb (bool_decide (d = c))) s.

Lemma split_unique c a b r s : without c a = true → without c b = true →
  a +:+ String c r = b +:+ String c s → a = b ∧ r = s.
Proof.
  unfold without. revert b. induction a as [|x a IH]; intros [|y b]; simpl; intros Ha Hb E.
  - by injection E.
  - injection E as <- _. by rewrite bool_decide_eq_true_2 in Hb.
  - injection E as -> _. by rewrite bool_decide_eq_true_2 in Ha.
  - apply andb_true_iff in Ha as [_ Ha], Hb as [_ Hb]. injection E as -> E.
    destruct (IH b Ha Hb E) as [-> ->]. done.
Qed.

Lemma append_assoc (a b c : string) : (a +:+ b) +:+ c = a +:+ b +:+ c.
Proof. induction a as [|x a IH]; [done|]. apply (f_equal (String x) IH). Qed.

Lemma append_empty (a : string) : a +:+ "" = a.
Proof. induction a as [|x a IH]; [done|]. apply (f_equal (String x) IH). Qed.

Lemma without_app c a b : without c (a +:+ b) = without c a && without c b.
Proof. unfold without. induction a as [|x a IH]; [done|].
  change (String x a +:+ b) with (String x (a +:+ b)). cbn. by rewrite IH, andb_assoc.
Qed.

(** An alias without the separators of edge identifiers. *)
Definition plain_alias (alias : string) : Prop := without ":" alias = true ∧ without ">" alias = true.

Definition datasetPart (dataset : option DatasetRef) : string :=
  match dataset with Some _ => ":" +:+ datasetKey dataset | None => "" end.

Lemma edgeID_split e :
  edgeID e = "edge:" +:+ ed_Class e +:+ ":" +:+ ed_From e +:+ "->" +:+ ed_To e +:+ datasetPart (ed_Dataset e).
Proof.
  unfold edgeID, datasetPart. destruct (ed_Dataset e); [by rewrite !append_assoc|by rewrite append_empty].
Qed.

Lemma split_app c a b r s : without c a = true → without c b = true →
  a +:+ String c EmptyString +:+ r = b +:+ String c EmptyString +:+ s → a = b ∧ r = s.
Proof. apply split_unique. Qed.

Lemma append_last_inj c a b : a +:+ String c EmptyString = b +:+ String c EmptyString → a = b.
Proof.
  revert b. induction a as [|x a IH]; intros [|y b] E; [done| | |].
  - injection E as _ E. by destruct b.
  - injection E as _ E. by destruct a.
  - injection E as -> E. f_equal. by apply IH.
Qed.

Lemma job_from_inj a b r s : plain_alias a → plain_alias b →
  ("job:" +:+ a) +:+ "->" +:+ r = ("job:" +:+ b) +:+ "->" +:+ s → a = b ∧ r = s.
Proof.
  intros [_ Ha] [_ Hb] E.
  assert (∀ x t : string, ("job:" +:+ x) +:+ "->" +:+ t = ("job:" +:+ x +:+ "-") +:+ String ">" t) as Hx.
  { intros x t. rewrite !append_assoc. done. }
  rewrite !Hx in E. apply split_unique in E as [E ->].
  - split; [|done]. apply (inj (String.append "job:")) in E. by apply append_last_inj in E.
  - by rewrite !without_app, Ha.
  - by rewrite !without_app, Hb.
Qed.

Lemma job_to_inj a b r s : plain_alias a → plain_alias b →
  ("job:" +:+ a) +:+ ":" +:+ r = ("job:" +:+ b) +:+ ":" +:+ s → a = b.
Proof.
  intros [Ha _] [Hb _] E. rewrite !append_assoc in E. apply (inj (String.append "job:")) in E.
  by apply split_unique in E as [-> _].
Qed.

(** * The builder *)

Definition edgeClasses : list string := [EdgeClassDeclared; EdgeClassInferred; EdgeClassEvidence].

(** A declared edge joins jobs with plain_alias aliases over a dataset. *)
Definition endpoints_ok (e : ContractEdge) : Prop :=
  ed_Class e ∈ edgeClasses ∧
  (ed_Class e = EdgeClassDeclared → ∃ a c d, plain_alias a ∧ plain_alias c ∧ ed_From e = "job:" +:+ a ∧ ed_To e = "job:" +:+ c ∧ ed_Dataset e = Some d).

Definition builder_ok (b : graphBuilder) : Prop :=
  ∀ id e, gb_edges b !! id = Some e → id = edgeID e ∧ endpoints_ok e.

Lemma class_without e : ed_Class e ∈ edgeClasses → without ":" (ed_Class e) = true.
Proof. unfold edgeClasses. intros H. set_unfold in H. destruct H as [->|[->|[->|[]]]]; vm_compute; reflexivity. Qed.

(** Declared edges with one identifier have the same ends. *)
Lemma edgeID_ends e e' : endpoints_ok e → endpoints_ok e' → ed_Class e = EdgeClassDeclared → edgeID e = edgeID e' →
  ed_From e = ed_From e' ∧ ed_To e = ed_To e'.
Proof.
  intros [Hc Hd] [Hc' Hd'] Ecl E. rewrite !edgeID_split in E. apply (inj (String.append "edge:")) in E.
  apply split_app in E as [Ec E]; [|by apply class_without..].
  destruct (Hd Ecl) as (a & c & d & Pa & Pc & Ef & Et & Ed).
  destruct Hd' as (a' & c' & d' & Pa' & Pc' & Ef' & Et' & Ed'); [congruence|].
  rewrite Ef, Ef', Et, Et', Ed, Ed' in *. apply job_from_inj in E as [-> E]; [|done..].
  apply job_to_inj in E as ->; done.
Qed.

(** A breaking finding that an edge between two jobs records. *)
Definition records (b : graphBuilder) (a c : string) (f : Finding) : Prop :=
  ∃ id e, gb_edges b !! id = Some e ∧ ed_From e = "job:" +:+ a ∧ ed_To e = "job:" +:+ c ∧
    f ∈ ed_Findings e ∧ ed_Verdict e = VerdictBreaking.

Lemma mergeEdges_keeps e e' f : f ∈ ed_Findings e → ed_Verdict e = VerdictBreaking →
  f ∈ ed_Findings (mergeEdges e e') ∧ ed_Verdict (mergeEdges e e') = VerdictBreaking.
Proof.
  intros Hf Hv. split.
  - simpl. unfold sortedFindings. rewrite sort_stable_perm, elem_of_app. by left.
  - simpl. rewrite Hv. destruct (ed_Verdict e' =s VerdictBreaking) eqn:E; simpl; [by apply str_eqb_eq in E|].
    by rewrite andb_false_r.
Qed.

Lemma mergeEdges_takes e e' f : f ∈ ed_Findings e' → ed_Verdict e' = VerdictBreaking →
  f ∈ ed_Findings (mergeEdges e e') ∧ ed_Verdict (mergeEdges e e') = VerdictBreaking.
Proof.
  intros Hf Hv. split.
  - simpl. unfold sortedFindings. rewrite sort_stable_perm, elem_of_app. by right.
  - simpl. by rewrite Hv.
Qed.

Lemma builderAddEdge_records b edge a c f : records b a c f → records (builderAddEdge b edge) a c f.
Proof.
  intros (id & e & He & Ef & Et & Hf & Hv). unfold builderAddEdge. destruct (_ || _ || _); [by exists id, e|].
  cbv zeta. set (new := withEndpoints _ _ _ _). destruct (gb_edges b !! ed_ID new) as [old|] eqn:Eo.
  - destruct (decide (ed_ID new = id)) as [<-|Hne].
    + rewrite He in Eo. injection Eo as <-. exists (ed_ID new), (mergeEdges e new).
      cbn [gb_edges]. rewrite lookup_insert_eq. destruct (mergeEdges_keeps e new f Hf Hv). done.
    + exists id, e. cbn [gb_edges]. by rewrite lookup_insert_ne.
  - exists id, e. cbn [gb_edges]. rewrite lookup_insert_ne; [done|congruence].
Qed.

(** The edge as the builder stores it. *)
Definition trimmedEdge (edge : ContractEdge) : Prop :=
  TrimSpace (ed_From edge) = ed_From edge ∧ TrimSpace (ed_To edge) = ed_To edge ∧
  ed_From edge ≠ "" ∧ ed_To edge ≠ "" ∧ ed_Class edge ≠ "".

Lemma builderAddEdge_trimmed b edge : trimmedEdge edge →
  builderAddEdge b edge =
  let new := withEndpoints edge (edgeID edge) (ed_From edge) (ed_To edge) in
  mkBuilder (gb_nodes b) (<[edgeID edge := match gb_edges b !! edgeID edge with Some old => mergeEdges old new | None => new end]> (gb_edges b)).
Proof.
  intros (Ef & Et & Nf & Nt & Nc). unfold builderAddEdge. rewrite Ef, Et, !str_eqb_neq by done. cbv zeta. simpl.
  change (edgeID (withEndpoints edge (ed_ID edge) (ed_From edge) (ed_To edge))) with (edgeID edge).
  by destruct (gb_edges b !! edgeID edge).
Qed.

Lemma builderAddEdge_ok b edge : trimmedEdge edge → endpoints_ok edge → builder_ok b → builder_ok (builderAddEdge b edge).
Proof.
  intros Ht He Hb. rewrite builderAddEdge_trimmed by done. cbv zeta. intros id e. cbn [gb_edges].
  destruct (decide (edgeID edge = id)) as [<-|Hne]; [|rewrite lookup_insert_ne by done; apply Hb].
  rewrite lookup_insert_eq. intros [= <-]. destruct (gb_edges b !! edgeID edge) as [old|] eqn:Eo; [|done].
  destruct (Hb _ _ Eo) as [E Hold]. split; [exact E|exact Hold].
Qed.

Lemma builderAddEdge_new b edge a c f : trimmedEdge edge → endpoints_ok edge → builder_ok b →
  ed_Class edge = EdgeClassDeclared → ed_From edge = "job:" +:+ a → ed_To edge = "job:" +:+ c →
  f ∈ ed_Findings edge → ed_Verdict edge = VerdictBreaking → records (builderAddEdge b edge) a c f.
Proof.
  intros Ht He Hb Hc Ef Et Hf Hv. rewrite builderAddEdge_trimmed by done. cbv zeta.
  eexists _, _. cbn [gb_edges]. rewrite lookup_insert_eq. split; [done|].
  destruct (gb_edges b !! edgeID edge) as [old|] eqn:Eo; [|done].
  destruct (Hb _ _ Eo) as [E Hold]. destruct (edgeID_ends edge old) as [Ef' Et']; [done..|].
  match goal with |- context [mergeEdges old ?n] => destruct (mergeEdges_takes old n f Hf Hv) end.
  cbn [mergeEdges ed_From ed_To] in *. split_and!; [congruence..|done|done].
Qed.

Lemma addJob_edges b alias labels : gb_edges (addJob b alias labels) = gb_edges b.
Proof. unfold addJob. cbv zeta. by repeat case_match. Qed.

Lemma addDataset_edges b dataset : gb_edges (addDataset b dataset) = gb_edges b.
Proof. unfold addDataset. cbv zeta. by repeat case_match. Qed.

Lemma records_edges b b' a c f : gb_edges b' = gb_edges b → records b a c f → records b' a c f.
Proof. unfold records. by intros ->. Qed.

Lemma ok_edges b b' : gb_edges b' = gb_edges b → builder_ok b → builder_ok b'.
Proof. unfold builder_ok. by intros ->. Qed.

(** * Folds over the builder *)

Lemma fold_keep {St A} (P : St → Prop) (step : St → A → St) l b :
  (∀ b x, x ∈ l → P b → P (step b x)) → P b → P (fold_left step l b).
Proof.
  revert b. induction l as [|x l IH]; intros b Hs Hb; [done|]. simpl. apply IH; [|apply Hs; [set_solver|done]].
  intros b' y Hy. apply Hs. set_solver.
Qed.

(** What one element brings about and the others keep. *)
Lemma fold_reach {St A} (Inv P : St → Prop) (step : St → A → St) l b x :
  (∀ b y, y ∈ l → Inv b → Inv (step b y)) → (∀ b y, P b → P (step b y)) →
  (∀ b, Inv b → P (step b x)) → x ∈ l → Inv b → P (fold_left step l b).
Proof.
  intros Hinv HP Hx. revert b. induction l as [|y l IH]; intros b Hin Hb; [set_solver|]. simpl.
  apply elem_of_cons in Hin as [->|Hin].
  - apply fold_keep; [auto|]. by apply Hx.
  - apply IH; [|done|apply Hinv; [set_solver|done]]. intros b' z Hz. apply Hinv. set_solver.
Qed.

(** * Aliases *)

Definition job_ok (job : ContractJob) : Prop :=
  TrimSpace (cj_Alias job) = cj_Alias job ∧ cj_Alias job ≠ "" ∧ plain_alias (cj_Alias job).

Lemma trim_right_id s : TrimSpace s = s → trim_right s = s.
Proof.
  unfold TrimSpace. intros E. rewrite <- E at 1. rewrite trim_right_idemp. done.
Qed.

Lemma trim_job alias : TrimSpace alias = alias → alias ≠ "" → TrimSpace ("job:" +:+ alias) = "job:" +:+ alias.
Proof.
  intros E Hne. unfold TrimSpace. rewrite (trim_left_id ("job:" +:+ alias)) by done.
  change ("job:" +:+ alias) with (String "j" (String "o" (String "b" (String ":" alias)))).
  cbn [trim_right]. rewrite (trim_right_id _ E). by destruct alias.
Qed.

Lemma JobNodeID_ok job : job_ok job → JobNodeID (cj_Alias job) = "job:" +:+ cj_Alias job.
Proof. intros (E & _). unfold JobNodeID. by rewrite E. Qed.

Lemma trimprefix_job alias : TrimPrefix "job:" ("job:" +:+ alias) = alias.
Proof.
  unfold TrimPrefix. change ("job:" +:+ alias) with (String "j" (String "o" (String "b" (String ":" alias)))).
  replace (String.prefix "job:" _) with true by (destruct alias; vm_compute; reflexivity).
  assert (∀ n s, (String.length s ≤ n)%nat → String.substring 0 n s = s) as Hsub.
  { induction n as [|n IH]; intros [|x s] Hn; simpl in *; [done|lia|done|]. f_equal. apply IH. lia. }
  simpl. apply Hsub. lia.
Qed.

(** * Findings of a declared edge *)

Lemma prefixFindings_breaking l prefix f : f ∈ l → breaking f → ∃ f', f' ∈ prefixFindings l prefix ∧ breaking f'.
Proof.
  intros Hf Hb. unfold prefixFindings. destruct l as [|x l]; [set_solver|]. cbv zeta.
  eexists. split.
  - unfold sortedFindings. rewrite sort_stable_perm. apply list_elem_of_fmap. exists f. split; [reflexivity|exact Hf].
  - by destruct (negb _).
Qed.

Lemma verdictFrom_breaking l v f : f ∈ l → breaking f → verdictFrom v l = VerdictBreaking.
Proof.
  intros Hf Hb. revert v. induction l as [|x l IH]; intros v; [set_solver|]. simpl.
  destruct (f_Verdict x =s VerdictBreaking) eqn:E; [done|].
  apply elem_of_cons in Hf as [->|Hf]; [unfold breaking in Hb; by rewrite Hb in E|]. by apply IH.
Qed.

Section declared.
Context `{SchemaLib}.

(** What the consumer's requirement is checked against. *)
Definition requirementFindings (p : declaredProducer) (c : declaredConsumer) : list Finding :=
  Satisfies (schemaForCompare (dp_schema p) (dp_schemaKnown p)) (dc_schema c).

Lemma declaredEdge_breaking compare p c f : dc_schemaKnown c = true → f ∈ requirementFindings p c → breaking f →
  ∃ f', breaking f' ∧ f' ∈ ed_Findings (declaredEdge compare p c) ∧ ed_Verdict (declaredEdge compare p c) = VerdictBreaking.
Proof.
  intros Hk Hf Hb.
  destruct (prefixFindings_breaking _ (declaredConsumeFindingPath (dc_dataset c)) f Hf Hb) as (f' & Hf' & Hb').
  assert (f' ∈ declaredEdgeFindings compare.1 p c) as Hin.
  { unfold declaredEdgeFindings. rewrite Hk. cbv zeta. unfold sortedFindings. simpl.
    rewrite sort_stable_perm, elem_of_app. by left. }
  exists f'. split_and!; [done|exact Hin|]. by eapply verdictFrom_breaking.
Qed.

Lemma declaredEdge_ok compare p c : job_ok (dp_job p) → job_ok (dc_job c) →
  trimmedEdge (declaredEdge compare p c) ∧ endpoints_ok (declaredEdge compare p c).
Proof.
  intros Hp Hc. pose proof (JobNodeID_ok _ Hp) as Ep. pose proof (JobNodeID_ok _ Hc) as Ec.
  destruct Hp as (Tp & Np & Pp), Hc as (Tc & Nc & Pc). unfold trimmedEdge, endpoints_ok. cbn [declaredEdge ed_From ed_To ed_Class ed_Dataset].
  rewrite Ep, Ec, !trim_job by done. split; [done|]. split; [set_solver|]. intros _. by exists (cj_Alias (dp_job p)), (cj_Alias (dc_job c)), (dp_dataset p).
Qed.

Lemma addConsumer_records compare p b c x y f : records b x y f → records (addConsumer compare p b c) x y f.
Proof. unfold addConsumer. destruct (_ =s _); [done|apply builderAddEdge_records]. Qed.

Lemma addConsumer_ok compare p b c : job_ok (dp_job p) → job_ok (dc_job c) → builder_ok b → builder_ok (addConsumer compare p b c).
Proof.
  intros Hp Hc Hb. unfold addConsumer. destruct (_ =s _); [done|].
  destruct (declaredEdge_ok compare p c Hp Hc). by apply builderAddEdge_ok.
Qed.

Lemma addConsumer_new compare p c f : job_ok (dp_job p) → job_ok (dc_job c) →
  cj_Alias (dp_job p) ≠ cj_Alias (dc_job c) → dc_schemaKnown c = true → f ∈ requirementFindings p c → breaking f →
  ∃ f', breaking f' ∧ ∀ b, builder_ok b → records (addConsumer compare p b c) (cj_Alias (dp_job p)) (cj_Alias (dc_job c)) f'.
Proof.
  intros Hp Hc Hne Hk Hf Hb. destruct (declaredEdge_breaking compare p c f Hk Hf Hb) as (f' & Hb' & Hin & Hv).
  exists f'. split; [done|]. intros b Hok. unfold addConsumer. rewrite str_eqb_neq by done.
  destruct (declaredEdge_ok compare p c Hp Hc).
  apply builderAddEdge_new; try done; [apply (JobNodeID_ok _ Hp)|apply (JobNodeID_ok _ Hc)].
Qed.

Lemma addProducer_records previous consumers b p x y f : records b x y f → records (addProducer previous consumers b p) x y f.
Proof.
  intros Hr. unfold addProducer. cbv zeta. apply (fold_keep (λ b, records b x y f)).
  - intros b' c _. apply addConsumer_records.
  - eapply records_edges; [apply addDataset_edges|done].
Qed.

Lemma addProducer_ok previous consumers b p : job_ok (dp_job p) → (∀ c, c ∈ consumers → job_ok (dc_job c)) →
  builder_ok b → builder_ok (addProducer previous consumers b p).
Proof.
  intros Hp Hc Hb. unfold addProducer. cbv zeta. apply fold_keep.
  - intros b' c Hin. apply addConsumer_ok; auto.
  - eapply ok_edges; [apply addDataset_edges|done].
Qed.

Lemma addProducer_new previous consumers p c f : job_ok (dp_job p) → (∀ c, c ∈ consumers → job_ok (dc_job c)) → c ∈ consumers →
  cj_Alias (dp_job p) ≠ cj_Alias (dc_job c) → dc_schemaKnown c = true → f ∈ requirementFindings p c → breaking f →
  ∃ f', breaking f' ∧ ∀ b, builder_ok b → records (addProducer previous consumers b p) (cj_Alias (dp_job p)) (cj_Alias (dc_job c)) f'.
Proof.
  intros Hp Hc Hin Hne Hk Hf Hb. unfold addProducer. cbv zeta. set (compare := declaredCompareFindings _ _).
  destruct (addConsumer_new compare p c f Hp (Hc c Hin) Hne Hk Hf Hb) as (f' & Hb' & Hnew).
  exists f'. split; [done|]. intros b Hok. eapply (fold_reach builder_ok (λ b, records b _ _ f')); [| |exact Hnew|done|].
  - intros b' c' Hc'. apply addConsumer_ok; auto.
  - intros b' c'. apply addConsumer_records.
  - eapply ok_edges; [apply addDataset_edges|done].
Qed.
End declared.

(** * All declared edges *)

Lemma allProducers_elem jobs p : p ∈ allProducers jobs ↔ ∃ job step, job ∈ jobs ∧ step ∈ cj_Steps job ∧ p ∈ stepProducers job step.
Proof. unfold allProducers. rewrite elem_of_concat_map. setoid_rewrite elem_of_concat_map. naive_solver. Qed.

Lemma allConsumers_elem jobs c : c ∈ allConsumers jobs ↔ ∃ job step, job ∈ jobs ∧ step ∈ cj_Steps job ∧ c ∈ stepConsumers job step.
Proof. unfold allConsumers. rewrite elem_of_concat_map. setoid_rewrite elem_of_concat_map. naive_solver. Qed.

Lemma stepProducers_job job step p : p ∈ stepProducers job step → dp_job p = job.
Proof.
  unfold stepProducers. rewrite list_elem_of_omap. intros (x & _ & E). cbv zeta in E.
  destruct (_ =s ""); [done|]. destruct (resolveProducedDatasetSchema step x). by injection E as <-.
Qed.

Lemma stepConsumers_job job step c : c ∈ stepConsumers job step → dc_job c = job.
Proof.
  unfold stepConsumers. rewrite list_elem_of_omap. intros (x & _ & E). cbv zeta in E.
  destruct (_ =s ""); [done|]. by injection E as <-.
Qed.

Section all_declared.
Context `{SchemaLib} (jobs : list ContractJob) (jobs_ok : ∀ job, job ∈ jobs → job_ok job).

Lemma producers_ok p : p ∈ allProducers jobs → job_ok (dp_job p).
Proof using jobs_ok. rewrite allProducers_elem. intros (job & step & Hj & _ & E%stepProducers_job). subst. auto. Qed.

Lemma consumers_ok c : c ∈ allConsumers jobs → job_ok (dc_job c).
Proof using jobs_ok. rewrite allConsumers_elem. intros (job & step & Hj & _ & E%stepConsumers_job). subst. auto. Qed.

Lemma producersOf_elem name p : p ∈ sortDeclaredProducers (producersOf jobs name) ↔ p ∈ allProducers jobs ∧ dr_Name (dp_dataset p) = name.
Proof.
  unfold sortDeclaredProducers, producersOf. rewrite sort_stable_perm, !list_elem_of_In, filter_In, str_eqb_eq. done.
Qed.

Lemma consumersOf_elem name c : c ∈ sortDeclaredConsumers (consumersOf jobs name) ↔ c ∈ allConsumers jobs ∧ dr_Name (dc_dataset c) = name.
Proof.
  unfold sortDeclaredConsumers, consumersOf. rewrite sort_stable_perm, !list_elem_of_In, filter_In, str_eqb_eq. done.
Qed.

Lemma datasetNames_elem p c : p ∈ allProducers jobs → c ∈ allConsumers jobs → dr_Name (dp_dataset p) = dr_Name (dc_dataset c) →
  dr_Name (dp_dataset p) ∈ datasetNames jobs.
Proof.
  intros Hp Hc E. unfold datasetNames, sortStrings. rewrite (sort_stable_perm str_less), list_elem_of_In, filter_In, <- list_elem_of_In. split.
  - rewrite elem_of_elements, elem_of_list_to_set. apply list_elem_of_fmap. by exists p.
  - assert (c ∈ consumersOf jobs (dr_Name (dp_dataset p))) as Hin.
    { unfold consumersOf. rewrite list_elem_of_In, filter_In, <- list_elem_of_In, str_eqb_eq. done. }
    destruct (consumersOf jobs _); [set_solver|done].
Qed.

Lemma deriveDeclared_ok b previous : builder_ok b → builder_ok (deriveDeclaredEdges b jobs previous).
Proof using jobs_ok.
  intros Hb. unfold deriveDeclaredEdges. cbv zeta. apply fold_keep; [|done]. intros b' name _ Hb'.
  apply fold_keep; [|done]. intros b'' p [Hp _]%producersOf_elem. apply addProducer_ok; [by apply producers_ok|].
  intros c [Hc _]%consumersOf_elem. by apply consumers_ok.
Qed.

Lemma deriveDeclared_records b previous p c f : builder_ok b → p ∈ allProducers jobs → c ∈ allConsumers jobs →
  dr_Name (dp_dataset p) = dr_Name (dc_dataset c) → cj_Alias (dp_job p) ≠ cj_Alias (dc_job c) →
  dc_schemaKnown c = true → f ∈ requirementFindings p c → breaking f →
  ∃ f', breaking f' ∧ records (deriveDeclaredEdges b jobs previous) (cj_Alias (dp_job p)) (cj_Alias (dc_job c)) f'.
Proof using jobs_ok.
  intros Hb Hp Hc En Hne Hk Hf Hbr. unfold deriveDeclaredEdges. cbv zeta. set (name := dr_Name (dp_dataset p)).
  assert (∀ c', c' ∈ sortDeclaredConsumers (consumersOf jobs name) → job_ok (dc_job c')) as Hcok.
  { intros c' [Hc' _]%consumersOf_elem. by apply consumers_ok. }
  destruct (addProducer_new (previousByKey previous) _ p c f (producers_ok p Hp) Hcok) as (f' & Hb' & Hnew); try done.
  { apply consumersOf_elem. by rewrite <- En. }
  exists f'. split; [done|]. eapply (fold_reach builder_ok (λ b, records b _ _ f')); [| | |by eapply datasetNames_elem|done].
  - intros b' name' _ Hb1. apply fold_keep; [|done]. intros b2 p' [Hp' _]%producersOf_elem. apply addProducer_ok; [by apply producers_ok|].
    intros c' [Hc' _]%consumersOf_elem. by apply consumers_ok.
  - intros b' name' Hr. apply (fold_keep (λ b, records b _ _ f')); [|done]. intros. by apply addProducer_records.
  - intros b' Hb1. eapply (fold_reach builder_ok (λ b, records b _ _ f')); [| |exact Hnew|by apply producersOf_elem|done].
    + intros b2 p' [Hp' _]%producersOf_elem. apply addProducer_ok; [by apply producers_ok|done].
    + intros. by apply addProducer_records.
Qed.
End all_declared.

(** * The whole graph *)

Definition trimAlias (job : ContractJob) : ContractJob := withAlias job (TrimSpace (cj_Alias job)).

(** The jobs as the derivation sees them. *)
Definition normalizedJobs (input : DeriveInput) : list ContractJob := map trimAlias (sortJobs (di_Jobs input)).

Lemma addJobs_result idx seen b jobs jobs' b' : addJobs idx seen b jobs = inr (jobs', b') →
  jobs' = map trimAlias jobs ∧ gb_edges b' = gb_edges b ∧ ∀ job, job ∈ jobs' → cj_Alias job ≠ "".
Proof.
  revert idx seen b jobs' b'. induction jobs as [|job jobs IH]; intros idx seen b jobs' b'; simpl.
  { intros [= <- <-]. split_and!; [done..|]. set_solver. }
  fold (trimAlias job). unfold require. destruct (negb _) eqn:En; [|done]. case_bool_decide; [|done]. cbn.
  destruct (addJobs _ _ _ jobs) as [|[l b1]] eqn:E; [done|]. intros [= <- <-].
  apply IH in E as (-> & Eb & Hne). rewrite Eb, addJob_edges. split_and!; [done..|].
  intros job' [->|Hin]%elem_of_cons; [|by apply Hne]. bool_prop. done.
Qed.

Lemma addInferredEdges_records jobs b pairs b' x y f : addInferredEdges jobs b pairs = inr b' → records b x y f → records b' x y f.
Proof.
  revert b. induction pairs as [|p pairs IH]; intros b; simpl; [by intros [= <-]|].
  destruct (addPair jobs b p) as [|b1] eqn:E; [done|]. intros E' Hr. apply (IH b1 E'). clear IH E'.
  unfold addPair in E. cbv zeta in E. destruct (wrap _ _) as [|refs]; [done|]. cbn in E.
  destruct (jobsByAlias jobs !! p.1) as [producer|]; injection E as <-; apply builderAddEdge_records; [done|].
  eapply records_edges; [apply addJob_edges|done].
Qed.

Lemma evidence_records b l x y f : records b x y f → records (deriveEvidenceEdges b l) x y f.
Proof.
  intros Hr. unfold deriveEvidenceEdges. apply (fold_keep (λ b, records b x y f)); [|done].
  intros b' r _ Hb. unfold addEvidence. cbv zeta. destruct (_ || _ || _); [done|]. destruct (_ && _); [done|].
  apply builderAddEdge_records. eapply records_edges; [|exact Hb]. by rewrite addDataset_edges, !addJob_edges.
Qed.

(** A producer and a consumer of one dataset in different jobs, with a requirement. *)
Definition contract_pair (input : DeriveInput) (p : declaredProducer) (c : declaredConsumer) : Prop :=
  p ∈ allProducers (normalizedJobs input) ∧ c ∈ allConsumers (normalizedJobs input) ∧
  dr_Name (dp_dataset p) = dr_Name (dc_dataset c) ∧ cj_Alias (dp_job p) ≠ cj_Alias (dc_job c) ∧ dc_schemaKnown c = true.

(** An edge of the graph with a breaking finding, between two aliases. *)
Definition graph_breaks (graph : ContractGraph) (a c : string) : Prop :=
  ∃ e f, e ∈ g_Edges graph ∧ ed_From e = "job:" +:+ a ∧ ed_To e = "job:" +:+ c ∧
    f ∈ ed_Findings e ∧ breaking f ∧ ed_Verdict e = VerdictBreaking.

Lemma builderGraph_edges b e : e ∈ g_Edges (builderGraph b) ↔ ∃ id, gb_edges b !! id = Some e.
Proof.
  simpl. rewrite sort_stable_perm, list_elem_of_fmap. split.
  - intros ([id e'] & -> & Hin). exists id. by apply elem_of_map_to_list.
  - intros (id & E). exists (id, e). split; [done|]. by apply elem_of_map_to_list.
Qed.

Lemma records_graph b a c f : records b a c f → breaking f → graph_breaks (builderGraph b) a c.
Proof.
  intros (id & e & He & Ef & Et & Hf & Hv) Hb. exists e, f. split_and!; try done. apply builderGraph_edges. by exists id.
Qed.

Lemma derive_breaks `{SchemaLib} uuid_String input graph p c f :
  DeriveGraph uuid_String input = inr graph → (∀ job, job ∈ di_Jobs input → plain_alias (TrimSpace (cj_Alias job))) →
  contract_pair input p c → f ∈ requirementFindings p c → breaking f →
  graph_breaks graph (cj_Alias (dp_job p)) (cj_Alias (dc_job c)).
Proof.
  intros HD Hplain (Hp & Hc & En & Hne & Hk) Hf Hb. unfold DeriveGraph in HD.
  destruct (addJobs _ _ _ _) as [|[jobs b]] eqn:Ej; [done|]. cbn in HD. apply addJobs_result in Ej as (Ejobs & Eb & Haliases).
  fold (normalizedJobs input) in Ejobs.
  destruct (deriveInferredEdges _ _ _) as [|b1] eqn:Ei; [done|]. cbn in HD. injection HD as <-.
  assert (∀ job, job ∈ jobs → job_ok job) as Hok.
  { intros job Hin. pose proof (Haliases job Hin) as Hn. rewrite Ejobs in Hin. unfold normalizedJobs in Hin.
    apply list_elem_of_fmap in Hin as (j & -> & Hj). unfold sortJobs in Hj. rewrite sort_stable_perm in Hj.
    split_and!; [apply TrimSpace_idemp|done|by apply Hplain]. }
  rewrite <- Ejobs in Hp, Hc.
  destruct (deriveDeclared_records jobs Hok b (di_PreviousProducerSchemas input) p c f) as (f' & Hb' & Hr); try done.
  { intros id e He. rewrite Eb in He. done. }
  eapply (records_graph _ _ _ f'); [|done]. apply evidence_records.
  unfold deriveInferredEdges in Ei. destruct (inferredPairs _ _ _ _); [done|]. by eapply addInferredEdges_records.
Qed.

Lemma derived_aliases `{SchemaLib} uuid_String input graph p c : DeriveGraph uuid_String input = inr graph → contract_pair input p c →
  TrimSpace (cj_Alias (dp_job p)) = cj_Alias (dp_job p) ∧ cj_Alias (dp_job p) ≠ "" ∧
  TrimSpace (cj_Alias (dc_job c)) = cj_Alias (dc_job c) ∧ cj_Alias (dc_job c) ≠ "".
Proof.
  intros HD (Hp & Hc & _). unfold DeriveGraph in HD.
  destruct (addJobs _ _ _ _) as [|[jobs b]] eqn:Ej; [done|]. apply addJobs_result in Ej as (Ejobs & _ & Hne).
  fold (normalizedJobs input) in Ejobs. rewrite <- Ejobs in Hp, Hc.
  apply allProducers_elem in Hp as (j & ? & Hj & _ & Ej%stepProducers_job).
  apply allConsumers_elem in Hc as (k & ? & Hk & _ & Ek%stepConsumers_job). subst j k.
  pose proof (Hne _ Hj) as Nj. pose proof (Hne _ Hk) as Nk. rewrite Ejobs in Hj, Hk. unfold normalizedJobs in Hj, Hk.
  apply list_elem_of_fmap in Hj as (j & Ej & _), Hk as (k & Ek & _). rewrite Ej, Ek in *.
  split_and!; [apply TrimSpace_idemp|done|apply TrimSpace_idemp|done].
Qed.

(** * Groups *)

Definition grouped_with (m : gmap string breakingGroup) (cf : ContractFinding) : Prop :=
  ∃ g, m !! groupKey cf = Some g ∧ cf ∈ bg_findings g.

Lemma addToGroup_keeps m x cf : grouped_with m cf → grouped_with (addToGroup m x) cf.
Proof.
  intros (g & Hg & Hin). unfold addToGroup, grouped_with. cbv zeta.
  destruct (decide (groupKey x = groupKey cf)) as [E|Hne].
  - rewrite E, lookup_insert_eq, Hg. eexists. split; [done|]. cbn. rewrite elem_of_app. by left.
  - rewrite lookup_insert_ne by done. by exists g.
Qed.

Lemma addToGroup_new m cf : grouped_with (addToGroup m cf) cf.
Proof. unfold addToGroup, grouped_with. cbv zeta. rewrite lookup_insert_eq. eexists. split; [done|]. cbn. rewrite elem_of_app. right. by left. Qed.

Lemma grouped_all l cf : cf ∈ l → grouped_with (fold_left addToGroup l ∅) cf.
Proof.
  intros Hin. eapply (fold_reach (λ _, True) (λ m, grouped_with m cf)); [done| | |exact Hin|done].
  - intros m y. apply addToGroup_keeps.
  - intros m _. apply addToGroup_new.
Qed.

(** The finding is in the scope of the apply. *)
Definition in_scope (opts : EnforceOptions) (a c : string) : Prop :=
  match eo_IncomingAliases opts with None => True | Some aliases => a ∈ aliases ∨ c ∈ aliases end.

Section gate.
Context `{GateEnv}.

(** A group of the graph with a finding between two jobs. *)
Definition group_for (graph : ContractGraph) (opts : EnforceOptions) (a c : string) (g : breakingGroup) : Prop :=
  g ∈ breakingGroupsFromGraph graph (eo_IncomingAliases opts) ∧
  ∃ cf, cf ∈ bg_findings g ∧ cf_Producer cf = a ∧ cf_Consumer cf = c.

Lemma breaks_grouped graph opts a c : TrimSpace a = a → a ≠ "" → TrimSpace c = c → c ≠ "" → in_scope opts a c →
  graph_breaks graph a c → ∃ g, group_for graph opts a c g.
Proof.
  intros Ta Na Tc Nc Hs (e & f & He & Ef & Et & Hf & Hb & Hv).
  unfold group_for, breakingGroupsFromGraph. cbv zeta. set (nodes := fold_left _ (g_Nodes graph) _).
  set (cf := contractFindingFromEdge e f nodes).
  assert (cf_Producer cf = a) as Ea by (simpl; by rewrite Ef, trim_job, trimprefix_job by done).
  assert (cf_Consumer cf = c) as Ec by (simpl; by rewrite Et, trim_job, trimprefix_job by done).
  assert (cf ∈ concat (map (edgeContractFindings nodes (eo_IncomingAliases opts)) (g_Edges graph))) as Hin.
  { apply elem_of_concat_map. exists e. split; [done|]. unfold edgeContractFindings. rewrite Hv. simpl.
    apply list_elem_of_omap. exists f. split; [done|]. unfold breaking in Hb. rewrite Hb. simpl. fold cf.
    unfold contractFindingInIncomingScope, in_scope in *. destruct (eo_IncomingAliases opts) as [aliases|]; [|done].
    rewrite Ea, Ec, Ta, Tc. destruct Hs as [Hs|Hs]; rewrite (bool_decide_eq_true_2 _ Hs), ?orb_true_r; done. }
  destruct (grouped_all _ _ Hin) as (g & Hg & Hcf). exists (sealGroup g). split.
  - rewrite sort_stable_perm. apply list_elem_of_fmap. exists (groupKey cf, g). split; [done|]. by apply elem_of_map_to_list.
  - exists (withDigest (bg_digest (sealGroup g)) cf). split; [|done]. cbn. apply list_elem_of_fmap. exists cf. split; [done|].
    unfold sortContractFindings. by rewrite sort_stable_perm.
Qed.

(** An unexpired acknowledgement of a digest. *)
Definition acknowledged (acks : list ContractAck) (now : Z) (digest : string) : Prop :=
  ∃ ack, ack ∈ acks ∧ ak_EdgeSetDigest ack = digest ∧ now < ak_ExpiresAt ack.

Lemma acknowledged_app acks acks' now digest : acknowledged acks now digest → acknowledged (acks ++ acks') now digest.
Proof. intros (ack & Hin & H'). exists ack. rewrite elem_of_app. naive_solver. Qed.

Lemma validAck_acknowledged acks digest now ack : validAckForDigest acks digest now = Some ack → acknowledged acks now digest.
Proof.
  unfold validAckForDigest, first. set (l := sort_stable _ _). intros E.
  assert (ack ∈ l) as Hin by (destruct l; [done|]; injection E as ->; by left).
  unfold l in Hin. rewrite sort_stable_perm, select_elem in Hin. destruct Hin as [Hin Hp]. bool_prop. by exists ack.
Qed.

Lemma gateGroup_result opts window now st g st' : 0 < window → gateGroup opts window now st g = inr st' →
  (∃ new, gs_acks st' = gs_acks st ++ new) ∧ (∃ new, gs_blocked st' = gs_blocked st ++ new) ∧
  (bg_findings g ≠ [] → gs_blocked st' = [] → acknowledged (gs_acks st') now (bg_digest g)).
Proof.
  intros Hw. unfold gateGroup. cbv zeta. destruct (lookupFails _); [done|].
  destruct (validAckForDigest _ _ _) as [ack|] eqn:Ea.
  { intros [= <-]. cbn. split_and!; [by exists []; rewrite app_nil_r..|]. intros _ _. by eapply validAck_acknowledged. }
  assert (∀ matched, @inr enforce_error _ (mkGateState (gs_acks st) (gs_events st) (gs_warnings st) (gs_blocked st ++ bg_findings g) matched) =
    inr st' → (∃ new, gs_acks st' = gs_acks st ++ new) ∧ (∃ new, gs_blocked st' = gs_blocked st ++ new) ∧
    (bg_findings g ≠ [] → gs_blocked st' = [] → acknowledged (gs_acks st') now (bg_digest g))) as Hblock.
  { intros matched E. injection E as <-. cbn. split_and!; [by exists []; rewrite app_nil_r|by eexists|].
    intros Hne [_ Hnil]%app_nil. done. }
  destruct (eo_AllowBreaking opts) as [allow|]; [|apply Hblock].
  destruct (allowBreakingMatches allow g); [|apply Hblock].
  destruct (createFails _); [done|]. destruct (emitContractBreakDeclaredEvents _ _ _) as [new|]; [|done]. intros [= <-]. cbn.
  split_and!; [by eexists|by exists []; rewrite app_nil_r|]. intros _ _.
  eexists. split; [rewrite elem_of_app; right; by left|]. cbn. split; [done|lia].
Qed.

Lemma gateGroups_result opts window now groups st st' : 0 < window → gateGroups opts window now st groups = inr st' →
  (∃ new, gs_acks st' = gs_acks st ++ new) ∧ (∃ new, gs_blocked st' = gs_blocked st ++ new) ∧
  (gs_blocked st' = [] → ∀ g, g ∈ groups → bg_findings g ≠ [] → acknowledged (gs_acks st') now (bg_digest g)).
Proof.
  intros Hw. revert st. induction groups as [|g groups IH]; intros st; simpl.
  { intros [= <-]. split_and!; [by exists []; rewrite app_nil_r..|]. set_solver. }
  destruct (gateGroup _ _ _ _ _) as [|st1] eqn:Eg; [done|]. intros E.
  destruct (gateGroup_result _ _ _ _ _ _ Hw Eg) as ((a1 & A1) & (b1 & B1) & Hg).
  destruct (IH st1 E) as ((a2 & A2) & (b2 & B2) & Hrest). split_and!.
  - exists (a1 ++ a2). by rewrite A2, A1, app_assoc.
  - exists (b1 ++ b2). by rewrite B2, B1, app_assoc.
  - intros Hnil g' [->|Hin]%elem_of_cons Hne; [|by apply Hrest].
    rewrite A2. apply acknowledged_app, Hg; [done|]. rewrite B2 in Hnil. by apply app_nil in Hnil as [-> _].
Qed.

Lemma evaluate_acknowledged acks graph mode now opts acks' events warnings g :
  normalizeMode mode = EnforcementModeFail → EvaluateGraphWithOptions acks graph mode now opts = inr (acks', events, warnings) →
  g ∈ breakingGroupsFromGraph graph (eo_IncomingAliases opts) → bg_findings g ≠ [] → acknowledged acks' now (bg_digest g).
Proof.
  intros Hm HE Hg Hne. unfold EvaluateGraphWithOptions in HE. cbv zeta in HE. rewrite Hm in HE. simpl in HE.
  set (window := if eo_DeprecationWindow opts =? 0 then defaultDeprecationWindow else eo_DeprecationWindow opts) in *.
  destruct (window <? 0) eqn:Ew; [done|].
  assert (0 < window) as Hw.
  { unfold window in *. destruct (eo_DeprecationWindow opts =? 0) eqn:E0; bool_prop; [unfold defaultDeprecationWindow; lia|lia]. }
  destruct (length _ =? 0)%nat eqn:El.
  { apply Nat.eqb_eq, length_zero_iff_nil in El. rewrite El in Hg. set_solver. }
  destruct (gateGroups _ _ _ _ _) as [|st] eqn:Eg; [done|].
  destruct (gateGroups_result _ _ _ _ _ _ Hw Eg) as (_ & _ & Hall).
  destruct (length (gs_blocked st) =? 0)%nat eqn:Eb; [|done]. apply Nat.eqb_eq, length_zero_iff_nil in Eb.
  assert (acks' = gs_acks st) as ->; [|by apply Hall].
  destruct (eo_AllowBreaking opts); [destruct (_ && _); [done|]|]; congruence.
Qed.

(** C21: When enforcement in fail mode lets an apply through, every consumer of a
    declared dataset in its scope is served, provided the producer's and the consumer's
    schema, as copied into the graph, compile, and no job's alias contains the separators
    ':' and '>' of edge identifiers: each document valid under the producer's schema has
    the types and required keys of the consumer's schema wherever both describe it, or an
    unexpired acknowledgement covers the group of breaking findings between the two jobs.
    Both conditions are needed, see [copied_schema_evades_gate] and
    [edge_identifiers_collide]. *)
Theorem contract_gate_sound `{SchemaLib} uuid_String input graph acks mode now opts acks' events warnings p c :
  DeriveGraph uuid_String input = inr graph → (∀ job, job ∈ di_Jobs input → plain_alias (TrimSpace (cj_Alias job))) →
  normalizeMode mode = EnforcementModeFail → EvaluateGraphWithOptions acks graph mode now opts = inr (acks', events, warnings) →
  contract_pair input p c → in_scope opts (cj_Alias (dp_job p)) (cj_Alias (dc_job c)) →
  let producer := schemaForCompare (dp_schema p) (dp_schemaKnown p) in
  validateSchema "producer schema" producer = [] → validateSchema "consumer requirement" (dc_schema c) = [] →
  (∀ v, valid true producer v → respects producer (dc_schema c) v) ∨
  ∃ g, group_for graph opts (cj_Alias (dp_job p)) (cj_Alias (dc_job c)) g ∧ acknowledged acks' now (bg_digest g).
Proof.
  intros HD Hplain Hm HE Hpair Hscope producer Vp Vc.
  destruct (decide (Forall (λ f, f_Verdict f ≠ VerdictBreaking) (requirementFindings p c))) as [Hno|Hyes].
  { left. intros v. apply satisfies_respects; [done..|]. intros f Hf. rewrite Forall_forall in Hno. by apply Hno. }
  right. apply not_Forall_Exists in Hyes; [|apply _]. apply Exists_exists in Hyes as (f & Hf & Hb). apply dec_stable in Hb.
  destruct (derived_aliases uuid_String input graph p c HD Hpair) as (Tp & Np & Tc & Nc).
  destruct (breaks_grouped graph opts _ _ Tp Np Tc Nc Hscope) as (g & Hg & Hcf); [by eapply derive_breaks|].
  exists g. split; [by split|]. eapply evaluate_acknowledged; [done..|].
  destruct Hcf as (cf & Hin & _). destruct (bg_findings g); [set_solver|done].
Qed.
(** * The gate without a declared break *)

Lemma groups_nonempty graph aliases g : g ∈ breakingGroupsFromGraph graph aliases → bg_findings g ≠ [].
Proof.
  unfold breakingGroupsFromGraph. cbv zeta. set (l := concat _). rewrite sort_stable_perm, list_elem_of_fmap.
  intros ([k g'] & -> & Hin). apply elem_of_map_to_list in Hin. cbn. intros E. apply fmap_nil_inv in E.
  assert (∀ k g, fold_left addToGroup l ∅ !! k = Some g → bg_findings g ≠ []) as Hall.
  { apply (fold_keep (λ m : gmap string breakingGroup, ∀ k g, m !! k = Some g → bg_findings g ≠ [])); [|done].
    intros m cf _ Hm k0 g0. unfold addToGroup. cbv zeta. destruct (decide (groupKey cf = k0)) as [<-|Hne].
    - rewrite lookup_insert_eq. intros [= <-]. cbn. intros [_ ?]%app_nil. done.
    - rewrite lookup_insert_ne by done. apply Hm. }
  apply (Hall k g' Hin). apply Permutation_nil_r. rewrite <- E. symmetry. apply sort_stable_perm.
Qed.

Lemma acknowledged_validAck acks digest now : acknowledged acks now digest → is_Some (validAckForDigest acks digest now).
Proof.
  intros (ack & Hin & Ed & Hn). unfold validAckForDigest, first. set (l := sort_stable _ _).
  assert (ack ∈ l) as Hl.
  { unfold l. rewrite sort_stable_perm, select_elem. split; [done|]. rewrite Ed, str_eqb_refl. by apply Z.ltb_lt. }
  destruct l; [set_solver|by eexists].
Qed.

(** The groups that no unexpired acknowledgement covers. *)
Definition covered (acks : list ContractAck) (now : Z) (g : breakingGroup) : bool :=
  existsb (λ ack, (ak_EdgeSetDigest ack =s bg_digest g) && (now <? ak_ExpiresAt ack)) acks.

Definition uncovered (acks : list ContractAck) (now : Z) (groups : list breakingGroup) : list breakingGroup :=
  List.filter (λ g, negb (covered acks now g)) groups.

Lemma covered_spec acks now g : covered acks now g = true ↔ acknowledged acks now (bg_digest g).
Proof.
  unfold covered, acknowledged. rewrite existsb_exists. setoid_rewrite andb_true_iff. setoid_rewrite str_eqb_eq.
  setoid_rewrite Z.ltb_lt. by setoid_rewrite list_elem_of_In.
Qed.

Lemma uncovered_nil acks now groups : uncovered acks now groups = [] ↔ ∀ g, g ∈ groups → acknowledged acks now (bg_digest g).
Proof.
  unfold uncovered. setoid_rewrite <- covered_spec. induction groups as [|g l IH]; simpl; [split; [set_solver|done]|].
  destruct (covered acks now g) eqn:E; simpl; [rewrite IH; set_solver|]. split; [done|]. intros H1. rewrite H1 in E; [done|set_solver].
Qed.

Section undeclared.
Context (opts : EnforceOptions) (window now : Z) (no_allow : eo_AllowBreaking opts = None)
  (lookup_ok : ∀ digest, lookupFails digest = false).

(** The loop blocks the findings of the uncovered groups, in order. *)
Lemma gateGroups_undeclared groups st : ∃ st', gateGroups opts window now st groups = inr st' ∧
  gs_acks st' = gs_acks st ∧ gs_events st' = gs_events st ∧
  gs_blocked st' = gs_blocked st ++ concat (map bg_findings (uncovered (gs_acks st) now groups)).
Proof using no_allow lookup_ok.
  revert st. induction groups as [|g groups IH]; intros st; simpl; [exists st; split_and!; [done..|by rewrite app_nil_r]|].
  unfold gateGroup at 1. cbv zeta. rewrite lookup_ok, no_allow.
  destruct (validAckForDigest _ _ _) as [ack|] eqn:Ea.
  - destruct (IH (mkGateState (gs_acks st) (gs_events st)
      (gs_warnings st ++ warningsForAcknowledgedGroup (withFindings g (map (acknowledge (ackText (ak_ID ack))) (bg_findings g))) ack (eo_IncomingAliases opts))
      (gs_blocked st) (gs_allowMatched st || false))) as (st' & E & Ha & Hev & Hb).
    exists st'. split_and!; [done..|]. rewrite Hb. cbn. by rewrite (proj2 (covered_spec _ _ g) (validAck_acknowledged _ _ _ _ Ea)).
  - destruct (IH (mkGateState (gs_acks st) (gs_events st) (gs_warnings st) (gs_blocked st ++ bg_findings g) (gs_allowMatched st)))
      as (st' & E & Ha & Hev & Hb).
    exists st'. split_and!; [done..|]. rewrite Hb. cbn. destruct (covered (gs_acks st) now g) eqn:Ec; [|simpl; by rewrite app_assoc].
    apply covered_spec, acknowledged_validAck in Ec as [? ?]. congruence.
Qed.
End undeclared.

(** C23: In fail mode, when no break is declared with the apply, the deprecation window is
    not negative and the lookups of acknowledgements succeed, the gate lets the apply
    through exactly when every group of breaking findings in its scope has an unexpired
    acknowledgement, and then stores and emits nothing; otherwise it returns exactly the
    findings of the groups without one, each as often as it occurs, under the message
    made of them. *)
Theorem gate_accepts_iff acks graph mode now opts :
  normalizeMode mode = EnforcementModeFail → eo_AllowBreaking opts = None → 0 ≤ eo_DeprecationWindow opts →
  (∀ digest, lookupFails digest = false) →
  let groups := breakingGroupsFromGraph graph (eo_IncomingAliases opts) in
  let accepted := ∀ g, g ∈ groups → acknowledged acks now (bg_digest g) in
  (accepted ∧ ∃ warnings, EvaluateGraphWithOptions acks graph mode now opts = inr (acks, [], warnings)) ∨
  (¬ accepted ∧ ∃ findings, findings ≠ [] ∧
     findings ≡ₚ concat (map bg_findings (uncovered acks now groups)) ∧
     EvaluateGraphWithOptions acks graph mode now opts = inl (EnforcementError (contractBreakMessage findings) findings)).
Proof.
  intros Hm Hno Hw Hl groups accepted. unfold EvaluateGraphWithOptions. cbv zeta. rewrite Hm. simpl.
  destruct (_ <? 0) eqn:Ew; [exfalso; destruct (_ =? 0); bool_prop; [done|lia]|].
  fold groups.
  destruct (gateGroups_undeclared opts (if eo_DeprecationWindow opts =? 0 then defaultDeprecationWindow else eo_DeprecationWindow opts) now Hno Hl
    groups (mkGateState acks [] [] [] false)) as (st & E & Ha & Hev & Hb).
  cbn in Ha, Hev, Hb. rewrite E, Hno.
  destruct (length groups =? 0)%nat eqn:El.
  { left. apply Nat.eqb_eq, length_zero_iff_nil in El. split; [|by eexists]. intros g Hg. rewrite El in Hg. set_solver. }
  destruct (uncovered acks now groups) as [|g l] eqn:Eu.
  - left. rewrite Hb. simpl. split; [exact (proj1 (uncovered_nil _ _ _) Eu)|]. rewrite Ha, Hev. by eexists.
  - right. split; [intros Hacc; pose proof (proj2 (uncovered_nil _ _ _) Hacc); congruence|].
    assert (concat (map bg_findings (g :: l)) ≠ []) as Hne.
    { simpl. intros [Hnil _]%app_nil. apply (groups_nonempty graph (eo_IncomingAliases opts) g); [|done].
      assert (g ∈ uncovered acks now groups) as Hg by (rewrite Eu; by left). unfold uncovered in Hg.
      by apply list_elem_of_In, List.filter_In in Hg as [Hg%list_elem_of_In _]. }
    rewrite <- Hb in *. destruct (gs_blocked st) as [|cf blocked] eqn:Eb; [done|].
    cbn [length Nat.eqb]. exists (sortContractFindings (cf :: blocked)). split_and!; [|apply sort_stable_perm|done].
    intros Hnil. apply (f_equal length) in Hnil. unfold sortContractFindings in Hnil. by rewrite sort_stable_length in Hnil.
Qed.
End gate.

(** * A producer and a consumer *)

Definition sampleEnv : GateEnv := {|
  sha256Digest := λ _ subject edges, String.concat "|" (subject :: map df_Detail edges);
  ackText := λ _, "ack";
  timeText := λ _, "later";
  newAckID := λ _, 1%N;
  lookupFails := λ _, false;
  createFails := λ _, false;
  consumerJobs := Some [(2%N, "billing")];
  emitFails := λ _, false;
|}.

Definition noTrigger : ContractTrigger := mkContractTrigger "cron" [].

(** One job that produces [orders] under a schema, one that consumes it. *)
Definition exportStep (produced : goMap) : ContractStep := mkContractStep "export" [] [mkContractProduced "orders" produced ""] [].
Definition loadStep (required : goMap) : ContractStep := mkContractStep "load" [] [] [mkContractConsumed " orders" required].
Definition shop (produced : goMap) : ContractJob := mkContractJob 1%N "shop" [] noTrigger [exportStep produced] true.
Definition billing (required : goMap) : ContractJob := mkContractJob 2%N "billing" [("team", "money")] noTrigger [loadStep required] false.
Definition ordersInput (produced required : goMap) : DeriveInput := mkDeriveInput [shop produced; billing required] [] [].

Definition shopProducer (produced : goMap) : declaredProducer :=
  mkDeclaredProducer (shop produced) (exportStep produced) (mkDatasetRef "" "orders") (cloneAnyMap produced) true.
Definition billingConsumer (required : goMap) : declaredConsumer :=
  mkDeclaredConsumer (billing required) (loadStep required) (mkDatasetRef "" "orders") (cloneAnyMap required) true.

Definition derived {A} (r : checked A) (d : A) : A := match r with inr a => a | inl _ => d end.
Definition noGraph : ContractGraph := mkContractGraph [] [].
Definition ordersGraph (lib : SchemaLib) (produced required : goMap) : ContractGraph :=
  derived (@DeriveGraph (λ _, "") lib (ordersInput produced required)) noGraph.

Definition applyShop : EnforceOptions := mkEnforceOptions None 0 true (Some {["shop"]}) false.

Definition gateAnswer (lib : SchemaLib) (produced required : goMap) :
    enforce_error + (list ContractAck * list ContractEvent * list ContractWarning) :=
  @EvaluateGraphWithOptions sampleEnv [] (ordersGraph lib produced required) "fail" 0 applyShop.

Lemma contract_gate_sound_witness :
  (∀ v, valid true orderSchema v → respects orderSchema orderRequirement v) ∨
  ∃ g, @group_for sampleEnv (ordersGraph sampleLib orderSchema orderRequirement) applyShop "shop" "billing" g ∧
       acknowledged [] 0 (bg_digest g).
Proof.
  apply (@contract_gate_sound sampleEnv sampleLib (λ _, "") (ordersInput orderSchema orderRequirement)
    (ordersGraph sampleLib orderSchema orderRequirement) [] "fail" 0 applyShop [] [] []
    (shopProducer orderSchema) (billingConsumer orderRequirement)).
  - vm_compute. reflexivity.
  - intros job Hjob. apply elem_of_cons in Hjob as [->|Hjob]; [vm_compute; done|].
    apply list_elem_of_singleton in Hjob as ->. vm_compute. done.
  - vm_compute. reflexivity.
  - vm_compute. reflexivity.
  - unfold contract_pair. split_and!; [vm_compute; left|vm_compute; left|vm_compute; reflexivity|vm_compute; discriminate|vm_compute; reflexivity].
  - left. change ("shop" ∈ ({["shop"]} : gset string)). set_solver.
  - vm_compute. reflexivity.
  - vm_compute. reflexivity.
Defined.

(** A breaking schema is blocked: the gate names the finding. *)
Lemma broken_contract_blocked : ∃ message findings,
  gateAnswer sampleLib (typed "object") orderRequirement = inl (EnforcementError message findings) ∧
  map cf_OutputKey findings = ["id"].
Proof. eexists _, _. split; [vm_compute; reflexivity|vm_compute; reflexivity]. Qed.

(** The break is let through within the window of an acknowledgement and refused after it. *)
Definition breakAck (digest : string) : ContractAck := mkContractAck 7%N "orders" digest "ops" "" 0 100.
Definition brokenGraph : ContractGraph := ordersGraph sampleLib (typed "object") orderRequirement.
Definition brokenDigests : list string := map bg_digest (@breakingGroupsFromGraph sampleEnv brokenGraph (Some {["shop"]})).

Lemma gate_accepts_iff_witness : ∃ warnings,
  @EvaluateGraphWithOptions sampleEnv (map breakAck brokenDigests) brokenGraph " Fail" 99 applyShop =
  inr (map breakAck brokenDigests, [], warnings).
Proof.
  destruct (@gate_accepts_iff sampleEnv (map breakAck brokenDigests) brokenGraph " Fail" 99 applyShop) as [[_ Hacc]|[Hno _]];
    [vm_compute; reflexivity|reflexivity|vm_compute; discriminate|reflexivity|exact Hacc|].
  exfalso. apply Hno. intros g Hg. exists (breakAck (bg_digest g)). split; [|split; [reflexivity|vm_compute; reflexivity]].
  apply list_elem_of_fmap. exists (bg_digest g). split; [reflexivity|]. apply list_elem_of_fmap. exists g. split; [reflexivity|exact Hg].
Defined.

Lemma acknowledgement_expires : ∃ message findings,
  @EvaluateGraphWithOptions sampleEnv (map breakAck brokenDigests) brokenGraph "fail" 100 applyShop =
  inl (EnforcementError message findings).
Proof. eexists _, _. vm_compute. reflexivity. Qed.

(** * Where the gate falls short *)

(** A compiler that accepts a document unless it has null in the place of a schema. *)
Fixpoint hasNullMember (s : string) : bool :=
  String.prefix ":null" s || match s with EmptyString => false | String _ s => hasNullMember s end.

Definition strictLib : SchemaLib := {|
  encodeString := quoted;
  encodeFloat := λ _, None;
  encodeNumber := Some;
  marshalError := λ _, "unsupported value";
  goSyntax := λ _, "";
  numberFloat64 := λ _, None;
  schemaDoc := string;
  UnmarshalJSON := inr;
  AddResource := λ _, None;
  Compile := λ doc, if hasNullMember doc then Some "expected boolean or object, but got null" else None;
|}.

Definition emptyProperty : goMap := [("type", AStr "object"); ("properties", AMap [("email", AMap [])])].

(** The copy that the derivation makes of a schema turns an empty property schema
    into a nil map, which is encoded as null: the schema compiles, its copy does not, the
    comparison is skipped, and the gate lets the producer through although its schema
    breaks the consumer's requirement. *)
Lemma copied_schema_evades_gate :
  @validateSchema strictLib "producer schema" emptyProperty = [] ∧
  ¬ no_breaking (@Satisfies strictLib emptyProperty orderRequirement) ∧
  @validateSchema strictLib "producer schema" (cloneAnyMap emptyProperty) ≠ [] ∧
  gateAnswer strictLib emptyProperty orderRequirement = inr ([], [], []).
Proof.
  split_and!; [vm_compute; reflexivity| |vm_compute; discriminate|vm_compute; reflexivity].
  intros H. eapply (H (finding FindingKindRequirementUnsatisfied ["properties"; "id"] VerdictBreaking _)); [|reflexivity].
  vm_compute. left.
Qed.

(** Different pairs of jobs can have one edge identifier, so that their findings are
    merged into the edge of the first pair. *)
Lemma edge_identifiers_collide :
  let edge from to := mkContractEdge "" (JobNodeID from) (JobNodeID to) EdgeClassDeclared VerdictCompatible []
                        (Some (mkDatasetRef "" "orders")) [] [] [] None in
  edgeID (edge "a" "b->job:c") = edgeID (edge "a->job:b" "c").
Proof. vm_compute. reflexivity. Qed.
